(* ===== verification/_CoqProject ===== *)
-Q . S2P
Prelude.v
Bytes.v
Core.v
KeyCodec.v
ValueCodec.v
Storage.v
Wal.v
Checksum.v
TtlIndex.v
Quota.v
Throttle.v
Watch.v
Config.v
ConfigLoad.v
Service.v
Node.v
NodeSpec.v
Sample.v
Sweeper.v
Interleave.v
Writers.v
Linear.v
Overshoot.v
Mirror.v
Hub.v
Races.v
Auth.v
Grpc.v
GrpcSpec.v
Follow.v
Server.v
Cli.v
Admin.v
Operators.v
AdminHttp.v
Process.v
Hashing.v
Coord.v
Fuzz.v
TestKit.v
TestsCore.v
TestsNode.v
TestsService.v
TestsEdge.v
TestsGrpc.v
Proptests.v
