(* ===== verification/Prelude.v ===== *)
(** * FerrisKV: a verification of the node, the codecs and the coordinator

    FerrisKV is a multi-tenant key-value store.  A node keeps every tenant's data in
    one ordered keyspace; a write goes to a write-ahead log, then to storage, then
    into the TTL index, the tenant's usage counters and the watch feeds; a gRPC
    server in front of it authenticates, authorizes, limits and audits.  This
    library translates that code into Rocq functions and proves what makes it
    correct.  All paths below are under [src/crates] unless they start with [fuzz].

    ** The files, from the bottom up

    - [Prelude] (this file): Rust's [Result] with panics as a third outcome, the
      state monad [M] whose errors keep the state reached, 64-bit arithmetic with
      its wrap-around and saturation, tactics, hints, list lemmas.
    - [Bytes]: bytes, lexicographic order, slices that panic out of range,
      endianness, UTF-8 validity.
    - [Core]: [ferriskv-core/src/error.rs], [limits.rs], [clock.rs].
    - [KeyCodec], [ValueCodec]: [ferriskv-core/src/key.rs], [value.rs].
    - [Storage]: [ferriskv-core/src/storage.rs].  The trait is the class [Storage];
      [StorageLaws] is what it promises its users, proved of the memory backend, of
      the fjall backend given the engine's contract ([FjallOk]), and of the
      dispatcher.  The engine takes keys of 1 to 65535 bytes and values of less than
      2{^32}; [admits] says so of an entry, and of others nothing is promised.
    - [Wal]: [ferriskv-node/src/wal.rs], over a file whose calls can fail, a write
      after any number of bytes.
    - [Checksum]: what the log's checksum detects, and what it does not.
    - [TtlIndex], [Sweeper]: [ferriskv-node/src/ttl.rs].
    - [Quota], [Throttle], [Watch], [Config]: the files of the same name under
      [ferriskv-node/src]; [ConfigLoad]: the defaults of the fields a configuration
      file leaves out.
    - [Service]: [ferriskv-node/src/service.rs], the state of a node ([NodeService])
      and its operations, composed from the files above in the order of the code.
    - [Node]: the node's invariant ([node_ok]) and what every operation does when
      the device and the backend work ([env_ok]).
    - [NodeSpec]: the abstract store, a map from tenant and key to value and expiry;
      the step relation of a node with its crashes; refinement and invariants.
    - [Sample]: a concrete instance of every parameter, and a small node; the
      node-level witnesses.
    - [Interleave]: the writes of [Service] and the sweep of a key cut into their
      component calls, as tasks that run interleaved on one node; [Writers]: what
      every interleaving of writers on different keys keeps; [Linear]: readers beside
      them, and the order of what they all did; [Overshoot]: how far puts together
      can pass a quota; [Mirror]: a client that subscribes, scans and follows; [Hub]:
      when a watch channel goes away; [Races]: what writers on one key, a rotation and
      a sweep can do to each other.
    - [Auth]: [ferriskv-auth/src], [ferriskv-node/src/auth_layer.rs].
    - [Grpc], [GrpcSpec]: the handlers of [ferriskv-node/src/grpc.rs] and
      [audit.rs], and what they guarantee.
    - [Follow]: a client on a watch stream, from the writers through the hub, the
      channel and the stream to the events it receives.
    - [Server]: the service trait with its request counter, and the interceptor that
      [ferriskv-node/src/main.rs] puts in front of it.
    - [Cli]: [ferriskv-cli/src/main.rs], against the server of [Server].
    - [Admin], [AdminHttp]: the handlers and the routes of
      [ferriskv-node/src/admin.rs].
    - [Operators]: the handlers of [Admin] that change limits cut into their calls,
      beside the writers of [Interleave].
    - [Process]: [ferriskv-node/src/main.rs], from the configuration to the exit, with
      the calls, sweeps and admin requests in between.
    - [Hashing]: [ferriskv-core/src/hashing.rs].
    - [Coord]: [ferriskv-coord/src].
    - [Fuzz]: [fuzz/fuzz_targets].
    - [TestKit], [TestsCore], [TestsNode], [TestsService], [TestsEdge], [TestsGrpc]:
      the unit tests of the sources and the integration tests of
      [ferriskv-node/tests/grpc.rs], each as a computation on the model that can fail.
    - [Proptests]: [ferriskv-core/tests/proptest_codec.rs] and
      [ferriskv-node/tests/proptest_wal.rs], for every input.

    ** How code becomes definitions

    A pure function is a Rocq function, a fallible one returns [result], a method on
    shared state is an [M] computation that returns the state it reached in every
    case.  Locks and atomics protect single values, so a structure behind a lock is a
    value of the state and a call on it is one step; an operation of several such
    calls runs as a whole everywhere but in [Interleave], the files after it up to
    [Races], [Follow] and [Operators], where other tasks may run between any two of its
    calls.  Machine integers are [Z] with wrap-around and saturation where the code has
    them.  Time, the file system and
    the device are inputs.  Logging is left out; of the metrics only the request
    counter is kept.

    Code that is not in the repository is a parameter, with what its documentation
    promises as a class: fjall ([Fjall], [FjallOk]), crc32fast ([Crc32], [Crc32Ok]
    and, for damaged bytes, [Crc32Detects]), tokio's broadcast channel ([Broadcast],
    [BroadcastOk], and what a receiver yields, [drives]), governor ([Governor],
    [GovernorOk]), serde_json at quotas ([QuotaJson], [QuotaJsonOk]), jsonwebtoken
    ([JsonWebToken]), blake3 ([Blake3]), the config crate ([Toml], [TomlOk]), tokio's
    timeout ([Tokio], [TokioOk]), tonic's client ([TonicClient]), axum's router ([Axum],
    [AxumOk]), reading a quota from a request's body ([SetQuotaJson]), and the order an
    unstable sort gives equal elements ([SortUnstable]).  Every class has an
    instance that satisfies it, and the witnesses evaluate them.

    ** What the theorems show

    - Codecs: decoding is exactly the inverse of encoding on both formats; key order
      is payload order within a tenant, and no range or prefix of a tenant reaches
      another; the header-only readers agree with the decoder.
    - Log: it refines a list of changes under any sequence of appends, syncs,
      rotations and restarts; recovery returns exactly the whole frames of a segment whose
      header is whole, and refuses one whose header is not; an append is
      atomic under a crash; sequence numbers are not reused; a changed byte outside the
      length fields costs the frame it is in and what follows, since CRC-32 notices it.
      Two defects are proved
      as theorems: a failed append can resurface, and a failed rotation loses the
      segment.
    - Node: it refines the abstract store across crashes; usage counters are exact,
      expiries are covered by the index, the quota cache agrees with storage; a
      restart loses no acknowledged write; a write over quota changes nothing.
    - Concurrency: a task that runs alone is the operation it was cut from, and beside
      others it ends after a bounded number of its own calls, whatever they do; writers and
      sweeps on different keys, in any interleaving without a rotation, lose nothing at a crash
      and leave the node in order.  Under any interleaving, also on one key, with
      rotations and a log that fails, the requests on storage are linearizable, and a
      tenant's usage counter passes its limit by at most what its other puts in flight
      add.  A client
      that watches, scans and follows holds a true copy of every key nobody is writing,
      unless the stream told it that it missed something.  Administrators of different
      tenants disturb neither writers nor each other, as long as no rotation is due.  Without the conditions seven
      defects are proved on concrete schedules: log and storage in different orders,
      storage and the watch feed in different orders, a rotation and a sweep that each
      destroy an acknowledged write, a quota that is overrun, a usage record left
      stale, and two administrators of one tenant that leave cache and record in
      disagreement or lose an update.  A watcher that subscribes while its tenant's
      channel is collected is cut off, and between whole calls no channel is ever
      collected.
    - Process and client: nothing is served before the checks, and a call without a
      verified token leaves no trace; a signal in time is a clean shutdown; without one
      the server stops by itself, and some accepted configurations make it panic, which
      are defects; the client prints what was put, until it expires, and cannot
      authenticate.
    - Sweeper, throttle, watch, quota: what each operation does on every branch.
    - API: scans are exact, a put or delete is what later gets see, the audit trail
      has one record per applied write, unauthorized calls change nothing, and no
      write happens without a verified token; batches apply in order and stop at the
      first failure.  One defect is proved: a batch of unknown codes is charged
      before anyone is authorized.
    - Coordinator, hashing, configuration, admin, fuzz targets: lookup finds the
      owner, node removal moves only its own keys, validation accepts what its guards let
      through and bounds nothing from above, a file of required fields alone is refused until it says how
      callers authenticate, administration keeps the invariant and no request to the
      admin server reaches beyond the tenant it names, and no fuzz target can fail.
    - Tests: the model passes the unit tests of the sources, all but three, and the
      integration tests, so it agrees with the expectations the authors wrote down
      there; the property tests pass on every input, but for one that can fail when it
      damages a length field, which is shown on a record of its own strategy.

    ** Fuel

    Three recursions are not structural.  [parse_frames_loop] runs on the length of
    its input plus one: a frame takes at least 21 bytes, and [parse_frames_run] shows
    it always returns.  [watch_stream] takes a bound on the items it emits; the
    theorem asks for more than the number of signals.  [search_loop] runs on the
    length of the slice: its window shrinks every turn, and [search_loop_spec] is
    stated for any fuel that is at least the window.

    ** Not modelled

    Interleavings of memory accesses below a component's lock; the loss of power: a crash
    is the end of the process, and what [append] handed to the operating system is kept,
    since it flushes and does not sync; entries beyond what the engine takes; the parsing of
    arguments, which is clap's; log lines and transport; generated protocol code;
    latency histograms, gauges and the descriptions of metrics; benchmarks, which
    assert nothing; the three unit tests that exercise a library alone (the engine on
    disk, the log's output, a receiver of tokio's that lags). *)

From stdpp Require Export base tactics numbers option list fin_maps gmap sorting.
From stdpp Require Export strings pretty.
From Stdlib Require Export ZArith Lia.

Global Set Default Goal Selector "!".
Global Open Scope Z_scope.

(** ** Rust's [Result], with panics

    [Ok] and [Err] are Rust's constructors.  [Panic] is the third way a Rust
    expression can end (an out-of-range slice, [expect] on [None]): it is kept
    apart from [Err] so that "this function never panics" is a statement about
    the definition and not a convention.  A Rust [Option] produced by a function
    that may panic is a [result unit], with [Err tt] for [None]. *)

Inductive result (E A : Type) : Type :=
| Ok (a : A)
| Err (e : E)
| Panic.
Global Arguments Ok {E A} a.
Global Arguments Err {E A} e.
Global Arguments Panic {E A}.

Global Instance result_eq_dec {E A} `{EqDecision E, EqDecision A} : EqDecision (result E A).
Proof. solve_decision. Defined.

Global Instance result_ret {E} : MRet (result E) := λ A a, Ok a.
Global Instance result_bind {E} : MBind (result E) := λ A B f r,
  match r with
  | Ok a => f a
  | Err e => Err e
  | Panic => Panic
  end.

(** [Result::map_err], [Option::ok_or] and [Result::ok] of the standard library. *)
Definition map_err {E F A} (f : E → F) (r : result E A) : result F A :=
  match r with
  | Ok a => Ok a
  | Err e => Err (f e)
  | Panic => Panic
  end.

Definition ok_or {E A} (e : E) (o : option A) : result E A :=
  match o with
  | Some a => Ok a
  | None => Err e
  end.

Definition is_ok {E A} (r : result E A) : bool :=
  match r with
  | Ok _ => true
  | _ => false
  end.

(** ** Stateful fallible computations

    A method on shared state that returns a [Result] is a function of the state.
    An error does not undo what was already changed: the state comes back in
    every case. *)

Definition M (S E A : Type) : Type := S → result E A * S.

Global Instance M_ret {S E} : MRet (M S E) := λ A a s, (Ok a, s).
Global Instance M_bind {S E} : MBind (M S E) := λ A B f m s,
  match m s with
  | (Ok a, s') => f a s'
  | (Err e, s') => (Err e, s')
  | (Panic, s') => (Panic, s')
  end.

Definition lift {S E A} (r : result E A) : M S E A := λ s, (r, s).
Definition gets {S E A} (f : S → A) : M S E A := λ s, (Ok (f s), s).
Definition modify {S E} (f : S → S) : M S E unit := λ s, (Ok tt, f s).
Definition throw {S E A} (e : E) : M S E A := λ s, (Err e, s).
Definition when {S E} (b : bool) (m : M S E unit) : M S E unit :=
  if b then m else mret tt.

(** Runs a computation on one field of a larger state. *)
Definition zoom {S T E A} (get : S → T) (set : T → S → S) (m : M T E A) : M S E A :=
  λ s, let '(r, t) := m (get s) in (r, set t s).

(** Runs [m] and turns its error into another error type, keeping the state. *)
Definition mapM_err {S E F A} (f : E → F) (m : M S E A) : M S F A :=
  λ s, let '(r, s') := m s in (map_err f r, s').

(** Runs [m] and drops its error, as code that logs a failure and carries on
    does.  A panic still propagates. *)
Definition ignore_err {S E} (m : M S E unit) : M S E unit :=
  λ s, match m s with
       | (Err _, s') => (Ok tt, s')
       | r => r
       end.

(** A [for] loop whose body can fail with [?]. *)
Fixpoint for_each {S E A} (body : A → M S E unit) (l : list A) : M S E unit :=
  match l with
  | [] => mret tt
  | x :: l => body x;; for_each body l
  end.

(** Running a computation one step at a time. *)
Lemma M_bind_ok {S E A B} (m : M S E A) (f : A → M S E B) s a s' :
  m s = (Ok a, s') → (m ≫= f) s = f a s'.
Proof. intros H. unfold mbind, M_bind. by rewrite H. Qed.

(** What a computation that succeeds went through. *)
Lemma M_bind_inv {S E A B} (m : M S E A) (f : A → M S E B) s b s' :
  (m ≫= f) s = (Ok b, s') → ∃ a s1, m s = (Ok a, s1) ∧ f a s1 = (Ok b, s').
Proof. unfold mbind, M_bind. destruct (m s) as [[a|e|] s1]; [eauto|done..]. Qed.

Lemma M_bind_err {S E A B} (m : M S E A) (f : A → M S E B) s e s' :
  m s = (Err e, s') → (m ≫= f) s = (Err e, s').
Proof. intros H. unfold mbind, M_bind. by rewrite H. Qed.

Lemma zoom_run {S T E A} (get : S → T) (set : T → S → S) (m : M T E A) s r t :
  m (get s) = (r, t) → zoom get set m s = (r, set t s).
Proof. intros H. unfold zoom. by rewrite H. Qed.

(** ** Machine integers

    A [u64], [u32] or [usize] is a [Z]; wrap-around and saturation are written
    where the source has them.  Plain [+] on unsigned integers is the release
    profile's wrapping addition ([Cargo.toml] leaves [overflow-checks] off). *)

Definition U32_MAX : Z := 2 ^ 32 - 1.
Definition U64_MAX : Z := 2 ^ 64 - 1.
Definition u64_ok (z : Z) : Prop := 0 ≤ z < 2 ^ 64.

Definition wrap64 (z : Z) : Z := z mod 2 ^ 64.
Definition wrap_add64 (a b : Z) : Z := wrap64 (a + b).
Definition sat_add64 (a b : Z) : Z := Z.min (a + b) U64_MAX.
Definition sat_sub64 (a b : Z) : Z := Z.max (a - b) 0.
Definition checked_add64 (a b : Z) : option Z :=
  if a + b <=? U64_MAX then Some (a + b) else None.

(** Casting a 64-bit value to a signed one of the same width. *)
Definition as_i64 (z : Z) : Z :=
  let w := wrap64 z in if w <? 2 ^ 63 then w else w - 2 ^ 64.

Lemma wrap64_id z : u64_ok z → wrap64 z = z.
Proof. intros. by apply Z.mod_small. Qed.

Lemma wrap_add64_id a b : u64_ok (a + b) → wrap_add64 a b = a + b.
Proof. apply wrap64_id. Qed.

Lemma checked_add64_ok a b : a + b ≤ U64_MAX → checked_add64 a b = Some (a + b).
Proof. intros. unfold checked_add64. by destruct (Z.leb_spec (a + b) U64_MAX); [|lia]. Qed.

Lemma as_i64_id z : - 2 ^ 63 ≤ z < 2 ^ 63 → as_i64 z = z.
Proof.
  intros Hz. unfold as_i64. destruct (Z.le_gt_cases 0 z).
  - rewrite wrap64_id by (unfold u64_ok; lia). destruct (Z.ltb_spec z (2 ^ 63)); lia.
  - unfold wrap64. rewrite <-(Z.mod_add z 1), Z.mod_small by lia.
    destruct (Z.ltb_spec (z + 1 * 2 ^ 64) (2 ^ 63)); lia.
Qed.

Lemma sat_add64_ok a b : 0 ≤ a → 0 ≤ b → u64_ok (sat_add64 a b).
Proof. unfold sat_add64, u64_ok, U64_MAX. lia. Qed.

Lemma sat_sub64_ok a b : u64_ok a → 0 ≤ b → u64_ok (sat_sub64 a b).
Proof. unfold sat_sub64, u64_ok. lia. Qed.

(** ** Proof automation *)

(** [rw_case] splits the first [match] or [if] whose scrutinee is not itself a
    match, keeping the equation. *)
Ltac case_step :=
  match goal with
  | H : context [match ?x with _ => _ end] |- _ =>
      lazymatch x with
      | context [match _ with _ => _ end] => fail
      | _ => destruct x eqn:?
      end
  | |- context [match ?x with _ => _ end] =>
      lazymatch x with
      | context [match _ with _ => _ end] => fail
      | _ => destruct x eqn:?
      end
  end.

(** Boolean tests of the source, as the propositions they decide. *)
Ltac propify :=
  repeat match goal with
  | H : (_ =? _)%Z = true |- _ => apply Z.eqb_eq in H
  | H : (_ =? _)%Z = false |- _ => apply Z.eqb_neq in H
  | H : (_ <? _)%Z = true |- _ => apply Z.ltb_lt in H
  | H : (_ <? _)%Z = false |- _ => apply Z.ltb_ge in H
  | H : (_ <=? _)%Z = true |- _ => apply Z.leb_le in H
  | H : (_ <=? _)%Z = false |- _ => apply Z.leb_gt in H
  | H : (_ && _)%bool = true |- _ => apply andb_true_iff in H as [??]
  | H : (_ && _)%bool = false |- _ => apply andb_false_iff in H as [H|H]
  | H : (_ || _)%bool = true |- _ => apply orb_true_iff in H as [H|H]
  | H : (_ || _)%bool = false |- _ => apply orb_false_iff in H as [??]
  | H : negb _ = true |- _ => apply negb_true_iff in H
  | H : negb _ = false |- _ => apply negb_false_iff in H
  | H : bool_decide _ = true |- _ => apply bool_decide_eq_true in H
  | H : bool_decide _ = false |- _ => apply bool_decide_eq_false in H
  end.

(** Runs a monadic hypothesis: splits every intermediate outcome and keeps the
    branches that match the final one. *)
Ltac run_in H :=
  cbv [mret mbind M_ret M_bind result_ret result_bind lift gets modify throw when
       zoom mapM_err ignore_err map_err ok_or] in H;
  repeat (first [progress simplify_eq/= | case_step; try discriminate]).

Ltac unfold_monad :=
  cbv [mret mbind M_ret M_bind result_ret result_bind lift gets modify throw when
       zoom mapM_err ignore_err map_err ok_or].

Create HintDb ferris discriminated.
#[export] Hint Resolve sat_add64_ok sat_sub64_ok : ferris.
#[export] Hint Extern 5 (_ ≤ _) => lia : ferris.
#[export] Hint Extern 5 (_ < _) => lia : ferris.

(** ** Lists *)

(** [Vec::len] as a [usize]. *)
Definition len {A} (l : list A) : Z := Z.of_nat (length l).

Lemma len_nonneg {A} (l : list A) : 0 ≤ len l.
Proof. unfold len. lia. Qed.

Lemma len_app {A} (l1 l2 : list A) : len (l1 ++ l2) = len l1 + len l2.
Proof. unfold len. rewrite length_app. lia. Qed.

Lemma len_cons {A} (x : A) l : len (x :: l) = 1 + len l.
Proof. unfold len. simpl length. lia. Qed.

Lemma len_nil {A} : len (@nil A) = 0.
Proof. done. Qed.

Lemma len_zero_inv {A} (l : list A) : len l = 0 → l = [].
Proof. destruct l; [done|]. rewrite len_cons. pose proof (len_nonneg l). lia. Qed.

Lemma len_take {A} n (l : list A) : 0 ≤ n ≤ len l → len (take (Z.to_nat n) l) = n.
Proof. unfold len. intros. rewrite length_take. lia. Qed.

Lemma len_drop {A} n (l : list A) : 0 ≤ n ≤ len l → len (drop (Z.to_nat n) l) = len l - n.
Proof. unfold len. intros. rewrite length_drop. lia. Qed.

(** A list that is long enough splits. *)
Lemma len_split {A} n (l : list A) :
  0 ≤ n ≤ len l → ∃ a b, l = a ++ b ∧ len a = n.
Proof.
  intros. exists (take (Z.to_nat n) l), (drop (Z.to_nat n) l).
  split; [by rewrite take_drop|by apply len_take].
Qed.

Create Rewrite HintDb len.
#[export] Hint Rewrite @len_app @len_cons @len_nil : len.

(** Normalises lengths and closes the arithmetic. *)
Ltac len_lia :=
  repeat match goal with
  | l : list _ |- _ =>
      lazymatch goal with
      | _ : 0 ≤ len l |- _ => fail
      | _ => pose proof (len_nonneg l)
      end
  end;
  autorewrite with len in *; lia.

(** The sum of a measure over a list. *)
Definition sum_with {A} (f : A → Z) (l : list A) : Z := foldr (λ x acc, f x + acc) 0 l.

Lemma sum_with_app {A} (f : A → Z) l1 l2 :
  sum_with f (l1 ++ l2) = sum_with f l1 + sum_with f l2.
Proof. induction l1 as [|x l1 IH]; simpl; [done|]. unfold sum_with in *. simpl. lia. Qed.

Lemma sum_with_perm {A} (f : A → Z) l1 l2 : l1 ≡ₚ l2 → sum_with f l1 = sum_with f l2.
Proof. induction 1; unfold sum_with in *; simpl in *; lia. Qed.

Lemma sum_with_nonneg {A} (f : A → Z) l : (∀ x, 0 ≤ f x) → 0 ≤ sum_with f l.
Proof. intros Hf. induction l as [|x l IH]; unfold sum_with in *; simpl; [lia|]. specialize (Hf x). lia. Qed.

(** Filtering keeps the order, and keeps everything that satisfies the test. *)
Lemma filter_sorted {A} (R : A → A → Prop) (P : A → Prop) `{!∀ x, Decision (P x)} l :
  StronglySorted R l → StronglySorted R (filter P l).
Proof.
  induction 1 as [|x l Hs IH Hx]; [constructor|]. rewrite filter_cons. case_decide; [|done].
  constructor; [done|]. rewrite Forall_forall in Hx. apply Forall_forall.
  intros y [_ Hy]%list_elem_of_filter. by apply Hx.
Qed.

Lemma filter_all {A} (P : A → Prop) `{!∀ x, Decision (P x)} l : Forall P l → filter P l = l.
Proof. induction 1 as [|x l Hx _ IH]; [done|]. rewrite filter_cons, decide_True, IH; done. Qed.
