(* ===== verification/Bytes.v ===== *)
(** * Bytes

    What the source uses of [u8], [\&[u8]], [bytes::Bytes] and [\&str]: the
    lexicographic order of slices, prefixes, range indexing (which panics out of
    range), fixed-width little- and big-endian integers, and UTF-8 validity
    ([std::str::from_utf8]). *)

From Stdlib Require Import Strings.Byte.
From S2P Require Import Prelude.

Abbreviation byte := Byte.byte.
Abbreviation bytes := (list byte).

(** ** Bytes as numbers *)

Definition byte_Z (b : byte) : Z := Z.of_N (Byte.to_N b).

(** [z as u8]: the low eight bits. *)
Definition byte_of_Z (z : Z) : byte := default x00 (Byte.of_N (Z.to_N (z mod 256))).

Global Instance byte_eq_dec : EqDecision byte := Byte.byte_eq_dec.

Global Instance byte_countable : Countable byte :=
  inj_countable Byte.to_N Byte.of_N Byte.of_to_N.

Lemma byte_Z_range b : 0 ≤ byte_Z b < 256.
Proof. unfold byte_Z. pose proof (Byte.to_N_bounded b). lia. Qed.

Lemma byte_Z_inj b1 b2 : byte_Z b1 = byte_Z b2 → b1 = b2.
Proof.
  unfold byte_Z. intros H%N2Z.inj.
  pose proof (Byte.of_to_N b1) as H1. pose proof (Byte.of_to_N b2) as H2. congruence.
Qed.

Lemma byte_Z_of_Z z : byte_Z (byte_of_Z z) = z mod 256.
Proof.
  pose proof (Z.mod_pos_bound z 256 ltac:(lia)) as Hr.
  unfold byte_Z, byte_of_Z. destruct (Byte.of_N (Z.to_N (z mod 256))) as [b|] eqn:E; simpl.
  - apply Byte.to_of_N in E. rewrite E. lia.
  - apply Byte.of_N_None_iff in E. lia.
Qed.

Lemma byte_of_Z_byte_Z b : byte_of_Z (byte_Z b) = b.
Proof.
  apply byte_Z_inj. rewrite byte_Z_of_Z. apply Z.mod_small, byte_Z_range.
Qed.

(** ** Lexicographic order on slices *)

Fixpoint bytes_ltb (a b : bytes) : bool :=
  match a, b with
  | [], [] => false
  | [], _ :: _ => true
  | _ :: _, [] => false
  | x :: a, y :: b =>
      if byte_Z x <? byte_Z y then true
      else if byte_Z y <? byte_Z x then false
      else bytes_ltb a b
  end.

Definition bytes_lt (a b : bytes) : Prop := bytes_ltb a b = true.
Definition bytes_le (a b : bytes) : Prop := bytes_ltb b a = false.

Declare Scope bytes_scope.
Delimit Scope bytes_scope with bytes.
Infix "<" := bytes_lt : bytes_scope.
Infix "≤" := bytes_le : bytes_scope.

Global Instance bytes_lt_dec a b : Decision (bytes_lt a b).
Proof. unfold bytes_lt. solve_decision. Defined.
Global Instance bytes_le_dec a b : Decision (bytes_le a b).
Proof. unfold bytes_le. solve_decision. Defined.

Lemma bytes_ltb_cons x a y b :
  bytes_ltb (x :: a) (y :: b) = true ↔
  byte_Z x < byte_Z y ∨ (x = y ∧ bytes_ltb a b = true).
Proof.
  simpl. destruct (Z.ltb_spec (byte_Z x) (byte_Z y)); [naive_solver|].
  destruct (Z.ltb_spec (byte_Z y) (byte_Z x)).
  - split; [done|]. intros [?|[-> _]]; lia.
  - assert (x = y) as -> by (apply byte_Z_inj; lia).
    split; [auto|]. intros [?|[_ ?]]; [lia|done].
Qed.

Global Instance bytes_lt_irrefl : Irreflexive bytes_lt.
Proof.
  intros a Ha. unfold bytes_lt in Ha. induction a as [|x a IH]; [done|].
  apply bytes_ltb_cons in Ha as [?|[_ ?]]; [lia|auto].
Qed.

Global Instance bytes_lt_trans : Transitive bytes_lt.
Proof.
  intros a. unfold bytes_lt. induction a as [|x a IH]; intros [|y b] [|z c]; try done.
  rewrite !bytes_ltb_cons. intros [?|[-> ?]] [?|[-> ?]]; eauto with lia.
Qed.

Global Instance bytes_lt_strict : StrictOrder bytes_lt.
Proof. split; apply _. Qed.

Lemma bytes_lt_total a b : (a < b)%bytes ∨ a = b ∨ (b < a)%bytes.
Proof.
  revert b. induction a as [|x a IH]; intros [|y b]; unfold bytes_lt in *; simpl; auto.
  destruct (Z.ltb_spec (byte_Z x) (byte_Z y)); [auto|].
  destruct (Z.ltb_spec (byte_Z y) (byte_Z x)); [auto|].
  assert (x = y) as -> by (apply byte_Z_inj; lia).
  destruct (IH b) as [?|[-> |?]]; auto.
Qed.

Global Instance bytes_lt_trichotomy : TrichotomyT bytes_lt.
Proof.
  intros a b. destruct (decide (bytes_lt a b)); [left; by left|].
  destruct (decide (a = b)); [left; by right|]. right.
  destruct (bytes_lt_total a b) as [?|[?|?]]; done.
Qed.

Lemma bytes_le_lteq a b : (a ≤ b)%bytes ↔ (a < b)%bytes ∨ a = b.
Proof.
  unfold bytes_le. split.
  - intros Hf. destruct (bytes_lt_total a b) as [?|[?|Hb]]; auto.
    unfold bytes_lt in Hb. congruence.
  - intros H. apply not_true_iff_false. intros Hb. change (bytes_lt b a) in Hb.
    destruct H as [?| <-]; [|by apply irreflexivity in Hb; [|apply _]].
    apply (irreflexivity bytes_lt a). by etrans.
Qed.

Lemma bytes_lt_nle a b : (a < b)%bytes ↔ ¬ (b ≤ a)%bytes.
Proof. unfold bytes_lt, bytes_le. destruct (bytes_ltb a b); naive_solver. Qed.

Global Instance bytes_le_total_order : TotalOrder bytes_le.
Proof.
  split; [split; [split|]|].
  - intros a. apply bytes_le_lteq. auto.
  - intros a b c. rewrite !bytes_le_lteq. intros [?| ->] [?| ->]; auto. left. by etrans.
  - intros a b. rewrite !bytes_le_lteq. intros [H| ->] [H'|]; auto.
    exfalso. apply (irreflexivity bytes_lt a). by etrans.
  - intros a b. unfold strict. rewrite !bytes_le_lteq.
    destruct (bytes_lt_total a b) as [?|[-> |?]]; [left|right; by left|right; right].
    + split; [auto|]. intros [?| ->]; [|by apply irreflexivity in H; [|apply _]].
      apply (irreflexivity bytes_lt a). by etrans.
    + split; [auto|]. intros [?| ->]; [|by apply irreflexivity in H; [|apply _]].
      apply (irreflexivity bytes_lt b). by etrans.
Qed.

Lemma bytes_le_lt_trans a b c : (a ≤ b)%bytes → (b < c)%bytes → (a < c)%bytes.
Proof. rewrite bytes_le_lteq. intros [?| ->]; [by etrans|done]. Qed.

Lemma bytes_lt_le_trans a b c : (a < b)%bytes → (b ≤ c)%bytes → (a < c)%bytes.
Proof. rewrite bytes_le_lteq. intros ? [?| <-]; [by etrans|done]. Qed.

(** A common prefix does not influence the order. *)
Lemma bytes_ltb_app p a b : bytes_ltb (p ++ a) (p ++ b) = bytes_ltb a b.
Proof.
  induction p as [|x p IH]; [done|]. simpl. rewrite Z.ltb_irrefl. done.
Qed.

Lemma bytes_le_app_r p a : (p ≤ p ++ a)%bytes.
Proof. unfold bytes_le. rewrite <-(app_nil_r p) at 2. rewrite bytes_ltb_app. by destruct a. Qed.

(** ** Prefixes *)

Fixpoint starts_with (p k : bytes) : bool :=
  match p, k with
  | [], _ => true
  | x :: p, y :: k => bool_decide (x = y) && starts_with p k
  | _ :: _, [] => false
  end.

Lemma starts_with_spec p k : starts_with p k = true ↔ p `prefix_of` k.
Proof.
  revert k. induction p as [|x p IH]; intros k; simpl; [split; [intros; apply prefix_nil|done]|].
  destruct k as [|y k].
  - split; [done|]. intros H%prefix_nil_not. done.
  - rewrite andb_true_iff, bool_decide_eq_true, IH. split.
    + intros [-> ?]. by apply prefix_cons.
    + intros H. split; [by apply prefix_cons_inv_1 in H|by apply prefix_cons_inv_2 in H].
Qed.

(** Between two keys that carry a prefix, every key carries it: a prefix is a
    contiguous range of the order. *)
Lemma prefix_convex p a b k :
  (p ++ a ≤ k)%bytes → (k ≤ p ++ b)%bytes → p `prefix_of` k.
Proof.
  revert k. induction p as [|x p IH]; intros k H1 H2; [apply prefix_nil|].
  destruct k as [|y k]; [done|]. unfold bytes_le in *.
  simpl in H1, H2.
  destruct (Z.ltb_spec (byte_Z y) (byte_Z x)); [done|].
  destruct (Z.ltb_spec (byte_Z x) (byte_Z y)); [done|].
  assert (x = y) as -> by (apply byte_Z_inj; lia).
  apply prefix_cons, IH; done.
Qed.

(** ** Range indexing *)

(** [l[i..j]]. *)
Definition slice {E} (l : bytes) (i j : Z) : result E bytes :=
  if (0 <=? i) && (i <=? j) && (j <=? len l) then
    Ok (take (Z.to_nat (j - i)) (drop (Z.to_nat i) l))
  else Panic.

(** [l[i..]]. *)
Definition slice_from {E} (l : bytes) (i : Z) : result E bytes := slice l i (len l).

(** [l[i]]. *)
Definition index {E} (l : bytes) (i : Z) : result E byte :=
  if (0 <=? i) && (i <? len l) then
    match l !! Z.to_nat i with
    | Some b => Ok b
    | None => Panic
    end
  else Panic.

(** Splits a buffer at two offsets; the slice in the middle is what is between. *)
Lemma slice_app {E} (a b c : bytes) i j :
  i = len a → j = len a + len b → slice (E:=E) (a ++ b ++ c) i j = Ok b.
Proof.
  intros -> ->. unfold slice.
  replace ((0 <=? len a) && (len a <=? len a + len b) && (len a + len b <=? len (a ++ b ++ c)))
    with true by (symmetry; rewrite !andb_true_iff, !Z.leb_le; len_lia).
  replace (len a + len b - len a) with (len b) by lia.
  unfold len. rewrite !Nat2Z.id, drop_app_length, take_app_length. done.
Qed.

Lemma slice_eq {E} (a b c l : bytes) i j :
  l = a ++ b ++ c → i = len a → j = len a + len b → slice (E:=E) l i j = Ok b.
Proof. intros ->. apply slice_app. Qed.

Lemma slice_to {E} (a b : bytes) j : j = len a → slice (E:=E) (a ++ b) 0 j = Ok a.
Proof. intros ->. by apply (slice_eq [] a b). Qed.

Lemma slice_in_range {E} (l : bytes) i j :
  0 ≤ i ≤ j → j ≤ len l →
  slice (E:=E) l i j = Ok (take (Z.to_nat (j - i)) (drop (Z.to_nat i) l)).
Proof.
  intros. unfold slice.
  by replace ((0 <=? i) && (i <=? j) && (j <=? len l)) with true
    by (symmetry; rewrite !andb_true_iff, !Z.leb_le; lia).
Qed.

Lemma slice_Ok {E} (l b : bytes) i j :
  slice (E:=E) l i j = Ok b → 0 ≤ i ≤ j ∧ j ≤ len l ∧ len b = j - i ∧
  l = take (Z.to_nat i) l ++ b ++ drop (Z.to_nat j) l.
Proof.
  unfold slice. intros H. case_match; [|done]. propify. simplify_eq.
  split_and!; [lia|lia|lia| |].
  - apply len_take. rewrite len_drop; lia.
  - rewrite <-(take_drop (Z.to_nat i) l) at 1. f_equal.
    rewrite <-(take_drop (Z.to_nat (j - i)) (drop (Z.to_nat i) l)) at 1. f_equal.
    rewrite drop_drop. f_equal. lia.
Qed.

Lemma slice_from_app {E} (a b : bytes) i : i = len a → slice_from (E:=E) (a ++ b) i = Ok b.
Proof.
  intros ->. unfold slice_from.
  pose proof (@slice_app E a b [] (len a) (len (a ++ b))) as H.
  rewrite app_nil_r in H. apply H; [done|]. len_lia.
Qed.

Lemma slice_from_1 {E} x (l : bytes) : slice_from (E:=E) (x :: l) 1 = Ok l.
Proof. by apply (slice_from_app [x]). Qed.

Lemma slice_from_in_range {E} (l : bytes) i :
  0 ≤ i ≤ len l → slice_from (E:=E) l i = Ok (drop (Z.to_nat i) l).
Proof.
  intros. unfold slice_from. rewrite slice_in_range by lia. f_equal.
  apply take_ge. rewrite length_drop. unfold len in *. lia.
Qed.

Lemma index_app {E} (a : bytes) x b i : i = len a → index (E:=E) (a ++ x :: b) i = Ok x.
Proof.
  intros ->. unfold index.
  replace ((0 <=? len a) && (len a <? len (a ++ x :: b))) with true
    by (symmetry; rewrite andb_true_iff, Z.leb_le, Z.ltb_lt; len_lia).
  unfold len. rewrite Nat2Z.id. by rewrite list_lookup_middle.
Qed.

Lemma index_0 {E} x (l : bytes) : index (E:=E) (x :: l) 0 = Ok x.
Proof. by apply (index_app []). Qed.

(** Indexing either yields a value or panics: it has no error of its own. *)
Lemma slice_not_Err {E} (l : bytes) i j (e : E) : slice l i j ≠ Err e.
Proof. unfold slice. by case_match. Qed.
Lemma index_not_Err {E} (l : bytes) i (e : E) : index l i ≠ Err e.
Proof. unfold index. by repeat case_match. Qed.

Lemma index_in_range {E} (l : bytes) i :
  0 ≤ i < len l →
  ∃ x, index (E:=E) l i = Ok x ∧ l = take (Z.to_nat i) l ++ x :: drop (Z.to_nat (i + 1)) l.
Proof.
  intros Hi. unfold index.
  replace ((0 <=? i) && (i <? len l)) with true
    by (symmetry; rewrite andb_true_iff, Z.leb_le, Z.ltb_lt; lia).
  destruct (l !! Z.to_nat i) as [x|] eqn:E1.
  - exists x. split; [done|]. replace (Z.to_nat (i + 1)) with (S (Z.to_nat i)) by lia.
    by rewrite take_drop_middle.
  - apply lookup_ge_None in E1. unfold len in Hi. lia.
Qed.

(** ** Fixed-width integers as bytes *)

(** [to_le_bytes] of an [n]-byte integer: the low byte first, higher bits cut. *)
Fixpoint to_le_bytes (n : nat) (z : Z) : bytes :=
  match n with
  | O => []
  | S n => byte_of_Z z :: to_le_bytes n (z / 256)
  end.

Fixpoint from_le_bytes (l : bytes) : Z :=
  match l with
  | [] => 0
  | b :: l => byte_Z b + 256 * from_le_bytes l
  end.

(** [put_u64] and [u64::from_be_bytes] put the high byte first. *)
Definition to_be_bytes (n : nat) (z : Z) : bytes := rev (to_le_bytes n z).
Definition from_be_bytes (l : bytes) : Z := from_le_bytes (rev l).

Lemma length_to_le_bytes n z : length (to_le_bytes n z) = n.
Proof. revert z. induction n; simpl; auto. Qed.

Lemma length_to_be_bytes n z : length (to_be_bytes n z) = n.
Proof. unfold to_be_bytes. by rewrite length_rev, length_to_le_bytes. Qed.

Lemma len_to_le_bytes n z : len (to_le_bytes n z) = Z.of_nat n.
Proof. unfold len. by rewrite length_to_le_bytes. Qed.

Lemma len_to_be_bytes n z : len (to_be_bytes n z) = Z.of_nat n.
Proof. unfold len. by rewrite length_to_be_bytes. Qed.

#[export] Hint Rewrite len_to_le_bytes len_to_be_bytes : len.

Lemma from_le_bytes_range l : 0 ≤ from_le_bytes l < 256 ^ len l.
Proof.
  induction l as [|b l IH]; simpl; [done|].
  rewrite len_cons, Z.pow_add_r by (pose proof (len_nonneg l); lia).
  pose proof (byte_Z_range b). lia.
Qed.

Lemma from_be_bytes_range l : 0 ≤ from_be_bytes l < 256 ^ len l.
Proof.
  unfold from_be_bytes. pose proof (from_le_bytes_range (rev l)) as H.
  unfold len in *. by rewrite length_rev in H.
Qed.

Lemma from_to_le_bytes n z : from_le_bytes (to_le_bytes n z) = z mod 256 ^ Z.of_nat n.
Proof.
  revert z. induction n as [|n IH]; intros z; simpl; [by rewrite Z.mod_1_r|].
  rewrite byte_Z_of_Z, IH.
  replace (256 ^ Z.of_nat (S n)) with (256 * 256 ^ Z.of_nat n)
    by (rewrite Nat2Z.inj_succ, Z.pow_succ_r; lia).
  by rewrite Z.rem_mul_r by lia.
Qed.

Lemma to_from_le_bytes l : to_le_bytes (length l) (from_le_bytes l) = l.
Proof.
  induction l as [|b l IH]; simpl; [done|].
  pose proof (byte_Z_range b) as Hb. f_equal.
  - apply byte_Z_inj. rewrite byte_Z_of_Z.
    rewrite Z.mul_comm, Z.mod_add by lia. by apply Z.mod_small.
  - rewrite Z.mul_comm, Z.div_add, Z.div_small, Z.add_0_l by lia. done.
Qed.

Lemma to_from_le_bytes_len n l : len l = Z.of_nat n → to_le_bytes n (from_le_bytes l) = l.
Proof. intros H. replace n with (length l) by (unfold len in H; lia). apply to_from_le_bytes. Qed.

Lemma from_le_bytes_inj l1 l2 :
  length l1 = length l2 → from_le_bytes l1 = from_le_bytes l2 → l1 = l2.
Proof. intros Hl He. by rewrite <-(to_from_le_bytes l1), <-(to_from_le_bytes l2), Hl, He. Qed.

Lemma from_to_le_bytes_id n z :
  0 ≤ z < 256 ^ Z.of_nat n → from_le_bytes (to_le_bytes n z) = z.
Proof. intros. rewrite from_to_le_bytes. by apply Z.mod_small. Qed.

Lemma from_to_be_bytes_id n z :
  0 ≤ z < 256 ^ Z.of_nat n → from_be_bytes (to_be_bytes n z) = z.
Proof.
  intros. unfold from_be_bytes, to_be_bytes. rewrite rev_involutive.
  by apply from_to_le_bytes_id.
Qed.

Lemma to_from_be_bytes n l : length l = n → to_be_bytes n (from_be_bytes l) = l.
Proof.
  intros <-. unfold from_be_bytes, to_be_bytes.
  rewrite <-(length_rev l), to_from_le_bytes. apply rev_involutive.
Qed.

Global Arguments to_le_bytes : simpl never.
Global Arguments to_be_bytes : simpl never.
Global Arguments from_le_bytes : simpl never.
Global Arguments byte_of_Z : simpl never.
Global Arguments byte_Z : simpl never.

(** ** UTF-8 validity

    [std::str::from_utf8]: the well-formed sequences of the Unicode standard
    (no overlong form, no surrogate, nothing above U+10FFFF). *)

Definition in_range (lo hi : Z) (b : byte) : bool := (lo <=? byte_Z b) && (byte_Z b <=? hi).
Definition continuation : byte → bool := in_range 0x80 0xBF.

Fixpoint utf8_valid (l : bytes) : bool :=
  match l with
  | [] => true
  | b0 :: t =>
      if byte_Z b0 <? 0x80 then utf8_valid t
      else if in_range 0xC2 0xDF b0 then
        match t with
        | b1 :: t => continuation b1 && utf8_valid t
        | _ => false
        end
      else if in_range 0xE0 0xEF b0 then
        match t with
        | b1 :: b2 :: t =>
            (if byte_Z b0 =? 0xE0 then in_range 0xA0 0xBF b1
             else if byte_Z b0 =? 0xED then in_range 0x80 0x9F b1
             else continuation b1)
            && continuation b2 && utf8_valid t
        | _ => false
        end
      else if in_range 0xF0 0xF4 b0 then
        match t with
        | b1 :: b2 :: b3 :: t =>
            (if byte_Z b0 =? 0xF0 then in_range 0x90 0xBF b1
             else if byte_Z b0 =? 0xF4 then in_range 0x80 0x8F b1
             else continuation b1)
            && continuation b2 && continuation b3 && utf8_valid t
        | _ => false
        end
      else false
  end.

(** The bytes of a string literal of the source. *)
Definition lit (s : string) : bytes := String.list_byte_of_string s.

(** A [\&str] as the text a message prints. *)
Definition show_str (s : bytes) : string := String.string_of_list_byte s.

Example utf8_ascii : utf8_valid (lit "alice") = true.
Proof. reflexivity. Qed.
Example utf8_two_bytes : utf8_valid [xc3; xa9] = true.
Proof. reflexivity. Qed.
Example utf8_rejects_overlong : utf8_valid [xc0; x80] = false.
Proof. reflexivity. Qed.
Example utf8_rejects_surrogate : utf8_valid [xed; xa0; x80] = false.
Proof. reflexivity. Qed.
Example utf8_rejects_bom_bytes : utf8_valid [xff; xfe] = false.
Proof. reflexivity. Qed.
