(* ===== verification/Core.v ===== *)
(** * Shared types of [ferriskv-core]

    The error enum ([error.rs]), the resource limits and their validation
    ([limits.rs]) and the clock ([clock.rs]). *)

From Stdlib Require Import Strings.Byte.
From S2P Require Import Prelude Bytes.

(** ** [error.rs]

    [fjall::Error] and [std::io::Error] are opaque to the source, which only
    prints them: they are represented by their text. *)
Inductive Error :=
| NotFound (key : bytes)
| StorageError (e : string)
| NotLeader (leader : bytes)
| UnknownTenant (tenant : bytes)
| NotOwner (shard : Z)
| Corrupt (what : string)
| Io (e : string)
| ConfigError (msg : string)
| QuotaExceeded (tenant : bytes) (used limit : Z)
| RateLimited (tenant : bytes) (limit : Z).

Global Instance Error_eq_dec : EqDecision Error.
Proof. solve_decision. Defined.

(** [Display].  [{0:?}] on [Bytes] prints [b"..."] with ASCII escapes. *)
Definition hex_digit (n : Z) : byte :=
  if n <? 10 then byte_of_Z (48 + n) else byte_of_Z (87 + n).
Definition hex_byte (b : byte) : bytes := [hex_digit (byte_Z b / 16); hex_digit (byte_Z b mod 16)].

Definition debug_byte (b : byte) : bytes :=
  if decide (b = x0a) then lit "\n"
  else if decide (b = x0d) then lit "\r"
  else if decide (b = x09) then lit "\t"
  else if decide (b = x5c ∨ b = x22) then [x5c; b]
  else if decide (b = x00) then lit "\0"
  else if in_range 0x20 0x7e b then [b]
  else lit "\x" ++ hex_byte b.

Definition debug_bytes (b : bytes) : string :=
  show_str (lit "b" ++ [x22] ++ (b ≫= debug_byte) ++ [x22]).

Definition error_text (e : Error) : string :=
  match e with
  | NotFound k => "key not found: " +:+ debug_bytes k
  | StorageError m => "storage: " +:+ m
  | NotLeader l => "not leader, redirect to " +:+ show_str l
  | UnknownTenant t => "tenant not found: " +:+ show_str t
  | NotOwner n => "shard " +:+ pretty n +:+ " not owned by this node"
  | Corrupt w => "corrupted data: " +:+ w
  | Io m => "io: " +:+ m
  | ConfigError m => "configuration: " +:+ m
  | QuotaExceeded t used limit =>
      "tenant " +:+ show_str t +:+ " would use " +:+ pretty used +:+ " bytes, over its "
        +:+ pretty limit +:+ " byte quota"
  | RateLimited t limit =>
      "tenant " +:+ show_str t +:+ " exceeded its rate limit of " +:+ pretty limit
        +:+ " operations per second"
  end.

(** ** [limits.rs] *)

Record Limits := {
  max_key_size : Z;
  max_value_size : Z;
  max_batch_ops : Z;
  max_scan_limit : Z;
}.

Definition default_max_key_size : Z := 4 * 1024.
Definition default_max_value_size : Z := 10 * 1024 * 1024.
Definition default_max_batch_ops : Z := 1000.
Definition default_max_scan_limit : Z := 10000.

Definition default_Limits : Limits := {|
  max_key_size := default_max_key_size;
  max_value_size := default_max_value_size;
  max_batch_ops := default_max_batch_ops;
  max_scan_limit := default_max_scan_limit;
|}.

Definition Limits_validate (l : Limits) : result string unit :=
  if max_key_size l =? 0 then Err "limits.max_key_size must be > 0"
  else if max_value_size l =? 0 then Err "limits.max_value_size must be > 0"
  else if max_batch_ops l =? 0 then Err "limits.max_batch_ops must be > 0"
  else if max_scan_limit l =? 0 then Err "limits.max_scan_limit must be > 0"
  else Ok tt.

(** The fields are unsigned: [usize] and [u32]. *)
Definition Limits_typed (l : Limits) : Prop :=
  u64_ok (max_key_size l) ∧ u64_ok (max_value_size l) ∧
  u64_ok (max_batch_ops l) ∧ 0 ≤ max_scan_limit l ≤ U32_MAX.

Lemma Limits_validate_Ok l :
  Limits_validate l = Ok tt ↔
  max_key_size l ≠ 0 ∧ max_value_size l ≠ 0 ∧ max_batch_ops l ≠ 0 ∧ max_scan_limit l ≠ 0.
Proof.
  unfold Limits_validate. split.
  - intros H. repeat case_match; try done. propify. done.
  - intros (?&?&?&?). repeat case_match; propify; done.
Qed.

Lemma default_Limits_valid : Limits_validate default_Limits = Ok tt ∧ Limits_typed default_Limits.
Proof. split; [done|]. repeat split; vm_compute; congruence. Qed.

(** ** [clock.rs]

    [Manual] holds an [Arc<AtomicU64>]: every clone of the handle reads the same
    cell, so a node's state has one clock value and [advance] changes it in
    place.  The system clock is read from the environment as milliseconds since
    the epoch, possibly negative. *)
Inductive Clock :=
| System
| Manual (t : Z).

Definition now_ms (c : Clock) (system_ms : Z) : Z :=
  match c with
  | System => if system_ms <? 0 then 0 else wrap64 system_ms
  | Manual t => t
  end.

Definition advance (c : Clock) (by_ms : Z) : Clock :=
  match c with
  | System => System
  | Manual t => Manual (wrap_add64 t by_ms)
  end.

Definition Clock_typed (c : Clock) : Prop :=
  match c with
  | System => True
  | Manual t => u64_ok t
  end.

Lemma now_ms_u64 c system_ms : Clock_typed c → u64_ok (now_ms c system_ms).
Proof.
  destruct c as [|t]; simpl; [|done]. intros _. case_match; [done|].
  unfold u64_ok, wrap64. apply Z.mod_pos_bound. lia.
Qed.

Lemma advance_typed c d : Clock_typed c → Clock_typed (advance c d).
Proof.
  destruct c as [|t]; simpl; [done|]. intros _. unfold wrap_add64, wrap64, u64_ok.
  apply Z.mod_pos_bound. lia.
Qed.

Lemma now_ms_advance t d system_ms :
  u64_ok (t + d) → now_ms (advance (Manual t) d) system_ms = t + d.
Proof. intros. simpl. by apply wrap_add64_id. Qed.

#[export] Hint Resolve now_ms_u64 advance_typed : ferris.
