(* ===== verification/KeyCodec.v ===== *)
(** * The key codec ([ferriskv-core/src/key.rs])

    [tenant length (u8) | tenant | subspace (u8) | payload].  The theorems show
    that the codec is a bijection between well-formed triples and the keys it
    accepts, that it preserves the order of payloads, and that tenants occupy
    disjoint, contiguous ranges. *)

From Stdlib Require Import Strings.Byte.
From S2P Require Import Prelude Bytes Core.

Inductive Subspace := Metadata | Data | Index | Stats.

Global Instance Subspace_eq_dec : EqDecision Subspace.
Proof. solve_decision. Defined.

(** [subspace as u8]. *)
Definition subspace_u8 (s : Subspace) : byte :=
  match s with
  | Metadata => x00
  | Data => x01
  | Index => x02
  | Stats => x03
  end.

Definition from_u8 (b : byte) : option Subspace :=
  match b with
  | x00 => Some Metadata
  | x01 => Some Data
  | x02 => Some Index
  | x03 => Some Stats
  | _ => None
  end.

Definition MAX_TENANT_LEN : Z := 255.

Definition write_tenant (out tenant : bytes) : bytes :=
  out ++ [byte_of_Z (len tenant)] ++ tenant.

Definition check_tenant_len (tenant : bytes) : result Error unit :=
  if len tenant =? 0 then Err (ConfigError "empty tenant")
  else if MAX_TENANT_LEN <? len tenant then
    Err (ConfigError ("tenant length " +:+ pretty (len tenant) +:+ " exceeds "
                        +:+ pretty MAX_TENANT_LEN))
  else Ok tt.

Definition encode (tenant : bytes) (subspace : Subspace) (payload : bytes) : result Error bytes :=
  check_tenant_len tenant;;
  let out := write_tenant [] tenant in
  let out := out ++ [subspace_u8 subspace] in
  mret (out ++ payload).

Definition encode_subspace_prefix (tenant : bytes) (subspace : Subspace) : result Error bytes :=
  encode tenant subspace [].

Definition encode_tenant_prefix (tenant : bytes) : result Error bytes :=
  check_tenant_len tenant;;
  mret (write_tenant [] tenant).

Definition decode (key : bytes) : result Error (bytes * Subspace * bytes) :=
  if len key =? 0 then Err (Corrupt "empty key") else
  tlen_byte ← index key 0;
  let tlen := byte_Z tlen_byte in
  if tlen =? 0 then Err (Corrupt "empty tenant") else
  if len key <? 1 + tlen + 1 then Err (Corrupt "truncated key") else
  tenant ← slice key 1 (1 + tlen);
  if negb (utf8_valid tenant) then Err (Corrupt "tenant utf8") else
  sub_byte ← index key (1 + tlen);
  sub ← ok_or (Corrupt "subspace byte") (from_u8 sub_byte);
  payload ← slice_from key (2 + tlen);
  mret (tenant, sub, payload).

Definition strip_prefix (key prefix : bytes) : option bytes :=
  if starts_with prefix key then Some (drop (length prefix) key) else None.

(** ** Lemmas *)

(** The names the codec accepts: what [\&str] guarantees and what [encode]
    checks. *)
Definition valid_tenant (t : bytes) : Prop := utf8_valid t = true ∧ 1 ≤ len t ≤ 255.

Global Instance valid_tenant_dec t : Decision (valid_tenant t).
Proof. unfold valid_tenant. apply _. Defined.

(** The framing in front of a tenant's keys. *)
Definition tenant_frame (t : bytes) : bytes := byte_of_Z (len t) :: t.
Definition frame (t : bytes) (s : Subspace) : bytes := tenant_frame t ++ [subspace_u8 s].

Lemma from_u8_subspace s : from_u8 (subspace_u8 s) = Some s.
Proof. by destruct s. Qed.

Lemma from_u8_Some b s : from_u8 b = Some s → b = subspace_u8 s.
Proof. destruct b; simpl; intros; simplify_eq; done. Qed.

Lemma check_tenant_len_ok t : 1 ≤ len t ≤ 255 → check_tenant_len t = Ok tt.
Proof.
  intros. unfold check_tenant_len, MAX_TENANT_LEN.
  destruct (Z.eqb_spec (len t) 0); [lia|]. destruct (Z.ltb_spec 255 (len t)); [lia|done].
Qed.

Lemma check_tenant_len_Ok t u : check_tenant_len t = Ok u → 1 ≤ len t ≤ 255.
Proof.
  unfold check_tenant_len, MAX_TENANT_LEN. pose proof (len_nonneg t).
  intros. repeat case_match; try done. propify. lia.
Qed.

Lemma encode_ok t s p : 1 ≤ len t ≤ 255 → encode t s p = Ok (frame t s ++ p).
Proof. intros. unfold encode. by rewrite check_tenant_len_ok. Qed.

Lemma encode_Ok t s p k : encode t s p = Ok k → 1 ≤ len t ≤ 255 ∧ k = frame t s ++ p.
Proof.
  unfold encode. unfold_monad. destruct (check_tenant_len t) as [[]| |] eqn:E; try done.
  intros [= <-]. apply check_tenant_len_Ok in E. done.
Qed.

Lemma encode_no_panic t s p : encode t s p ≠ Panic.
Proof.
  unfold encode, check_tenant_len. repeat case_match; done.
Qed.

Lemma byte_Z_len (t : bytes) : len t ≤ 255 → byte_Z (byte_of_Z (len t)) = len t.
Proof. intros. rewrite byte_Z_of_Z. apply Z.mod_small. pose proof (len_nonneg t). lia. Qed.

Lemma frame_app t s p : frame t s ++ p = [byte_of_Z (len t)] ++ t ++ subspace_u8 s :: p.
Proof. unfold frame, tenant_frame. simpl. by rewrite <-app_assoc. Qed.

Lemma len_frame t s : len (frame t s) = 2 + len t.
Proof. unfold frame, tenant_frame. len_lia. Qed.

#[export] Hint Rewrite len_frame : len.

Lemma decode_frame t s p : valid_tenant t → decode (frame t s ++ p) = Ok (t, s, p).
Proof.
  intros [Hu Hl]. unfold decode. unfold_monad.
  destruct (Z.eqb_spec (len (frame t s ++ p)) 0); [len_lia|].
  rewrite frame_app.
  simpl app. rewrite index_0.
  rewrite byte_Z_len by lia.
  destruct (Z.eqb_spec (len t) 0); [lia|].
  change (_ :: ?l) with ([byte_of_Z (len t)] ++ l).
  rewrite <-frame_app.
  destruct (Z.ltb_spec (len (frame t s ++ p)) (1 + len t + 1)); [len_lia|].
  rewrite frame_app, (slice_app [byte_of_Z (len t)] t) by len_lia. rewrite Hu. simpl negb.
  rewrite app_assoc, (index_app ([byte_of_Z (len t)] ++ t)) by len_lia.
  rewrite from_u8_subspace, <-app_assoc, <-frame_app.
  by rewrite slice_from_app by len_lia.
Qed.

(** What [decode] accepts is exactly a frame of a valid tenant. *)
Lemma decode_key_Ok k t s p : decode k = Ok (t, s, p) → valid_tenant t ∧ k = frame t s ++ p.
Proof.
  unfold decode. unfold_monad. intros H.
  destruct (Z.eqb_spec (len k) 0) as [|Hne]; [done|].
  destruct k as [|b k]; [done|].
  rewrite index_0 in H.
  pose proof (byte_Z_range b) as Hb.
  destruct (Z.eqb_spec (byte_Z b) 0); [done|].
  destruct (Z.ltb_spec (len (b :: k)) (1 + byte_Z b + 1)) as [|Hlen]; [done|].
  destruct (slice (b :: k) 1 (1 + byte_Z b)) as [t'| |] eqn:Ht; try done.
  destruct (utf8_valid t') eqn:Hu; [|done]. simpl negb in H.
  apply slice_Ok in Ht as (_ & _ & Hlt & Hk). simpl in Hk. injection Hk as Hk.
  assert (len t' = byte_Z b) as Htb by lia. clear Hlt.
  set (rest := drop (Z.to_nat (1 + byte_Z b)) (b :: k)) in *.
  destruct rest as [|x rest'] eqn:Hrest.
  { rewrite app_nil_r in Hk. subst k. len_lia. }
  rewrite Hk in H. change (b :: t' ++ x :: rest') with (([b] ++ t') ++ x :: rest') in H.
  rewrite index_app in H by len_lia.
  destruct (from_u8 x) as [s'|] eqn:Hs; [|done].
  apply from_u8_Some in Hs as ->.
  replace (([b] ++ t') ++ subspace_u8 s' :: rest')
    with (([b] ++ t' ++ [subspace_u8 s']) ++ rest') in H by (simpl; by rewrite <-app_assoc).
  rewrite slice_from_app in H by len_lia. injection H as <- <- <-.
  split; [split; [done|lia]|].
  rewrite frame_app, Htb, byte_of_Z_byte_Z. simpl. by rewrite Hk.
Qed.

Lemma decode_key_no_panic k : decode k ≠ Panic.
Proof.
  unfold decode. unfold_monad.
  destruct (Z.eqb_spec (len k) 0) as [|Hne]; [done|].
  destruct k as [|b k]; [done|].
  rewrite index_0.
  pose proof (byte_Z_range b) as Hb.
  destruct (Z.eqb_spec (byte_Z b) 0); [done|].
  destruct (Z.ltb_spec (len (b :: k)) (1 + byte_Z b + 1)); [done|].
  rewrite slice_in_range by lia. case_match; [done|].
  destruct (@index_in_range Error (b :: k) (1 + byte_Z b)) as (x & -> & _); [lia|].
  destruct (from_u8 x); [|done].
  by rewrite slice_from_in_range by lia.
Qed.

Lemma tenant_frame_prefix_free t1 t2 k :
  len t1 ≤ 255 → len t2 ≤ 255 →
  tenant_frame t1 `prefix_of` k → tenant_frame t2 `prefix_of` k → t1 = t2.
Proof.
  unfold tenant_frame. intros H1 H2 [r1 ->] [r2 Heq]. simpl in Heq.
  injection Heq as Hb Heq.
  assert (len t1 = len t2) by (rewrite <-byte_Z_len, Hb, byte_Z_len; done).
  apply app_inj_1 in Heq; [naive_solver|]. unfold len in *. lia.
Qed.

Lemma frame_tenant_frame t s p : tenant_frame t `prefix_of` frame t s ++ p.
Proof. unfold frame. rewrite <-app_assoc. by eexists. Qed.

Lemma frame_lt t s1 s2 p1 p2 :
  (frame t s1 ++ p1 < frame t s2 ++ p2)%bytes ↔
  byte_Z (subspace_u8 s1) < byte_Z (subspace_u8 s2) ∨ (s1 = s2 ∧ (p1 < p2)%bytes).
Proof.
  unfold frame. rewrite <-!app_assoc. unfold bytes_lt. rewrite bytes_ltb_app.
  simpl app. rewrite bytes_ltb_cons. split; [|naive_solver].
  intros [?|[Hs ?]]; [by left|right]. split; [|done]. destruct s1, s2; done.
Qed.

(** The keys under one prefix of a tenant's subspace, both ways. *)
Lemma frame_inj t1 s1 p1 t2 s2 p2 :
  len t1 ≤ 255 → len t2 ≤ 255 →
  frame t1 s1 ++ p1 = frame t2 s2 ++ p2 → t1 = t2 ∧ s1 = s2 ∧ p1 = p2.
Proof.
  intros H1 H2 Heq.
  assert (t1 = t2) as <-.
  { apply (tenant_frame_prefix_free t1 t2 (frame t1 s1 ++ p1)); [done..| |].
    - apply frame_tenant_frame.
    - rewrite Heq. apply frame_tenant_frame. }
  unfold frame in Heq. rewrite <-!app_assoc in Heq. apply app_inv_head in Heq.
  injection Heq as Hs ->. split_and!; [done| |done]. destruct s1, s2; done.
Qed.

(** ** Properties *)

(** C14: the codec is a bijection.  A key decodes to a tenant, a subspace and a
    payload exactly when the tenant is a valid name (UTF-8, 1 to 255 bytes) and
    encoding the triple gives back that same key: what is written is read back
    unchanged, and [decode] accepts nothing [encode] could not have produced. *)
Theorem key_codec_bijective k t s p :
  decode k = Ok (t, s, p) ↔ valid_tenant t ∧ encode t s p = Ok k.
Proof.
  split.
  - intros [Hv ->]%decode_key_Ok. split; [done|]. apply encode_ok, Hv.
  - intros [Hv He]. apply encode_Ok in He as [_ ->]. by apply decode_frame.
Qed.

(** inside a tenant, the order of encoded keys is the order of the subspaces
    and, in one subspace, the order of the user keys ([docs/keyspace.md],
    property 1). *)
Theorem key_order_preserved t s1 s2 p1 p2 k1 k2
    (H1 : encode t s1 p1 = Ok k1) (H2 : encode t s2 p2 = Ok k2) :
  (k1 < k2)%bytes ↔
  byte_Z (subspace_u8 s1) < byte_Z (subspace_u8 s2) ∨ (s1 = s2 ∧ (p1 < p2)%bytes).
Proof.
  apply encode_Ok in H1 as [_ ->]. apply encode_Ok in H2 as [_ ->]. apply frame_lt.
Qed.

Lemma key_order_preserved_witness :
  ((lit "foo" < lit "foobar")%bytes ∧
   ([x01; x61; x01] ++ lit "foo" < [x01; x61; x01] ++ lit "foobar")%bytes).
Proof.
  assert ((lit "foo" < lit "foobar")%bytes) as H by reflexivity. split; [exact H|].
  apply (key_order_preserved (lit "a") Data Data (lit "foo") (lit "foobar")).
  - reflexivity.
  - reflexivity.
  - right. split; [reflexivity|exact H].
Defined.

(** C15: tenants do not overlap and are contiguous ([docs/keyspace.md], property
    2).  A key of one tenant starts with another's prefix only if the two are the
    same tenant, and every key between two keys of a tenant's subspace is itself
    a key of that subspace. *)
Theorem tenants_isolated t1 t2 s p k pre a b k1 k2 m
    (Hk : encode t1 s p = Ok k) (Hpre : encode_tenant_prefix t2 = Ok pre)
    (H1 : encode t1 s a = Ok k1) (H2 : encode t1 s b = Ok k2)
    (Hm1 : (k1 ≤ m)%bytes) (Hm2 : (m ≤ k2)%bytes) :
  (pre `prefix_of` k ↔ t1 = t2) ∧ ∃ q, encode t1 s q = Ok m.
Proof.
  apply encode_Ok in Hk as [Hl1 ->]. apply encode_Ok in H1 as [_ ->].
  apply encode_Ok in H2 as [_ ->].
  assert (1 ≤ len t2 ≤ 255 ∧ pre = tenant_frame t2) as [Hl2 ->].
  { unfold encode_tenant_prefix in Hpre. run_in Hpre.
    split; [|done]. by eapply check_tenant_len_Ok. }
  split.
  - split; [|intros ->; apply frame_tenant_frame].
    intros. eapply tenant_frame_prefix_free; [| |apply frame_tenant_frame|]; [lia..|done].
  - destruct (prefix_convex (frame t1 s) a b m Hm1 Hm2) as [q ->].
    exists q. by apply encode_ok.
Qed.

Lemma tenants_isolated_witness :
  ¬ ([x03] ++ lit "foo") `prefix_of` ([x06] ++ lit "foobar" ++ [x01] ++ lit "k").
Proof.
  intros H.
  destruct (tenants_isolated (lit "foobar") (lit "foo") Data (lit "k")
    ([x06] ++ lit "foobar" ++ [x01] ++ lit "k") ([x03] ++ lit "foo")
    (lit "k") (lit "k")
    ([x06] ++ lit "foobar" ++ [x01] ++ lit "k") ([x06] ++ lit "foobar" ++ [x01] ++ lit "k")
    ([x06] ++ lit "foobar" ++ [x01] ++ lit "k")) as [Hiff _]; try reflexivity.
  apply Hiff in H. discriminate H.
Defined.

(** the codec is total.  No key makes [decode] panic and no triple makes
    [encode] panic; [decode] rejects exactly the keys that no valid triple
    encodes to, always as [Corrupt], and [encode] rejects exactly the tenant
    names that are empty or over 255 bytes, always as [Config]. *)
Theorem key_codec_total k t s p :
  ((∃ x, decode k = Ok x) ∨ (∃ what, decode k = Err (Corrupt what))) ∧
  ((∃ what, decode k = Err (Corrupt what)) ↔
     ¬ ∃ t' s' p', valid_tenant t' ∧ encode t' s' p' = Ok k) ∧
  (encode t s p = Ok (frame t s ++ p) ∧ 1 ≤ len t ≤ 255 ∨
   (∃ msg, encode t s p = Err (ConfigError msg)) ∧ ¬ 1 ≤ len t ≤ 255).
Proof.
  assert ((∃ x, decode k = Ok x) ∨ (∃ what, decode k = Err (Corrupt what))) as Hd.
  { destruct (decode k) as [x|e|] eqn:E; [eauto| |by apply decode_key_no_panic in E].
    right. unfold decode in E. run_in E; eauto.
    all: exfalso; first [by eapply slice_not_Err | by eapply index_not_Err]. }
  split_and!; [done| |].
  - split.
    + intros [w Hw] (t'&s'&p'&Hv&He%encode_Ok). destruct He as [_ ->].
      rewrite decode_frame in Hw by done. done.
    + intros Hno. destruct Hd as [[[[t' s'] p'] Hx]|?]; [|done].
      exfalso. apply Hno. apply decode_key_Ok in Hx as [Hv ->].
      exists t', s', p'. split; [done|]. apply encode_ok, Hv.
  - destruct (decide (1 ≤ len t ≤ 255)); [left; split; [by apply encode_ok|done]|right].
    split; [|done]. unfold encode, check_tenant_len, MAX_TENANT_LEN.
    pose proof (len_nonneg t).
    destruct (Z.eqb_spec (len t) 0); [by eexists|].
    destruct (Z.ltb_spec 255 (len t)); [by eexists|lia].
Qed.

(** The seed corpus of the key fuzz targets, decoded. *)
Example seed_data_simple :
  decode ([x05] ++ lit "alice" ++ [x01] ++ lit "hello") = Ok (lit "alice", Data, lit "hello").
Proof. reflexivity. Qed.
Example seed_metadata_empty_payload : decode [x01; x74; x00] = Ok (lit "t", Metadata, []).
Proof. reflexivity. Qed.
Example seed_reject_empty_tenant : decode [x00; x01; x70] = Err (Corrupt "empty tenant").
Proof. reflexivity. Qed.
Example seed_reject_invalid_utf8 :
  decode ([x02; xff; xfe; x01] ++ lit "payload") = Err (Corrupt "tenant utf8").
Proof. reflexivity. Qed.
Example seed_reject_truncated : decode ([x05] ++ lit "ali") = Err (Corrupt "truncated key").
Proof. reflexivity. Qed.
Example seed_reject_unknown_subspace : decode [x01; x61; x09; x70] = Err (Corrupt "subspace byte").
Proof. reflexivity. Qed.
