(* ===== verification/ValueCodec.v ===== *)
(** * The value codec ([ferriskv-core/src/value.rs])

    A stored value is [0 | value] or [1 | expires_at_ms (u64 BE) | value].  The
    theorems show that decoding inverts encoding in both directions and that the
    two allocation-free readers, [payload_len] and [is_expired], agree with
    [decode] on every input, errors included. *)

From Stdlib Require Import Strings.Byte.
From S2P Require Import Prelude Bytes Core.

Definition VERSION_NO_TTL : byte := x00.
Definition VERSION_WITH_TTL : byte := x01.

Record StoredValue := mkStoredValue {
  expires_at_ms : option Z;
  value : bytes;
}.

Global Instance StoredValue_eq_dec : EqDecision StoredValue.
Proof. solve_decision. Defined.

Definition encode (value : bytes) (expires_at_ms : option Z) : bytes :=
  match expires_at_ms with
  | None => [VERSION_NO_TTL] ++ value
  | Some exp => [VERSION_WITH_TTL] ++ to_be_bytes 8 exp ++ value
  end.

Definition decode (raw : bytes) : result Error StoredValue :=
  if len raw =? 0 then Err (Corrupt "empty value") else
  version ← index raw 0;
  if decide (version = VERSION_NO_TTL) then
    v ← slice_from raw 1;
    mret (mkStoredValue None v)
  else if decide (version = VERSION_WITH_TTL) then
    if len raw <? 9 then Err (Corrupt "ttl value too short") else
    exp ← slice raw 1 9;
    v ← slice_from raw 9;
    mret (mkStoredValue (Some (from_be_bytes exp)) v)
  else Err (Corrupt "unknown value version").

Definition payload_len (raw : bytes) : result Error Z :=
  if len raw =? 0 then Err (Corrupt "empty value") else
  version ← index raw 0;
  if decide (version = VERSION_NO_TTL) then mret (len raw - 1)
  else if decide (version = VERSION_WITH_TTL) then
    if len raw <? 9 then Err (Corrupt "ttl value too short") else
    mret (len raw - 9)
  else Err (Corrupt "unknown value version").

Definition is_expired (raw : bytes) (now_ms : Z) : result Error bool :=
  if len raw =? 0 then Err (Corrupt "empty value") else
  version ← index raw 0;
  if decide (version = VERSION_NO_TTL) then mret false
  else if decide (version = VERSION_WITH_TTL) then
    if len raw <? 9 then Err (Corrupt "ttl value too short") else
    exp ← slice raw 1 9;
    mret (from_be_bytes exp <=? now_ms)
  else Err (Corrupt "unknown value version").

(** ** Lemmas *)

(** When a value has expired, as [is_expired] and the sweeper understand it. *)
Definition expired (sv : StoredValue) (now : Z) : bool :=
  match expires_at_ms sv with
  | Some exp => exp <=? now
  | None => false
  end.

Lemma expired_mono sv n n' : expired sv n = true → n ≤ n' → expired sv n' = true.
Proof. unfold expired. destruct (expires_at_ms sv); [|done]. rewrite !Z.leb_le. lia. Qed.

(** The three shapes a stored value can have. *)
Lemma decode_cons b rest :
  decode (b :: rest) =
    if decide (b = VERSION_NO_TTL) then Ok (mkStoredValue None rest)
    else if decide (b = VERSION_WITH_TTL) then
      if len rest <? 8 then Err (Corrupt "ttl value too short")
      else Ok (mkStoredValue (Some (from_be_bytes (take 8 rest))) (drop 8 rest))
    else Err (Corrupt "unknown value version").
Proof.
  unfold decode. unfold_monad. rewrite len_cons.
  destruct (Z.eqb_spec (1 + len rest) 0); [len_lia|]. rewrite index_0.
  destruct (decide (b = _)) as [->|].
  { by rewrite slice_from_1. }
  destruct (decide (b = _)) as [->|]; [|done].
  destruct (Z.ltb_spec (1 + len rest) 9), (Z.ltb_spec (len rest) 8); try lia; [done|].
  rewrite slice_in_range, slice_from_in_range by len_lia. done.
Qed.

Lemma decode_nil : decode [] = Err (Corrupt "empty value").
Proof. done. Qed.

Lemma payload_len_decode raw : payload_len raw = (sv ← decode raw; mret (len (value sv))).
Proof.
  destruct raw as [|b rest]; [done|]. rewrite decode_cons.
  unfold payload_len. unfold_monad. rewrite len_cons.
  destruct (Z.eqb_spec (1 + len rest) 0); [len_lia|]. rewrite index_0.
  repeat case_decide; simplify_eq; simpl; try done.
  - f_equal. lia.
  - destruct (Z.ltb_spec (1 + len rest) 9), (Z.ltb_spec (len rest) 8); try lia; [done|].
    simpl. f_equal. unfold len in *. rewrite length_drop. lia.
Qed.

Lemma is_expired_decode raw now : is_expired raw now = (sv ← decode raw; mret (expired sv now)).
Proof.
  destruct raw as [|b rest]; [done|]. rewrite decode_cons.
  unfold is_expired. unfold_monad. rewrite len_cons.
  destruct (Z.eqb_spec (1 + len rest) 0); [len_lia|]. rewrite index_0.
  repeat case_decide; simplify_eq; simpl; try done.
  destruct (Z.ltb_spec (1 + len rest) 9), (Z.ltb_spec (len rest) 8); try lia; [done|].
  by rewrite slice_in_range by len_lia.
Qed.

Lemma decode_value_no_panic raw : decode raw ≠ Panic.
Proof. destruct raw as [|b rest]; [done|]. rewrite decode_cons. repeat case_match; done. Qed.

Lemma decode_encode v exp :
  match exp with Some e => u64_ok e | None => True end →
  decode (encode v exp) = Ok (mkStoredValue exp v).
Proof.
  intros He. destruct exp as [e|].
  - change (encode v (Some e)) with (VERSION_WITH_TTL :: (to_be_bytes 8 e ++ v)).
    rewrite decode_cons, decide_False, decide_True by done.
    destruct (Z.ltb_spec (len (to_be_bytes 8 e ++ v)) 8); [len_lia|].
    rewrite take_app_length', drop_app_length' by (by rewrite length_to_be_bytes).
    by rewrite from_to_be_bytes_id.
  - change (encode v None) with (VERSION_NO_TTL :: v). by rewrite decode_cons.
Qed.

Lemma decode_value_Ok raw sv :
  decode raw = Ok sv →
  raw = encode (value sv) (expires_at_ms sv) ∧
  match expires_at_ms sv with Some e => u64_ok e | None => True end.
Proof.
  destruct raw as [|b rest]; [done|]. rewrite decode_cons.
  repeat case_decide; simplify_eq.
  - by intros [= <-].
  - destruct (Z.ltb_spec (len rest) 8); [done|]. intros [= <-].
    cbn [expires_at_ms value]. unfold encode.
    assert (length (take 8 rest) = 8%nat) as Hl by (rewrite length_take; unfold len in *; lia).
    split.
    + rewrite to_from_be_bytes by done. by rewrite take_drop.
    + pose proof (from_be_bytes_range (take 8 rest)) as Hr. unfold len in Hr.
      rewrite Hl in Hr. exact Hr.
  - done.
Qed.

Lemma encode_not_nil v exp : encode v exp ≠ [].
Proof. by destruct exp. Qed.

(** ** Properties *)

(** C27: decoding and encoding a stored value are inverse to each other.  Bytes
    decode to a value with its expiry exactly when encoding that value with a
    64-bit expiry gives those bytes. *)
Theorem value_codec_bijective raw v exp :
  decode raw = Ok (mkStoredValue exp v) ↔
  raw = encode v exp ∧ match exp with Some e => u64_ok e | None => True end.
Proof.
  split.
  - intros H%decode_value_Ok. done.
  - intros [-> ?]. by apply decode_encode.
Qed.

(** C17: the fast paths agree with the decoder.  On every input, [payload_len] is
    the length of the decoded value and [is_expired] is whether the decoded
    expiry has been reached, and they fail with the very error [decode] gives; no
    input makes any of the three panic. *)
Theorem value_fast_paths_agree raw now :
  payload_len raw = (sv ← decode raw; mret (len (value sv))) ∧
  is_expired raw now =
    (sv ← decode raw;
     mret (match expires_at_ms sv with Some exp => exp <=? now | None => false end)) ∧
  decode raw ≠ Panic ∧ payload_len raw ≠ Panic ∧ is_expired raw now ≠ Panic.
Proof.
  pose proof (decode_value_no_panic raw) as Hd.
  rewrite payload_len_decode, is_expired_decode.
  split_and!; [done..| |]; by destruct (decode raw).
Qed.

Example seed_ttl_mid :
  decode ([x01; x00; x00; x01; x8b; xcf; xe5; x68; x00] ++ lit "payload") =
  Ok (mkStoredValue (Some 1700000000000) (lit "payload")).
Proof. reflexivity. Qed.
Example seed_ttl_max :
  decode [x01; xff; xff; xff; xff; xff; xff; xff; xff; x76] =
  Ok (mkStoredValue (Some U64_MAX) (lit "v")).
Proof. reflexivity. Qed.
Example seed_reject_truncated_ttl : decode [x01; x00; x00; x00] = Err (Corrupt "ttl value too short").
Proof. reflexivity. Qed.
Example seed_reject_unknown_version :
  decode ([x63] ++ lit "hello") = Err (Corrupt "unknown value version").
Proof. reflexivity. Qed.
