(* ===== verification/Storage.v ===== *)
(** * Storage backends ([ferriskv-core/src/storage.rs])

    The [Storage] trait is a class of operations; [StorageLaws] is what its
    clients rely on: a backend behaves as one ordered byte map.  [MemStorage]
    satisfies the laws outright.  [FjallStorage] wraps the fjall LSM engine,
    which is not part of the repository: its handle and calls are a parameter
    ([Fjall]) with its documented contract as a hypothesis ([FjallOk]), and the
    wrapper and the [StorageBackend] dispatch are shown to satisfy the same
    laws. *)

From S2P Require Import Prelude Bytes Core.

(** ** The trait *)

Class Storage (S : Type) := {
  st_get : S → bytes → result Error (option bytes);
  st_put : bytes → bytes → M S Error unit;
  st_delete : bytes → M S Error unit;
  st_scan : S → bytes → result Error (list (bytes * bytes));
  st_scan_range : S → bytes → bytes → result Error (list (bytes * bytes));
  st_flush : M S Error unit;
}.

(** ** Ordered entries of a map *)

Definition key_le (a b : bytes * bytes) : Prop := bytes_le a.1 b.1.

Global Instance key_le_dec a b : Decision (key_le a b).
Proof. unfold key_le. apply _. Defined.

(** [sort_unstable_by(|a, b| a.0.cmp(&b.0))]. *)
Definition sort_by_key (l : list (bytes * bytes)) : list (bytes * bytes) := merge_sort key_le l.

(** The entries of [m] whose key satisfies [P], in key order. *)
Definition entries (P : bytes → bool) (m : gmap bytes bytes) : list (bytes * bytes) :=
  sort_by_key (filter (λ kv, P kv.1 = true) (map_to_list m)).

Definition key_in_range (start end_ k : bytes) : bool :=
  negb (bytes_ltb k start) && bytes_ltb k end_.

(** ** What a client of a backend relies on

    [view] is the map the backend holds; [healthy] says that no operation on it
    fails; [admits] says which entries it takes at all, and nothing is promised of a
    write of another.  A failed write may or may not have taken effect, and touches no
    other key. *)

Class StorageSpec (S : Type) := {
  view : S → gmap bytes bytes;
  healthy : S → Prop;
  admits : S → bytes → bytes → Prop;
}.

Definition read_spec {S A} `{StorageSpec S} (s : S) (r : result Error A) (expected : A) : Prop :=
  match r with
  | Ok a => a = expected
  | Err _ => ¬ healthy s
  | Panic => False
  end.

Definition write_spec {S} `{StorageSpec S} (s : S) (r : result Error unit * S)
    (expected : gmap bytes bytes) : Prop :=
  match r with
  | (Ok _, s') => view s' = expected ∧ (healthy s → healthy s')
  | (Err _, s') => ¬ healthy s ∧ (view s' = view s ∨ view s' = expected)
  | (Panic, _) => False
  end.

Class StorageLaws (S : Type) `{Storage S, StorageSpec S} : Prop := {
  get_law s k : read_spec s (st_get s k) (view s !! k);
  put_law s k v : admits s k v → write_spec s (st_put k v s) (<[k:=v]> (view s));
  delete_law s k : admits s k [] → write_spec s (st_delete k s) (delete k (view s));
  scan_law s p : read_spec s (st_scan s p) (entries (starts_with p) (view s));
  scan_range_law s a b :
    (a ≤ b)%bytes → read_spec s (st_scan_range s a b) (entries (key_in_range a b) (view s));
  flush_law s : write_spec s (st_flush s) (view s);
}.

(** ** [MemStorage]: a [DashMap] *)

Record MemStorage := { inner : gmap bytes bytes }.

Definition mem_new : MemStorage := {| inner := ∅ |}.

Definition mem_get (s : MemStorage) (key : bytes) : result Error (option bytes) :=
  Ok (inner s !! key).

Definition mem_put (key value : bytes) : M MemStorage Error unit := λ s,
  (Ok tt, {| inner := <[key:=value]> (inner s) |}).

Definition mem_delete (key : bytes) : M MemStorage Error unit := λ s,
  (Ok tt, {| inner := delete key (inner s) |}).

(** A [DashMap] iterates in no particular order; [map_to_list] is one of them,
    and [mem_scan_exact] shows that the choice does not show. *)
Definition mem_scan (s : MemStorage) (prefix : bytes) : result Error (list (bytes * bytes)) :=
  let out := filter (λ kv, starts_with prefix kv.1 = true) (map_to_list (inner s)) in
  Ok (sort_by_key out).

Definition mem_scan_range (s : MemStorage) (start end_ : bytes) :
    result Error (list (bytes * bytes)) :=
  let out := filter (λ kv, key_in_range start end_ kv.1 = true) (map_to_list (inner s)) in
  Ok (sort_by_key out).

Definition mem_flush : M MemStorage Error unit := λ s, (Ok tt, s).

Global Instance MemStorage_Storage : Storage MemStorage := {
  st_get := mem_get;
  st_put := mem_put;
  st_delete := mem_delete;
  st_scan := mem_scan;
  st_scan_range := mem_scan_range;
  st_flush := mem_flush;
}.

Global Instance MemStorage_Spec : StorageSpec MemStorage := {
  view := inner;
  healthy := λ _, True;
  admits := λ _ _ _, True;
}.

Global Instance MemStorage_Laws : StorageLaws MemStorage.
Proof. split; done. Qed.

(** ** [FjallStorage] *)

(** The calls the source makes on fjall's [Keyspace] and [PartitionHandle]. *)
Class Fjall := {
  fj_handle : Type;
  fj_get : fj_handle → bytes → result string (option bytes);
  fj_insert : bytes → bytes → M fj_handle string unit;
  fj_remove : bytes → M fj_handle string unit;
  fj_prefix : fj_handle → bytes → list (result string (bytes * bytes));
  fj_range : fj_handle → bytes → bytes → list (result string (bytes * bytes));
  fj_persist : M fj_handle string unit;
}.

Section fjall.
Context {F : Fjall}.

Record FjallStorage := { partition : fj_handle }.

(** The [for kv in iter { let (k, v) = kv?; out.push(..) }] loop. *)
Fixpoint collect (l : list (result string (bytes * bytes))) :
    result string (list (bytes * bytes)) :=
  match l with
  | [] => mret []
  | kv :: l => kv ← kv; out ← collect l; mret (kv :: out)
  end.

Definition fjall_get (s : FjallStorage) (key : bytes) : result Error (option bytes) :=
  map_err StorageError (fj_get (partition s) key).

Definition on_partition {A} (m : M fj_handle string A) : M FjallStorage Error A :=
  mapM_err StorageError (zoom partition (λ p _, {| partition := p |}) m).

Definition fjall_put (key value : bytes) : M FjallStorage Error unit :=
  on_partition (fj_insert key value).

Definition fjall_delete (key : bytes) : M FjallStorage Error unit :=
  on_partition (fj_remove key).

Definition fjall_scan (s : FjallStorage) (prefix : bytes) : result Error (list (bytes * bytes)) :=
  map_err StorageError (collect (fj_prefix (partition s) prefix)).

Definition fjall_scan_range (s : FjallStorage) (start end_ : bytes) :
    result Error (list (bytes * bytes)) :=
  map_err StorageError (collect (fj_range (partition s) start end_)).

Definition fjall_flush : M FjallStorage Error unit := on_partition fj_persist.

Global Instance FjallStorage_Storage : Storage FjallStorage := {
  st_get := fjall_get;
  st_put := fjall_put;
  st_delete := fjall_delete;
  st_scan := fjall_scan;
  st_scan_range := fjall_scan_range;
  st_flush := fjall_flush;
}.

(** *** fjall's contract

    A handle holds one map; a read returns what the map holds or an error, an
    iterator yields the matching entries in ascending key order, possibly cut
    short by an error, and a failed write concerns its own key only.  Keys are
    not empty, and keys and values have a documented maximum, of 64 KiB and 4 GiB. *)

Definition FJALL_MAX_KEY : Z := 65535.

Definition fj_takes (k v : bytes) : Prop := 0 < len k ≤ FJALL_MAX_KEY ∧ len v < 2 ^ 32.

Class FjallSpec := {
  fj_view : fj_handle → gmap bytes bytes;
  fj_healthy : fj_handle → Prop;
}.

Definition iter_spec `{FjallSpec} (f : fj_handle) (items : list (result string (bytes * bytes)))
    (expected : list (bytes * bytes)) : Prop :=
  items = Ok <$> expected ∨
  (¬ fj_healthy f ∧ ∃ l e rest, items = (Ok <$> l) ++ Err e :: rest ∧ l `prefix_of` expected).

Definition fj_write_spec `{FjallSpec} (f : fj_handle) (r : result string unit * fj_handle)
    (expected : gmap bytes bytes) : Prop :=
  match r with
  | (Ok _, f') => fj_view f' = expected ∧ (fj_healthy f → fj_healthy f')
  | (Err _, f') => ¬ fj_healthy f ∧ (fj_view f' = fj_view f ∨ fj_view f' = expected)
  | (Panic, _) => False
  end.

Class FjallOk `{FjallSpec} : Prop := {
  fj_get_law f k :
    match fj_get f k with
    | Ok o => o = fj_view f !! k
    | Err _ => ¬ fj_healthy f
    | Panic => False
    end;
  fj_insert_law f k v : fj_takes k v → fj_write_spec f (fj_insert k v f) (<[k:=v]> (fj_view f));
  fj_remove_law f k : fj_takes k [] → fj_write_spec f (fj_remove k f) (delete k (fj_view f));
  fj_prefix_law f p : iter_spec f (fj_prefix f p) (entries (starts_with p) (fj_view f));
  fj_range_law f a b :
    (a ≤ b)%bytes → iter_spec f (fj_range f a b) (entries (key_in_range a b) (fj_view f));
  fj_persist_law f : fj_write_spec f (fj_persist f) (fj_view f);
}.

(** ** [StorageBackend] *)

Inductive StorageBackend :=
| Memory (s : MemStorage)
| FjallB (s : FjallStorage).

Definition backend_get (b : StorageBackend) (key : bytes) : result Error (option bytes) :=
  match b with
  | Memory s => mem_get s key
  | FjallB s => fjall_get s key
  end.

(** A method of the enum runs the method of the variant it holds. *)
Definition dispatch {A} (mem : M MemStorage Error A) (fjall : M FjallStorage Error A) :
    M StorageBackend Error A := λ b,
  match b with
  | Memory s => let '(r, s') := mem s in (r, Memory s')
  | FjallB s => let '(r, s') := fjall s in (r, FjallB s')
  end.

Definition backend_put (key value : bytes) : M StorageBackend Error unit :=
  dispatch (mem_put key value) (fjall_put key value).

Definition backend_delete (key : bytes) : M StorageBackend Error unit :=
  dispatch (mem_delete key) (fjall_delete key).

Definition backend_scan (b : StorageBackend) (prefix : bytes) :
    result Error (list (bytes * bytes)) :=
  match b with
  | Memory s => mem_scan s prefix
  | FjallB s => fjall_scan s prefix
  end.

Definition backend_scan_range (b : StorageBackend) (start end_ : bytes) :
    result Error (list (bytes * bytes)) :=
  match b with
  | Memory s => mem_scan_range s start end_
  | FjallB s => fjall_scan_range s start end_
  end.

Definition backend_flush : M StorageBackend Error unit := dispatch mem_flush fjall_flush.

Global Instance StorageBackend_Storage : Storage StorageBackend := {
  st_get := backend_get;
  st_put := backend_put;
  st_delete := backend_delete;
  st_scan := backend_scan;
  st_scan_range := backend_scan_range;
  st_flush := backend_flush;
}.

Definition is_durable (b : StorageBackend) : bool :=
  match b with
  | Memory _ => false
  | FjallB _ => true
  end.

Definition require_key (b : StorageBackend) (key : bytes) : result Error bytes :=
  v ← backend_get b key;
  match v with
  | Some v => mret v
  | None => Err (NotFound key)
  end.

(** ** The backends satisfy the laws *)

Context `{FS : FjallSpec} `{FO : !FjallOk}.

Global Instance FjallStorage_Spec : StorageSpec FjallStorage := {
  view := λ s, fj_view (partition s);
  healthy := λ s, fj_healthy (partition s);
  admits := λ _, fj_takes;
}.

Global Instance StorageBackend_Spec : StorageSpec StorageBackend := {
  view := λ b, match b with Memory s => inner s | FjallB s => fj_view (partition s) end;
  healthy := λ b, match b with Memory _ => True | FjallB s => fj_healthy (partition s) end;
  admits := λ b k v, match b with Memory _ => True | FjallB _ => fj_takes k v end;
}.

(** Only the engine on disk is particular. *)
Lemma admits_durable (b : StorageBackend) k v :
  admits b k v ↔ (is_durable b = true → fj_takes k v).
Proof. destruct b; simpl; naive_solver. Qed.

Lemma admits_agree (b b' : StorageBackend) k v :
  is_durable b' = is_durable b → admits b k v → admits b' k v.
Proof. rewrite !admits_durable. by intros ->. Qed.

Lemma admits_delete (b : StorageBackend) k v : admits b k v → admits b k [].
Proof. rewrite !admits_durable. unfold fj_takes. change (len []) with 0. naive_solver lia. Qed.

Lemma admits_short (b : StorageBackend) k v :
  0 < len k ≤ FJALL_MAX_KEY → len v < 2 ^ 32 → admits b k v.
Proof. rewrite admits_durable. by split. Qed.

Lemma collect_spec f items expected :
  iter_spec f items expected →
  match collect items with
  | Ok l => l = expected
  | Err _ => ¬ fj_healthy f
  | Panic => False
  end.
Proof.
  intros [->|(Hh & l & e & rest & -> & _)].
  - assert (collect (Ok <$> expected) = Ok expected) as ->; [|done].
    induction expected as [|x l IH]; [done|]. csimpl. by rewrite IH.
  - assert (collect ((Ok <$> l) ++ Err e :: rest) = Err e) as ->; [|done].
    induction l as [|x l IH]; [done|]. csimpl. by rewrite IH.
Qed.

Lemma on_partition_spec (s : FjallStorage) (m : M fj_handle string unit) expected :
  fj_write_spec (partition s) (m (partition s)) expected →
  write_spec s (on_partition m s) expected.
Proof.
  unfold on_partition, mapM_err, zoom, fj_write_spec, write_spec.
  by destruct (m (partition s)) as [[[]| |] f'].
Qed.

Global Instance FjallStorage_Laws : StorageLaws FjallStorage.
Proof.
  split; intros; simpl.
  - unfold fjall_get, read_spec. pose proof (fj_get_law (partition s) k).
    by destruct (fj_get _ _).
  - by apply on_partition_spec, fj_insert_law.
  - by apply on_partition_spec, fj_remove_law.
  - unfold fjall_scan, read_spec. pose proof (collect_spec _ _ _ (fj_prefix_law (partition s) p)).
    by destruct (collect _).
  - unfold fjall_scan_range, read_spec.
    pose proof (collect_spec _ _ _ (fj_range_law (partition s) a b H)).
    by destruct (collect _).
  - apply on_partition_spec, fj_persist_law.
Qed.

Lemma dispatch_spec (b : StorageBackend) mem fjall expected :
  (∀ s, b = Memory s → write_spec s (mem s) expected) →
  (∀ s, b = FjallB s → write_spec s (fjall s) expected) →
  write_spec b (dispatch mem fjall b) expected.
Proof.
  intros Hm Hf. unfold dispatch. destruct b as [s|s].
  - specialize (Hm s eq_refl). unfold write_spec in *. by destruct (mem s) as [[]?].
  - specialize (Hf s eq_refl). unfold write_spec in *. by destruct (fjall s) as [[]?].
Qed.

Global Instance StorageBackend_Laws : StorageLaws StorageBackend.
Proof.
  split; intros; simpl.
  - destruct s as [s|s]; [done|]. exact (get_law s k).
  - apply dispatch_spec; intros s' ->; [done|]. exact (put_law s' k v H).
  - apply dispatch_spec; intros s' ->; [done|]. exact (delete_law s' k H).
  - destruct s as [s|s]; [done|]. exact (scan_law s p).
  - destruct s as [s|s]; [done|]. exact (scan_range_law s a b H).
  - apply dispatch_spec; intros s' ->; [done|]. exact (flush_law s').
Qed.

(** No operation changes which backend is in use. *)
Lemma is_durable_dispatch {A} (b : StorageBackend) (mem : M _ _ A) fjall :
  is_durable (dispatch mem fjall b).2 = is_durable b.
Proof. unfold dispatch. by destruct b; case_match. Qed.

End fjall.

Global Arguments StorageBackend F : clear implicits, assert.
Global Arguments FjallStorage F : clear implicits, assert.

(** ** Sorted entries *)

Lemma sort_by_key_perm l : sort_by_key l ≡ₚ l.
Proof. apply merge_sort_Permutation. Qed.

Global Instance key_le_trans : Transitive key_le.
Proof. intros a b c. unfold key_le. by etrans. Qed.
Global Instance key_le_total : Total key_le.
Proof. intros a b. unfold key_le. apply (total bytes_le). Qed.

Lemma sort_by_key_sorted l : StronglySorted key_le (sort_by_key l).
Proof. apply StronglySorted_merge_sort; apply _. Qed.

Lemma fst_determines (l : list (bytes * bytes)) k v1 v2 :
  NoDup (l.*1) → (k, v1) ∈ l → (k, v2) ∈ l → v1 = v2.
Proof.
  intros Hnd H1 H2.
  apply (elem_of_list_to_map_1 (M:=gmap bytes)) in H1, H2; [|done..]. congruence.
Qed.

(** With distinct keys, a list has one sorted arrangement: the order the entries
    were collected in does not show. *)
Lemma sorted_unique l1 l2 :
  NoDup (l1.*1) → StronglySorted key_le l1 → StronglySorted key_le l2 → l1 ≡ₚ l2 → l1 = l2.
Proof.
  intros Hnd H1 H2 Hp. apply (StronglySorted_unique_strong key_le); [|done..].
  intros [k1 v1] [k2 v2] Hi1 Hi2 Hle1 Hle2. unfold key_le in *. simpl in *.
  assert (k1 = k2) as <- by by apply (anti_symm bytes_le).
  f_equal. rewrite <-Hp in Hi2. by eapply fst_determines.
Qed.

Lemma sort_by_key_unique l1 l2 : NoDup (l1.*1) → l1 ≡ₚ l2 → sort_by_key l1 = sort_by_key l2.
Proof.
  intros Hnd Hp. apply sorted_unique; auto using sort_by_key_sorted.
  - by rewrite sort_by_key_perm.
  - by rewrite !sort_by_key_perm.
Qed.

Lemma NoDup_filter_fst (P : bytes * bytes → Prop) `{∀ x, Decision (P x)} l :
  NoDup (l.*1) → NoDup ((filter P l).*1).
Proof.
  intros Hnd. eapply sublist_NoDup; [done|]. apply fmap_sublist, sublist_filter.
Qed.

Lemma entries_NoDup P m : NoDup ((entries P m).*1).
Proof.
  unfold entries. rewrite sort_by_key_perm. apply NoDup_filter_fst, NoDup_fst_map_to_list.
Qed.

Lemma elem_of_entries P m k v : (k, v) ∈ entries P m ↔ m !! k = Some v ∧ P k = true.
Proof.
  unfold entries. rewrite sort_by_key_perm, list_elem_of_filter, elem_of_map_to_list. naive_solver.
Qed.

(** Keys come out strictly ascending. *)
Lemma entries_sorted P m : StronglySorted bytes_lt ((entries P m).*1).
Proof.
  pose proof (entries_NoDup P m) as Hnd. revert Hnd.
  pose proof (sort_by_key_sorted (filter (λ kv, P kv.1 = true) (map_to_list m))) as Hs.
  fold (entries P m) in Hs. induction Hs as [|[k v] l Hs IH Hk]; csimpl; [constructor|].
  rewrite NoDup_cons. intros [Hnin Hnd]. constructor; [auto|].
  rewrite Forall_forall in Hk. apply Forall_forall. intros k' Hk'.
  apply list_elem_of_fmap in Hk' as ([k'' v''] & -> & Hin). simpl.
  specialize (Hk _ Hin). unfold key_le in Hk. simpl in Hk.
  apply bytes_le_lteq in Hk as [?| ->]; [done|].
  destruct Hnin. apply list_elem_of_fmap. by exists (k'', v'').
Qed.

(** A list with the right entries in the right order is the list. *)
Lemma entries_unique P m l :
  StronglySorted bytes_lt (l.*1) → (∀ k v, (k, v) ∈ l ↔ m !! k = Some v ∧ P k = true) →
  l = entries P m.
Proof.
  intros Hs Hin.
  assert (NoDup (l.*1)) as Hnd.
  { clear Hin. induction Hs as [|k ks Hs IH Hk]; constructor; [|done].
    intros Hin. rewrite Forall_forall in Hk. by apply (irreflexivity bytes_lt k), Hk. }
  apply sorted_unique; [done| |apply sort_by_key_sorted|].
  - clear Hin Hnd. induction l as [|[k v] l IH]; [constructor|]. csimpl in Hs.
    inv Hs as [|?? Hs' Hk]. constructor; [auto|]. rewrite Forall_forall in Hk. apply Forall_forall.
    intros [k' v'] Hx. unfold key_le. simpl. apply bytes_le_lteq. left. apply Hk.
    apply list_elem_of_fmap. by exists (k', v').
  - apply NoDup_Permutation.
    + by eapply NoDup_fmap_1.
    + eapply NoDup_fmap_1, entries_NoDup.
    + intros [k v]. by rewrite Hin, elem_of_entries.
Qed.

(** ** Properties *)

(** a memory scan is exact.  [MemStorage::scan] succeeds and returns every
    entry whose key carries the prefix and no other, in strictly ascending key
    order, and the result is the same whatever order the hash map yields its
    entries in. *)
Theorem mem_scan_exact s p :
  ∃ l, mem_scan s p = Ok l ∧
    (∀ k v, (k, v) ∈ l ↔ inner s !! k = Some v ∧ p `prefix_of` k) ∧
    StronglySorted bytes_lt (l.*1) ∧
    (∀ order, order ≡ₚ map_to_list (inner s) →
       l = sort_by_key (filter (λ kv, starts_with p kv.1 = true) order)).
Proof.
  exists (entries (starts_with p) (inner s)). split_and!.
  - done.
  - intros k v. by rewrite elem_of_entries, starts_with_spec.
  - apply entries_sorted.
  - intros order Hp. apply sort_by_key_unique.
    + apply NoDup_filter_fst, NoDup_fst_map_to_list.
    + by rewrite Hp.
Qed.

(** a memory range scan returns exactly the entries with
    [start <= key < end], ascending, the end excluded. *)
Theorem mem_scan_range_exact s a b :
  ∃ l, mem_scan_range s a b = Ok l ∧
    (∀ k v, (k, v) ∈ l ↔ inner s !! k = Some v ∧ (a ≤ k)%bytes ∧ (k < b)%bytes) ∧
    StronglySorted bytes_lt (l.*1).
Proof.
  exists (entries (key_in_range a b) (inner s)). split_and!.
  - done.
  - intros k v. rewrite elem_of_entries. unfold key_in_range, bytes_le, bytes_lt.
    by rewrite andb_true_iff, negb_true_iff.
  - apply entries_sorted.
Qed.
