(* ===== verification/Wal.v ===== *)
(** * The write-ahead log ([ferriskv-node/src/wal.rs])

    Frame and header encoding, the recovery parser, and the log object over a
    file.  The file is the operating system's view of the segment; every device
    call may fail, as directed by a list of faults that is part of the file, so
    an append that dies half-way and a crash that leaves a torn tail are ordinary
    states of the model.  CRC-32 ([crc32fast]) is a parameter.

    The theorems: the parser is total and accepts exactly the frames [append]
    writes; whatever follows the last whole frame is discarded; the log object
    refines a list of records with a base sequence under appends, rotations and
    restarts; and what a failed rotation leaves behind. *)

From Stdlib Require Import Strings.Byte.
From S2P Require Import Prelude Bytes Core.

(** [crc32fast::hash] returns a [u32]. *)
Class Crc32 := crc32 : bytes → Z.
Class Crc32Ok `{Crc32} : Prop := crc32_u32 : ∀ b, 0 ≤ crc32 b < 2 ^ 32.

Definition MAGIC : bytes := lit "FKVW".
Definition FORMAT_VERSION : Z := 1.
Definition HEADER_LEN : Z := 4 + 2 + 8.
Definition MIN_FRAME_LEN : Z := 8 + 1 + 4 + 4 + 4.

Inductive WalOp := Put | Delete.

Global Instance WalOp_eq_dec : EqDecision WalOp.
Proof. solve_decision. Defined.

(** [op as u8]. *)
Definition op_u8 (op : WalOp) : byte :=
  match op with
  | Put => x01
  | Delete => x02
  end.

Definition op_from_u8 (b : byte) : option WalOp :=
  match b with
  | x01 => Some Put
  | x02 => Some Delete
  | _ => None
  end.

Record WalRecord := mkRecord {
  seq : Z;
  op : WalOp;
  key : bytes;
  value : bytes;
}.

Global Instance WalRecord_eq_dec : EqDecision WalRecord.
Proof. solve_decision. Defined.

Record Recovery := {
  records : list WalRecord;
  truncated_bytes : Z;
  rec_next_seq : Z;
  rec_segment_bytes : Z;
}.

Definition Recovery_is_empty (r : Recovery) : bool := bool_decide (records r = []).

Section wal.
Context `{C : Crc32}.

(** ** Parsing *)

(** [Err tt] is Rust's [None]: stop here. *)
Definition parse_frame (buf : bytes) : result unit (WalRecord * Z) :=
  if len buf <? MIN_FRAME_LEN then Err tt else
  seq_b ← slice buf 0 8;
  op_b ← index buf 8;
  op ← ok_or tt (op_from_u8 op_b);
  klen_b ← slice buf 9 13;
  let klen := from_le_bytes klen_b in
  key_end ← ok_or tt (checked_add64 13 klen);
  vlen_end ← ok_or tt (checked_add64 key_end 4);
  if len buf <? vlen_end then Err tt else
  vlen_b ← slice buf key_end vlen_end;
  let vlen := from_le_bytes vlen_b in
  value_end ← ok_or tt (checked_add64 vlen_end vlen);
  frame_end ← ok_or tt (checked_add64 value_end 4);
  if len buf <? frame_end then Err tt else
  crc_b ← slice buf value_end frame_end;
  covered ← slice buf 0 value_end;
  if negb (crc32 covered =? from_le_bytes crc_b) then Err tt else
  k ← slice buf 13 key_end;
  v ← slice buf vlen_end value_end;
  mret (mkRecord (from_le_bytes seq_b) op k v, frame_end).

(** The [while let] loop, with fuel; [parse_frames_canonical] shows that the fuel
    [parse_frames] gives it is never used up. *)
Fixpoint parse_frames_loop (fuel : nat) (body : bytes) (pos : Z) (records : list WalRecord) :
    result Error (list WalRecord * Z) :=
  match fuel with
  | O => Panic
  | S fuel =>
      rest ← slice_from body pos;
      match parse_frame rest with
      | Ok (record, n) => parse_frames_loop fuel body (pos + n) (records ++ [record])
      | Err _ => mret (records, pos)
      | Panic => Panic
      end
  end.

Definition parse_frames (body : bytes) : result Error (list WalRecord * Z) :=
  parse_frames_loop (S (length body)) body 0 [].

Definition encode_header (base_seq : Z) : bytes :=
  MAGIC ++ to_le_bytes 2 FORMAT_VERSION ++ to_le_bytes 8 base_seq.

Definition parse_header (buf : bytes) : result Error Z :=
  if len buf <? HEADER_LEN then Err (Corrupt "wal header is truncated") else
  magic ← slice buf 0 4;
  if negb (bool_decide (magic = MAGIC)) then
    Err (Corrupt "file is not a ferriskv wal segment")
  else
  version_b ← slice buf 4 6;
  if negb (from_le_bytes version_b =? FORMAT_VERSION) then
    Err (Corrupt "unsupported wal format version")
  else
  base_b ← slice buf 6 14;
  mret (from_le_bytes base_b).

(** The frame [append] assembles: everything, then the CRC of everything. *)
Definition frame_body (r : WalRecord) : bytes :=
  to_le_bytes 8 (seq r) ++ [op_u8 (op r)] ++ to_le_bytes 4 (len (key r)) ++ key r
  ++ to_le_bytes 4 (len (value r)) ++ value r.

Definition encode_frame (r : WalRecord) : bytes :=
  frame_body r ++ to_le_bytes 4 (crc32 (frame_body r)).

Global Arguments frame_body : simpl never.
Global Arguments encode_frame : simpl never.
Global Arguments encode_header : simpl never.

(** ** The segment file

    One fault is consumed by every system call; no fault left means the call
    succeeds.  A failing write may have moved any number of bytes first. *)

Inductive fault := Pass | Fail (n : nat).

Record File := mkFile {
  contents : bytes;
  faults : list fault;
}.

Definition syscall : M File Error unit := λ f,
  match faults f with
  | Fail _ :: fs => (Err (Io "syscall"), mkFile (contents f) fs)
  | Pass :: fs => (Ok tt, mkFile (contents f) fs)
  | [] => (Ok tt, f)
  end.

(** [write_all] on a file opened for appending: how many bytes reached the file,
    and whether the call failed. *)
Definition device_write (data : bytes) (f : File) : option nat * File :=
  match faults f with
  | Fail n :: fs =>
      if bool_decide (n < length data)%nat then
        (Some n, mkFile (contents f ++ take n data) fs)
      else (None, mkFile (contents f ++ data) fs)
  | Pass :: fs => (None, mkFile (contents f ++ data) fs)
  | [] => (None, mkFile (contents f ++ data) [])
  end.

Definition file_write_all (data : bytes) : M File Error unit := λ f,
  match device_write data f with
  | (Some _, f') => (Err (Io "write"), f')
  | (None, f') => (Ok tt, f')
  end.

Definition set_len (n : Z) : M File Error unit :=
  syscall;; modify (λ f, mkFile (take (Z.to_nat n) (contents f)) (faults f)).

(** [OpenOptions::create(true).write(true).truncate(true).open(..)]. *)
Definition open_truncate : M File Error unit :=
  syscall;; modify (λ f, mkFile [] (faults f)).

(** ** The log object *)

Record Wal := mkWal {
  wal_file : File;
  wal_buf : bytes;          (* what [BufWriter] holds *)
  wal_next_seq : Z;
  wal_segment_bytes : Z;
}.

Definition on_file {A} (m : M File Error A) : M Wal Error A :=
  zoom wal_file (λ f w, mkWal f (wal_buf w) (wal_next_seq w) (wal_segment_bytes w)) m.

(** [BufWriter::new] buffers 8 KiB. *)
Definition BUF_CAPACITY : Z := 8 * 1024.

(** [BufWriter::flush]: bytes that reached the file leave the buffer even when
    the write fails; the rest stays for the next attempt. *)
Definition buf_flush : M Wal Error unit := λ w,
  if bool_decide (wal_buf w = []) then (Ok tt, w) else
  match device_write (wal_buf w) (wal_file w) with
  | (Some n, f) =>
      (Err (Io "write"), mkWal f (drop n (wal_buf w)) (wal_next_seq w) (wal_segment_bytes w))
  | (None, f) => (Ok tt, mkWal f [] (wal_next_seq w) (wal_segment_bytes w))
  end.

(** [BufWriter::write_all]: small writes go to the buffer, writes of at least its
    capacity go straight to the file. *)
Definition buf_write_all (data : bytes) : M Wal Error unit := λ w,
  let push w := (Ok tt, mkWal (wal_file w) (wal_buf w ++ data)
                          (wal_next_seq w) (wal_segment_bytes w)) in
  let spare := BUF_CAPACITY - len (wal_buf w) in
  if len data <? spare then push w else
  (when (spare <? len data) buf_flush;;
   if BUF_CAPACITY <=? len data then on_file (file_write_all data) else push) w.

Definition open : M File Error (Wal * Recovery) :=
  syscall;; (* create_dir_all *)
  syscall;; (* open *)
  syscall;; (* seek to the end *)
  buf ← gets contents;
  recovery ←
    (if len buf =? 0 then
       file_write_all (encode_header 0);;
       syscall;; (* sync_data *)
       mret {| records := []; truncated_bytes := 0; rec_next_seq := 0;
               rec_segment_bytes := HEADER_LEN |}
     else
       syscall;; (* seek to the start *)
       syscall;; (* read_to_end *)
       base_seq ← lift (parse_header buf);
       body ← lift (slice_from buf HEADER_LEN);
       '(recs, consumed) ← lift (parse_frames body);
       let valid_len := HEADER_LEN + consumed in
       let truncated := len buf - valid_len in
       when (0 <? truncated) (set_len valid_len;; syscall);;
       let next_seq :=
         Z.max (default base_seq ((λ r, sat_add64 (seq r) 1) <$> last recs)) base_seq in
       mret {| records := recs; truncated_bytes := truncated;
               rec_next_seq := next_seq; rec_segment_bytes := valid_len |});
  syscall;; (* reopen for appending *)
  f ← gets id;
  mret (mkWal f [] (rec_next_seq recovery) (rec_segment_bytes recovery), recovery).

Definition append (o : WalOp) (k v : bytes) : M Wal Error Z :=
  sq ← gets wal_next_seq;
  let frame := encode_frame (mkRecord sq o k v) in
  buf_write_all frame;;
  buf_flush;;
  modify (λ w, mkWal (wal_file w) (wal_buf w) (sat_add64 sq 1) (wal_segment_bytes w));;
  modify (λ w, mkWal (wal_file w) (wal_buf w) (wal_next_seq w)
                 (sat_add64 (wal_segment_bytes w) (len frame)));;
  mret sq.

Definition sync : M Wal Error unit :=
  buf_flush;;
  on_file syscall.

Definition rotate : M Wal Error unit :=
  buf_flush;;
  base_seq ← gets wal_next_seq;
  on_file open_truncate;;
  on_file (file_write_all (encode_header base_seq));;
  on_file syscall;; (* sync_data *)
  on_file syscall;; (* reopen for appending *)
  modify (λ w, mkWal (wal_file w) [] (wal_next_seq w) HEADER_LEN).

Definition next_seq (w : Wal) : Z := wal_next_seq w.
Definition segment_bytes (w : Wal) : Z := wal_segment_bytes w.

(** ** Parser lemmas *)

Definition wf_record (r : WalRecord) : Prop :=
  u64_ok (seq r) ∧ len (key r) < 2 ^ 32 ∧ len (value r) < 2 ^ 32.

Global Instance wf_record_dec r : Decision (wf_record r).
Proof. unfold wf_record, u64_ok. apply _. Defined.

Lemma op_from_u8_op o : op_from_u8 (op_u8 o) = Some o.
Proof. by destruct o. Qed.

Lemma op_from_u8_Some b o : op_from_u8 b = Some o → b = op_u8 o.
Proof. destruct b; simpl; intros; simplify_eq; done. Qed.

Lemma from_le_bytes_4 b : len b = 4 → 0 ≤ from_le_bytes b < 2 ^ 32.
Proof. intros H. pose proof (from_le_bytes_range b) as Hr. rewrite H in Hr. exact Hr. Qed.

Lemma from_le_bytes_8 b : len b = 8 → u64_ok (from_le_bytes b).
Proof. intros H. pose proof (from_le_bytes_range b) as Hr. rewrite H in Hr. exact Hr. Qed.

(** The decision [parse_frame] takes on a buffer that holds a frame's worth of
    fields: only the operation code and the checksum are left to test. *)
Definition judge (sb : bytes) (ob : byte) (kb k vb v cb : bytes) : result unit (WalRecord * Z) :=
  match op_from_u8 ob with
  | Some o =>
      if crc32 (sb ++ [ob] ++ kb ++ k ++ vb ++ v) =? from_le_bytes cb
      then Ok (mkRecord (from_le_bytes sb) o k v, 21 + len k + len v)
      else Err tt
  | None => Err tt
  end.

Lemma parse_frame_shape sb ob kb k vb v cb rest :
  len sb = 8 → len kb = 4 → from_le_bytes kb = len k →
  len vb = 4 → from_le_bytes vb = len v → len cb = 4 →
  parse_frame (sb ++ [ob] ++ kb ++ k ++ vb ++ v ++ cb ++ rest) = judge sb ob kb k vb v cb.
Proof.
  intros Hs Hkb Hk Hvb Hv Hc.
  pose proof (from_le_bytes_4 kb Hkb). pose proof (from_le_bytes_4 vb Hvb).
  unfold parse_frame, judge, MIN_FRAME_LEN. unfold_monad.
  destruct (Z.ltb_spec (len (sb ++ [ob] ++ kb ++ k ++ vb ++ v ++ cb ++ rest)) (8 + 1 + 4 + 4 + 4));
    [len_lia|].
  rewrite (slice_eq [] sb ([ob] ++ kb ++ k ++ vb ++ v ++ cb ++ rest)) by (done || len_lia).
  simpl app. rewrite index_app by done. fold (app [ob]).
  destruct (op_from_u8 ob) as [o|]; [|done].
  erewrite (slice_eq (sb ++ [ob]) kb (k ++ vb ++ v ++ cb ++ rest))
    by (len_lia || by rewrite <-?app_assoc).
  rewrite Hk, !checked_add64_ok by (unfold U64_MAX; lia).
  destruct (Z.ltb_spec (len (sb ++ ob :: kb ++ k ++ vb ++ v ++ cb ++ rest)) (13 + len k + 4));
    [len_lia|].
  erewrite (slice_eq (sb ++ [ob] ++ kb ++ k) vb (v ++ cb ++ rest))
    by (len_lia || by rewrite <-?app_assoc; simpl; rewrite <-?app_assoc).
  rewrite Hv, !checked_add64_ok by (unfold U64_MAX; lia).
  destruct (Z.ltb_spec (len (sb ++ ob :: kb ++ k ++ vb ++ v ++ cb ++ rest))
    (13 + len k + 4 + len v + 4)); [len_lia|].
  erewrite (slice_eq (sb ++ [ob] ++ kb ++ k ++ vb ++ v) cb rest)
    by (len_lia || by rewrite <-?app_assoc; simpl; rewrite <-?app_assoc).
  erewrite (slice_eq [] (sb ++ [ob] ++ kb ++ k ++ vb ++ v) (cb ++ rest))
    by (len_lia || by rewrite <-?app_assoc; simpl; rewrite <-?app_assoc).
  simpl app. destruct (crc32 _ =? from_le_bytes cb); simpl negb; [|done].
  erewrite (slice_eq (sb ++ [ob] ++ kb) k (vb ++ v ++ cb ++ rest))
    by (len_lia || by rewrite <-?app_assoc; simpl; rewrite <-?app_assoc).
  erewrite (slice_eq (sb ++ [ob] ++ kb ++ k ++ vb) v (cb ++ rest))
    by (len_lia || by rewrite <-?app_assoc; simpl; rewrite <-?app_assoc).
  do 2 f_equal. lia.
Qed.

(** Every buffer either is too short for the frame it announces, and is refused,
    or holds the fields [judge] decides on. *)
Lemma parse_frame_cases buf :
  parse_frame buf = Err tt ∨
  ∃ sb ob kb k vb v cb rest,
    buf = sb ++ [ob] ++ kb ++ k ++ vb ++ v ++ cb ++ rest ∧
    len sb = 8 ∧ len kb = 4 ∧ from_le_bytes kb = len k ∧
    len vb = 4 ∧ from_le_bytes vb = len v ∧ len cb = 4.
Proof.
  destruct (Z.ltb_spec (len buf) MIN_FRAME_LEN) as [Hs|Hs].
  { left. unfold parse_frame. by rewrite (proj2 (Z.ltb_lt _ _) Hs). }
  unfold MIN_FRAME_LEN in Hs.
  destruct (len_split 8 buf) as (sb & r0 & -> & Hsb); [lia|].
  destruct r0 as [|ob r0]; [len_lia|].
  destruct (len_split 4 r0) as (kb & r1 & -> & Hkb); [len_lia|].
  pose proof (from_le_bytes_4 kb Hkb).
  assert (parse_frame (sb ++ ob :: kb ++ r1) = Err tt ∨
    from_le_bytes kb + 4 ≤ len r1) as [?|Hk]; [|by left|].
  { destruct (Z.le_gt_cases (from_le_bytes kb + 4) (len r1)) as [?|Hlt]; [by right|left].
    unfold parse_frame. unfold_monad. case_match; [done|].
    rewrite (slice_eq [] sb (ob :: kb ++ r1)), index_app by (done || len_lia).
    destruct (op_from_u8 ob); [|done].
    rewrite (slice_eq (sb ++ [ob]) kb r1) by (len_lia || by rewrite <-?app_assoc).
    rewrite !checked_add64_ok by (unfold U64_MAX; lia).
    destruct (Z.ltb_spec (len (sb ++ ob :: kb ++ r1)) (13 + from_le_bytes kb + 4)); [done|len_lia]. }
  destruct (len_split (from_le_bytes kb) r1) as (k & r2 & -> & Hlk); [lia|].
  destruct (len_split 4 r2) as (vb & r3 & -> & Hvb); [len_lia|].
  pose proof (from_le_bytes_4 vb Hvb).
  assert (parse_frame (sb ++ ob :: kb ++ k ++ vb ++ r3) = Err tt ∨
    from_le_bytes vb + 4 ≤ len r3) as [?|Hv]; [|by left|].
  { destruct (Z.le_gt_cases (from_le_bytes vb + 4) (len r3)) as [?|Hlt]; [by right|left].
    unfold parse_frame. unfold_monad. case_match; [done|].
    rewrite (slice_eq [] sb (ob :: kb ++ k ++ vb ++ r3)), index_app by (done || len_lia).
    destruct (op_from_u8 ob); [|done].
    rewrite (slice_eq (sb ++ [ob]) kb (k ++ vb ++ r3)) by (len_lia || by rewrite <-?app_assoc).
    rewrite !checked_add64_ok by (unfold U64_MAX; lia). case_match; [done|].
    rewrite (slice_eq (sb ++ [ob] ++ kb ++ k) vb r3)
      by (len_lia || by rewrite <-?app_assoc; simpl; rewrite <-?app_assoc).
    rewrite !checked_add64_ok by (unfold U64_MAX; lia).
    destruct (Z.ltb_spec (len (sb ++ ob :: kb ++ k ++ vb ++ r3))
      (13 + from_le_bytes kb + 4 + from_le_bytes vb + 4)); [done|len_lia]. }
  destruct (len_split (from_le_bytes vb) r3) as (v & r4 & -> & Hlv); [lia|].
  destruct (len_split 4 r4) as (cb & rest & -> & Hcb); [len_lia|].
  right. by exists sb, ob, kb, k, vb, v, cb, rest.
Qed.

Lemma parse_frame_no_panic buf : parse_frame buf ≠ Panic.
Proof.
  destruct (parse_frame_cases buf) as [->|(sb&ob&kb&k&vb&v&cb&rest&->&?)]; [done|].
  destruct_and!. rewrite parse_frame_shape by done. unfold judge. by repeat case_match.
Qed.

Lemma len_encode_frame r : len (encode_frame r) = 21 + len (key r) + len (value r).
Proof. unfold encode_frame, frame_body. len_lia. Qed.

Lemma encode_frame_pos r : 0 < len (encode_frame r).
Proof. rewrite len_encode_frame. pose proof (len_nonneg (key r)). pose proof (len_nonneg (value r)). lia. Qed.

Lemma encode_frame_not_nil r : encode_frame r ≠ [].
Proof. intros H. pose proof (encode_frame_pos r) as Hp. by rewrite H in Hp. Qed.

Context `{Hcrc : !Crc32Ok}.

Lemma parse_frame_encode r rest :
  wf_record r → parse_frame (encode_frame r ++ rest) = Ok (r, len (encode_frame r)).
Proof.
  intros (Hs & Hk & Hv). pose proof (len_nonneg (key r)). pose proof (len_nonneg (value r)).
  rewrite len_encode_frame. unfold encode_frame, frame_body. rewrite <-!app_assoc.
  rewrite parse_frame_shape by (rewrite ?len_to_le_bytes, ?from_to_le_bytes_id; simpl; lia).
  unfold judge. rewrite op_from_u8_op.
  rewrite !from_to_le_bytes_id by (first [exact Hs | apply crc32_u32]).
  rewrite Z.eqb_refl. by destruct r.
Qed.

(** A frame that parses is the encoding of the record it parses to. *)
Lemma parse_frame_Ok buf r n :
  parse_frame buf = Ok (r, n) →
  wf_record r ∧ n = len (encode_frame r) ∧ ∃ rest, buf = encode_frame r ++ rest.
Proof.
  destruct (parse_frame_cases buf) as
    [->|(sb&ob&kb&k&vb&v&cb&rest&->&Hs&Hkb&Hk&Hvb&Hv&Hcb)]; [done|].
  rewrite parse_frame_shape by done. unfold judge.
  destruct (op_from_u8 ob) as [o|] eqn:Ho; [|done]. apply op_from_u8_Some in Ho as ->.
  destruct (Z.eqb_spec (crc32 (sb ++ [op_u8 o] ++ kb ++ k ++ vb ++ v)) (from_le_bytes cb))
    as [Hc|]; [|done].
  intros [= <- <-]. rewrite len_encode_frame. cbn [key value].
  pose proof (from_le_bytes_4 kb Hkb). pose proof (from_le_bytes_4 vb Hvb).
  split_and!; [|done|].
  - split_and!; simpl; [by apply from_le_bytes_8|lia|lia].
  - exists rest. unfold encode_frame, frame_body. cbn [seq op key value].
    rewrite <-Hk, <-Hv, !to_from_le_bytes_len by done.
    rewrite Hc, to_from_le_bytes_len by done.
    by rewrite <-!app_assoc.
Qed.

(** A proper prefix of a frame does not parse: a torn write is recognised. *)
Lemma parse_frame_torn r p q :
  wf_record r → encode_frame r = p ++ q → q ≠ [] → parse_frame p = Err tt.
Proof.
  intros Hwf He Hq. destruct (parse_frame p) as [[r' n]|[]|] eqn:Hp;
    [|done|by apply parse_frame_no_panic in Hp].
  apply parse_frame_Ok in Hp as (Hwf' & -> & rest & ->).
  pose proof (parse_frame_encode r [] Hwf) as H1.
  rewrite app_nil_r, He, <-app_assoc, parse_frame_encode in H1 by done.
  injection H1 as -> _. apply (f_equal len) in He.
  destruct q; [done|]. autorewrite with len in He.
  pose proof (len_nonneg q). pose proof (len_nonneg rest). lia.
Qed.

(** ** The frame loop *)

(** The bytes of a run of records. *)
Definition encode_frames (rs : list WalRecord) : bytes := rs ≫= encode_frame.

Lemma encode_frames_app rs1 rs2 :
  encode_frames (rs1 ++ rs2) = encode_frames rs1 ++ encode_frames rs2.
Proof. unfold encode_frames. by rewrite bind_app. Qed.

Lemma encode_frames_cons r rs : encode_frames (r :: rs) = encode_frame r ++ encode_frames rs.
Proof. done. Qed.

Lemma encode_frames_1 r : encode_frames [r] = encode_frame r.
Proof. change (encode_frame r ++ [] = encode_frame r). apply app_nil_r. Qed.

(** The loop from a position: what it has read stays in front, and it stops at
    the first tail that is not a frame. *)
Lemma parse_frames_loop_run fuel pre rs tail acc :
  Forall wf_record rs → parse_frame tail = Err tt →
  (length rs < fuel)%nat →
  parse_frames_loop fuel (pre ++ encode_frames rs ++ tail) (len pre) acc
  = Ok (acc ++ rs, len pre + len (encode_frames rs)).
Proof.
  intros Hwf Ht. revert fuel pre acc. induction Hwf as [|r rs Hr Hwf IH]; intros fuel pre acc Hf.
  - destruct fuel as [|fuel]; [lia|]. simpl. unfold_monad.
    rewrite slice_from_app, Ht by done. by rewrite app_nil_r, Z.add_0_r.
  - destruct fuel as [|fuel]; [simpl in Hf; lia|]. cbn [parse_frames_loop]. unfold_monad.
    rewrite encode_frames_cons, <-(app_assoc (encode_frame r)), slice_from_app by done.
    rewrite parse_frame_encode by done. rewrite (app_assoc pre), <-len_app, IH by (simpl in Hf; lia).
    rewrite !len_app, <-(app_assoc acc). simpl app. by rewrite Z.add_assoc.
Qed.

Lemma length_encode_frames rs : (length rs ≤ length (encode_frames rs))%nat.
Proof.
  induction rs as [|r rs IH]; [done|]. rewrite encode_frames_cons, length_app. simpl.
  pose proof (encode_frame_pos r). unfold len in *. lia.
Qed.

Lemma parse_frames_run rs tail :
  Forall wf_record rs → parse_frame tail = Err tt →
  parse_frames (encode_frames rs ++ tail) = Ok (rs, len (encode_frames rs)).
Proof.
  intros Hwf Ht. unfold parse_frames.
  apply (parse_frames_loop_run _ [] rs tail []); [done..|].
  pose proof (length_encode_frames rs). rewrite length_app. lia.
Qed.

(** Every buffer splits into whole frames and a tail that is not one. *)
Lemma frames_decompose body :
  ∃ rs tail, body = encode_frames rs ++ tail ∧ Forall wf_record rs ∧ parse_frame tail = Err tt.
Proof.
  induction body as [body IH] using (induction_ltof1 _ length). unfold ltof in IH.
  destruct (parse_frame body) as [[r n]|[]|] eqn:Hp; [|by exists [], body|by apply parse_frame_no_panic in Hp].
  apply parse_frame_Ok in Hp as (Hwf & -> & rest & ->).
  destruct (IH rest) as (rs & tail & -> & Hrs & Ht).
  { rewrite length_app. pose proof (encode_frame_pos r). unfold len in *. lia. }
  exists (r :: rs), tail. rewrite encode_frames_cons, <-app_assoc. eauto.
Qed.

Lemma parse_frames_spec body rs n :
  parse_frames body = Ok (rs, n) ↔
  ∃ tail, body = encode_frames rs ++ tail ∧ n = len (encode_frames rs) ∧
          Forall wf_record rs ∧ parse_frame tail = Err tt.
Proof.
  split.
  - intros Hp. destruct (frames_decompose body) as (rs' & tail & -> & Hwf & Ht).
    rewrite parse_frames_run in Hp by done. simplify_eq. by exists tail.
  - intros (tail & -> & -> & Hwf & Ht). by apply parse_frames_run.
Qed.

(** ** The header *)

Lemma len_encode_header b : len (encode_header b) = HEADER_LEN.
Proof. unfold encode_header, HEADER_LEN. autorewrite with len. done. Qed.

Lemma parse_header_encode b rest :
  u64_ok b → parse_header (encode_header b ++ rest) = Ok b.
Proof.
  intros Hb. unfold parse_header. unfold_monad.
  destruct (Z.ltb_spec (len (encode_header b ++ rest)) HEADER_LEN) as [Hl|_].
  { rewrite len_app, len_encode_header in Hl. pose proof (len_nonneg rest). lia. }
  unfold encode_header. rewrite <-!app_assoc.
  rewrite (slice_to MAGIC), bool_decide_true by done. simpl negb.
  rewrite (slice_app MAGIC (to_le_bytes 2 _)) by done.
  rewrite from_to_le_bytes_id by done. simpl negb.
  rewrite (slice_eq (MAGIC ++ to_le_bytes 2 FORMAT_VERSION) (to_le_bytes 8 b) rest)
    by (done || by rewrite <-app_assoc).
  by rewrite from_to_le_bytes_id.
Qed.

Lemma parse_header_Ok buf b :
  parse_header buf = Ok b → u64_ok b ∧ ∃ rest, buf = encode_header b ++ rest.
Proof.
  unfold parse_header. unfold_monad. intros H.
  destruct (Z.ltb_spec (len buf) HEADER_LEN) as [|Hl]; [done|]. unfold HEADER_LEN in Hl.
  destruct (len_split 4 buf) as (m & r0 & -> & Hm); [lia|].
  destruct (len_split 2 r0) as (v & r1 & -> & Hv); [len_lia|].
  destruct (len_split 8 r1) as (bb & rest & -> & Hbb); [len_lia|].
  rewrite (slice_to m) in H by (done || len_lia).
  case_bool_decide as Hmag; [|done]. simpl negb in H.
  rewrite (slice_app m v) in H by (done || len_lia).
  destruct (Z.eqb_spec (from_le_bytes v) FORMAT_VERSION) as [Hver|]; [|done]. simpl negb in H.
  rewrite (slice_eq (m ++ v) bb rest) in H by (len_lia || by rewrite <-app_assoc).
  simplify_eq. split; [by apply from_le_bytes_8|]. exists rest.
  unfold encode_header. rewrite <-Hver, <-!app_assoc. f_equal.
  rewrite !to_from_le_bytes_len by done. done.
Qed.

Lemma parse_header_total buf :
  (∃ b, parse_header buf = Ok b) ∨ (∃ what, parse_header buf = Err (Corrupt what)).
Proof.
  unfold parse_header. unfold_monad.
  destruct (Z.ltb_spec (len buf) HEADER_LEN) as [|Hl]; [eauto|]. unfold HEADER_LEN in Hl.
  rewrite !slice_in_range by lia. repeat case_match; eauto.
Qed.

(** ** The abstract log *)

(** A log is a list of changes and the sequence its first one carries. *)
Record Log := mkLog {
  base : Z;
  changes : list (WalOp * bytes * bytes);
}.

(** Sequences count up from the base and stop at the largest [u64]. *)
Definition log_seq (l : Log) (i : nat) : Z := Z.min (base l + Z.of_nat i) U64_MAX.

Definition log_next (l : Log) : Z := log_seq l (length (changes l)).

Definition log_records (l : Log) : list WalRecord :=
  imap (λ i '(o, k, v), mkRecord (log_seq l i) o k v) (changes l).

Definition log_append (l : Log) (o : WalOp) (k v : bytes) : Log :=
  mkLog (base l) (changes l ++ [(o, k, v)]).

Definition log_rotate (l : Log) : Log := mkLog (log_next l) [].

Definition wf_log (l : Log) : Prop :=
  u64_ok (base l) ∧
  Forall (λ '(o, k, v), len k < 2 ^ 32 ∧ len v < 2 ^ 32) (changes l).

Lemma log_records_append l o k v :
  log_records (log_append l o k v) = log_records l ++ [mkRecord (log_next l) o k v].
Proof. unfold log_records. simpl. rewrite imap_app. simpl. by rewrite Nat.add_0_r. Qed.

Lemma length_log_records l : length (log_records l) = length (changes l).
Proof. apply length_imap. Qed.

Lemma log_seq_ok l i : u64_ok (base l) → u64_ok (log_seq l i).
Proof. unfold u64_ok, log_seq, U64_MAX. lia. Qed.

Lemma log_next_append l o k v :
  u64_ok (base l) → sat_add64 (log_next l) 1 = log_next (log_append l o k v).
Proof.
  unfold log_next, log_seq, sat_add64, u64_ok, U64_MAX. simpl. rewrite length_app. simpl. lia.
Qed.

Lemma wf_log_records l : wf_log l → Forall wf_record (log_records l).
Proof.
  intros [Hb Hc]. apply Forall_lookup_2. intros i r Hi.
  unfold log_records in Hi. rewrite list_lookup_imap in Hi.
  destruct (changes l !! i) as [[[o k] v]|] eqn:E; simplify_eq/=.
  pose proof (Forall_lookup_1 _ _ _ _ Hc E) as [??].
  split_and!; [by apply log_seq_ok|done|done].
Qed.

Lemma wf_log_append l o k v :
  wf_log l → len k < 2 ^ 32 → len v < 2 ^ 32 → wf_log (log_append l o k v).
Proof. intros [? ?] ??. split; [done|]. apply Forall_app. auto. Qed.

Lemma wf_log_rotate l : wf_log l → wf_log (log_rotate l).
Proof. intros [? ?]. split; [|by constructor]. by apply log_seq_ok. Qed.

Lemma log_next_last l :
  u64_ok (base l) →
  Z.max (default (base l) ((λ r, sat_add64 (seq r) 1) <$> last (log_records l))) (base l)
  = log_next l.
Proof.
  intros Hb. destruct l as [b cs]. destruct cs as [|[[o k] v] cs _] using rev_ind.
  { unfold log_next, log_seq, U64_MAX, u64_ok in *. simpl in *. lia. }
  change (mkLog b (cs ++ [(o, k, v)])) with (log_append (mkLog b cs) o k v).
  rewrite log_records_append, last_snoc. simpl.
  rewrite (log_next_append _ o k v) by done.
  unfold log_next, log_seq, u64_ok, U64_MAX in *. simpl in *. lia.
Qed.

(** The bytes of a segment that holds a log. *)
Definition segment (l : Log) : bytes := encode_header (base l) ++ encode_frames (log_records l).

Lemma segment_append l o k v :
  segment (log_append l o k v) = segment l ++ encode_frame (mkRecord (log_next l) o k v).
Proof.
  unfold segment. rewrite log_records_append, encode_frames_app, encode_frames_1.
  by rewrite <-app_assoc.
Qed.

(** A log object represents a log: its file is the log's segment, nothing waits
    in the buffer, and its counters agree with both. *)
Record wal_rep (w : Wal) (l : Log) : Prop := {
  rep_wf : wf_log l;
  rep_file : contents (wal_file w) = segment l;
  rep_buf : wal_buf w = [];
  rep_next : wal_next_seq w = log_next l;
  rep_size : u64_ok (len (segment l)) → wal_segment_bytes w = len (segment l);
}.

(** ** What each operation does *)

(** An append either puts its whole frame at the end of the file and moves the
    counters, or fails, having put a proper prefix of the frame there. *)
Lemma append_outcome o k v w :
  wal_buf w = [] →
  let r := mkRecord (wal_next_seq w) o k v in
  (append o k v w =
     (Ok (wal_next_seq w),
      mkWal (mkFile (contents (wal_file w) ++ encode_frame r) (tail (faults (wal_file w)))) []
        (sat_add64 (wal_next_seq w) 1)
        (sat_add64 (wal_segment_bytes w) (len (encode_frame r))))) ∨
  (∃ n fs buf, faults (wal_file w) = Fail n :: fs ∧ (n < length (encode_frame r))%nat ∧
     append o k v w =
       (Err (Io "write"),
        mkWal (mkFile (contents (wal_file w) ++ take n (encode_frame r)) fs) buf
          (wal_next_seq w) (wal_segment_bytes w))).
Proof.
  destruct w as [[c fs] buf sq sz].
  cbn [wal_buf wal_next_seq wal_file wal_segment_bytes contents faults]. intros ->.
  pose proof (encode_frame_pos (mkRecord sq o k v)) as Hpos.
  unfold append, buf_write_all, buf_flush, on_file, file_write_all, device_write.
  unfold_monad. cbn [wal_buf wal_next_seq wal_file wal_segment_bytes contents faults].
  set (fr := encode_frame (mkRecord sq o k v)) in *. clearbody fr.
  assert (fr ≠ []) by (by intros ->).
  rewrite len_nil, Z.sub_0_r.
  destruct (Z.ltb_spec (len fr) BUF_CAPACITY); cbn [wal_buf wal_file contents faults app].
  - rewrite bool_decide_false by done.
    destruct fs as [|[|n] fs]; [by left..|]. case_bool_decide; [|by left].
    right. by exists n, fs, (drop n fr).
  - destruct (Z.leb_spec BUF_CAPACITY (len fr)); [|lia].
    destruct (BUF_CAPACITY <? len fr); destruct fs as [|[|n] fs]; try (by left).
    all: cbn; case_bool_decide; [|by left].
    all: right; by exists n, fs, [].
Qed.

(** Without faults, what is buffered and what is written reach the file in order. *)
Lemma buf_flush_no_fault c buf sq sz :
  buf_flush (mkWal (mkFile c []) buf sq sz) = (Ok tt, mkWal (mkFile (c ++ buf) []) [] sq sz).
Proof. unfold buf_flush. simpl. case_bool_decide; simplify_eq/=; by rewrite ?app_nil_r. Qed.

Lemma buf_write_all_no_fault d c buf sq sz :
  ∃ c' buf', buf_write_all d (mkWal (mkFile c []) buf sq sz)
             = (Ok tt, mkWal (mkFile c' []) buf' sq sz) ∧ c' ++ buf' = c ++ buf ++ d.
Proof.
  pose proof (len_nonneg buf). unfold buf_write_all. cbn [wal_buf].
  destruct (Z.ltb_spec (len d) (BUF_CAPACITY - len buf)) as [|Hd].
  { eexists _, _. split; [reflexivity|]. done. }
  destruct (Z.ltb_spec (BUF_CAPACITY - len buf) (len d)) as [|Hd'];
    destruct (Z.leb_spec BUF_CAPACITY (len d)); unfold_monad; rewrite ?buf_flush_no_fault.
  - eexists _, []. split; [reflexivity|]. simpl. by rewrite app_nil_r, <-app_assoc.
  - eexists _, _. split; [reflexivity|]. simpl. by rewrite <-app_assoc.
  - assert (buf = []) as -> by (apply len_zero_inv; lia).
    eexists _, []. split; [reflexivity|]. simpl. by rewrite app_nil_r.
  - eexists _, _. split; [reflexivity|]. done.
Qed.

Lemma append_buffered o k v c buf sq sz :
  ∃ w', append o k v (mkWal (mkFile c []) buf sq sz) = (Ok sq, w') ∧
        wal_file w' = mkFile (c ++ buf ++ encode_frame (mkRecord sq o k v)) [].
Proof.
  destruct (buf_write_all_no_fault (encode_frame (mkRecord sq o k v)) c buf sq sz)
    as (c' & buf' & E & Hc).
  unfold append. unfold_monad. cbn [wal_next_seq]. rewrite E, buf_flush_no_fault, Hc. eauto.
Qed.

Lemma append_rep o k v w l :
  wal_rep w l → len k < 2 ^ 32 → len v < 2 ^ 32 →
  ∀ sq w', append o k v w = (Ok sq, w') →
  sq = log_next l ∧ wal_rep w' (log_append l o k v).
Proof.
  intros [Hwf Hf Hb Hn Hs] Hk Hv sq w' Ha.
  destruct (append_outcome o k v w Hb) as [He|(?&?&?&_&_&He)]; [|congruence].
  rewrite He in Ha. injection Ha as <- <-. rewrite Hn in *.
  split; [done|]. split; simpl.
  - by apply wf_log_append.
  - by rewrite Hf, segment_append.
  - done.
  - apply log_next_append, Hwf.
  - rewrite segment_append, len_app. intros Hu.
    pose proof (len_nonneg (segment l)). pose proof (len_nonneg (encode_frame (mkRecord (log_next l) o k v))).
    unfold u64_ok, sat_add64, U64_MAX in *. rewrite Hs; lia.
Qed.

(** Opening a file that holds a header, whole frames and a tail that is not one:
    the tail goes. *)
Lemma open_frames b rs tail :
  u64_ok b → Forall wf_record rs → parse_frame tail = Err tt →
  let good := encode_header b ++ encode_frames rs in
  let next := Z.max (default b ((λ r, sat_add64 (seq r) 1) <$> last rs)) b in
  open (mkFile (good ++ tail) []) =
    (Ok (mkWal (mkFile good []) [] next (len good),
         {| records := rs; truncated_bytes := len tail;
            rec_next_seq := next; rec_segment_bytes := len good |}),
     mkFile good []).
Proof.
  intros Hb Hwf Ht good next. pose proof (len_nonneg tail).
  assert (len good = HEADER_LEN + len (encode_frames rs)) as Hlen.
  { unfold good. by rewrite len_app, len_encode_header. }
  pose proof (len_nonneg (encode_frames rs)).
  unfold open, set_len, syscall. unfold_monad. cbn [contents faults].
  destruct (Z.eqb_spec (len (good ++ tail)) 0); [rewrite len_app in *; unfold HEADER_LEN in *; lia|].
  cbn [contents faults].
  assert (parse_header (good ++ tail) = Ok b) as ->.
  { unfold good. rewrite <-(app_assoc (encode_header b)). by apply parse_header_encode. }
  assert (slice_from (E:=Error) (good ++ tail) HEADER_LEN = Ok (encode_frames rs ++ tail)) as ->.
  { unfold good. rewrite <-(app_assoc (encode_header b)). apply slice_from_app.
    by rewrite len_encode_header. }
  rewrite parse_frames_run by done. fold next. rewrite <-Hlen.
  replace (len (good ++ tail) - len good) with (len tail) by (rewrite len_app; lia).
  destruct (Z.ltb_spec 0 (len tail)) as [|Htl]; cbn [contents faults].
  - assert (take (Z.to_nat (len good)) (good ++ tail) = good) as ->; [|done].
    unfold len. by rewrite Nat2Z.id, take_app_length.
  - assert (tail = []) as -> by (apply len_zero_inv; lia). by rewrite app_nil_r.
Qed.

Lemma open_segment c tail fs l :
  wf_log l → c = segment l ++ tail → parse_frame tail = Err tt → fs = [] →
  open (mkFile c fs) =
    (Ok (mkWal (mkFile (segment l) []) [] (log_next l) (len (segment l)),
         {| records := log_records l; truncated_bytes := len tail;
            rec_next_seq := log_next l; rec_segment_bytes := len (segment l) |}),
     mkFile (segment l) []).
Proof.
  intros Hwf -> Ht ->. unfold segment.
  rewrite open_frames by (done || apply Hwf || by apply wf_log_records).
  by rewrite log_next_last by apply Hwf.
Qed.

(** A segment determines its records. *)
Lemma segment_inj l1 l2 :
  wf_log l1 → wf_log l2 → segment l1 = segment l2 → log_records l1 = log_records l2.
Proof.
  intros H1 H2 Heq.
  pose proof (open_segment (segment l1) [] [] l1 H1) as E1.
  pose proof (open_segment (segment l1) [] [] l2 H2) as E2.
  rewrite E1 in E2; [|by rewrite ?app_nil_r..]. rewrite app_nil_r in E2.
  specialize (E2 Heq eq_refl eq_refl). by injection E2.
Qed.

(** Every file is empty, has that shape, or is refused. *)
Lemma open_cases c :
  c = [] ∨
  (∃ b rs tail, c = (encode_header b ++ encode_frames rs) ++ tail ∧
    u64_ok b ∧ Forall wf_record rs ∧ parse_frame tail = Err tt) ∨
  (∃ what, (open (mkFile c [])).1 = Err (Corrupt what)).
Proof.
  destruct (Z.eqb_spec (len c) 0) as [Hc|Hc]; [left; by apply len_zero_inv|right].
  destruct (parse_header_total c) as [[b Hh]|[what Hh]].
  - left. apply parse_header_Ok in Hh as [Hb [body ->]].
    destruct (frames_decompose body) as (rs & tail & -> & Hwf & Ht).
    exists b, rs, tail. by rewrite <-(app_assoc (encode_header b)).
  - right. exists what. unfold open, syscall. unfold_monad. cbn [contents faults].
    rewrite (proj2 (Z.eqb_neq _ _) Hc). cbn [contents faults]. by rewrite Hh.
Qed.

Lemma rotate_rep w l :
  wal_rep w l → faults (wal_file w) = [] →
  ∃ w', rotate w = (Ok tt, w') ∧ wal_rep w' (log_rotate l) ∧ faults (wal_file w') = [].
Proof.
  intros [Hwf Hf Hb Hn Hs] Hfs. destruct w as [[c fs] buf sq sz]. simpl in *. subst.
  eexists. split; [reflexivity|]. cbn [wal_file contents faults]. split; [|done].
  assert (segment (log_rotate l) = encode_header (log_next l)) as Hseg.
  { apply (app_nil_r (encode_header (log_next l))). }
  split; cbn [wal_buf wal_next_seq wal_file wal_segment_bytes contents]; rewrite ?Hseg.
  - by apply wf_log_rotate.
  - done.
  - done.
  - unfold log_next at 2, log_seq. simpl.
    pose proof (log_seq_ok l (length (changes l)) (proj1 Hwf)).
    unfold log_next, u64_ok, U64_MAX in *. lia.
  - by rewrite len_encode_header.
Qed.

(** ** Runs of the log *)

(** What a node does with its log over its lifetime.  [Restart torn] is a crash
    and a restart: the process dies with [torn] behind the last whole frame, and
    the next process opens what is left. *)
Inductive event :=
| Append (o : WalOp) (k v : bytes)
| Rotate
| Sync
| Restart (torn : bytes).

Inductive answer :=
| Appended (sq : Z)
| Done
| Recovered (rs : list WalRecord) (dropped : Z).

Definition exec (e : event) : M Wal Error answer :=
  match e with
  | Append o k v => sq ← append o k v; mret (Appended sq)
  | Rotate => rotate;; mret Done
  | Sync => sync;; mret Done
  | Restart torn => λ w,
      match open (mkFile (contents (wal_file w) ++ torn) []) with
      | (Ok (w', r), _) => (Ok (Recovered (records r) (truncated_bytes r)), w')
      | (Err e, f) => (Err e, mkWal f [] 0 0)
      | (Panic, f) => (Panic, mkWal f [] 0 0)
      end
  end.

Fixpoint run (es : list event) : M Wal Error (list answer) :=
  match es with
  | [] => mret []
  | e :: es => a ← exec e; l ← run es; mret (a :: l)
  end.

(** The same on the abstract log. *)
Definition spec_exec (e : event) (l : Log) : answer * Log :=
  match e with
  | Append o k v => (Appended (log_next l), log_append l o k v)
  | Rotate => (Done, log_rotate l)
  | Sync => (Done, l)
  | Restart torn => (Recovered (log_records l) (len torn), l)
  end.

Fixpoint spec_run (es : list event) (l : Log) : list answer * Log :=
  match es with
  | [] => ([], l)
  | e :: es =>
      let '(a, l) := spec_exec e l in
      let '(rest, l) := spec_run es l in
      (a :: rest, l)
  end.

(** Keys and values fit their length fields; torn bytes are not a whole frame. *)
Definition event_ok (e : event) : Prop :=
  match e with
  | Append _ k v => len k < 2 ^ 32 ∧ len v < 2 ^ 32
  | Restart torn => parse_frame torn = Err tt
  | _ => True
  end.

Definition empty_log : Log := mkLog 0 [].

Lemma wf_empty_log : wf_log empty_log.
Proof. by split. Qed.

Lemma open_fresh :
  ∃ w r, open (mkFile [] []) = (Ok (w, r), mkFile (segment empty_log) []) ∧
    wal_rep w empty_log ∧ faults (wal_file w) = [] ∧ records r = [].
Proof.
  eexists _, _. split; [|split_and!].
  - unfold open, file_write_all, device_write, syscall. unfold_monad.
    unfold segment. simpl log_records. change (encode_frames []) with (@nil byte).
    rewrite app_nil_r. reflexivity.
  - split; cbn [wal_buf wal_next_seq wal_file wal_segment_bytes contents rec_next_seq rec_segment_bytes]; done.
  - done.
  - done.
Qed.

Lemma exec_rep e w l :
  wal_rep w l → faults (wal_file w) = [] → event_ok e →
  ∃ w', exec e w = (Ok (spec_exec e l).1, w') ∧ wal_rep w' (spec_exec e l).2 ∧
        faults (wal_file w') = [].
Proof.
  intros Hr Hf He. destruct e as [o k v| | |torn]; simpl in He |- *.
  - destruct He as [Hk Hv]. pose proof (append_rep o k v w l Hr Hk Hv) as Ha.
    destruct (append_outcome o k v w (rep_buf _ _ Hr)) as [E|(?&?&?&E&_)]; [|congruence].
    apply Ha in E as Hw. destruct Hw as [Hsq Hw]. unfold_monad. rewrite E.
    rewrite Hsq in *. eexists. split_and!; [done|done|]. simpl. by rewrite Hf.
  - destruct (rotate_rep w l Hr Hf) as (w' & E & Hw & Hf'). unfold_monad. rewrite E. eauto.
  - destruct w as [[c fs] buf sq sz]. pose proof (rep_buf _ _ Hr) as Hb. simpl in *. subst.
    eexists. split_and!; [reflexivity| |done].
    destruct Hr as [H1 H2 H3 H4 H5]. by split.
  - rewrite (open_segment _ torn [] l) by (done || by rewrite <-(rep_file _ _ Hr) || apply Hr).
    eexists. split_and!; [done| |done].
    by split; [apply Hr|..].
Qed.

Lemma run_rep es w l :
  wal_rep w l → faults (wal_file w) = [] → Forall event_ok es →
  ∃ w', run es w = (Ok (spec_run es l).1, w') ∧ wal_rep w' (spec_run es l).2.
Proof.
  intros Hr Hf Hes. revert w l Hr Hf. induction Hes as [|e es He Hes IH]; intros w l Hr Hf.
  { eexists. split; [reflexivity|done]. }
  destruct (exec_rep e w l Hr Hf He) as (w1 & E1 & Hr1 & Hf1). simpl.
  destruct (spec_exec e l) as [a l1]. simpl in *.
  destruct (IH w1 l1 Hr1 Hf1) as (w2 & E2 & Hr2).
  destruct (spec_run es l1) as [rest l2]. simpl in *.
  exists w2. split; [|done]. unfold_monad. by rewrite E1, E2.
Qed.

(** The appends of a run, and the sequences they were given. *)
Definition appended (a : answer) : option Z :=
  match a with
  | Appended sq => Some sq
  | _ => None
  end.

Lemma log_next_rotate l : u64_ok (base l) → log_next (log_rotate l) = log_next l.
Proof.
  intros Hb. pose proof (log_seq_ok l (length (changes l)) Hb).
  unfold log_next at 1, log_seq. simpl. unfold log_next, u64_ok, U64_MAX in *. lia.
Qed.

Lemma spec_run_seqs es l i sq :
  u64_ok (base l) → omap appended (spec_run es l).1 !! i = Some sq →
  sq = Z.min (log_next l + Z.of_nat i) U64_MAX.
Proof.
  revert l i. induction es as [|e es IH]; intros l i Hb Hi; [done|]. simpl in Hi.
  assert (log_next l ≤ U64_MAX) as Hmax by (unfold log_next, log_seq; lia).
  destruct e as [o k v| | |torn]; simpl in Hi.
  - specialize (IH (log_append l o k v)).
    destruct (spec_run es (log_append l o k v)) as [rest l2]. simpl in *.
    destruct i as [|i]; simpl in Hi; [injection Hi as <-; lia|].
    apply IH in Hi; [|done]. rewrite <-log_next_append in Hi by done.
    unfold sat_add64, U64_MAX in *. lia.
  - specialize (IH (log_rotate l)).
    destruct (spec_run es (log_rotate l)) as [rest l2]. simpl in *.
    apply IH in Hi; [|by apply log_seq_ok]. by rewrite log_next_rotate in Hi.
  - specialize (IH l). destruct (spec_run es l). by apply IH in Hi.
  - specialize (IH l). destruct (spec_run es l). by apply IH in Hi.
Qed.

(** A cut of a run of frames holds the frames that fit and a torn one. *)
Lemma encode_frames_cut rs p :
  Forall wf_record rs → p `prefix_of` encode_frames rs →
  ∃ n tail, p = encode_frames (take n rs) ++ tail ∧ parse_frame tail = Err tt ∧
    (n ≤ length rs)%nat ∧ (∀ r, rs !! n = Some r → len tail < len (encode_frame r)).
Proof.
  intros Hwf. revert p. induction Hwf as [|r rs Hr Hwf IH]; intros p Hp.
  { apply prefix_nil_inv in Hp as ->. by exists 0%nat, []. }
  destruct Hp as [s Hs]. rewrite encode_frames_cons in Hs.
  destruct (Z.le_gt_cases (len (encode_frame r)) (len p)) as [Hle|Hlt].
  - destruct (len_split (len (encode_frame r)) p) as (a & b & -> & Ha); [pose proof (encode_frame_pos r); lia|].
    rewrite <-(app_assoc a) in Hs. apply app_inj_1 in Hs as [<- Hs]; [|unfold len in *; lia].
    destruct (IH b) as (n & tail & -> & Ht & Hn & Hlast); [by exists s|].
    exists (S n), tail. rewrite firstn_cons, encode_frames_cons, <-(app_assoc (encode_frame r)).
    split_and!; [done|done|simpl; lia|done].
  - exists 0%nat, p. split_and!; [done| |lia|by intros ? [= <-]].
    destruct (len_split (len p) (encode_frame r)) as (a & b & He & Ha); [len_lia|].
    rewrite He, <-(app_assoc a) in Hs. apply app_inj_1 in Hs as [-> Hs]; [|unfold len in *; lia].
    apply (parse_frame_torn r p b); [done..|]. intros ->.
    rewrite He, app_nil_r in Hlt. lia.
Qed.

Lemma log_records_take l n :
  log_records (mkLog (base l) (take n (changes l))) = take n (log_records l).
Proof.
  unfold log_records. apply list_eq. intros i. simpl.
  rewrite list_lookup_imap. destruct (Nat.lt_ge_cases i n).
  - rewrite !lookup_take_lt, list_lookup_imap by done. done.
  - by rewrite !lookup_take_ge by done.
Qed.

Lemma wf_log_take l n : wf_log l → wf_log (mkLog (base l) (take n (changes l))).
Proof. intros [??]. split; [done|]. by apply Forall_take. Qed.

Lemma append_failed_torn l o k v n :
  wf_log l → len k < 2 ^ 32 → len v < 2 ^ 32 →
  (n < length (encode_frame (mkRecord (log_next l) o k v)))%nat →
  parse_frame (take n (encode_frame (mkRecord (log_next l) o k v))) = Err tt.
Proof.
  intros [Hb _] Hk Hv Hn. set (r := mkRecord _ _ _ _) in *.
  apply (parse_frame_torn r _ (drop n (encode_frame r))).
  - split_and!; [by apply log_seq_ok|done|done].
  - by rewrite take_drop.
  - intros Hd. apply (f_equal length) in Hd. rewrite length_drop in Hd.
    change (length []) with 0%nat in Hd. lia.
Qed.

(** ** Properties *)

(** C16: the recovery parser accepts exactly what [append] writes.  On any bytes
    [parse_frames] returns (it neither panics nor runs forever), and what it
    returns is characterised: the records it reads are well-formed, their
    encodings are the front of the buffer byte for byte, the consumed length is
    the length of those encodings, and what follows does not parse as a frame. *)
Theorem parse_frames_canonical body :
  (∃ rs n, parse_frames body = Ok (rs, n)) ∧
  (∀ rs n, parse_frames body = Ok (rs, n) ↔
    ∃ tail, body = encode_frames rs ++ tail ∧ n = len (encode_frames rs) ∧
            Forall wf_record rs ∧ parse_frame tail = Err tt).
Proof.
  split; [|intros; apply parse_frames_spec].
  destruct (frames_decompose body) as (rs & tail & -> & Hwf & Ht).
  eexists _, _. by apply parse_frames_run.
Qed.

(** [parse_header] reads back the base sequence [encode_header] wrote, accepts
    nothing else, and reports everything else as [Corrupt]: a file that is not a
    segment of this format is an error, never an empty log. *)
Theorem wal_header_strict buf :
  (∀ b, parse_header buf = Ok b ↔ u64_ok b ∧ ∃ rest, buf = encode_header b ++ rest) ∧
  ((∃ b, parse_header buf = Ok b) ∨ (∃ what, parse_header buf = Err (Corrupt what))).
Proof.
  split.
  - intros b. split; [apply parse_header_Ok|]. intros [Hb [rest ->]]. by apply parse_header_encode.
  - apply parse_header_total.
Qed.

(** C11: the log refines a list of changes.  From a segment that does not exist
    yet, any sequence of appends, syncs, rotations and restarts (each restart
    finding arbitrary torn bytes behind the last whole frame) succeeds, answers
    what the list answers (the sequence of each append, the records of each
    recovery), and ends in a segment that holds the list's changes and no other. *)
Theorem wal_refines_log es (Hes : Forall event_ok es) :
  ∃ w r f w', open (mkFile [] []) = (Ok (w, r), f) ∧
    run es w = (Ok (spec_run es empty_log).1, w') ∧
    contents (wal_file w') = segment (spec_run es empty_log).2 ∧
    (u64_ok (len (contents (wal_file w'))) → segment_bytes w' = len (contents (wal_file w'))) ∧
    next_seq w' = log_next (spec_run es empty_log).2.
Proof.
  destruct open_fresh as (w & r & E & Hw & Hf & _).
  destruct (run_rep es w empty_log Hw Hf Hes) as (w' & Er & Hw').
  exists w, r, (mkFile (segment empty_log) []), w'. split_and!; [done|done|apply Hw'| |apply Hw'].
  rewrite (rep_file _ _ Hw'). apply Hw'.
Qed.

(** sequence numbers are handed out in order and never reused, across
    rotations and restarts alike: whatever else happens in between, the [i]-th
    append of the log's life gets sequence [i] (until the counter saturates). *)
Theorem wal_sequences_never_reused es w r f (Hes : Forall event_ok es)
    (Hopen : open (mkFile [] []) = (Ok (w, r), f)) :
  ∃ answers w', run es w = (Ok answers, w') ∧
    ∀ i sq, omap appended answers !! i = Some sq → sq = Z.min (Z.of_nat i) U64_MAX.
Proof.
  destruct open_fresh as (w0 & r0 & E & Hw & Hf & _). rewrite E in Hopen.
  injection Hopen as <- <- <-.
  destruct (run_rep es w0 empty_log Hw Hf Hes) as (w' & Er & Hw').
  eexists _, w'. split; [done|]. intros i sq Hi.
  by apply (spec_run_seqs _ empty_log) in Hi.
Qed.

(** an append is atomic with respect to a crash.  Whatever the device does
    during it (including a write that moves part of the frame and fails), opening
    the file afterwards recovers the log with the record exactly when the append
    reported success, and the log without it when it reported an error. *)
Theorem append_crash_atomic o k v w l w' res (Hrep : wal_rep w l)
    (Hk : len k < 2 ^ 32) (Hv : len v < 2 ^ 32) (Hrun : append o k v w = (res, w')) :
  let l' := if is_ok res then log_append l o k v else l in
  ∃ w'' r f, open (mkFile (contents (wal_file w')) []) = (Ok (w'', r), f) ∧
    records r = log_records l' ∧ wal_rep w'' l'.
Proof.
  destruct (append_outcome o k v w (rep_buf _ _ Hrep)) as [E|(n&fs&buf&_&Hn&E)];
    rewrite E in Hrun; injection Hrun as <- <-; cbn [is_ok wal_file contents].
  all: destruct Hrep as [Hwf Hfile _ Hnext _]; rewrite Hfile, Hnext in *.
  - eexists _, _, _. split_and!.
    + apply (open_segment _ [] _ (log_append l o k v)); [by apply wf_log_append| |done..].
      by rewrite segment_append, app_nil_r.
    + done.
    + by split; [apply wf_log_append|..].
  - eexists _, _, _. split_and!.
    + apply open_segment; [done..| |done]. by apply append_failed_torn.
    + done.
    + by split.
Qed.

(** A file of some bytes that are no header is refused and left alone. *)
Lemma open_torn_header c :
  0 < len c < HEADER_LEN → open (mkFile c []) = (Err (Corrupt "wal header is truncated"), mkFile c []).
Proof.
  intros Hc. unfold open, syscall, parse_header. unfold_monad. cbn [contents faults].
  rewrite (proj2 (Z.eqb_neq (len c) 0)) by lia. cbn [contents faults].
  by rewrite (proj2 (Z.ltb_lt (len c) HEADER_LEN)) by lia.
Qed.

(** A segment cut after its header loses only its last records. *)
Lemma cut_after_header l p :
  wf_log l → p `prefix_of` segment l → HEADER_LEN ≤ len p →
  ∃ n w r, let l' := mkLog (base l) (take n (changes l)) in
    open (mkFile p []) = (Ok (w, r), mkFile (segment l') []) ∧
    records r = take n (log_records l) ∧ wal_rep w l' ∧ segment l' `prefix_of` p ∧
    (∀ m, (n < m ≤ length (changes l))%nat →
          len p < len (segment (mkLog (base l) (take m (changes l))))).
Proof.
  intros Hwf [s Hs] Hlen. destruct (len_split HEADER_LEN p) as (h & b & -> & Hh);
    [unfold HEADER_LEN in *; lia|].
  unfold segment in Hs. rewrite <-(app_assoc h) in Hs.
  apply app_inj_1 in Hs as [<- Hs];
    [|pose proof (len_encode_header (base l)); unfold len in *; lia].
  destruct (encode_frames_cut (log_records l) b) as (n & tail & -> & Ht & Hn & Hmax);
    [by apply wf_log_records|by exists s|].
  assert (encode_header (base l) ++ encode_frames (take n (log_records l)) ++ tail
          = segment (mkLog (base l) (take n (changes l))) ++ tail) as Hseg.
  { unfold segment. by rewrite log_records_take, <-(app_assoc (encode_header _)). }
  exists n, (mkWal (mkFile (segment (mkLog (base l) (take n (changes l)))) []) []
    (log_next (mkLog (base l) (take n (changes l))))
    (len (segment (mkLog (base l) (take n (changes l)))))).
  eexists. rewrite Hseg. split_and!.
  - by apply open_segment; [apply wf_log_take|..].
  - by rewrite <-log_records_take.
  - by split; [apply wf_log_take|..].
  - by eexists.
  - intros m Hm. rewrite length_log_records in Hn.
    destruct (log_records l !! n) as [r|] eqn:Hr; cycle 1.
    { apply lookup_ge_None in Hr. rewrite length_log_records in Hr. lia. }
    specialize (Hmax r eq_refl).
    assert (len (encode_frames (take (S n) (log_records l))) ≤
            len (encode_frames (take m (log_records l)))) as Hmono.
    { replace m with (S n + (m - S n))%nat by lia. rewrite <-take_take_drop.
      rewrite encode_frames_app, len_app.
      pose proof (len_nonneg (encode_frames (take (m - S n) (drop (S n) (log_records l))))). lia. }
    rewrite (take_S_r _ _ r Hr), encode_frames_app, encode_frames_1, len_app in Hmono.
    unfold segment. rewrite !log_records_take, !len_app. simpl base. lia.
Qed.

(** C12: what is recovered from a segment that a crash has cut anywhere.  Of a cut after
    the header, the longest run of changes whose frames lie whole before it, and the file
    is trimmed to them: only the last records are lost.  A cut inside the header is
    refused as corrupt and the file is left alone; and a segment of which nothing is left
    opens as a new log, whose sequences start at 0. *)
Theorem crash_recovers_longest_prefix l p (Hwf : wf_log l) (Hp : p `prefix_of` segment l) :
  (HEADER_LEN ≤ len p →
   ∃ n w r, let l' := mkLog (base l) (take n (changes l)) in
     open (mkFile p []) = (Ok (w, r), mkFile (segment l') []) ∧
     records r = take n (log_records l) ∧ wal_rep w l' ∧ segment l' `prefix_of` p ∧
     (∀ m, (n < m ≤ length (changes l))%nat →
           len p < len (segment (mkLog (base l) (take m (changes l)))))) ∧
  (0 < len p < HEADER_LEN →
   open (mkFile p []) = (Err (Corrupt "wal header is truncated"), mkFile p [])) ∧
  (p = [] →
   ∃ w r, open (mkFile p []) = (Ok (w, r), mkFile (segment empty_log) []) ∧
     records r = [] ∧ wal_rep w empty_log).
Proof.
  split_and!; [by apply cut_after_header|apply open_torn_header|]. intros ->.
  destruct open_fresh as (w & r & E & Hw & _ & Hr). by exists w, r.
Qed.

(** opening is idempotent and total.  Without device errors any file either
    opens or is refused as [Corrupt]; and if it opens, opening what the first open
    left behind gives the same records, the same next sequence and the same size,
    and drops nothing more. *)
Theorem open_idempotent c :
  (∃ what, (open (mkFile c [])).1 = Err (Corrupt what)) ∨
  ∃ w r f, open (mkFile c []) = (Ok (w, r), f) ∧
  ∃ w' r', open f = (Ok (w', r'), f) ∧ records r' = records r ∧
    truncated_bytes r' = 0 ∧ rec_next_seq r' = rec_next_seq r ∧
    rec_segment_bytes r' = rec_segment_bytes r.
Proof.
  destruct (open_cases c) as [-> |[(b & rs & tail & -> & Hb & Hwf & Ht)|?]]; [| |by left]; right.
  - destruct open_fresh as (w & r & E & Hw & Hf & Hr). rewrite E.
    eexists _, _, _. split; [done|].
    rewrite (open_segment _ [] [] empty_log)
      by (done || apply wf_empty_log || by rewrite app_nil_r).
    vm_compute in E. injection E as <- <-. by eexists _, _.
  - rewrite open_frames by done. eexists _, _, _. split; [done|].
    pose proof (open_frames b rs [] Hb Hwf eq_refl) as E. cbv zeta in E. rewrite app_nil_r in E.
    rewrite E. by eexists _, _.
Qed.

(** C39: rotation is not crash-safe.  It truncates the segment before it writes the
    new header; if the header write fails after [n] of its bytes (or the process is
    killed there), what is left is those bytes and none of the records: when some
    arrived, the next open refuses the segment as corrupt; when none did, it is empty
    and opens as a new log whose sequences restart at 0, whatever sequence the log had
    reached. *)
Theorem rotate_header_failure_loses_segment w l n (Hrep : wal_rep w l)
    (Hn : Z.of_nat n < HEADER_LEN) (Hf : faults (wal_file w) = [Pass; Fail n]) :
  ∃ w' e, rotate w = (Err e, w') ∧
    contents (wal_file w') = take n (encode_header (log_next l)) ∧
    match n with
    | O => ∃ w'' r f, open (wal_file w') = (Ok (w'', r), f) ∧ next_seq w'' = 0 ∧ records r = []
    | S _ => (open (wal_file w')).1 = Err (Corrupt "wal header is truncated")
    end.
Proof.
  destruct Hrep as [_ _ Hb Hnext _]. destruct w as [[c fs] buf sq sz]. simpl in *. subst.
  pose proof (len_encode_header (log_next l)) as Hh.
  unfold rotate, buf_flush, on_file, open_truncate, file_write_all, device_write, syscall.
  unfold_monad. cbn [wal_buf wal_next_seq wal_file wal_segment_bytes contents faults].
  rewrite bool_decide_true by done.
  cbn [wal_buf wal_next_seq wal_file wal_segment_bytes contents faults].
  rewrite bool_decide_true by (unfold len in Hh; lia).
  eexists _, _. split; [reflexivity|]. cbn [wal_file contents app]. split; [done|].
  destruct n as [|n].
  - destruct open_fresh as (w & r & E & Hw & _ & Hr). simpl take. rewrite E.
    eexists _, _, _. split; [done|]. split; [|done]. apply Hw.
  - set (h := take (S n) (encode_header (log_next l))).
    assert (len h = Z.of_nat (S n)) as Hlh
      by (unfold h, len in *; rewrite length_take; lia).
    by rewrite open_torn_header by lia.
Qed.

(** C38: a failed append can come back.  When the device refuses part of a frame that is
    smaller than the 8 KiB write buffer, [append] reports the error, but the rest of the
    frame stays buffered: the next append that succeeds completes it, and a restart
    then recovers the change that was reported as failed, under the same sequence
    as the one that succeeded. *)
Theorem failed_append_resurfaces o1 k1 v1 o2 k2 v2 w l n (Hrep : wal_rep w l)
    (Hk1 : len k1 < 2 ^ 32) (Hv1 : len v1 < 2 ^ 32)
    (Hk2 : len k2 < 2 ^ 32) (Hv2 : len v2 < 2 ^ 32)
    (Hsmall : len (encode_frame (mkRecord (log_next l) o1 k1 v1)) < BUF_CAPACITY)
    (Hn : (n < length (encode_frame (mkRecord (log_next l) o1 k1 v1)))%nat)
    (Hf : faults (wal_file w) = [Fail n]) :
  ∃ e w1 w2 w3 r f, append o1 k1 v1 w = (Err e, w1) ∧
    append o2 k2 v2 w1 = (Ok (log_next l), w2) ∧
    open (wal_file w2) = (Ok (w3, r), f) ∧
    records r = log_records l ++
      [mkRecord (log_next l) o1 k1 v1; mkRecord (log_next l) o2 k2 v2].
Proof.
  destruct Hrep as [Hwf Hfile Hb Hnext _]. destruct w as [[c fs] buf sq sz]. simpl in *. subst.
  set (r1 := mkRecord (log_next l) o1 k1 v1) in *.
  set (r2 := mkRecord (log_next l) o2 k2 v2).
  assert (encode_frame r1 ≠ []) as Hne by apply encode_frame_not_nil.
  assert (∃ e, append o1 k1 v1 (mkWal (mkFile (segment l) [Fail n]) [] (log_next l) sz)
    = (Err e, mkWal (mkFile (segment l ++ take n (encode_frame r1)) [])
                (drop n (encode_frame r1)) (log_next l) sz)) as [e E1].
  { eexists. unfold append, buf_write_all, buf_flush, device_write. unfold_monad.
    cbn [wal_buf wal_next_seq wal_file wal_segment_bytes contents faults].
    fold r1. rewrite len_nil, Z.sub_0_r, (proj2 (Z.ltb_lt _ _) Hsmall).
    cbn [wal_buf wal_next_seq wal_file wal_segment_bytes contents faults app].
    by rewrite bool_decide_false, bool_decide_true. }
  destruct (append_buffered o2 k2 v2 (segment l ++ take n (encode_frame r1))
    (drop n (encode_frame r1)) (log_next l) sz) as [w2 [E2 Hw2]].
  fold r2 in Hw2. rewrite <-(app_assoc (segment l)), (app_assoc (take n _)), take_drop in Hw2.
  assert (wal_file w2 = mkFile ((encode_header (base l) ++
    encode_frames (log_records l ++ [r1; r2])) ++ []) []) as Hw2'.
  { rewrite Hw2, app_nil_r, encode_frames_app. unfold segment, encode_frames at 3.
    change ([r1; r2] ≫= encode_frame) with (encode_frame r1 ++ encode_frames [r2]).
    by rewrite encode_frames_1, <-(app_assoc (encode_header _)). }
  eexists e, _, w2, _, _, _. split_and!; [exact E1|exact E2| |].
  - rewrite Hw2'. apply open_frames; [apply Hwf| |done].
    apply Forall_app; split; [by apply wf_log_records|].
    pose proof (log_seq_ok l (length (changes l)) (proj1 Hwf)).
    repeat constructor; by try apply H.
  - done.
Qed.

End wal.

(** ** A concrete checksum

    CRC-32 (IEEE 802.3, reflected), the function [crc32fast] documents, for the
    witnesses below; the seeds of the [wal_frame] fuzz target pin it down. *)

Definition crc_bit (c : Z) : Z :=
  if Z.odd c then Z.lxor (Z.shiftr c 1) 0xEDB88320 else Z.shiftr c 1.

Definition crc32_ieee (b : bytes) : Z :=
  Z.lxor (fold_left (λ c x, Nat.iter 8 crc_bit (Z.lxor c (byte_Z x))) b 0xFFFFFFFF) 0xFFFFFFFF
  mod 2 ^ 32.

Lemma crc32_ieee_ok : Crc32Ok (H:=crc32_ieee).
Proof. intros b. apply Z.mod_pos_bound. done. Qed.

Definition seed_put_put_delete : bytes :=
  [x46; x4b; x56; x57; x01; x00; x00; x00; x00; x00; x00; x00; x00; x00]
  ++ [x00; x00; x00; x00; x00; x00; x00; x00; x01; x01; x00; x00; x00; x61;
      x01; x00; x00; x00; x31; xe4; x88; x52; x5b]
  ++ [x01; x00; x00; x00; x00; x00; x00; x00; x01; x01; x00; x00; x00; x62;
      x01; x00; x00; x00; x32; xa8; x2b; x2d; x93]
  ++ [x02; x00; x00; x00; x00; x00; x00; x00; x02; x01; x00; x00; x00; x61;
      x00; x00; x00; x00; x4d; x3e; x13; xd5].

Definition log_put_put_delete : Log :=
  mkLog 0 [(Put, lit "a", lit "1"); (Put, lit "b", lit "2"); (Delete, lit "a", [])].

(** The seed segment is the one this model writes for the same three changes. *)
Example seed_segment : segment (C:=crc32_ieee) log_put_put_delete = seed_put_put_delete.
Proof. vm_compute. reflexivity. Qed.

Lemma parse_frames_canonical_witness :
  parse_frames (C:=crc32_ieee) (drop 14 seed_put_put_delete ++ [x07])
  = Ok (log_records log_put_put_delete, 68).
Proof.
  apply (proj2 (parse_frames_canonical (C:=crc32_ieee) (Hcrc:=crc32_ieee_ok)
    (drop 14 seed_put_put_delete ++ [x07]))).
  exists [x07]. split_and!; [vm_compute; reflexivity..| |vm_compute; reflexivity].
  apply (bool_decide_eq_true_1 _). vm_compute. reflexivity.
Defined.

Definition sample_run : list event :=
  [Append Put (lit "a") (lit "1"); Append Put (lit "b") (lit "2"); Rotate;
   Append Delete (lit "a") []; Restart [x03; x00]; Sync; Append Put (lit "c") []].

Lemma sample_run_ok : Forall (event_ok (C:=crc32_ieee)) sample_run.
Proof. repeat constructor. Defined.

Lemma wal_refines_log_witness :
  ∃ w r f w', open (C:=crc32_ieee) (mkFile [] []) = (Ok (w, r), f) ∧
    run (C:=crc32_ieee) sample_run w =
      (Ok [Appended 0; Appended 1; Done; Appended 2;
           Recovered [mkRecord 2 Delete (lit "a") []] 2; Done; Appended 3], w') ∧
    next_seq w' = 4.
Proof.
  destruct (wal_refines_log (C:=crc32_ieee) (Hcrc:=crc32_ieee_ok) sample_run sample_run_ok)
    as (w & r & f & w' & H1 & H2 & _ & _ & H5).
  exists w, r, f, w'. split_and!; [exact H1|exact H2|exact H5].
Defined.

Lemma wal_sequences_never_reused_witness :
  ∃ answers w' w r f, open (C:=crc32_ieee) (mkFile [] []) = (Ok (w, r), f) ∧
    run (C:=crc32_ieee) sample_run w = (Ok answers, w') ∧
    ∀ i sq, omap appended answers !! i = Some sq → sq = Z.min (Z.of_nat i) U64_MAX.
Proof.
  destruct (wal_sequences_never_reused (C:=crc32_ieee) (Hcrc:=crc32_ieee_ok)
    sample_run (mkWal (mkFile (segment (C:=crc32_ieee) empty_log) []) [] 0 14)
    {| records := []; truncated_bytes := 0; rec_next_seq := 0; rec_segment_bytes := 14 |}
    (mkFile (segment (C:=crc32_ieee) empty_log) []) sample_run_ok eq_refl)
    as (answers & w' & H1 & H2).
  exists answers, w'. eexists _, _, _. split; [reflexivity|]. split; [exact H1|exact H2].
Defined.

(** A log of two changes on a device that will behave as [fs] says. *)
Definition sample_log : Log := mkLog 7 [(Put, lit "a", lit "1"); (Delete, lit "b", [])].
Definition sample_wal (fs : list fault) : Wal :=
  mkWal (mkFile (segment (C:=crc32_ieee) sample_log) fs) [] 9 (14 + 23 + 22).

Lemma sample_wal_rep fs : wal_rep (C:=crc32_ieee) (sample_wal fs) sample_log.
Proof. split; [|reflexivity..]. split; [split; done|]. repeat constructor. Defined.

Lemma append_crash_atomic_witness :
  ∃ w'' r f, open (C:=crc32_ieee)
      (wal_file (append (C:=crc32_ieee) Put (lit "c") (lit "3") (sample_wal [Fail 5])).2)
      = (Ok (w'', r), f) ∧ records r = log_records sample_log.
Proof.
  destruct (append_crash_atomic (C:=crc32_ieee) (Hcrc:=crc32_ieee_ok) Put (lit "c") (lit "3")
    (sample_wal [Fail 5]) sample_log _ _ (sample_wal_rep _) eq_refl eq_refl
    (surjective_pairing _)) as (w'' & r & f & H1 & H2 & _).
  exists w'', r, f. split; [exact H1|exact H2].
Defined.

Lemma crash_recovers_longest_prefix_witness :
  ∃ w r f, open (C:=crc32_ieee) (mkFile (take 40 seed_put_put_delete) []) = (Ok (w, r), f) ∧
    ∃ n, records r = take n (log_records log_put_put_delete).
Proof.
  destruct (crash_recovers_longest_prefix (C:=crc32_ieee) (Hcrc:=crc32_ieee_ok)
    log_put_put_delete (take 40 seed_put_put_delete)) as [Hcut _].
  - split; [done|]. repeat constructor.
  - exists (drop 40 seed_put_put_delete). vm_compute. reflexivity.
  - destruct Hcut as (n & w & r & H1 & H2 & _); [vm_compute; discriminate|].
    exists w, r. eexists. split; [exact H1|]. exists n. exact H2.
Defined.

Lemma rotate_header_failure_witness :
  ∃ w', (rotate (sample_wal [Pass; Fail 3])).2 = w' ∧
        (open (C:=crc32_ieee) (wal_file w')).1 = Err (Corrupt "wal header is truncated").
Proof.
  destruct (rotate_header_failure_loses_segment (C:=crc32_ieee)
    (sample_wal [Pass; Fail 3]) sample_log 3 (sample_wal_rep _) eq_refl eq_refl)
    as (w' & e & H1 & _ & H3).
  exists w'. split; [by rewrite H1|exact H3].
Defined.

Lemma failed_append_resurfaces_witness :
  ∃ w3 r f, open (C:=crc32_ieee)
      (wal_file (append (C:=crc32_ieee) Put (lit "d") (lit "4")
        (append (C:=crc32_ieee) Put (lit "c") (lit "3") (sample_wal [Fail 5])).2).2)
      = (Ok (w3, r), f) ∧
    seq <$> records r = [7; 8; 9; 9].
Proof.
  destruct (failed_append_resurfaces (C:=crc32_ieee) (Hcrc:=crc32_ieee_ok)
    Put (lit "c") (lit "3") Put (lit "d") (lit "4") (sample_wal [Fail 5]) sample_log 5
    (sample_wal_rep _) eq_refl eq_refl eq_refl eq_refl eq_refl) as (e & w1 & w2 & w3 & r & f & H1 & H2 & H3 & H4).
  - vm_compute. lia.
  - reflexivity.
  - exists w3, r, f. rewrite H1. cbn [snd]. rewrite H2. split; [exact H3|]. by rewrite H4.
Defined.

(** A frame of at least the buffer's size goes to the file directly.  When that
    write fails half-way, nothing removes the torn bytes: the next append succeeds
    behind them, and is not recovered. *)
Example torn_large_append_hides_later_ones :
  let w1 := (append (C:=crc32_ieee) Put (lit "c") (replicate 8200 x00) (sample_wal [Fail 40])).2 in
  let '(res, w2) := append (C:=crc32_ieee) Put (lit "d") (lit "4") w1 in
  res = Ok 9 ∧
  match open (C:=crc32_ieee) (wal_file w2) with
  | (Ok (_, r), _) => records r = log_records sample_log
  | _ => False
  end.
Proof. vm_compute. done. Qed.

Lemma open_idempotent_witness :
  ∃ w r f, open (C:=crc32_ieee) (mkFile (take 60 seed_put_put_delete) []) = (Ok (w, r), f) ∧
  ∃ w' r', open (C:=crc32_ieee) f = (Ok (w', r'), f) ∧ records r' = records r.
Proof.
  destruct (open_idempotent (C:=crc32_ieee) (Hcrc:=crc32_ieee_ok) (take 60 seed_put_put_delete))
    as [[what H]|(w & r & f & H1 & w' & r' & H2 & H3 & _)]; [vm_compute in H; discriminate|].
  exists w, r, f. split; [exact H1|]. exists w', r'. split; [exact H2|exact H3].
Defined.
