(* ===== verification/Checksum.v ===== *)
(** * What the log's checksum detects ([ferriskv-node/src/wal.rs], [parse_frames])

    CRC-32 tells any two inputs of one length apart that differ in a single byte
    ([Crc32Detects]); that is proved here of the polynomial [crc32fast] computes.  What
    it means for the log: a byte that goes bad anywhere in a frame but in its two length
    fields costs that frame and what follows it, and nothing else.  In a length field it
    can do worse, since the checksum is then looked for in another place: a record that
    was never written can come out. *)

From Stdlib Require Import Strings.Byte.
From S2P Require Import Prelude Bytes Core Wal.

(** A checksum that notices a single changed byte. *)
Class Crc32Detects `{Crc32} : Prop :=
  crc32_detects : ∀ a x y b, x ≠ y → crc32 (a ++ x :: b) ≠ crc32 (a ++ y :: b).

(** ** CRC-32 detects *)

Definition u32_range (c : Z) : Prop := 0 ≤ c < 2 ^ 32.

Lemma u32_bits c : 0 ≤ c → u32_range c ↔ ∀ i, 32 ≤ i → Z.testbit c i = false.
Proof.
  intros Hc. split.
  - intros [_ Hlt] i Hi. destruct (decide (c = 0)) as [-> |Hz]; [apply Z.bits_0|].
    apply Z.bits_above_log2; [done|]. apply Z.log2_lt_pow2 in Hlt; lia.
  - intros Hb. split; [done|]. destruct (Z.lt_ge_cases c (2 ^ 32)) as [|Hge]; [done|].
    assert (32 ≤ Z.log2 c) as Hl by (apply Z.log2_le_pow2; lia).
    pose proof (Hb _ Hl) as Hf. rewrite Z.bit_log2 in Hf by lia. done.
Qed.

Lemma lxor_u32 a b : u32_range a → u32_range b → u32_range (Z.lxor a b).
Proof.
  intros Ha Hb. assert (0 ≤ Z.lxor a b) by (apply Z.lxor_nonneg; destruct Ha, Hb; split; lia).
  apply u32_bits; [done|]. intros i Hi. rewrite Z.lxor_spec.
  rewrite (proj1 (u32_bits a (proj1 Ha)) Ha i Hi), (proj1 (u32_bits b (proj1 Hb)) Hb i Hi). done.
Qed.

Lemma lxor_inj_l a b c : Z.lxor a c = Z.lxor b c → a = b.
Proof.
  intros H. apply (f_equal (λ z, Z.lxor z c)) in H.
  by rewrite !Z.lxor_assoc, Z.lxor_nilpotent, !Z.lxor_0_r in H.
Qed.

Lemma shiftr_1 c : Z.shiftr c 1 = c / 2.
Proof. by rewrite Z.shiftr_div_pow2. Qed.

Lemma halves c : c = 2 * (c / 2) + Z.b2z (Z.odd c).
Proof.
  rewrite <-Z.bit0_odd. pose proof (Z.div_mod c 2). rewrite (Z.bit0_mod c). lia.
Qed.

Lemma crc_bit_u32 c : u32_range c → u32_range (crc_bit c).
Proof.
  intros Hc. assert (u32_range (Z.shiftr c 1)) as Hs.
  { rewrite shiftr_1. destruct Hc. split; [apply Z.div_pos; lia|].
    apply Z.div_lt_upper_bound; lia. }
  unfold crc_bit. case_match; [|done]. by apply lxor_u32.
Qed.

(** The top bit of the result tells which case it was. *)
Lemma crc_bit_top c : u32_range c → Z.testbit (crc_bit c) 31 = Z.odd c.
Proof.
  intros Hc. assert (Z.testbit (Z.shiftr c 1) 31 = false) as Hs.
  { rewrite Z.shiftr_spec by lia. by apply (u32_bits c (proj1 Hc)). }
  unfold crc_bit. destruct (Z.odd c); [|done]. by rewrite Z.lxor_spec, Hs.
Qed.

Lemma crc_bit_inj a b : u32_range a → u32_range b → crc_bit a = crc_bit b → a = b.
Proof.
  intros Ha Hb E. assert (Z.odd a = Z.odd b) as Ho by (rewrite <-!crc_bit_top by done; by rewrite E).
  assert (a / 2 = b / 2) as Hh.
  { unfold crc_bit in E. rewrite !shiftr_1, Ho in E. destruct (Z.odd b); [|done]. by eapply lxor_inj_l. }
  rewrite (halves a), (halves b). by rewrite Hh, Ho.
Qed.

Lemma crc_bits_u32 n c : u32_range c → u32_range (Nat.iter n crc_bit c).
Proof. intros Hc. induction n as [|n IH]; [done|]. by apply crc_bit_u32. Qed.

Lemma crc_bits_inj n a b :
  u32_range a → u32_range b → Nat.iter n crc_bit a = Nat.iter n crc_bit b → a = b.
Proof.
  intros Ha Hb. induction n as [|n IH]; [done|]. intros E. apply IH.
  apply crc_bit_inj; [by apply crc_bits_u32..|done].
Qed.

(** One byte into the register. *)
Definition crc_byte (c : Z) (x : byte) : Z := Nat.iter 8 crc_bit (Z.lxor c (byte_Z x)).

Lemma byte_u32 x : u32_range (byte_Z x).
Proof. pose proof (byte_Z_range x). unfold u32_range. lia. Qed.

Lemma crc_byte_u32 c x : u32_range c → u32_range (crc_byte c x).
Proof. intros Hc. apply crc_bits_u32, lxor_u32; [done|apply byte_u32]. Qed.

Lemma crc_bytes_u32 b c : u32_range c → u32_range (fold_left crc_byte b c).
Proof. revert c. induction b as [|x b IH]; intros c Hc; [done|]. by apply IH, crc_byte_u32. Qed.

Lemma crc_bytes_inj b c c' :
  u32_range c → u32_range c' → fold_left crc_byte b c = fold_left crc_byte b c' → c = c'.
Proof.
  revert c c'. induction b as [|x b IH]; intros c c' Hc Hc' E; [done|].
  apply IH in E; [|by apply crc_byte_u32..]. eapply lxor_inj_l, crc_bits_inj; [..|exact E];
    (apply lxor_u32; [done|apply byte_u32]).
Qed.

Lemma crc_byte_inj c x y : u32_range c → crc_byte c x = crc_byte c y → x = y.
Proof.
  intros Hc E. apply crc_bits_inj in E; [|apply lxor_u32; [done|apply byte_u32]..].
  rewrite (Z.lxor_comm c (byte_Z x)), (Z.lxor_comm c (byte_Z y)) in E.
  apply lxor_inj_l in E. rewrite <-(byte_of_Z_byte_Z x), <-(byte_of_Z_byte_Z y). by rewrite E.
Qed.

Lemma crc32_ieee_detects : Crc32Detects (H:=crc32_ieee).
Proof.
  intros a x y b Hne E. apply Hne. unfold crc32, crc32_ieee in E.
  change (fold_left _ ?l ?z) with (fold_left crc_byte l z) in E.
  rewrite !fold_left_app in E. cbn [fold_left] in E.
  set (c := fold_left crc_byte a 0xFFFFFFFF) in *.
  assert (u32_range c) as Hc by (by apply crc_bytes_u32).
  assert (∀ z, u32_range (fold_left crc_byte b (crc_byte c z))) as Hr
    by (intros z; by apply crc_bytes_u32, crc_byte_u32).
  rewrite !Z.mod_small in E by (by apply lxor_u32).
  apply lxor_inj_l, crc_bytes_inj in E; [|by apply crc_byte_u32..]. by eapply crc_byte_inj.
Qed.

(** ** One byte gone bad *)

(** [b] is [a] with the byte at [i] changed. *)
Definition one_off (a b : bytes) (i : Z) : Prop :=
  ∃ p x y q, a = p ++ x :: q ∧ b = p ++ y :: q ∧ x ≠ y ∧ i = len p.

Lemma one_off_len a b i : one_off a b i → len b = len a ∧ 0 ≤ i < len a.
Proof. intros (p & x & y & q & -> & -> & _ & ->). pose proof (len_nonneg q). pose proof (len_nonneg p). len_lia. Qed.

Lemma one_off_app_l a b c i : one_off a b i → one_off (a ++ c) (b ++ c) i.
Proof.
  intros (p & x & y & q & -> & -> & Hne & ->). exists p, x, y, (q ++ c). by rewrite <-!app_assoc.
Qed.

Lemma one_off_app_r a b c i : one_off a b i → one_off (c ++ a) (c ++ b) (len c + i).
Proof.
  intros (p & x & y & q & -> & -> & Hne & ->). exists (c ++ p), x, y, q.
  rewrite <-!app_assoc. split_and!; [done..|len_lia].
Qed.

(** Where the bad byte of a concatenation is. *)
Lemma one_off_app a b f i :
  one_off (a ++ b) f i →
  (i < len a ∧ ∃ a', one_off a a' i ∧ f = a' ++ b) ∨
  (len a ≤ i ∧ ∃ b', one_off b b' (i - len a) ∧ f = a ++ b').
Proof.
  intros (p & x & y & q & E & -> & Hne & ->).
  destruct (app_eq_inv _ _ _ _ E) as [(k & -> & Ek)|(k & -> & ->)].
  - destruct k as [|x' k].
    + right. rewrite app_nil_r in *. simpl in Ek. subst. split; [lia|]. exists (y :: q).
      split; [|done]. exists [], x, y, q. split_and!; [done..|len_lia].
    + left. simpl in Ek. injection Ek as <- ->. split; [len_lia; pose proof (len_nonneg k); lia|].
      exists (p ++ y :: k). split; [by exists p, x, y, k|]. by rewrite <-app_assoc.
  - right. split; [pose proof (len_nonneg k); len_lia|]. exists (k ++ y :: q).
    split; [|by rewrite <-app_assoc]. exists k, x, y, q. split_and!; [done..|len_lia].
Qed.

Section detection.
Context `{C : Crc32} `{CO : !Crc32Ok} `{CD : !Crc32Detects}.

Lemma crc32_one_off a b i : one_off a b i → crc32 a ≠ crc32 b.
Proof. intros (p & x & y & q & -> & -> & Hne & _). by apply crc32_detects. Qed.

Lemma judge_mismatch sb ob kb k vb v cb :
  from_le_bytes cb ≠ crc32 (sb ++ [ob] ++ kb ++ k ++ vb ++ v) → judge sb ob kb k vb v cb = Err tt.
Proof.
  intros Hne. unfold judge. destruct (op_from_u8 ob); [|done].
  destruct (Z.eqb_spec (crc32 (sb ++ [ob] ++ kb ++ k ++ vb ++ v)) (from_le_bytes cb)); [congruence|done].
Qed.

Lemma from_le_bytes_one_off a b i : one_off a b i → from_le_bytes a ≠ from_le_bytes b.
Proof.
  intros Ho E. pose proof (one_off_len _ _ _ Ho) as [Hl _].
  apply from_le_bytes_inj in E as ->; [|unfold len in Hl; lia].
  destruct Ho as (p & x & y & q & -> & E' & Hne & _). apply app_inv_head in E'. congruence.
Qed.

(** A body damaged outside its length fields still has the shape of one. *)
Lemma bad_body_fields r b i :
  one_off (frame_body r) b i → ¬ 9 ≤ i < 13 → ¬ 13 + len (key r) ≤ i < 17 + len (key r) →
  ∃ sb ob k v, b = sb ++ [ob] ++ to_le_bytes 4 (len (key r)) ++ k ++ to_le_bytes 4 (len (value r)) ++ v ∧
    len sb = 8 ∧ len k = len (key r) ∧ len v = len (value r).
Proof.
  unfold frame_body. intros Ho H1 H2. set (kb := to_le_bytes 4 (len (key r))) in *.
  set (vb := to_le_bytes 4 (len (value r))) in *.
  set (sb := to_le_bytes 8 (seq r)) in *. set (ob := op_u8 (op r)) in *.
  assert (len sb = 8 ∧ len kb = 4 ∧ len vb = 4) as (Ls & Lk & Lv) by (split_and!; apply len_to_le_bytes).
  apply one_off_app in Ho as [(_ & sb' & Ho & ->)|(Hi1 & b1 & Ho & ->)].
  { exists sb', ob, (key r), (value r). apply one_off_len in Ho as [Hl _]. split_and!; (done || lia). }
  apply one_off_app in Ho as [(Hi2 & ob' & Ho & ->)|(Hi2 & b2 & Ho & ->)].
  { apply one_off_len in Ho as [Hl _]. destruct ob' as [|o []]; [done| |].
    - by exists sb, o, (key r), (value r).
    - change (len [ob]) with 1 in Hl. rewrite !len_cons in Hl. pose proof (len_nonneg l). lia. }
  change (len [ob]) with 1 in *.
  apply one_off_app in Ho as [(Hi3 & kb' & Ho & ->)|(Hi3 & b3 & Ho & ->)]; [lia|].
  apply one_off_app in Ho as [(_ & k' & Ho & ->)|(Hi4 & b4 & Ho & ->)].
  { exists sb, ob, k', (value r). apply one_off_len in Ho as [Hl _]. split_and!; (done || lia). }
  apply one_off_app in Ho as [(Hi5 & vb' & Ho & ->)|(_ & v' & Ho & ->)]; [lia|].
  exists sb, ob, (key r), v'. apply one_off_len in Ho as [Hl _]. split_and!; (done || lia).
Qed.

(** Outside the length fields, one bad byte makes a frame that does not parse. *)
Lemma bad_frame_refused r f i rest :
  wf_record r → one_off (encode_frame r) f i →
  ¬ 9 ≤ i < 13 → ¬ 13 + len (key r) ≤ i < 17 + len (key r) → parse_frame (f ++ rest) = Err tt.
Proof.
  intros (_ & Hk & Hv) Ho H1 H2. pose proof (len_nonneg (key r)). pose proof (len_nonneg (value r)).
  set (kb := to_le_bytes 4 (len (key r))). set (vb := to_le_bytes 4 (len (value r))).
  assert (∀ sb ob k v cb, len sb = 8 → len k = len (key r) → len v = len (value r) → len cb = 4 →
    from_le_bytes cb ≠ crc32 (sb ++ [ob] ++ kb ++ k ++ vb ++ v) →
    parse_frame ((sb ++ [ob] ++ kb ++ k ++ vb ++ v) ++ cb ++ rest) = Err tt) as Hrefuse.
  { intros sb ob k v cb L1 L2 L3 L4 Hne. rewrite <-!app_assoc.
    rewrite parse_frame_shape; [by apply judge_mismatch|done|apply len_to_le_bytes| |apply len_to_le_bytes| |done].
    all: subst kb vb; rewrite from_to_le_bytes_id; (done || simpl; lia). }
  assert (from_le_bytes (to_le_bytes 4 (crc32 (frame_body r))) = crc32 (frame_body r)) as Hcrc
    by (apply from_to_le_bytes_id, crc32_u32).
  unfold encode_frame in Ho. apply one_off_app in Ho as [(_ & b & Ho & ->)|(_ & cb & Ho & ->)].
  - destruct (bad_body_fields r b i Ho H1 H2) as (sb & ob & k & v & -> & L1 & L2 & L3).
    rewrite <-app_assoc. apply Hrefuse; [done..|apply len_to_le_bytes|]. rewrite Hcrc.
    by eapply crc32_one_off.
  - pose proof (one_off_len _ _ _ Ho) as [Hl _]. rewrite len_to_le_bytes in Hl. rewrite <-app_assoc.
    apply Hrefuse; [apply len_to_le_bytes|done|done|done|].
    apply from_le_bytes_one_off in Ho. rewrite Hcrc in Ho. by intros E.
Qed.

(** C13: a bad byte costs the frame it is in and what follows, and nothing else.  Whatever
    records a segment holds, change one byte of one frame, anywhere but in the frame's
    two length fields: parsing returns, and returns exactly the records before that
    frame. *)
Theorem corruption_costs_the_tail before r after f i
    (Hwf : Forall wf_record (before ++ [r])) (Hbad : one_off (encode_frame r) f i)
    (Hklen : ¬ 9 ≤ i < 13) (Hvlen : ¬ 13 + len (key r) ≤ i < 17 + len (key r)) :
  parse_frames (encode_frames before ++ f ++ after) = Ok (before, len (encode_frames before)).
Proof.
  apply Forall_app in Hwf as [Hb Hr]. rewrite Forall_singleton in Hr. apply parse_frames_run; [done|].
  by eapply bad_frame_refused.
Qed.

End detection.

(** ** Witness *)

Definition torn_record : WalRecord := mkRecord 0 Put (lit "k") (lit "value").

(** The third byte of the value goes bad; a whole frame follows. *)
Definition bad_frame : bytes := <[20%nat := x00]> (encode_frame (C:=crc32_ieee) torn_record).

Lemma bad_frame_one_off : one_off (encode_frame (C:=crc32_ieee) torn_record) bad_frame 20.
Proof.
  exists (take 20 bad_frame), x6c, x00, (drop 21 bad_frame). split_and!; (done || by vm_compute).
Qed.

Lemma corruption_costs_the_tail_witness :
  parse_frames (C:=crc32_ieee) (encode_frames (C:=crc32_ieee) [mkRecord 0 Put (lit "a") []] ++ bad_frame
    ++ encode_frame (C:=crc32_ieee) torn_record) =
  Ok ([mkRecord 0 Put (lit "a") []], 22).
Proof.
  apply (corruption_costs_the_tail (CO:=crc32_ieee_ok) (CD:=crc32_ieee_detects)
    [mkRecord 0 Put (lit "a") []] torn_record (encode_frame (C:=crc32_ieee) torn_record) bad_frame 20).
  - apply (bool_decide_unpack _). by vm_compute.
  - exact bad_frame_one_off.
  - lia.
  - change (len (key torn_record)) with 1. lia.
Defined.

(** ** In a length field *)

(** A client's value can be the checksum of another, shorter frame: one byte of the
    value's length later, the log holds a record nobody wrote, with a checksum that is
    right. *)
Definition lure : bytes :=
  to_le_bytes 4 (crc32_ieee (frame_body (mkRecord 0 Put (lit "k") []))).
Definition lured : WalRecord := mkRecord 0 Put (lit "k") lure.
Definition forged : bytes := <[14%nat := x00]> (encode_frame (C:=crc32_ieee) lured).

Example one_byte_can_forge_a_record :
  parse_frames (C:=crc32_ieee) (encode_frame (C:=crc32_ieee) lured) = Ok ([lured], 26) ∧
  one_off (encode_frame (C:=crc32_ieee) lured) forged 14 ∧
  parse_frames (C:=crc32_ieee) forged = Ok ([mkRecord 0 Put (lit "k") []], 22).
Proof.
  split_and!; [by vm_compute| |by vm_compute].
  exists (take 14 forged), x04, x00, (drop 15 forged). split_and!; (done || by vm_compute).
Qed.
