(* ===== verification/TtlIndex.v ===== *)
(** * The expiry index ([ferriskv-node/src/ttl.rs], [TtlIndex])

    A map from expiry time to the set of keys that expire then, kept in order.
    [BTreeMap<u64, BTreeSet<Bytes>>] is a list of buckets, by increasing time,
    each a list of keys by increasing key: the order the Rust iterators give.
    The theorems show that the index is the set of (time, key) pairs scheduled
    and not yet drained, that [drain_due] takes exactly the due ones, and that
    the sweeper is never left asleep past the earliest expiry. *)

From S2P Require Import Prelude Bytes.

(** [BTreeSet::insert]: whether the key is new, and the set with it. *)
Fixpoint set_insert (k : bytes) (s : list bytes) : bool * list bytes :=
  match s with
  | [] => (true, [k])
  | x :: s' =>
      if bytes_ltb k x then (true, k :: s)
      else if bytes_ltb x k then
        let '(new, s'') := set_insert k s' in (new, x :: s'')
      else (false, s)
  end.

(** [by_expiry.entry(t).or_default().insert(key)]. *)
Fixpoint entry_insert (t : Z) (k : bytes) (m : list (Z * list bytes)) :
    bool * list (Z * list bytes) :=
  match m with
  | [] => (true, [(t, [k])])
  | (u, s) :: m' =>
      if t <? u then (true, (t, [k]) :: m)
      else if u <? t then
        let '(new, m'') := entry_insert t k m' in (new, (u, s) :: m'')
      else
        let '(new, s') := set_insert k s in (new, (u, s') :: m')
  end.

(** [notify] holds the permit of [tokio::sync::Notify]: [notify_one] stores at
    most one, the next [notified().await] takes it. *)
Record TtlIndex := mkIndex {
  by_expiry : list (Z * list bytes);
  total : Z;
  notify : bool;
}.

Definition new : TtlIndex := mkIndex [] 0 false.

Definition next_due_ms (g : TtlIndex) : option Z := fst <$> head (by_expiry g).

Definition schedule (key : bytes) (expires_at_ms : Z) (g : TtlIndex) : TtlIndex :=
  let was_earliest := next_due_ms g in
  let '(inserted, m) := entry_insert expires_at_ms key (by_expiry g) in
  let total := if inserted then wrap_add64 (total g) 1 else total g in
  let wake :=
    match was_earliest with
    | None => true
    | Some prev => expires_at_ms <? prev
    end in
  mkIndex m total (notify g || wake).

(** The [while let] loop of [drain_due]: pops the first bucket while it is due. *)
Fixpoint drain_loop (now_ms : Z) (m : list (Z * list bytes)) (out : list bytes) :
    list bytes * list (Z * list bytes) :=
  match m with
  | [] => (out, [])
  | (ts, keys) :: m' =>
      if now_ms <? ts then (out, m) else drain_loop now_ms m' (out ++ keys)
  end.

Definition drain_due (now_ms : Z) (g : TtlIndex) : list bytes * TtlIndex :=
  let '(out, m) := drain_loop now_ms (by_expiry g) [] in
  (out, mkIndex m (sat_sub64 (total g) (len out)) (notify g)).

Definition index_len (g : TtlIndex) : Z := total g.
Definition is_empty (g : TtlIndex) : bool := index_len g =? 0.

(** [notified().await] returned. *)
Definition take_permit (g : TtlIndex) : TtlIndex := mkIndex (by_expiry g) (total g) false.

(** ** The index as a set *)

(** Every scheduled (time, key) pair, in iteration order. *)
Definition pairs (m : list (Z * list bytes)) : list (Z * bytes) :=
  m ≫= λ '(t, ks), (t,.) <$> ks.
Global Arguments pairs : simpl never.
Definition scheduled (g : TtlIndex) : list (Z * bytes) := pairs (by_expiry g).

Definition bucket_ok (b : Z * list bytes) : Prop := b.2 ≠ [] ∧ StronglySorted bytes_lt b.2.

Definition earlier (a b : Z * list bytes) : Prop := a.1 < b.1.

(** The invariant: buckets by increasing time, none empty, keys by increasing
    key, and the count right. *)
Record index_ok (g : TtlIndex) : Prop := {
  ok_sorted : StronglySorted earlier (by_expiry g);
  ok_buckets : Forall bucket_ok (by_expiry g);
  ok_total : total g = len (scheduled g);
  ok_count : u64_ok (len (scheduled g));
}.

Lemma pairs_cons t ks m : pairs ((t, ks) :: m) = ((t,.) <$> ks) ++ pairs m.
Proof. done. Qed.

Lemma set_insert_elem k s x : x ∈ (set_insert k s).2 ↔ x = k ∨ x ∈ s.
Proof.
  induction s as [|y s IH]; simpl; [set_solver|].
  destruct (bytes_ltb k y) eqn:E1; [simpl; set_solver|].
  destruct (bytes_ltb y k) eqn:E2.
  - destruct (set_insert k s) as [new s']. simpl in *. set_solver.
  - simpl. assert (k = y) as ->; [|set_solver].
    destruct (bytes_lt_total k y) as [?|[?|?]]; unfold bytes_lt in *; congruence.
Qed.

Lemma set_insert_sorted k s : StronglySorted bytes_lt s → StronglySorted bytes_lt (set_insert k s).2.
Proof.
  induction 1 as [|y s Hs IH Hy]; simpl; [repeat constructor|].
  destruct (bytes_ltb k y) eqn:E1.
  - simpl. constructor; [by constructor|]. constructor; [done|].
    eapply Forall_impl; [done|]. intros x Hx. by etrans.
  - destruct (bytes_ltb y k) eqn:E2; [|by constructor].
    pose proof (set_insert_elem k s) as He. destruct (set_insert k s) as [new s']. simpl in *.
    constructor; [done|]. apply Forall_forall. intros x [-> |Hx]%He; [done|].
    by eapply Forall_forall in Hy.
Qed.

Lemma set_insert_len k s :
  len (set_insert k s).2 = len s + (if (set_insert k s).1 then 1 else 0).
Proof.
  induction s as [|y s IH]; simpl; [done|].
  destruct (bytes_ltb k y); simpl; [len_lia|]. destruct (bytes_ltb y k); simpl; [|lia].
  destruct (set_insert k s) as [[] s']; simpl in *; len_lia.
Qed.

Lemma set_insert_not_nil k s : (set_insert k s).2 ≠ [].
Proof. pose proof (proj2 (set_insert_elem k s k) (or_introl eq_refl)) as H. intros E. rewrite E in H. set_solver. Qed.

Lemma set_insert_new k s : StronglySorted bytes_lt s → (set_insert k s).1 = true ↔ k ∉ s.
Proof.
  induction 1 as [|y s Hs IH Hy]; simpl; [set_solver|].
  destruct (bytes_ltb k y) eqn:E1; simpl.
  - split; [|done]. intros _ [-> |Hin]%elem_of_cons.
    + by apply (irreflexivity bytes_lt y).
    + eapply Forall_forall in Hy; [|done]. apply (irreflexivity bytes_lt k). by etrans.
  - destruct (bytes_ltb y k) eqn:E2.
    + destruct (set_insert k s) as [new s']. simpl in *. rewrite IH. rewrite elem_of_cons.
      split; [|naive_solver]. intros Hn [-> |?]; [|done]. by apply (irreflexivity bytes_lt y).
    + split; [done|]. intros Hn. exfalso. apply Hn.
      destruct (bytes_lt_total k y) as [?|[-> |?]]; unfold bytes_lt in *; [congruence|left|congruence].
Qed.

Lemma elem_of_pairs t k m : (t, k) ∈ pairs m ↔ ∃ ks, (t, ks) ∈ m ∧ k ∈ ks.
Proof.
  unfold pairs. rewrite list_elem_of_bind. split.
  - intros ([u ks] & Hk & Hm). apply list_elem_of_fmap in Hk as (k' & [= -> ->] & ?). eauto.
  - intros (ks & Hm & Hk). exists (t, ks). split; [|done]. apply list_elem_of_fmap. eauto.
Qed.

Lemma entry_insert_elem t k m p : p ∈ pairs (entry_insert t k m).2 ↔ p = (t, k) ∨ p ∈ pairs m.
Proof.
  induction m as [|[u s] m IH]; simpl; [unfold pairs; set_solver|].
  destruct (Z.ltb_spec t u); [simpl; rewrite !pairs_cons; set_solver|].
  destruct (Z.ltb_spec u t).
  - destruct (entry_insert t k m) as [new m']. simpl in *. rewrite !pairs_cons. set_solver.
  - assert (t = u) as <- by lia. pose proof (set_insert_elem k s) as He.
    destruct (set_insert k s) as [new s']. simpl in *. rewrite !pairs_cons, !elem_of_app.
    rewrite !list_elem_of_fmap. setoid_rewrite He. naive_solver.
Qed.

Lemma entry_insert_len t k m :
  len (pairs (entry_insert t k m).2) = len (pairs m) + (if (entry_insert t k m).1 then 1 else 0).
Proof.
  assert (∀ u (s : list bytes), len ((u : Z,.) <$> s) = len s) as Hf.
  { intros. unfold len. by rewrite length_fmap. }
  induction m as [|[u s] m IH]; simpl; [done|].
  destruct (Z.ltb_spec t u).
  { simpl. rewrite !pairs_cons, !len_app, !Hf. len_lia. }
  destruct (Z.ltb_spec u t).
  - destruct (entry_insert t k m) as [new m']. simpl in *. rewrite !pairs_cons, !len_app. lia.
  - pose proof (set_insert_len k s). destruct (set_insert k s) as [new s']. simpl in *.
    rewrite !pairs_cons, !len_app, !Hf. lia.
Qed.

Lemma entry_insert_bound t k m u :
  u < t → Forall (λ b, u < b.1) m → Forall (λ b : Z * list bytes, u < b.1) (entry_insert t k m).2.
Proof.
  intros Hu. induction 1 as [|[v s] m Hv Hm IH]; simpl; [by repeat constructor|].
  destruct (t <? v); [by repeat constructor|].
  destruct (v <? t).
  - destruct (entry_insert t k m) as [new m']. by constructor.
  - destruct (set_insert k s) as [new s']. by constructor.
Qed.

Lemma entry_insert_ok t k m :
  StronglySorted earlier m → Forall bucket_ok m →
  StronglySorted earlier (entry_insert t k m).2 ∧ Forall bucket_ok (entry_insert t k m).2.
Proof.
  induction 1 as [|[u s] m Hs IH Hu]; intros Hb; simpl.
  { split; repeat constructor; done. }
  apply Forall_cons in Hb as [[Hne Hss] Hb]. simpl in *.
  destruct (Z.ltb_spec t u) as [Ht|Ht]; [|destruct (Z.ltb_spec u t) as [Hut|Hut]].
  - split; repeat constructor; try done.
    eapply Forall_impl; [exact Hu|]. unfold earlier. simpl. intros. lia.
  - pose proof (entry_insert_bound t k m u Hut Hu). specialize (IH Hb) as [IH1 IH2].
    destruct (entry_insert t k m) as [new m']. simpl in *. split; by constructor.
  - pose proof (set_insert_sorted k s Hss). pose proof (set_insert_not_nil k s).
    destruct (set_insert k s) as [new s']. simpl in *. split; constructor; done.
Qed.

(** The earliest time after an insertion. *)
Lemma entry_insert_head t k m :
  fst <$> head (entry_insert t k m).2 =
  Some (match head m with Some (u, _) => Z.min t u | None => t end).
Proof.
  destruct m as [|[u s] m]; simpl; [done|].
  destruct (Z.ltb_spec t u); [simpl; f_equal; lia|]. destruct (Z.ltb_spec u t).
  - destruct (entry_insert t k m). simpl. f_equal. lia.
  - destruct (set_insert k s). simpl. f_equal. lia.
Qed.

Lemma entry_insert_new t k m :
  StronglySorted earlier m → Forall bucket_ok m →
  (entry_insert t k m).1 = true ↔ (t, k) ∉ pairs m.
Proof.
  induction 1 as [|[u s] m Hs IH Hu]; intros Hb; simpl.
  { split; [|done]. intros _ Hin. unfold pairs in Hin. set_solver. }
  apply Forall_cons in Hb as [[Hne Hss] Hb]. simpl in *.
  assert (∀ v, v ≤ u → (v, k) ∉ pairs m) as Hlate.
  { intros v Hv (ks & Hin & _)%elem_of_pairs. eapply Forall_forall in Hu; [|done].
    unfold earlier in Hu. simpl in Hu. lia. }
  assert (∀ v, (v, k) ∈ (u,.) <$> s ↔ v = u ∧ k ∈ s) as Hb0.
  { intros v. rewrite list_elem_of_fmap. naive_solver. }
  rewrite pairs_cons, elem_of_app, Hb0.
  destruct (Z.ltb_spec t u) as [Ht|Ht]; [|destruct (Z.ltb_spec u t) as [Hut|Hut]]; simpl.
  - split; [|done]. intros _ [[-> _]|Hin]; [lia|]. eapply Hlate; [|done]. lia.
  - destruct (entry_insert t k m) as [new m']. simpl in *. rewrite IH by done.
    split; [intros Hn [[-> _]|?]; [lia|done]|naive_solver].
  - assert (t = u) as -> by lia. pose proof (set_insert_new k s Hss) as Hn.
    destruct (set_insert k s) as [new s']. simpl in *. rewrite Hn.
    specialize (Hlate u ltac:(lia)). naive_solver.
Qed.

(** ** Draining *)

Lemma drain_loop_spec now m out :
  StronglySorted earlier m →
  ∃ m1 m2, m = m1 ++ m2 ∧ drain_loop now m out = (out ++ (snd <$> pairs m1), m2) ∧
    Forall (λ b, b.1 ≤ now) m1 ∧ Forall (λ b, now < b.1) m2.
Proof.
  intros Hs. revert out.
  assert (∀ out : list bytes, out ++ (snd <$> pairs []) = out) as Hnil by exact (app_nil_r (A:=bytes)).
  induction Hs as [|[u s] m Hs IH Hu]; intros out; simpl.
  { exists [], []. by rewrite Hnil. }
  destruct (Z.ltb_spec now u) as [Hlt|Hle].
  - exists [], ((u, s) :: m). rewrite Hnil. split_and!; [done..|].
    constructor; [done|]. eapply Forall_impl; [done|]. unfold earlier. simpl. intros. lia.
  - destruct (IH (out ++ s)) as (m1 & m2 & -> & -> & H1 & H2).
    exists ((u, s) :: m1), m2. split_and!; [done| |by constructor|done].
    rewrite pairs_cons, fmap_app, <-app_assoc, <-list_fmap_compose.
    by rewrite (list_fmap_ext _ id), list_fmap_id.
Qed.

Lemma pairs_app m1 m2 : pairs (m1 ++ m2) = pairs m1 ++ pairs m2.
Proof. unfold pairs. apply bind_app. Qed.

Lemma pairs_sorted m :
  StronglySorted earlier m → StronglySorted (λ a b : Z * bytes, a.1 ≤ b.1) (pairs m).
Proof.
  induction 1 as [|[u s] m Hs IH Hu]; [constructor|]. rewrite pairs_cons.
  change (Forall (λ b, u < b.1) m) in Hu. induction s as [|k s IHs]; [done|]. simpl. constructor; [done|].
  apply Forall_app; split.
  - apply Forall_forall. intros p (k' & -> & _)%list_elem_of_fmap. done.
  - apply Forall_forall. intros [v k'] (ks & Hin & _)%elem_of_pairs.
    eapply Forall_forall in Hu; [|done]. simpl in *. lia.
Qed.

Lemma drain_due_spec now g :
  index_ok g →
  let '(out, g') := drain_due now g in
  index_ok g' ∧ ∃ due, scheduled g = due ++ scheduled g' ∧ out = snd <$> due ∧
    Forall (λ p, p.1 ≤ now) due ∧ Forall (λ p, now < p.1) (scheduled g').
Proof.
  intros [Hs Hb Ht Hc]. unfold drain_due.
  destruct (drain_loop_spec now (by_expiry g) [] Hs) as (m1 & m2 & Hm & E & H1 & H2).
  rewrite E. simpl app. unfold scheduled in *. simpl by_expiry. rewrite Hm in *.
  apply StronglySorted_app in Hs as (_ & _ & Hs2).
  apply Forall_app in Hb as [_ Hb2]. rewrite pairs_app, len_app in *.
  assert (len (snd <$> pairs m1) = len (pairs m1)) as Hl by (unfold len; by rewrite length_fmap).
  pose proof (len_nonneg (pairs m1)). pose proof (len_nonneg (pairs m2)). split.
  - split; unfold scheduled; simpl; [done|done| |unfold u64_ok in *; lia].
    rewrite Hl, Ht. unfold sat_sub64. lia.
  - exists (pairs m1). split_and!; [done..| |].
    + apply Forall_forall. intros [t k] (ks & Hin & _)%elem_of_pairs.
      exact (proj1 (Forall_forall _ _) H1 _ Hin).
    + apply Forall_forall. intros [t k] (ks & Hin & _)%elem_of_pairs.
      exact (proj1 (Forall_forall _ _) H2 _ Hin).
Qed.

(** ** Scheduling *)

Lemma new_ok : index_ok new.
Proof. split; try constructor; done. Qed.

Lemma schedule_elem k t g p : p ∈ scheduled (schedule k t g) ↔ p = (t, k) ∨ p ∈ scheduled g.
Proof.
  pose proof (entry_insert_elem t k (by_expiry g) p) as He. unfold schedule, scheduled.
  destruct (entry_insert t k (by_expiry g)) as [ins m]. done.
Qed.

Lemma schedule_ok k t g :
  index_ok g → len (scheduled g) < U64_MAX → index_ok (schedule k t g).
Proof.
  intros [Hs Hb Ht Hc] Hlen.
  destruct (entry_insert_ok t k _ Hs Hb) as [Hs' Hb'].
  pose proof (entry_insert_len t k (by_expiry g)) as Hl. unfold schedule, scheduled in *.
  destruct (entry_insert t k (by_expiry g)) as [ins m].
  unfold u64_ok, U64_MAX in *. pose proof (len_nonneg (pairs (by_expiry g))).
  split; unfold scheduled; simpl in *; [done|done| |].
  - destruct ins; rewrite Hl, Ht; [|lia]. apply wrap_add64_id. unfold u64_ok. lia.
  - destruct ins; unfold u64_ok; lia.
Qed.

Lemma schedule_len k t g : len (scheduled (schedule k t g)) ≤ len (scheduled g) + 1.
Proof.
  pose proof (entry_insert_len t k (by_expiry g)) as Hl. unfold schedule, scheduled.
  destruct (entry_insert t k (by_expiry g)) as [ins m]. simpl in *. destruct ins; lia.
Qed.

Lemma schedule_next_due k t g :
  next_due_ms (schedule k t g) =
  Some (match next_due_ms g with Some d => Z.min t d | None => t end).
Proof.
  pose proof (entry_insert_head t k (by_expiry g)) as Hh. unfold schedule, next_due_ms in *.
  destruct (entry_insert t k (by_expiry g)) as [ins m]. simpl in *. rewrite Hh.
  by destruct (head (by_expiry g)) as [[u s]|].
Qed.

Lemma schedule_permit k t g :
  notify (schedule k t g) =
  notify g || match next_due_ms g with Some d => t <? d | None => true end.
Proof. unfold schedule. by destruct (entry_insert t k (by_expiry g)). Qed.

(** [next_due_ms] is a lower bound of what is scheduled, and is scheduled. *)
Lemma next_due_spec g :
  index_ok g →
  match next_due_ms g with
  | None => scheduled g = []
  | Some d => (∃ k, (d, k) ∈ scheduled g) ∧ ∀ t k, (t, k) ∈ scheduled g → d ≤ t
  end.
Proof.
  intros [Hs Hb _ _]. unfold next_due_ms, scheduled.
  destruct (by_expiry g) as [|[d ks] m]; simpl; [done|].
  apply Forall_cons in Hb as [[Hne _] _]. apply StronglySorted_inv in Hs as [_ Hd].
  rewrite pairs_cons. simpl in Hne. split.
  - destruct ks as [|k ks]; [done|]. exists k. simpl. left.
  - intros t k [(?&[= -> ->]&_)%list_elem_of_fmap|(ks'&Hin&_)%elem_of_pairs]%elem_of_app; [done|].
    eapply Forall_forall in Hd; [|exact Hin]. unfold earlier in Hd. simpl in Hd. lia.
Qed.

(** A sequence of [schedule] calls. *)
Fixpoint schedule_all (ps : list (bytes * Z)) (g : TtlIndex) : TtlIndex :=
  match ps with
  | [] => g
  | (k, t) :: ps => schedule_all ps (schedule k t g)
  end.

Lemma schedule_all_permit ps g : notify g = true → notify (schedule_all ps g) = true.
Proof.
  revert g. induction ps as [|[k t] ps IH]; intros g Hn; [done|]. simpl.
  apply IH. by rewrite schedule_permit, Hn.
Qed.

(** ** Properties *)

(** the index is a set.  From an index that is in order, scheduling a key keeps
    it in order (buckets sorted, none empty, the count exact), adds that pair and
    nothing else, counts it only if it was not there, and makes the earliest
    expiry the smaller of the old one and the new one. *)
Theorem schedule_inserts k t g (Hok : index_ok g) (Hlen : len (scheduled g) < U64_MAX) :
  let g' := schedule k t g in
  index_ok g' ∧ (∀ p, p ∈ scheduled g' ↔ p = (t, k) ∨ p ∈ scheduled g) ∧
  index_len g' = index_len g + (if decide ((t, k) ∈ scheduled g) then 0 else 1) ∧
  next_due_ms g' = Some (match next_due_ms g with Some d => Z.min t d | None => t end).
Proof.
  split_and!; [by apply schedule_ok|apply schedule_elem| |apply schedule_next_due].
  pose proof (schedule_ok k t g Hok Hlen) as Hok'. unfold index_len.
  rewrite (ok_total _ Hok'), (ok_total _ Hok).
  pose proof (entry_insert_len t k (by_expiry g)) as Hl.
  pose proof (entry_insert_new t k _ (ok_sorted _ Hok) (ok_buckets _ Hok)) as Hnew.
  unfold schedule, scheduled in *. destruct (entry_insert t k (by_expiry g)) as [ins m].
  simpl in *. destruct ins; case_decide; naive_solver lia.
Qed.

(** [drain_due] takes exactly what is due.  It returns the keys whose time is at
    most [now], earliest first, leaves exactly the later ones, keeps the index in
    order and the count exact, and the next expiry it then reports is in the
    future. *)
Theorem drain_due_exact now g (Hok : index_ok g) :
  let '(out, g') := drain_due now g in
  index_ok g' ∧
  (∀ k, k ∈ out ↔ ∃ t, (t, k) ∈ scheduled g ∧ t ≤ now) ∧
  (∀ p, p ∈ scheduled g' ↔ p ∈ scheduled g ∧ now < p.1) ∧
  (∃ due, out = snd <$> due ∧ StronglySorted (λ a b, a.1 ≤ b.1) due) ∧
  index_len g' + len out = index_len g ∧
  (∀ d, next_due_ms g' = Some d → now < d).
Proof.
  pose proof (drain_due_spec now g Hok) as Hd. destruct (drain_due now g) as [out g'].
  destruct Hd as (Hok' & due & Hsch & -> & Hdue & Hlate).
  rewrite Forall_forall in Hdue. rewrite Forall_forall in Hlate.
  pose proof (pairs_sorted _ (ok_sorted _ Hok)) as Hsort. fold (scheduled g) in Hsort.
  split_and!; [done| | | | |].
  - intros k. rewrite list_elem_of_fmap, Hsch. setoid_rewrite elem_of_app. split.
    + intros ([t k'] & -> & Hin). exists t. split; [by left|]. by apply Hdue in Hin.
    + intros (t & [Hin|Hin] & Ht); [by exists (t, k)|]. apply Hlate in Hin. simpl in Hin. lia.
  - intros p. rewrite Hsch, elem_of_app. split; [naive_solver|].
    intros [[Hin|?] ?]; [|done]. apply Hdue in Hin. lia.
  - exists due. split; [done|]. rewrite Hsch in Hsort.
    by apply StronglySorted_app in Hsort as (_ & ? & _).
  - unfold index_len. rewrite (ok_total _ Hok), (ok_total _ Hok'), Hsch.
    rewrite len_app. unfold len. rewrite length_fmap. lia.
  - intros d Hd. pose proof (next_due_spec g' Hok') as Hn. rewrite Hd in Hn.
    destruct Hn as [[k Hk] _]. by apply Hlate in Hk.
Qed.

(** no wake-up is lost.  Take a sweeper that went to sleep until the earliest
    expiry it saw.  Whatever is scheduled while it sleeps, either a permit is
    waiting for it, or the earliest expiry is still the one it is waiting for. *)
Theorem schedule_wakes_sweeper ps g :
  notify (schedule_all ps g) = true ∨ next_due_ms (schedule_all ps g) = next_due_ms g.
Proof.
  revert g. induction ps as [|[k t] ps IH]; intros g; [by right|]. simpl.
  destruct (notify (schedule k t g)) eqn:Hn; [left; by apply schedule_all_permit|].
  destruct (IH (schedule k t g)) as [?|Hd]; [by left|right]. rewrite Hd, schedule_next_due.
  rewrite schedule_permit in Hn. destruct (next_due_ms g) as [d|].
  - propify. f_equal. lia.
  - by destruct (notify g).
Qed.

(** Witnesses: the fourth entry is a duplicate. *)
Definition sample_index : TtlIndex :=
  schedule_all [(lit "b", 20); (lit "a", 10); (lit "c", 20); (lit "b", 20)] new.

Lemma sample_index_ok : index_ok sample_index.
Proof.
  unfold sample_index. simpl.
  repeat (apply schedule_ok; [|vm_compute; reflexivity]). apply new_ok.
Defined.

Lemma schedule_inserts_witness :
  index_ok (schedule (lit "d") 15 sample_index) ∧
  index_len (schedule (lit "d") 15 sample_index) = 4.
Proof.
  destruct (schedule_inserts (lit "d") 15 sample_index sample_index_ok) as (H & _ & Hl & _);
    [vm_compute; reflexivity|]. split; [exact H|]. rewrite Hl. vm_compute. reflexivity.
Defined.

Lemma drain_due_exact_witness :
  drain_due 20 sample_index = ([lit "a"; lit "b"; lit "c"], mkIndex [] 0 true) ∧
  lit "a" ∈ (drain_due 10 sample_index).1.
Proof.
  split; [vm_compute; reflexivity|].
  pose proof (drain_due_exact 10 sample_index sample_index_ok) as H.
  destruct (drain_due 10 sample_index) as [out g'] eqn:E. destruct H as (_ & Hout & _).
  apply Hout. exists 10. split; [|done]. apply (bool_decide_eq_true_1 _). vm_compute. reflexivity.
Defined.
