(* ===== verification/Quota.v ===== *)
(** * Per-tenant quotas ([ferriskv-node/src/quota.rs])

    The quota cache and the usage counters, with the records they keep in
    storage.  The [DashMap]s are finite maps; a counter is the value of its
    [AtomicU64].  JSON ([serde_json]) is a parameter with its round trip as
    contract.  The theorems: what a check admits, that counters never wrap, and
    that the cache and the persisted records stay in agreement. *)

From Stdlib Require Import Strings.Byte.
From S2P Require Import Prelude Bytes Core KeyCodec ValueCodec Storage.

Definition QUOTA_KEY : bytes := lit "quota".
Definition USAGE_KEY : bytes := lit "usage".

Record Quota := mkQuota {
  max_bytes : Z;
  max_ops_per_sec : Z;
}.

Global Instance Quota_eq_dec : EqDecision Quota.
Proof. solve_decision. Defined.

Definition UNLIMITED : Quota := mkQuota 0 0.
Definition default_Quota : Quota := UNLIMITED.

Definition is_unlimited (q : Quota) : bool := (max_bytes q =? 0) && (max_ops_per_sec q =? 0).

Definition Quota_typed (q : Quota) : Prop :=
  u64_ok (max_bytes q) ∧ 0 ≤ max_ops_per_sec q ≤ U32_MAX.

Record TenantUsage := mkUsage {
  tu_used_bytes : Z;
  tu_max_bytes : Z;
  tu_max_ops_per_sec : Z;
}.

Record QuotaStore := mkStore {
  default_quota : Quota;
  quotas : gmap bytes Quota;
  usage : gmap bytes Z;
}.

(** [serde_json::to_vec] and [serde_json::from_slice] at [Quota]; the text of a
    parse error is only logged. *)
Class QuotaJson := {
  to_vec : Quota → string + bytes;
  from_slice : bytes → option Quota;
}.

(** Serialisation of such a struct, two integers, succeeds, is read back and is short. *)
Class QuotaJsonOk `{QuotaJson} : Prop :=
  json_round_trip : ∀ q, Quota_typed q →
    ∃ b, to_vec q = inr b ∧ from_slice b = Some q ∧ len b < 2 ^ 16.

Definition store_new (default_quota : Quota) : QuotaStore := mkStore default_quota ∅ ∅.

Definition quota (qs : QuotaStore) (tenant : bytes) : Quota :=
  default (default_quota qs) (quotas qs !! tenant).

Definition used_bytes (qs : QuotaStore) (tenant : bytes) : Z := default 0 (usage qs !! tenant).

Definition usage_of (qs : QuotaStore) (tenant : bytes) : TenantUsage :=
  let q := quota qs tenant in
  mkUsage (used_bytes qs tenant) (max_bytes q) (max_ops_per_sec q).

Definition tenant_le (a b : bytes * TenantUsage) : Prop := bytes_le a.1 b.1.

Global Instance tenant_le_dec a b : Decision (tenant_le a b).
Proof. unfold tenant_le. apply _. Defined.

(** [list]: the map orders are arbitrary; the result is sorted. *)
Definition list_tenants (qs : QuotaStore) : list (bytes * TenantUsage) :=
  let out := (λ e, (e.1, usage_of qs e.1)) <$> map_to_list (usage qs) in
  let rest := filter (λ e, usage qs !! e.1 = None) (map_to_list (quotas qs)) in
  merge_sort tenant_le (out ++ ((λ e, (e.1, usage_of qs e.1)) <$> rest)).

Definition check_write (qs : QuotaStore) (tenant : bytes) (delta : Z) : result Error unit :=
  let limit := max_bytes (quota qs tenant) in
  if (limit =? 0) || (delta <=? 0) then Ok tt else
  let used := used_bytes qs tenant in
  let after := sat_add64 used delta in
  if limit <? after then Err (QuotaExceeded tenant after limit) else Ok tt.

(** The counter after [delta]; both branches also return it.  The exchange loop
    ends with the saturated difference of the value it last observed. *)
Definition apply_delta (counter delta : Z) : Z :=
  if 0 <=? delta then wrap_add64 counter delta else sat_sub64 counter (- delta).

Definition adjust (tenant : bytes) (delta : Z) (qs : QuotaStore) : Z * QuotaStore :=
  let next := apply_delta (used_bytes qs tenant) delta in
  (next, mkStore (default_quota qs) (quotas qs) (<[tenant:=next]> (usage qs))).

Definition entry_bytes (key_len value_len : Z) : Z := wrap_add64 key_len value_len.

(** [clear], then one [insert] per total. *)
Definition reset_usage (totals : list (bytes * Z)) (qs : QuotaStore) : QuotaStore :=
  mkStore (default_quota qs) (quotas qs)
    (fold_left (λ m '(tenant, total), <[tenant:=total]> m) totals ∅).

Section quota.
Context {S : Type} `{!Storage S} `{QJ : !QuotaJson}.

Definition on_storage {A} (m : M S Error A) : M (QuotaStore * S) Error A :=
  zoom snd (λ s p, (p.1, s)) m.

Definition set_quotas (f : gmap bytes Quota → gmap bytes Quota) (qs : QuotaStore) : QuotaStore :=
  mkStore (default_quota qs) (f (quotas qs)) (usage qs).

Definition set_quota (tenant : bytes) (q : Quota) : M (QuotaStore * S) Error unit :=
  key ← lift (KeyCodec.encode tenant Metadata QUOTA_KEY);
  body ← match to_vec q with
         | inr body => mret body
         | inl e => throw (ConfigError ("encoding quota for " +:+ show_str tenant +:+ ": " +:+ e))
         end;
  on_storage (st_put key (ValueCodec.encode body None));;
  modify (λ p, (set_quotas <[tenant:=q]> p.1, p.2)).

Definition clear_quota (tenant : bytes) : M (QuotaStore * S) Error unit :=
  key ← lift (KeyCodec.encode tenant Metadata QUOTA_KEY);
  on_storage (st_delete key);;
  modify (λ p, (set_quotas (delete tenant) p.1, p.2)).

Definition apply (tenant : bytes) (delta : Z) : M (QuotaStore * S) Error unit :=
  if delta =? 0 then mret tt else
  total ← (λ p, let '(total, qs) := adjust tenant delta p.1 in (Ok total, (qs, p.2)));
  key ← lift (KeyCodec.encode tenant Stats USAGE_KEY);
  on_storage (st_put key (ValueCodec.encode (to_be_bytes 8 total) None)).

(** One turn of [load_quotas]' loop over the stored entries; the second component
    of the state is [loaded]. *)
Definition load_entry (kv : bytes * bytes) : M (QuotaStore * Z) Error unit :=
  match KeyCodec.decode kv.1 with
  | Panic => lift Panic
  | Err _ => mret tt
  | Ok (tenant, subspace, payload) =>
      if negb (bool_decide (subspace = Metadata)) || negb (bool_decide (payload = QUOTA_KEY))
      then mret tt
      else
        stored ← lift (ValueCodec.decode kv.2);
        match from_slice (ValueCodec.value stored) with
        | Some q => modify (λ p, (set_quotas <[tenant:=q]> p.1, p.2 + 1))
        | None => mret tt
        end
  end.

Definition load_quotas : M (QuotaStore * S) Error Z := λ p,
  let qs := set_quotas (λ _, ∅) p.1 in
  match st_scan p.2 [] with
  | Ok l =>
      match for_each load_entry l (qs, 0) with
      | (Ok _, (qs, loaded)) => (Ok loaded, (qs, p.2))
      | (Err e, (qs, _)) => (Err e, (qs, p.2))
      | (Panic, (qs, _)) => (Panic, (qs, p.2))
      end
  | Err e => (Err e, (qs, p.2))
  | Panic => (Panic, (qs, p.2))
  end.

End quota.

(** ** Lemmas *)

Lemma used_bytes_insert t t' n qs :
  used_bytes (mkStore (default_quota qs) (quotas qs) (<[t:=n]> (usage qs))) t' =
  if decide (t' = t) then n else used_bytes qs t'.
Proof.
  unfold used_bytes. simpl. case_decide as E.
  - subst. by rewrite lookup_insert_eq.
  - by rewrite lookup_insert_ne.
Qed.

Lemma apply_delta_exact c d : u64_ok c → 0 ≤ c + d < 2 ^ 64 → apply_delta c d = c + d.
Proof.
  unfold u64_ok. intros Hc Hd. unfold apply_delta, sat_sub64.
  destruct (Z.leb_spec 0 d); [by apply wrap_add64_id|lia].
Qed.

Lemma entry_bytes_exact a b : 0 ≤ a → 0 ≤ b → a + b < 2 ^ 64 → entry_bytes a b = a + b.
Proof. intros. apply wrap_add64_id. unfold u64_ok. lia. Qed.

Lemma reset_usage_lookup totals qs t :
  NoDup (totals.*1) →
  usage (reset_usage totals qs) !! t = (list_to_map totals : gmap bytes Z) !! t.
Proof.
  unfold reset_usage. simpl. intros Hnd.
  assert (∀ m : gmap bytes Z,
    fold_left (λ m '(tenant, total), <[tenant:=total]> m) totals m = list_to_map totals ∪ m) as Hf.
  { induction totals as [|[k n] l IH]; intros m; simpl; [by rewrite (left_id_L ∅ (∪))|].
    csimpl in Hnd. apply NoDup_cons in Hnd as [Hk Hnd]. rewrite IH by done.
    rewrite <-insert_union_l, <-insert_union_r; [done|]. by apply not_elem_of_list_to_map_1. }
  by rewrite Hf, (right_id_L ∅ (∪)).
Qed.

(** ** The cache and the persisted records *)

(** Where a tenant's quota record lives, and what it says. *)
Definition quota_key (tenant : bytes) : bytes := frame tenant Metadata ++ QUOTA_KEY.

Definition quota_of `{QuotaJson} (raw : bytes) : option Quota :=
  match ValueCodec.decode raw with
  | Ok sv => from_slice (ValueCodec.value sv)
  | _ => None
  end.

Definition persisted `{QuotaJson} (m : gmap bytes bytes) (tenant : bytes) : option Quota :=
  if decide (valid_tenant tenant) then m !! quota_key tenant ≫= quota_of else None.

(** What the cache must say, given what storage holds. *)
Definition synced `{QuotaJson} (qs : QuotaStore) (m : gmap bytes bytes) : Prop :=
  ∀ t, quotas qs !! t = persisted m t.

(** Quota records have the value framing. *)
Definition quotas_readable `{QuotaJson} (l : list (bytes * bytes)) : Prop :=
  ∀ t raw, valid_tenant t → (quota_key t, raw) ∈ l →
  ∃ sv, ValueCodec.decode raw = Ok sv.

Lemma quota_key_inj t1 t2 :
  valid_tenant t1 → valid_tenant t2 → quota_key t1 = quota_key t2 → t1 = t2.
Proof. intros [_ [_ H1]] [_ [_ H2]] H. by apply frame_inj in H as (?&_). Qed.

Section synced.
Context `{QJ : !QuotaJson}.

(** What [load_entry] does to the cache, entry by entry. *)
Lemma load_entry_quota t raw sv qs n :
  valid_tenant t → ValueCodec.decode raw = Ok sv →
  ∃ n', load_entry (quota_key t, raw) (qs, n) =
    (Ok tt, (set_quotas (λ m, match quota_of raw with Some q => <[t:=q]> m | None => m end) qs, n')).
Proof.
  intros Ht Hd. unfold load_entry, quota_of. simpl. unfold quota_key.
  rewrite decode_frame, Hd by done. simpl. unfold_monad.
  destruct (from_slice _) eqn:E; [eauto|].
  exists n. by destruct qs.
Qed.

Lemma load_entry_other kv p :
  (∀ t, valid_tenant t → kv.1 ≠ quota_key t) → load_entry kv p = (Ok tt, p).
Proof.
  intros Hk. unfold load_entry. destruct (KeyCodec.decode kv.1) as [[[t s] pl]| |] eqn:E;
    [|done|by apply decode_key_no_panic in E].
  apply decode_key_Ok in E as [Ht Hkv].
  destruct (bool_decide_reflect (s = Metadata)) as [->|]; [|done].
  destruct (bool_decide_reflect (pl = QUOTA_KEY)) as [->|]; [|done].
  by destruct (Hk t Ht).
Qed.

Lemma is_quota_key_dec k :
  (∃ t, valid_tenant t ∧ k = quota_key t) ∨ (∀ t, valid_tenant t → k ≠ quota_key t).
Proof.
  destruct (KeyCodec.decode k) as [[[t s] pl]| |] eqn:E.
  - apply decode_key_Ok in E as [Ht ->].
    destruct (decide (s = Metadata ∧ pl = QUOTA_KEY)) as [[-> ->]|Hn]; [left; eauto|right].
    intros t' [? [? ?]] Heq. apply frame_inj in Heq as (_ & ? & ?); [by destruct Hn|apply Ht|done].
  - right. intros t Ht ->. unfold quota_key in E. by rewrite decode_frame in E.
  - by apply decode_key_no_panic in E.
Qed.

Lemma load_loop l qs n :
  NoDup (l.*1) → quotas_readable l →
  ∃ qs' n', for_each load_entry l (qs, n) = (Ok tt, (qs', n')) ∧
    default_quota qs' = default_quota qs ∧ usage qs' = usage qs ∧
    ∀ t, quotas qs' !! t =
      match persisted (list_to_map l) t with Some q => Some q | None => quotas qs !! t end.
Proof.
  revert qs n. induction l as [|[k raw] l IH]; intros qs n Hnd Hr.
  { exists qs, n. split_and!; [done..|]. intros t. unfold persisted. by case_decide. }
  csimpl in Hnd. apply NoDup_cons in Hnd as [Hk Hnd].
  assert (quotas_readable l) as Hr' by (intros t r Ht Hin; by apply (Hr t r Ht); right).
  destruct (is_quota_key_dec k) as [(t0 & Ht0 & ->)|Hother].
  - destruct (Hr t0 raw Ht0) as (sv & Hd); [left|].
    destruct (load_entry_quota t0 raw sv qs n Ht0 Hd) as [n1 E1].
    set (qs1 := set_quotas _ qs) in E1.
    destruct (IH qs1 n1 Hnd Hr') as (qs' & n' & E & Hdef & Hu & Hq).
    exists qs', n'. split_and!; [|done|done|].
    { cbn [for_each]. unfold_monad. by rewrite E1. }
    intros t. rewrite Hq. unfold persisted. case_decide as Ht; [|unfold qs1; simpl].
    + destruct (decide (t = t0)) as [-> |Hne]; simpl.
      * rewrite lookup_insert_eq. simpl.
        rewrite (not_elem_of_list_to_map_1 (M:=gmap bytes) l) by done. simpl.
        unfold qs1. simpl. destruct (quota_of raw); [by rewrite lookup_insert_eq|done].
      * rewrite lookup_insert_ne by (intros Heq; by apply quota_key_inj in Heq).
        case_match; [done|]. unfold qs1. simpl. destruct (quota_of raw); [|done].
        by rewrite lookup_insert_ne.
    + destruct (quota_of raw); [|done]. rewrite lookup_insert_ne; [done|]. by intros ->.
  - destruct (IH qs n Hnd Hr') as (qs' & n' & E & Hdef & Hu & Hq).
    exists qs', n'. split_and!; [|done|done|].
    { cbn [for_each]. unfold_monad. by rewrite load_entry_other. }
    intros t. rewrite Hq. unfold persisted. case_decide as Ht; [|done].
    simpl. by rewrite lookup_insert_ne by (by apply Hother).
Qed.

Lemma persisted_insert m t raw t' :
  valid_tenant t →
  persisted (<[quota_key t:=raw]> m) t' = if decide (t' = t) then quota_of raw else persisted m t'.
Proof.
  intros Ht. unfold persisted. destruct (decide (t' = t)) as [-> |Hne].
  - by rewrite decide_True, lookup_insert_eq.
  - case_decide; [|done].
    by rewrite lookup_insert_ne by (intros Heq; by apply quota_key_inj in Heq).
Qed.

Lemma persisted_delete m t t' :
  valid_tenant t →
  persisted (delete (quota_key t) m) t' = if decide (t' = t) then None else persisted m t'.
Proof.
  intros Ht. unfold persisted. destruct (decide (t' = t)) as [-> |Hne].
  - by rewrite decide_True, lookup_delete_eq.
  - case_decide; [|done].
    by rewrite lookup_delete_ne by (intros Heq; by apply quota_key_inj in Heq).
Qed.

Context {S : Type} `{!Storage S, !StorageSpec S, !StorageLaws S}.

Lemma encode_quota_key t k :
  KeyCodec.encode t Metadata QUOTA_KEY = Ok k → utf8_valid t = true →
  valid_tenant t ∧ k = quota_key t.
Proof. intros [Hl ->]%encode_Ok Hu. done. Qed.

Lemma entries_all_map (m : gmap bytes bytes) :
  (list_to_map (entries (starts_with []) m) : gmap bytes bytes) = m.
Proof.
  apply map_eq. intros k. apply option_eq. intros v.
  rewrite <-elem_of_list_to_map by apply entries_NoDup. rewrite elem_of_entries. naive_solver.
Qed.

(** ** Properties *)

(** the cache follows storage.  Starting from a cache that agrees with the
    persisted quota records, [set_quota] and [clear_quota] leave the two in
    agreement when they succeed, change the quota of no other tenant, and leave
    the cache alone when they fail. *)
Theorem quota_writes_stay_synced qs s t q (Hs : synced qs (view s))
    (Hu : utf8_valid t = true)
    (Hjson : ∀ b, to_vec q = inr b → from_slice b = Some q)
    (Hadm : ∀ b, to_vec q = inr b → admits s (quota_key t) (ValueCodec.encode b None))
    (Hadm' : admits s (quota_key t) []) :
  (let '(res, (qs', s')) := set_quota t q (qs, s) in
   match res with
   | Ok _ => synced qs' (view s') ∧ quota qs' t = q ∧ usage qs' = usage qs ∧
             ∀ t', t' ≠ t → quota qs' t' = quota qs t'
   | _ => qs' = qs
   end) ∧
  (let '(res, (qs', s')) := clear_quota t (qs, s) in
   match res with
   | Ok _ => synced qs' (view s') ∧ quota qs' t = default_quota qs ∧ usage qs' = usage qs ∧
             ∀ t', t' ≠ t → quota qs' t' = quota qs t'
   | _ => qs' = qs
   end).
Proof.
  split.
  - unfold set_quota, on_storage. unfold_monad.
    destruct (KeyCodec.encode t Metadata QUOTA_KEY) as [k| |] eqn:Ek; [|done..].
    apply encode_quota_key in Ek as [Ht ->]; [|done].
    destruct (to_vec q) as [e|body] eqn:Eb; [done|]. simpl.
    pose proof (put_law s (quota_key t) (ValueCodec.encode body None) (Hadm body eq_refl)) as Hp.
    destruct (st_put _ _ s) as [[[]| |] s']; [|done..]. destruct Hp as [Hv _]. simpl.
    assert (quota_of (ValueCodec.encode body None) = Some q) as Hqo.
    { unfold quota_of. rewrite decode_encode by done. simpl. by rewrite (Hjson body). }
    split_and!; [|by unfold quota; simpl; rewrite lookup_insert_eq|done|].
    + intros t'. rewrite Hv, persisted_insert, Hqo by done. simpl.
      case_decide; [subst; by rewrite lookup_insert_eq|]. by rewrite lookup_insert_ne.
    + intros t' Hne. unfold quota. simpl. by rewrite lookup_insert_ne.
  - unfold clear_quota, on_storage. unfold_monad.
    destruct (KeyCodec.encode t Metadata QUOTA_KEY) as [k| |] eqn:Ek; [|done..].
    apply encode_quota_key in Ek as [Ht ->]; [|done]. simpl.
    pose proof (delete_law s (quota_key t) Hadm') as Hp.
    destruct (st_delete _ s) as [[[]| |] s']; [|done..]. destruct Hp as [Hv _]. simpl.
    split_and!; [|by unfold quota; simpl; rewrite lookup_delete_eq|done|].
    + intros t'. rewrite Hv, persisted_delete by done. simpl.
      case_decide; [subst; by rewrite lookup_delete_eq|]. by rewrite lookup_delete_ne.
    + intros t' Hne. unfold quota. simpl. by rewrite lookup_delete_ne.
Qed.

(** loading restores the quotas.  Whatever the cache held, [load_quotas] on a
    healthy backend whose quota records have the value framing succeeds, leaves
    the cache in agreement with the records (an unparsable record counts as
    absent), and touches neither usage nor storage. *)
Theorem load_quotas_restores qs s (Hh : healthy s)
    (Hr : quotas_readable (map_to_list (view s))) :
  ∃ n qs', load_quotas (qs, s) = (Ok n, (qs', s)) ∧ synced qs' (view s) ∧
    usage qs' = usage qs ∧ default_quota qs' = default_quota qs.
Proof.
  unfold load_quotas. cbn [fst snd]. pose proof (scan_law s []) as Hscan.
  destruct (st_scan s []) as [l| |]; cbn [read_spec] in Hscan; [subst l|done..].
  destruct (load_loop (entries (starts_with []) (view s)) (set_quotas (λ _, ∅) qs) 0)
    as (qs' & n & E & Hd & Hu & Hq).
  - apply entries_NoDup.
  - intros t raw Ht [Hin _]%elem_of_entries. apply (Hr t raw Ht). by apply elem_of_map_to_list.
  - rewrite E. exists n, qs'. split_and!; [done| |done|done].
    intros t. rewrite Hq, entries_all_map. simpl. by case_match.
Qed.

End synced.

(** what the byte quota admits.  [check_write] refuses a write exactly when the
    tenant has a limit, the write grows its usage, and the total would be over the
    limit (a limit of [u64::MAX] is never exceeded); a write that frees bytes is
    admitted whatever the usage; the error reports the total and the limit. *)
Theorem check_write_exact qs t d (Hq : Quota_typed (quota qs t)) (Hu : u64_ok (used_bytes qs t)) :
  let limit := max_bytes (quota qs t) in
  let total := used_bytes qs t + d in
  (check_write qs t d = Ok tt ∧ (limit = 0 ∨ d ≤ 0 ∨ total ≤ limit ∨ limit = U64_MAX)) ∨
  (check_write qs t d = Err (QuotaExceeded t (Z.min total U64_MAX) limit) ∧
   0 < limit ∧ 0 < d ∧ limit < total).
Proof.
  destruct Hq as [Hl _]. unfold check_write, u64_ok, U64_MAX in *.
  set (limit := max_bytes (quota qs t)) in *.
  destruct (Z.eqb_spec limit 0); [left; auto|]. destruct (Z.leb_spec d 0); [left; auto|]. simpl.
  unfold sat_add64, U64_MAX.
  destruct (Z.ltb_spec limit ((used_bytes qs t + d) `min` (2 ^ 64 - 1))).
  - right. split_and!; [done|lia..].
  - left. split; [done|]. lia.
Qed.

(** a usage counter never wraps below zero and never leaves [u64].  For every
    64-bit delta, the new counter is the exact sum when that fits, 0 when the sum
    is negative, and no other tenant's counter moves. *)
Theorem adjust_saturates qs t d (Hu : u64_ok (used_bytes qs t)) (Hd : - 2 ^ 63 ≤ d < 2 ^ 63) :
  let '(next, qs') := adjust t d qs in
  u64_ok next ∧ used_bytes qs' t = next ∧
  (used_bytes qs t + d < 2 ^ 64 → next = Z.max 0 (used_bytes qs t + d)) ∧
  ∀ t', t' ≠ t → used_bytes qs' t' = used_bytes qs t'.
Proof.
  unfold adjust. set (c := used_bytes qs t) in *. unfold u64_ok in *.
  assert (u64_ok (apply_delta c d) ∧ (c + d < 2 ^ 64 → apply_delta c d = Z.max 0 (c + d))) as [Ha Hb].
  { unfold apply_delta, sat_sub64, u64_ok. destruct (Z.leb_spec 0 d).
    - split; [apply Z.mod_pos_bound; lia|]. intros. rewrite wrap_add64_id; unfold u64_ok; lia.
    - split; lia. }
  split_and!; [apply Ha|apply Ha| |done|].
  - rewrite used_bytes_insert. by rewrite decide_True.
  - intros t' Hne. rewrite used_bytes_insert. by rewrite decide_False.
Qed.

(** ** Witnesses

    A concrete serialiser with the round trip the parameter promises: two
    fixed-width integers. *)

Definition sample_json : QuotaJson := {|
  to_vec q := inr (to_be_bytes 8 (max_bytes q) ++ to_be_bytes 4 (max_ops_per_sec q));
  from_slice b :=
    if len b =? 12 then Some (mkQuota (from_be_bytes (take 8 b)) (from_be_bytes (drop 8 b)))
    else None;
|}.

Lemma sample_json_ok : QuotaJsonOk (H:=sample_json).
Proof.
  intros [mb mo] [H1 H2]. unfold u64_ok, U32_MAX in *. cbn [max_bytes max_ops_per_sec] in *.
  eexists. split; [reflexivity|]. split; [|by rewrite len_app, !len_to_be_bytes].
  cbn [from_slice sample_json max_bytes max_ops_per_sec].
  rewrite len_app, !len_to_be_bytes.
  rewrite take_app_length', drop_app_length' by (by rewrite length_to_be_bytes).
  rewrite !from_to_be_bytes_id by (change (256 ^ Z.of_nat 8) with (2 ^ 64);
    change (256 ^ Z.of_nat 4) with (2 ^ 32); lia).
  done.
Qed.

Definition sample_store : QuotaStore := mkStore (mkQuota 100 0) ∅ {[lit "acme" := 90]}.

Lemma quota_writes_stay_synced_witness :
  let '(_, (qs', s')) :=
    set_quota (QJ:=sample_json) (lit "acme") (mkQuota 500 7) (sample_store, mem_new) in
  synced (H:=sample_json) qs' (view s') ∧ quota qs' (lit "acme") = mkQuota 500 7.
Proof.
  pose proof (quota_writes_stay_synced (QJ:=sample_json) sample_store mem_new (lit "acme")
    (mkQuota 500 7)) as H.
  destruct H as [H _].
  - intros t. unfold persisted. by case_decide.
  - reflexivity.
  - intros b [= <-]. vm_compute. reflexivity.
  - done.
  - done.
  - destruct (set_quota _ _ (sample_store, mem_new)) as [[[]| |] [qs' s']] eqn:E;
      [|vm_compute in E; discriminate..].
    split; apply H.
Defined.

Definition sample_storage : MemStorage :=
  {| inner := {[quota_key (lit "acme") :=
      ValueCodec.encode (to_be_bytes 8 500 ++ to_be_bytes 4 7) None]} |}.

Lemma load_quotas_restores_witness :
  ∃ n qs', load_quotas (QJ:=sample_json) (sample_store, sample_storage)
             = (Ok n, (qs', sample_storage)) ∧
    synced (H:=sample_json) qs' (view sample_storage).
Proof.
  destruct (load_quotas_restores (QJ:=sample_json) sample_store sample_storage)
    as (n & qs' & H1 & H2 & _).
  - exact I.
  - intros t raw Ht Hin.
    assert (raw = ValueCodec.encode (to_be_bytes 8 500 ++ to_be_bytes 4 7) None) as ->.
    { apply elem_of_map_to_list in Hin. simpl in Hin.
      apply lookup_singleton_Some in Hin as [_ <-]. reflexivity. }
    eexists. vm_compute. reflexivity.
  - exists n, qs'. split; [exact H1|exact H2].
Defined.

Lemma check_write_exact_witness :
  check_write sample_store (lit "acme") 11 = Err (QuotaExceeded (lit "acme") 101 100).
Proof.
  destruct (check_write_exact sample_store (lit "acme") 11) as [[H _]|[H _]].
  - split; split; vm_compute; congruence.
  - split; vm_compute; congruence.
  - vm_compute in H. discriminate.
  - exact H.
Defined.

Lemma adjust_saturates_witness : used_bytes (adjust (lit "acme") (-200) sample_store).2 (lit "acme") = 0.
Proof.
  pose proof (adjust_saturates sample_store (lit "acme") (-200)) as H.
  destruct (adjust (lit "acme") (-200) sample_store) as [next qs'] eqn:E.
  destruct H as (_ & H2 & H3 & _).
  - split; vm_compute; congruence.
  - lia.
  - simpl. rewrite H2, H3; [vm_compute; reflexivity|vm_compute; reflexivity].
Defined.
