(* ===== verification/Throttle.v ===== *)
(** * Rate limiting ([ferriskv-node/src/throttle.rs])

    One limiter per tenant, built on first use and rebuilt when the tenant's rate
    changes.  The limiter itself is [governor]'s: its type and its two calls are
    a parameter, with what its documentation promises as hypotheses. *)

From S2P Require Import Prelude Bytes Core.

(** [check_n] nests two results: the inner failure is "not yet", the outer one
    "never" (more than the whole allowance). *)
Inductive Verdict := Go | NotYet | Never.

(** A limiter reads its own clock; [now] is what the clock says. *)
Class Governor := {
  Limiter : Type;
  direct : Z → Limiter;                             (* RateLimiter::direct(per_second(rate)) *)
  check_n : Z → Z → Limiter → Verdict * Limiter;  (* now, cost *)
}.

(** What [governor] documents: the allowance of a limiter is fixed when it is
    built, a request for more than it never passes, and a limiter nobody has
    charged yet admits any request within it. *)
Class GovernorOk `{Governor} := {
  rate_of : Limiter → Z;
  direct_rate r : rate_of (direct r) = r;
  check_n_rate now n l : rate_of (check_n now n l).2 = rate_of l;
  check_n_never now n l : (check_n now n l).1 = Never ↔ rate_of l < n;
  check_n_fresh now n r : n ≤ r → (check_n now n (direct r)).1 = Go;
}.

Section throttle.
Context `{G : Governor}.

Record Entry := mkEntry {
  ops_per_sec : Z;
  limiter : Limiter;
}.

Record Throttle := mkThrottle {
  default_ops_per_sec : Z;
  limiters : gmap bytes Entry;
}.

Definition throttle_new (default_ops_per_sec : Z) : Throttle := mkThrottle default_ops_per_sec ∅.

(** The limiter for [tenant] at [rate]; the map it leaves holds it. *)
Definition entry (tenant : bytes) (rate : Z) (t : Throttle) : Entry * Throttle :=
  let fresh :=
    let e := mkEntry rate (direct rate) in
    (e, mkThrottle (default_ops_per_sec t) (<[tenant:=e]> (limiters t))) in
  match limiters t !! tenant with
  | Some existing => if ops_per_sec existing =? rate then (existing, t) else fresh
  | None => fresh
  end.

(** The limiter is shared through its [Arc]: charging it changes the one in the
    map. *)
Definition charge (now cost : Z) (tenant : bytes) (e : Entry) (t : Throttle) : Verdict * Throttle :=
  let '(d, l) := check_n now cost (limiter e) in
  (d, mkThrottle (default_ops_per_sec t) (<[tenant:=mkEntry (ops_per_sec e) l]> (limiters t))).

Definition check (now : Z) (tenant : bytes) (ops_per_sec cost : Z) : M Throttle Error unit := λ t,
  let limit := if 0 <? ops_per_sec then ops_per_sec else default_ops_per_sec t in
  if limit =? 0 then (Ok tt, t) else
  if cost =? 0 then (Ok tt, t) else
  let '(e, t) := entry tenant limit t in
  let '(d, t) := charge now cost tenant e t in
  match d with
  | Go => (Ok tt, t)
  | NotYet => (Err (RateLimited tenant limit), t)
  | Never =>
      (Err (ConfigError ("request costs " +:+ pretty cost +:+ " operations, above the "
              +:+ pretty limit +:+ " per second allowed for " +:+ show_str tenant)), t)
  end.

Definition tracked_tenants (t : Throttle) : Z := Z.of_nat (size (limiters t)).

(** The rate kept beside a limiter is the one it was built for. *)
Definition throttle_ok `{GO : !GovernorOk} (t : Throttle) : Prop :=
  ∀ tenant e, limiters t !! tenant = Some e → rate_of (limiter e) = ops_per_sec e.

Context `{GO : !GovernorOk}.

Lemma entry_spec tenant rate t :
  throttle_ok t →
  let '(e, t') := entry tenant rate t in
  throttle_ok t' ∧ limiters t' !! tenant = Some e ∧ ops_per_sec e = rate ∧
  rate_of (limiter e) = rate ∧ default_ops_per_sec t' = default_ops_per_sec t ∧
  ∀ t0, t0 ≠ tenant → limiters t' !! t0 = limiters t !! t0.
Proof.
  intros Ht. unfold entry.
  assert (throttle_ok (mkThrottle (default_ops_per_sec t)
    (<[tenant:=mkEntry rate (direct rate)]> (limiters t)))) as Hfresh.
  { intros t0 e He. cbn [limiters] in He. apply lookup_insert_Some in He as [[_ <-]|[_ He]];
      [apply direct_rate|by apply (Ht t0)]. }
  assert (∀ t0, t0 ≠ tenant →
    (<[tenant:=mkEntry rate (direct rate)]> (limiters t)) !! t0 = limiters t !! t0) as Hother.
  { intros. by rewrite lookup_insert_ne. }
  destruct (limiters t !! tenant) as [ex|] eqn:E;
    [destruct (Z.eqb_spec (ops_per_sec ex) rate) as [Hr|Hr]|]; simpl.
  - split_and!; [done|done|done| |done|done]. rewrite <-Hr. by apply (Ht tenant).
  - rewrite lookup_insert_eq. split_and!; [done..|apply direct_rate|done|done].
  - rewrite lookup_insert_eq. split_and!; [done..|apply direct_rate|done|done].
Qed.

(** ** Properties *)

(** what a charge does.  A rate or a cost of zero admits without touching
    anything.  Otherwise the tenant is left with a limiter at the rate in force;
    the request is refused for good exactly when it costs more than that rate,
    and may otherwise be admitted or told to wait, always under the rate in force;
    a tenant with no limiter at that rate yet is admitted.  No other tenant's
    limiter changes, and the bookkeeping stays consistent. *)
Theorem check_charges_own_tenant now tenant ops cost t (Hok : throttle_ok t)
    (Hops : 0 ≤ ops) (Hdef : 0 ≤ default_ops_per_sec t) (Hcost : 0 ≤ cost) :
  let limit := if 0 <? ops then ops else default_ops_per_sec t in
  let '(res, t') := check now tenant ops cost t in
  throttle_ok t' ∧ (∀ t0, t0 ≠ tenant → limiters t' !! t0 = limiters t !! t0) ∧
  (limit = 0 ∨ cost = 0 → res = Ok tt ∧ t' = t) ∧
  (0 < limit → 0 < cost →
     (ops_per_sec <$> limiters t' !! tenant) = Some limit ∧
     ((∃ msg, res = Err (ConfigError msg)) ↔ limit < cost) ∧
     (cost ≤ limit → res = Ok tt ∨ res = Err (RateLimited tenant limit)) ∧
     (cost ≤ limit → (ops_per_sec <$> limiters t !! tenant) ≠ Some limit → res = Ok tt)).
Proof.
  intros limit. unfold check. fold limit.
  assert (0 ≤ limit) by (unfold limit; destruct (Z.ltb_spec 0 ops); lia).
  destruct (Z.eqb_spec limit 0) as [Hl|Hl]; [split_and!; [done..|lia]|].
  destruct (Z.eqb_spec cost 0) as [Hc|Hc]; [split_and!; [done..|lia]|].
  pose proof (entry_spec tenant limit t Hok) as He.
  destruct (entry tenant limit t) as [e t1] eqn:Ee.
  destruct He as (Hok1 & Hin & Hrate & Hr & _ & Hother). unfold charge.
  pose proof (check_n_rate now cost (limiter e)) as Hrate'.
  pose proof (check_n_never now cost (limiter e)) as Hnever.
  assert (cost ≤ limit → (ops_per_sec <$> limiters t !! tenant) ≠ Some limit →
    (check_n now cost (limiter e)).1 = Go) as Hfresh.
  { intros Hle Hne. unfold entry in Ee. destruct (limiters t !! tenant) as [ex|] eqn:Ex; simpl in Hne.
    - rewrite (proj2 (Z.eqb_neq _ _)) in Ee by (intros E; by rewrite E in Hne).
      injection Ee as <- <-. by apply check_n_fresh.
    - injection Ee as <- <-. by apply check_n_fresh. }
  destruct (check_n now cost (limiter e)) as [d l]. simpl in *.
  assert (throttle_ok (mkThrottle (default_ops_per_sec t1)
    (<[tenant:=mkEntry (ops_per_sec e) l]> (limiters t1)))) as Hok2.
  { intros t0 e0 He0. cbn [limiters] in He0. apply lookup_insert_Some in He0 as [[_ <-]|[_ He0]];
      [simpl; congruence|by apply (Hok1 t0)]. }
  assert (∀ t0, t0 ≠ tenant →
    (<[tenant:=mkEntry (ops_per_sec e) l]> (limiters t1)) !! t0 = limiters t !! t0) as Hother2.
  { intros t0 Ht0. rewrite lookup_insert_ne by done. by apply Hother. }
  rewrite Hr in Hnever.
  assert (d ≠ Never → ¬ limit < cost) as Hwithin by (intros Hd Hlt; by apply Hd, Hnever).
  destruct d; cbn [default_ops_per_sec limiters].
  all: split_and!; [done|done|intros [?|?]; lia|intros _ _].
  all: rewrite lookup_insert_eq; cbn [fmap option_fmap option_map ops_per_sec]; rewrite Hrate.
  - split_and!; [done| |auto|auto]. split; [intros [? [=]]|by intros []%Hwithin].
  - split_and!; [done| |auto|].
    + split; [intros [? [=]]|by intros []%Hwithin].
    + intros Hle Hne. by specialize (Hfresh Hle Hne).
  - assert (limit < cost) by (by apply Hnever).
    split_and!; [done|split; [done|by eexists]|lia|lia].
Qed.

(** a per-tenant rate of 0 is not "unlimited": the node's default applies, and
    the tenant is throttled exactly as one whose own rate is that default. *)
Theorem zero_rate_means_node_default now tenant cost t (Hd : 0 < default_ops_per_sec t) :
  check now tenant 0 cost t = check now tenant (default_ops_per_sec t) cost t.
Proof.
  unfold check. simpl. by rewrite (proj2 (Z.ltb_lt 0 (default_ops_per_sec t))).
Qed.

End throttle.

Global Arguments Throttle G : clear implicits, assert.

(** ** Witnesses: a limiter that refills completely every second. *)

Definition sample_governor : Governor := {|
  Limiter := Z * Z * Z;   (* rate, second of the last charge, left in that second *)
  direct r := (r, 0, r);
  check_n now n l :=
    let '(r, sec, left_) := l in
    let left_ := if sec <? now / 1000 then r else left_ in
    if r <? n then (Never, l)
    else if n <=? left_ then (Go, (r, now / 1000, left_ - n))
    else (NotYet, l);
|}.

Definition sample_governor_ok : GovernorOk (H:=sample_governor).
Proof.
  refine {| rate_of := λ l : @Limiter sample_governor, l.1.1 |}; simpl.
  - done.
  - intros now n [[r sec] lf]. simpl. by repeat case_match.
  - intros now n [[r sec] lf]. simpl. destruct (Z.ltb_spec r n); [done|].
    split; [|lia]. repeat case_match; done.
  - intros now n r Hn. destruct (Z.ltb_spec r n); [lia|].
    destruct (0 <? now / 1000); destruct (Z.leb_spec n r); done || lia.
Defined.

Definition sample_throttle : Throttle sample_governor :=
  (check 0 (lit "acme") 0 8 (throttle_new (G:=sample_governor) 10)).2.

Lemma check_charges_own_tenant_witness :
  (check 5 (lit "acme") 0 3 sample_throttle).1 = Err (RateLimited (lit "acme") 10) ∧
  (check 5 (lit "acme") 0 8 (throttle_new (G:=sample_governor) 10)).1 = Ok tt.
Proof.
  split; [vm_compute; reflexivity|].
  pose proof (check_charges_own_tenant (GO:=sample_governor_ok) 5 (lit "acme") 0 8
    (throttle_new (G:=sample_governor) 10)) as H.
  destruct (check 5 (lit "acme") 0 8 (throttle_new (G:=sample_governor) 10)) as [res t'].
  destruct H as (_ & _ & _ & H).
  - intros t0 e0 He0. vm_compute in He0. discriminate.
  - lia.
  - simpl. lia.
  - lia.
  - simpl in H. apply H; [lia..|discriminate].
Defined.

Lemma zero_rate_means_node_default_witness :
  (check 5 (lit "acme") 0 11 sample_throttle).1 ≠ Ok tt.
Proof.
  rewrite (zero_rate_means_node_default (G:=sample_governor) 5 (lit "acme") 11 sample_throttle);
    [|reflexivity].
  vm_compute. discriminate.
Defined.
