(* ===== verification/Watch.v ===== *)
(** * Change notification ([ferriskv-node/src/watch.rs])

    A broadcast channel per watched tenant.  The channel is [tokio]'s: its
    handles and calls are a parameter with the documented delivery contract as
    hypotheses.  The theorems: a change reaches the receivers of its own tenant,
    in order, and nobody else's; publishing never creates a channel, and collects
    one whose last receiver left; a receiver that arrives while its channel is being
    collected is cut off. *)

From S2P Require Import Prelude Bytes.

Inductive ChangeKind := ChangePut | ChangeDelete.

Global Instance ChangeKind_eq_dec : EqDecision ChangeKind.
Proof. solve_decision. Defined.

Record KeyChange := mkChange {
  kind : ChangeKind;
  change_key : bytes;
  change_value : bytes;
}.

Global Instance KeyChange_eq_dec : EqDecision KeyChange.
Proof. solve_decision. Defined.

(** [tokio::sync::broadcast] at [KeyChange].  [bc_channel] panics on a capacity of
    0 or above [usize::MAX / 2]; [bc_send] reports whether anyone was listening. *)
Class Broadcast := {
  Sender : Type;
  Receiver : Type;
  bc_channel : Z → result Empty_set Sender;   (* channel(capacity).0: its own receiver is dropped *)
  bc_subscribe : Sender → Receiver * Sender;
  receiver_count : Sender → Z;
  bc_send : KeyChange → Sender → bool * Sender;
  bc_drop : Receiver → Sender → Sender;       (* the receiver goes out of scope *)
}.

(** The capacities a channel can have: [usize] is 64 bits wide. *)
Definition channel_capacity (cap : Z) : Prop := 0 < cap ≤ U64_MAX / 2.

(** The contract: a receiver is handed every change sent after it subscribed, in
    order ([bc_feed], before any lag is taken into account), and
    [receiver_count] counts the receivers that are alive. *)
Class BroadcastOk `{Broadcast} := {
  receiver_eq_dec :: EqDecision Receiver;
  bc_feed : Sender → Receiver → option (list KeyChange);   (* None: not a live receiver *)
  bc_channel_ok cap : channel_capacity cap → ∃ s, bc_channel cap = Ok s ∧ ∀ r, bc_feed s r = None;
  bc_channel_panics cap : 0 ≤ cap → ¬ channel_capacity cap → bc_channel cap = Panic;
  bc_subscribe_ok s :
    let '(r, s') := bc_subscribe s in
    bc_feed s r = None ∧ bc_feed s' r = Some [] ∧ ∀ r', r' ≠ r → bc_feed s' r' = bc_feed s r';
  bc_send_ok c s r : bc_feed (bc_send c s).2 r = (.++ [c]) <$> bc_feed s r;
  bc_drop_ok r s r' : bc_feed (bc_drop r s) r' = if decide (r' = r) then None else bc_feed s r';
  receiver_count_nonneg s : 0 ≤ receiver_count s;
  receiver_count_pos s : 0 < receiver_count s ↔ ∃ r l, bc_feed s r = Some l;
}.

Section watch.
Context `{B : Broadcast}.

Record WatchHub := mkHub {
  capacity : Z;
  channels : gmap bytes Sender;
}.

Definition hub_new (capacity : Z) : WatchHub := mkHub capacity ∅.

Definition set_channel (tenant : bytes) (tx : Sender) (h : WatchHub) : WatchHub :=
  mkHub (capacity h) (<[tenant:=tx]> (channels h)).

Definition subscribe (tenant : bytes) : M WatchHub Empty_set Receiver := λ h,
  match channels h !! tenant with
  | Some tx =>
      let '(rx, tx) := bc_subscribe tx in (Ok rx, set_channel tenant tx h)
  | None =>
      match bc_channel (capacity h) with
      | Ok tx => let '(rx, tx) := bc_subscribe tx in (Ok rx, set_channel tenant tx h)
      | Err e => (Err e, h)
      | Panic => (Panic, h)
      end
  end.

Definition is_watched (h : WatchHub) (tenant : bytes) : bool :=
  match channels h !! tenant with
  | Some tx => 0 <? receiver_count tx
  | None => false
  end.

Definition publish (tenant : bytes) (change : KeyChange) (h : WatchHub) : WatchHub :=
  match channels h !! tenant with
  | None => h
  | Some tx =>
      if receiver_count tx =? 0 then mkHub (capacity h) (delete tenant (channels h))
      else set_channel tenant (bc_send change tx).2 h
  end.

(** [publish] holds the tenant's entry while it looks at it and lets go of it before
    it removes it: its two halves. *)
Definition publish_look (tenant : bytes) (change : KeyChange) (h : WatchHub) : bool * WatchHub :=
  match channels h !! tenant with
  | None => (false, h)
  | Some tx =>
      if receiver_count tx =? 0 then (true, h)
      else (false, set_channel tenant (bc_send change tx).2 h)
  end.

Definition publish_collect (tenant : bytes) (abandoned : bool) (h : WatchHub) : WatchHub :=
  if abandoned then mkHub (capacity h) (delete tenant (channels h)) else h.

(** A receiver of a tenant's channel goes out of scope. *)
Definition unsubscribe (tenant : bytes) (r : Receiver) (h : WatchHub) : WatchHub :=
  match channels h !! tenant with
  | Some tx => set_channel tenant (bc_drop r tx) h
  | None => h
  end.

Definition watched_tenants (h : WatchHub) : Z := Z.of_nat (size (channels h)).

Definition subscriber_count (h : WatchHub) (tenant : bytes) : Z :=
  match channels h !! tenant with
  | Some tx => receiver_count tx
  | None => 0
  end.

Context `{BO : !BroadcastOk}.

(** What a receiver of a tenant has been handed so far. *)
Definition feed (h : WatchHub) (tenant : bytes) (r : Receiver) : option (list KeyChange) :=
  tx ← channels h !! tenant; bc_feed tx r.

Lemma feed_set_channel h t tx t' r :
  feed (set_channel t tx h) t' r = if decide (t' = t) then bc_feed tx r else feed h t' r.
Proof.
  unfold feed, set_channel. simpl. case_decide as E.
  - subst. by rewrite lookup_insert_eq.
  - by rewrite lookup_insert_ne.
Qed.

Lemma is_watched_feed h t : is_watched h t = true ↔ ∃ r l, feed h t r = Some l.
Proof.
  unfold is_watched, feed. destruct (channels h !! t) as [tx|]; simpl; [|naive_solver].
  by rewrite Z.ltb_lt, receiver_count_pos.
Qed.

Lemma receiver_count_none tx r : receiver_count tx = 0 → bc_feed tx r = None.
Proof.
  intros Hz. destruct (bc_feed tx r) as [l|] eqn:E; [|done].
  assert (0 < receiver_count tx) by (apply receiver_count_pos; eauto). lia.
Qed.

Lemma feed_publish t c h t' r :
  feed (publish t c h) t' r = if decide (t' = t) then (.++ [c]) <$> feed h t r else feed h t' r.
Proof.
  unfold publish. destruct (channels h !! t) as [tx|] eqn:E.
  - destruct (Z.eqb_spec (receiver_count tx) 0) as [Hz|Hz].
    + unfold feed. simpl. case_decide as Ht.
      * subst. rewrite lookup_delete_eq, E. simpl. by rewrite receiver_count_none.
      * by rewrite lookup_delete_ne.
    + rewrite feed_set_channel. case_decide as Ht; [|done]. subst.
      unfold feed. rewrite E. simpl. apply bc_send_ok.
  - case_decide as Ht; [|done]. subst. unfold feed. by rewrite E.
Qed.

Lemma feed_subscribe t h :
  channel_capacity (capacity h) →
  ∃ r h', subscribe t h = (Ok r, h') ∧ feed h t r = None ∧ feed h' t r = Some [] ∧
    capacity h' = capacity h ∧ ∀ t' r', (t', r') ≠ (t, r) → feed h' t' r' = feed h t' r'.
Proof.
  intros Hc. unfold subscribe. destruct (channels h !! t) as [tx|] eqn:E.
  - pose proof (bc_subscribe_ok tx) as Hs. destruct (bc_subscribe tx) as [r tx'].
    destruct Hs as (H1 & H2 & H3). exists r, (set_channel t tx' h).
    split_and!; [done|by unfold feed; rewrite E|by rewrite feed_set_channel, decide_True|done|].
    intros t' r' Hne. rewrite feed_set_channel. case_decide as Ht; [|done]. subst.
    unfold feed. rewrite E. simpl. apply H3. congruence.
  - destruct (bc_channel_ok (capacity h) Hc) as (tx & -> & Hnone).
    pose proof (bc_subscribe_ok tx) as Hs. destruct (bc_subscribe tx) as [r tx'].
    destruct Hs as (H1 & H2 & H3). exists r, (set_channel t tx' h).
    split_and!; [done|by unfold feed; rewrite E|by rewrite feed_set_channel, decide_True|done|].
    intros t' r' Hne. rewrite feed_set_channel. case_decide as Ht; [|done]. subst.
    unfold feed. rewrite E. simpl. rewrite H3, Hnone; [done|congruence].
Qed.

(** A tenant nobody watches cannot be watched on a hub whose buffer is too large. *)
Lemma subscribe_panics t h :
  0 ≤ capacity h → ¬ channel_capacity (capacity h) → channels h !! t = None → (subscribe t h).1 = Panic.
Proof. intros H0 Hc E. unfold subscribe. by rewrite E, bc_channel_panics. Qed.

Lemma feed_unsubscribe t r h t' r' :
  feed (unsubscribe t r h) t' r' =
    if decide (t' = t ∧ r' = r) then None else feed h t' r'.
Proof.
  unfold unsubscribe, feed. destruct (channels h !! t) as [tx|] eqn:E; simpl.
  - destruct (decide (t' = t)) as [->|Hne].
    + rewrite lookup_insert_eq, E. simpl. rewrite bc_drop_ok.
      destruct (decide (r' = r)) as [->|Hr]; [by rewrite decide_True|].
      by rewrite decide_False by naive_solver.
    + rewrite lookup_insert_ne by done. by rewrite decide_False by naive_solver.
  - case_decide as Ht; [|done]. destruct Ht as [-> ->]. by rewrite E.
Qed.

Lemma publish_halves t c h :
  publish t c h = publish_collect t (publish_look t c h).1 (publish_look t c h).2.
Proof. unfold publish, publish_look. by repeat case_match. Qed.

(** A run of publications. *)
Fixpoint publish_all (cs : list (bytes * KeyChange)) (h : WatchHub) : WatchHub :=
  match cs with
  | [] => h
  | (t, c) :: cs => publish_all cs (publish t c h)
  end.

(** The changes of one tenant, in the order they were published. *)
Definition changes_of (t : bytes) (cs : list (bytes * KeyChange)) : list KeyChange :=
  (filter (λ tc, tc.1 = t) cs).*2.

Lemma feed_publish_all cs h t r :
  feed (publish_all cs h) t r = (.++ changes_of t cs) <$> feed h t r.
Proof.
  revert h. induction cs as [|[t0 c] cs IH]; intros h; simpl.
  { unfold changes_of. destruct (feed h t r); simpl; by rewrite ?app_nil_r. }
  rewrite IH, feed_publish. unfold changes_of.
  destruct (decide (t = t0)) as [<-|Hne].
  - rewrite filter_cons_True by done. csimpl.
    destruct (feed h t r); simpl; [|done]. by rewrite <-app_assoc.
  - by rewrite filter_cons_False by (simpl; congruence).
Qed.

(** ** Properties *)

(** a watcher is handed exactly its tenant's changes.  Subscribing succeeds
    (the buffer size being one a channel can have) and hands out a receiver that no one else
    holds; from then on, whatever is published for whatever tenants, what that
    receiver is handed is the list of changes of its own tenant, complete and in
    order, and the receivers that were there before see their own tenant's
    changes and nothing of the new subscription. *)
Theorem watch_feed_complete t h cs (Hc : channel_capacity (capacity h)) :
  ∃ r h', subscribe t h = (Ok r, h') ∧ feed h t r = None ∧
    feed (publish_all cs h') t r = Some (changes_of t cs) ∧
    ∀ t' r', (t', r') ≠ (t, r) →
      feed (publish_all cs h') t' r' = (.++ changes_of t' cs) <$> feed h t' r'.
Proof.
  destruct (feed_subscribe t h Hc) as (r & h' & E & Hn & Hs & _ & Hother).
  exists r, h'. split_and!; [done|done|by rewrite feed_publish_all, Hs|].
  intros t' r' Hne. by rewrite feed_publish_all, Hother.
Qed.

(** publishing keeps the channel map small.  It never adds a channel; with no
    live receiver it removes the tenant's, so that a tenant is watched after a
    publication exactly when it was watched before. *)
Theorem publish_collects t c h :
  dom (channels (publish t c h)) ⊆ dom (channels h) ∧
  (is_watched h t = false → channels (publish t c h) !! t = None) ∧
  (∀ t', is_watched (publish t c h) t' = is_watched h t').
Proof.
  split_and!.
  - unfold publish. destruct (channels h !! t) as [tx|] eqn:E; [|done].
    case_match; simpl; [set_solver|]. rewrite dom_insert_L.
    assert (t ∈ dom (channels h)) by (apply elem_of_dom; eauto). set_solver.
  - unfold is_watched, publish. destruct (channels h !! t) as [tx|] eqn:E; [|done].
    pose proof (receiver_count_nonneg tx). rewrite Z.ltb_ge. intros Hz.
    rewrite (proj2 (Z.eqb_eq _ _)) by lia. simpl. by rewrite lookup_delete_eq.
  - intros t'. apply eq_bool_prop_intro. rewrite !Is_true_true, !is_watched_feed.
    setoid_rewrite feed_publish. case_decide as Ht; [|done]. subst. split.
    + intros (r & l & Hr). destruct (feed h t r) eqn:E; [eauto|done].
    + intros (r & l & Hr). exists r. rewrite Hr. simpl. eauto.
Qed.

(** A subscription that falls between the two halves of a publication is lost.  The
    tenant's channel has no receiver, and a publication finds it abandoned; a watcher
    subscribes and is given a live receiver; the publication removes the channel.
    Whatever is published afterwards, the watcher is handed nothing, and the tenant
    counts as unwatched. *)
Theorem subscriber_lost_to_collection t c h cs :
  channel_capacity (capacity h) → is_Some (channels h !! t) → is_watched h t = false →
  ∃ r h1 h2, publish_look t c h = (true, h) ∧ subscribe t h = (Ok r, h1) ∧
    feed h1 t r = Some [] ∧ is_watched h1 t = true ∧
    h2 = publish_collect t true h1 ∧ is_watched h2 t = false ∧
    feed (publish_all cs h2) t r = None.
Proof.
  intros Hc [tx Htx] Hw. destruct (feed_subscribe t h Hc) as (r & h1 & E & _ & Hf & _).
  exists r, h1, (publish_collect t true h1). split_and!; try done.
  - unfold publish_look, is_watched in *. rewrite Htx in *. apply Z.ltb_ge in Hw.
    pose proof (receiver_count_nonneg tx). by rewrite (proj2 (Z.eqb_eq _ _)) by lia.
  - apply is_watched_feed. eauto.
  - unfold is_watched. simpl. by rewrite lookup_delete_eq.
  - rewrite feed_publish_all. unfold feed. simpl. by rewrite lookup_delete_eq.
Qed.

(** A watcher that leaves takes nothing from the others, and when the last one has
    left, the next change of the tenant collects its channel. *)
Theorem last_watcher_collected t r c h :
  (∀ r', is_Some (feed h t r') → r' = r) →
  channels (publish t c (unsubscribe t r h)) !! t = None ∧
  ∀ t' r', t' ≠ t → feed (publish t c (unsubscribe t r h)) t' r' = feed h t' r'.
Proof.
  intros Hlast. split.
  - apply publish_collects. apply not_true_iff_false. rewrite is_watched_feed.
    intros (r' & l & Hl). rewrite feed_unsubscribe in Hl.
    destruct (decide _) as [|Hne] in Hl; [done|]. apply Hne. split; [done|]. eauto.
  - intros t' r' Hne. rewrite feed_publish, decide_False by done.
    by rewrite feed_unsubscribe, decide_False by naive_solver.
Qed.

End watch.

Global Arguments WatchHub B : clear implicits, assert.

(** ** Witness: a channel that keeps every receiver's feed. *)

Definition live_feeds (s : list (option (list KeyChange))) : list (list KeyChange) := omap id s.

Definition hand_to_all (c : KeyChange) (s : list (option (list KeyChange))) :
    list (option (list KeyChange)) :=
  fmap (M:=option) (.++ [c]) <$> s.

Definition sample_broadcast : Broadcast := {|
  Sender := list (option (list KeyChange));
  Receiver := nat;
  bc_channel cap := if (0 <? cap) && negb (U64_MAX / 2 <? cap) then Ok [] else Panic;
  bc_subscribe s := (length s, s ++ [Some []]);
  receiver_count s := len (live_feeds s);
  bc_send c s := (negb (bool_decide (live_feeds s = [])), hand_to_all c s);
  bc_drop r s := <[r:=None]> s;
|}.

Definition sample_broadcast_ok : BroadcastOk (H:=sample_broadcast).
Proof.
  refine (Build_BroadcastOk sample_broadcast Nat.eq_dec
    (λ (s : @Sender sample_broadcast) (r : @Receiver sample_broadcast),
       mjoin ((s : list (option (list KeyChange))) !! (r : nat))) _ _ _ _ _ _ _); simpl.
  - intros cap [H1 H2]. exists []. by rewrite (proj2 (Z.ltb_lt 0 cap)), (proj2 (Z.ltb_ge _ _)).
  - intros cap Hc Hno. destruct (Z.ltb_spec 0 cap), (Z.ltb_spec (U64_MAX / 2) cap); try done.
    destruct Hno. by split.
  - intros s. split_and!; [by rewrite lookup_ge_None_2|by rewrite list_lookup_middle|].
    intros r Hr. destruct (Nat.lt_ge_cases r (length s)).
    + by rewrite lookup_app_l.
    + rewrite !lookup_ge_None_2; [done|done|]. rewrite length_app. simpl. lia.
  - intros c s r. unfold hand_to_all. rewrite list_lookup_fmap. by destruct (s !! r).
  - intros r s r'. case_decide as Hr.
    + subst. destruct (decide (r < length s)%nat).
      * by rewrite list_lookup_insert_eq.
      * by rewrite list_insert_ge, lookup_ge_None_2 by lia.
    + by rewrite list_lookup_insert_ne.
  - intros s. apply len_nonneg.
  - intros s. unfold len, live_feeds. split.
    + intros Hpos. destruct (omap id s) as [|l ls] eqn:E; [simpl in Hpos; lia|].
      assert (l ∈ omap id s) as (o & Ho & Hl)%list_elem_of_omap by (rewrite E; left).
      apply list_elem_of_lookup in Ho as [r Hr]. exists r, l. by rewrite Hr, <-Hl.
    + intros (r & l & Hr). destruct (s !! r) as [[l'|]|] eqn:E; simplify_eq/=.
      assert (l ∈ omap id s) as Hin.
      { apply list_elem_of_omap. exists (Some l). split; [by eapply list_elem_of_lookup_2|done]. }
      destruct (omap id s); [by apply elem_of_nil in Hin|]. simpl. lia.
Defined.

Lemma watch_feed_complete_witness :
  let c1 := mkChange ChangePut (lit "k") (lit "1") in
  let c2 := mkChange ChangeDelete (lit "k") [] in
  ∃ r h', subscribe (B:=sample_broadcast) (lit "acme") (hub_new 16) = (Ok r, h') ∧
    feed (BO:=sample_broadcast_ok)
      (publish_all [(lit "acme", c1); (lit "other", c2); (lit "acme", c2)] h') (lit "acme") r
    = Some [c1; c2].
Proof.
  intros c1 c2.
  destruct (watch_feed_complete (BO:=sample_broadcast_ok) (lit "acme") (hub_new 16)
    [(lit "acme", c1); (lit "other", c2); (lit "acme", c2)]) as (r & h' & H1 & _ & H2 & _);
    [by vm_compute|].
  exists r, h'. split; [exact H1|exact H2].
Defined.

Lemma publish_collects_witness :
  channels (publish (B:=sample_broadcast) (lit "acme") (mkChange ChangeDelete [] [])
              (set_channel (B:=sample_broadcast) (lit "acme") [] (hub_new 16))) !! lit "acme" = None.
Proof.
  destruct (publish_collects (BO:=sample_broadcast_ok) (lit "acme") (mkChange ChangeDelete [] [])
    (set_channel (B:=sample_broadcast) (lit "acme") [] (hub_new 16))) as (_ & H & _).
  apply H. vm_compute. reflexivity.
Defined.

(** A watcher came and left, a change finds the channel
    abandoned, and a second watcher arrives before it is removed. *)
Lemma subscriber_lost_to_collection_witness :
  let t := lit "acme" in
  let c := mkChange ChangePut (lit "k") (lit "v") in
  let h := unsubscribe (B:=sample_broadcast) t 0%nat (subscribe t (hub_new 16)).2 in
  ∃ r h1, publish_look t c h = (true, h) ∧ subscribe t h = (Ok r, h1) ∧ is_watched h1 t = true ∧
    feed (BO:=sample_broadcast_ok) (publish_all [(t, c)] (publish_collect t true h1)) t r = None.
Proof.
  intros t c h.
  destruct (subscriber_lost_to_collection (BO:=sample_broadcast_ok) t c h [(t, c)])
    as (r & h1 & h2 & H1 & H2 & _ & H3 & -> & _ & H4);
    [by vm_compute|by eexists; vm_compute|by vm_compute|].
  exists r, h1. split_and!; assumption.
Defined.
