(* ===== verification/Config.v ===== *)
(** * Node configuration ([ferriskv-node/src/config.rs])

    The configuration record, its defaults and its validation.  A path is kept in
    component form; whether it exists is a question to the file system, asked of
    the environment. *)

From S2P Require Import Prelude Bytes Core.

(** [PathBuf]: a root, if absolute, and the components below it. *)
Record Path := mkPath {
  absolute : bool;
  components : list string;
}.

(** [Path::parent], [Path::as_os_str().is_empty()] and [Path::display]. *)
Definition parent (p : Path) : option Path :=
  match components p with
  | [] => None
  | _ :: _ => Some (mkPath (absolute p) (removelast (components p)))
  end.

Definition path_is_empty (p : Path) : bool :=
  negb (absolute p) && bool_decide (components p = []).

Definition display (p : Path) : string :=
  (if absolute p then "/" else "") +:+ String.concat "/" (components p).

Record TlsConfig := {
  cert_path : Path;
  key_path : Path;
}.

Record AuthConfig := {
  insecure : bool;
  public_key_path : option Path;
}.

Definition default_AuthConfig : AuthConfig := {| insecure := false; public_key_path := None |}.

Record QuotaConfig := {
  default_max_bytes : Z;
  default_max_ops_per_sec : Z;
}.

Definition default_QuotaConfig : QuotaConfig :=
  {| default_max_bytes := 0; default_max_ops_per_sec := 0 |}.

Inductive Backend := BackendMemory | BackendFjall.

Global Instance Backend_eq_dec : EqDecision Backend.
Proof. solve_decision. Defined.

Record NodeConfig := {
  node_id : bytes;
  listen : string;
  data_dir : Path;
  coord_endpoints : list string;
  backend : Backend;
  limits : Limits;
  auth : AuthConfig;
  tls : option TlsConfig;
  admin_listen : option string;
  ttl_sweep_interval_secs : Z;
  shutdown_timeout_secs : Z;
  quota_config : QuotaConfig;
  watch_buffer : Z;
  watch_heartbeat_secs : Z;
  wal_rotate_bytes : Z;
}.

Definition default_backend : Backend := BackendFjall.
Definition default_shutdown_secs : Z := 10.
Definition default_ttl_sweep_interval_secs : Z := 60.
Definition default_wal_rotate_bytes : Z := 64 * 1024 * 1024.
Definition default_watch_buffer : Z := 1024.
Definition default_watch_heartbeat_secs : Z := 30.

(** The files [load] and [load_public_key] read come from the environment too. *)
Section load.
Context (read : Path → result string bytes).

Definition TlsConfig_load (t : TlsConfig) : result string (bytes * bytes) :=
  cert ← map_err (λ e, "read " +:+ display (cert_path t) +:+ ": " +:+ e) (read (cert_path t));
  key ← map_err (λ e, "read " +:+ display (key_path t) +:+ ": " +:+ e) (read (key_path t));
  mret (cert, key).

Definition load_public_key (a : AuthConfig) : result string (option bytes) :=
  match public_key_path a with
  | Some path =>
      bytes ← map_err (λ e, "read public_key_path " +:+ display path +:+ ": " +:+ e) (read path);
      mret (Some bytes)
  | None => mret None
  end.

End load.

(** A guard, and a step whose value is not used. *)
Lemma guard_Ok {E} (b : bool) (e : E) (k : result E unit) :
  (if b then Err e else k) = Ok tt ↔ b = false ∧ k = Ok tt.
Proof. destruct b; naive_solver. Qed.

Lemma then_Ok {E} (x k : result E unit) : (x;; k) = Ok tt ↔ x = Ok tt ∧ k = Ok tt.
Proof. destruct x as [[]| |]; unfold mbind, result_bind; naive_solver. Qed.

Section validate.
Context (exists_ : Path → bool).

Definition TlsConfig_validate (t : TlsConfig) : result string unit :=
  if negb (exists_ (cert_path t)) then
    Err ("tls.cert_path does not exist: " +:+ display (cert_path t))
  else if negb (exists_ (key_path t)) then
    Err ("tls.key_path does not exist: " +:+ display (key_path t))
  else Ok tt.

Definition AuthConfig_validate (a : AuthConfig) : result string unit :=
  if insecure a then Ok tt else
  match public_key_path a with
  | None => Err "auth: set insecure=true or provide public_key_path"%string
  | Some _ => Ok tt
  end.

Definition validate (c : NodeConfig) : result string unit :=
  if len (node_id c) =? 0 then Err "node_id must not be empty"%string else
  if 255 <? len (node_id c) then Err "node_id exceeds 255 bytes"%string else
  Limits_validate (limits c);;
  AuthConfig_validate (auth c);;
  match tls c with
  | Some t => TlsConfig_validate t
  | None => Ok tt
  end;;
  if shutdown_timeout_secs c =? 0 then Err "shutdown_timeout_secs must be > 0"%string else
  if wal_rotate_bytes c <? 4096 then Err "wal_rotate_bytes must be at least 4096"%string else
  if watch_buffer c <? 2 then Err "watch_buffer must be at least 2"%string else
  if watch_heartbeat_secs c =? 0 then Err "watch_heartbeat_secs must be > 0"%string else
  match parent (data_dir c) with
  | Some p =>
      if negb (path_is_empty p) && negb (exists_ p) then
        Err ("data_dir parent does not exist: " +:+ display p)
      else Ok tt
  | None => Ok tt
  end.

(** ** Properties *)

(** what validation checks.  A configuration is
    accepted exactly when: the node has a name of 1 to 255 bytes; every limit is
    positive; either authentication is declared insecure or a public key is
    configured; TLS files, if configured, exist; the shutdown timeout and the
    heartbeat are positive; the rotation threshold is at least 4096 bytes; the
    watch buffer holds at least two events; and the data directory can be created.
    Nothing is bounded from above. *)
Theorem validate_guarantees c
    (Hbuf : 0 ≤ watch_buffer c) (Hbeat : 0 ≤ watch_heartbeat_secs c)
    (Hshut : 0 ≤ shutdown_timeout_secs c) :
  validate c = Ok tt ↔
  1 ≤ len (node_id c) ≤ 255 ∧
  (max_key_size (limits c) ≠ 0 ∧ max_value_size (limits c) ≠ 0 ∧
   max_batch_ops (limits c) ≠ 0 ∧ max_scan_limit (limits c) ≠ 0) ∧
  (insecure (auth c) = true ∨ is_Some (public_key_path (auth c))) ∧
  (∀ t, tls c = Some t → exists_ (cert_path t) = true ∧ exists_ (key_path t) = true) ∧
  0 < shutdown_timeout_secs c ∧ 4096 ≤ wal_rotate_bytes c ∧ 2 ≤ watch_buffer c ∧
  0 < watch_heartbeat_secs c ∧
  (∀ p, parent (data_dir c) = Some p → path_is_empty p = true ∨ exists_ p = true).
Proof.
  pose proof (len_nonneg (node_id c)). pose proof (Limits_validate_Ok (limits c)) as Hl.
  assert (AuthConfig_validate (auth c) = Ok tt ↔
    insecure (auth c) = true ∨ is_Some (public_key_path (auth c))) as Ha.
  { unfold AuthConfig_validate, is_Some. repeat case_match; naive_solver. }
  assert (match tls c with Some t => TlsConfig_validate t | None => Ok tt end = Ok tt ↔
    ∀ t, tls c = Some t → exists_ (cert_path t) = true ∧ exists_ (key_path t) = true) as Ht.
  { destruct (tls c) as [t|]; [|by split]. unfold TlsConfig_validate.
    destruct (exists_ (cert_path t)) eqn:E1, (exists_ (key_path t)) eqn:E2; simpl; split; try done.
    - by intros _ ? [= <-].
    - intros Ht. specialize (Ht t eq_refl) as [??]. congruence.
    - intros Ht. specialize (Ht t eq_refl) as [??]. congruence.
    - intros Ht. specialize (Ht t eq_refl) as [??]. congruence. }
  rewrite <-Hl, <-Ha, <-Ht. unfold validate.
  rewrite !guard_Ok, !then_Ok, !guard_Ok, Z.eqb_neq, !Z.ltb_ge, !Z.eqb_neq.
  assert (match parent (data_dir c) with
    | Some p => if negb (path_is_empty p) && negb (exists_ p)
                then Err ("data_dir parent does not exist: " +:+ display p) else Ok tt
    | None => Ok tt
    end = Ok tt ↔
    ∀ p, parent (data_dir c) = Some p → path_is_empty p = true ∨ exists_ p = true) as ->.
  { destruct (parent (data_dir c)) as [p|]; [|by split].
    rewrite guard_Ok. split.
    - intros [Hp _] ? [= <-]. destruct (path_is_empty p), (exists_ p); naive_solver.
    - intros Hp. split; [|done]. destruct (Hp p eq_refl) as [-> | ->]; [done|].
      apply andb_false_r. }
  assert (∀ a : Z, 0 ≤ a → 0 < a ↔ a ≠ 0) as Hpos by lia.
  rewrite !Hpos by done. intuition lia.
Qed.

End validate.

(** The configuration [main] falls back to when there is no configuration file. *)
Definition fallback_config : NodeConfig := {|
  node_id := lit "node-0"; listen := "127.0.0.1:7100"; data_dir := mkPath false ["."; "data"; "node"];
  coord_endpoints := []; backend := BackendMemory; limits := default_Limits;
  auth := {| insecure := true; public_key_path := public_key_path default_AuthConfig |};
  tls := None; admin_listen := None; ttl_sweep_interval_secs := 60; shutdown_timeout_secs := 10;
  wal_rotate_bytes := 64 * 1024 * 1024; quota_config := default_QuotaConfig;
  watch_buffer := 1024; watch_heartbeat_secs := 30;
|}.

Lemma validate_guarantees_witness :
  validate (λ _, true) fallback_config = Ok tt ∧ 4096 ≤ wal_rotate_bytes fallback_config.
Proof.
  assert (validate (λ _, true) fallback_config = Ok tt) as H by reflexivity.
  split; [exact H|].
  apply (validate_guarantees (λ _, true) fallback_config); [discriminate..|exact H].
Defined.
