(* ===== verification/ConfigLoad.v ===== *)
(** * From a configuration file to a configuration ([config.rs], the [serde] attributes)

    The fields a file may leave out and what they are then.  Reading TOML is the
    [config] crate's; what it hands to the deserializer is a table in which each
    field is there or not ([RawConfig]), and the deserializer the attributes ask for
    is [deserialize].  The theorem: a file that names only the required fields and
    how callers are authenticated gives a configuration the node accepts, and without
    the latter one it refuses. *)

From S2P Require Import Prelude Bytes Core Config.

Record RawLimits := mkRawLimits {
  raw_max_key_size : option Z;
  raw_max_value_size : option Z;
  raw_max_batch_ops : option Z;
  raw_max_scan_limit : option Z;
}.

Record RawAuth := mkRawAuth {
  raw_insecure : option bool;
  raw_public_key_path : option Path;
}.

Record RawTls := mkRawTls {
  raw_cert_path : option Path;
  raw_key_path : option Path;
}.

Record RawQuota := mkRawQuota {
  raw_default_max_bytes : option Z;
  raw_default_max_ops_per_sec : option Z;
}.

Record RawConfig := mkRaw {
  raw_node_id : option bytes;
  raw_listen : option string;
  raw_data_dir : option Path;
  raw_coord_endpoints : option (list string);
  raw_backend : option string;
  raw_limits : option RawLimits;
  raw_auth : option RawAuth;
  raw_tls : option RawTls;
  raw_admin_listen : option string;
  raw_ttl_sweep_interval_secs : option Z;
  raw_shutdown_timeout_secs : option Z;
  raw_quota : option RawQuota;
  raw_watch_buffer : option Z;
  raw_watch_heartbeat_secs : option Z;
  raw_wal_rotate_bytes : option Z;
}.

(** A field without [#[serde(default)]]. *)
Definition required {A} (name : string) (o : option A) : result string A :=
  ok_or ("missing field " +:+ name) o.

(** [#[serde(rename_all = lowercase)]]. *)
Definition deserialize_backend (s : string) : result string Backend :=
  if decide (s = "memory"%string) then Ok BackendMemory
  else if decide (s = "fjall"%string) then Ok BackendFjall
  else Err ("unknown variant " +:+ s).

Definition deserialize_limits (r : RawLimits) : Limits := {|
  max_key_size := default default_max_key_size (raw_max_key_size r);
  max_value_size := default default_max_value_size (raw_max_value_size r);
  max_batch_ops := default default_max_batch_ops (raw_max_batch_ops r);
  max_scan_limit := default default_max_scan_limit (raw_max_scan_limit r);
|}.

Definition deserialize_auth (r : RawAuth) : AuthConfig := {|
  insecure := default false (raw_insecure r);
  public_key_path := raw_public_key_path r;
|}.

Definition deserialize_tls (r : RawTls) : result string TlsConfig :=
  cert ← required "cert_path" (raw_cert_path r);
  key ← required "key_path" (raw_key_path r);
  mret {| cert_path := cert; key_path := key |}.

Definition deserialize_quota (r : RawQuota) : QuotaConfig := {|
  default_max_bytes := default 0 (raw_default_max_bytes r);
  default_max_ops_per_sec := default 0 (raw_default_max_ops_per_sec r);
|}.

(** A section or field that is there, deserialized; one that is not, its default. *)
Definition optional {A B} (f : A → result string B) (d : B) (o : option A) : result string B :=
  match o with
  | Some a => f a
  | None => Ok d
  end.

Definition deserialize (r : RawConfig) : result string NodeConfig :=
  id_ ← required "node_id" (raw_node_id r);
  addr ← required "listen" (raw_listen r);
  dir ← required "data_dir" (raw_data_dir r);
  endpoints ← required "coord_endpoints" (raw_coord_endpoints r);
  b ← optional deserialize_backend default_backend (raw_backend r);
  t ← optional (λ t, c ← deserialize_tls t; mret (Some c)) None (raw_tls r);
  mret {|
    node_id := id_; listen := addr; data_dir := dir; coord_endpoints := endpoints;
    backend := b;
    limits := default default_Limits (deserialize_limits <$> raw_limits r);
    auth := default default_AuthConfig (deserialize_auth <$> raw_auth r);
    tls := t;
    admin_listen := raw_admin_listen r;
    ttl_sweep_interval_secs := default default_ttl_sweep_interval_secs (raw_ttl_sweep_interval_secs r);
    shutdown_timeout_secs := default default_shutdown_secs (raw_shutdown_timeout_secs r);
    quota_config := default default_QuotaConfig (deserialize_quota <$> raw_quota r);
    watch_buffer := default default_watch_buffer (raw_watch_buffer r);
    watch_heartbeat_secs := default default_watch_heartbeat_secs (raw_watch_heartbeat_secs r);
    wal_rotate_bytes := default default_wal_rotate_bytes (raw_wal_rotate_bytes r);
  |}.

(** ** A file with nothing but what it must say *)

Definition minimal (id_ : bytes) (addr : string) (dir : Path) (endpoints : list string)
    (a : option RawAuth) : RawConfig :=
  mkRaw (Some id_) (Some addr) (Some dir) (Some endpoints) None None a None None None None None None None None.

Definition authenticates (a : option RawAuth) : Prop :=
  ∃ r, a = Some r ∧ (raw_insecure r = Some true ∨ is_Some (raw_public_key_path r)).

(** The directory [validate] wants to see. *)
Definition has_parent (exists_ : Path → bool) (dir : Path) : Prop :=
  match parent dir with
  | Some p => path_is_empty p = true ∨ exists_ p = true
  | None => True
  end.

Lemma default_auth_validates a :
  AuthConfig_validate (default default_AuthConfig (deserialize_auth <$> a)) = Ok tt ↔ authenticates a.
Proof.
  unfold AuthConfig_validate, authenticates. destruct a as [[i k]|]; simpl; [|naive_solver].
  destruct i as [[]|]; simpl; destruct k; naive_solver.
Qed.

(** a configuration file has to say how callers are authenticated, and nothing else
    beyond the four required fields.  Every other field has a default, and the
    defaults are in bounds: such a file is read, gives a durable node, and is
    accepted exactly when it declares the node insecure or names a public key. *)
Theorem minimal_file_needs_authentication exists_ id_ addr dir endpoints a
    (Hid : 1 ≤ len id_ ≤ 255) (Hdir : has_parent exists_ dir) :
  ∃ cfg, deserialize (minimal id_ addr dir endpoints a) = Ok cfg ∧
    node_id cfg = id_ ∧ data_dir cfg = dir ∧ backend cfg = BackendFjall ∧
    (validate exists_ cfg = Ok tt ↔ authenticates a).
Proof.
  eexists. split; [reflexivity|]. split_and!; [done..|]. rewrite <-default_auth_validates.
  unfold validate. cbn [node_id limits auth tls shutdown_timeout_secs wal_rotate_bytes watch_buffer
    watch_heartbeat_secs data_dir].
  rewrite (proj2 (Z.eqb_neq _ _)), (proj2 (Z.ltb_ge _ _)) by lia.
  change (Limits_validate (default default_Limits (deserialize_limits <$> raw_limits _))) with
    (Ok (E:=string) tt). cbn [mbind result_bind].
  rewrite !then_Ok. split; [by intros [? _]|]. intros Ha. split_and!; [done..|].
  unfold has_parent in Hdir. cbn. destruct (parent dir) as [p|]; [|done].
  by destruct (path_is_empty p), (exists_ p), Hdir.
Qed.

Lemma minimal_file_needs_authentication_witness :
  ∃ cfg, deserialize (minimal (lit "n0") "127.0.0.1:7100" (mkPath true ["tmp"; "node"]%string) [] None)
    = Ok cfg ∧ validate (λ _, true) cfg ≠ Ok tt.
Proof.
  destruct (minimal_file_needs_authentication (λ _, true) (lit "n0") "127.0.0.1:7100"
    (mkPath true ["tmp"; "node"]%string) [] None) as (cfg & E & _ & _ & _ & Hv).
  - vm_compute. split; congruence.
  - by right.
  - exists cfg. split; [exact E|]. intros H. apply Hv in H as (r & H & _). discriminate.
Defined.
