(* ===== verification/Service.v ===== *)
(** * The node service ([ferriskv-node/src/service.rs])

    The state of a node and the operations the API layer calls: writes, reads,
    scans, admission, and the start-up sequence.  An operation is a function of
    the whole state, composed from the components' operations in the order the
    code calls them; what failed half-way is in the state that comes back.
    [sys] is the system clock at the moment of the call. *)

From Stdlib Require Import Strings.Byte.
From S2P Require Import Prelude Bytes Core KeyCodec ValueCodec Storage Wal TtlIndex Quota.
From S2P Require Import Throttle Watch Config.

Section service.
Context {F : Fjall} {B : Broadcast} {G : Governor} {C : Crc32} {J : QuotaJson}.

Record NodeService := mkService {
  config : NodeConfig;
  storage : StorageBackend F;
  wal : Wal;
  clock : Clock;
  ttl_index : TtlIndex;
  watch : WatchHub B;
  quota_store : QuotaStore;
  throttle : Throttle G;
}.

(** ** Access to the parts *)

Definition set_storage (x : StorageBackend F) (s : NodeService) : NodeService :=
  mkService (config s) x (wal s) (clock s) (ttl_index s) (watch s) (quota_store s) (throttle s).
Definition set_wal (x : Wal) (s : NodeService) : NodeService :=
  mkService (config s) (storage s) x (clock s) (ttl_index s) (watch s) (quota_store s) (throttle s).
Definition set_index (x : TtlIndex) (s : NodeService) : NodeService :=
  mkService (config s) (storage s) (wal s) (clock s) x (watch s) (quota_store s) (throttle s).
Definition set_watch (x : WatchHub B) (s : NodeService) : NodeService :=
  mkService (config s) (storage s) (wal s) (clock s) (ttl_index s) x (quota_store s) (throttle s).
Definition set_store (x : QuotaStore) (s : NodeService) : NodeService :=
  mkService (config s) (storage s) (wal s) (clock s) (ttl_index s) (watch s) x (throttle s).
Definition set_throttle (x : Throttle G) (s : NodeService) : NodeService :=
  mkService (config s) (storage s) (wal s) (clock s) (ttl_index s) (watch s) (quota_store s) x.

Definition in_storage {A} (m : M (StorageBackend F) Error A) : M NodeService Error A :=
  zoom storage set_storage m.
Definition in_wal {A} (m : M Wal Error A) : M NodeService Error A := zoom wal set_wal m.
Definition in_throttle {A} (m : M (Throttle G) Error A) : M NodeService Error A :=
  zoom throttle set_throttle m.
Definition in_quotas {A} (m : M (QuotaStore * StorageBackend F) Error A) : M NodeService Error A :=
  zoom (λ s, (quota_store s, storage s)) (λ p s, set_storage p.2 (set_store p.1 s)) m.

Definition now (s : NodeService) (sys : Z) : Z := now_ms (clock s) sys.

(** ** Admission *)

(** [admit]. *)
Definition admit_ops (gov_now : Z) (tenant : bytes) (cost : Z) : M NodeService Error unit :=
  ops_per_sec ← gets (λ s, max_ops_per_sec (quota (quota_store s) tenant));
  in_throttle (check gov_now tenant ops_per_sec cost).

(** ** Announcing changes *)

Definition publish_change (encoded_key : bytes) (k : ChangeKind) (v : bytes) :
    M NodeService Error unit := λ s,
  match KeyCodec.decode encoded_key with
  | Panic => (Panic, s)
  | Err _ => (Ok tt, s)
  | Ok (tenant, subspace, payload) =>
      if negb (bool_decide (subspace = Data)) then (Ok tt, s)
      else if negb (is_watched (watch s) tenant) then (Ok tt, s)
      else (Ok tt, set_watch (publish tenant (mkChange k payload v) (watch s)) s)
  end.

(** ** Rotation *)

Definition rotate_wal_if_needed : M NodeService Error unit := λ s,
  if negb (is_durable (storage s)) then (Ok tt, s) else
  let size := segment_bytes (wal s) in
  if size <? wal_rotate_bytes (config s) then (Ok tt, s) else
  ignore_err (in_storage st_flush;; in_wal rotate) s.

(** ** Accounting *)

Record Accounting := mkAccounting {
  acc_tenant : bytes;
  delta : Z;
}.

(** [next as i64 - previous as i64]. *)
Definition signed_difference (next previous : Z) : Z := as_i64 (as_i64 next - as_i64 previous).

Definition plan_accounting (s : NodeService) (encoded_key : bytes) (new_value_len : Z) :
    result Error (option Accounting) :=
  match KeyCodec.decode encoded_key with
  | Panic => Panic
  | Err _ => Ok None
  | Ok (tenant, subspace, payload) =>
      if negb (bool_decide (subspace = Data)) then Ok None else
      existing ← st_get (storage s) encoded_key;
      previous ←
        match existing with
        | Some raw => n ← payload_len raw; mret (entry_bytes (len payload) n)
        | None => mret 0
        end;
      let next := entry_bytes (len payload) new_value_len in
      mret (Some (mkAccounting tenant (signed_difference next previous)))
  end.

Definition plan_delete_accounting (s : NodeService) (encoded_key : bytes) :
    result Error (option Accounting) :=
  match KeyCodec.decode encoded_key with
  | Panic => Panic
  | Err _ => Ok None
  | Ok (tenant, subspace, payload) =>
      if negb (bool_decide (subspace = Data)) then Ok None else
      existing ← st_get (storage s) encoded_key;
      match existing with
      | None => mret None
      | Some raw =>
          n ← payload_len raw;
          let freed := entry_bytes (len payload) n in
          mret (Some (mkAccounting tenant (as_i64 (- as_i64 freed))))
      end
  end.

Definition commit_accounting (accounting : option Accounting) : M NodeService Error unit :=
  match accounting with
  | None => mret tt
  | Some plan => ignore_err (in_quotas (Quota.apply (acc_tenant plan) (delta plan)))
  end.

(** ** Writes *)

Definition put_with_ttl (sys : Z) (key value : bytes) (ttl_ms : Z) : M NodeService Error unit :=
  expires_at ← gets (λ s, if 0 <? ttl_ms then Some (sat_add64 (now s sys) ttl_ms) else None);
  accounting ← (λ s, (plan_accounting s key (len value), s));
  match accounting with
  | Some plan => λ s, (check_write (quota_store s) (acc_tenant plan) (delta plan), s)
  | None => mret tt
  end;;
  let encoded := ValueCodec.encode value expires_at in
  in_wal (append Put key encoded);;
  in_storage (st_put key encoded);;
  match expires_at with
  | Some exp => modify (λ s, set_index (schedule key exp (ttl_index s)) s)
  | None => mret tt
  end;;
  commit_accounting accounting;;
  publish_change key ChangePut value;;
  rotate_wal_if_needed.

(** [delete]. *)
Definition delete_key (key : bytes) : M NodeService Error unit :=
  accounting ← (λ s, (plan_delete_accounting s key, s));
  in_wal (append Delete key []);;
  in_storage (st_delete key);;
  commit_accounting accounting;;
  publish_change key ChangeDelete [];;
  rotate_wal_if_needed.

(** ** Reads *)

Definition get (s : NodeService) (sys : Z) (key : bytes) : result Error (option bytes) :=
  found ← st_get (storage s) key;
  match found with
  | None => mret None
  | Some raw =>
      expired ← is_expired raw (now s sys);
      if (expired : bool) then mret None
      else stored ← ValueCodec.decode raw; mret (Some (ValueCodec.value stored))
  end.

(** One entry of [filter_scan]'s [filter_map]. *)
Definition filter_entry (now : Z) (kv : bytes * bytes) : option (bytes * bytes) :=
  match is_expired kv.2 now with
  | Ok true => None
  | Ok false =>
      match ValueCodec.decode kv.2 with
      | Ok stored => Some (kv.1, ValueCodec.value stored)
      | _ => None
      end
  | _ => None
  end.

Definition filter_scan (s : NodeService) (sys : Z) (raw : list (bytes * bytes)) :
    list (bytes * bytes) :=
  omap (filter_entry (now s sys)) raw.

Definition scan (s : NodeService) (sys : Z) (prefix : bytes) : result Error (list (bytes * bytes)) :=
  raw ← st_scan (storage s) prefix;
  mret (filter_scan s sys raw).

Definition scan_range (s : NodeService) (sys : Z) (start end_ : bytes) :
    result Error (list (bytes * bytes)) :=
  raw ← st_scan_range (storage s) start end_;
  mret (filter_scan s sys raw).

(** ** Start-up *)

Definition replay_record (r : WalRecord) : M (StorageBackend F) Error unit :=
  match op r with
  | Put => st_put (key r) (Wal.value r)
  | Delete => st_delete (key r)
  end.

Definition replay (records : list WalRecord) : M (StorageBackend F) Error Z :=
  for_each replay_record records;;
  mret (len records).

(** What the start-up scan accumulates: the index, the usage totals, and the
    number of entries with an expiry. *)
Record Scan := mkScan {
  sc_index : TtlIndex;
  sc_usage : gmap bytes Z;
  sc_ttl_entries : Z;
}.

Definition bootstrap_entry (acc : Scan) (kv : bytes * bytes) : Scan :=
  let '(k, v) := kv in
  match ValueCodec.decode v with
  | Ok stored =>
      let acc :=
        match expires_at_ms stored with
        | Some exp =>
            mkScan (schedule k exp (sc_index acc)) (sc_usage acc) (sc_ttl_entries acc + 1)
        | None => acc
        end in
      match KeyCodec.decode k with
      | Ok (tenant, Data, payload) =>
          let bytes := entry_bytes (len payload) (len (ValueCodec.value stored)) in
          mkScan (sc_index acc)
            (<[tenant := wrap_add64 (default 0 (sc_usage acc !! tenant)) bytes]> (sc_usage acc))
            (sc_ttl_entries acc)
      | _ => acc
      end
  | _ => acc
  end.

(** Returns how many entries expire and how many tenants have data. *)
Definition bootstrap_from_storage : M NodeService Error (Z * Z) := λ s,
  match st_scan (storage s) [] with
  | Ok l =>
      let acc := fold_left bootstrap_entry l (mkScan (ttl_index s) ∅ 0) in
      (Ok (sc_ttl_entries acc, Z.of_nat (size (sc_usage acc))),
       set_store (reset_usage (map_to_list (sc_usage acc)) (quota_store s))
         (set_index (sc_index acc) s))
  | Err e => (Err e, s)
  | Panic => (Panic, s)
  end.

(** What the environment offers a node that starts: whether its directory could
    be made, the WAL segment, and what opening fjall gave. *)
Record Disk := mkDisk {
  mkdir : result Error unit;
  segment_file : File;
  fjall : result Error (FjallStorage F);
}.

(** From the opened parts to a node that serves. *)
Definition boot (recovery : Recovery) : M NodeService Error unit :=
  in_storage (replay (records recovery));;
  (λ s, when (is_durable (storage s)) (in_storage st_flush;; in_wal rotate) s);;
  in_quotas load_quotas;;
  bootstrap_from_storage;;
  mret tt.

Definition open_with_clock (cfg : NodeConfig) (c : Clock) (d : Disk) : result Error NodeService :=
  mkdir d;;
  st ← match backend cfg with
       | BackendMemory => mret (Memory mem_new)
       | BackendFjall => f ← fjall d; mret (FjallB f)
       end;
  '(w, recovery) ← (Wal.open (segment_file d)).1;
  let default_quota := mkQuota (default_max_bytes (quota_config cfg))
                         (Config.default_max_ops_per_sec (quota_config cfg)) in
  let s := mkService cfg st w c TtlIndex.new (hub_new (watch_buffer cfg)) (store_new default_quota)
             (throttle_new (Config.default_max_ops_per_sec (quota_config cfg))) in
  match boot recovery s with
  | (Ok _, s) => Ok s
  | (Err e, _) => Err e
  | (Panic, _) => Panic
  end.

Definition open_node (cfg : NodeConfig) (d : Disk) : result Error NodeService :=
  open_with_clock cfg System d.

End service.
