(* ===== verification/Node.v ===== *)
(** * Correctness of the node service

    The invariant a running node keeps, what each write does to every part of the
    state, and what a restart recovers.  The theorems are about the operations of
    [Service.v] on a backend that satisfies the storage laws. *)

From Stdlib Require Import Strings.Byte.
From S2P Require Import Prelude Bytes Core KeyCodec ValueCodec Storage Wal TtlIndex Quota.
From S2P Require Import Throttle Watch Config Service.

(** ** Keys by purpose *)

(** A client's key, as the API layer encodes it. *)
Definition data_key (t p : bytes) : bytes := frame t Data ++ p.
Definition is_data (k : bytes) : Prop := ∃ t p, valid_tenant t ∧ k = data_key t p.
Definition usage_key (t : bytes) : bytes := frame t Stats ++ USAGE_KEY.

Lemma decode_data_key t p : valid_tenant t → KeyCodec.decode (data_key t p) = Ok (t, Data, p).
Proof. apply decode_frame. Qed.

Lemma usage_key_not_data t k : len t ≤ 255 → is_data k → usage_key t ≠ k.
Proof. intros Ht (t' & p & [_ [_ Ht']] & ->) Heq. by apply frame_inj in Heq as (_ & ? & _). Qed.

Lemma usage_key_not_quota t t' : len t ≤ 255 → valid_tenant t' → usage_key t ≠ quota_key t'.
Proof. intros Ht [_ [_ Ht']] Heq. by apply frame_inj in Heq as (_ & ? & _). Qed.

Lemma data_key_not_quota t p t' :
  valid_tenant t → valid_tenant t' → data_key t p ≠ quota_key t'.
Proof. intros [_ [_ ?]] [_ [_ ?]] Heq. by apply frame_inj in Heq as (_ & ? & _). Qed.

Lemma data_key_inj t p t' p' :
  valid_tenant t → valid_tenant t' → data_key t p = data_key t' p' → t = t' ∧ p = p'.
Proof. intros [_ [_ ?]] [_ [_ ?]] Heq. by apply frame_inj in Heq as (? & _ & ?). Qed.

(** ** Replaying records *)

Definition apply_record (m : gmap bytes bytes) (r : WalRecord) : gmap bytes bytes :=
  match op r with
  | Put => <[key r := Wal.value r]> m
  | Delete => delete (key r) m
  end.

Definition replay_map (rs : list WalRecord) (m : gmap bytes bytes) : gmap bytes bytes :=
  fold_left apply_record rs m.

Lemma replay_map_app rs1 rs2 m : replay_map (rs1 ++ rs2) m = replay_map rs2 (replay_map rs1 m).
Proof. unfold replay_map. apply fold_left_app. Qed.

Lemma apply_record_lookup m r k :
  apply_record m r !! k =
  if decide (key r = k) then (match op r with Put => Some (Wal.value r) | Delete => None end) else m !! k.
Proof.
  unfold apply_record. destruct (op r); case_decide as E; subst.
  - by rewrite lookup_insert_eq.
  - by rewrite lookup_insert_ne.
  - by rewrite lookup_delete_eq.
  - by rewrite lookup_delete_ne.
Qed.

(** Keys the records write. *)
Definition touched (rs : list WalRecord) : list bytes := key <$> rs.

(** The last record on a key decides it; a key no record touches keeps its value. *)
Lemma replay_map_agree rs m1 m2 k :
  (k ∉ touched rs → m1 !! k = m2 !! k) → replay_map rs m1 !! k = replay_map rs m2 !! k.
Proof.
  revert m1 m2. induction rs as [|r rs IH]; intros m1 m2 Hk; simpl.
  { apply Hk. set_solver. }
  apply IH. intros Hn. rewrite !apply_record_lookup. case_decide as E; [done|].
  apply Hk. unfold touched in *. csimpl. rewrite elem_of_cons. naive_solver.
Qed.

Lemma replay_map_untouched rs m k : k ∉ touched rs → replay_map rs m !! k = m !! k.
Proof.
  revert m. induction rs as [|r rs IH]; intros m Hn; [done|].
  unfold touched in *. csimpl in Hn. apply not_elem_of_cons in Hn as [Hk Hn]. simpl.
  rewrite IH by done. rewrite apply_record_lookup. by rewrite decide_False.
Qed.

(** Replaying records over a map that already has them changes nothing. *)
Lemma replay_map_idemp rs m : replay_map rs (replay_map rs m) = replay_map rs m.
Proof.
  apply map_eq. intros k. apply replay_map_agree. intros Hn. by apply replay_map_untouched.
Qed.

(** ** Usage, computed from the data *)

(** What an entry counts for against [t]'s quota. *)
Definition weight (t : bytes) (kv : bytes * bytes) : Z :=
  match KeyCodec.decode kv.1, ValueCodec.decode kv.2 with
  | Ok (t', Data, p), Ok sv => if decide (t' = t) then len p + len (ValueCodec.value sv) else 0
  | _, _ => 0
  end.

Definition usage_in (m : gmap bytes bytes) (t : bytes) : Z := sum_with (weight t) (map_to_list m).

Definition weight_at (m : gmap bytes bytes) (t k : bytes) : Z :=
  match m !! k with
  | Some raw => weight t (k, raw)
  | None => 0
  end.

Lemma weight_nonneg t kv : 0 ≤ weight t kv.
Proof.
  unfold weight. repeat case_match; try lia.
  match goal with |- 0 ≤ len ?a + len ?b => pose proof (len_nonneg a); pose proof (len_nonneg b) end.
  lia.
Qed.

Lemma weight_data t' p raw sv t :
  valid_tenant t' → ValueCodec.decode raw = Ok sv →
  weight t (data_key t' p, raw) = if decide (t' = t) then len p + len (ValueCodec.value sv) else 0.
Proof. intros Ht Hr. unfold weight. cbn [fst snd]. by rewrite decode_data_key, Hr. Qed.

Lemma weight_frame t t' sub p raw :
  valid_tenant t' → sub ≠ Data → weight t (frame t' sub ++ p, raw) = 0.
Proof.
  intros Ht Hs. unfold weight. cbn [fst snd]. rewrite decode_frame by done. by destruct sub.
Qed.

Definition is_data_b (k : bytes) : bool :=
  match KeyCodec.decode k with
  | Ok (_, Data, _) => true
  | _ => false
  end.

Lemma is_data_b_spec k : is_data_b k = true ↔ is_data k.
Proof.
  unfold is_data_b. split.
  - destruct (KeyCodec.decode k) as [[[t []] p]| |] eqn:E; try done. intros _.
    apply decode_key_Ok in E as [Ht ->]. by exists t, p.
  - intros (t & p & Ht & ->). by rewrite decode_data_key.
Qed.

Global Instance is_data_dec k : Decision (is_data k).
Proof.
  refine (cast_if (decide (is_data_b k = true))); by rewrite <-is_data_b_spec.
Defined.

Lemma weight_not_data t k raw : ¬ is_data k → weight t (k, raw) = 0.
Proof.
  intros Hk. unfold weight. cbn [fst snd].
  destruct (KeyCodec.decode k) as [[[t' []] p]| |] eqn:E; try done.
  apply decode_key_Ok in E as [Ht ->]. destruct Hk. by exists t', p.
Qed.

(** Usage depends on the data only. *)
Lemma usage_in_agree m1 m2 t :
  (∀ k, is_data k → m1 !! k = m2 !! k) → usage_in m1 t = usage_in m2 t.
Proof.
  intros Hag. unfold usage_in.
  assert (∀ l, sum_with (weight t) l = sum_with (weight t) (filter (λ kv, is_data kv.1) l)) as Hf.
  { induction l as [|[k raw] l IH]; [done|]. rewrite filter_cons. case_decide as Hk.
    - unfold sum_with in *. simpl. by rewrite IH.
    - rewrite <-IH. unfold sum_with. simpl. by rewrite weight_not_data. }
  rewrite (Hf (map_to_list m1)), (Hf (map_to_list m2)). apply sum_with_perm, NoDup_Permutation.
  - apply NoDup_filter, NoDup_map_to_list.
  - apply NoDup_filter, NoDup_map_to_list.
  - intros [k raw]. rewrite !list_elem_of_filter, !elem_of_map_to_list. simpl.
    split; intros [Hk ?]; (split; [done|]); [by rewrite <-Hag|by rewrite Hag].
Qed.

Lemma usage_in_nonneg m t : 0 ≤ usage_in m t.
Proof. apply sum_with_nonneg. intros. apply weight_nonneg. Qed.

Lemma usage_in_delete m t k : usage_in (delete k m) t = usage_in m t - weight_at m t k.
Proof.
  unfold usage_in, weight_at. destruct (m !! k) as [raw|] eqn:E.
  - pose proof (sum_with_perm (weight t) _ _ (map_to_list_delete m k raw E)) as Hp.
    unfold sum_with in *. simpl in Hp. lia.
  - rewrite delete_id by done. lia.
Qed.

Lemma usage_in_insert m t k raw :
  usage_in (<[k:=raw]> m) t = usage_in m t - weight_at m t k + weight t (k, raw).
Proof.
  rewrite <-insert_delete_eq, <-usage_in_delete. unfold usage_in.
  rewrite (sum_with_perm _ _ _ (map_to_list_insert (delete k m) k raw (lookup_delete_eq m k))).
  unfold sum_with. simpl. lia.
Qed.

Lemma weight_at_le m t k : 0 ≤ weight_at m t k ≤ usage_in m t.
Proof.
  pose proof (usage_in_delete m t k). pose proof (usage_in_nonneg (delete k m) t).
  unfold weight_at in *. destruct (m !! k) as [raw|]; [|lia].
  pose proof (weight_nonneg t (k, raw)). lia.
Qed.

Section node.
Context {F : Fjall} {FS : FjallSpec} {FO : FjallOk}.
Context {B : Broadcast} {G : Governor} {C : Crc32} {CO : Crc32Ok} {J : QuotaJson}.

Abbreviation Service := (NodeService (F:=F) (B:=B) (G:=G)).

Lemma backend_put_runs (b : StorageBackend F) k v :
  healthy b → admits b k v →
  ∃ b', st_put k v b = (Ok tt, b') ∧ view b' = <[k:=v]> (view b) ∧ healthy b' ∧
        is_durable b' = is_durable b.
Proof.
  intros Hh Ha. pose proof (put_law b k v Ha) as Hp.
  pose proof (is_durable_dispatch b (mem_put k v) (fjall_put k v)) as Hd.
  change (dispatch (mem_put k v) (fjall_put k v) b) with (st_put k v b) in Hd.
  destruct (st_put k v b) as [[[]|e|] b']; simpl in *; [|naive_solver..].
  exists b'. naive_solver.
Qed.

Lemma backend_delete_runs (b : StorageBackend F) k :
  healthy b → admits b k [] →
  ∃ b', st_delete k b = (Ok tt, b') ∧ view b' = delete k (view b) ∧ healthy b' ∧
        is_durable b' = is_durable b.
Proof.
  intros Hh Ha. pose proof (delete_law b k Ha) as Hp.
  pose proof (is_durable_dispatch b (mem_delete k) (fjall_delete k)) as Hd.
  change (dispatch (mem_delete k) (fjall_delete k) b) with (st_delete k b) in Hd.
  destruct (st_delete k b) as [[[]|e|] b']; simpl in *; [|naive_solver..].
  exists b'. naive_solver.
Qed.

Lemma backend_flush_runs (b : StorageBackend F) :
  healthy b →
  ∃ b', st_flush b = (Ok tt, b') ∧ view b' = view b ∧ healthy b' ∧ is_durable b' = is_durable b.
Proof.
  intros Hh. pose proof (flush_law b) as Hp.
  pose proof (is_durable_dispatch b mem_flush fjall_flush) as Hd.
  change (dispatch mem_flush fjall_flush b) with (st_flush b) in Hd.
  destruct (st_flush b) as [[[]|e|] b']; simpl in *; [|naive_solver..].
  exists b'. naive_solver.
Qed.

Lemma backend_get_runs (b : StorageBackend F) k : healthy b → st_get b k = Ok (view b !! k).
Proof.
  intros Hh. pose proof (get_law b k) as Hg.
  destruct (st_get b k); simpl in *; [by subst|done..].
Qed.

(** [replay] on a healthy backend is [replay_map] on its view. *)
Lemma replay_runs rs (b : StorageBackend F) :
  healthy b → Forall (λ r, admits b (key r) (Wal.value r)) rs →
  ∃ b', replay rs b = (Ok (len rs), b') ∧ view b' = replay_map rs (view b) ∧ healthy b' ∧
        is_durable b' = is_durable b.
Proof.
  intros Hh Ha. unfold replay. unfold_monad.
  assert (∃ b', for_each replay_record rs b = (Ok tt, b') ∧ view b' = replay_map rs (view b) ∧ healthy b' ∧
    is_durable b' = is_durable b) as (b' & -> & ?); [|by exists b'].
  revert b Hh Ha. induction rs as [|r rs IH]; intros b Hh Ha; [by exists b|].
  apply Forall_cons in Ha as [Hr Ha].
  assert (∃ b1, replay_record r b = (Ok tt, b1) ∧ view b1 = apply_record (view b) r ∧ healthy b1 ∧
    is_durable b1 = is_durable b) as (b1 & E1 & Hv1 & Hh1 & Hd1).
  { unfold replay_record, apply_record. destruct (op r).
    - by apply backend_put_runs.
    - apply backend_delete_runs; [done|]. by eapply admits_delete. }
  destruct (IH b1 Hh1) as (b' & E & Hv & Hh' & Hd).
  { eapply Forall_impl; [exact Ha|]. intros r'. by apply admits_agree. }
  exists b'. cbn [for_each]. unfold_monad. rewrite E1, E, Hv, Hv1, Hd, Hd1. done.
Qed.

(** ** The invariant *)

(** Every stored value has the value framing. *)
Definition values_ok (m : gmap bytes bytes) : Prop :=
  ∀ k raw, m !! k = Some raw → ∃ sv, ValueCodec.decode raw = Ok sv.

(** Everything in storage that expires is scheduled at its time. *)
Definition ttl_covered (m : gmap bytes bytes) (g : TtlIndex) : Prop :=
  ∀ k raw sv e, m !! k = Some raw → ValueCodec.decode raw = Ok sv →
    expires_at_ms sv = Some e → (e, k) ∈ scheduled g.

Record node_ok (s : Service) : Prop := {
  node_values : values_ok (view (storage s));
  node_usage : ∀ t, used_bytes (quota_store s) t = usage_in (view (storage s)) t;
  node_fits : ∀ t, usage_in (view (storage s)) t < 2 ^ 63;
  node_index : index_ok (ttl_index s);
  node_ttl : ttl_covered (view (storage s)) (ttl_index s);
  node_quotas : synced (quota_store s) (view (storage s));
}.

(** The backend takes the entry of a change. *)
Definition admitted (b : StorageBackend F) (c : WalOp * bytes * bytes) : Prop :=
  let '(_, k, v) := c in admits b k v.

Lemma admitted_agree (b b' : StorageBackend F) cs :
  is_durable b' = is_durable b → Forall (admitted b) cs → Forall (admitted b') cs.
Proof.
  intros Hd Ha. eapply Forall_impl; [exact Ha|]. intros [[o k] v]. by apply admits_agree.
Qed.

Lemma admitted_records (b : StorageBackend F) l :
  Forall (admitted b) (changes l) → Forall (λ r, admits b (key r) (Wal.value r)) (log_records l).
Proof.
  intros Ha. apply Forall_lookup_2. intros i r Hi. unfold log_records in Hi.
  rewrite list_lookup_imap in Hi. destruct (changes l !! i) as [[[o k] v]|] eqn:E; simplify_eq/=.
  exact (Forall_lookup_1 _ _ _ _ Ha E).
Qed.

Lemma admits_usage_key (b : StorageBackend F) t n :
  1 ≤ len t ≤ 255 → admits b (usage_key t) (ValueCodec.encode (to_be_bytes 8 n) None).
Proof.
  intros Ht. apply admits_short; [|by vm_compute]. unfold usage_key.
  rewrite len_app, len_frame. change (len USAGE_KEY) with 5. unfold FJALL_MAX_KEY. lia.
Qed.

(** A device and a backend that work; [l] is what the log holds, and the backend takes
    all of it. *)
Record env_ok (s : Service) (l : Log) : Prop := {
  env_wal : wal_rep (wal s) l;
  env_faults : faults (wal_file (wal s)) = [];
  env_healthy : healthy (storage s);
  env_clock : Clock_typed (clock s);
  env_admits : Forall (admitted (storage s)) (changes l);
}.

(** ** The common tail of a write *)

Lemma rotate_runs s l :
  env_ok s l →
  ∃ s' l', rotate_wal_if_needed s = (Ok tt, s') ∧ env_ok s' l' ∧
    view (storage s') = view (storage s) ∧ is_durable (storage s') = is_durable (storage s) ∧
    (l' = l ∨ is_durable (storage s) = true ∧ l' = log_rotate l) ∧
    s' = set_storage (storage s') (set_wal (wal s') s).
Proof.
  intros [Hw Hf Hh Hc Ha]. unfold rotate_wal_if_needed.
  destruct (is_durable (storage s)) eqn:Hd; simpl negb; cbv iota; [|exists s, l].
  2:{ split_and!; [done|by split|done|done|by left|by destruct s]. }
  destruct (segment_bytes (wal s) <? wal_rotate_bytes (config s)); [exists s, l|].
  { split_and!; [done|by split|done|done|by left|by destruct s]. }
  destruct (backend_flush_runs _ Hh) as (b' & Eb & Hv & Hh' & Hd').
  destruct (rotate_rep (wal s) l Hw Hf) as (w' & Ew & Hw' & Hf').
  exists (set_wal w' (set_storage b' s)), (log_rotate l).
  split_and!; [|split; try done; by apply Forall_nil_2|done|simpl; congruence|by right|by destruct s].
  unfold in_storage, in_wal. unfold_monad. rewrite Eb. simpl. by rewrite Ew.
Qed.

Lemma publish_runs k kd v s :
  ∃ h, publish_change k kd v s = (Ok tt, set_watch h s).
Proof.
  unfold publish_change. destruct (KeyCodec.decode k) as [[[t sub] p]| |] eqn:E.
  - case_match; [by exists (watch s); destruct s|].
    case_match; [by exists (watch s); destruct s|]. by eexists.
  - by exists (watch s); destruct s.
  - by apply decode_key_no_panic in E.
Qed.

Lemma commit_runs t d s :
  valid_tenant t → healthy (storage s) →
  ∃ b' qs', commit_accounting (Some (mkAccounting t d)) s
    = (Ok tt, set_storage b' (set_store qs' s)) ∧
    healthy b' ∧ is_durable b' = is_durable (storage s) ∧
    default_quota qs' = default_quota (quota_store s) ∧ quotas qs' = quotas (quota_store s) ∧
    (view b' = view (storage s) ∨
     ∃ n, view b' = <[usage_key t := ValueCodec.encode (to_be_bytes 8 n) None]> (view (storage s))) ∧
    ∀ t', used_bytes qs' t' =
      if decide (t' = t ∧ d ≠ 0) then apply_delta (used_bytes (quota_store s) t) d
      else used_bytes (quota_store s) t'.
Proof.
  intros Ht Hh. unfold commit_accounting, Quota.apply. cbn [acc_tenant delta].
  unfold in_quotas, on_storage. unfold_monad. destruct (Z.eqb_spec d 0) as [->|Hd].
  { exists (storage s), (quota_store s). split_and!; [by destruct s|done..|by left|].
    intros t'. by rewrite decide_False by naive_solver. }
  unfold adjust. cbn [fst snd]. rewrite encode_ok by apply Ht. cbn [fst snd].
  set (n := apply_delta (used_bytes (quota_store s) t) d).
  destruct (backend_put_runs (storage s) (frame t Stats ++ USAGE_KEY)
    (ValueCodec.encode (to_be_bytes 8 n) None) Hh) as (b' & Eb & Hv & Hh' & Hd').
  { by apply admits_usage_key, Ht. }
  rewrite Eb. cbn [fst snd]. eexists b', _.
  split_and!; [by destruct s|done..|right; by exists n|].
  intros t'. rewrite used_bytes_insert.
  destruct (decide (t' = t)) as [-> |Hne].
  - by rewrite decide_True.
  - by rewrite decide_False by naive_solver.
Qed.

(** Writing a usage record changes nothing the invariant talks about. *)
Lemma usage_record_harmless m m' t :
  valid_tenant t →
  m' = m ∨ (∃ n, m' = <[usage_key t := ValueCodec.encode (to_be_bytes 8 n) None]> m) →
  (values_ok m → values_ok m') ∧ (∀ t', usage_in m' t' = usage_in m t') ∧
  (∀ g, ttl_covered m g → ttl_covered m' g) ∧ (∀ qs, synced qs m → synced qs m') ∧
  (∀ k, is_data k → m' !! k = m !! k).
Proof.
  intros Ht [-> |[n ->]]; [done|].
  assert (∀ t' raw, weight t' (usage_key t, raw) = 0) as Hw.
  { intros. by apply weight_frame. }
  split_and!.
  - intros Hv k raw [[_ <-]|[_ ?]]%lookup_insert_Some; [|by apply (Hv k)].
    rewrite decode_encode by done. eauto.
  - intros t'. rewrite usage_in_insert, Hw. unfold weight_at.
    destruct (m !! usage_key t); rewrite ?Hw; lia.
  - intros g Hg k raw sv e [[_ <-]|[_ ?]]%lookup_insert_Some; [|by apply Hg].
    rewrite decode_encode by done. by intros [= <-].
  - intros qs Hs t'. rewrite Hs. unfold persisted. case_decide; [|done].
    rewrite lookup_insert_ne; [done|]. apply usage_key_not_quota; [apply Ht|done].
  - intros k Hk. rewrite lookup_insert_ne; [done|]. apply usage_key_not_data; [apply Ht|done].
Qed.

Lemma synced_data m t p o qs :
  valid_tenant t → synced qs m → synced qs (partial_alter (λ _, o) (data_key t p) m).
Proof.
  intros Ht Hs t'. rewrite Hs. unfold persisted. case_decide; [|done].
  rewrite lookup_partial_alter_ne; [done|]. by apply data_key_not_quota.
Qed.

Lemma plan_runs s t p n :
  values_ok (view (storage s)) → healthy (storage s) → valid_tenant t → 0 ≤ n →
  len p + n < 2 ^ 63 → usage_in (view (storage s)) t < 2 ^ 63 →
  plan_accounting s (data_key t p) n =
  Ok (Some (mkAccounting t (len p + n - weight_at (view (storage s)) t (data_key t p)))).
Proof.
  intros Hv Hh Ht Hn Hfit Husage. pose proof (len_nonneg p).
  pose proof (weight_at_le (view (storage s)) t (data_key t p)) as Hw.
  unfold plan_accounting. rewrite decode_data_key, backend_get_runs by done.
  rewrite bool_decide_true by done. simpl negb. unfold_monad. unfold weight_at in *.
  destruct (view (storage s) !! data_key t p) as [raw|] eqn:Hraw.
  - destruct (Hv _ _ Hraw) as [sv Hsv]. rewrite payload_len_decode, Hsv. unfold_monad.
    rewrite (weight_data t p raw sv) in * by done. rewrite decide_True in * by done.
    pose proof (len_nonneg (ValueCodec.value sv)).
    rewrite !entry_bytes_exact by lia. unfold signed_difference.
    rewrite (as_i64_id (len p + n)), (as_i64_id (len p + _)), as_i64_id by lia. done.
  - rewrite entry_bytes_exact by lia. unfold signed_difference.
    by rewrite !as_i64_id by (rewrite ?as_i64_id; lia).
Qed.

Lemma plan_delete_runs s t p :
  values_ok (view (storage s)) → healthy (storage s) → valid_tenant t →
  usage_in (view (storage s)) t < 2 ^ 63 →
  plan_delete_accounting s (data_key t p) =
  Ok (match view (storage s) !! data_key t p with
      | Some _ => Some (mkAccounting t (- weight_at (view (storage s)) t (data_key t p)))
      | None => None
      end).
Proof.
  intros Hv Hh Ht Husage. pose proof (len_nonneg p).
  pose proof (weight_at_le (view (storage s)) t (data_key t p)) as Hw.
  unfold plan_delete_accounting. rewrite decode_data_key, backend_get_runs by done.
  rewrite bool_decide_true by done. simpl negb. unfold_monad. unfold weight_at in *.
  destruct (view (storage s) !! data_key t p) as [raw|] eqn:Hraw; [|done].
  destruct (Hv _ _ Hraw) as [sv Hsv]. rewrite payload_len_decode, Hsv. unfold_monad.
  rewrite (weight_data t p raw sv) in * by done. rewrite decide_True in * by done.
  pose proof (len_nonneg (ValueCodec.value sv)).
  rewrite entry_bytes_exact by lia. by rewrite !as_i64_id by (rewrite ?as_i64_id; lia).
Qed.

Lemma append_runs o k v s l :
  env_ok s l → len k < 2 ^ 32 → len v < 2 ^ 32 →
  ∃ sq w', in_wal (append o k v) s = (Ok sq, set_wal w' s) ∧
    wal_rep w' (log_append l o k v) ∧ faults (wal_file w') = [].
Proof.
  intros [Hw Hf _ _ _] Hk Hv.
  destruct (append_outcome o k v (wal s) (rep_buf _ _ Hw)) as [E|(?&?&?&E&_)]; [|congruence].
  pose proof (append_rep o k v _ l Hw Hk Hv _ _ E) as [_ Hw'].
  eexists _, _. split_and!; [by apply zoom_run, E|done|]. simpl. by rewrite Hf.
Qed.

(** The expiry a write stamps. *)
Definition expiry (s : Service) (sys ttl_ms : Z) : option Z :=
  if 0 <? ttl_ms then Some (sat_add64 (now s sys) ttl_ms) else None.

Lemma expiry_u64 s sys ttl :
  Clock_typed (clock s) → match expiry s sys ttl with Some e => u64_ok e | None => True end.
Proof.
  intros Hc. unfold expiry. destruct (Z.ltb_spec 0 ttl); [|done].
  pose proof (now_ms_u64 (clock s) sys Hc) as Hn. unfold u64_ok in Hn.
  apply sat_add64_ok; unfold now; lia.
Qed.

(** What a write on a tenant's key leaves behind, given what it did to the map. *)
Record write_effect (s s' : Service) (l l' : Log) (m : gmap bytes bytes)
    (change : WalOp * bytes * bytes) : Prop := {
  we_node : node_ok s';
  we_env : env_ok s' l';
  we_data : ∀ k, is_data k → view (storage s') !! k = m !! k;
  we_log : let '(o, k, v) := change in
    l' = log_append l o k v ∨
    is_durable (storage s) = true ∧ l' = log_rotate (log_append l o k v);
  we_durable : is_durable (storage s') = is_durable (storage s);
  we_config : config s' = config s;
  we_clock : clock s' = clock s;
  we_throttle : throttle s' = throttle s;
  we_quotas : quotas (quota_store s') = quotas (quota_store s);
  we_default : default_quota (quota_store s') = default_quota (quota_store s);
}.

(** Commit, announce, rotate: from a state in which the map is written and the
    index is up to date to one in which the invariant holds again. *)
Lemma write_tail_runs s1 l1 t acc k kd v d :
  env_ok s1 l1 → valid_tenant t →
  values_ok (view (storage s1)) → (∀ t', usage_in (view (storage s1)) t' < 2 ^ 63) →
  index_ok (ttl_index s1) → ttl_covered (view (storage s1)) (ttl_index s1) →
  synced (quota_store s1) (view (storage s1)) →
  acc = Some (mkAccounting t d) ∨ (acc = None ∧ d = 0) →
  (∀ t', usage_in (view (storage s1)) t' =
         used_bytes (quota_store s1) t' + if decide (t' = t) then d else 0) →
  u64_ok (used_bytes (quota_store s1) t) →
  ∃ s' l', (commit_accounting acc;; publish_change k kd v;; rotate_wal_if_needed) s1 = (Ok tt, s') ∧
    node_ok s' ∧ env_ok s' l' ∧
    (∀ k', is_data k' → view (storage s') !! k' = view (storage s1) !! k') ∧
    (l' = l1 ∨ is_durable (storage s1) = true ∧ l' = log_rotate l1) ∧
    is_durable (storage s') = is_durable (storage s1) ∧
    config s' = config s1 ∧ clock s' = clock s1 ∧ throttle s' = throttle s1 ∧
    quotas (quota_store s') = quotas (quota_store s1) ∧
    default_quota (quota_store s') = default_quota (quota_store s1).
Proof.
  intros [Hw Hf Hh Hc Ha] Ht Hvals Hfits Hidx Hcov Hsync Hacc Husage Hu.
  assert (∃ b' qs', commit_accounting acc s1 = (Ok tt, set_storage b' (set_store qs' s1)) ∧
    healthy b' ∧ is_durable b' = is_durable (storage s1) ∧
    default_quota qs' = default_quota (quota_store s1) ∧ quotas qs' = quotas (quota_store s1) ∧
    (view b' = view (storage s1) ∨
     ∃ n, view b' = <[usage_key t := ValueCodec.encode (to_be_bytes 8 n) None]> (view (storage s1))) ∧
    ∀ t', used_bytes qs' t' = usage_in (view (storage s1)) t')
    as (b' & qs' & E1 & Hh' & Hd' & Hdef & Hq & Hview & Hused).
  { destruct Hacc as [-> |[-> ->]].
    - destruct (commit_runs t d s1 Ht Hh) as (b' & qs' & E & ? & ? & ? & ? & ? & Hus).
      exists b', qs'. split_and!; try done. intros t'. rewrite Hus, Husage.
      destruct (decide (t' = t)) as [-> |Hne].
      + destruct (decide (t = t ∧ d ≠ 0)) as [[_ Hd0]|Hd0].
        * rewrite apply_delta_exact; [done|done|].
          specialize (Husage t). rewrite decide_True in Husage by done.
          pose proof (usage_in_nonneg (view (storage s1)) t). specialize (Hfits t). lia.
        * assert (d = 0) as -> by (destruct (decide (d = 0)); naive_solver). lia.
      + rewrite decide_False by naive_solver. lia.
    - exists (storage s1), (quota_store s1).
      split_and!; [by destruct s1|done..|by left|].
      intros t'. rewrite Husage. case_decide; lia. }
  destruct (usage_record_harmless _ _ t Ht Hview) as (Hv1 & Hv2 & Hv3 & Hv4 & Hv5).
  set (s2 := set_storage b' (set_store qs' s1)) in E1.
  destruct (publish_runs k kd v s2) as [h E2].
  destruct (rotate_runs (set_watch h s2) l1) as (s' & l' & E3 & Henv & Hv & Hd & Hl & Hs').
  { split; try done. by eapply admitted_agree. }
  exists s', l'. split_and!.
  - erewrite M_bind_ok by exact E1. erewrite M_bind_ok by exact E2. exact E3.
  - rewrite Hs'.
    split; cbn [storage quota_store ttl_index set_storage set_wal set_watch set_store s2];
      rewrite ?Hv; cbn [storage set_storage set_watch s2]; auto.
    + intros t'. by rewrite Hused, Hv2.
    + intros t'. by rewrite Hv2.
    + intros t'. rewrite Hq. by apply Hv4.
  - done.
  - intros k' Hk'. rewrite Hv. by apply Hv5.
  - simpl in Hl. by rewrite Hd' in Hl.
  - by rewrite Hd.
  - by rewrite Hs'.
  - by rewrite Hs'.
  - by rewrite Hs'.
  - by rewrite Hs'.
  - by rewrite Hs'.
Qed.

(** The sizes a write must respect for its counters to be exact: the frame's
    length fields, the engine's limits, 63-bit usage, and the index's count. *)
Record write_fits (s : Service) (t k enc : bytes) : Prop := {
  fits_key : len k < 2 ^ 32;
  fits_value : len enc < 2 ^ 32;
  fits_backend : admits (storage s) k enc;
  fits_usage : usage_in (<[k:=enc]> (view (storage s))) t < 2 ^ 63;
  fits_index : len (scheduled (ttl_index s)) < U64_MAX;
}.

(** How much a write adds to its tenant's usage. *)
Definition growth (s : Service) (t p v : bytes) : Z :=
  len p + len v - weight_at (view (storage s)) t (data_key t p).

Lemma usage_in_put s t p v enc exp :
  values_ok (view (storage s)) → valid_tenant t →
  ValueCodec.decode enc = Ok (mkStoredValue exp v) →
  ∀ t', usage_in (<[data_key t p:=enc]> (view (storage s))) t' =
    usage_in (view (storage s)) t' + if decide (t' = t) then growth s t p v else 0.
Proof.
  intros Hvals Ht Hdec t'. rewrite usage_in_insert, (weight_data t p enc _ t' Ht Hdec).
  cbn [ValueCodec.value]. destruct (decide (t' = t)) as [-> |Hne].
  - rewrite decide_True by done. unfold growth. lia.
  - rewrite decide_False by done. unfold weight_at.
    destruct (view (storage s) !! data_key t p) as [raw|] eqn:E; [|lia].
    destruct (Hvals _ _ E) as [sv Hsv]. rewrite (weight_data t p raw sv t') by done.
    rewrite decide_False by done. lia.
Qed.

Lemma ttl_covered_put m k enc sv g :
  index_ok g → ttl_covered m g → ValueCodec.decode enc = Ok sv →
  len (scheduled g) < U64_MAX →
  let g' := match expires_at_ms sv with Some e => schedule k e g | None => g end in
  index_ok g' ∧ ttl_covered (<[k:=enc]> m) g'.
Proof.
  intros Hidx Hcov Hdec Hi. cbv zeta. split.
  { destruct (expires_at_ms sv); [by apply schedule_ok|done]. }
  intros k' raw sv' e' [[<- <-]|[_ Hr]]%lookup_insert_Some Hsv Hexp.
  - rewrite Hdec in Hsv. injection Hsv as <-. rewrite Hexp. apply schedule_elem. by left.
  - destruct (expires_at_ms sv); [apply schedule_elem; right|]; by eapply Hcov.
Qed.

Lemma put_runs sys t p v ttl s l :
  node_ok s → env_ok s l → valid_tenant t →
  let k := data_key t p in
  let enc := ValueCodec.encode v (expiry s sys ttl) in
  write_fits s t k enc →
  check_write (quota_store s) t (growth s t p v) = Ok tt →
  ∃ s' l', put_with_ttl sys k v ttl s = (Ok tt, s') ∧
    write_effect s s' l l' (<[k:=enc]> (view (storage s))) (Put, k, enc).
Proof.
  intros [Hvals Hused Hfit Hidx Hcov Hsync] Henv Ht k enc [Hk Hv Had Hu Hi] Hq.
  pose proof (env_healthy _ _ Henv) as Hh. pose proof (env_clock _ _ Henv) as Hc.
  assert (ValueCodec.decode enc = Ok (mkStoredValue (expiry s sys ttl) v)) as Hdec.
  { apply decode_encode. by apply expiry_u64. }
  pose proof (usage_in_put s t p v enc _ Hvals Ht Hdec) as Husage. cbv zeta in Husage. fold k in Husage.
  assert (len p + len v < 2 ^ 63) as Hpv.
  { specialize (Husage t). rewrite decide_True in Husage by done. unfold growth in Husage.
    pose proof (weight_at_le (view (storage s)) t k). fold k in Husage. lia. }
  pose proof (plan_runs s t p (len v) Hvals Hh Ht (len_nonneg v) Hpv (Hfit t)) as Eplan.
  fold (growth s t p v) in Eplan. fold k in Eplan.
  destruct (append_runs Put k enc s l Henv Hk Hv) as (sq & w' & Ea & Hw' & Hf').
  destruct (backend_put_runs (storage s) k enc Hh Had) as (b' & Eb & Hvb & Hhb & Hdb).
  set (g' := match expiry s sys ttl with Some e => schedule k e (ttl_index s) | None => ttl_index s end).
  destruct (ttl_covered_put _ k enc (mkStoredValue (expiry s sys ttl) v) _ Hidx Hcov Hdec Hi)
    as [Hidx' Hcov']. fold g' in Hidx', Hcov'.
  destruct (write_tail_runs (set_index g' (set_storage b' (set_wal w' s))) (log_append l Put k enc)
    t (Some (mkAccounting t (growth s t p v))) k ChangePut v (growth s t p v))
    as (s' & l' & Et & Hnode & Henv' & Hdata & Hlog & Hdur & Hcfg & Hclk & Hthr & Hqs & Hdef);
    cbn [storage quota_store ttl_index set_index set_storage set_wal]; rewrite ?Hvb; try done.
  - split; try done. apply (admitted_agree (storage s)); [done|].
    apply Forall_app. split; [apply Henv|by apply Forall_singleton].
  - intros k' raw [[<- <-]|[_ Hr]]%lookup_insert_Some; [eauto|by eapply Hvals].
  - intros t'. rewrite Husage. destruct (decide (t' = t)) as [-> |Hne].
    + specialize (Husage t). rewrite decide_True in Husage by done. lia.
    + specialize (Hfit t'). lia.
  - unfold k. by apply synced_data.
  - by left.
  - intros t'. by rewrite Husage, Hused.
  - rewrite Hused. pose proof (usage_in_nonneg (view (storage s)) t). specialize (Hfit t).
    unfold u64_ok. lia.
  - exists s', l'. split.
    + unfold put_with_ttl. erewrite M_bind_ok by reflexivity. fold (expiry s sys ttl).
      erewrite M_bind_ok by (rewrite Eplan; reflexivity). cbn [acc_tenant delta].
      erewrite M_bind_ok by (rewrite Hq; reflexivity). cbv zeta. fold enc.
      erewrite M_bind_ok by exact Ea.
      erewrite M_bind_ok by (apply zoom_run; exact Eb).
      erewrite (M_bind_ok _ _ _ tt (set_index g' (set_storage b' (set_wal w' s)))).
      * exact Et.
      * unfold g'. by destruct (expiry s sys ttl); destruct s.
    + split; try done.
      * intros k' Hk'. rewrite Hdata by done.
        cbn [storage set_index set_storage]. by rewrite Hvb.
      * simpl in Hlog. by rewrite Hdb in Hlog.
      * by rewrite Hdur.
Qed.

Lemma delete_runs t p s l :
  node_ok s → env_ok s l → valid_tenant t →
  let k := data_key t p in
  len k < 2 ^ 32 → admits (storage s) k [] →
  ∃ s' l', delete_key k s = (Ok tt, s') ∧
    write_effect s s' l l' (delete k (view (storage s))) (Delete, k, []).
Proof.
  intros [Hvals Hused Hfit Hidx Hcov Hsync] Henv Ht k Hk Had.
  pose proof (env_healthy _ _ Henv) as Hh.
  pose proof (plan_delete_runs s t p Hvals Hh Ht (Hfit t)) as Eplan. fold k in Eplan.
  set (d := - weight_at (view (storage s)) t k) in Eplan.
  set (acc := match view (storage s) !! k with
              | Some _ => Some (mkAccounting t d) | None => None end) in Eplan.
  assert (∀ t', usage_in (delete k (view (storage s))) t' =
    usage_in (view (storage s)) t' + if decide (t' = t) then d else 0) as Husage.
  { intros t'. rewrite usage_in_delete. destruct (decide (t' = t)) as [-> |Hne]; [lia|].
    unfold weight_at. destruct (view (storage s) !! k) as [raw|] eqn:E; [|lia].
    destruct (Hvals _ _ E) as [sv Hsv]. unfold k. rewrite (weight_data t p raw sv t') by done.
    rewrite decide_False by done. lia. }
  destruct (append_runs Delete k [] s l Henv Hk ltac:(done)) as (sq & w' & Ea & Hw' & Hf').
  destruct (backend_delete_runs (storage s) k Hh Had) as (b' & Eb & Hvb & Hhb & Hdb).
  destruct (write_tail_runs (set_storage b' (set_wal w' s)) (log_append l Delete k [])
    t acc k ChangeDelete [] d)
    as (s' & l' & Et & Hnode & Henv' & Hdata & Hlog & Hdur & Hcfg & Hclk & Hthr & Hqs & Hdef);
    cbn [storage quota_store ttl_index set_storage set_wal]; rewrite ?Hvb; try done.
  - split; [done|done|done|apply Henv|]. apply (admitted_agree (storage s)); [done|].
    apply Forall_app. split; [apply Henv|by apply Forall_singleton].
  - intros k' raw [_ Hr]%lookup_delete_Some. by eapply Hvals.
  - intros t'. pose proof (usage_in_delete (view (storage s)) t' k) as Hd'.
    pose proof (weight_at_le (view (storage s)) t' k). specialize (Hfit t'). lia.
  - intros k' raw sv e [_ Hr]%lookup_delete_Some. by eapply Hcov.
  - unfold k. by apply synced_data.
  - unfold acc, d, weight_at. destruct (view (storage s) !! k); [by left|by right].
  - intros t'. by rewrite Husage, Hused.
  - rewrite Hused. pose proof (usage_in_nonneg (view (storage s)) t). specialize (Hfit t).
    unfold u64_ok. lia.
  - exists s', l'. split.
    + unfold delete_key. erewrite M_bind_ok by (rewrite Eplan; reflexivity).
      erewrite M_bind_ok by exact Ea.
      erewrite M_bind_ok by (apply zoom_run; exact Eb). exact Et.
    + split; try done.
      * intros k' Hk'. rewrite Hdata by done. cbn [storage set_storage]. by rewrite Hvb.
      * simpl in Hlog. by rewrite Hdb in Hlog.
      * by rewrite Hdur.
Qed.

(** The quota is settled before anything is written. *)
Lemma put_refused sys t p v ttl s l e :
  node_ok s → env_ok s l → valid_tenant t →
  len p + len v < 2 ^ 63 →
  check_write (quota_store s) t (growth s t p v) = Err e →
  put_with_ttl sys (data_key t p) v ttl s = (Err e, s).
Proof.
  intros [Hvals _ Hfit _ _ _] Henv Ht Hpv Hq.
  pose proof (plan_runs s t p (len v) Hvals (env_healthy _ _ Henv) Ht (len_nonneg v) Hpv (Hfit t))
    as Eplan. fold (growth s t p v) in Eplan.
  unfold put_with_ttl. erewrite M_bind_ok by reflexivity.
  erewrite M_bind_ok by (rewrite Eplan; reflexivity). cbn [acc_tenant delta].
  erewrite M_bind_err by (rewrite Hq; reflexivity). done.
Qed.

Lemma write_fits_len s t p v exp :
  values_ok (view (storage s)) → valid_tenant t →
  match exp with Some e => u64_ok e | None => True end →
  usage_in (<[data_key t p:=ValueCodec.encode v exp]> (view (storage s))) t < 2 ^ 63 →
  len p + len v < 2 ^ 63.
Proof.
  intros Hv Ht He Hu.
  rewrite (usage_in_put s t p v _ exp) in Hu by (done || by apply decode_encode).
  rewrite decide_True in Hu by done. unfold growth in Hu.
  pose proof (weight_at_le (view (storage s)) t (data_key t p)). lia.
Qed.

(** ** Reads *)

(** What a read at time [n] may see of a map. *)
Definition visible (m : gmap bytes bytes) (n : Z) (k : bytes) : option bytes :=
  match m !! k with
  | Some raw =>
      match ValueCodec.decode raw with
      | Ok sv => if expired sv n then None else Some (ValueCodec.value sv)
      | _ => None
      end
  | None => None
  end.

Lemma get_runs s sys k :
  values_ok (view (storage s)) → healthy (storage s) →
  get s sys k = Ok (visible (view (storage s)) (now s sys) k).
Proof.
  intros Hv Hh. unfold get, visible. rewrite backend_get_runs by done. unfold_monad.
  destruct (view (storage s) !! k) as [raw|] eqn:E; [|done].
  destruct (Hv _ _ E) as [sv Hsv]. rewrite is_expired_decode, Hsv. unfold_monad.
  by destruct (expired sv (now s sys)).
Qed.

Lemma visible_agree m1 m2 n k : m1 !! k = m2 !! k → visible m1 n k = visible m2 n k.
Proof. unfold visible. by intros ->. Qed.

Lemma visible_insert m k v exp n k' :
  match exp with Some e => u64_ok e | None => True end →
  visible (<[k:=ValueCodec.encode v exp]> m) n k' =
  if decide (k' = k) then
    (if (match exp with Some e => e <=? n | None => false end : bool) then None else Some v)
  else visible m n k'.
Proof.
  intros He. unfold visible. case_decide as Hk.
  - subst. rewrite lookup_insert_eq, decode_encode by done. by destruct exp.
  - by rewrite lookup_insert_ne.
Qed.

Lemma visible_delete m k n k' :
  visible (delete k m) n k' = if decide (k' = k) then None else visible m n k'.
Proof.
  unfold visible. case_decide as Hk.
  - subst. by rewrite lookup_delete_eq.
  - by rewrite lookup_delete_ne.
Qed.

Lemma filter_entry_visible m n k raw :
  m !! k = Some raw →
  filter_entry n (k, raw) = (λ v, (k, v)) <$> visible m n k.
Proof.
  intros E. unfold filter_entry, visible. cbn [fst snd]. rewrite E, is_expired_decode.
  pose proof (decode_value_no_panic raw).
  destruct (ValueCodec.decode raw) as [sv| |]; unfold_monad; [|done..].
  by destruct (expired sv n).
Qed.

Lemma scan_range_runs s sys a b :
  healthy (storage s) → (a ≤ b)%bytes →
  scan_range s sys a b =
  Ok (omap (filter_entry (now s sys)) (entries (key_in_range a b) (view (storage s)))).
Proof.
  intros Hh Hab. unfold scan_range. pose proof (scan_range_law (storage s) a b Hab) as Hs.
  destruct (st_scan_range (storage s) a b); simpl in Hs; [by subst|done..].
Qed.

(** A filtered scan lists what is visible, in key order. *)
Lemma filtered_entries P m n :
  let l := omap (filter_entry n) (entries P m) in
  (∀ k v, (k, v) ∈ l ↔ visible m n k = Some v ∧ P k = true) ∧ StronglySorted bytes_lt (l.*1).
Proof.
  cbv zeta.
  assert (∀ kv, kv ∈ entries P m → filter_entry n kv = (λ v, (kv.1, v)) <$> visible m n kv.1) as Hf.
  { intros [k raw] [Hk _]%elem_of_entries. by apply filter_entry_visible. }
  split.
  - intros k v. rewrite list_elem_of_omap. split.
    + intros ([k' raw] & Hin & Hfe). rewrite (Hf _ Hin) in Hfe.
      apply elem_of_entries in Hin as [Hm HP]. simpl in Hfe.
      destruct (visible m n k') eqn:Hvis; simplify_eq/=. done.
    + intros [Hvis HP]. assert (∃ raw, m !! k = Some raw) as [raw Hraw].
      { unfold visible in Hvis. destruct (m !! k); [eauto|done]. }
      exists (k, raw). assert ((k, raw) ∈ entries P m) as Hin by (by apply elem_of_entries).
      split; [done|]. rewrite (Hf _ Hin). simpl. by rewrite Hvis.
  - pose proof (entries_sorted P m) as Hs. revert Hs Hf.
    induction (entries P m) as [|[k raw] l IH]; csimpl; intros Hs Hf; [constructor|].
    apply StronglySorted_inv in Hs as [Hs Hk].
    assert (StronglySorted bytes_lt ((omap (filter_entry n) l).*1)) as IH'.
    { apply IH; [done|]. intros kv Hin. apply Hf. by right. }
    destruct (filter_entry n (k, raw)) as [[k' v]|] eqn:E; [|done].
    rewrite (Hf (k, raw)) in E by (by left). simpl in E.
    destruct (visible m n k); simplify_eq/=. csimpl. constructor; [done|].
    apply Forall_forall. intros k'' ([? v''] & -> & Hin)%list_elem_of_fmap. simpl.
    apply list_elem_of_omap in Hin as ([k0 raw0] & Hin & Hfe).
    rewrite (Hf (k0, raw0)) in Hfe by (by right). simpl in Hfe.
    destruct (visible m n k0); simplify_eq/=.
    rewrite Forall_forall in Hk. apply Hk. apply list_elem_of_fmap. by eexists (_, _).
Qed.

(** ** Start-up *)

(** One entry of the start-up scan. *)
Lemma bootstrap_entry_step acc k raw :
  (∀ t, 0 ≤ default 0 (sc_usage acc !! t)) → index_ok (sc_index acc) →
  (∀ t, default 0 (sc_usage acc !! t) + weight t (k, raw) < 2 ^ 64) →
  len (scheduled (sc_index acc)) < U64_MAX →
  let acc1 := bootstrap_entry acc (k, raw) in
  (∀ t, default 0 (sc_usage acc1 !! t) = default 0 (sc_usage acc !! t) + weight t (k, raw)) ∧
  index_ok (sc_index acc1) ∧ len (scheduled (sc_index acc1)) ≤ len (scheduled (sc_index acc)) + 1 ∧
  (∀ p, p ∈ scheduled (sc_index acc) → p ∈ scheduled (sc_index acc1)) ∧
  (∀ sv e, ValueCodec.decode raw = Ok sv → expires_at_ms sv = Some e →
     (e, k) ∈ scheduled (sc_index acc1)).
Proof.
  intros Hpos Hidx Hfit Hlen. unfold bootstrap_entry, weight in *. cbn [fst snd] in *.
  destruct (ValueCodec.decode raw) as [sv| |] eqn:Hd.
  2,3: split_and!; [|done|lia|done|done]; intros; repeat case_match; lia.
  set (acc0 := match expires_at_ms sv with Some exp => _ | None => acc end).
  assert (sc_usage acc0 = sc_usage acc ∧ index_ok (sc_index acc0) ∧
    len (scheduled (sc_index acc0)) ≤ len (scheduled (sc_index acc)) + 1 ∧
    (∀ p, p ∈ scheduled (sc_index acc) → p ∈ scheduled (sc_index acc0)) ∧
    (∀ e, expires_at_ms sv = Some e → (e, k) ∈ scheduled (sc_index acc0))) as (Hu0 & Hrest).
  { unfold acc0. destruct (expires_at_ms sv) as [e|]; [|split_and!; [done..|lia|done|done]].
    simpl. split_and!; [done|by apply schedule_ok| | |].
    - by apply schedule_len.
    - intros p Hp. apply schedule_elem. by right.
    - intros e' [= <-]. apply schedule_elem. by left. }
  destruct (KeyCodec.decode k) as [[[t' sub] p]| |] eqn:Hk.
  2,3: rewrite Hu0; destruct Hrest as (?&?&?&He); split_and!; [intros; lia|done..|by intros ?? [= <-] ?%He].
  destruct sub.
  1,3,4: rewrite Hu0; destruct Hrest as (?&?&?&He);
    split_and!; [intros; lia|done..|by intros ?? [= <-] ?%He].
  cbn [sc_usage sc_index]. destruct Hrest as (?&?&?&He).
  split_and!; [|done..|by intros ?? [= <-] ?%He].
  intros t. rewrite Hu0. specialize (Hfit t). specialize (Hpos t).
  pose proof (len_nonneg p). pose proof (len_nonneg (ValueCodec.value sv)).
  destruct (decide (t' = t)) as [-> |Hne].
  - rewrite lookup_insert_eq. simpl. rewrite (entry_bytes_exact (len p)) by lia.
    apply wrap_add64_id. unfold u64_ok. lia.
  - rewrite lookup_insert_ne by done. lia.
Qed.

(** The fold of the start-up scan, from any accumulator: totals add up the
    entries' weights, and every expiry is scheduled. *)
Lemma bootstrap_fold l acc :
  (∀ t, default 0 (sc_usage acc !! t) + sum_with (weight t) l < 2 ^ 64) →
  (∀ t, 0 ≤ default 0 (sc_usage acc !! t)) →
  index_ok (sc_index acc) → len (scheduled (sc_index acc)) + len l < U64_MAX →
  let acc' := fold_left bootstrap_entry l acc in
  (∀ t, default 0 (sc_usage acc' !! t) = default 0 (sc_usage acc !! t) + sum_with (weight t) l) ∧
  index_ok (sc_index acc') ∧
  (∀ p, p ∈ scheduled (sc_index acc) → p ∈ scheduled (sc_index acc')) ∧
  (∀ k raw sv e, (k, raw) ∈ l → ValueCodec.decode raw = Ok sv → expires_at_ms sv = Some e →
     (e, k) ∈ scheduled (sc_index acc')).
Proof.
  revert acc. induction l as [|[k raw] l IH]; intros acc Hfit Hpos Hidx Hlen acc'.
  { unfold acc'. simpl. split_and!; [|done|done|set_solver].
    intros t. unfold sum_with. simpl. lia. }
  set (acc1 := bootstrap_entry acc (k, raw)).
  assert (∀ t, sum_with (weight t) ((k, raw) :: l) = weight t (k, raw) + sum_with (weight t) l) as Hsum
    by done.
  assert ((∀ t, default 0 (sc_usage acc1 !! t) = default 0 (sc_usage acc !! t) + weight t (k, raw)) ∧
    index_ok (sc_index acc1) ∧ len (scheduled (sc_index acc1)) ≤ len (scheduled (sc_index acc)) + 1 ∧
    (∀ p, p ∈ scheduled (sc_index acc) → p ∈ scheduled (sc_index acc1)) ∧
    (∀ sv e, ValueCodec.decode raw = Ok sv → expires_at_ms sv = Some e →
       (e, k) ∈ scheduled (sc_index acc1))) as (Hu1 & Hi1 & Hl1 & Hp1 & He1).
  { apply (bootstrap_entry_step acc k raw); [done..| |].
    - intros t. specialize (Hfit t). rewrite Hsum in Hfit.
      pose proof (sum_with_nonneg (weight t) l (weight_nonneg t)). lia.
    - rewrite len_cons in Hlen. pose proof (len_nonneg l). lia. }
  destruct (IH acc1) as (Hu & Hi & Hp & He).
  - intros t. rewrite Hu1. specialize (Hfit t). rewrite Hsum in Hfit. lia.
  - intros t. rewrite Hu1. specialize (Hpos t). pose proof (weight_nonneg t (k, raw)). lia.
  - done.
  - rewrite len_cons in Hlen. lia.
  - change acc' with (fold_left bootstrap_entry l acc1). split_and!; [|done|auto|].
    + intros t. rewrite Hu, Hu1, Hsum. lia.
    + intros k' raw' sv e [[= -> ->]|Hin]%elem_of_cons Hd Hexp; [|by eapply He].
      apply Hp. by eapply He1.
Qed.

Lemma filter_no_prefix (l : list (bytes * bytes)) :
  filter (λ kv, starts_with [] kv.1 = true) l = l.
Proof. induction l as [|kv l IH]; [done|]. by rewrite filter_cons_True, IH. Qed.

Lemma sum_with_entries (m : gmap bytes bytes) t :
  sum_with (weight t) (entries (starts_with []) m) = usage_in m t.
Proof.
  unfold usage_in. apply sum_with_perm. unfold entries.
  by rewrite sort_by_key_perm, filter_no_prefix.
Qed.

Lemma len_entries (m : gmap bytes bytes) :
  len (entries (starts_with []) m) = Z.of_nat (size m).
Proof.
  unfold entries, len. by rewrite sort_by_key_perm, filter_no_prefix, length_map_to_list.
Qed.

(** The start-up scan rebuilds the counters and the index from the data. *)
Lemma bootstrap_runs s :
  healthy (storage s) → ttl_index s = TtlIndex.new →
  (∀ t, usage_in (view (storage s)) t < 2 ^ 63) → Z.of_nat (size (view (storage s))) < U64_MAX →
  ∃ n qs' g', bootstrap_from_storage s = (Ok n, set_store qs' (set_index g' s)) ∧
    quotas qs' = quotas (quota_store s) ∧ default_quota qs' = default_quota (quota_store s) ∧
    (∀ t, used_bytes qs' t = usage_in (view (storage s)) t) ∧
    index_ok g' ∧ ttl_covered (view (storage s)) g'.
Proof.
  intros Hh Hnew Hfit Hsize. unfold bootstrap_from_storage.
  pose proof (scan_law (storage s) []) as Hscan.
  destruct (st_scan (storage s) []) as [l| |]; cbn [read_spec] in Hscan; [subst l|done..].
  destruct (bootstrap_fold (entries (starts_with []) (view (storage s))) (mkScan (ttl_index s) ∅ 0))
    as (Hu & Hi & _ & He); cbn [sc_usage sc_index].
  - intros t. rewrite sum_with_entries, lookup_empty. specialize (Hfit t). cbn [from_option]. lia.
  - intros t. by rewrite lookup_empty.
  - rewrite Hnew. apply new_ok.
  - rewrite Hnew, len_entries. exact Hsize.
  - cbn [sc_usage sc_index] in *. set (acc := fold_left _ _ _) in *.
    eexists _, _, _. split; [reflexivity|]. split_and!; [done|done| |done|].
    + intros t. unfold used_bytes. rewrite reset_usage_lookup by apply NoDup_fst_map_to_list.
      rewrite list_to_map_to_list, Hu, sum_with_entries, lookup_empty. done.
    + intros k raw sv e Hk. apply He. apply elem_of_entries. by split.
Qed.

Lemma load_quotas_runs (b : StorageBackend F) qs :
  healthy b → values_ok (view b) →
  ∃ n qs', load_quotas (qs, b) = (Ok n, (qs', b)) ∧ synced qs' (view b) ∧
    default_quota qs' = default_quota qs.
Proof.
  intros Hh Hv. unfold load_quotas. cbn [fst snd].
  pose proof (scan_law b []) as Hscan.
  destruct (st_scan b []) as [l| |]; cbn [read_spec] in Hscan; [subst l|done..].
  destruct (load_loop (entries (starts_with []) (view b)) (set_quotas (λ _, ∅) qs) 0)
    as (qs' & n & E & Hd & Hu & Hq).
  - apply entries_NoDup.
  - intros t raw Ht [Hin _]%elem_of_entries. by eapply Hv.
  - rewrite E. exists n, qs'. split_and!; [done| |done].
    intros t. rewrite Hq, entries_all_map. simpl. by case_match.
Qed.

Lemma boot_runs s0 l rec :
  env_ok s0 l → records rec = log_records l → ttl_index s0 = TtlIndex.new →
  let m := replay_map (log_records l) (view (storage s0)) in
  values_ok m → (∀ t, usage_in m t < 2 ^ 63) → Z.of_nat (size m) < U64_MAX →
  ∃ s l', boot rec s0 = (Ok tt, s) ∧ node_ok s ∧ env_ok s l' ∧ view (storage s) = m ∧
    is_durable (storage s) = is_durable (storage s0) ∧
    (l' = l ∨ is_durable (storage s0) = true ∧ l' = log_rotate l) ∧
    clock s = clock s0 ∧ config s = config s0.
Proof.
  intros [Hw Hf Hh Hc Ha] Hrec Hnew m Hvals Hfit Hsize.
  destruct (replay_runs (log_records l) (storage s0) Hh (admitted_records _ _ Ha)) as (b1 & E1 & Hv1 & Hh1 & Hd1).
  fold m in Hv1. set (s1 := set_storage b1 s0).
  assert (∃ s2 l', when (is_durable (storage s1)) (in_storage st_flush;; in_wal rotate) s1
      = (Ok tt, s2) ∧ env_ok s2 l' ∧ view (storage s2) = m ∧
      is_durable (storage s2) = is_durable (storage s0) ∧
      (l' = l ∨ is_durable (storage s0) = true ∧ l' = log_rotate l) ∧
      s2 = set_storage (storage s2) (set_wal (wal s2) s0))
    as (s2 & l' & E2 & Henv2 & Hv2 & Hd2 & Hl2 & Hs2).
  { unfold s1. cbn [storage set_storage]. rewrite Hd1.
    destruct (is_durable (storage s0)) eqn:Hdur; cbn [when].
    - destruct (backend_flush_runs b1 Hh1) as (b2 & Eb & Hv & Hh2 & Hd).
      destruct (rotate_rep (wal s0) l Hw Hf) as (w' & Ew & Hw' & Hf').
      exists (set_wal w' (set_storage b2 s0)), (log_rotate l). split_and!.
      + erewrite M_bind_ok by (apply zoom_run; exact Eb). by apply zoom_run.
      + by split.
      + cbn [storage set_storage set_wal]. congruence.
      + simpl. congruence.
      + by right.
      + by destruct s0.
    - exists (set_storage b1 s0), l.
      split_and!; [done| |done|done|by left|by destruct s0].
      split; try done. apply (admitted_agree (storage s0)); [simpl; congruence|exact Ha]. }
  pose proof (env_healthy _ _ Henv2) as Hh2.
  destruct (load_quotas_runs (storage s2) (quota_store s2) Hh2) as (n & qs3 & E3 & Hs3 & Hdef3).
  { by rewrite Hv2. }
  set (s3 := set_storage (storage s2) (set_store qs3 s2)).
  destruct (bootstrap_runs s3) as (n4 & qs4 & g4 & E4 & Hq4 & Hdef4 & Hu4 & Hi4 & Hc4);
    unfold s3; cbn [storage ttl_index set_storage set_store]; rewrite ?Hv2; try done.
  { by rewrite Hs2. }
  fold s3 in E4. unfold s3 in Hq4, Hdef4, Hu4, Hc4.
  cbn [storage quota_store set_storage set_store] in *. rewrite Hv2 in *.
  exists (set_store qs4 (set_index g4 s3)), l'. split_and!.
  - unfold boot. rewrite Hrec. erewrite M_bind_ok by (apply zoom_run; exact E1). fold s1.
    erewrite M_bind_ok by exact E2.
    erewrite M_bind_ok by (unfold in_quotas; apply zoom_run; exact E3).
    cbn [fst snd]. fold s3. by erewrite M_bind_ok by exact E4.
  - split; cbn [storage quota_store ttl_index set_storage set_store set_index s3];
      rewrite ?Hv2; try done. intros t. rewrite Hq4. apply Hs3.
  - destruct Henv2 as [H1 H2 H3 H4 H5]. by split.
  - done.
  - done.
  - done.
  - change (clock s2 = clock s0). by rewrite Hs2.
  - change (config s2 = config s0). by rewrite Hs2.
Qed.

(** A segment that holds [l] with torn bytes behind it, or none yet. *)
Definition segment_left (f : File) (l : Log) : Prop :=
  (f = mkFile [] [] ∧ l = empty_log) ∨
  (∃ torn, parse_frame torn = Err tt ∧ f = mkFile (segment l ++ torn) []).

Lemma segment_opens f l :
  wf_log l → segment_left f l →
  ∃ w rec f', Wal.open f = (Ok (w, rec), f') ∧ wal_rep w l ∧ faults (wal_file w) = [] ∧
    records rec = log_records l.
Proof.
  intros Hl [[-> ->]|(torn & Ht & ->)].
  - destruct open_fresh as (w & r & E & Hw & Hf & Hr). eauto 10.
  - rewrite (open_segment _ torn [] l) by done. eexists _, _, _. split; [done|]. by split; [split|].
Qed.

(** What a node finds when it starts: the backend its configuration names, and a
    segment that holds [l]. *)
Record disk_ok (cfg : NodeConfig) (d : Disk (F:=F)) (st : StorageBackend F) (l : Log) : Prop := {
  disk_dir : mkdir d = Ok tt;
  disk_backend : match backend cfg with
                 | BackendMemory => st = Memory mem_new
                 | BackendFjall => ∃ f, fjall d = Ok f ∧ st = FjallB f
                 end;
  disk_healthy : healthy st;
  disk_log : wf_log l;
  disk_segment : segment_left (segment_file d) l;
  disk_admits : Forall (admitted st) (changes l);
}.

Lemma open_runs cfg c d st l :
  disk_ok cfg d st l → Clock_typed c →
  let m := replay_map (log_records l) (view st) in
  values_ok m → (∀ t, usage_in m t < 2 ^ 63) → Z.of_nat (size m) < U64_MAX →
  ∃ s l', open_with_clock (B:=B) (G:=G) cfg c d = Ok s ∧ node_ok s ∧ env_ok s l' ∧
    view (storage s) = m ∧ is_durable (storage s) = is_durable st ∧
    (l' = l ∨ is_durable st = true ∧ l' = log_rotate l) ∧
    clock s = c ∧ config s = cfg.
Proof.
  intros [Hdir Hbk Hh Hl Hseg Had] Hc m Hvals Hfit Hsize.
  unfold open_with_clock. rewrite Hdir.
  assert (match backend cfg with
    | BackendMemory => mret (Memory mem_new)
    | BackendFjall => f ← fjall d; mret (FjallB f)
    end = Ok (E:=Error) st) as Est.
  { destruct (backend cfg); [by subst|]. destruct Hbk as (f & -> & ->). done. }
  destruct (segment_opens _ l Hl Hseg) as (w & rec & f' & Ew & Hw & Hf & Hrec).
  unfold_monad. cbv [mret mbind result_ret result_bind] in Est. rewrite Est, Ew. cbn [fst].
  set (s0 := mkService cfg st _ c TtlIndex.new _ _ _).
  assert (env_ok s0 l) as Henv0 by (by split).
  destruct (boot_runs s0 l rec) as (s & l' & E & H); [done..|].
  rewrite E. exists s, l'. split; [done|]. exact H.
Qed.

End node.
