(* ===== verification/NodeSpec.v ===== *)
(** * What the node promises

    The abstract key-value store a node implements, the steps a node takes
    (writes, the passing of time, a crash and restart), and the theorem that no
    sequence of steps lets a client see anything but the abstract store; then the
    single-operation guarantees. *)

From Stdlib Require Import Strings.Byte.
From S2P Require Import Prelude Bytes Core KeyCodec ValueCodec Storage Wal TtlIndex Quota.
From S2P Require Import Throttle Watch Config Service Node.

(** ** The abstract store *)

(** Values with their expiry, by tenant and key. *)
Abbreviation Kv := (gmap (bytes * bytes) (bytes * option Z)).

(** A read at time [n]. *)
Definition kv_read (d : Kv) (n : Z) (tp : bytes * bytes) : option bytes :=
  match d !! tp with
  | Some (v, Some e) => if e <=? n then None else Some v
  | Some (v, None) => Some v
  | None => None
  end.

Section spec.
Context {F : Fjall} {FS : FjallSpec} {FO : FjallOk}.
Context {B : Broadcast} {G : Governor} {C : Crc32} {CO : Crc32Ok} {J : QuotaJson}.

Abbreviation Service := (NodeService (F:=F) (B:=B) (G:=G)).

(** A running node, what its backend is known to have on disk, and the abstract
    store. *)
Record World := mkWorld {
  node : Service;
  durable : gmap bytes bytes;
  kv : Kv;
}.

(** The segment holds no record: a durable backend has just been flushed. *)
Definition just_rotated (s : Service) : bool :=
  len (contents (wal_file (wal s))) =? HEADER_LEN.

Definition durable_after (s' : Service) (d : gmap bytes bytes) : gmap bytes bytes :=
  if is_durable (storage s') && just_rotated s' then view (storage s') else d.

(** What a crash of the process may leave: the segment with torn bytes behind it, and a
    backend that has lost or kept each write since the last flush.  Bytes the log has
    handed to the operating system survive; a power failure, which could take appends
    that were not synced, is outside of this. *)
Record crash_disk (s : Service) (d : gmap bytes bytes) (disk : Disk (F:=F))
    (st : StorageBackend F) : Prop := {
  crash_dir : mkdir disk = Ok tt;
  crash_backend : match backend (config s) with
                  | BackendMemory => st = Memory mem_new
                  | BackendFjall => ∃ f, fjall disk = Ok f ∧ st = FjallB f
                  end;
  crash_healthy : healthy st;
  crash_segment : ∃ torn, parse_frame torn = Err tt ∧
    segment_file disk = mkFile (contents (wal_file (wal s)) ++ torn) [];
  crash_values : values_ok (view st);
  crash_data : ∀ l k, wf_log l → contents (wal_file (wal s)) = segment l →
    is_data k → k ∉ touched (log_records l) → view st !! k = d !! k;
  crash_size : ∀ l, wf_log l → contents (wal_file (wal s)) = segment l →
    Z.of_nat (size (replay_map (log_records l) (view st))) < U64_MAX;
}.

Inductive world_step : World → World → Prop :=
| step_put w sys t p v ttl res s' :
    valid_tenant t →
    write_fits (node w) t (data_key t p) (ValueCodec.encode v (expiry (node w) sys ttl)) →
    put_with_ttl sys (data_key t p) v ttl (node w) = (res, s') →
    world_step w (mkWorld s'
      (if is_ok res then durable_after s' (durable w) else durable w)
      (if is_ok res then <[(t, p) := (v, expiry (node w) sys ttl)]> (kv w) else kv w))
| step_delete w t p res s' :
    valid_tenant t → len (data_key t p) < 2 ^ 32 → admits (storage (node w)) (data_key t p) [] →
    delete_key (data_key t p) (node w) = (res, s') →
    world_step w (mkWorld s'
      (if is_ok res then durable_after s' (durable w) else durable w)
      (if is_ok res then delete (t, p) (kv w) else kv w))
| step_tick w s' d :
    s' = mkService (config (node w)) (storage (node w)) (wal (node w)) (advance (clock (node w)) d)
           (ttl_index (node w)) (watch (node w)) (quota_store (node w)) (throttle (node w)) →
    world_step w (mkWorld s' (durable w) (kv w))
| step_crash w disk st s' :
    crash_disk (node w) (durable w) disk st →
    open_with_clock (config (node w)) (clock (node w)) disk = Ok s' →
    world_step w (mkWorld s' (durable_after s' (durable w)) (kv w)).

(** ** The invariant of the refinement *)

(** What storage says about a client's key. *)
Definition stored_entry (m : gmap bytes bytes) (t p : bytes) : option (bytes * option Z) :=
  match m !! data_key t p with
  | Some raw =>
      match ValueCodec.decode raw with
      | Ok sv => Some (ValueCodec.value sv, expires_at_ms sv)
      | _ => None
      end
  | None => None
  end.

Definition kv_matches (d : Kv) (m : gmap bytes bytes) : Prop :=
  (∀ t p, valid_tenant t → d !! (t, p) = stored_entry m t p).

(** The log, replayed over what is on disk, gives the data. *)
Record logged (s : Service) (l : Log) (d : gmap bytes bytes) : Prop := {
  logged_data : Forall (λ r, is_data (key r)) (log_records l);
  logged_view : ∀ k, is_data k → replay_map (log_records l) d !! k = view (storage s) !! k;
}.

Record world_ok (w : World) : Prop := {
  w_node : node_ok (node w);
  w_log : ∃ l, env_ok (node w) l ∧ logged (node w) l (durable w);
  w_kv : kv_matches (kv w) (view (storage (node w)));
  w_backend : match backend (config (node w)) with
              | BackendMemory => is_durable (storage (node w)) = false ∧ durable w = ∅
              | BackendFjall => is_durable (storage (node w)) = true
              end;
}.

Lemma kv_matches_agree d m m' :
  (∀ k, is_data k → m' !! k = m !! k) → kv_matches d m → kv_matches d m'.
Proof.
  intros Hag Hm t p Ht. rewrite Hm by done. unfold stored_entry.
  rewrite Hag; [done|]. by exists t, p.
Qed.

Lemma kv_matches_put d m t p v exp :
  valid_tenant t → match exp with Some e => u64_ok e | None => True end →
  kv_matches d m →
  kv_matches (<[(t, p) := (v, exp)]> d) (<[data_key t p := ValueCodec.encode v exp]> m).
Proof.
  intros Ht He Hm t' p' Ht'. unfold stored_entry.
  destruct (decide ((t', p') = (t, p))) as [[= -> ->]|Hne].
  - rewrite !lookup_insert_eq, decode_encode by done. done.
  - rewrite lookup_insert_ne by done. rewrite lookup_insert_ne; [by apply Hm|].
    intros Heq. apply data_key_inj in Heq as [Ht0 Hp0]; [congruence|done..].
Qed.

Lemma kv_matches_delete d m t p :
  valid_tenant t → kv_matches d m → kv_matches (delete (t, p) d) (delete (data_key t p) m).
Proof.
  intros Ht Hm t' p' Ht'. unfold stored_entry.
  destruct (decide ((t', p') = (t, p))) as [[= -> ->]|Hne].
  - by rewrite !lookup_delete_eq.
  - rewrite lookup_delete_ne by done. rewrite lookup_delete_ne; [by apply Hm|].
    intros Heq. apply data_key_inj in Heq as [Ht0 Hp0]; [congruence|done..].
Qed.

Lemma segment_not_header l o k v :
  len (segment (log_append l o k v)) ≠ HEADER_LEN.
Proof.
  unfold segment at 1. rewrite log_records_append, encode_frames_app, encode_frames_1.
  rewrite !len_app, len_encode_header.
  pose proof (len_nonneg (encode_frames (log_records l))).
  pose proof (encode_frame_pos (mkRecord (log_next l) o k v)). simpl base. lia.
Qed.

Lemma segment_rotated l : len (segment (log_rotate l)) = HEADER_LEN.
Proof. unfold segment. rewrite len_app, len_encode_header. done. Qed.

(** A write keeps log and storage in step. *)
Lemma logged_write s s' l l' d m o k v :
  logged s l d → is_data k → write_effect s s' l l' m (o, k, v) →
  m = apply_record (view (storage s)) (mkRecord (log_next l) o k v) →
  logged s' l' (durable_after s' d) ∧
  (is_durable (storage s) = false → durable_after s' d = d).
Proof.
  intros [Hd Hv] Hk We Hm. pose proof (we_log _ _ _ _ _ _ We) as Hl. simpl in Hl.
  pose proof (rep_file _ _ (env_wal _ _ (we_env _ _ _ _ _ _ We))) as Hfile.
  unfold durable_after, just_rotated. rewrite Hfile.
  destruct Hl as [-> |[Hdur ->]].
  - rewrite (proj2 (Z.eqb_neq _ _)), andb_false_r by apply segment_not_header. split; [|done]. split.
    + rewrite log_records_append. apply Forall_app. split; [done|]. by constructor.
    + intros k' Hk'. rewrite log_records_append, replay_map_app. simpl.
      rewrite (we_data _ _ _ _ _ _ We), Hm by done.
      rewrite !apply_record_lookup. by case_decide; [|apply Hv].
  - rewrite (proj2 (Z.eqb_eq _ _)), (we_durable _ _ _ _ _ _ We), Hdur by apply segment_rotated.
    split; [|done]. by split; [constructor|].
Qed.

(** A write's effect on the world. *)
Lemma world_ok_write w s' l l' m o k v kv' :
  world_ok w → env_ok (node w) l → logged (node w) l (durable w) → is_data k →
  write_effect (node w) s' l l' m (o, k, v) →
  m = apply_record (view (storage (node w))) (mkRecord (log_next l) o k v) →
  kv_matches kv' m →
  world_ok (mkWorld s' (durable_after s' (durable w)) kv').
Proof.
  intros [_ _ _ Hb] Henv Hlog Hk We Hm Hkv.
  destruct (logged_write _ _ _ _ _ _ _ _ _ Hlog Hk We Hm) as [Hlog' Hdur].
  split; simpl.
  - apply We.
  - exists l'. split; [apply We|done].
  - eapply kv_matches_agree; [|done]. apply We.
  - rewrite (we_config _ _ _ _ _ _ We), (we_durable _ _ _ _ _ _ We).
    destruct (backend (config (node w))); [|done]. destruct Hb as [Hb1 Hb2].
    split; [done|]. by rewrite Hdur.
Qed.

Lemma check_write_cases qs t d :
  check_write qs t d = Ok tt ∨ ∃ u l, check_write qs t d = Err (QuotaExceeded t u l).
Proof. unfold check_write. repeat case_match; eauto. Qed.

Lemma world_ok_put w sys t p v ttl res s' :
  world_ok w → valid_tenant t →
  write_fits (node w) t (data_key t p) (ValueCodec.encode v (expiry (node w) sys ttl)) →
  put_with_ttl sys (data_key t p) v ttl (node w) = (res, s') →
  world_ok (mkWorld s'
    (if is_ok res then durable_after s' (durable w) else durable w)
    (if is_ok res then <[(t, p) := (v, expiry (node w) sys ttl)]> (kv w) else kv w)).
Proof.
  intros Hw Ht Hfits Hput. pose proof Hw as [Hn (l & Henv & Hlog) Hkv _].
  pose proof (expiry_u64 (node w) sys ttl (env_clock _ _ Henv)) as Hexp.
  destruct (check_write_cases (quota_store (node w)) t (growth (node w) t p v)) as [Hq|(u & lim & Hq)].
  - destruct (put_runs sys t p v ttl (node w) l Hn Henv Ht Hfits Hq) as (s1 & l' & E & We).
    rewrite E in Hput. injection Hput as <- <-. simpl.
    eapply world_ok_write; [done..| |exact We|done|by apply kv_matches_put].
    by exists t, p.
  - rewrite (put_refused sys t p v ttl (node w) l (QuotaExceeded t u lim) Hn Henv Ht) in Hput.
    + injection Hput as <- <-. simpl. by destruct w.
    + eapply write_fits_len; [apply Hn|done|exact Hexp|apply Hfits].
    + exact Hq.
Qed.

Lemma world_ok_delete w t p res s' :
  world_ok w → valid_tenant t → len (data_key t p) < 2 ^ 32 →
  admits (storage (node w)) (data_key t p) [] →
  delete_key (data_key t p) (node w) = (res, s') →
  world_ok (mkWorld s'
    (if is_ok res then durable_after s' (durable w) else durable w)
    (if is_ok res then delete (t, p) (kv w) else kv w)).
Proof.
  intros Hw Ht Hlen Had Hdel. pose proof Hw as [Hn (l & Henv & Hlog) Hkv _].
  destruct (delete_runs t p (node w) l Hn Henv Ht Hlen Had) as (s1 & l' & E & We).
  rewrite E in Hdel. injection Hdel as <- <-. simpl.
  eapply world_ok_write; [done..| |exact We|done|by apply kv_matches_delete].
  by exists t, p.
Qed.

(** Replaying the log over what a crash left gives the data back. *)
Lemma crash_replay s l d disk st k :
  env_ok s l → logged s l d → crash_disk s d disk st → is_data k →
  replay_map (log_records l) (view st) !! k = view (storage s) !! k.
Proof.
  intros Henv Hlog Hc Hk. rewrite <-(logged_view _ _ _ Hlog) by done.
  apply replay_map_agree. intros Hn.
  apply (crash_data _ _ _ _ Hc l k); [|apply Henv|done|done]. apply (rep_wf _ _ (env_wal _ _ Henv)).
Qed.

Lemma crash_replay_other l st k :
  Forall (λ r, is_data (key r)) (log_records l) → ¬ is_data k →
  replay_map (log_records l) (view (StorageSpec:=StorageBackend_Spec) st) !! k = view st !! k.
Proof.
  intros Hd Hk. apply replay_map_untouched. intros Hin. apply Hk.
  apply list_elem_of_fmap in Hin as (r & -> & Hr). rewrite Forall_forall in Hd. by apply Hd.
Qed.

Lemma crash_durable w disk st :
  world_ok w → crash_disk (node w) (durable w) disk st → is_durable st = is_durable (storage (node w)).
Proof.
  intros [_ _ _ Hb] Hc. pose proof (crash_backend _ _ _ _ Hc) as Hcb.
  destruct (backend (config (node w))); [destruct Hb as [-> _]; by subst|].
  destruct Hcb as (f & _ & ->). by rewrite Hb.
Qed.

Lemma crash_opens_full w l disk st :
  world_ok w → env_ok (node w) l → logged (node w) l (durable w) →
  crash_disk (node w) (durable w) disk st →
  let m := replay_map (log_records l) (view st) in
  (∀ k, is_data k → m !! k = view (storage (node w)) !! k) ∧
  ∃ s' l', open_with_clock (config (node w)) (clock (node w)) disk = Ok s' ∧
    node_ok s' ∧ env_ok s' l' ∧ view (storage s') = m ∧
    is_durable (storage s') = is_durable st ∧
    (l' = l ∨ is_durable st = true ∧ l' = log_rotate l) ∧
    clock s' = clock (node w) ∧ config s' = config (node w).
Proof.
  intros Hw Henv Hlog Hc m. pose proof Hw as [Hn _ Hkv Hb].
  pose proof (rep_file _ _ (env_wal _ _ Henv)) as Hfile.
  pose proof (rep_wf _ _ (env_wal _ _ Henv)) as Hwf.
  assert (∀ k, is_data k → m !! k = view (storage (node w)) !! k) as Hm
    by (intros; by eapply crash_replay).
  split; [done|]. apply open_runs.
  - destruct (crash_segment _ _ _ _ Hc) as (torn & Ht & Hseg). split; try apply Hc; [done| |].
    { right. exists torn. by rewrite <-Hfile. }
    eapply admitted_agree; [by eapply crash_durable|apply Henv].
  - apply Henv.
  - intros k raw Hk. destruct (decide (is_data k)) as [Hdk|Hdk].
    + fold m in Hk. rewrite Hm in Hk by done. by apply (node_values _ Hn k).
    + rewrite crash_replay_other in Hk; [|apply Hlog|done].
      by apply (crash_values _ _ _ _ Hc k).
  - intros t. pose proof (usage_in_agree _ _ t Hm) as Hu. unfold m in Hu. rewrite Hu. apply Hn.
  - by apply (crash_size _ _ _ _ Hc l).
Qed.

Lemma crash_opens w disk st :
  world_ok w → crash_disk (node w) (durable w) disk st →
  ∃ s' l', open_with_clock (config (node w)) (clock (node w)) disk = Ok s' ∧
    node_ok s' ∧ env_ok s' l' ∧
    (∀ k, is_data k → view (storage s') !! k = view (storage (node w)) !! k) ∧
    clock s' = clock (node w).
Proof.
  intros Hw Hc. pose proof Hw as [_ (l & Henv & Hlog) _ _].
  destruct (crash_opens_full w l disk st Hw Henv Hlog Hc)
    as (Hm & s' & l' & E & Hn & Henv' & Hv & _ & _ & Hclk & _).
  exists s', l'. split_and!; [done..| |done]. intros k Hk. by rewrite Hv, Hm.
Qed.

Lemma world_ok_crash w disk st s' :
  world_ok w → crash_disk (node w) (durable w) disk st →
  open_with_clock (config (node w)) (clock (node w)) disk = Ok s' →
  world_ok (mkWorld s' (durable_after s' (durable w)) (kv w)).
Proof.
  intros Hw Hc Hopen. pose proof Hw as [_ (l & Henv & Hlog) Hkv Hb].
  destruct (crash_opens_full w l disk st Hw Henv Hlog Hc)
    as (Hm & s1 & l' & E & Hn1 & Henv1 & Hv1 & Hd1 & Hl1 & _ & Hcfg1).
  rewrite E in Hopen. injection Hopen as ->.
  pose proof (rep_file _ _ (env_wal _ _ Henv1)) as Hfile1.
  pose proof (crash_durable _ _ _ Hw Hc) as Hdst.
  split; cbn [node durable kv]; [done| | |].
  - exists l'. split; [done|]. unfold durable_after, just_rotated. rewrite Hfile1.
    destruct (is_durable (storage s') && _) eqn:Hrot; split.
    + destruct Hl1 as [-> |[_ ->]]; [apply Hlog|constructor].
    + intros k Hk. rewrite Hv1. destruct Hl1 as [-> |[_ ->]]; [|done].
      by rewrite replay_map_idemp.
    + destruct Hl1 as [-> |[_ ->]]; [apply Hlog|constructor].
    + intros k Hk. destruct Hl1 as [-> |[Hds ->]].
      * rewrite Hv1, Hm by done. by apply (logged_view _ _ _ Hlog).
      * rewrite Hd1, Hds, segment_rotated in Hrot. done.
  - eapply kv_matches_agree; [|done]. intros k Hk. by rewrite Hv1, Hm.
  - rewrite Hcfg1, Hd1, Hdst. destruct (backend (config (node w))); [|done].
    destruct Hb as [Hb1 Hb2]. split; [done|]. unfold durable_after. by rewrite Hd1, Hdst, Hb1.
Qed.

Lemma world_ok_step w w' : world_ok w → world_step w w' → world_ok w'.
Proof.
  intros Hw Hs. destruct Hs as [w sys t p v ttl res s'|w t p res s'|w s' d ->|w disk st s'].
  - by apply world_ok_put.
  - by apply world_ok_delete.
  - destruct Hw as [[H1 H2 H3 H4 H5 H6] (l & [E1 E2 E3 E4] & [L1 L2]) Hkv Hb].
    split; [by split| |done|done]. exists l. split; [split; try done; by apply advance_typed|by split].
  - by eapply world_ok_crash.
Qed.

Lemma world_ok_steps w w' : world_ok w → rtc world_step w w' → world_ok w'.
Proof. intros Hw Hs. induction Hs; eauto using world_ok_step. Qed.

(** A node that starts on a disk with no data. *)
Lemma world_ok_fresh cfg c disk st s0 :
  disk_ok cfg disk st empty_log → view st = ∅ → Clock_typed c →
  open_with_clock cfg c disk = Ok s0 → world_ok (mkWorld s0 ∅ ∅).
Proof.
  intros Hd Hst Hc Hopen.
  assert (replay_map (log_records empty_log) (view st) = ∅) as Hm by (by rewrite Hst).
  assert (∀ t, usage_in ∅ t = 0) as Hu by (intros; unfold usage_in; by rewrite map_to_list_empty).
  destruct (open_runs (B:=B) (G:=G) cfg c disk st empty_log Hd Hc)
    as (s & l' & E & Hn & Henv & Hv & Hdur & Hl & _ & Hcfg); rewrite ?Hm.
  { intros k raw Hk. by rewrite lookup_empty in Hk. }
  { intros t. by rewrite Hu. }
  { by rewrite map_size_empty. }
  rewrite E in Hopen. injection Hopen as ->. rewrite Hm in Hv.
  split; cbn [node durable kv]; [done| | |].
  - exists l'. split; [done|].
    assert (log_records l' = []) as Hnil by (by destruct Hl as [-> |[_ ->]]).
    split; rewrite Hnil; [constructor|]. intros k _. by rewrite Hv.
  - intros t p Ht. unfold stored_entry. by rewrite Hv, !lookup_empty.
  - rewrite Hcfg, Hdur. pose proof (disk_backend _ _ _ _ Hd) as Hb.
    destruct (backend cfg); [by subst|]. by destruct Hb as (f & _ & ->).
Qed.

Lemma kv_read_visible d m n t p :
  kv_matches d m → valid_tenant t → kv_read d n (t, p) = visible m n (data_key t p).
Proof.
  intros Hm Ht. unfold kv_read, visible. rewrite Hm by done. unfold stored_entry.
  destruct (m !! data_key t p) as [raw|]; [|done].
  destruct (ValueCodec.decode raw) as [sv| |]; [|done..]. unfold expired.
  by destruct (expires_at_ms sv).
Qed.

(** ** Properties *)

(** C1: a node is a key-value store with expiry.  Start a node on an empty disk and
    let it take any sequence of steps: writes with or without a time to live (some
    of them refused by a quota) and deletes, of entries within the sizes the formats and
    the storage engine take, the passing of time, and crashes that
    leave torn bytes behind the log and lose, on a durable backend, any part of
    what was written since the last flush, each followed by a restart.  At every
    point, reading a key gives exactly what the abstract map of accepted writes
    holds and has not expired. *)
Theorem node_refines_kv cfg c disk st s0 w
    (Hd : disk_ok cfg disk st empty_log) (Hst : view st = ∅) (Hc : Clock_typed c)
    (Hopen : open_with_clock cfg c disk = Ok s0)
    (Hsteps : rtc world_step (mkWorld s0 ∅ ∅) w) :
  ∀ sys t p, valid_tenant t →
    get (node w) sys (data_key t p) = Ok (kv_read (kv w) (now (node w) sys) (t, p)).
Proof.
  assert (world_ok w) as [Hn (l & Henv & _) Hkv _].
  { eapply world_ok_steps; [|done]. by eapply world_ok_fresh. }
  intros sys t p Ht. rewrite get_runs by (apply Hn || apply Henv).
  by rewrite <-(kv_read_visible (kv w)).
Qed.

(** C3: the bookkeeping never drifts.  At every point of any such sequence, each
    tenant's usage counter is the exact number of bytes its data occupies, every
    entry with an expiry is in the expiry index at its time, the quota cache agrees
    with the quota records, and every stored value decodes. *)
Theorem node_invariant_reachable cfg c disk st s0 w
    (Hd : disk_ok cfg disk st empty_log) (Hst : view st = ∅) (Hc : Clock_typed c)
    (Hopen : open_with_clock cfg c disk = Ok s0)
    (Hsteps : rtc world_step (mkWorld s0 ∅ ∅) w) :
  let s := node w in
  (∀ t, used_bytes (quota_store s) t = usage_in (view (storage s)) t) ∧
  ttl_covered (view (storage s)) (ttl_index s) ∧ index_ok (ttl_index s) ∧
  synced (quota_store s) (view (storage s)) ∧ values_ok (view (storage s)).
Proof.
  assert (world_ok w) as [[H1 H2 H3 H4 H5 H6] _ _ _].
  { eapply world_ok_steps; [|done]. by eapply world_ok_fresh. }
  done.
Qed.

(** a write within quota succeeds and is read back.  On a node in order, with a
    working log and backend, a put that its tenant's quota admits returns [Ok];
    from then on the key reads as the value until the clock reaches the expiry and
    as absent after it, every other client key reads exactly as before, and the
    node is still in order. *)
Theorem put_is_read_back sys t p v ttl s l
    (Hn : node_ok s) (Henv : env_ok s l) (Ht : valid_tenant t)
    (Hfits : write_fits s t (data_key t p) (ValueCodec.encode v (expiry s sys ttl)))
    (Hq : check_write (quota_store s) t (growth s t p v) = Ok tt) :
  ∃ s' l', put_with_ttl sys (data_key t p) v ttl s = (Ok tt, s') ∧ node_ok s' ∧ env_ok s' l' ∧
    ∀ sys' t' p', valid_tenant t' →
      get s' sys' (data_key t' p') =
      if decide ((t', p') = (t, p)) then
        Ok (if (match expiry s sys ttl with Some e => e <=? now s sys' | None => false end : bool)
            then None else Some v)
      else get s sys' (data_key t' p').
Proof.
  destruct (put_runs sys t p v ttl s l Hn Henv Ht Hfits Hq) as (s' & l' & E & We).
  exists s', l'. split_and!; [done|apply We|apply We|]. intros sys' t' p' Ht'.
  destruct We as [Hn' Henv' Hdata _ _ _ Hclk _ _ _].
  rewrite !get_runs by (apply Hn || apply Hn' || apply Henv || apply Henv').
  assert (now s' sys' = now s sys') as -> by (unfold now; by rewrite Hclk).
  rewrite (visible_agree _ _ _ _ (Hdata (data_key t' p') (ex_intro _ t' (ex_intro _ p' (conj Ht' eq_refl))))).
  rewrite visible_insert by (apply expiry_u64, Henv).
  destruct (decide ((t', p') = (t, p))) as [[= -> ->]|Hne].
  - by rewrite decide_True.
  - rewrite decide_False; [done|]. intros Heq. apply data_key_inj in Heq as [??]; [congruence|done..].
Qed.

(** deletes take.  On a node in order with a working log and backend, a delete
    returns [Ok], the key then reads as absent at any time, every other client key
    reads as before, and the node is still in order. *)
Theorem delete_is_read_back t p s l (Hn : node_ok s) (Henv : env_ok s l) (Ht : valid_tenant t)
    (Hlen : len (data_key t p) < 2 ^ 32) (Had : admits (storage s) (data_key t p) []) :
  ∃ s' l', delete_key (data_key t p) s = (Ok tt, s') ∧ node_ok s' ∧ env_ok s' l' ∧
    ∀ sys' t' p', valid_tenant t' →
      get s' sys' (data_key t' p') =
      if decide ((t', p') = (t, p)) then Ok None else get s sys' (data_key t' p').
Proof.
  destruct (delete_runs t p s l Hn Henv Ht Hlen Had) as (s' & l' & E & We).
  exists s', l'. split_and!; [done|apply We|apply We|]. intros sys' t' p' Ht'.
  destruct We as [Hn' Henv' Hdata _ _ _ Hclk _ _ _].
  rewrite !get_runs by (apply Hn || apply Hn' || apply Henv || apply Henv').
  assert (now s' sys' = now s sys') as -> by (unfold now; by rewrite Hclk).
  rewrite (visible_agree _ _ _ _ (Hdata (data_key t' p') (ex_intro _ t' (ex_intro _ p' (conj Ht' eq_refl))))).
  rewrite visible_delete.
  destruct (decide ((t', p') = (t, p))) as [[= -> ->]|Hne].
  - by rewrite decide_True.
  - rewrite decide_False; [done|]. intros Heq. apply data_key_inj in Heq as [??]; [congruence|done..].
Qed.

(** C20: quotas hold, against the data and not only against a counter.  A put either
    succeeds, and then the tenant had no byte limit, or the write did not grow its
    data, or the bytes its data now occupies are within the limit; or it is refused
    as [QuotaExceeded] because it would have grown them to more than the limit, and then
    no part of the node has changed: no log record, no entry, no counter, no
    notification.  So a write that does not grow its tenant's data is never refused,
    however far the tenant is over its limit. *)
Theorem put_respects_quota sys t p v ttl s l
    (Hn : node_ok s) (Henv : env_ok s l) (Ht : valid_tenant t)
    (Hfits : write_fits s t (data_key t p) (ValueCodec.encode v (expiry s sys ttl)))
    (Hlim : 0 ≤ max_bytes (quota (quota_store s) t) < U64_MAX) :
  let limit := max_bytes (quota (quota_store s) t) in
  let total := usage_in (view (storage s)) t + growth s t p v in
  (∃ s', put_with_ttl sys (data_key t p) v ttl s = (Ok tt, s') ∧
     usage_in (view (storage s')) t = total ∧
     (limit = 0 ∨ growth s t p v ≤ 0 ∨ total ≤ limit)) ∨
  (put_with_ttl sys (data_key t p) v ttl s = (Err (QuotaExceeded t total limit), s) ∧
     0 < limit ∧ 0 < growth s t p v ∧ limit < total).
Proof.
  intros limit total.
  pose proof (expiry_u64 s sys ttl (env_clock _ _ Henv)) as Hexp.
  pose proof (fits_usage _ _ _ _ Hfits) as Hu.
  rewrite (usage_in_put s t p v _ (expiry s sys ttl)) in Hu
    by (done || apply Hn || by apply decode_encode).
  rewrite decide_True in Hu by done. fold total in Hu.
  assert (check_write (quota_store s) t (growth s t p v) =
    if (limit =? 0) || (growth s t p v <=? 0) || (total <=? limit) then Ok tt
    else Err (QuotaExceeded t total limit)) as Hq.
  { unfold check_write. fold limit. rewrite (node_usage _ Hn).
    destruct (_ || (growth s t p v <=? 0)); [done|]. cbn [orb].
    unfold sat_add64. fold total. rewrite Z.min_l by (unfold U64_MAX; lia). rewrite Z.ltb_antisym. by destruct (total <=? limit). }
  destruct ((limit =? 0) || (growth s t p v <=? 0) || (total <=? limit)) eqn:Hb.
  - left. destruct (put_runs sys t p v ttl s l Hn Henv Ht Hfits Hq) as (s' & l' & E & We).
    exists s'. split_and!; [done| |propify; auto].
    rewrite (usage_in_agree _ _ t (we_data _ _ _ _ _ _ We)).
    rewrite (usage_in_put s t p v _ (expiry s sys ttl)) by (done || apply Hn || by apply decode_encode).
    by rewrite decide_True.
  - right. propify. split_and!; [|lia|lia|lia].
    apply (put_refused sys t p v ttl s l); [done..| |done].
    eapply write_fits_len; [apply Hn|done|exact Hexp|apply Hfits].
Qed.

(** C2: a restart always succeeds and loses nothing.  From any reachable state, on
    whatever a crash may leave, the node opens again and every client key reads,
    at every time, as it did before the crash. *)
Theorem restart_loses_nothing cfg c disk0 st0 s0 w disk st
    (Hd : disk_ok cfg disk0 st0 empty_log) (Hst : view st0 = ∅) (Hc : Clock_typed c)
    (Hopen : open_with_clock cfg c disk0 = Ok s0)
    (Hsteps : rtc world_step (mkWorld s0 ∅ ∅) w)
    (Hcrash : crash_disk (node w) (durable w) disk st) :
  ∃ s', open_with_clock (config (node w)) (clock (node w)) disk = Ok s' ∧ node_ok s' ∧
    ∀ sys t p, valid_tenant t → get s' sys (data_key t p) = get (node w) sys (data_key t p).
Proof.
  assert (world_ok w) as Hw.
  { eapply world_ok_steps; [|done]. by eapply world_ok_fresh. }
  destruct (crash_opens w disk st Hw Hcrash) as (s' & l' & E & Hn' & Henv' & Hdata & Hclk).
  exists s'. split_and!; [done|done|]. intros sys t p Ht.
  pose proof Hw as [Hn (l & Henv & _) _ _].
  rewrite !get_runs by (apply Hn || apply Hn' || apply Henv || apply Henv').
  unfold now. rewrite Hclk. f_equal. apply visible_agree, Hdata. by exists t, p.
Qed.

End spec.
