(* ===== verification/Sample.v ===== *)
(** * A concrete environment

    Instances of every parameter of the model (fjall, broadcast channels, the rate
    limiter, the checksum, JSON), each with the contract its users assume, and a
    small node built from them.  The witnesses of the node-level theorems evaluate
    them. *)

From S2P Require Import Prelude Bytes Core KeyCodec ValueCodec Storage Wal TtlIndex Quota.
From S2P Require Import Throttle Watch Config Service Node NodeSpec.

(** An engine that keeps its map in memory and never fails. *)
Definition sample_fjall : Fjall := {|
  fj_handle := gmap bytes bytes;
  fj_get m k := Ok (m !! k);
  fj_insert k v m := (Ok tt, <[k:=v]> m);
  fj_remove k m := (Ok tt, delete k m);
  fj_prefix m p := Ok <$> entries (starts_with p) m;
  fj_range m a b := Ok <$> entries (key_in_range a b) m;
  fj_persist m := (Ok tt, m);
|}.

Definition sample_fjall_spec : FjallSpec (F:=sample_fjall) := {|
  fj_view := λ m : @fj_handle sample_fjall, m;
  fj_healthy := λ _, True;
|}.

Lemma sample_fjall_ok : FjallOk (F:=sample_fjall) (H:=sample_fjall_spec).
Proof. split; intros; simpl; try done; by left. Qed.

#[export] Existing Instance sample_fjall.
#[export] Existing Instance sample_fjall_spec.
#[export] Existing Instance sample_fjall_ok.
#[export] Existing Instance sample_broadcast.
#[export] Existing Instance sample_broadcast_ok.
#[export] Existing Instance sample_governor.
#[export] Existing Instance sample_governor_ok.
#[export] Existing Instance sample_json.
#[export] Existing Instance sample_json_ok.

#[export] Instance sample_crc : Crc32 := crc32_ieee.
#[export] Instance sample_crc_ok : Crc32Ok := crc32_ieee_ok.

Abbreviation SampleService :=
  (NodeService (F:=sample_fjall) (B:=sample_broadcast) (G:=sample_governor)).

Definition sample_disk : Disk (F:=sample_fjall) :=
  {| mkdir := Ok tt; segment_file := mkFile [] []; fjall := Err (StorageError "not configured") |}.

(** A memory node that has just started, at time 1000. *)
Definition sample_node : SampleService :=
  mkService fallback_config (Memory mem_new)
    (mkWal (mkFile (segment empty_log) []) [] 0 14)
    (Manual 1000) TtlIndex.new (hub_new 1024) (store_new (mkQuota 0 0)) (throttle_new 0).

Lemma sample_clock_ok : Clock_typed (Manual 1000).
Proof. simpl. unfold u64_ok. lia. Qed.

Lemma sample_opens : open_with_clock fallback_config (Manual 1000) sample_disk = Ok sample_node.
Proof. reflexivity. Qed.

Lemma sample_disk_ok : disk_ok fallback_config sample_disk (Memory mem_new) empty_log.
Proof. split; [reflexivity|reflexivity|exact I|apply wf_empty_log|by left|constructor]. Qed.

Lemma sample_world_ok : world_ok (mkWorld sample_node ∅ ∅).
Proof.
  eapply world_ok_fresh; [apply sample_disk_ok|reflexivity|apply sample_clock_ok|apply sample_opens].
Qed.

Lemma sample_node_ok : node_ok sample_node.
Proof. apply sample_world_ok. Qed.

Lemma sample_env_ok : env_ok sample_node empty_log.
Proof.
  split; [|reflexivity|exact I|apply sample_clock_ok|constructor].
  split; [apply wf_empty_log|reflexivity..].
Qed.

Lemma acme_valid : valid_tenant (lit "acme").
Proof. split; [reflexivity|split; vm_compute; congruence]. Qed.

(** A small write fits everywhere. *)
Lemma sample_fits :
  write_fits sample_node (lit "acme") (data_key (lit "acme") (lit "k"))
    (ValueCodec.encode (lit "v") (expiry sample_node 0 500)).
Proof. split; [..|exact I| |]; vm_compute; reflexivity. Qed.

(** The node after [put acme/k = v] with a time to live of 500 ms. *)
Definition sample_node_1 : SampleService :=
  (put_with_ttl 0 (data_key (lit "acme") (lit "k")) (lit "v") 500 sample_node).2.

Lemma sample_put :
  put_with_ttl 0 (data_key (lit "acme") (lit "k")) (lit "v") 500 sample_node
  = (Ok tt, sample_node_1).
Proof.
  unfold sample_node_1. rewrite (surjective_pairing (put_with_ttl _ _ _ _ _)) at 1.
  by f_equal.
Qed.

Definition sample_world_1 : World :=
  mkWorld sample_node_1 ∅ {[(lit "acme", lit "k") := (lit "v", Some 1500)]}.

Lemma sample_steps : rtc world_step (mkWorld sample_node ∅ ∅) sample_world_1.
Proof.
  apply rtc_once.
  pose proof (step_put (mkWorld sample_node ∅ ∅) 0 (lit "acme") (lit "k") (lit "v") 500 _ _
    acme_valid sample_fits sample_put) as H.
  exact H.
Qed.

(** ** Witnesses *)

Lemma node_refines_kv_witness :
  get sample_node_1 0 (data_key (lit "acme") (lit "k")) = Ok (Some (lit "v")).
Proof.
  transitivity (Ok (E:=Error) (kv_read (kv sample_world_1) (now sample_node_1 0) (lit "acme", lit "k")));
    [|vm_compute; reflexivity].
  exact (node_refines_kv fallback_config (Manual 1000) sample_disk (Memory mem_new) sample_node
    sample_world_1 sample_disk_ok eq_refl sample_clock_ok sample_opens sample_steps
    0 (lit "acme") (lit "k") acme_valid).
Defined.

Lemma node_invariant_reachable_witness :
  used_bytes (quota_store sample_node_1) (lit "acme")
  = usage_in (view (storage sample_node_1)) (lit "acme").
Proof.
  apply (node_invariant_reachable fallback_config (Manual 1000) sample_disk (Memory mem_new) sample_node
    sample_world_1 sample_disk_ok eq_refl sample_clock_ok sample_opens sample_steps).
Defined.

Lemma put_is_read_back_witness :
  ∃ s' l', put_with_ttl 0 (data_key (lit "acme") (lit "k")) (lit "v") 500 sample_node = (Ok tt, s') ∧
    env_ok s' l' ∧ get s' 0 (data_key (lit "acme") (lit "k")) = Ok (Some (lit "v")).
Proof.
  destruct (put_is_read_back 0 (lit "acme") (lit "k") (lit "v") 500 sample_node empty_log
    sample_node_ok sample_env_ok acme_valid sample_fits) as (s' & l' & H1 & _ & H3 & H4);
    [vm_compute; reflexivity|].
  exists s', l'. split; [exact H1|]. split; [exact H3|]. rewrite H4; [|apply acme_valid].
  vm_compute. reflexivity.
Defined.

Lemma delete_is_read_back_witness :
  ∃ s' l', delete_key (data_key (lit "acme") (lit "k")) sample_node = (Ok tt, s') ∧ env_ok s' l'.
Proof.
  destruct (delete_is_read_back (lit "acme") (lit "k") sample_node empty_log
    sample_node_ok sample_env_ok acme_valid) as (s' & l' & H1 & _ & H3 & _);
    [vm_compute; reflexivity|exact I|].
  exists s', l'. split; [exact H1|exact H3].
Defined.

Lemma put_respects_quota_witness :
  ∃ s', put_with_ttl 0 (data_key (lit "acme") (lit "k")) (lit "v") 500 sample_node = (Ok tt, s') ∧
    usage_in (view (storage s')) (lit "acme") = 2.
Proof.
  destruct (put_respects_quota 0 (lit "acme") (lit "k") (lit "v") 500 sample_node empty_log
    sample_node_ok sample_env_ok acme_valid sample_fits) as [(s' & H1 & H2 & _)|(_ & H2 & _)].
  - vm_compute. split; congruence.
  - exists s'. split; [exact H1|]. rewrite H2. vm_compute. reflexivity.
  - vm_compute in H2. discriminate.
Defined.

Definition sample_crash_disk : Disk (F:=sample_fjall) :=
  {| mkdir := Ok tt;
     segment_file := mkFile (contents (wal_file (wal sample_node_1)) ++ lit "torn") [];
     fjall := Err (StorageError "not configured") |}.

(** What its log holds. *)
Definition sample_log_1 : Log :=
  mkLog 0 [(Put, data_key (lit "acme") (lit "k"), ValueCodec.encode (lit "v") (Some 1500))].

Lemma sample_log_1_ok : wf_log sample_log_1.
Proof. split; [split; done|]. repeat constructor. Qed.

(** After a crash that left four torn bytes, with nothing in memory surviving. *)
Lemma sample_crash : crash_disk sample_node_1 ∅ sample_crash_disk (Memory mem_new).
Proof.
  split; [reflexivity|reflexivity|exact I|..].
  - exists (lit "torn"). split; [vm_compute; reflexivity|reflexivity].
  - intros k raw Hk. change ((∅ : gmap bytes bytes) !! k = Some raw) in Hk.
    by rewrite lookup_empty in Hk.
  - intros l k _ _ _ _. reflexivity.
  - intros l Hwf Hl.
    assert (log_records l = log_records sample_log_1) as ->.
    { apply segment_inj; [done|apply sample_log_1_ok|]. rewrite <-Hl. vm_compute. reflexivity. }
    vm_compute. reflexivity.
Qed.

Lemma restart_loses_nothing_witness :
  ∃ s', open_with_clock fallback_config (Manual 1000) sample_crash_disk = Ok s' ∧
    get s' 0 (data_key (lit "acme") (lit "k")) = Ok (Some (lit "v")).
Proof.
  destruct (restart_loses_nothing fallback_config (Manual 1000) sample_disk (Memory mem_new) sample_node
    sample_world_1 sample_crash_disk (Memory mem_new) sample_disk_ok eq_refl sample_clock_ok
    sample_opens sample_steps sample_crash) as (s' & H1 & _ & H3).
  exists s'. split; [exact H1|]. rewrite H3; [|apply acme_valid]. vm_compute. reflexivity.
Defined.

(** The same node 600 ms later: the entry has expired. *)
Definition sample_node_2 : SampleService :=
  let s := node sample_world_1 in
  mkService (config s) (storage s) (wal s) (advance (clock s) 600) (ttl_index s) (watch s)
    (quota_store s) (throttle s).

Lemma sample_world_2_ok : world_ok (mkWorld sample_node_2 ∅ (kv sample_world_1)).
Proof.
  apply (world_ok_step sample_world_1).
  - eapply world_ok_steps; [apply sample_world_ok|apply sample_steps].
  - apply (step_tick sample_world_1 sample_node_2 600). reflexivity.
Qed.

Lemma sample_node_2_ok : node_ok sample_node_2.
Proof. apply sample_world_2_ok. Qed.

Lemma sample_env_2_ok : ∃ l, env_ok sample_node_2 l.
Proof. destruct (w_log _ sample_world_2_ok) as (l & H & _). by exists l. Qed.
