(* ===== verification/Sweeper.v ===== *)
(** * The expiry sweeper ([ferriskv-node/src/ttl.rs], [run_sweeper] and below)

    One pass of the sweeper over a node, when it wakes next, and the loop.  The
    theorems: a pass evicts exactly what has expired and nothing a reader could
    still see, leaves the node in order, and leaves nothing due, so that the loop
    goes back to sleep. *)

From Stdlib Require Import Strings.Byte.
From S2P Require Import Prelude Bytes Core KeyCodec ValueCodec Storage Wal TtlIndex Quota.
From S2P Require Import Throttle Watch Config Service Node NodeSpec Sample.

Section sweeper.
Context {F : Fjall} {B : Broadcast} {G : Governor} {C : Crc32} {J : QuotaJson}.

Abbreviation Service := (NodeService (F:=F) (B:=B) (G:=G)).

(** ** One pass *)

(** What a pass does with one candidate; the answer is whether it was evicted. *)
Definition sweep_key (now_ms : Z) (key : bytes) : M Service Error bool := λ s,
  match st_get (storage s) key with
  | Ok (Some raw) =>
      match is_expired raw now_ms with
      | Ok true =>
          match delete_key key s with
          | (Ok _, s') => (Ok true, s')
          | (Err _, s') => (Ok false, s')       (* logged *)
          | (Panic, s') => (Panic, s')
          end
      | Ok false =>
          match ValueCodec.decode raw with
          | Ok sv =>
              match expires_at_ms sv with
              | Some exp => (Ok false, set_index (schedule key exp (ttl_index s)) s)
              | None => (Ok false, s)
              end
          | _ => (Ok false, s)
          end
      | _ => (Ok false, s)
      end
  | _ => (Ok false, s)
  end.

Fixpoint sweep_keys (now_ms : Z) (candidates : list bytes) (removed : Z) : M Service Error Z :=
  match candidates with
  | [] => mret removed
  | key :: rest =>
      evicted ← sweep_key now_ms key;
      sweep_keys now_ms rest (if (evicted : bool) then removed + 1 else removed)
  end.

Definition sweep_once (sys : Z) : M Service Error Z := λ s,
  let now_ms := now s sys in
  let '(candidates, g) := drain_due now_ms (ttl_index s) in
  sweep_keys now_ms candidates 0 (set_index g s).

(** ** When to wake *)

(** [Instant]s and durations are in milliseconds. *)
Definition compute_wakeup (s : Service) (sys instant_now fallback : Z) : Z :=
  let fallback_at := instant_now + fallback in
  match next_due_ms (ttl_index s) with
  | Some due_ms =>
      let clock_now := now s sys in
      if due_ms <=? clock_now then instant_now
      else Z.min (instant_now + (due_ms - clock_now)) fallback_at
  | None => fallback_at
  end.

(** ** The loop

    What ends the wait of [select!].  A notification consumes the permit. *)
Inductive wake := Slept | Notified | Shutdown.

Definition sweeper_turn (sys : Z) (w : wake) : M Service Error (option Z) := λ s,
  match w with
  | Shutdown => (Ok None, s)
  | Slept => (n ← sweep_once sys; mret (Some n)) s
  | Notified => (n ← sweep_once sys; mret (Some n)) (set_index (take_permit (ttl_index s)) s)
  end.

(** The loop over what the environment does: a wake-up and the clock at that
    moment, turn by turn; [None] is a loop that is still waiting. *)
Fixpoint run_loop (turns : list (wake * Z)) (removed : list Z) : M Service Error (option (list Z)) :=
  match turns with
  | [] => mret None
  | (w, sys) :: turns =>
      r ← sweeper_turn sys w;
      match r with
      | None => mret (Some removed)
      | Some n => run_loop turns (removed ++ [n])
      end
  end.

Definition run_sweeper (fallback_interval : Z) (turns : list (wake * Z)) :
    M Service Error (option (list Z)) :=
  if fallback_interval =? 0 then mret (Some []) else run_loop turns [].

(** ** Deleting does not look at the index *)

Lemma delete_set_index k g s :
  delete_key k (set_index g s) =
  (let '(r, s') := delete_key k s in (r, set_index g s')).
Proof.
  unfold delete_key, plan_delete_accounting, commit_accounting, publish_change,
    rotate_wal_if_needed, in_wal, in_storage, in_quotas.
  unfold_monad. destruct s as [cfg st w c idx h qs th].
  cbn [storage wal watch quota_store config set_index set_wal set_storage set_store set_watch].
  repeat (case_match; simplify_eq/=; try done).
Qed.

Lemma delete_index k s : ttl_index (delete_key k s).2 = ttl_index s.
Proof.
  assert (set_index (ttl_index s) s = s) as Hs by (by destruct s).
  pose proof (delete_set_index k (ttl_index s) s) as H. rewrite Hs in H.
  destruct (delete_key k s) as [r s']. injection H as H. simpl. rewrite H. done.
Qed.

Context {FS : FjallSpec} {FO : FjallOk} {CO : Crc32Ok}.

(** What is left of a map once the expired entries of [ks] are gone. *)
Definition evicted (m : gmap bytes bytes) (n : Z) (ks : list bytes) (k : bytes) : option bytes :=
  match m !! k with
  | Some raw =>
      if decide (k ∈ ks) then
        match ValueCodec.decode raw with
        | Ok sv => if expired sv n then None else Some raw
        | _ => Some raw
        end
      else Some raw
  | None => None
  end.

(** Keys a client wrote, as the API layer encodes them, on a backend that takes them. *)
Definition sweepable (b : StorageBackend F) (k : bytes) : Prop :=
  is_data k ∧ len k < 2 ^ 32 ∧ admits b k [].

(** One candidate.  [s] is the node with the index it had before the pass, [g] the
    index as drained so far. *)
Lemma sweep_key_runs n k s l g :
  node_ok s → env_ok s l → sweepable (storage s) k → index_ok g → len (scheduled g) < U64_MAX →
  ∃ b s' l' g', sweep_key n k (set_index g s) = (Ok b, set_index g' s') ∧
    node_ok s' ∧ env_ok s' l' ∧ ttl_index s' = ttl_index s ∧ clock s' = clock s ∧
    is_durable (storage s') = is_durable (storage s) ∧
    (∀ k', is_data k' → view (storage s') !! k' = evicted (view (storage s)) n [k] k') ∧
    index_ok g' ∧ len (scheduled g') ≤ len (scheduled g) + 1 ∧
    (∀ p, p ∈ scheduled g → p ∈ scheduled g') ∧
    (∀ p, p ∈ scheduled g' → p ∈ scheduled g ∨ n < p.1).
Proof.
  intros Hn Henv ([t [p [Ht ->]]] & Hlen & Had) Hg Hcount.
  assert (∀ k', evicted (view (storage s)) n [data_key t p] k' =
    if decide (k' = data_key t p) then evicted (view (storage s)) n [data_key t p] k'
    else view (storage s) !! k') as Hev.
  { intros k'. unfold evicted. destruct (view (storage s) !! k'); [|by case_decide].
    destruct (decide (k' = data_key t p)); [done|]. rewrite decide_False; [done|]. set_solver. }
  assert ((∃ b g', sweep_key n (data_key t p) (set_index g s) = (Ok b, set_index g' s) ∧
      evicted (view (storage s)) n [data_key t p] (data_key t p) = view (storage s) !! data_key t p ∧
      index_ok g' ∧ len (scheduled g') ≤ len (scheduled g) + 1 ∧
      (∀ p, p ∈ scheduled g → p ∈ scheduled g') ∧
      (∀ p, p ∈ scheduled g' → p ∈ scheduled g ∨ n < p.1)) ∨
    (sweep_key n (data_key t p) (set_index g s) =
       (let '(r, s') := delete_key (data_key t p) s in
        match r with Ok _ => (Ok true, set_index g s') | Err _ => (Ok false, set_index g s')
                | Panic => (Panic, set_index g s') end) ∧
      evicted (view (storage s)) n [data_key t p] (data_key t p) = None)) as [Hkeep|[Hdel He]].
  { unfold sweep_key, evicted. change (storage (set_index g s)) with (storage s).
    change (ttl_index (set_index g s)) with g.
    rewrite (backend_get_runs (storage s)) by apply Henv.
    destruct (view (storage s) !! data_key t p) as [raw|] eqn:Hraw; cycle 1.
    { left. exists false, g. split_and!; auto. lia. }
    destruct (node_values _ Hn _ _ Hraw) as [sv Hsv].
    rewrite is_expired_decode, Hsv. unfold_monad. rewrite decide_True by set_solver.
    destruct (expired sv n) eqn:Hexp.
    - right. split; [|done]. rewrite delete_set_index. by destruct (delete_key _ s) as [[] ?].
    - left. destruct (expires_at_ms sv) as [e|] eqn:He; [|exists false, g; split_and!; auto; lia].
      eexists false, _. split_and!; [reflexivity|done|by apply schedule_ok|apply schedule_len| |].
      + intros q Hq. apply schedule_elem. by right.
      + intros q [-> |Hq]%schedule_elem; [right|by left]. unfold expired in Hexp. rewrite He in Hexp.
        propify. simpl. lia. }
  - destruct Hkeep as (b & g' & E & Hk & H1 & H2 & H3 & H4). exists b, s, l, g'.
    split_and!; try done. intros k' Hk'. rewrite Hev. case_decide as Heq; [|done]. subst. by rewrite Hk.
  - destruct (delete_runs t p s l Hn Henv Ht Hlen Had) as (s' & l' & E & We).
    exists true, s', l', g. rewrite Hdel, E.
    split_and!; [done|apply We|apply We| |apply We|apply We| |done|lia|auto|auto].
    + pose proof (delete_index (data_key t p) s) as Hi. rewrite E in Hi. exact Hi.
    + intros k' Hk'. rewrite (we_data _ _ _ _ _ _ We) by done. rewrite Hev.
      case_decide as Heq; [|by rewrite lookup_delete_ne]. subst. by rewrite lookup_delete_eq.
Qed.

(** What survives a sweep of its key has not expired. *)
Lemma evicted_live m n ks k raw sv :
  evicted m n ks k = Some raw → k ∈ ks → ValueCodec.decode raw = Ok sv → expired sv n = false.
Proof.
  unfold evicted. intros Hk Hin Hsv. destruct (m !! k) as [raw'|]; [|done].
  rewrite decide_True in Hk by done.
  destruct (ValueCodec.decode raw') as [sv'| |] eqn:Hsv'; [|congruence..].
  destruct (expired sv' n) eqn:Hexp; [done|]. congruence.
Qed.

(** What a sweep removes was invisible already, and stays so. *)
Lemma evicted_visible m m' n n' ks k :
  m' !! k = evicted m n ks k → n ≤ n' → visible m' n' k = visible m n' k.
Proof.
  intros Hk Hle. unfold visible. rewrite Hk. unfold evicted.
  destruct (m !! k) as [raw|]; [|done]. destruct (decide (k ∈ ks)); [|done].
  destruct (ValueCodec.decode raw) as [sv| |] eqn:Hsv; rewrite ?Hsv; [|done..].
  destruct (expired sv n) eqn:Hexp; [|by rewrite Hsv]. by rewrite (expired_mono sv n n').
Qed.

Lemma evicted_compose m m1 n k ks k' :
  m1 !! k' = evicted m n [k] k' → evicted m1 n ks k' = evicted m n (k :: ks) k'.
Proof.
  unfold evicted. intros ->. destruct (m !! k') as [raw|]; [|done].
  destruct (decide (k' ∈ [k])) as [Hk|Hk], (decide (k' ∈ ks)) as [Hks|Hks];
    destruct (decide (k' ∈ k :: ks)) as [Hc|Hc]; try set_solver;
    destruct (ValueCodec.decode raw) as [sv| |] eqn:E; rewrite ?E; try done.
  all: destruct (expired sv n) eqn:E'; rewrite ?E; by rewrite ?E'.
Qed.

Lemma sweep_keys_runs n ks removed s l g :
  node_ok s → env_ok s l → Forall (sweepable (storage s)) ks → index_ok g →
  len (scheduled g) + len ks < U64_MAX →
  ∃ r s' l' g', sweep_keys n ks removed (set_index g s) = (Ok r, set_index g' s') ∧
    node_ok s' ∧ env_ok s' l' ∧ ttl_index s' = ttl_index s ∧ clock s' = clock s ∧
    (∀ k', is_data k' → view (storage s') !! k' = evicted (view (storage s)) n ks k') ∧
    index_ok g' ∧ (∀ p, p ∈ scheduled g → p ∈ scheduled g') ∧
    (∀ p, p ∈ scheduled g' → p ∈ scheduled g ∨ n < p.1).
Proof.
  revert removed s l g. induction ks as [|k ks IH]; intros removed s l g Hn Henv Hks Hg Hlen.
  { exists removed, s, l, g. split_and!; auto. intros k' _. unfold evicted.
    destruct (view (storage s) !! k'); [|done]. rewrite decide_False; [done|set_solver]. }
  apply Forall_cons in Hks as [Hk Hks]. rewrite len_cons in Hlen. pose proof (len_nonneg ks).
  destruct (sweep_key_runs n k s l g Hn Henv Hk Hg ltac:(lia))
    as (b & s1 & l1 & g1 & E1 & Hn1 & Henv1 & Hi1 & Hc1 & Hd1 & Hv1 & Hg1 & Hl1 & Hin1 & Hout1).
  assert (Forall (sweepable (storage s1)) ks) as Hks1.
  { eapply Forall_impl; [exact Hks|]. intros k' (? & ? & ?). split_and!; [done..|by eapply admits_agree]. }
  destruct (IH (if b then removed + 1 else removed) s1 l1 g1 Hn1 Henv1 Hks1 Hg1 ltac:(lia))
    as (r & s2 & l2 & g2 & E2 & Hn2 & Henv2 & Hi2 & Hc2 & Hv2 & Hg2 & Hin2 & Hout2).
  exists r, s2, l2, g2. split_and!; [|done|done|congruence|congruence| |done|auto|].
  - cbn [sweep_keys]. erewrite M_bind_ok by exact E1. exact E2.
  - intros k' Hk'. rewrite Hv2 by done. by apply evicted_compose, Hv1.
  - intros p [Hp|?]%Hout2; [|by right]. by apply Hout1.
Qed.

(** ** Properties *)

(** C19: a sweep evicts what has expired, and only that.  On a node in order, one
    pass succeeds and afterwards no client entry with an expiry at or before the
    current time is left in storage; every client key reads, now and at any later
    time, as it did before the pass; the node is still in order (so evicted bytes
    have been credited back and every live expiry is still scheduled); and nothing
    due is left in the index, so the next wake-up lies in the future. *)
Theorem sweep_evicts_expired sys s l (Hn : node_ok s) (Henv : env_ok s l)
    (Hkeys : ∀ e k, (e, k) ∈ scheduled (ttl_index s) → sweepable (storage s) k)
    (Hcount : len (scheduled (ttl_index s)) < U64_MAX) :
  ∃ removed s' l', sweep_once sys s = (Ok removed, s') ∧ node_ok s' ∧ env_ok s' l' ∧
    (∀ k raw sv, is_data k → view (storage s') !! k = Some raw → ValueCodec.decode raw = Ok sv →
       expired sv (now s sys) = false) ∧
    (∀ k sys', is_data k → now s sys ≤ now s sys' → get s' sys' k = get s sys' k) ∧
    (∀ d, next_due_ms (ttl_index s') = Some d → now s sys < d).
Proof.
  unfold sweep_once. set (n := now s sys).
  pose proof (drain_due_spec n (ttl_index s) (node_index _ Hn)) as Hdrain.
  destruct (drain_due n (ttl_index s)) as [ks g].
  destruct Hdrain as (Hg & due & Hsch & -> & Hdue & Hlate).
  rewrite Forall_forall in Hdue. rewrite Forall_forall in Hlate.
  destruct (sweep_keys_runs n (snd <$> due) 0 s l g Hn Henv)
    as (r & s' & l' & g' & E & Hn' & Henv' & Hi & Hc & Hv & Hg' & Hin & Hout).
  { apply Forall_forall. intros k ([e ?] & -> & Hp)%list_elem_of_fmap.
    apply (Hkeys e). rewrite Hsch. apply elem_of_app. by left. }
  { done. }
  { rewrite Hsch, len_app in Hcount. unfold len in *. rewrite length_fmap. lia. }
  assert (∀ k raw sv e, view (storage s') !! k = Some raw → ValueCodec.decode raw = Ok sv →
    expires_at_ms sv = Some e → n < e ∧ (e, k) ∈ scheduled g) as Hlive.
  { intros k raw sv e Hk Hsv He.
    pose proof (node_ttl _ Hn' k raw sv e Hk Hsv He) as Hs. rewrite Hi, Hsch in Hs.
    assert (is_data k) as Hdk by (apply (Hkeys e k); rewrite Hsch; exact Hs).
    apply elem_of_app in Hs as [Hs|Hs]; [|split; [by apply Hlate in Hs|done]].
    exfalso. apply Hdue in Hs as Hle. simpl in Hle. rewrite Hv in Hk by done.
    apply evicted_live with (sv:=sv) in Hk; [|apply list_elem_of_fmap; by exists (e, k)|done].
    unfold expired in Hk. rewrite He in Hk. propify. lia. }
  exists r, (set_index g' s'), l'. split_and!.
  - exact E.
  - destruct Hn' as [H1 H2 H3 _ _ H6]. split; try done.
    intros k raw sv e Hk Hsv He. apply Hin. by eapply Hlive.
  - destruct Henv' as [H1 H2 H3 H4 H5]. by split.
  - intros k raw sv Hdk Hk Hsv. unfold expired.
    destruct (expires_at_ms sv) as [e|] eqn:He; [|done].
    destruct (Hlive k raw sv e Hk Hsv He). apply Z.leb_gt. lia.
  - intros k sys' Hk Hle. rewrite !get_runs; [|apply Hn|apply Henv|apply Hn'|apply Henv'].
    unfold now. cbn [clock set_index storage]. rewrite Hc. f_equal.
    fold (now s sys'). eapply evicted_visible; [by apply Hv|done].
  - intros d Hd. pose proof (next_due_spec g' Hg') as Hnd. simpl in Hd. rewrite Hd in Hnd.
    destruct Hnd as [[k Hk] _]. apply Hout in Hk as [Hk|Hk]; [|done]. by apply Hlate in Hk.
Qed.

(** the sweeper's alarm.  The time it sleeps until is never before now and never
    after the fallback interval; it is no later than the earliest scheduled expiry;
    and it is now, without sleeping, exactly when something is already due. *)
Theorem compute_wakeup_bounds (s : Service) sys instant_now fallback (Hf : 0 < fallback) :
  let w := compute_wakeup s sys instant_now fallback in
  instant_now ≤ w ≤ instant_now + fallback ∧
  (∀ d, next_due_ms (ttl_index s) = Some d → w ≤ instant_now + Z.max 0 (d - now s sys)) ∧
  (w = instant_now ↔ ∃ d, next_due_ms (ttl_index s) = Some d ∧ d ≤ now s sys).
Proof.
  unfold compute_wakeup. destruct (next_due_ms (ttl_index s)) as [d|].
  - destruct (Z.leb_spec d (now s sys)); (split_and!; [lia|lia|intros ? [= <-]; lia|]).
    + split; [eauto|done].
    + split; [lia|]. intros (? & [= <-] & ?). lia.
  - split_and!; [lia|lia|done|]. split; [lia|naive_solver].
Qed.

End sweeper.

(** ** Witnesses *)

Lemma sweep_evicts_expired_witness :
  (sweep_once 0 sample_node_2).1 = Ok 1 ∧
  ∃ removed s', sweep_once 0 sample_node_2 = (Ok removed, s') ∧ node_ok s' ∧
    get s' 0 (data_key (lit "acme") (lit "k")) = Ok None.
Proof.
  split; [vm_compute; reflexivity|].
  destruct sample_env_2_ok as [l Henv].
  destruct (sweep_evicts_expired 0 sample_node_2 l sample_node_2_ok Henv)
    as (removed & s' & l' & E & Hn & _ & _ & Hread & _).
  - intros e k Hin.
    assert ((e, k) ∈ [(1500, data_key (lit "acme") (lit "k"))]) as H by (vm_compute in Hin; exact Hin).
    apply list_elem_of_singleton in H. injection H as -> ->.
    split; [|split; [vm_compute; reflexivity|exact I]].
    exists (lit "acme"), (lit "k"). split; [apply acme_valid|reflexivity].
  - vm_compute. reflexivity.
  - exists removed, s'. split; [exact E|]. split; [exact Hn|].
    rewrite Hread; [vm_compute; reflexivity| |reflexivity].
    exists (lit "acme"), (lit "k"). split; [apply acme_valid|reflexivity].
Defined.

Lemma compute_wakeup_bounds_witness :
  compute_wakeup sample_node_1 0 0 60000 = 500 ∧ 500 ≤ 0 + 60000.
Proof.
  destruct (compute_wakeup_bounds sample_node_1 0 0 60000) as [[_ H] _]; [reflexivity|].
  assert (compute_wakeup sample_node_1 0 0 60000 = 500) as E by (vm_compute; reflexivity).
  rewrite E in H. split; [reflexivity|exact H].
Defined.
