(* ===== verification/Interleave.v ===== *)
(** * Writers that run at the same time

    A node serves its requests from many tasks at once.  Each component guards its
    own state with a lock or an atomic, and a write is a sequence of calls on
    several of them with nothing held in between.  Here such a write is a state
    machine: a [Pc] says which call comes next and what the task has computed so
    far, and [advance] makes that one call on the shared node.  A [Pool] is the
    node with the tasks in flight; a step of the pool is a step of any of them.

    Announcing a change is one call here, although [publish] has two halves: while the
    tasks of a pool run nobody subscribes or leaves, and only then would it matter that
    another call falls in between ([Watch.v] has that case).

    Run alone, a task is the operation of [Service.v] ([advance_rest],
    [task_runs_alone]); among others, it ends after thirteen calls of its own, whatever
    they do ([requests_are_wait_free]).  When no two tasks in flight write the same key, and the
    segment is not rotated meanwhile, every interleaving keeps log, storage,
    counters and index together: nothing acknowledged is lost by a crash at any
    moment, and once the tasks are done the node is in order.  The last section
    shows, on concrete schedules, what happens without these two conditions. *)

From Stdlib Require Import Strings.Byte.
From S2P Require Import Prelude Bytes Core KeyCodec ValueCodec Storage Wal TtlIndex Quota.
From S2P Require Import Throttle Watch Config Service Node NodeSpec Sample Sweeper.

Section interleave.
Context {F : Fjall} {B : Broadcast} {G : Governor} {C : Crc32} {J : QuotaJson}.

Abbreviation Service := (NodeService (F:=F) (B:=B) (G:=G)).

(** ** Tasks *)

(** The next call of a task, with the values its frame holds.  [PutStart] to
    [PutSchedule] are the calls of [put_with_ttl], [DelPlan] to [DelStore] those of
    [delete], [SweepGet] and [SweepSchedule] what a sweep does with one candidate;
    [CommitAdjust] and [CommitPersist] are the two halves of [QuotaStore::apply],
    and the three [Rotate] states those of [rotate_wal_if_needed]. *)
Inductive Pc :=
| PutStart (sys : Z) (key value : bytes) (ttl_ms : Z)
| PutPlan (key value : bytes) (exp : option Z)
| PutCheck (key value : bytes) (exp : option Z) (acc : option Accounting)
| PutAppend (key value : bytes) (exp : option Z) (acc : option Accounting)
| PutStore (key value : bytes) (exp : option Z) (acc : option Accounting)
| PutSchedule (key value : bytes) (exp : option Z) (acc : option Accounting)
| DelPlan (key : bytes)
| DelAppend (key : bytes) (acc : option Accounting)
| DelStore (key : bytes) (acc : option Accounting)
| SweepGet (now_ms : Z) (key : bytes)
| SweepSchedule (key : bytes) (exp : Z)
| CommitAdjust (acc : option Accounting) (key : bytes) (kind : ChangeKind) (value : bytes)
| CommitPersist (tenant : bytes) (total : Z) (key : bytes) (kind : ChangeKind) (value : bytes)
| Announce (key : bytes) (kind : ChangeKind) (value : bytes)
| RotateTest
| RotateFlush
| RotateTruncate
| Done (r : result Error unit).

(** A call whose error ends the task with [?]. *)
Definition call {A} (m : M Service Error A) (k : A → Pc) (s : Service) : Pc * Service :=
  match m s with
  | (Ok a, s') => (k a, s')
  | (Err e, s') => (Done (Err e), s')
  | (Panic, s') => (Done Panic, s')
  end.

(** A call whose error is logged. *)
Definition call_logged (m : M Service Error unit) (ok err : Pc) (s : Service) : Pc * Service :=
  match m s with
  | (Ok _, s') => (ok, s')
  | (Err _, s') => (err, s')
  | (Panic, s') => (Done Panic, s')
  end.

(** The second half of [apply]: the new total goes to storage. *)
Definition persist_usage (tenant : bytes) (total : Z) : M Service Error unit :=
  key ← lift (KeyCodec.encode tenant Stats USAGE_KEY);
  in_storage (st_put key (ValueCodec.encode (to_be_bytes 8 total) None)).

(** What a sweep does with a candidate once it has read it. *)
Definition sweep_verdict (now_ms : Z) (key : bytes) (found : result Error (option bytes)) : Pc :=
  match found with
  | Ok (Some raw) =>
      match is_expired raw now_ms with
      | Ok true => DelPlan key
      | Ok false =>
          match ValueCodec.decode raw with
          | Ok sv =>
              match expires_at_ms sv with
              | Some exp => SweepSchedule key exp
              | None => Done (Ok tt)
              end
          | _ => Done (Ok tt)
          end
      | _ => Done (Ok tt)
      end
  | _ => Done (Ok tt)
  end.

Definition advance (pc : Pc) (s : Service) : Pc * Service :=
  match pc with
  | PutStart sys key value ttl_ms =>
      (PutPlan key value (if 0 <? ttl_ms then Some (sat_add64 (now s sys) ttl_ms) else None), s)
  | PutPlan key value exp =>
      call (λ s, (plan_accounting s key (len value), s)) (PutCheck key value exp) s
  | PutCheck key value exp acc =>
      call (match acc with
            | Some plan => λ s, (check_write (quota_store s) (acc_tenant plan) (delta plan), s)
            | None => mret tt
            end) (λ _, PutAppend key value exp acc) s
  | PutAppend key value exp acc =>
      call (in_wal (append Put key (ValueCodec.encode value exp)))
        (λ _, PutStore key value exp acc) s
  | PutStore key value exp acc =>
      call (in_storage (st_put key (ValueCodec.encode value exp)))
        (λ _, PutSchedule key value exp acc) s
  | PutSchedule key value exp acc =>
      (CommitAdjust acc key ChangePut value,
       match exp with
       | Some e => set_index (schedule key e (ttl_index s)) s
       | None => s
       end)
  | DelPlan key => call (λ s, (plan_delete_accounting s key, s)) (DelAppend key) s
  | DelAppend key acc => call (in_wal (append Delete key [])) (λ _, DelStore key acc) s
  | DelStore key acc =>
      call (in_storage (st_delete key)) (λ _, CommitAdjust acc key ChangeDelete []) s
  | SweepGet now_ms key => (sweep_verdict now_ms key (st_get (storage s) key), s)
  | SweepSchedule key exp => (Done (Ok tt), set_index (schedule key exp (ttl_index s)) s)
  | CommitAdjust acc key kind value =>
      match acc with
      | None => (Announce key kind value, s)
      | Some plan =>
          if delta plan =? 0 then (Announce key kind value, s) else
          let '(total, qs) := adjust (acc_tenant plan) (delta plan) (quota_store s) in
          (CommitPersist (acc_tenant plan) total key kind value, set_store qs s)
      end
  | CommitPersist tenant total key kind value =>
      call_logged (persist_usage tenant total) (Announce key kind value) (Announce key kind value) s
  | Announce key kind value => call (publish_change key kind value) (λ _, RotateTest) s
  | RotateTest =>
      if negb (is_durable (storage s)) then (Done (Ok tt), s)
      else if segment_bytes (wal s) <? wal_rotate_bytes (config s) then (Done (Ok tt), s)
      else (RotateFlush, s)
  | RotateFlush => call_logged (in_storage st_flush) RotateTruncate (Done (Ok tt)) s
  | RotateTruncate => call_logged (in_wal rotate) (Done (Ok tt)) (Done (Ok tt)) s
  | Done r => (Done r, s)
  end.

(** ** A task alone *)

Definition is_done (pc : Pc) : bool :=
  match pc with
  | Done _ => true
  | _ => false
  end.

(** How many calls a task can still make. *)
Definition calls_left (pc : Pc) : nat :=
  match pc with
  | PutStart _ _ _ _ => 13
  | PutPlan _ _ _ => 12
  | PutCheck _ _ _ _ => 11
  | PutAppend _ _ _ _ => 10
  | PutStore _ _ _ _ => 9
  | PutSchedule _ _ _ _ => 8
  | SweepGet _ _ => 11
  | DelPlan _ => 10
  | DelAppend _ _ => 9
  | DelStore _ _ => 8
  | CommitAdjust _ _ _ _ => 6
  | CommitPersist _ _ _ _ _ => 5
  | Announce _ _ _ => 4
  | RotateTest => 3
  | RotateFlush => 2
  | RotateTruncate => 1
  | SweepSchedule _ _ => 1
  | Done _ => 0
  end.

Fixpoint run_task (n : nat) (pc : Pc) (s : Service) : Pc * Service :=
  match n with
  | O => (pc, s)
  | S n => let '(pc', s') := advance pc s in run_task n pc' s'
  end.

(** The rest of the operation a task is in the middle of, as one computation. *)
Definition rest_commit (acc : option Accounting) (key : bytes) (kind : ChangeKind) (value : bytes) :
    M Service Error unit :=
  commit_accounting acc;; publish_change key kind value;; rotate_wal_if_needed.

Definition rest_schedule (key value : bytes) (exp : option Z) (acc : option Accounting) :
    M Service Error unit :=
  match exp with
  | Some e => modify (λ s, set_index (schedule key e (ttl_index s)) s)
  | None => mret tt
  end;;
  rest_commit acc key ChangePut value.

Definition rest_store (key value : bytes) (exp : option Z) (acc : option Accounting) :
    M Service Error unit :=
  in_storage (st_put key (ValueCodec.encode value exp));;
  rest_schedule key value exp acc.

Definition rest_append (key value : bytes) (exp : option Z) (acc : option Accounting) :
    M Service Error unit :=
  in_wal (append Put key (ValueCodec.encode value exp));;
  rest_store key value exp acc.

Definition rest_check (key value : bytes) (exp : option Z) (acc : option Accounting) :
    M Service Error unit :=
  match acc with
  | Some plan => λ s, (check_write (quota_store s) (acc_tenant plan) (delta plan), s)
  | None => mret tt
  end;;
  rest_append key value exp acc.

Definition rest (pc : Pc) : M Service Error unit :=
  match pc with
  | PutStart sys key value ttl_ms => put_with_ttl sys key value ttl_ms
  | PutPlan key value exp =>
      acc ← (λ s, (plan_accounting s key (len value), s));
      rest_check key value exp acc
  | PutCheck key value exp acc => rest_check key value exp acc
  | PutAppend key value exp acc => rest_append key value exp acc
  | PutStore key value exp acc => rest_store key value exp acc
  | PutSchedule key value exp acc => rest_schedule key value exp acc
  | DelPlan key => delete_key key
  | DelAppend key acc =>
      in_wal (append Delete key []);;
      in_storage (st_delete key);;
      rest_commit acc key ChangeDelete []
  | DelStore key acc => in_storage (st_delete key);; rest_commit acc key ChangeDelete []
  | SweepGet now_ms key => λ s,
      match sweep_verdict now_ms key (st_get (storage s) key) with
      | DelPlan key => delete_key key s
      | SweepSchedule key exp => (Ok tt, set_index (schedule key exp (ttl_index s)) s)
      | _ => (Ok tt, s)
      end
  | SweepSchedule key exp => modify (λ s, set_index (schedule key exp (ttl_index s)) s)
  | CommitAdjust acc key kind value => rest_commit acc key kind value
  | CommitPersist tenant total key kind value =>
      ignore_err (persist_usage tenant total);;
      publish_change key kind value;;
      rotate_wal_if_needed
  | Announce key kind value => publish_change key kind value;; rotate_wal_if_needed
  | RotateTest => rotate_wal_if_needed
  | RotateFlush => ignore_err (in_storage st_flush;; in_wal rotate)
  | RotateTruncate => ignore_err (in_wal rotate)
  | Done r => lift r
  end.

Lemma call_rest {A} (m : M Service Error A) (k : A → Pc) (f : A → M Service Error unit) s :
  (∀ a s', f a s' = rest (k a) s') →
  (m ≫= f) s = (let '(pc', s') := call m k s in rest pc' s').
Proof.
  intros Hf. unfold call. unfold mbind, M_bind. destruct (m s) as [[a|e|] s']; [apply Hf|done..].
Qed.

Lemma sweep_verdict_cases n key found :
  sweep_verdict n key found = DelPlan key ∨ (∃ e, sweep_verdict n key found = SweepSchedule key e) ∨
  sweep_verdict n key found = Done (Ok tt).
Proof. unfold sweep_verdict. repeat case_match; eauto. Qed.

(** A call and the rest of the task is the task. *)
Lemma advance_rest pc s :
  rest pc s = (let '(pc', s') := advance pc s in rest pc' s').
Proof.
  destruct pc; cbn [advance]; try (by apply call_rest); try reflexivity.
  - cbn [rest]. unfold rest_schedule. by destruct exp.
  - cbn [rest]. destruct (sweep_verdict_cases now_ms key (st_get (storage s) key)) as [Hv|[[e Hv]|Hv]];
      by rewrite Hv.
  - cbn [rest]. unfold rest_commit, commit_accounting. destruct acc as [[t d]|]; [|done].
    cbn [acc_tenant delta]. unfold Quota.apply. destruct (d =? 0).
    + by destruct s.
    + unfold in_quotas, on_storage, persist_usage, in_storage, adjust. cbn [rest].
      unfold persist_usage, in_storage. unfold_monad. cbn [fst snd quota_store storage set_store].
      destruct (KeyCodec.encode t Stats USAGE_KEY) as [k|e|]; [|by destruct s..].
      cbn [fst snd quota_store storage set_store].
      by destruct (st_put k _ (storage s)) as [[[]|e|] b']; destruct s.
  - cbn [rest]. unfold call_logged, ignore_err. unfold mbind, M_bind.
    destruct (persist_usage tenant total s) as [[[]|e|] s']; done.
  - cbn [rest]. unfold rotate_wal_if_needed. by repeat case_match.
  - cbn [rest]. unfold call_logged, ignore_err. unfold mbind, M_bind.
    by destruct (in_storage st_flush s) as [[[]|e|] s'].
  - cbn [rest]. unfold call_logged, ignore_err.
    by destruct (in_wal rotate s) as [[[]|e|] s'].
Qed.

(** Every call brings a task closer to its end. *)
Lemma advance_calls_left pc s :
  is_done pc = false → (calls_left (advance pc s).1 < calls_left pc)%nat.
Proof.
  destruct pc; cbn [advance is_done]; intros Hd; try discriminate;
    unfold call, call_logged; repeat case_match; cbn [fst calls_left]; try lia.
  destruct (sweep_verdict_cases now_ms key (st_get (storage s) key)) as [Hv|[[e Hv]|Hv]];
    rewrite Hv; simpl; lia.
Qed.

Lemma run_task_done n pc s r : pc = Done r → run_task n pc s = (pc, s).
Proof. intros ->. by induction n as [|n IH]; simpl. Qed.

Lemma run_task_rest n pc s :
  (calls_left pc ≤ n)%nat → run_task n pc s = (Done (rest pc s).1, (rest pc s).2).
Proof.
  revert pc s. induction n as [|n IH]; intros pc s Hn.
  - destruct pc; simpl in Hn; try lia. done.
  - destruct (is_done pc) eqn:Hd.
    { destruct pc; try discriminate. by rewrite (run_task_done _ _ _ r). }
    pose proof (advance_calls_left pc s Hd) as Hc. pose proof (advance_rest pc s) as Hr.
    simpl. destruct (advance pc s) as [pc' s']. simpl in Hc. rewrite Hr. apply IH. lia.
Qed.

(** ** Tasks together *)

Record Pool := mkPool {
  tasks : list Pc;
  shared : Service;
}.

(** The calls a request starts with. *)
Definition is_start (pc : Pc) : bool :=
  match pc with
  | PutStart _ _ _ _ | DelPlan _ => true
  | _ => false
  end.

(** A sweep takes what is due out of the index and goes through it.  The code handles
    one candidate after the other; here each is a task, so that more interleavings
    are possible than in the code. *)
Definition drain (n : Z) (p : Pool) : Pool :=
  let '(candidates, g) := drain_due n (ttl_index (shared p)) in
  mkPool (tasks p ++ (SweepGet n <$> candidates)) (set_index g (shared p)).

Definition tick (d : Z) (p : Pool) : Pool :=
  let s := shared p in
  mkPool (tasks p)
    (mkService (config s) (storage s) (wal s) (Core.advance (clock s) d) (ttl_index s) (watch s)
       (quota_store s) (throttle s)).

Inductive pool_step : Pool → Pool → Prop :=
| pool_spawn ts s pc :
    is_start pc = true →
    pool_step (mkPool ts s) (mkPool (ts ++ [pc]) s)
| pool_run ts s i pc :
    ts !! i = Some pc →
    pool_step (mkPool ts s) (mkPool (<[i:=(advance pc s).1]> ts) (advance pc s).2)
| pool_drain p n : pool_step p (drain n p)
| pool_tick p d : pool_step p (tick d p).

(** The same, under a schedule: which task makes its next call, turn by turn. *)
Definition pool_turn (p : Pool) (i : nat) : Pool :=
  match tasks p !! i with
  | Some pc => mkPool (<[i:=(advance pc (shared p)).1]> (tasks p)) (advance pc (shared p)).2
  | None => p
  end.

Definition run_schedule (sched : list nat) (p : Pool) : Pool := fold_left pool_turn sched p.

Lemma run_schedule_steps sched p : rtc pool_step p (run_schedule sched p).
Proof.
  revert p. induction sched as [|i sched IH]; intros p; [done|]. simpl.
  unfold pool_turn at 1. destruct (tasks p !! i) as [pc|] eqn:E; [|apply IH].
  eapply rtc_l; [|apply IH]. destruct p as [ts s]. by apply pool_run.
Qed.

(** ** Runs under a condition *)

(** Steps between pools that meet [P]. *)
Definition guarded (P : Pool → Prop) (p q : Pool) : Prop := pool_step p q ∧ P p ∧ P q.

Lemma guarded_end (P : Pool → Prop) p q : rtc (guarded P) p q → P p → P q.
Proof. intros Hs. induction Hs as [|p q r (_ & _ & Ho) _ IH]; auto. Qed.

(** A request arrives, a task makes its next call, a sweep starts, or time passes. *)
Inductive event := Arrive (pc : Pc) | Turn (i : nat) | Sweep (n : Z) | Tick (d : Z).

Definition pool_event (p : Pool) (e : event) : Pool :=
  match e with
  | Arrive pc => mkPool (tasks p ++ [pc]) (shared p)
  | Turn i => pool_turn p i
  | Sweep n => drain n p
  | Tick d => tick d p
  end.

(** A run that passes the test [ok] all the way. *)
Fixpoint guarded_run (ok : Pool → bool) (p : Pool) (es : list event) : bool :=
  ok p &&
  match es with
  | [] => true
  | e :: es => match e with Arrive pc => is_start pc | _ => true end && guarded_run ok (pool_event p e) es
  end.

Lemma guarded_run_steps (P : Pool → Prop) ok es p :
  (∀ p, ok p = true → P p) → guarded_run ok p es = true →
  rtc (guarded P) p (fold_left pool_event es p).
Proof.
  intros Hok. revert p. induction es as [|e es IH]; intros p H; [done|].
  cbn [guarded_run fold_left] in *. apply andb_true_iff in H as [Ho [He Hr]%andb_true_iff].
  assert (P (pool_event p e)) as Ho'.
  { apply Hok. destruct es; simpl in Hr; by apply andb_true_iff in Hr as [? _]. }
  apply Hok in Ho. specialize (IH _ Hr). destruct e as [pc|i|n|n]; cbn [pool_event] in *.
  - eapply rtc_l; [|exact IH]. split; [|done]. destruct p. by apply pool_spawn.
  - unfold pool_turn in *. destruct (tasks p !! i) as [pc|] eqn:E; [|done].
    eapply rtc_l; [|exact IH]. split; [|done]. destruct p. by apply pool_run.
  - eapply rtc_l; [|exact IH]. split; [apply pool_drain|done].
  - eapply rtc_l; [|exact IH]. split; [apply pool_tick|done].
Qed.

(** Every task of the pool has returned. *)
Definition quiet (p : Pool) : bool := forallb is_done (tasks p).

(** ** Turns *)

(** How many calls task [i] makes in a run. *)
Fixpoint turns (i : nat) (es : list event) : nat :=
  match es with
  | [] => 0
  | Turn j :: es => if decide (j = i) then S (turns i es) else turns i es
  | _ :: es => turns i es
  end.

Lemma is_done_left pc : is_done pc = true ↔ calls_left pc = 0%nat.
Proof. destruct pc; naive_solver. Qed.

(** No event takes a task away or gives it more to do, its own turn leaves it less, and
    an answer stays. *)
Definition gets_on (pc pc' : Pc) (n : nat) : Prop :=
  if is_done pc then pc' = pc else (calls_left pc' + n ≤ calls_left pc)%nat ∨ is_done pc' = true.

Lemma pool_event_task p e i pc :
  tasks p !! i = Some pc →
  ∃ pc', tasks (pool_event p e) !! i = Some pc' ∧ gets_on pc pc' (turns i [e]).
Proof.
  intros Hi. assert (gets_on pc pc 0) as H0 by (unfold gets_on; case_match; [done|left; lia]).
  destruct e as [pc0|j|n|n]; cbn [pool_event turns].
  - exists pc. split; [by apply lookup_app_l_Some|done].
  - unfold pool_turn. destruct (decide (j = i)) as [-> |Hne].
    + rewrite Hi. cbn [tasks]. rewrite list_lookup_insert_eq by by eapply lookup_lt_Some.
      eexists. split; [done|]. unfold gets_on. destruct (is_done pc) eqn:Hd; [by destruct pc|].
      pose proof (advance_calls_left pc (shared p) Hd). left. simpl. lia.
    + exists pc. split; [|done].
      destruct (tasks p !! j); [|done]. cbn [tasks]. by rewrite list_lookup_insert_ne.
  - exists pc. split; [|done].
    unfold drain. destruct (drain_due n _). by apply lookup_app_l_Some.
  - by exists pc.
Qed.

Lemma turns_cons i e es : turns i (e :: es) = (turns i [e] + turns i es)%nat.
Proof. destruct e; simpl; try done. by case_decide. Qed.

Lemma pool_events_task es p i pc :
  tasks p !! i = Some pc →
  ∃ pc', tasks (fold_left pool_event es p) !! i = Some pc' ∧ gets_on pc pc' (turns i es).
Proof.
  revert p pc. induction es as [|e es IH]; intros p pc Hi.
  { exists pc. split; [done|]. unfold gets_on. case_match; [done|left; simpl; lia]. }
  destruct (pool_event_task p e i pc Hi) as (pc1 & Hi1 & H1). cbn [fold_left].
  destruct (IH _ _ Hi1) as (pc2 & Hi2 & H2). exists pc2. split; [done|].
  rewrite turns_cons. unfold gets_on in *. destruct (is_done pc) eqn:Hd; [subst pc1; by rewrite Hd in H2|].
  destruct (is_done pc1) eqn:Hd1; [subst pc2; by right|]. destruct H1 as [H1|?]; [|done].
  destruct H2 as [H2|?]; [left; lia|by right].
Qed.


End interleave.

(** A task that runs alone is the operation.  However the calls of a put, a delete
    or the sweep of one candidate are cut, thirteen of them in a row with nothing in
    between end the task with the result and the state of the operation. *)
Theorem task_runs_alone {F : Fjall} {B : Broadcast} {G : Governor} {C : Crc32} {J : QuotaJson}
    (s : NodeService (F:=F) (B:=B) (G:=G)) sys key value ttl_ms now_ms :
  run_task 13 (PutStart sys key value ttl_ms) s =
    (Done (put_with_ttl sys key value ttl_ms s).1, (put_with_ttl sys key value ttl_ms s).2) ∧
  run_task 13 (DelPlan key) s = (Done (delete_key key s).1, (delete_key key s).2) ∧
  (run_task 13 (SweepGet now_ms key) s).2 = (sweep_key now_ms key s).2.
Proof.
  rewrite !run_task_rest by (simpl; lia). split_and!; [done|done|].
  cbn [rest fst snd]. unfold sweep_verdict, sweep_key.
  repeat (case_match; simplify_eq/=; try done).
Qed.

(** A put under twelve calls of a second one, on a node whose log and backend are
    whatever they are. *)
Definition contended : list event :=
  [Arrive (PutStart 0 (lit "b") (lit "2") 0)] ++
  concat (replicate 12 [Turn 0; Turn 1]) ++ [Tick 5; Sweep 9; Turn 0].


(** ** What the engine takes *)

Section takes.
Context {F : Fjall} {B : Broadcast} {G : Governor} {C : Crc32} {J : QuotaJson} {FS : FjallSpec}.

Abbreviation Service := (NodeService (F:=F) (B:=B) (G:=G)).

(** The entry a task has yet to write is one the backend takes. *)
Definition pc_takes (b : StorageBackend F) (pc : Pc) : Prop :=
  match pc with
  | PutStart _ k v _ => ∀ exp, admits b k (ValueCodec.encode v exp)
  | PutPlan k v exp | PutCheck k v exp _ | PutAppend k v exp _ | PutStore k v exp _ =>
      admits b k (ValueCodec.encode v exp)
  | DelPlan k | DelAppend k _ | DelStore k _ | SweepGet _ k => admits b k []
  | _ => True
  end.

Lemma pc_takes_agree (b b' : StorageBackend F) pc :
  is_durable b' = is_durable b → pc_takes b pc → pc_takes b' pc.
Proof. intros Hd. destruct pc; cbn [pc_takes]; eauto using admits_agree. Qed.

Lemma pc_takes_memory (m : MemStorage) pc : pc_takes (Memory m) pc.
Proof. by destruct pc. Qed.

Lemma in_storage_durable {A} (m : M (StorageBackend F) Error A) (s : Service) :
  is_durable (m (storage s)).2 = is_durable (storage s) →
  is_durable (storage (in_storage m s).2) = is_durable (storage s).
Proof. unfold in_storage, zoom. by destruct (m (storage s)). Qed.

Lemma call_snd {A} (m : M Service Error A) (k : A → Pc) s : (call m k s).2 = (m s).2.
Proof. unfold call. by destruct (m s) as [[] ?]. Qed.

Lemma call_logged_snd (m : M Service Error unit) ok err s : (call_logged m ok err s).2 = (m s).2.
Proof. unfold call_logged. by destruct (m s) as [[] ?]. Qed.

(** No call changes the kind of the backend. *)
Lemma advance_durable pc (s : Service) :
  is_durable (storage (advance pc s).2) = is_durable (storage s).
Proof.
  destruct pc; cbn [advance]; rewrite ?call_snd, ?call_logged_snd; try done.
  - by destruct acc.
  - unfold in_wal, zoom. by destruct (append _ _ _ _).
  - apply in_storage_durable, is_durable_dispatch.
  - by destruct exp.
  - unfold in_wal, zoom. by destruct (append _ _ _ _).
  - apply in_storage_durable, is_durable_dispatch.
  - by repeat case_match.
  - unfold persist_usage. unfold_monad. destruct (KeyCodec.encode _ _ _); [|done..].
    apply in_storage_durable, is_durable_dispatch.
  - unfold publish_change. by repeat case_match.
  - by repeat case_match.
  - apply in_storage_durable, is_durable_dispatch.
  - unfold in_wal, zoom. by destruct (rotate _).
Qed.

Lemma advance_takes pc (s : Service) :
  pc_takes (storage s) pc → pc_takes (storage (advance pc s).2) (advance pc s).1.
Proof.
  intros Ht. eapply pc_takes_agree; [apply advance_durable|].
  destruct pc; cbn [advance] in *; try done; try (unfold call, call_logged; by repeat case_match).
  - apply Ht.
  - destruct (sweep_verdict_cases now_ms key (st_get (storage s) key)) as [->|[[e ->]| ->]]; done.
Qed.

End takes.
