(* ===== verification/Writers.v ===== *)
(** * Concurrent writers that do not share a key

    The invariant of a pool of puts, deletes and sweeps in which no two tasks in flight
    have the same key, stated key by key: what log, storage, counters and index say of a
    key depends only on how far the one task on it has come.  A call moves its own
    key forward and leaves the others alone, so the invariant survives every
    interleaving. *)

From Stdlib Require Import Strings.Byte.
From S2P Require Import Prelude Bytes Core KeyCodec ValueCodec Storage Wal TtlIndex Quota.
From S2P Require Import Throttle Watch Config Service Node NodeSpec Sample Sweeper Interleave.

(** ** Counting one key *)

Definition entry_weight (t k : bytes) (o : option bytes) : Z :=
  match o with
  | Some raw => weight t (k, raw)
  | None => 0
  end.

Lemma weight_at_entry m t k : weight_at m t k = entry_weight t k (m !! k).
Proof. done. Qed.

Lemma usage_in_set m t k o :
  usage_in (partial_alter (λ _, o) k m) t = usage_in m t - weight_at m t k + entry_weight t k o.
Proof.
  destruct o as [raw|]; simpl.
  - apply (usage_in_insert m t k raw).
  - change (partial_alter (λ _, None) k m) with (delete k m). rewrite usage_in_delete. lia.
Qed.

(** An entry counts for its own tenant only. *)
Lemma entry_weight_other t t' p o : valid_tenant t → t' ≠ t → entry_weight t' (data_key t p) o = 0.
Proof.
  intros Ht Hne. destruct o as [raw|]; [|done]. unfold entry_weight, weight. cbn [fst snd].
  rewrite decode_data_key by done. destruct (ValueCodec.decode raw); [|done..].
  by rewrite decide_False.
Qed.

Lemma len_encode_le v exp : len (ValueCodec.encode v exp) ≤ len v + 9.
Proof.
  unfold ValueCodec.encode. destruct exp as [e|]; rewrite ?len_app, ?len_cons, ?len_nil; [|lia].
  change (len (to_be_bytes 8 e)) with 8. lia.
Qed.

(** ** The key of a task *)

(** What a task is writing, until only the rotation is left. *)
Definition key_of (pc : Pc) : option bytes :=
  match pc with
  | PutStart _ k _ _ | PutPlan k _ _ | PutCheck k _ _ _ | PutAppend k _ _ _ | PutStore k _ _ _
  | PutSchedule k _ _ _ | DelPlan k | DelAppend k _ | DelStore k _ | SweepGet _ k
  | SweepSchedule k _ | CommitAdjust _ k _ _ | CommitPersist _ _ k _ _ | Announce k _ _ => Some k
  | RotateTest | RotateFlush | RotateTruncate | Done _ => None
  end.

Definition exclusive (ts : list Pc) : Prop :=
  ∀ i j pi pj k, ts !! i = Some pi → ts !! j = Some pj →
    key_of pi = Some k → key_of pj = Some k → i = j.

(** Requests within the engine's limits, and so within the frame's length fields. *)
Definition key_sized (k : bytes) : Prop := is_data k ∧ len k ≤ FJALL_MAX_KEY.

Lemma key_sized_len k : key_sized k → 0 < len k ≤ FJALL_MAX_KEY.
Proof.
  intros [(t & p & _ & ->) Hk]. split; [|done]. unfold data_key. rewrite len_app, len_frame.
  pose proof (len_nonneg t). pose proof (len_nonneg p). lia.
Qed.

Definition request_ok (pc : Pc) : Prop :=
  match pc with
  | PutStart _ k v _ => key_sized k ∧ len v + 9 < 2 ^ 32
  | DelPlan k => key_sized k
  | SweepGet _ k => key_sized k
  | _ => True
  end.

Definition expiry_ok (exp : option Z) : Prop :=
  match exp with
  | Some e => u64_ok e
  | None => True
  end.

(** ** Checking a run

    The conditions of an orderly run, as a test on concrete pools. *)

Global Instance request_ok_dec pc : Decision (request_ok pc).
Proof. destruct pc; simpl; unfold key_sized; apply _. Defined.

Lemma exclusive_nodup ts : NoDup (omap key_of ts) → exclusive ts.
Proof.
  induction ts as [|pc ts IH]; intros Hnd; [by intros i j pi pj k|].
  assert (exclusive ts ∧ ∀ k, key_of pc = Some k → k ∉ omap key_of ts) as [Hex Hno].
  { csimpl in Hnd. destruct (key_of pc) as [k|]; [|by split; [apply IH|]].
    apply NoDup_cons in Hnd as [? ?]. split; [by apply IH|]. by intros ? [= <-]. }
  assert (∀ j pj k, ts !! j = Some pj → key_of pj = Some k → k ∈ omap key_of ts) as Hin.
  { intros j pj k Hj Hk. apply list_elem_of_omap. exists pj. split; [by eapply list_elem_of_lookup_2|done]. }
  intros [|i] [|j] pi pj k Hi Hj Hki Hkj; simplify_eq/=; [done|..].
  - by destruct (Hno k Hki); eapply Hin.
  - by destruct (Hno k Hkj); eapply Hin.
  - f_equal. by eapply Hex.
Qed.

(** Everything a map holds, whoever it belongs to. *)
Definition bulk (m : gmap bytes bytes) : Z := sum_with (λ kv, len kv.1 + len kv.2) (map_to_list m).

Lemma weight_bulk t kv : weight t kv ≤ len kv.1 + len kv.2.
Proof.
  unfold weight. pose proof (len_nonneg kv.1). pose proof (len_nonneg kv.2).
  destruct (KeyCodec.decode kv.1) as [[[t' []] q]| |] eqn:Ek; try lia.
  destruct (ValueCodec.decode kv.2) as [sv| |] eqn:Ev; try lia. case_decide; [|lia].
  apply decode_key_Ok in Ek as [_ ->]. apply decode_value_Ok in Ev as [-> _].
  unfold ValueCodec.encode. pose proof (len_nonneg (frame t' Data)). rewrite len_app.
  destruct (expires_at_ms sv) as [e|]; rewrite !len_app, len_cons, len_nil; [|lia].
  pose proof (len_nonneg (to_be_bytes 8 e)). lia.
Qed.

Lemma usage_in_bulk m t : usage_in m t ≤ bulk m.
Proof.
  unfold usage_in, bulk. induction (map_to_list m) as [|kv l IH]; [done|].
  unfold sum_with in *. simpl. pose proof (weight_bulk t kv). lia.
Qed.

Section writers.
Context {F : Fjall} {FS : FjallSpec} {FO : FjallOk}.
Context {B : Broadcast} {G : Governor} {C : Crc32} {CO : Crc32Ok} {J : QuotaJson}.

Abbreviation Service := (NodeService (F:=F) (B:=B) (G:=G)).

(** Counters below 63 bits, room in the index, and a segment that is not due for
    rotation. *)
Record roomy (s : Service) : Prop := {
  room_usage : ∀ t, usage_in (view (storage s)) t < 2 ^ 63;
  room_used : ∀ t, used_bytes (quota_store s) t < 2 ^ 63;
  room_index : len (scheduled (ttl_index s)) < U64_MAX;
  room_segment : is_durable (storage s) = false ∨ segment_bytes (wal s) < wal_rotate_bytes (config s);
}.

Record orderly (p : Pool (F:=F) (B:=B) (G:=G)) : Prop := {
  ord_keys : exclusive (tasks p);
  ord_requests : Forall request_ok (tasks p);
  ord_room : roomy (shared p);
}.

(** ** The invariant *)

Section invariant.
(** [d] is what the backend has on disk. *)
Variable d : gmap bytes bytes.

Definition covered (s : Service) (k : bytes) : Prop :=
  ∀ raw sv e, view (storage s) !! k = Some raw → ValueCodec.decode raw = Ok sv →
    expires_at_ms sv = Some e → (e, k) ∈ scheduled (ttl_index s).

Definition logged_at (l : Log) (k : bytes) : option bytes := replay_map (log_records l) d !! k.
Definition stored_at (s : Service) (k : bytes) : option bytes := view (storage s) !! k.

(** What does not belong to one key.  [acct] is the data as the counters see it:
    it lags behind storage at the keys whose task has not adjusted them yet. *)
Record shared_ok (s : Service) (l : Log) (acct : gmap bytes bytes) : Prop := {
  sh_env : env_ok s l;
  sh_values : values_ok (view (storage s));
  sh_used : ∀ t, used_bytes (quota_store s) t = usage_in acct t;
  sh_index : index_ok (ttl_index s);
  sh_other : ∀ k, ¬ is_data k → covered s k;
  sh_quotas : synced (quota_store s) (view (storage s));
  sh_log : Forall (λ r, is_data (key r)) (log_records l);
}.

(** Log, storage and counters say the same of a key. *)
Definition level (s : Service) (l : Log) (acct : gmap bytes bytes) (k : bytes) : Prop :=
  logged_at l k = stored_at s k ∧ acct !! k = stored_at s k.

(** A key no task is on. *)
Record at_rest (s : Service) (l : Log) (acct : gmap bytes bytes) (k : bytes) : Prop := {
  rest_log : logged_at l k = stored_at s k;
  rest_acct : acct !! k = stored_at s k;
  rest_ttl : covered s k;
}.

Definition planned_put (s : Service) (k v : bytes) (acc : option Accounting) : Prop :=
  ∃ t p, valid_tenant t ∧ k = data_key t p ∧
    acc = Some (mkAccounting t (len p + len v - weight_at (view (storage s)) t k)).

Definition planned_delete (s : Service) (k : bytes) (acc : option Accounting) : Prop :=
  ∃ t p, valid_tenant t ∧ k = data_key t p ∧
    acc = match stored_at s k with
          | Some _ => Some (mkAccounting t (- weight_at (view (storage s)) t k))
          | None => None
          end.

(** [acc] is what the counters still miss at [k]. *)
Definition settles (s : Service) (acct : gmap bytes bytes) (k : bytes) (acc : option Accounting) : Prop :=
  ∃ t p, valid_tenant t ∧ k = data_key t p ∧
    let d := weight_at (view (storage s)) t k - weight_at acct t k in
    acc = Some (mkAccounting t d) ∨ (acc = None ∧ d = 0).

(** A key with its task at [pc]. *)
Definition key_ok (s : Service) (l : Log) (acct : gmap bytes bytes) (k : bytes) (pc : Pc) : Prop :=
  match pc with
  | PutStart _ _ v _ => at_rest s l acct k ∧ key_sized k ∧ len v + 9 < 2 ^ 32
  | PutPlan _ v exp => at_rest s l acct k ∧ key_sized k ∧ len v + 9 < 2 ^ 32 ∧ expiry_ok exp
  | PutCheck _ v exp acc | PutAppend _ v exp acc =>
      at_rest s l acct k ∧ key_sized k ∧ len v + 9 < 2 ^ 32 ∧ expiry_ok exp ∧ planned_put s k v acc
  | PutStore _ v exp acc =>
      logged_at l k = Some (ValueCodec.encode v exp) ∧ acct !! k = stored_at s k ∧ expiry_ok exp ∧
      planned_put s k v acc ∧ key_sized k ∧ len v + 9 < 2 ^ 32
  | PutSchedule _ v exp acc =>
      logged_at l k = stored_at s k ∧ stored_at s k = Some (ValueCodec.encode v exp) ∧
      expiry_ok exp ∧ settles s acct k acc
  | DelPlan _ => level s l acct k ∧ key_sized k
  | DelAppend _ acc => level s l acct k ∧ key_sized k ∧ planned_delete s k acc
  | DelStore _ acc =>
      logged_at l k = None ∧ acct !! k = stored_at s k ∧ planned_delete s k acc ∧ key_sized k
  | CommitAdjust acc _ _ _ => logged_at l k = stored_at s k ∧ covered s k ∧ settles s acct k acc
  | CommitPersist t _ _ _ _ => at_rest s l acct k ∧ valid_tenant t
  | Announce _ _ _ => at_rest s l acct k
  | SweepGet _ _ => level s l acct k ∧ key_sized k
  | SweepSchedule _ e => level s l acct k ∧
      ∀ raw sv e', stored_at s k = Some raw → ValueCodec.decode raw = Ok sv →
        expires_at_ms sv = Some e' → e' = e
  | _ => False
  end.

(** A task past its key is in its last test or done. *)
Definition keyless_ok (pc : Pc) : Prop :=
  match pc with
  | RotateTest | Done _ => True
  | _ => False
  end.

(** The part of the state that belongs to other keys does not move. *)
Record elsewhere (s s' : Service) (l l' : Log) (acct acct' : gmap bytes bytes) (k' : bytes) : Prop := {
  else_log : logged_at l' k' = logged_at l k';
  else_stored : stored_at s' k' = stored_at s k';
  else_acct : acct' !! k' = acct !! k';
  else_index : ∀ e, (e, k') ∈ scheduled (ttl_index s) → (e, k') ∈ scheduled (ttl_index s');
}.

(** What one call of the task on [k] establishes. *)
Definition call_ok (s : Service) (l : Log) (acct : gmap bytes bytes) (k : bytes) (r : Pc * Service) : Prop :=
  ∃ l' acct', shared_ok r.2 l' acct' ∧
    ((key_of r.1 = Some k ∧ key_ok r.2 l' acct' k r.1) ∨
     (key_of r.1 = None ∧ keyless_ok r.1 ∧ at_rest r.2 l' acct' k)) ∧
    ∀ k', is_data k' → k' ≠ k → elsewhere s r.2 l l' acct acct' k'.

Lemma covered_agree s s' k :
  stored_at s' k = stored_at s k →
  (∀ e, (e, k) ∈ scheduled (ttl_index s) → (e, k) ∈ scheduled (ttl_index s')) →
  covered s k → covered s' k.
Proof.
  unfold covered. intros Hs Hi Hc raw sv e. fold (stored_at s' k). rewrite Hs. intros Hr Hsv He.
  apply Hi. by eapply Hc.
Qed.

(** Other keys keep their condition. *)
Lemma elsewhere_rest s s' l l' acct acct' k' :
  elsewhere s s' l l' acct acct' k' → at_rest s l acct k' → at_rest s' l' acct' k'.
Proof.
  intros [H1 H2 H3 H4] [R1 R2 R3]. split; [congruence|congruence|by eapply covered_agree].
Qed.

Lemma elsewhere_key s s' l l' acct acct' k' pc :
  elsewhere s s' l l' acct acct' k' → key_ok s l acct k' pc → key_ok s' l' acct' k' pc.
Proof.
  intros He. pose proof (elsewhere_rest _ _ _ _ _ _ _ He) as Hr. destruct He as [H1 H2 H3 H4].
  pose proof (covered_agree s s' k' H2 H4) as Hcov.
  assert (∀ t, weight_at (view (storage s')) t k' = weight_at (view (storage s)) t k') as Hw.
  { intros t. rewrite !weight_at_entry. unfold stored_at in H2. by rewrite H2. }
  assert (∀ t, weight_at acct' t k' = weight_at acct t k') as Ha.
  { intros t. rewrite !weight_at_entry. by rewrite H3. }
  assert (∀ acc v, planned_put s k' v acc → planned_put s' k' v acc) as Hp.
  { intros acc v (t & p & ? & ? & ->). exists t, p. by rewrite Hw. }
  assert (∀ acc, planned_delete s k' acc → planned_delete s' k' acc) as Hpd.
  { intros acc (t & p & ? & ? & ->). exists t, p. by rewrite Hw, H2. }
  assert (∀ acc, settles s acct k' acc → settles s' acct' k' acc) as Hst.
  { intros acc (t & p & ? & ? & Hd). exists t, p. by rewrite Hw, Ha. }
  destruct pc; cbn [key_ok]; unfold level; rewrite ?H1, ?H2, ?H3; naive_solver.
Qed.

(** A call that changes nothing a key depends on. *)
Lemma elsewhere_refl s s' l acct k' :
  stored_at s' k' = stored_at s k' →
  (∀ e, (e, k') ∈ scheduled (ttl_index s) → (e, k') ∈ scheduled (ttl_index s')) →
  elsewhere s s' l l acct acct k'.
Proof. by split. Qed.

Lemma call_ok_same s l acct k pc :
  shared_ok s l acct → key_of pc = Some k → key_ok s l acct k pc → call_ok s l acct k (pc, s).
Proof. intros Hs Hk Ho. exists l, acct. split_and!; [done|by left|]. intros. by apply elsewhere_refl. Qed.

Lemma call_ok_leave s l acct k pc :
  shared_ok s l acct → key_of pc = None → keyless_ok pc → at_rest s l acct k →
  call_ok s l acct k (pc, s).
Proof. intros Hs Hk Ho Hr. exists l, acct. split_and!; [done|by right|]. intros. by apply elsewhere_refl. Qed.

(** ** The calls, one by one *)

Lemma put_start_ok s l acct sys k v ttl :
  shared_ok s l acct → key_ok s l acct k (PutStart sys k v ttl) →
  call_ok s l acct k (advance (PutStart sys k v ttl) s).
Proof.
  intros Hs (Hr & Hk & Hv). apply call_ok_same; [done..|]. split_and!; [done..|].
  apply (expiry_u64 s sys ttl), Hs.
Qed.

Lemma put_plan_ok s l acct k v exp :
  shared_ok s l acct → roomy s → key_ok s l acct k (PutPlan k v exp) →
  call_ok s l acct k (advance (PutPlan k v exp) s).
Proof.
  intros Hs Hroom (Hr & Hk & Hv & He). pose proof Hk as [(t & p & Ht & ->) Hlen].
  cbn [advance]. unfold call. rewrite plan_runs.
  - apply call_ok_same; [done..|]. split_and!; [done..|]. by exists t, p.
  - apply Hs.
  - apply Hs.
  - done.
  - apply len_nonneg.
  - unfold data_key, FJALL_MAX_KEY in Hlen. rewrite len_app in Hlen.
    pose proof (len_nonneg (frame t Data)). lia.
  - apply Hroom.
Qed.

(** Whatever the check says, it moves nothing. *)
Lemma put_check_either s l acct k v exp acc pc :
  shared_ok s l acct → key_ok s l acct k (PutCheck k v exp acc) →
  pc = PutAppend k v exp acc ∨ (∃ r, pc = Done r) → call_ok s l acct k (pc, s).
Proof.
  intros Hs Ho [-> |[r ->]]; [by apply call_ok_same|]. by apply call_ok_leave, Ho.
Qed.

Lemma check_verdict k v exp acc (s : Service) :
  ∃ pc, advance (PutCheck k v exp acc) s = (pc, s) ∧ (pc = PutAppend k v exp acc ∨ ∃ r, pc = Done r).
Proof.
  cbn [advance]. unfold call. destruct acc as [plan|]; [|eauto].
  destruct (check_write _ _ _); eauto.
Qed.

Lemma put_check_ok s l acct k v exp acc :
  shared_ok s l acct → key_ok s l acct k (PutCheck k v exp acc) →
  call_ok s l acct k (advance (PutCheck k v exp acc) s).
Proof.
  intros Hs Ho. destruct (check_verdict k v exp acc s) as (pc & -> & Hpc). by eapply put_check_either.
Qed.

(** Appending a record on [k] moves the log at [k] only. *)
Lemma logged_at_append l o k v k' :
  logged_at (log_append l o k v) k' =
  if decide (k = k') then (match o with Put => Some v | Delete => None end) else logged_at l k'.
Proof.
  unfold logged_at. rewrite log_records_append, replay_map_app. simpl.
  by rewrite apply_record_lookup.
Qed.

Lemma append_shared s l acct o k v :
  shared_ok s l acct → key_sized k → len v < 2 ^ 32 →
  ∃ sq w', in_wal (append o k v) s = (Ok sq, set_wal w' s) ∧
    shared_ok (set_wal w' s) (log_append l o k v) acct.
Proof.
  intros Hs [Hd Hk] Hv. pose proof Hk as Hk'. unfold FJALL_MAX_KEY in Hk'.
  destruct (append_runs o k v s l) as (sq & w' & E & Hw & Hf); [apply Hs|lia|done|].
  exists sq, w'. split; [done|]. destruct Hs as [[? ? ? ? Ha] ? ? ? ? ? Hlog]. split; try done.
  { split; try done. apply Forall_app. split; [done|]. apply Forall_singleton.
    by apply admits_short; [apply key_sized_len|]. }
  rewrite log_records_append. apply Forall_app. by repeat constructor.
Qed.

Lemma append_ok s l acct o k v pc :
  shared_ok s l acct → key_sized k → len v < 2 ^ 32 →
  key_of pc = Some k →
  (∀ w', key_ok (set_wal w' s) (log_append l o k v) acct k pc) →
  call_ok s l acct k (call (in_wal (append o k v)) (λ _, pc) s).
Proof.
  intros Hs Hk Hv Hpc Hok. destruct (append_shared s l acct o k v Hs Hk Hv) as (sq & w' & E & Hs').
  unfold call. rewrite E. exists (log_append l o k v), acct. split_and!; [done|left; split; [done|apply Hok]|].
  intros k' _ Hne. split; try done. by rewrite logged_at_append, decide_False.
Qed.

Lemma put_append_ok s l acct k v exp acc :
  shared_ok s l acct → key_ok s l acct k (PutAppend k v exp acc) →
  call_ok s l acct k (advance (PutAppend k v exp acc) s).
Proof.
  intros Hs (Hr & Hk & Hv & He & Hp). pose proof (len_encode_le v exp).
  apply append_ok; [done|done|lia|done|].
  intros w'. split_and!; [by rewrite logged_at_append, decide_True|apply Hr|done..].
Qed.

Lemma del_append_ok s l acct k acc :
  shared_ok s l acct → key_ok s l acct k (DelAppend k acc) →
  call_ok s l acct k (advance (DelAppend k acc) s).
Proof.
  intros Hs (Hr & Hk & Hp). apply append_ok; [done..|].
  intros w'. split_and!; [by rewrite logged_at_append, decide_True|apply Hr|done..].
Qed.

(** A sweep that has read its candidate. *)
Lemma sweep_get_ok s l acct n k :
  shared_ok s l acct → key_ok s l acct k (SweepGet n k) →
  call_ok s l acct k (advance (SweepGet n k) s).
Proof.
  intros Hs (Hr & Hk). cbn [advance]. rewrite backend_get_runs by apply Hs. fold (stored_at s k).
  unfold sweep_verdict. destruct (stored_at s k) as [raw|] eqn:Est.
  - destruct (sh_values _ _ _ Hs _ _ Est) as [sv Hsv].
    rewrite is_expired_decode, Hsv. unfold_monad. destruct (expired sv n); [by apply call_ok_same|].
    assert (∀ raw' sv', stored_at s k = Some raw' → ValueCodec.decode raw' = Ok sv' → sv' = sv) as Hu
      by (intros; congruence).
    destruct (expires_at_ms sv) as [e|] eqn:He.
    + apply call_ok_same; [done..|]. split; [done|]. intros raw' sv' e' H1 H2 H3.
      rewrite (Hu _ _ H1 H2) in H3. congruence.
    + apply call_ok_leave; [done..|]. split; [apply Hr..|]. intros raw' sv' e' H1 H2 H3.
      rewrite (Hu _ _ H1 H2) in H3. congruence.
  - apply call_ok_leave; [done..|]. split; [apply Hr..|]. intros raw sv e H1.
    change (stored_at s k = Some raw) in H1. congruence.
Qed.

Lemma del_plan_ok s l acct k :
  shared_ok s l acct → roomy s → key_ok s l acct k (DelPlan k) →
  call_ok s l acct k (advance (DelPlan k) s).
Proof.
  intros Hs Hroom (Hr & Hk). pose proof Hk as [(t & p & Ht & ->) _].
  cbn [advance]. unfold call. rewrite plan_delete_runs by (apply Hs || done || apply Hroom).
  apply call_ok_same; [done..|]. split_and!; [done..|]. by exists t, p.
Qed.

(** Writing [o] at a data key of a healthy backend. *)
Lemma store_shared s l acct t p o b' :
  valid_tenant t → shared_ok s l acct →
  view b' = partial_alter (λ _, o) (data_key t p) (view (storage s)) → healthy b' →
  is_durable b' = is_durable (storage s) →
  (∀ raw, o = Some raw → ∃ sv, ValueCodec.decode raw = Ok sv) →
  shared_ok (set_storage b' s) l acct.
Proof.
  intros Ht [[? ? ? ? Ha] Hv ? ? Hoth Hq ?] Hb Hh Hd Ho. split; try done.
  - split; try done. by apply (admitted_agree (storage s)).
  - intros k raw. cbn [storage set_storage]. rewrite Hb.
    destruct (decide (k = data_key t p)) as [-> |Hne].
    + rewrite lookup_partial_alter_eq. apply Ho.
    + rewrite lookup_partial_alter_ne by done. apply Hv.
  - intros k Hk. apply (covered_agree s); [|done|by apply Hoth].
    unfold stored_at. cbn [storage set_storage]. rewrite Hb, lookup_partial_alter_ne; [done|].
    intros <-. apply Hk. by exists t, p.
  - cbn [storage set_storage quota_store]. rewrite Hb. by apply synced_data.
Qed.

Lemma store_elsewhere s l acct t p o b' k' :
  view b' = partial_alter (λ _, o) (data_key t p) (view (storage s)) → k' ≠ data_key t p →
  elsewhere s (set_storage b' s) l l acct acct k'.
Proof.
  intros Hb Hne. apply elsewhere_refl; [|done].
  unfold stored_at. cbn [storage set_storage]. by rewrite Hb, lookup_partial_alter_ne.
Qed.

(** Storing the planned value leaves the counters behind by the plan. *)
Lemma put_store_ok s l acct k v exp acc :
  shared_ok s l acct → key_ok s l acct k (PutStore k v exp acc) →
  call_ok s l acct k (advance (PutStore k v exp acc) s).
Proof.
  intros Hs (Hl & Ha & He & (t & p & Ht & -> & ->) & Hk & Hv). cbn [advance]. unfold call, in_storage.
  set (enc := ValueCodec.encode v exp) in *.
  pose proof (len_encode_le v exp).
  destruct (backend_put_runs (storage s) (data_key t p) enc) as (b' & Eb & Hvb & Hhb & Hdb);
    [apply Hs|apply admits_short; [by apply key_sized_len|unfold enc; lia]|].
  rewrite (zoom_run _ _ _ _ _ _ Eb).
  assert (ValueCodec.decode enc = Ok (mkStoredValue exp v)) as Hdec by (by apply decode_encode).
  assert (stored_at (set_storage b' s) (data_key t p) = Some enc) as Hst.
  { unfold stored_at. cbn [storage set_storage]. by rewrite Hvb, lookup_insert_eq. }
  exists l, acct. split_and!.
  - eapply (store_shared s l acct t p (Some enc)); [done|done|exact Hvb|done|done|].
    intros raw [= <-]. eauto.
  - left. split; [done|]. cbn [snd]. split_and!; [by rewrite Hl, Hst|done|done|].
    exists t, p. split_and!; [done|done|]. left. cbn [storage set_storage].
    rewrite (weight_at_entry (view b')), Hvb, lookup_insert_eq.
    cbn [entry_weight]. rewrite (weight_data t p enc _ t Ht Hdec), decide_True by done.
    rewrite !weight_at_entry, Ha. done.
  - intros k' _ Hne. by eapply (store_elsewhere s l acct t p (Some enc)).
Qed.

Lemma del_store_ok s l acct k acc :
  shared_ok s l acct → key_ok s l acct k (DelStore k acc) →
  call_ok s l acct k (advance (DelStore k acc) s).
Proof.
  intros Hs (Hl & Ha & (t & p & Ht & -> & ->) & Hk). cbn [advance]. unfold call, in_storage.
  destruct (backend_delete_runs (storage s) (data_key t p)) as (b' & Eb & Hvb & Hhb & Hdb);
    [apply Hs|apply admits_short; [by apply key_sized_len|done]|].
  rewrite (zoom_run _ _ _ _ _ _ Eb).
  assert (stored_at (set_storage b' s) (data_key t p) = None) as Hst.
  { unfold stored_at. cbn [storage set_storage]. by rewrite Hvb, lookup_delete_eq. }
  exists l, acct. split_and!.
  - by eapply (store_shared s l acct t p None).
  - left. split; [done|]. cbn [snd]. split_and!; [by rewrite Hl, Hst| |].
    + intros raw sv e. fold (stored_at (set_storage b' s) (data_key t p)). by rewrite Hst.
    + exists t, p. split_and!; [done|done|]. cbn [storage set_storage].
      rewrite (weight_at_entry (view b')), Hvb, lookup_delete_eq.
      rewrite !weight_at_entry, Ha. cbn [entry_weight].
      fold (stored_at s (data_key t p)).
      by destruct (stored_at s (data_key t p)); [left|right].
  - intros k' _ Hne. by eapply (store_elsewhere s l acct t p None).
Qed.

(** Scheduling [k] covers it and uncovers nothing. *)
Lemma schedule_shared s l acct k e :
  shared_ok s l acct → roomy s →
  let s' := set_index (schedule k e (ttl_index s)) s in
  shared_ok s' l acct ∧ (∀ k', elsewhere s s' l l acct acct k') ∧
  ((∀ raw sv e', stored_at s k = Some raw → ValueCodec.decode raw = Ok sv →
      expires_at_ms sv = Some e' → e' = e) → covered s' k).
Proof.
  intros Hs Hroom s'.
  assert (∀ p, p ∈ scheduled (ttl_index s) → p ∈ scheduled (ttl_index s')) as Hin.
  { intros p Hp. apply schedule_elem. by right. }
  split_and!.
  - destruct Hs as [[? ? ? ? ?] ? ? Hidx Hoth ? ?]. split; try done.
    + apply schedule_ok; [done|apply Hroom].
    + intros k' Hk'. apply (covered_agree s); [done| |by apply Hoth]. intros. by apply Hin.
  - intros k'. apply elsewhere_refl; [done|]. intros. by apply Hin.
  - intros He raw sv e' Hraw Hsv He'. rewrite (He _ _ _ Hraw Hsv He'). apply schedule_elem. by left.
Qed.

Lemma sweep_schedule_ok s l acct k e :
  shared_ok s l acct → roomy s → key_ok s l acct k (SweepSchedule k e) →
  call_ok s l acct k (advance (SweepSchedule k e) s).
Proof.
  intros Hs Hroom [Hr He]. destruct (schedule_shared s l acct k e Hs Hroom) as (H1 & H2 & H3).
  exists l, acct. cbn [advance fst snd]. split_and!; [done| |by intros].
  right. split_and!; [done..|]. split; [apply Hr..|by apply H3].
Qed.

Lemma put_schedule_ok s l acct k v exp acc :
  shared_ok s l acct → roomy s → key_ok s l acct k (PutSchedule k v exp acc) →
  call_ok s l acct k (advance (PutSchedule k v exp acc) s).
Proof.
  intros Hs Hroom (Hl & Hst & He & Hset).
  assert (ValueCodec.decode (ValueCodec.encode v exp) = Ok (mkStoredValue exp v)) as Hdec
    by (by apply decode_encode).
  destruct exp as [e|]; cbn [advance].
  - destruct (schedule_shared s l acct k e Hs Hroom) as (H1 & H2 & H3).
    exists l, acct. cbn [fst snd]. split_and!; [done| |by intros].
    left. split; [done|]. split_and!; [done| |done]. apply H3. intros raw sv e' Hraw Hsv He'.
    rewrite Hst in Hraw. simplify_eq. rewrite Hdec in Hsv. by simplify_eq/=.
  - apply call_ok_same; [done..|]. split_and!; [done| |done].
    intros raw sv e' Hraw Hsv He'. change (stored_at s k = Some raw) in Hraw.
    rewrite Hst in Hraw. simplify_eq. rewrite Hdec in Hsv. by simplify_eq.
Qed.

(** Adjusting the counter catches up with storage at [k]. *)
Lemma settled_usage s acct t p t' :
  valid_tenant t →
  usage_in (partial_alter (λ _, stored_at s (data_key t p)) (data_key t p) acct) t' =
  usage_in acct t' +
    if decide (t' = t) then
      weight_at (view (storage s)) t (data_key t p) - weight_at acct t (data_key t p)
    else 0.
Proof.
  intros Ht. rewrite usage_in_set, !weight_at_entry. unfold stored_at.
  case_decide as E; [subst; lia|]. rewrite !entry_weight_other by done. lia.
Qed.

Lemma commit_adjust_ok s l acct k kd v acc :
  shared_ok s l acct → roomy s → key_ok s l acct k (CommitAdjust acc k kd v) →
  call_ok s l acct k (advance (CommitAdjust acc k kd v) s).
Proof.
  intros Hs Hroom (Hl & Hcov & t & p & Ht & -> & Hacc). cbv zeta in Hacc.
  set (k := data_key t p) in *. set (dl := weight_at (view (storage s)) t k - weight_at acct t k) in *.
  set (acct' := partial_alter (λ _, stored_at s k) k acct).
  assert (∀ t', usage_in acct' t' = usage_in acct t' + if decide (t' = t) then dl else 0) as Husage
    by (intros; by apply settled_usage).
  assert (acct' !! k = stored_at s k) as Hk by (unfold acct'; by rewrite lookup_partial_alter_eq).
  assert (∀ qs k', k' ≠ k → elsewhere s (set_store qs s) l l acct acct' k') as Helse.
  { intros qs k' Hne. split; try done. unfold acct'. by rewrite lookup_partial_alter_ne. }
  assert (∀ t', dl = 0 → used_bytes (quota_store s) t' = usage_in acct' t') as Hsame.
  { intros t' Hz. rewrite (sh_used _ _ _ Hs), Husage, Hz. by destruct (decide _); lia. }
  assert (dl = 0 → call_ok s l acct k (Announce k kd v, s)) as Hnone.
  { intros Hz. exists l, acct'. split_and!.
    - destruct Hs as [? ? ? ? ? ? ?]. split; try done. intros t'. by apply Hsame.
    - left. split; [done|]. split; done.
    - intros k' _ Hne. destruct (Helse (quota_store s) k' Hne). by split. }
  cbn [advance]. destruct Hacc as [-> |[-> Hz]]; [|by apply Hnone]. cbn [acc_tenant delta].
  destruct (Z.eqb_spec dl 0) as [Hz|Hz]; [by apply Hnone|]. unfold adjust. cbv zeta iota.
  exists l, acct'. cbn [fst snd]. split_and!.
  - destruct Hs as [[? ? ? ? ?] Hv Hused Hidx Hoth Hq Hlog]. split; try done.
    intros t'. cbn [quota_store set_store]. rewrite used_bytes_insert, Husage.
    case_decide as Et; [subst t'|rewrite Hused; lia].
    rewrite <-Hused. apply apply_delta_exact.
    + pose proof (usage_in_nonneg acct t). pose proof (room_used _ Hroom t).
      unfold u64_ok. rewrite Hused in *. lia.
    + rewrite Hused. pose proof (usage_in_nonneg acct' t) as Hn. rewrite Husage in Hn.
      rewrite decide_True in Hn by done. split; [lia|].
      pose proof (room_used _ Hroom t) as Hru. rewrite Hused in Hru.
      pose proof (weight_at_le (view (storage s)) t k). pose proof (weight_at_le acct t k).
      pose proof (room_usage _ Hroom t). unfold dl. lia.
  - left. split; [done|]. by split.
  - intros k' _ Hne. by apply Helse.
Qed.

Lemma commit_persist_ok s l acct t n k kd v :
  shared_ok s l acct → is_data k → key_ok s l acct k (CommitPersist t n k kd v) →
  call_ok s l acct k (advance (CommitPersist t n k kd v) s).
Proof.
  intros Hs Hk (Hr & Ht). cbn [advance]. unfold call_logged, persist_usage.
  erewrite M_bind_ok by (rewrite encode_ok by apply Ht; reflexivity).
  set (rec := ValueCodec.encode (to_be_bytes 8 n) None).
  destruct (backend_put_runs (storage s) (frame t Stats ++ USAGE_KEY) rec) as (b' & Eb & Hvb & Hhb & Hdb);
    [apply Hs|apply admits_usage_key, Ht|].
  unfold in_storage. rewrite (zoom_run _ _ _ _ _ _ Eb).
  destruct (usage_record_harmless (view (storage s)) (view b') t Ht) as (H1 & _ & _ & H4 & H5);
    [right; by exists n|].
  assert (∀ k', is_data k' → stored_at (set_storage b' s) k' = stored_at s k') as Hst
    by (intros; by apply H5).
  assert (∀ k', is_data k' → elsewhere s (set_storage b' s) l l acct acct k') as Helse.
  { intros k' Hk'. apply elsewhere_refl; [by apply Hst|done]. }
  exists l, acct. cbn [fst snd]. split_and!; [| |by intros; apply Helse].
  - destruct Hs as [[? ? ? ? ?] Hv ? ? Hoth Hq ?]. split; try done.
    + split; try done. by apply (admitted_agree (storage s)).
    + by apply H1.
    + intros k' Hk' raw sv e. cbn [storage set_storage ttl_index]. rewrite Hvb.
      intros [[<- <-]|[_ Hraw]]%lookup_insert_Some Hsv He; [|by eapply Hoth].
      unfold rec in Hsv. rewrite decode_encode in Hsv by done. by simplify_eq.
    + by apply H4.
  - left. split; [done|]. by apply (elsewhere_rest s _ l _ acct _), Hr; apply Helse.
Qed.

Lemma announce_ok s l acct k kd v :
  shared_ok s l acct → key_ok s l acct k (Announce k kd v) →
  call_ok s l acct k (advance (Announce k kd v) s).
Proof.
  intros Hs Hr. cbn [advance]. unfold call. destruct (publish_runs k kd v s) as [h ->].
  assert (∀ k', elsewhere s (set_watch h s) l l acct acct k') as Helse
    by (intros; by apply elsewhere_refl).
  exists l, acct. cbn [fst snd]. split_and!; [by destruct Hs as [[? ? ? ? ?] ? ? ? ? ? ?]| |done].
  right. split_and!; [done..|]. by apply (elsewhere_rest s _ l _ acct _).
Qed.

(** Any call of a task on a key. *)
Lemma advance_ok s l acct k pc :
  shared_ok s l acct → roomy s → key_of pc = Some k → is_data k → key_ok s l acct k pc →
  call_ok s l acct k (advance pc s).
Proof.
  intros Hs Hroom Hk Hd Ho. destruct pc; try discriminate Hk; simplify_eq/=.
  - by apply put_start_ok.
  - by apply put_plan_ok.
  - by apply put_check_ok.
  - by apply put_append_ok.
  - by apply put_store_ok.
  - by apply put_schedule_ok.
  - by apply del_plan_ok.
  - by apply del_append_ok.
  - by apply del_store_ok.
  - by apply sweep_get_ok.
  - by apply sweep_schedule_ok.
  - by apply commit_adjust_ok.
  - by apply commit_persist_ok.
  - by apply announce_ok.
Qed.

(** ** The pool *)

Record pool_ok (p : Pool (F:=F) (B:=B) (G:=G)) (l : Log) (acct : gmap bytes bytes) : Prop := {
  pk_shared : shared_ok (shared p) l acct;
  pk_keyless : ∀ pc, pc ∈ tasks p → key_of pc = None → keyless_ok pc;
  pk_busy : ∀ pc k, pc ∈ tasks p → key_of pc = Some k →
    is_data k ∧ key_ok (shared p) l acct k pc;
  pk_idle : ∀ k, is_data k → (∀ pc, pc ∈ tasks p → key_of pc ≠ Some k) →
    at_rest (shared p) l acct k;
}.

(** A node in order with no task. *)
Lemma pool_ok_start s l :
  node_ok s → env_ok s l → logged s l d → pool_ok (mkPool [] s) l (view (storage s)).
Proof.
  intros [? ? ? ? Hcov ?] Henv [Hd Hv].
  assert (∀ k, covered s k) as Hc by (intros k raw sv e; apply Hcov).
  split; cbn [tasks shared]; [by split|set_solver|set_solver|].
  intros k Hk _. split; [by apply Hv|done|done].
Qed.

Lemma elem_of_insert {A} (l : list A) i x y :
  y ∈ <[i:=x]> l → y = x ∨ ∃ j, j ≠ i ∧ l !! j = Some y.
Proof.
  intros [j Hj]%list_elem_of_lookup. apply list_lookup_insert_Some in Hj as [(-> & -> & _)|[Hne Hj]].
  - by left.
  - right. by exists j.
Qed.

Lemma exclusive_app ts1 ts2 p1 p2 k :
  exclusive (ts1 ++ ts2) → p1 ∈ ts1 → p2 ∈ ts2 → key_of p1 = Some k → key_of p2 ≠ Some k.
Proof.
  intros Hex [i Hi]%list_elem_of_lookup [j Hj]%list_elem_of_lookup H1 H2.
  pose proof (lookup_lt_Some _ _ _ Hi) as Hlt.
  assert (i = length ts1 + j)%nat; [|lia].
  eapply Hex; [by rewrite lookup_app_l| |exact H1|exact H2].
  rewrite lookup_app_r by lia. by rewrite Nat.add_comm, Nat.add_sub.
Qed.

Lemma pool_ok_spawn ts s pc l acct :
  pool_ok (mkPool ts s) l acct → is_start pc = true → request_ok pc →
  exclusive (ts ++ [pc]) → pool_ok (mkPool (ts ++ [pc]) s) l acct.
Proof.
  intros [Hs Hkl Hb Hi] Hstart Hreq Hex. cbn [tasks shared] in *.
  assert (∀ k, key_of pc = Some k → is_data k → at_rest s l acct k) as Hfree.
  { intros k Hk Hd. apply Hi; [done|]. intros pc' Hin Hk'.
    by apply (exclusive_app _ _ _ pc k Hex Hin); [apply list_elem_of_singleton|..]. }
  split; cbn [tasks shared]; [done|..].
  - intros pc' [Hin| ->%list_elem_of_singleton]%elem_of_app Hk; [by apply Hkl|]. by destruct pc.
  - intros pc' k [Hin| ->%list_elem_of_singleton]%elem_of_app Hk; [by apply Hb|].
    specialize (Hfree k Hk). destruct pc; try discriminate Hstart; simplify_eq/=.
    + pose proof Hreq as [[Hd ?] ?]. split; [done|]. split; [by apply Hfree|done].
    + pose proof Hreq as [Hd ?]. destruct (Hfree Hd). split; [done|]. by split; [split|].
  - intros k Hk Hno. apply Hi; [done|]. intros pc' Hin. apply Hno. apply elem_of_app. by left.
Qed.

(** Draining takes entries of its candidates only. *)
Lemma drain_keeps n g ks g' :
  index_ok g → drain_due n g = (ks, g') →
  index_ok g' ∧ ∀ e k, k ∉ ks → (e, k) ∈ scheduled g → (e, k) ∈ scheduled g'.
Proof.
  intros Hg E. pose proof (drain_due_spec n g Hg) as Hd. rewrite E in Hd.
  destruct Hd as (Hg' & due & Hs & -> & _). split; [done|]. intros e k Hk Hin.
  rewrite Hs in Hin. apply elem_of_app in Hin as [Hin|Hin]; [|done].
  destruct Hk. apply list_elem_of_fmap. by exists (e, k).
Qed.

Lemma pool_ok_drain p n l acct :
  pool_ok p l acct → orderly (drain n p) → pool_ok (drain n p) l acct.
Proof.
  intros [Hs Hkl Hb Hi] [Hex Hreq _]. unfold drain in *. destruct p as [ts s]. cbn [tasks shared] in *.
  destruct (drain_due n (ttl_index s)) as [ks g] eqn:Ed. cbn [tasks shared] in *.
  destruct (drain_keeps _ _ _ _ (sh_index _ _ _ Hs) Ed) as [Hg Hkeep].
  assert (∀ k, k ∉ ks → elsewhere s (set_index g s) l l acct acct k) as Helse.
  { intros k Hk. apply elsewhere_refl; [done|]. intros e. by apply Hkeep. }
  assert (∀ k, k ∈ ks → SweepGet n k ∈ SweepGet n <$> ks) as Hnew
    by (intros; by apply list_elem_of_fmap_2).
  assert (∀ k, k ∈ ks → key_sized k) as Hsized.
  { intros k Hk. rewrite Forall_app in Hreq. destruct Hreq as [_ Hreq].
    rewrite Forall_forall in Hreq. apply (Hreq _ (Hnew k Hk)). }
  split; cbn [tasks shared].
  - destruct Hs as [[? ? ? ? ?] ? ? ? Hoth ? ?]. split; try done.
    intros k Hk. apply (covered_agree s); [done| |by apply Hoth]. intros e.
    apply Hkeep. intros Hin. by destruct (Hsized k Hin).
  - intros pc [Hin|(k & -> & _)%list_elem_of_fmap]%elem_of_app Hk; [by apply Hkl|done].
  - intros pc k [Hin|(k' & -> & Hin)%list_elem_of_fmap]%elem_of_app Hk.
    + destruct (Hb _ _ Hin Hk) as [Hd Ho]. split; [done|]. eapply elsewhere_key, Ho. apply Helse.
      intros Hks. by apply (exclusive_app _ _ _ _ k Hex Hin (Hnew k Hks) Hk).
    + injection Hk as ->. pose proof (Hsized k Hin) as [Hd Hl]. split; [done|].
      destruct (Hi k Hd) as [R1 R2 _].
      { intros pc' Hin' Hk'. by apply (exclusive_app _ _ _ _ k Hex Hin' (Hnew k Hin) Hk'). }
      by split.
  - intros k Hd Hno. eapply elsewhere_rest; [apply Helse|apply Hi; [done|]].
    + intros Hin. apply (Hno (SweepGet n k)); [|done]. apply elem_of_app. right. by apply Hnew.
    + intros pc Hin. apply Hno. apply elem_of_app. by left.
Qed.

(** Time passes. *)
Lemma pool_ok_tick p n l acct : pool_ok p l acct → pool_ok (tick n p) l acct.
Proof.
  destruct p as [ts s]. intros [[[? ? ? Hc ?] ? ? ? ? ? ?] Hkl Hb Hi].
  assert (∀ k, elsewhere s (shared (tick n (mkPool ts s))) l l acct acct k) as Helse
    by (intros; by apply elsewhere_refl).
  split; cbn [tasks shared tick].
  - split; try done. split; try done. by apply advance_typed.
  - done.
  - intros pc k Hin Hk. destruct (Hb _ _ Hin Hk). split; [done|]. by eapply elsewhere_key; [apply Helse|].
  - intros k Hk Hno. eapply elsewhere_rest; [apply Helse|]. by apply Hi.
Qed.

(** A task that has left its key only finds that nothing needs rotating. *)
Lemma keyless_advance pc (s : Service) :
  keyless_ok pc → roomy s → ∃ r, advance pc s = (Done r, s).
Proof.
  intros Hk Hroom. destruct pc; try done; cbn [advance]; [|eauto].
  destruct (room_segment _ Hroom) as [-> |Hlt]; [simpl; eauto|].
  rewrite (proj2 (Z.ltb_lt _ _) Hlt). case_match; eauto.
Qed.

(** A call of one task, in the pool. *)
Lemma pool_ok_call ts s i pc k r l acct :
  pool_ok (mkPool ts s) l acct → exclusive ts → ts !! i = Some pc → key_of pc = Some k →
  call_ok s l acct k r → ∃ l' acct', pool_ok (mkPool (<[i:=r.1]> ts) r.2) l' acct'.
Proof.
  intros [Hs Hkl Hb Hi] Hex Hpc Hk (l' & acct' & Hs' & Hcase & Helse). cbn [tasks shared] in *.
  pose proof (list_elem_of_lookup_2 _ _ _ Hpc) as Hin. destruct r as [pc' s']. cbn [fst snd] in *.
  destruct (Hb _ _ Hin Hk) as [Hd _].
  assert (∀ j pj k', j ≠ i → ts !! j = Some pj → key_of pj = Some k' → k' ≠ k) as Hother.
  { intros j pj k' Hne Hj Hk' ->. by apply Hne, (Hex j i pj pc k). }
  exists l', acct'. split; cbn [tasks shared]; [done|..].
  - intros q [-> |(j & _ & Hj)]%elem_of_insert Hq; [naive_solver|].
    by eapply Hkl; [apply list_elem_of_lookup_2 in Hj|].
  - intros q k' [-> |(j & Hne & Hj)]%elem_of_insert Hq.
    + destruct Hcase as [[Hq' ?]|[? _]]; [|congruence]. rewrite Hq in Hq'. by simplify_eq.
    + destruct (Hb q k') as [Hd' Ho']; [by eapply list_elem_of_lookup_2|done|]. split; [done|].
      eapply elsewhere_key; [|done]. apply Helse; [done|by eapply Hother].
  - intros k' Hd' Hno. destruct (decide (k' = k)) as [-> |Hne].
    + destruct Hcase as [[Hq _]|(_ & _ & ?)]; [|done]. exfalso. eapply Hno; [|exact Hq].
      eapply list_elem_of_lookup_2, list_lookup_insert_eq. by eapply lookup_lt_Some.
    + eapply elsewhere_rest; [by apply Helse|]. apply Hi; [done|].
      intros q [j Hj]%list_elem_of_lookup Hq. destruct (decide (j = i)) as [-> |Hji].
      { rewrite Hpc in Hj. congruence. }
      eapply Hno; [|exact Hq]. eapply list_elem_of_lookup_2. by rewrite list_lookup_insert_ne.
Qed.

Lemma pool_ok_run ts s i pc l acct :
  pool_ok (mkPool ts s) l acct → exclusive ts → roomy s → ts !! i = Some pc →
  ∃ l' acct', pool_ok (mkPool (<[i:=(advance pc s).1]> ts) (advance pc s).2) l' acct'.
Proof.
  intros Hp Hex Hroom Hpc. pose proof Hp as [Hs Hkl Hb Hi]. cbn [tasks shared] in *.
  pose proof (list_elem_of_lookup_2 _ _ _ Hpc) as Hin. destruct (key_of pc) as [k|] eqn:Hk.
  - destruct (Hb _ _ Hin Hk) as [Hd Ho]. eapply pool_ok_call; [done..|]. by apply advance_ok.
  - destruct (keyless_advance pc s) as [r Er]; [by apply Hkl|done|]. rewrite Er. cbn [fst snd].
    exists l, acct. split; cbn [tasks shared]; [done|..].
    + intros q [-> |(j & _ & Hj)]%elem_of_insert Hq; [done|].
      by eapply Hkl; [apply list_elem_of_lookup_2 in Hj|].
    + intros q k' [-> |(j & _ & Hj)]%elem_of_insert Hq; [done|].
      apply Hb; [by eapply list_elem_of_lookup_2|done].
    + intros k' Hd' Hno. apply Hi; [done|]. intros q [j Hj]%list_elem_of_lookup Hq.
      eapply Hno; [|exact Hq]. eapply list_elem_of_lookup_2. rewrite list_lookup_insert_ne; [done|].
      intros <-. congruence.
Qed.

Definition ordered_step : Pool (F:=F) (B:=B) (G:=G) → Pool → Prop := guarded orderly.

Lemma pool_ok_steps p q l acct :
  pool_ok p l acct → rtc ordered_step p q → ∃ l' acct', pool_ok q l' acct'.
Proof.
  intros Hp Hsteps. revert l acct Hp.
  induction Hsteps as [p|p q r (Hstep & Ho & Ho') _ IH]; intros l acct Hp; [eauto|].
  destruct Hstep as [ts s pc Hstart|ts s i pc Hpc|p n|p n].
  - eapply IH, pool_ok_spawn; [done|done| |apply Ho'].
    pose proof (ord_requests _ Ho') as Hr. cbn [tasks] in Hr.
    rewrite Forall_app, Forall_singleton in Hr. apply Hr.
  - destruct (pool_ok_run ts s i pc l acct Hp) as (l' & acct' & Hq);
      [apply Ho|apply Ho|done|]. by eapply IH.
  - by eapply IH, pool_ok_drain.
  - by eapply IH, pool_ok_tick.
Qed.

(** What recovery makes of a key: what storage says, unless a task has logged its
    write and not stored it yet. *)
Definition recovered (p : Pool (F:=F) (B:=B) (G:=G)) (k : bytes) (o : option bytes) : Prop :=
  (∀ v exp acc, PutStore k v exp acc ∈ tasks p →
     o = Some (ValueCodec.encode v exp) ∧ expiry_ok exp) ∧
  (∀ acc, DelStore k acc ∈ tasks p → o = None) ∧
  ((∀ v exp acc, PutStore k v exp acc ∉ tasks p) → (∀ acc, DelStore k acc ∉ tasks p) →
     o = stored_at (shared p) k).

(** What the log says of a key, by how far its task has come. *)
Lemma key_ok_logged s l acct k pc :
  key_ok s l acct k pc →
  match pc with
  | PutStore _ v exp _ => logged_at l k = Some (ValueCodec.encode v exp) ∧ expiry_ok exp
  | DelStore _ _ => logged_at l k = None
  | _ => logged_at l k = stored_at s k
  end.
Proof. destruct pc; cbn [key_ok]; unfold level; try done; intros Ho; naive_solver (by eapply rest_log). Qed.

Lemma pool_key_cases p l acct k :
  pool_ok p l acct → is_data k →
  (∃ pc, pc ∈ tasks p ∧ key_of pc = Some k ∧ key_ok (shared p) l acct k pc) ∨
  ((∀ pc, pc ∈ tasks p → key_of pc ≠ Some k) ∧ logged_at l k = stored_at (shared p) k).
Proof.
  intros Hp Hk. destruct (decide (Exists (λ pc, key_of pc = Some k) (tasks p))) as [Hex|Hno].
  - left. apply Exists_exists in Hex as (pc & Hin & Hpc). exists pc. split_and!; [done..|].
    by eapply pk_busy.
  - right. assert (∀ pc, pc ∈ tasks p → key_of pc ≠ Some k) as Hfree.
    { intros pc Hin Hpc. apply Hno, Exists_exists. eauto. }
    split; [done|]. by eapply rest_log, pk_idle.
Qed.

Lemma pool_recovered p l acct k :
  pool_ok p l acct → is_data k → recovered p k (logged_at l k).
Proof.
  intros Hp Hk. split_and!.
  - intros v exp acc Hin. destruct (pk_busy _ _ _ Hp _ k Hin eq_refl) as [_ Ho].
    apply (key_ok_logged _ _ _ _ _ Ho).
  - intros acc Hin. destruct (pk_busy _ _ _ Hp _ k Hin eq_refl) as [_ Ho].
    apply (key_ok_logged _ _ _ _ _ Ho).
  - intros Hnp Hnd. destruct (pool_key_cases p l acct k Hp Hk) as [(pc & Hin & Hpc & Ho)|[_ ?]]; [|done].
    apply key_ok_logged in Ho. destruct pc; simplify_eq/=; try done.
    + by apply Hnp in Hin.
    + by apply Hnd in Hin.
Qed.

Lemma recovered_decodes p l acct k raw :
  pool_ok p l acct → is_data k → logged_at l k = Some raw → ∃ sv, ValueCodec.decode raw = Ok sv.
Proof.
  intros Hp Hk Hraw. pose proof (sh_values _ _ _ (pk_shared _ _ _ Hp)) as Hv.
  assert (logged_at l k = stored_at (shared p) k → ∃ sv, ValueCodec.decode raw = Ok sv) as Hst.
  { intros E. rewrite E in Hraw. by eapply Hv. }
  destruct (pool_key_cases p l acct k Hp Hk) as [(pc & Hin & Hpc & Ho)|[_ ?]]; [|by apply Hst].
  apply key_ok_logged in Ho. destruct pc; simplify_eq/=; auto.
  destruct Ho as [Ho He]. rewrite Ho in Hraw. simplify_eq. eexists. by apply decode_encode.
Qed.

End invariant.
(** The tests, and runs that pass them. *)
Definition roomy_b (s : Service) : bool :=
  (bulk (view (storage s)) <? 2 ^ 63) &&
  bool_decide (map_Forall (λ _ n, n < 2 ^ 63) (usage (quota_store s))) &&
  (len (scheduled (ttl_index s)) <? U64_MAX) &&
  (negb (is_durable (storage s)) || (segment_bytes (wal s) <? wal_rotate_bytes (config s))).

Definition orderly_b (p : Pool (F:=F) (B:=B) (G:=G)) : bool :=
  bool_decide (NoDup (omap key_of (tasks p))) && bool_decide (Forall request_ok (tasks p)) &&
  roomy_b (shared p).

Lemma orderly_b_ok p : orderly_b p = true → orderly p.
Proof.
  unfold orderly_b, roomy_b. intros H. propify; (split; [by apply exclusive_nodup|done|]); split;
    try done; try (by left); try (by right); intros t.
  all: try (pose proof (usage_in_bulk (view (storage (shared p))) t); lia).
  all: unfold used_bytes; destruct (usage (quota_store (shared p)) !! t) as [n|] eqn:E; simpl; [|lia].
  all: by eapply (map_Forall_lookup_1 (λ _ n, n < 2 ^ 63)).
Qed.

(** Recovery from the log of a pool. *)
Lemma pool_reopens d p l acct disk st :
  pool_ok d p l acct → crash_disk (shared p) d disk st →
  is_durable st = is_durable (storage (shared p)) →
  (∀ t, usage_in (replay_map (log_records l) (view st)) t < 2 ^ 63) →
  ∃ s' l', open_with_clock (config (shared p)) (clock (shared p)) disk = Ok s' ∧
    node_ok s' ∧ env_ok s' l' ∧ clock s' = clock (shared p) ∧
    ∀ k, is_data k → view (storage s') !! k = logged_at d l k.
Proof.
  intros Hp Hc Hkind Hfit. pose proof (pk_shared _ _ _ _ Hp) as Hs. pose proof (sh_env _ _ _ Hs) as Henv.
  pose proof (rep_file _ _ (env_wal _ _ Henv)) as Hfile.
  pose proof (rep_wf _ _ (env_wal _ _ Henv)) as Hwf.
  assert (∀ k, is_data k → replay_map (log_records l) (view st) !! k = logged_at d l k) as Hm.
  { intros k Hk. apply replay_map_agree. intros Hn. by apply (crash_data _ _ _ _ Hc l k). }
  destruct (open_runs (B:=B) (G:=G) (config (shared p)) (clock (shared p)) disk st l)
    as (s' & l' & E & Hn & Henv' & Hv & _ & _ & Hclk & _).
  - destruct (crash_segment _ _ _ _ Hc) as (torn & Ht & Hseg). split; try apply Hc; [done| |].
    { right. exists torn. by rewrite <-Hfile. }
    eapply admitted_agree; [exact Hkind|apply Henv].
  - apply Henv.
  - intros k raw Hk. destruct (decide (is_data k)) as [Hdk|Hdk].
    + rewrite Hm in Hk by done. by eapply recovered_decodes.
    + rewrite crash_replay_other in Hk; [|apply Hs|done]. by apply (crash_values _ _ _ _ Hc k).
  - done.
  - by apply (crash_size _ _ _ _ Hc l).
  - exists s', l'. split_and!; [done..|]. intros k Hk. by rewrite Hv, Hm.
Qed.

(** A pool that has come to rest is a node in order. *)
Lemma pool_settled d p l acct :
  pool_ok d p l acct → orderly p → quiet p = true →
  node_ok (shared p) ∧ env_ok (shared p) l ∧ logged (shared p) l d.
Proof.
  intros Hp Hord Hq. destruct (pk_shared _ _ _ _ Hp).
  assert (∀ k, is_data k → at_rest d (shared p) l acct k) as Hrest.
  { intros k Hk. apply Hp; [done|]. intros pc Hin. unfold quiet in Hq.
    rewrite forallb_forall in Hq. apply list_elem_of_In, Hq in Hin. by destruct pc. }
  split_and!; [split; try done|done|].
  - intros t. rewrite sh_used0. apply usage_in_agree. intros k Hk. apply Hrest, Hk.
  - apply Hord.
  - intros k raw sv e. destruct (decide (is_data k)) as [Hk|Hk]; [|by apply sh_other0].
    apply Hrest, Hk.
  - split; [done|]. intros k Hk. apply Hrest, Hk.
Qed.

(** writers that do not share a key leave the node in order.  From a node in order,
    let any number of puts, deletes and sweeps start and make their calls in any
    order while time passes, with never two of them in flight on one key and no
    rotation due.  When all have
    returned, log and storage agree on every client key, usage counters are exact,
    every expiry is in the index, and the quota cache matches storage. *)
Theorem concurrent_writers_settle d s l p
    (Hn : node_ok s) (Henv : env_ok s l) (Hlog : logged s l d) (Ho : orderly (mkPool [] s))
    (Hsteps : rtc ordered_step (mkPool [] s) p) (Hq : quiet p = true) :
  node_ok (shared p) ∧ ∃ l', env_ok (shared p) l' ∧ logged (shared p) l' d.
Proof.
  destruct (pool_ok_steps d _ p _ _ (pool_ok_start d s l Hn Henv Hlog) Hsteps) as (l' & acct & Hp).
  pose proof (guarded_end orderly _ _ Hsteps Ho) as Hord.
  destruct (pool_settled d p l' acct Hp Hord Hq) as (H1 & H2 & H3). split; [done|]. by exists l'.
Qed.

(** C5: a crash while writers run loses nothing that was acknowledged.  From a node in
    order, let any number of puts, deletes and sweeps (and nobody else: administrators
    are in [Operators.v]) start and make their calls in any order while time passes, with
    never two of them in flight on one key, their keys within what the storage engine
    takes, and no rotation of the log due.  Let the process crash at any moment.  The
    node opens again on the same kind of backend, in order; a client key reads as it did
    before the crash, unless a task had logged its write without having stored it (so without having
    answered), in which case the key reads as that write made it. *)
Theorem concurrent_crash_recovers d s l p disk st
    (Hn : node_ok s) (Henv : env_ok s l) (Hlog : logged s l d) (Ho : orderly (mkPool [] s))
    (Hsteps : rtc ordered_step (mkPool [] s) p)
    (Hcrash : crash_disk (shared p) d disk st)
    (Hkind : is_durable st = is_durable (storage (shared p)))
    (Hfit : ∀ l t, wf_log l → contents (wal_file (wal (shared p))) = segment l →
       usage_in (replay_map (log_records l) (view st)) t < 2 ^ 63) :
  ∃ s', open_with_clock (config (shared p)) (clock (shared p)) disk = Ok s' ∧ node_ok s' ∧
    ∀ sys t q, valid_tenant t →
      let k := data_key t q in
      let at_once exp := match exp with Some e => e <=? now (shared p) sys | None => false end in
      (∀ v exp acc, PutStore k v exp acc ∈ tasks p →
         get s' sys k = Ok (if (at_once exp : bool) then None else Some v)) ∧
      (∀ acc, DelStore k acc ∈ tasks p → get s' sys k = Ok None) ∧
      ((∀ v exp acc, PutStore k v exp acc ∉ tasks p) → (∀ acc, DelStore k acc ∉ tasks p) →
         get s' sys k = get (shared p) sys k).
Proof.
  destruct (pool_ok_steps d _ p _ _ (pool_ok_start d s l Hn Henv Hlog) Hsteps) as (l' & acct & Hp).
  pose proof (pk_shared _ _ _ _ Hp) as Hs.
  destruct (pool_reopens d p l' acct disk st Hp Hcrash Hkind) as (s' & l2 & E & Hn' & Henv' & Hclk & Hv).
  { intros t. apply Hfit; apply (sh_env _ _ _ Hs). }
  exists s'. split_and!; [done|done|]. intros sys t q Ht k at_once.
  assert (is_data k) as Hk by (by exists t, q).
  destruct (pool_recovered d p l' acct k Hp Hk) as (H1 & H2 & H3).
  assert (now s' sys = now (shared p) sys) as Hnow by (unfold now; by rewrite Hclk).
  rewrite !get_runs, Hnow by (apply Hn' || apply Henv' || apply Hs). unfold visible. rewrite (Hv k Hk).
  split_and!.
  - intros v exp acc Hin. destruct (H1 _ _ _ Hin) as [-> He]. rewrite decode_encode by done.
    by destruct exp.
  - intros acc Hin. by rewrite (H2 _ Hin).
  - intros Hnp Hnd. by rewrite (H3 Hnp Hnd).
Qed.

End writers.

(** ** Witnesses *)

Definition key_a : bytes := data_key (lit "acme") (lit "a").
Definition key_b : bytes := data_key (lit "acme") (lit "b").

(** Two puts that take turns; the second starts after the first has logged. *)
Definition first_turns : list Interleave.event :=
  [Arrive (PutStart 0 key_a (lit "1") 500); Turn 0; Turn 0; Turn 0; Turn 0;
   Arrive (PutStart 0 key_b (lit "2") 0); Turn 1; Turn 1; Turn 1; Turn 1; Turn 1].
Definition last_turns : list Interleave.event :=
  [Turn 0; Turn 1; Turn 0; Turn 1; Turn 0; Turn 1; Turn 0; Turn 1; Turn 0; Turn 1; Turn 0].

(** The first value expires and is swept while the second is overwritten. *)
Definition sweep_turns : list Interleave.event :=
  [Tick 600; Sweep 1600; Turn 2; Arrive (PutStart 0 key_b (lit "3") 0); Turn 3; Turn 2; Turn 3; Turn 2;
   Turn 3; Turn 2; Turn 3; Turn 2; Turn 3; Turn 2; Turn 3; Turn 2; Turn 3; Turn 2; Turn 3; Turn 3; Turn 3].

Definition sample_pool : Pool (F:=sample_fjall) (B:=sample_broadcast) (G:=sample_governor) :=
  mkPool [] sample_node.
Definition sample_pool_mid : Pool := fold_left pool_event first_turns sample_pool.
Definition sample_pool_end : Pool := fold_left pool_event (first_turns ++ last_turns ++ sweep_turns) sample_pool.

Lemma sample_logged : logged sample_node empty_log ∅.
Proof. split; [constructor|done]. Qed.

Lemma concurrent_writers_settle_witness :
  node_ok (shared sample_pool_end) ∧ used_bytes (quota_store (shared sample_pool_end)) (lit "acme") = 2 ∧
  get (shared sample_pool_end) 0 key_b = Ok (Some (lit "3")).
Proof.
  split; [|split; vm_compute; reflexivity].
  apply (concurrent_writers_settle ∅ sample_node empty_log sample_pool_end sample_node_ok sample_env_ok
    sample_logged).
  - apply orderly_b_ok. vm_compute. reflexivity.
  - apply (guarded_run_steps _ orderly_b _ _ orderly_b_ok). vm_compute. reflexivity.
  - vm_compute. reflexivity.
Defined.

Lemma sample_mid_tasks :
  tasks sample_pool_mid =
  [PutStore key_a (lit "1") (Some 1500) (Some (mkAccounting (lit "acme") 2));
   PutSchedule key_b (lit "2") None (Some (mkAccounting (lit "acme") 2))].
Proof. vm_compute. reflexivity. Qed.

Definition sample_mid_log : Log :=
  mkLog 0 [(Put, key_a, ValueCodec.encode (lit "1") (Some 1500));
           (Put, key_b, ValueCodec.encode (lit "2") None)].

Lemma sample_mid_records l :
  wf_log l → contents (wal_file (wal (shared sample_pool_mid))) = segment l →
  log_records l = log_records sample_mid_log.
Proof.
  intros Hwf Hl. apply segment_inj; [done| |].
  - split; [split; done|]. repeat constructor.
  - rewrite <-Hl. vm_compute. reflexivity.
Qed.

Lemma sample_mid_config : config (shared sample_pool_mid) = fallback_config.
Proof. vm_compute. reflexivity. Qed.

Lemma sample_mid_clock : clock (shared sample_pool_mid) = Manual 1000.
Proof. vm_compute. reflexivity. Qed.

Definition sample_mid_disk : Disk (F:=sample_fjall) :=
  {| mkdir := Ok tt;
     segment_file := mkFile (contents (wal_file (wal (shared sample_pool_mid)))) [];
     fjall := Err (StorageError "not configured") |}.

Lemma sample_mid_crash :
  crash_disk (shared sample_pool_mid) ∅ sample_mid_disk (Memory mem_new).
Proof.
  split; [reflexivity|by rewrite sample_mid_config|exact I|..].
  - exists []. split; [vm_compute; reflexivity|]. by rewrite app_nil_r.
  - intros k raw Hk. change ((∅ : gmap bytes bytes) !! k = Some raw) in Hk.
    by rewrite lookup_empty in Hk.
  - intros l k _ _ _ _. reflexivity.
  - intros l Hwf Hl. rewrite (sample_mid_records l Hwf Hl). vm_compute. reflexivity.
Qed.

(** The first put is in the log and not in storage when the node stops. *)
Lemma concurrent_crash_recovers_witness :
  get (shared sample_pool_mid) 0 key_a = Ok None ∧
  ∃ s', open_with_clock fallback_config (Manual 1000) sample_mid_disk = Ok s' ∧
    get s' 0 key_a = Ok (Some (lit "1")) ∧ get s' 0 key_b = Ok (Some (lit "2")).
Proof.
  split; [vm_compute; reflexivity|].
  destruct (concurrent_crash_recovers ∅ sample_node empty_log sample_pool_mid sample_mid_disk
    (Memory mem_new) sample_node_ok sample_env_ok sample_logged) as (s' & E & _ & H).
  - apply orderly_b_ok. vm_compute. reflexivity.
  - apply (guarded_run_steps _ orderly_b _ _ orderly_b_ok). vm_compute. reflexivity.
  - apply sample_mid_crash.
  - vm_compute. reflexivity.
  - intros l t Hwf Hl. rewrite (sample_mid_records l Hwf Hl).
    eapply Z.le_lt_trans; [apply usage_in_bulk|]. vm_compute. reflexivity.
  - exists s'. rewrite sample_mid_config, sample_mid_clock in E. split; [exact E|]. split.
    + destruct (H 0 (lit "acme") (lit "a") acme_valid) as (H1 & _ & _).
      unfold key_a. rewrite (H1 (lit "1") (Some 1500) (Some (mkAccounting (lit "acme") 2))).
      { unfold now. rewrite sample_mid_clock. reflexivity. }
      rewrite sample_mid_tasks. apply elem_of_cons. by left.
    + destruct (H 0 (lit "acme") (lit "b") acme_valid) as (_ & _ & H3).
      unfold key_b. rewrite H3.
      * vm_compute. reflexivity.
      * intros v exp acc Hin. rewrite sample_mid_tasks in Hin.
        apply elem_of_cons in Hin as [Hin|Hin%list_elem_of_singleton]; discriminate Hin.
      * intros acc Hin. rewrite sample_mid_tasks in Hin.
        apply elem_of_cons in Hin as [Hin|Hin%list_elem_of_singleton]; discriminate Hin.
Defined.
