(* ===== verification/Linear.v ===== *)
(** * Reads and writes that run at the same time

    Readers beside the tasks of [Interleave.v], and the history of a pool: what each
    task did to storage or saw there, in the order in which it happened.  The node
    is linearizable: whatever the interleaving, with writers on the same key,
    rotations, sweeps and a log that fails, the history is a legal run of one map,
    every answered request has exactly one place in it, and a request that starts
    after another was answered comes after it. *)

From Stdlib Require Import Strings.Byte.
From S2P Require Import Prelude Bytes Core KeyCodec ValueCodec Storage Wal TtlIndex Quota.
From S2P Require Import Throttle Watch Config Service Node NodeSpec Sample Sweeper Interleave.

(** ** Histories of a map *)

(** What a request did: it set a key to a value or to nothing, or it saw one. *)
Inductive Effect :=
| SetKey (k : bytes) (o : option bytes)
| SawKey (k : bytes) (o : option bytes).

Definition apply_effect (m : gmap bytes bytes) (e : Effect) : gmap bytes bytes :=
  match e with
  | SetKey k o => partial_alter (λ _, o) k m
  | SawKey _ _ => m
  end.

Definition after (m : gmap bytes bytes) (es : list Effect) : gmap bytes bytes :=
  fold_left apply_effect es m.

(** Every read saw the last write before it. *)
Fixpoint legal (m : gmap bytes bytes) (es : list Effect) : Prop :=
  match es with
  | [] => True
  | e :: es =>
      match e with
      | SetKey _ _ => True
      | SawKey k o => m !! k = o
      end ∧ legal (apply_effect m e) es
  end.

Lemma legal_snoc m es e :
  legal m es →
  match e with SetKey _ _ => True | SawKey k o => after m es !! k = o end →
  legal m (es ++ [e]).
Proof.
  revert m. induction es as [|x es IH]; intros m Hl He; [by destruct e|].
  destruct Hl as [Hx Hl]. split; [done|]. by apply IH.
Qed.

Lemma after_snoc m es e : after m (es ++ [e]) = apply_effect (after m es) e.
Proof. unfold after. by rewrite fold_left_app. Qed.

(** The effects of task [i] in a history. *)
Abbreviation History := (list (nat * Effect)).

Definition effects (i : nat) (h : History) : list Effect := (filter (λ x, x.1 = i) h).*2.

Lemma effects_snoc i j e h :
  effects i (h ++ [(j, e)]) = effects i h ++ (if decide (j = i) then [e] else []).
Proof.
  unfold effects. rewrite filter_app, fmap_app. f_equal. rewrite filter_cons. simpl.
  by case_decide.
Qed.

Lemma effects_none i h : (∀ j e, (j, e) ∈ h → j ≠ i) → effects i h = [].
Proof.
  intros Hh. unfold effects. induction h as [|[j e] h IH]; [done|]. rewrite filter_cons.
  rewrite decide_False; [|apply (Hh j e), elem_of_cons; by left].
  apply IH. intros j' e' Hin. apply (Hh j' e'), elem_of_cons. by right.
Qed.

Section linear.
Context {F : Fjall} {B : Broadcast} {G : Governor} {C : Crc32} {J : QuotaJson} {FS : FjallSpec}.

Abbreviation Service := (NodeService (F:=F) (B:=B) (G:=G)).

(** ** Readers *)

(** [get] after its lookup: the clock decides. *)
Definition judge (s : Service) (sys : Z) (found : option bytes) : result Error (option bytes) :=
  match found with
  | None => mret None
  | Some raw =>
      expired ← is_expired raw (now s sys);
      if (expired : bool) then mret None
      else stored ← ValueCodec.decode raw; mret (Some (ValueCodec.value stored))
  end.

Lemma get_judge s sys k : get s sys k = (found ← st_get (storage s) k; judge s sys found).
Proof. done. Qed.

Inductive Rc := Lookup | Judge (found : option bytes) | Answer (r : result Error (option bytes)).

(** A task of either kind; a writer keeps the request it started as. *)
Inductive Task :=
| Writer (start pc : Pc)
| Reader (sys : Z) (key : bytes) (rc : Rc).

(** What a call of a writer does to the map, on a backend that works. *)
Definition effect_of (pc : Pc) : option Effect :=
  match pc with
  | PutStore k v exp _ => Some (SetKey k (Some (ValueCodec.encode v exp)))
  | DelStore k _ => Some (SetKey k None)
  | _ => None
  end.

Definition step_task (t : Task) (s : Service) : Task * Service * option Effect :=
  match t with
  | Writer start pc => (Writer start (advance pc s).1, (advance pc s).2, effect_of pc)
  | Reader sys k Lookup =>
      match st_get (storage s) k with
      | Ok found => (Reader sys k (Judge found), s, Some (SawKey k found))
      | Err e => (Reader sys k (Answer (Err e)), s, None)
      | Panic => (Reader sys k (Answer Panic), s, None)
      end
  | Reader sys k (Judge found) => (Reader sys k (Answer (judge s sys found)), s, None)
  | Reader _ _ (Answer _) => (t, s, None)
  end.

(** A reader alone is [get]. *)
Lemma reader_alone s sys k :
  let r := step_task (Reader sys k Lookup) s in
  (step_task r.1.1 r.1.2).1 = (Reader sys k (Answer (get s sys k)), s).
Proof.
  cbv zeta. rewrite get_judge. cbn [step_task].
  by destruct (st_get (storage s) k) as [found|e|].
Qed.

(** ** The node with its history *)

Record Hist := mkHist {
  hist_tasks : list Task;
  hist_node : Service;
  history : History;
}.

Inductive hist_step : Hist → Hist → Prop :=
| hist_write ts s h pc :
    is_start pc = true → pc_takes (storage s) pc →
    hist_step (mkHist ts s h) (mkHist (ts ++ [Writer pc pc]) s h)
| hist_read ts s h sys k :
    is_data k → hist_step (mkHist ts s h) (mkHist (ts ++ [Reader sys k Lookup]) s h)
| hist_drain ts s h n ks g :
    drain_due n (ttl_index s) = (ks, g) → Forall (λ k, pc_takes (storage s) (SweepGet n k)) ks →
    hist_step (mkHist ts s h)
      (mkHist (ts ++ ((λ k, Writer (SweepGet n k) (SweepGet n k)) <$> ks)) (set_index g s) h)
| hist_tick ts s h d :
    hist_step (mkHist ts s h) (mkHist ts (shared (tick d (mkPool [] s))) h)
| hist_run ts s h i t t' s' o :
    ts !! i = Some t → step_task t s = (t', s', o) →
    hist_step (mkHist ts s h)
      (mkHist (<[i:=t']> ts) s' (h ++ match o with Some e => [(i, e)] | None => [] end)).

Context {FO : FjallOk}.

(** ** What a call does to storage *)

Definition agrees (m : gmap bytes bytes) (s : Service) : Prop :=
  ∀ k, is_data k → m !! k = view (storage s) !! k.

Lemma persist_usage_runs t n s :
  healthy (storage s) →
  (persist_usage t n s).1 ≠ Panic ∧ healthy (storage (persist_usage t n s).2) ∧
  ∀ k, is_data k → view (storage (persist_usage t n s).2) !! k = view (storage s) !! k.
Proof.
  intros Hh. unfold persist_usage.
  destruct (KeyCodec.encode t Stats USAGE_KEY) as [key|e|] eqn:E.
  - apply encode_Ok in E as [Ht ->]. erewrite M_bind_ok by done.
    destruct (backend_put_runs (storage s) (frame t Stats ++ USAGE_KEY)
      (ValueCodec.encode (to_be_bytes 8 n) None) Hh) as (b' & Eb & Hv & Hh' & _).
    { apply admits_usage_key. lia. }
    unfold in_storage. rewrite (zoom_run _ _ _ _ _ _ Eb). split_and!; [done|done|].
    intros k Hk. cbn [snd storage set_storage]. rewrite Hv, lookup_insert_ne; [done|].
    apply usage_key_not_data; [lia|done].
  - erewrite M_bind_err by done. done.
  - unfold KeyCodec.encode, check_tenant_len in E. run_in E.
Qed.

Lemma advance_storage pc s m :
  healthy (storage s) → pc_takes (storage s) pc → agrees m s →
  healthy (storage (advance pc s).2) ∧
  agrees (match effect_of pc with Some e => apply_effect m e | None => m end) (advance pc s).2.
Proof.
  intros Hh Htk Hm. destruct pc; cbn [advance effect_of]; try done.
  - unfold call. by destruct (plan_accounting _ _ _).
  - unfold call. destruct acc as [plan|]; [|done]. by destruct (check_write _ _ _).
  - unfold call, in_wal, zoom. by destruct (append _ _ _ _) as [[] w].
  - set (enc := ValueCodec.encode value exp).
    destruct (backend_put_runs (storage s) key enc Hh Htk) as (b' & Eb & Hv & Hh' & _).
    unfold call, in_storage. rewrite (zoom_run _ _ _ _ _ _ Eb). split; [done|].
    intros k Hk. cbn [snd storage set_storage apply_effect]. rewrite Hv.
    destruct (decide (key = k)) as [-> |Hne].
    + by rewrite lookup_partial_alter_eq, lookup_insert_eq.
    + rewrite lookup_partial_alter_ne, lookup_insert_ne by done. by apply Hm.
  - by destruct exp.
  - unfold call. by destruct (plan_delete_accounting _ _).
  - unfold call, in_wal, zoom. by destruct (append _ _ _ _) as [[] w].
  - destruct (backend_delete_runs (storage s) key Hh Htk) as (b' & Eb & Hv & Hh' & _).
    unfold call, in_storage. rewrite (zoom_run _ _ _ _ _ _ Eb). split; [done|].
    intros k Hk. cbn [snd storage set_storage apply_effect]. rewrite Hv.
    destruct (decide (key = k)) as [-> |Hne].
    + by rewrite lookup_partial_alter_eq, lookup_delete_eq.
    + rewrite lookup_partial_alter_ne, lookup_delete_ne by done. by apply Hm.
  - destruct acc as [[t d]|]; [|done]. cbn [acc_tenant delta]. by case_match.
  - pose proof (persist_usage_runs tenant total s Hh) as (_ & Hh' & Hv). unfold call_logged.
    destruct (persist_usage tenant total s) as [r s']. cbn [snd] in *.
    assert (agrees m s') as Hm' by (intros k Hk; rewrite Hv by done; by apply Hm).
    by destruct r.
  - unfold call. by destruct (publish_runs key kind value s) as [h ->].
  - by repeat case_match.
  - destruct (backend_flush_runs (storage s) Hh) as (b' & Eb & Hv & Hh' & _).
    unfold call_logged, in_storage. rewrite (zoom_run _ _ _ _ _ _ Eb). split; [done|].
    intros k Hk. cbn [snd storage set_storage]. rewrite Hv. by apply Hm.
  - unfold call_logged, in_wal, zoom. by destruct (rotate _) as [[] w].
Qed.

(** ** How far a task has come, and what it has done *)

(** The expiry a put stamps when its clock reads [n]. *)
Definition stamp (n ttl : Z) : option Z := if 0 <? ttl then Some (sat_add64 n ttl) else None.

Definition did_put (k v : bytes) (ttl : Z) (es : list Effect) : Prop :=
  ∃ n, es = [SetKey k (Some (ValueCodec.encode v (stamp n ttl)))].

Definition put_ok (k v : bytes) (ttl : Z) (es : list Effect) (pc : Pc) : Prop :=
  match pc with
  | PutStart _ k' v' ttl' => k' = k ∧ v' = v ∧ ttl' = ttl ∧ es = []
  | PutPlan k' v' exp | PutCheck k' v' exp _ | PutAppend k' v' exp _ | PutStore k' v' exp _ =>
      k' = k ∧ v' = v ∧ (∃ n, exp = stamp n ttl) ∧ es = []
  | PutSchedule _ _ _ _ | CommitAdjust _ _ _ _ | CommitPersist _ _ _ _ _ | Announce _ _ _
  | RotateTest | RotateFlush | RotateTruncate | Done (Ok _) => did_put k v ttl es
  | Done (Err _) => es = []
  | Done Panic => True
  | _ => False
  end.

(** A delete of [k]; a sweep ([swept]) may end without one. *)
Definition delete_ok (k : bytes) (swept : bool) (es : list Effect) (pc : Pc) : Prop :=
  match pc with
  | SweepGet _ k' => swept = true ∧ k' = k ∧ es = []
  | SweepSchedule _ _ => swept = true ∧ es = []
  | DelPlan k' | DelAppend k' _ | DelStore k' _ => k' = k ∧ es = []
  | CommitAdjust _ _ _ _ | CommitPersist _ _ _ _ _ | Announce _ _ _
  | RotateTest | RotateFlush | RotateTruncate => es = [SetKey k None]
  | Done (Ok _) => es = [SetKey k None] ∨ (swept = true ∧ es = [])
  | Done (Err _) => es = []
  | Done Panic => True
  | _ => False
  end.

Definition task_ok (es : list Effect) (t : Task) : Prop :=
  match t with
  | Writer (PutStart _ k v ttl) pc => put_ok k v ttl es pc
  | Writer (DelPlan k) pc => delete_ok k false es pc
  | Writer (SweepGet _ k) pc => delete_ok k true es pc
  | Writer _ _ => False
  | Reader _ k Lookup => is_data k ∧ es = []
  | Reader _ k (Judge found) => is_data k ∧ es = [SawKey k found]
  | Reader sys k (Answer r) =>
      is_data k ∧ ∃ found s, es = [SawKey k found] ∧ r = judge s sys found
  end.

Definition done_effect (pc : Pc) : list Effect :=
  match effect_of pc with
  | Some e => [e]
  | None => []
  end.

(** The calls after the store end well or go on. *)
Lemma tail_advance pc s :
  healthy (storage s) →
  match pc with
  | CommitAdjust _ _ _ _ | CommitPersist _ _ _ _ _ | Announce _ _ _
  | RotateTest | RotateFlush | RotateTruncate => True
  | _ => False
  end →
  match (advance pc s).1 with
  | CommitAdjust _ _ _ _ | CommitPersist _ _ _ _ _ | Announce _ _ _
  | RotateTest | RotateFlush | RotateTruncate | Done (Ok _) | Done Panic => True
  | _ => False
  end.
Proof.
  intros Hh Hpc. destruct pc; try done; cbn [advance].
  - by repeat case_match.
  - unfold call_logged. by destruct (persist_usage tenant total s) as [[] s'].
  - unfold call. by destruct (publish_runs key kind value s) as [h ->].
  - by repeat case_match.
  - unfold call_logged. by destruct (in_storage st_flush s) as [[] s'].
  - unfold call_logged. by destruct (in_wal rotate s) as [[] s'].
Qed.

Lemma put_advance k v ttl es pc s :
  healthy (storage s) → pc_takes (storage s) pc → put_ok k v ttl es pc →
  put_ok k v ttl (es ++ done_effect pc) (advance pc s).1.
Proof.
  intros Hh Htk Ho. pose proof (tail_advance pc s Hh) as Htail. unfold done_effect.
  destruct pc; try done; cbn [effect_of] in *; rewrite ?app_nil_r;
    try (specialize (Htail I); destruct (advance _ s) as [pc' s']; cbn [fst] in *;
         destruct pc'; try done; by destruct r).
  - destruct Ho as (-> & -> & -> & ->). cbn [advance fst put_ok]. split_and!; [done..| |done].
    by exists (now s sys).
  - cbn [advance]. unfold call. destruct (plan_accounting _ _ _); [done|apply Ho|done].
  - cbn [advance]. unfold call. destruct acc as [plan|]; [|done].
    destruct (check_write _ _ _); [done|apply Ho|done].
  - cbn [advance]. unfold call. destruct (in_wal _ s) as [[] s']; [done|apply Ho|done].
  - cbn [advance]. unfold call, in_storage. destruct Ho as (-> & -> & [n ->] & ->).
    destruct (backend_put_runs (storage s) k (ValueCodec.encode v (stamp n ttl)) Hh Htk)
      as (b' & Eb & _).
    rewrite (zoom_run _ _ _ _ _ _ Eb). by exists n.
  - exact Ho.
  - exact Ho.
Qed.

Lemma delete_advance k swept es pc s :
  healthy (storage s) → pc_takes (storage s) pc → delete_ok k swept es pc →
  delete_ok k swept (es ++ done_effect pc) (advance pc s).1.
Proof.
  intros Hh Htk Ho. pose proof (tail_advance pc s Hh) as Htail. unfold done_effect.
  destruct pc; try done; cbn [effect_of] in *; rewrite ?app_nil_r;
    try (specialize (Htail I); destruct (advance _ s) as [pc' s']; cbn [fst] in *;
         destruct pc'; try done; destruct r; simpl; auto; done).
  - cbn [advance]. unfold call. destruct (plan_delete_accounting _ _); [done|apply Ho|done].
  - cbn [advance]. unfold call. destruct (in_wal _ s) as [[] s']; [done|apply Ho|done].
  - cbn [advance]. unfold call, in_storage. destruct Ho as (-> & ->).
    destruct (backend_delete_runs (storage s) k Hh Htk) as (b' & Eb & _).
    by rewrite (zoom_run _ _ _ _ _ _ Eb).
  - destruct Ho as (-> & -> & ->). cbn [advance fst].
    destruct (sweep_verdict_cases now_ms k (st_get (storage s) k)) as [Hv|[[e Hv]|Hv]]; rewrite Hv; simpl; auto.
  - simpl. destruct Ho as [? ->]. by right.
  - exact Ho.
Qed.

(** What one call of one task does to the map and to the task. *)
Definition noted (o : option Effect) : list Effect :=
  match o with
  | Some e => [e]
  | None => []
  end.

(** What a task has yet to write is taken by the backend. *)
Definition task_takes (b : StorageBackend F) (t : Task) : Prop :=
  match t with
  | Writer _ pc => pc_takes b pc
  | Reader _ _ _ => True
  end.

Lemma task_takes_agree (b b' : StorageBackend F) t :
  is_durable b' = is_durable b → task_takes b t → task_takes b' t.
Proof. destruct t; [apply pc_takes_agree|done]. Qed.

Lemma step_task_takes t s t' s' o :
  task_takes (storage s) t → step_task t s = (t', s', o) →
  is_durable (storage s') = is_durable (storage s) ∧ task_takes (storage s') t'.
Proof.
  intros Ht Hs. destruct t as [start pc|sys k rc].
  - simplify_eq/=. split; [apply advance_durable|by apply advance_takes].
  - assert (s' = s ∧ ∃ rc', t' = Reader sys k rc') as [-> [? ->]]; [|done]. cbn [step_task] in Hs.
    destruct rc; [destruct (st_get (storage s) k)|..]; simplify_eq; eauto.
Qed.

Lemma step_task_ok t s t' s' o es m :
  healthy (storage s) → task_takes (storage s) t → agrees m s → task_ok es t →
  step_task t s = (t', s', o) →
  healthy (storage s') ∧ agrees (after m (noted o)) s' ∧ legal m (noted o) ∧
  task_ok (es ++ noted o) t'.
Proof.
  intros Hh Htk Hm Ht Hs. destruct t as [start pc|sys k rc].
  - simplify_eq/=. destruct (advance_storage pc s m Hh Htk Hm) as [Hh' Hm'].
    assert (task_ok (es ++ done_effect pc) (Writer start (advance pc s).1)) as Ht'.
    { destruct start; try done; cbn [task_ok] in *; by apply put_advance || by apply delete_advance. }
    unfold done_effect in Ht'. destruct (effect_of pc) as [e|] eqn:E; [|done].
    split_and!; [done|done| |done]. by destruct pc; simplify_eq/=.
  - destruct rc as [|found|r]; cbn [task_ok] in Ht; destruct Ht as [Hk Ht].
    + cbn [step_task] in Hs. rewrite (backend_get_runs _ _ Hh) in Hs. simplify_eq/=.
      split_and!; [done|done|by apply Hm|done..].
    + simplify_eq/=. split_and!; [done..|]. eauto.
    + simplify_eq/=. rewrite app_nil_r. by split_and!.
Qed.

(** ** The invariant *)

Record hist_ok (m : gmap bytes bytes) (h : Hist) : Prop := {
  ho_healthy : healthy (storage (hist_node h));
  ho_legal : legal m (history h).*2;
  ho_agrees : agrees (after m (history h).*2) (hist_node h);
  ho_tasks : ∀ i t, hist_tasks h !! i = Some t → task_ok (effects i (history h)) t;
  ho_takes : ∀ i t, hist_tasks h !! i = Some t → task_takes (storage (hist_node h)) t;
  ho_bound : ∀ i e, (i, e) ∈ history h → (i < length (hist_tasks h))%nat;
}.

(** Tasks that join have done nothing yet. *)
Lemma hist_ok_join m ts new s s' h :
  hist_ok m (mkHist ts s h) → storage s' = storage s →
  Forall (task_ok []) new → Forall (task_takes (storage s)) new →
  hist_ok m (mkHist (ts ++ new) s' h).
Proof.
  intros [Hh Hl Ha Ht Htk Hb] Es Hnew Htn. split; simpl in *; unfold agrees in *; rewrite ?Es; try done.
  - intros i t [Hi|[Hlen Hi]]%lookup_app_Some; [by apply Ht|].
    rewrite effects_none; [by eapply Forall_lookup_1|].
    intros j e Hin%Hb ->. lia.
  - intros i t [Hi|[Hlen Hi]]%lookup_app_Some; [by eapply Htk|by eapply Forall_lookup_1].
  - intros i e Hin%Hb. rewrite length_app. lia.
Qed.

Lemma hist_ok_step m h h' : hist_ok m h → hist_step h h' → hist_ok m h'.
Proof.
  intros Hok Hs. destruct Hs as [ts s h pc Hp Htp|ts s h sys k Hk|ts s h n ks g Hd Htp|ts s h d|ts s h i t t' s' o Hi Hs].
  - eapply hist_ok_join; [done|done|by apply Forall_singleton; destruct pc|by apply Forall_singleton].
  - eapply hist_ok_join; [done|done|by apply Forall_singleton..].
  - eapply hist_ok_join; [done|done|apply Forall_fmap, Forall_true; by intros k|].
    by apply Forall_fmap.
  - destruct Hok as [Hh Hl Ha Ht Htk Hb]. by split.
  - destruct Hok as [Hh Hl Ha Ht Htk Hb]. simpl in *.
    destruct (step_task_ok _ _ _ _ _ _ _ Hh (Htk _ _ Hi) Ha (Ht _ _ Hi) Hs) as (Hh' & Ha' & Hl' & Ht').
    destruct (step_task_takes _ _ _ _ _ (Htk _ _ Hi) Hs) as [Hd Hti].
    assert (∀ j u, <[i:=t']> ts !! j = Some u → task_takes (storage s') u) as Htk'.
    { intros j u [(<- & <- & _)|[_ Hj]]%list_lookup_insert_Some; [done|].
      eapply task_takes_agree; [exact Hd|]. by eapply Htk. }
    destruct o as [e|]; simpl in *.
    + split; simpl; [done|rewrite fmap_app; simpl..| |done|].
      * apply legal_snoc; [done|]. by destruct e, Hl'.
      * rewrite after_snoc. done.
      * intros j u Hj. rewrite effects_snoc. destruct (decide (i = j)) as [<-|Hne].
        -- rewrite list_lookup_insert_eq in Hj by by eapply lookup_lt_Some. by simplify_eq.
        -- rewrite list_lookup_insert_ne in Hj by done. rewrite app_nil_r. by apply Ht.
      * intros j e' [Hin|Hin]%elem_of_app; rewrite length_insert; [by eapply Hb|].
        apply list_elem_of_singleton in Hin. simplify_eq. by eapply lookup_lt_Some.
    + rewrite app_nil_r in *. split; simpl; try done.
      * intros j u Hj. destruct (decide (i = j)) as [<-|Hne].
        -- rewrite list_lookup_insert_eq in Hj by by eapply lookup_lt_Some. by simplify_eq.
        -- rewrite list_lookup_insert_ne in Hj by done. by apply Ht.
      * intros j e' Hin. rewrite length_insert. by eapply Hb.
Qed.

Lemma hist_ok_reachable m h h' : hist_ok m h → rtc hist_step h h' → hist_ok m h'.
Proof. intros Hok Hr. induction Hr; eauto using hist_ok_step. Qed.

Lemma hist_ok_start s : healthy (storage s) → hist_ok (view (storage s)) (mkHist [] s []).
Proof. intros Hh. split; try done. by intros i e Hin%elem_of_nil. Qed.

(** ** Time goes on *)

Definition answered (t : Task) : bool :=
  match t with
  | Writer _ pc => is_done pc
  | Reader _ _ (Answer _) => true
  | Reader _ _ _ => false
  end.

(** What was recorded stays, and an answered task does nothing more. *)
Definition extends (h h' : Hist) : Prop :=
  ∃ new, history h' = history h ++ new ∧
    ∀ i t, hist_tasks h !! i = Some t → answered t = true →
      hist_tasks h' !! i = Some t ∧ effects i new = [].

Lemma effects_app i h h' : effects i (h ++ h') = effects i h ++ effects i h'.
Proof. unfold effects. by rewrite filter_app, fmap_app. Qed.

Lemma hist_step_extends h h' : hist_step h h' → extends h h'.
Proof.
  intros Hs. destruct Hs as [ts s h pc Hp Htp|ts s h sys k Hk|ts s h n ks g Hd Htp|ts s h d|ts s h i t t' s' o Hi Hs].
  1-4: exists []; split; [by rewrite app_nil_r|]; intros j u Hj _; split; [|done]; try done;
    cbn [hist_tasks] in *; by apply lookup_app_l_Some.
  eexists; split; [done|]. intros j u Hj Ha. cbn [hist_tasks] in *.
  destruct (decide (i = j)) as [<-|Hne].
  - rewrite list_lookup_insert_eq by by eapply lookup_lt_Some.
    simplify_eq. destruct t as [start pc|sys k rc].
    + destruct pc; try done. by simplify_eq/=.
    + destruct rc; try done. by simplify_eq/=.
  - rewrite list_lookup_insert_ne by done. split; [done|].
    destruct o as [e|]; [|done]. apply (effects_none j [(i, e)]).
    intros i' e' Hin%list_elem_of_singleton. congruence.
Qed.

Lemma extends_reachable h h' : rtc hist_step h h' → extends h h'.
Proof.
  intros Hr. induction Hr as [h|h h1 h2 H1 _ (new2 & E2 & Hk2)].
  { exists []. rewrite app_nil_r. done. }
  destruct (hist_step_extends _ _ H1) as (new1 & E1 & Hk1). exists (new1 ++ new2).
  split; [by rewrite E2, E1, app_assoc|]. intros i t Hi Ha.
  destruct (Hk1 _ _ Hi Ha) as [Hi1 He1], (Hk2 _ _ Hi1 Ha) as [Hi2 He2].
  split; [done|]. by rewrite effects_app, He1, He2.
Qed.

(** ** What an answer says *)

(** The place a request has in the history, read off its answer: one that succeeded
    has exactly one effect, one that failed has none; a read gives the value it saw,
    as some reading [n] of the clock judged it. *)
Definition answer_ok (es : list Effect) (t : Task) : Prop :=
  match t with
  | Writer (PutStart _ k v ttl) (Done (Ok _)) => did_put k v ttl es
  | Writer (DelPlan k) (Done (Ok _)) => es = [SetKey k None]
  | Writer (SweepGet _ k) (Done (Ok _)) => es = [SetKey k None] ∨ es = []
  | Writer _ (Done (Err _)) => es = []
  | Reader sys k (Answer r) => ∃ found s, es = [SawKey k found] ∧ r = judge s sys found
  | _ => True
  end.

Lemma task_ok_answer es t : task_ok es t → answer_ok es t.
Proof.
  destruct t as [start pc|sys k rc]; [|destruct rc; naive_solver].
  destruct start; try done; destruct pc; try done; destruct r; simpl; naive_solver.
Qed.

(** ** Schedules *)

Definition hist_turn (h : Hist) (i : nat) : Hist :=
  match hist_tasks h !! i with
  | Some t =>
      let '(t', s', o) := step_task t (hist_node h) in
      mkHist (<[i:=t']> (hist_tasks h)) s'
        (history h ++ match o with Some e => [(i, e)] | None => [] end)
  | None => h
  end.

Definition hist_schedule (sched : list nat) (h : Hist) : Hist := fold_left hist_turn sched h.

Lemma hist_schedule_steps sched h : rtc hist_step h (hist_schedule sched h).
Proof.
  revert h. induction sched as [|i sched IH]; intros h; [done|]. simpl.
  unfold hist_turn at 1. destruct (hist_tasks h !! i) as [t|] eqn:E; [|apply IH].
  destruct (step_task t (hist_node h)) as [[t' s'] o] eqn:Es.
  eapply rtc_l; [|apply IH]. destruct h as [ts s h]. by eapply hist_run.
Qed.

(** C6: the node is linearizable.  Puts, deletes, reads and sweeps run at the same time,
    on the same keys or not, with rotations in between and a log that may fail, their
    entries within what the storage engine takes (keys up to 64 KiB on fjall): what
    they did to storage and saw there, in the order it happened, is a run of one map
    in which every read saw the last write before it, and the map it ends in is what
    storage holds.  A put or a delete that was answered with success has exactly one
    place in that order and one that failed has none, and a read answers with what it
    saw.  The order respects time: what was recorded stays, an answered request does
    nothing more, and one that starts later has no place before. *)
Theorem node_linearizable s X Y (Hh : healthy (storage s))
    (HX : rtc hist_step (mkHist [] s []) X) (HY : rtc hist_step X Y) :
  let m := view (storage s) in
  legal m (history Y).*2 ∧
  (∀ k, is_data k → after m (history Y).*2 !! k = view (storage (hist_node Y)) !! k) ∧
  (∀ i t, hist_tasks Y !! i = Some t → answer_ok (effects i (history Y)) t) ∧
  ∃ new, history Y = history X ++ new ∧
    (∀ i t, hist_tasks X !! i = Some t → answered t = true →
      hist_tasks Y !! i = Some t ∧ effects i new = []) ∧
    (∀ i, (length (hist_tasks X) ≤ i)%nat → effects i (history X) = []).
Proof.
  intros m. pose proof (hist_ok_reachable _ _ _ (hist_ok_start s Hh) HX) as HokX.
  pose proof (hist_ok_reachable _ _ _ HokX HY) as [_ Hl Ha Ht _ _].
  split_and!; [done|done| |].
  - intros i t Hi. by apply task_ok_answer, Ht.
  - destruct (extends_reachable _ _ HY) as (new & E & Hk). exists new. split_and!; [done..|].
    intros i Hi. apply effects_none. intros j e Hin%(ho_bound _ _ HokX). lia.
Qed.

End linear.

(** ** Witness *)

Definition sample_key : bytes := data_key (lit "acme") (lit "a").

Abbreviation SampleHist :=
  (Hist (F:=sample_fjall) (B:=sample_broadcast) (G:=sample_governor)).

(** Two puts of one key and a read of it. *)
Definition linear_tasks : list Task :=
  [Writer (PutStart 0 sample_key (lit "1") 0) (PutStart 0 sample_key (lit "1") 0);
   Writer (PutStart 0 sample_key (lit "2") 0) (PutStart 0 sample_key (lit "2") 0);
   Reader 0 sample_key Lookup].

Definition linear_start : SampleHist := mkHist linear_tasks sample_node [].

Lemma linear_start_steps : rtc hist_step (mkHist [] sample_node []) linear_start.
Proof.
  eapply rtc_l; [by apply (hist_write [] sample_node [] (PutStart 0 sample_key (lit "1") 0))|].
  eapply rtc_l; [by apply (hist_write (take 1 linear_tasks) sample_node [] (PutStart 0 sample_key (lit "2") 0))|].
  apply rtc_once, (hist_read (take 2 linear_tasks) sample_node [] 0 sample_key).
  exists (lit "acme"), (lit "a"). split; [apply acme_valid|reflexivity].
Qed.

(** The first put stores, the second is answered, the reader looks; the first put is
    answered and the reader answers. *)
Definition linear_mid : SampleHist :=
  hist_schedule (replicate 5 0 ++ replicate 10 1 ++ [2])%nat linear_start.
Definition linear_end : SampleHist := hist_schedule (replicate 5 0 ++ [2])%nat linear_mid.

Lemma node_linearizable_witness :
  (history linear_end).*2 =
    [SetKey sample_key (Some (ValueCodec.encode (lit "1") None));
     SetKey sample_key (Some (ValueCodec.encode (lit "2") None));
     SawKey sample_key (Some (ValueCodec.encode (lit "2") None))] ∧
  hist_tasks linear_end !! 2%nat = Some (Reader 0 sample_key (Answer (Ok (Some (lit "2"))))) ∧
  legal (view (storage sample_node)) (history linear_end).*2.
Proof.
  split; [vm_compute; reflexivity|]. split; [vm_compute; reflexivity|].
  assert (rtc hist_step (mkHist [] sample_node []) linear_mid) as HX.
  { etransitivity; [apply linear_start_steps|]. exact (hist_schedule_steps _ linear_start). }
  destruct (node_linearizable sample_node linear_mid linear_end I HX (hist_schedule_steps _ linear_mid))
    as [Hl _].
  exact Hl.
Defined.
