(* ===== verification/Overshoot.v ===== *)
(** * How far writers together can pass a quota

    A put is checked against its tenant's limit before it is counted, with nothing
    held in between, so puts that run at the same time are each checked without the
    others ([Races.v] has such a schedule).  Here is the bound on the damage: with at
    most [n] checked puts of the tenant in flight, each adding at most [m] bytes,
    the tenant passes its limit by at most the bytes of the other [n - 1]. *)

From Stdlib Require Import Strings.Byte.
From S2P Require Import Prelude Bytes Core KeyCodec ValueCodec Storage Wal TtlIndex Quota.
From S2P Require Import Throttle Watch Config Service Node NodeSpec Sample Sweeper Interleave.
From S2P Require Import Writers.

(** ** Sums over tasks *)

Lemma sum_with_insert {A} (f : A → Z) l i x y :
  l !! i = Some x → sum_with f (<[i:=y]> l) = sum_with f l - f x + f y.
Proof.
  revert i. induction l as [|z l IH]; intros [|i] Hi; simplify_eq/=; unfold sum_with in *; simpl; [lia|].
  rewrite (IH i Hi). lia.
Qed.

Lemma sum_with_member {A} (f : A → Z) l x : (∀ y, 0 ≤ f y) → x ∈ l → f x ≤ sum_with f l.
Proof.
  intros Hf. induction l as [|z l IH]; intros Hin; [by apply elem_of_nil in Hin|].
  pose proof (sum_with_nonneg f l Hf). specialize (Hf z). unfold sum_with in *. simpl.
  apply elem_of_cons in Hin as [->|Hin]; [lia|]. specialize (IH Hin). lia.
Qed.

(** Nothing that is stored outgrows storage. *)
Lemma lookup_bulk m k raw : m !! k = Some raw → len k + len raw ≤ bulk m.
Proof.
  intros Hk%elem_of_map_to_list. unfold bulk.
  apply (sum_with_member (λ kv, len kv.1 + len kv.2) _ (k, raw)); [|done].
  intros [a b]. simpl. pose proof (len_nonneg a). pose proof (len_nonneg b). lia.
Qed.

Section overshoot.
Context {F : Fjall} {FS : FjallSpec} {FO : FjallOk}.
Context {B : Broadcast} {G : Governor} {C : Crc32} {CO : Crc32Ok} {J : QuotaJson}.

Abbreviation Service := (NodeService (F:=F) (B:=B) (G:=G)).

(** ** Bytes on their way *)

Definition plan_growth (t : bytes) (acc : option Accounting) : Z :=
  match acc with
  | Some plan => if decide (acc_tenant plan = t) then Z.max 0 (delta plan) else 0
  | None => 0
  end.

(** What a task will add to the counter of [t], having passed its check. *)
Definition growth_of (t : bytes) (pc : Pc) : Z :=
  match pc with
  | PutAppend _ _ _ acc | PutStore _ _ _ acc | PutSchedule _ _ _ acc | CommitAdjust acc _ _ _ =>
      plan_growth t acc
  | _ => 0
  end.

Definition grows (t : bytes) (pc : Pc) : Z := if 0 <? growth_of t pc then 1 else 0.

Lemma growth_of_nonneg t pc : 0 ≤ growth_of t pc.
Proof. destruct pc; simpl; try done; unfold plan_growth; repeat case_match; lia. Qed.

(** The condition on a pool: few of them, each small, on a storage of less than
    2{^63} bytes. *)
Record calm (t : bytes) (n m : Z) (p : Pool (F:=F) (B:=B) (G:=G)) : Prop := {
  calm_count : sum_with (grows t) (tasks p) ≤ n;
  calm_size : Forall (λ pc, growth_of t pc ≤ m) (tasks p);
  calm_bulk : bulk (view (storage (shared p))) < 2 ^ 63;
}.

Definition calm_step t n m : Pool (F:=F) (B:=B) (G:=G) → Pool → Prop := guarded (calm t n m).

Definition calm_b (t : bytes) (n m : Z) (p : Pool (F:=F) (B:=B) (G:=G)) : bool :=
  (sum_with (grows t) (tasks p) <=? n) && forallb (λ pc, growth_of t pc <=? m) (tasks p) &&
  (bulk (view (storage (shared p))) <? 2 ^ 63).

Lemma calm_b_ok t n m p : calm_b t n m p = true → calm t n m p.
Proof.
  unfold calm_b. intros [[H1 H2]%andb_true_iff H3]%andb_true_iff. split; [lia| |lia].
  apply Forall_forall. rewrite forallb_forall in H2. intros pc Hin.
  apply Z.leb_le, H2. by apply list_elem_of_In.
Qed.

Lemma growth_sum_le t m ts :
  0 ≤ m → Forall (λ pc, growth_of t pc ≤ m) ts →
  sum_with (growth_of t) ts ≤ sum_with (grows t) ts * m.
Proof.
  intros Hm. induction 1 as [|pc ts Hpc _ IH]; unfold sum_with in *; simpl; [lia|].
  unfold grows at 1. pose proof (growth_of_nonneg t pc).
  destruct (Z.ltb_spec 0 (growth_of t pc)); lia.
Qed.

(** ** The counter and what is coming *)

Definition frees (pc : Pc) : Prop :=
  match pc with
  | DelAppend _ (Some plan) | DelStore _ (Some plan) => delta plan ≤ 0
  | _ => True
  end.

Definition limit_of (t : bytes) (s : Service) : Z := max_bytes (quota (quota_store s) t).

(** Deletes never add. *)
Lemma plan_delete_frees (s : Service) k plan :
  bulk (view (storage s)) < 2 ^ 63 → plan_delete_accounting s k = Ok (Some plan) → delta plan ≤ 0.
Proof.
  intros Hb. unfold plan_delete_accounting.
  destruct (KeyCodec.decode k) as [[[t sp] p]| |] eqn:Ek; try done. case_match; [done|].
  pose proof (get_law (storage s) k) as Hg. unfold_monad.
  destruct (st_get (storage s) k) as [[raw|]| |]; try done. unfold read_spec in Hg.
  rewrite payload_len_decode. unfold_monad.
  destruct (ValueCodec.decode raw) as [sv| |] eqn:Ev; try done. intros [= <-]. cbn [delta].
  pose proof (lookup_bulk _ _ _ (eq_sym Hg)) as Hl.
  apply decode_key_Ok in Ek as [_ ->]. apply decode_value_Ok in Ev as [-> _].
  assert (len (ValueCodec.value sv) ≤ len (ValueCodec.encode (ValueCodec.value sv) (expires_at_ms sv))).
  { unfold ValueCodec.encode. destruct (expires_at_ms sv) as [e|]; rewrite !len_app, ?len_cons, ?len_nil; [|lia].
    pose proof (len_nonneg (to_be_bytes 8 e)). lia. }
  rewrite len_app in Hl. pose proof (len_nonneg (frame t sp)). pose proof (len_nonneg p).
  pose proof (len_nonneg (ValueCodec.value sv)).
  unfold entry_bytes. rewrite wrap_add64_id by (unfold u64_ok; lia).
  rewrite !as_i64_id by (rewrite ?as_i64_id; lia). lia.
Qed.

(** Calls on the other components leave the quotas alone. *)
Lemma in_storage_quotas {A} (m : M (StorageBackend F) Error A) (s : Service) :
  quota_store (in_storage m s).2 = quota_store s.
Proof. unfold in_storage, zoom. by destruct (m _). Qed.

Lemma in_wal_quotas {A} (m : M Wal Error A) (s : Service) :
  quota_store (in_wal m s).2 = quota_store s.
Proof. unfold in_wal, zoom. by destruct (m _). Qed.

Lemma persist_usage_quotas t n (s : Service) :
  quota_store (persist_usage t n s).2 = quota_store s.
Proof.
  unfold persist_usage. destruct (KeyCodec.encode t Stats USAGE_KEY) as [k|e|]; [|done..].
  apply in_storage_quotas.
Qed.

Lemma call_quotas {A} (m : M Service Error A) k (s : Service) :
  quota_store (call m k s).2 = quota_store (m s).2.
Proof. unfold call. by destruct (m s) as [[]]. Qed.

Lemma call_logged_quotas (m : M Service Error unit) ok err (s : Service) :
  quota_store (call_logged m ok err s).2 = quota_store (m s).2.
Proof. unfold call_logged. by destruct (m s) as [[]]. Qed.

(** Only [CommitAdjust] moves a counter. *)
Lemma advance_quotas pc (s : Service) :
  match pc with CommitAdjust _ _ _ _ => False | _ => True end →
  quota_store (advance pc s).2 = quota_store s.
Proof.
  intros Hpc.
  destruct pc; try done; cbn [advance]; rewrite ?call_quotas, ?call_logged_quotas,
    ?in_storage_quotas, ?in_wal_quotas, ?persist_usage_quotas; try done.
  - by destruct acc.
  - by destruct exp.
  - by destruct (publish_runs key kind value s) as [h ->].
  - by repeat case_match.
Qed.

(** What a call does to the bytes its task holds: none but the check adds any. *)
Lemma advance_growth t pc (s : Service) :
  bulk (view (storage s)) < 2 ^ 63 → frees pc →
  let pc' := (advance pc s).1 in
  frees pc' ∧
  match pc with
  | PutCheck _ _ _ (Some plan) =>
      growth_of t pc' = 0 ∨
      (growth_of t pc' = plan_growth t (Some plan) ∧
       check_write (quota_store s) (acc_tenant plan) (delta plan) = Ok tt)
  | CommitAdjust _ _ _ _ => growth_of t pc' = 0
  | _ => growth_of t pc' ≤ growth_of t pc
  end.
Proof.
  intros Hb Hf pc'. subst pc'. pose proof (growth_of_nonneg t pc) as Hg.
  destruct pc; cbn [advance]; try done.
  - unfold call. by destruct (plan_accounting _ _ _).
  - unfold call. destruct acc as [plan|]; [|done].
    destruct (check_write _ _ _) as [[]| |]; simpl; auto.
  - unfold call. by destruct (in_wal _ s) as [[]].
  - unfold call. by destruct (in_storage _ s) as [[]].
  - unfold call. pose proof (plan_delete_frees s key) as Hp.
    destruct (plan_delete_accounting s key) as [[plan|]| |]; simpl; auto.
  - unfold call. by destruct (in_wal _ s) as [[]].
  - unfold call. destruct (in_storage _ s) as [[] ?]; try done.
    cbn [fst growth_of]. split; [done|]. unfold plan_growth. destruct acc as [plan|]; [|done].
    simpl in Hf. case_decide; simpl; lia.
  - destruct (sweep_verdict_cases now_ms key (st_get (storage s) key)) as [Hv|[[e Hv]|Hv]];
      by rewrite Hv.
  - destruct acc as [plan|]; [|done]. case_match; [done|]. unfold adjust. done.
  - unfold call_logged. by destruct (persist_usage _ _ s) as [[]].
  - unfold call. by destruct (publish_change _ _ _ s) as [[]].
  - by repeat case_match.
  - unfold call_logged. by destruct (in_storage _ s) as [[]].
  - unfold call_logged. by destruct (in_wal _ s) as [[]].
Qed.

(** ** The bound *)

Section bound.
Context (t : bytes) (n m limit : Z).
Hypothesis Hn : 1 ≤ n.
Hypothesis Hm : 0 ≤ m.
Hypothesis Hlimit : 0 < limit.
Hypothesis Hfit : limit + (n - 1) * m < U64_MAX.

Record within (p : Pool (F:=F) (B:=B) (G:=G)) : Prop := {
  wi_limit : limit_of t (shared p) = limit;
  wi_used : 0 ≤ used_bytes (quota_store (shared p)) t;
  wi_bound : used_bytes (quota_store (shared p)) t + sum_with (growth_of t) (tasks p)
    ≤ limit + (n - 1) * m;
  wi_frees : Forall frees (tasks p);
}.

(** A check that lets a put grow leaves room for it alone. *)
Lemma check_write_room qs d :
  max_bytes (quota qs t) = limit → 0 < d → check_write qs t d = Ok tt → used_bytes qs t + d ≤ limit.
Proof.
  unfold check_write. intros -> Hd. assert (limit < U64_MAX) by nia.
  rewrite (proj2 (Z.eqb_neq _ _)), (proj2 (Z.leb_gt _ _)) by lia. simpl. unfold sat_add64.
  destruct (Z.ltb_spec limit (Z.min (used_bytes qs t + d) U64_MAX)); [done|]. lia.
Qed.

(** Counting moves bytes from a task to the counter. *)
Lemma commit_moves plan key kind value (s : Service) :
  let pc := CommitAdjust (Some plan) key kind value in
  0 ≤ used_bytes (quota_store s) t → used_bytes (quota_store s) t + growth_of t pc < 2 ^ 64 →
  limit_of t (advance pc s).2 = limit_of t s ∧
  0 ≤ used_bytes (quota_store (advance pc s).2) t
    ≤ used_bytes (quota_store s) t + growth_of t pc.
Proof.
  intros pc Hu Hg. subst pc. cbn [advance growth_of plan_growth] in *.
  destruct (Z.eqb_spec (delta plan) 0) as [E|E].
  { cbn [snd]. case_decide; lia. }
  unfold adjust. cbn [snd quota_store set_store]. split; [done|]. rewrite used_bytes_insert.
  case_decide as Ht; [|rewrite decide_False by congruence; lia]. subst t.
  rewrite decide_True in * by done. unfold apply_delta, sat_sub64.
  destruct (Z.leb_spec 0 (delta plan)); [|lia].
  rewrite wrap_add64_id; unfold u64_ok; lia.
Qed.

Lemma within_run ts s i pc :
  let q := mkPool (<[i:=(advance pc s).1]> ts) (advance pc s).2 in
  within (mkPool ts s) → calm t n m (mkPool ts s) → calm t n m q → ts !! i = Some pc → within q.
Proof.
  intros q [Hl Hu Hb Hf] [_ Hsz Hbk] [Hcnt _ _] Hi. subst q. cbn [tasks shared] in *.
  destruct (advance_growth t pc s Hbk (Forall_lookup_1 _ _ _ _ Hf Hi)) as [Hf' Hgr].
  pose proof (sum_with_insert (growth_of t) ts i pc (advance pc s).1 Hi) as Esum.
  pose proof (sum_with_insert (grows t) ts i pc (advance pc s).1 Hi) as Ecnt.
  pose proof (sum_with_member (growth_of t) ts pc (growth_of_nonneg t)
    (list_elem_of_lookup_2 _ _ _ Hi)) as Hmem.
  pose proof (growth_sum_le t m ts Hm Hsz) as Hle. pose proof (growth_of_nonneg t pc) as Hnn.
  assert (Forall frees (<[i:=(advance pc s).1]> ts)) as Hfr by by apply Forall_insert.
  pose proof (advance_quotas pc s) as Hq. unfold limit_of in *.
  destruct pc; try (specialize (Hq I); split; cbn [tasks shared]; unfold limit_of;
    rewrite ?Hq; try done; lia).
  - specialize (Hq I). destruct acc as [plan|]; [|split; cbn [tasks shared]; unfold limit_of;
      rewrite ?Hq; try done; cbn [growth_of] in *; lia].
    split; cbn [tasks shared]; unfold limit_of; rewrite ?Hq; [done..| |done].
    rewrite Esum. cbn [growth_of] in *. destruct Hgr as [->|[Eg Hok]]; [lia|].
    rewrite Eg in *. cbn [plan_growth] in *.
    case_decide as Et; [|lia]. destruct (Z.leb_spec (delta plan) 0); [lia|]. rewrite Et in Hok.
    pose proof (check_write_room _ _ Hl ltac:(done) Hok).
    assert (grows t (advance (PutCheck key value exp (Some plan)) s).1 = 1) as E1.
    { unfold grows. rewrite Eg. by rewrite (proj2 (Z.ltb_lt _ _)) by lia. }
    rewrite E1 in Ecnt. change (grows t (PutCheck key value exp (Some plan))) with 0 in Ecnt.
    pose proof (Z.mul_le_mono_nonneg_r (sum_with (grows t) ts) (n - 1) m Hm ltac:(lia)). lia.
  - destruct acc as [plan|].
    + destruct (commit_moves plan key kind value s Hu ltac:(unfold U64_MAX in *; lia)) as [El Hu'].
      unfold limit_of in El. split; cbn [tasks shared]; unfold limit_of; try done; [congruence|lia..].
    + split; cbn [tasks shared advance snd fst] in *; try done. lia.
Qed.

Lemma within_step p q : within p → calm_step t n m p q → within q.
Proof.
  intros Hw (Hs & Hp & Hq). destruct Hs as [ts s pc Hst|ts s i pc Hi|p k|p k].
  - destruct Hw as [Hl Hu Hb Hf]. split; try done; cbn [tasks shared] in *.
    + rewrite sum_with_app. destruct pc; try done; unfold sum_with in *; simpl; lia.
    + apply Forall_app. split; [done|]. apply Forall_singleton. by destruct pc.
  - by eapply within_run.
  - destruct Hw as [Hl Hu Hb Hf]. unfold drain.
    destruct (drain_due k (ttl_index (shared p))) as [ks g].
    split; try done; cbn [tasks shared] in *.
    + rewrite sum_with_app. change (quota_store (set_index g (shared p))) with (quota_store (shared p)).
      assert (sum_with (growth_of t) (SweepGet k <$> ks) = 0) as ->; [|lia].
      unfold sum_with in *. by induction ks as [|x ks IH].
    + apply Forall_app. split; [done|]. apply Forall_fmap, Forall_true. done.
  - by destruct Hw.
Qed.

Lemma within_steps p q : within p → rtc (calm_step t n m) p q → within q.
Proof. intros Hw Hs. induction Hs; eauto using within_step. Qed.

End bound.

(** C21: how far a quota can be passed.  A put is checked before it is counted, so puts
    that run at the same time can pass a limit that has room for one of them.  From a
    tenant whose usage counter is within its limit, while at most [n] checked puts of it
    are in flight and none adds more than [m] bytes, whatever else runs and in whatever
    order: the usage counter, together with what is still on its way to it, never exceeds
    the limit by more than the [m] bytes of each of the other [n - 1]; with one put at a
    time the counter stays within the limit.  The counter is what the quota is checked
    against; the bytes that are stored obey the same bound once all requests have
    returned, if the node was in order, no two writers were in flight on one key and no
    rotation fell due (two deletes of one key at once would credit the counter twice). *)
Theorem quota_overshoot_bounded t n m s p
    (Hn : 1 ≤ n) (Hm : 0 ≤ m) (Hlimit : 0 < limit_of t s)
    (Hfit : limit_of t s + (n - 1) * m < U64_MAX)
    (Hused : 0 ≤ used_bytes (quota_store s) t ≤ limit_of t s)
    (Hsteps : rtc (calm_step t n m) (mkPool [] s) p) :
  limit_of t (shared p) = limit_of t s ∧
  used_bytes (quota_store (shared p)) t + sum_with (growth_of t) (tasks p)
    ≤ limit_of t s + (n - 1) * m ∧
  (∀ d l, node_ok s → env_ok s l → logged s l d → orderly (mkPool [] s) →
    rtc ordered_step (mkPool [] s) p → quiet p = true →
    usage_in (view (storage (shared p))) t ≤ limit_of t s + (n - 1) * m).
Proof.
  destruct (within_steps t n m (limit_of t s) Hn Hm Hlimit Hfit (mkPool [] s) p) as [Hl _ Hb _];
    [split; cbn [tasks shared]; [done|lia|unfold sum_with; simpl; nia|done]|done|].
  split_and!; [done|done|]. intros d l Hnode Henv Hlog Hord Hrun Hq.
  destruct (pool_ok_steps d _ p _ _ (pool_ok_start d s l Hnode Henv Hlog) Hrun) as (l' & acct & Hp).
  pose proof (guarded_end orderly _ _ Hrun Hord) as Hend.
  destruct (pool_settled d p l' acct Hp Hend Hq) as (Hset & _). rewrite <-(node_usage _ Hset).
  pose proof (sum_with_nonneg (growth_of t) (tasks p) (growth_of_nonneg t)). lia.
Qed.

End overshoot.

(** ** Witness *)

Definition bound_node : SampleService := set_store (store_new (mkQuota 3 0)) sample_node.

(** Two puts of two bytes each, both checked before either is counted. *)
Definition bound_events : list Interleave.event :=
  [Arrive (PutStart 0 (data_key (lit "acme") (lit "a")) (lit "1") 0);
   Arrive (PutStart 0 (data_key (lit "acme") (lit "b")) (lit "2") 0)]
  ++ (Turn <$> [0; 0; 0; 1; 1; 1; 0; 0; 0; 0; 1; 1; 1; 1])%nat.

Definition bound_end : Pool (F:=sample_fjall) (B:=sample_broadcast) (G:=sample_governor) :=
  fold_left pool_event bound_events (mkPool [] bound_node).

Lemma quota_overshoot_bounded_witness :
  used_bytes (quota_store (shared bound_end)) (lit "acme") = 4 ∧ limit_of (lit "acme") bound_node = 3 ∧
  used_bytes (quota_store (shared bound_end)) (lit "acme") + sum_with (growth_of (lit "acme")) (tasks bound_end)
    ≤ limit_of (lit "acme") bound_node + (2 - 1) * 2.
Proof.
  split; [vm_compute; reflexivity|]. split; [vm_compute; reflexivity|].
  assert (rtc (calm_step (lit "acme") 2 2) (mkPool [] bound_node) bound_end) as Hsteps.
  { apply (guarded_run_steps _ (calm_b (lit "acme") 2 2) _ _ (calm_b_ok _ _ _)). vm_compute. reflexivity. }
  assert (limit_of (lit "acme") bound_node = 3) as El by (vm_compute; reflexivity).
  assert (used_bytes (quota_store bound_node) (lit "acme") = 0) as Eu by (vm_compute; reflexivity).
  destruct (quota_overshoot_bounded (lit "acme") 2 2 bound_node bound_end) as (_ & Hb & _);
    [lia|lia|rewrite El; lia|rewrite El; unfold U64_MAX; lia|rewrite El, Eu; lia|exact Hsteps|].
  exact Hb.
Defined.
