(* ===== verification/Mirror.v ===== *)
(** * Following a tenant through its watch stream

    The gRPC layer tells a client that wants a copy of its keys to subscribe first
    and scan then, accepting an overlap.  Here the copy is a map: what the scan
    found, with every change the stream has delivered since the subscription applied
    in order.  As long as no two writers are in flight on one key and what they write
    is what the storage engine takes, the copy is right
    for every key that nobody is writing at that moment, however writers, sweeps and
    the scan interleave; [Races.v] has what happens with two writers on a key. *)

From Stdlib Require Import Strings.Byte.
From S2P Require Import Prelude Bytes Core KeyCodec ValueCodec Storage Wal TtlIndex Quota.
From S2P Require Import Throttle Watch Config Service Node NodeSpec Sample Sweeper Interleave.
From S2P Require Import Writers Linear.

(** ** The copy *)

Definition apply_change (m : gmap bytes bytes) (c : KeyChange) : gmap bytes bytes :=
  match kind c with
  | ChangePut => <[change_key c := change_value c]> m
  | ChangeDelete => delete (change_key c) m
  end.

Definition mirror (m : gmap bytes bytes) (cs : list KeyChange) : gmap bytes bytes :=
  fold_left apply_change cs m.

(** What a change says about its key. *)
Definition change_says (c : KeyChange) : option bytes :=
  match kind c with
  | ChangePut => Some (change_value c)
  | ChangeDelete => None
  end.

Lemma apply_change_lookup m c q :
  apply_change m c !! q = if decide (change_key c = q) then change_says c else m !! q.
Proof.
  unfold apply_change, change_says. destruct (kind c); case_decide as E; subst;
    by simplify_map_eq.
Qed.

Lemma mirror_snoc m cs c : mirror m (cs ++ [c]) = apply_change (mirror m cs) c.
Proof. unfold mirror. by rewrite fold_left_app. Qed.

Lemma mirror_app m cs cs' : mirror m (cs ++ cs') = mirror (mirror m cs) cs'.
Proof. unfold mirror. by rewrite fold_left_app. Qed.

(** The last change of a key decides; where there is none, the start does. *)
Lemma mirror_cases cs q :
  (∃ o, ∀ m, mirror m cs !! q = o) ∨ (∀ m, mirror m cs !! q = m !! q).
Proof.
  induction cs as [|c cs IH] using rev_ind; [by right|].
  setoid_rewrite mirror_snoc. setoid_rewrite apply_change_lookup.
  case_decide; [left; by eexists|exact IH].
Qed.

(** The payload of a stored value, whatever its expiry. *)
Definition value_of (raw : bytes) : option bytes :=
  match ValueCodec.decode raw with
  | Ok sv => Some (ValueCodec.value sv)
  | _ => None
  end.

Lemma value_of_encode v exp : value_of (ValueCodec.encode v exp) = Some v.
Proof.
  unfold value_of. destruct exp as [e|]; [|by rewrite decode_encode].
  change (ValueCodec.encode v (Some e)) with (VERSION_WITH_TTL :: (to_be_bytes 8 e ++ v)).
  rewrite decode_cons, decide_False, decide_True by done.
  destruct (Z.ltb_spec (len (to_be_bytes 8 e ++ v)) 8); [len_lia|].
  by rewrite drop_app_length' by (by rewrite length_to_be_bytes).
Qed.

Section mirror.
Context {F : Fjall} {B : Broadcast} {G : Governor} {C : Crc32} {J : QuotaJson}.
Context {FS : FjallSpec} {FO : FjallOk} {BO : BroadcastOk}.

Abbreviation Service := (NodeService (F:=F) (B:=B) (G:=G)).

(** What a node holds under a key. *)
Definition held (s : Service) (k : bytes) : option bytes := view (storage s) !! k ≫= value_of.

(** ** Announcements on their way *)

(** The change a task has made and not announced yet: the key, and what it holds
    now. *)
Definition owed (pc : Pc) : option (bytes * option bytes) :=
  match pc with
  | PutSchedule k v _ _ => Some (k, Some v)
  | CommitAdjust _ k kd v | CommitPersist _ _ k kd v | Announce k kd v =>
      Some (k, match kd with ChangePut => Some v | ChangeDelete => None end)
  | _ => None
  end.

Lemma owed_key pc k o : owed pc = Some (k, o) → key_of pc = Some k.
Proof. by destruct pc; intros; simplify_eq/=. Qed.

(** Making a change is owing its announcement, and only announcing it settles the
    debt. *)
Lemma advance_owed pc (s : Service) :
  healthy (storage s) → pc_takes (storage s) pc →
  match pc with Announce _ _ _ => False | _ => True end →
  owed (advance pc s).1 =
    match effect_of pc with
    | Some (SetKey k o) => Some (k, o ≫= value_of)
    | _ => owed pc
    end.
Proof.
  intros Hh Htk Hpc. destruct pc; try done; cbn [advance effect_of owed].
  - unfold call. by destruct (plan_accounting _ _ _).
  - unfold call. destruct acc as [plan|]; [|done]. by destruct (check_write _ _ _).
  - unfold call. by destruct (in_wal _ s) as [[]].
  - destruct (backend_put_runs (storage s) key (ValueCodec.encode value exp) Hh Htk)
      as (b' & Eb & _).
    unfold call, in_storage. rewrite (zoom_run _ _ _ _ _ _ Eb). cbn [fst owed mbind option_bind].
    by rewrite value_of_encode.
  - unfold call. by destruct (plan_delete_accounting _ _).
  - unfold call. by destruct (in_wal _ s) as [[]].
  - destruct (backend_delete_runs (storage s) key Hh Htk) as (b' & Eb & _).
    unfold call, in_storage. by rewrite (zoom_run _ _ _ _ _ _ Eb).
  - destruct (sweep_verdict_cases now_ms key (st_get (storage s) key)) as [Hv|[[e Hv]|Hv]];
      by rewrite Hv.
  - destruct acc as [plan|]; [|done]. by case_match.
  - pose proof (persist_usage_runs tenant total s Hh) as (Hp & _). unfold call_logged.
    by destruct (persist_usage tenant total s) as [[]].
  - by repeat case_match.
  - unfold call_logged. by destruct (in_storage _ s) as [[]].
  - unfold call_logged. by destruct (in_wal _ s) as [[]].
Qed.

(** Only an announcement reaches the hub. *)
Lemma in_storage_watch {A} (m : M (StorageBackend F) Error A) (s : Service) :
  watch (in_storage m s).2 = watch s.
Proof. unfold in_storage, zoom. by destruct (m _). Qed.

Lemma in_wal_watch {A} (m : M Wal Error A) (s : Service) : watch (in_wal m s).2 = watch s.
Proof. unfold in_wal, zoom. by destruct (m _). Qed.

Lemma advance_watch pc (s : Service) :
  match pc with Announce _ _ _ => False | _ => True end → watch (advance pc s).2 = watch s.
Proof.
  intros Hpc. destruct pc; try done; cbn [advance]; unfold call, call_logged.
  - by destruct (plan_accounting _ _ _).
  - destruct acc as [plan|]; [|done]. by destruct (check_write _ _ _).
  - pose proof (in_wal_watch (append Put key (ValueCodec.encode value exp)) s).
    by destruct (in_wal _ s) as [[]].
  - pose proof (in_storage_watch (st_put key (ValueCodec.encode value exp)) s).
    by destruct (in_storage _ s) as [[]].
  - by destruct exp.
  - by destruct (plan_delete_accounting _ _).
  - pose proof (in_wal_watch (append Delete key []) s). by destruct (in_wal _ s) as [[]].
  - pose proof (in_storage_watch (st_delete key) s). by destruct (in_storage _ s) as [[]].
  - destruct acc as [plan|]; [|done]. by case_match.
  - assert (watch (persist_usage tenant total s).2 = watch s) as Hw.
    { unfold persist_usage. destruct (KeyCodec.encode tenant Stats USAGE_KEY); [|done..].
      apply in_storage_watch. }
    by destruct (persist_usage tenant total s) as [[]].
  - by repeat case_match.
  - pose proof (in_storage_watch st_flush s). by destruct (in_storage _ s) as [[]].
  - pose proof (in_wal_watch rotate s). by destruct (in_wal _ s) as [[]].
Qed.

(** What a call does to what the node holds. *)
Lemma advance_held pc (s : Service) k :
  healthy (storage s) → pc_takes (storage s) pc → is_data k →
  held (advance pc s).2 k =
    match effect_of pc with
    | Some (SetKey k' o) => if decide (k' = k) then o ≫= value_of else held s k
    | _ => held s k
    end.
Proof.
  intros Hh Htk Hk. destruct (advance_storage pc s (view (storage s)) Hh Htk) as [_ Ha]; [done|].
  unfold held. rewrite <-(Ha k Hk). destruct (effect_of pc) as [[k' o|k' o]|]; [|done..].
  cbn [apply_effect]. case_decide as E; [subst; by rewrite lookup_partial_alter_eq|].
  by rewrite lookup_partial_alter_ne.
Qed.

(** An announcement reaches the receivers of its tenant. *)
Lemma announce_feed k kd v (s : Service) t r l :
  valid_tenant t → feed (watch s) t r = Some l →
  let s' := (advance (Announce k kd v) s).2 in
  (advance (Announce k kd v) s).1 = RotateTest ∧ storage s' = storage s ∧
  ((∃ q, k = data_key t q ∧ feed (watch s') t r = Some (l ++ [mkChange kd q v])) ∨
   ((∀ q, k ≠ data_key t q) ∧ feed (watch s') t r = Some l)).
Proof.
  intros Ht Hf s'. subst s'. cbn [advance]. unfold call.
  assert (∀ t' sub q', KeyCodec.decode k = Ok (t', sub, q') → (t', sub) ≠ (t, Data) →
    ∀ q, k ≠ data_key t q) as Hno.
  { intros t' sub q' E Hne q ->. rewrite decode_data_key in E by done. congruence. }
  unfold publish_change. destruct (KeyCodec.decode k) as [[[t' sub] q]|e|] eqn:E.
  - destruct (decide (sub = Data)) as [-> |Hsub].
    + rewrite bool_decide_true by done. simpl negb. cbv iota.
      destruct (decide (t' = t)) as [-> |Hne].
      * assert (is_watched (watch s) t = true) as -> by (apply is_watched_feed; eauto).
        cbn [negb fst snd]. split_and!; [done..|]. left. exists q.
        apply decode_key_Ok in E as [_ ->]. split; [done|]. cbn [watch set_watch].
        by rewrite feed_publish, decide_True, Hf by done.
      * assert (∀ q, k ≠ data_key t q) as Hk by (eapply Hno; [done|congruence]).
        destruct (is_watched (watch s) t'); cbn [negb fst snd]; (split_and!; [done..|]); right; [|done].
        split; [done|]. cbn [watch set_watch]. by rewrite feed_publish, decide_False.
    + rewrite bool_decide_false by done. cbn [negb fst snd]. split_and!; [done..|]. right.
      split; [|done]. eapply Hno; [done|congruence].
  - cbn [fst snd]. split_and!; [done..|]. right. split; [|done]. intros q ->.
    by rewrite decode_data_key in E.
  - by apply decode_key_no_panic in E.
Qed.

(** ** The invariant *)

(** No two writers in flight on one key, and none with an entry the engine refuses. *)
Definition undisturbed (p : Pool (F:=F) (B:=B) (G:=G)) : Prop :=
  exclusive (tasks p) ∧ Forall (pc_takes (storage (shared p))) (tasks p).

Section invariant.
(** The copy started as [m]; the key looked at is [q] of tenant [t]. *)
Context (t : bytes) (r : Receiver) (l : list KeyChange) (m : gmap bytes bytes) (q : bytes).
Hypothesis Ht : valid_tenant t.

Record in_step (p : Pool (F:=F) (B:=B) (G:=G)) (cs : list KeyChange) : Prop := {
  is_healthy : healthy (storage (shared p));
  is_feed : feed (watch (shared p)) t r = Some (l ++ cs);
  is_owed : ∀ i pc k o, tasks p !! i = Some pc → owed pc = Some (k, o) → is_data k → held (shared p) k = o;
  is_rest : (∀ i pc o, tasks p !! i = Some pc → owed pc ≠ Some (data_key t q, o)) →
    mirror m cs !! q = held (shared p) (data_key t q);
}.

Lemma in_step_join ts new s s' cs :
  in_step (mkPool ts s) cs → storage s' = storage s → watch s' = watch s →
  Forall (λ pc, owed pc = None) new → in_step (mkPool (ts ++ new) s') cs.
Proof.
  intros [Hh Hf Ho Hr] Es Ew Hnew. split; cbn [tasks shared] in *; unfold held in *; rewrite ?Es, ?Ew; try done.
  - intros i pc k o [Hi|[_ Hi]]%lookup_app_Some Hpc; [by eapply Ho|].
    pose proof (Forall_lookup_1 _ _ _ _ Hnew Hi) as E. cbv beta in E. congruence.
  - intros Hq. apply Hr. intros i pc o Hi. eapply (Hq i). by apply lookup_app_l_Some.
Qed.

Lemma data_key_data : is_data (data_key t q).
Proof. by exists t, q. Qed.

(** A call other than an announcement. *)
Lemma in_step_call ts s i pc cs :
  in_step (mkPool ts s) cs → exclusive ts → pc_takes (storage s) pc → ts !! i = Some pc →
  match pc with Announce _ _ _ => False | _ => True end →
  in_step (mkPool (<[i:=(advance pc s).1]> ts) (advance pc s).2) cs.
Proof.
  intros [Hh Hf Ho Hr] Hex Htk Hi Hpc. cbn [tasks shared] in *.
  assert (i < length ts)%nat as Hlt by by eapply lookup_lt_Some.
  pose proof (advance_owed pc s Hh Htk Hpc) as Eo.
  destruct (advance_storage pc s (view (storage s)) Hh Htk) as [Hh' _]; [done|].
  assert (∀ k o, effect_of pc = Some (SetKey k o) → key_of pc = Some k) as Hkey
    by (intros k o; by destruct pc; intros; simplify_eq/=).
  split; cbn [tasks shared].
  - done.
  - by rewrite advance_watch.
  - intros j pc' k o Hj Hpc' Hk. rewrite advance_held by done.
    destruct (decide (i = j)) as [<-|Hne].
    + rewrite list_lookup_insert_eq in Hj by done. injection Hj as <-. rewrite Eo in Hpc'.
      destruct (effect_of pc) as [[k' o'|k' o']|]; [|by eapply Ho..].
      injection Hpc' as -> <-. by rewrite decide_True.
    + rewrite list_lookup_insert_ne in Hj by done.
      destruct (effect_of pc) as [[k' o'|k' o']|] eqn:Ee; [|by eapply Ho..].
      rewrite decide_False; [by eapply Ho|]. intros ->. apply Hne.
      eapply Hex; [done|done|by eapply Hkey|by eapply owed_key].
  - intros Hq. rewrite advance_held by (done || apply data_key_data).
    pose proof (Hq i (advance pc s).1) as Hqi. rewrite list_lookup_insert_eq in Hqi by done.
    rewrite Eo in Hqi.
    assert (∀ j pc' o, ts !! j = Some pc' → j ≠ i → owed pc' ≠ Some (data_key t q, o)) as Hqj.
    { intros j pc' o Hj Hne. apply (Hq j). by rewrite list_lookup_insert_ne. }
    destruct (effect_of pc) as [[k' o'|k' o']|] eqn:Ee.
    + rewrite decide_False by (intros ->; by eapply Hqi).
      apply Hr. intros j pc' o Hj. destruct (decide (j = i)) as [-> |Hne]; [|by eapply Hqj].
      simplify_eq. assert (owed pc = None) as -> by (by destruct pc; simplify_eq/=). done.
    + by destruct pc; simplify_eq/=.
    + apply Hr. intros j pc' o Hj. destruct (decide (j = i)) as [-> |Hne]; [|by eapply Hqj].
      simplify_eq. by apply Hqi.
Qed.

(** An announcement settles its own key. *)
Lemma in_step_announce ts s i k kd v cs :
  let pc := Announce k kd v in
  in_step (mkPool ts s) cs → ts !! i = Some pc →
  ∃ cs', in_step (mkPool (<[i:=(advance pc s).1]> ts) (advance pc s).2) (cs ++ cs').
Proof.
  intros pc [Hh Hf Ho Hr] Hi. cbn [tasks shared] in *.
  assert (i < length ts)%nat as Hlt by by eapply lookup_lt_Some.
  destruct (announce_feed k kd v s t r (l ++ cs) Ht Hf) as (E1 & Es & Hcase). fold pc in E1, Es, Hcase.
  assert (∀ k, held (advance pc s).2 k = held s k) as Eh by (intros; unfold held; by rewrite Es).
  assert (∀ j pc' k' o, <[i:=(advance pc s).1]> ts !! j = Some pc' → owed pc' = Some (k', o) →
    ts !! j = Some pc') as Hold.
  { intros j pc' k' o Hj Hpc'. destruct (decide (i = j)) as [<-|Hne].
    - rewrite list_lookup_insert_eq, E1 in Hj by done. by simplify_eq/=.
    - by rewrite list_lookup_insert_ne in Hj. }
  assert (k ≠ data_key t q →
    (∀ j pc' o, <[i:=(advance pc s).1]> ts !! j = Some pc' → owed pc' ≠ Some (data_key t q, o)) →
    mirror m cs !! q = held s (data_key t q)) as Hrest.
  { intros Hk Hq. apply Hr. intros j pc' o Hj. destruct (decide (j = i)) as [-> |Hne].
    - simplify_eq. by intros [= ? _].
    - apply (Hq j). by rewrite list_lookup_insert_ne by congruence. }
  assert (∀ cs', feed (watch (advance pc s).2) t r = Some (l ++ cs ++ cs') →
    ((∀ j pc' o, <[i:=(advance pc s).1]> ts !! j = Some pc' → owed pc' ≠ Some (data_key t q, o)) →
      mirror m (cs ++ cs') !! q = held s (data_key t q)) →
    in_step (mkPool (<[i:=(advance pc s).1]> ts) (advance pc s).2) (cs ++ cs')) as Hgoal.
  { intros cs' Hf' Hr'. split; cbn [tasks shared]; [by rewrite Es|done| |].
    - intros j pc' k' o Hj Hpc' Hk'. rewrite Eh. eapply Ho; [by eapply Hold|done|done].
    - intros Hq. rewrite Eh. by apply Hr'. }
  destruct Hcase as [(q' & -> & Hf')|[Hk Hf']].
  - exists [mkChange kd q' v]. apply Hgoal; [by rewrite app_assoc|]. intros Hq'.
    rewrite mirror_snoc, apply_change_lookup. cbn [change_key]. case_decide as E.
    + subst q'. unfold change_says. cbn [kind change_value]. symmetry.
      eapply (Ho i); [done|done|apply data_key_data].
    + apply Hrest; [|done]. intros [_ ?]%data_key_inj; done.
  - exists []. apply Hgoal; [by rewrite app_nil_r|]. intros Hq. rewrite app_nil_r. by apply Hrest.
Qed.

Lemma in_step_steps p p' cs :
  in_step p cs → rtc (guarded undisturbed) p p' → ∃ cs', in_step p' (cs ++ cs').
Proof.
  intros Hp Hs. revert cs Hp. induction Hs as [p|p p0 p' (Hstep & [Hex Htk] & _) _ IH]; intros cs Hp.
  { exists []. by rewrite app_nil_r. }
  assert (∃ cs', in_step p0 (cs ++ cs')) as (cs1 & Hq).
  { destruct Hstep as [ts s pc Hst|ts s i pc Hi|p n|p d].
    - exists []. rewrite app_nil_r. eapply in_step_join; [done|done|done|].
      apply Forall_singleton. by destruct pc.
    - destruct (decide (is_Some (match pc with Announce k kd v => Some (k, kd, v) | _ => None end)))
        as [[[[k kd] v] E]|Hno].
      + destruct pc; simplify_eq/=. by eapply in_step_announce.
      + exists []. rewrite app_nil_r. apply in_step_call; [done|done|by eapply Forall_lookup_1|done|].
        destruct pc; try done. destruct Hno. by eexists.
    - exists []. rewrite app_nil_r. unfold drain. destruct (drain_due n (ttl_index (shared p))) as [ks g].
      destruct p as [ts s]. eapply in_step_join; [done|done|done|]. apply Forall_fmap, Forall_true. done.
    - exists []. rewrite app_nil_r. by destruct Hp. }
  destruct (IH _ Hq) as [cs2 Hp']. exists (cs1 ++ cs2). by rewrite app_assoc.
Qed.

End invariant.

(** A node at rest with a subscriber. *)
Lemma in_step_start t r l m q s :
  healthy (storage s) → feed (watch s) t r = Some l →
  m !! q = held s (data_key t q) → in_step t r l m q (mkPool [] s) [].
Proof. intros Hh Hf Hm. split; try done; cbn [shared tasks]. by rewrite app_nil_r. Qed.

(** A snapshot taken in the middle. *)
Lemma in_step_snapshot t r l m m' q p cs :
  in_step t r l m q p cs → m' !! q = held (shared p) (data_key t q) →
  in_step t r (l ++ cs) m' q p [].
Proof. intros [Hh Hf Ho Hr] Hm. split; try done. by rewrite app_nil_r. Qed.

(** subscribe, then scan, and follow the stream.  A client subscribes to its tenant
    on a node at rest; writers and sweeps run, never two at once on one key and within
    what the storage engine takes; at some
    moment the client copies what the node holds; more writers run.  It has then been
    handed a sequence of changes, and its copy with all of them applied, those from
    before the copy too, holds for every key that no task is writing at that moment
    exactly the value the node holds. *)
Theorem subscribe_then_scan t r l s p1 p2 copy
    (Ht : valid_tenant t) (Hh : healthy (storage s)) (Hsub : feed (watch s) t r = Some l)
    (H1 : rtc (guarded undisturbed) (mkPool [] s) p1)
    (H2 : rtc (guarded undisturbed) p1 p2)
    (Hcopy : ∀ q, copy !! q = held (shared p1) (data_key t q)) :
  ∃ changes, feed (watch (shared p2)) t r = Some (l ++ changes) ∧
    ∀ q, (∀ pc, pc ∈ tasks p2 → key_of pc ≠ Some (data_key t q)) →
      mirror copy changes !! q = held (shared p2) (data_key t q).
Proof.
  assert (∀ q, ∃ cs1 cs2, feed (watch (shared p2)) t r = Some (l ++ cs1 ++ cs2) ∧
    ((∀ pc, pc ∈ tasks p2 → key_of pc ≠ Some (data_key t q)) →
     mirror copy (cs1 ++ cs2) !! q = held (shared p2) (data_key t q))) as Hq.
  { intros q. set (m0 := match held s (data_key t q) with Some v => {[q := v]} | None => ∅ end : gmap bytes bytes).
    assert (m0 !! q = held s (data_key t q)) as Hm0.
    { subst m0. destruct (held s (data_key t q)); by simplify_map_eq. }
    destruct (in_step_steps t r l m0 q Ht _ p1 [] (in_step_start t r l m0 q s Hh Hsub Hm0) H1) as [cs1 Hi1].
    destruct (in_step_steps t r l m0 q Ht p1 p2 _ Hi1 H2) as [cs2 Hi2].
    destruct (in_step_steps t r _ copy q Ht p1 p2 [] (in_step_snapshot _ _ _ _ copy _ _ _ Hi1 (Hcopy q)) H2)
      as [cs2' Hi2'].
    assert (cs2' = cs2) as ->.
    { pose proof (is_feed _ _ _ _ _ _ _ Hi2) as E1. pose proof (is_feed _ _ _ _ _ _ _ Hi2') as E2.
      rewrite E1 in E2. injection E2 as E2. rewrite <-!app_assoc in E2.
      by apply app_inv_head, app_inv_head in E2. }
    exists cs1, cs2. split; [apply Hi2|]. intros Hidle.
    assert (∀ i pc o, tasks p2 !! i = Some pc → owed pc ≠ Some (data_key t q, o)) as Hno.
    { intros i pc o Hi E%owed_key. by eapply Hidle; [eapply list_elem_of_lookup_2|]. }
    pose proof (is_rest _ _ _ _ _ _ _ Hi2 Hno) as R1. pose proof (is_rest _ _ _ _ _ _ _ Hi2' Hno) as R2.
    simpl in R1, R2. rewrite mirror_app in *.
    destruct (mirror_cases cs2 q) as [[o Ho]|Hn]; [by rewrite Ho in *|].
    rewrite Hn in *. destruct (mirror_cases cs1 q) as [[o Ho]|Hn1]; [by rewrite Ho in *|].
    by rewrite Hn1. }
  destruct (Hq []) as (cs1 & cs2 & Hf & _). exists (cs1 ++ cs2). split; [done|].
  intros q Hidle. destruct (Hq q) as (c1 & c2 & Hf' & Hm). rewrite Hf in Hf'.
  injection Hf' as Hf'%app_inv_head. rewrite Hf'. by apply Hm.
Qed.

End mirror.

(** ** Witness *)

Definition watched_node : SampleService :=
  set_watch (subscribe (lit "acme") (watch sample_node)).2 sample_node.

Abbreviation MirrorPool := (Pool (F:=sample_fjall) (B:=sample_broadcast) (G:=sample_governor)).

(** A put stores; the client scans; the put is announced and answered. *)
Definition mirror_scan : MirrorPool :=
  fold_left pool_event ([Arrive (PutStart 0 (data_key (lit "acme") (lit "a")) (lit "1") 0)]
    ++ replicate 5 (Turn 0)) (mkPool [] watched_node).
Definition mirror_end : MirrorPool := fold_left pool_event (replicate 5 (Turn 0)) mirror_scan.

Definition mirror_copy : gmap bytes bytes := {[lit "a" := lit "1"]}.

Lemma mirror_copy_ok q : mirror_copy !! q = held (shared mirror_scan) (data_key (lit "acme") q).
Proof.
  assert (bool_decide (view (storage (shared mirror_scan)) =
    {[data_key (lit "acme") (lit "a") := ValueCodec.encode (lit "1") None]}) = true)
    as Ev%bool_decide_eq_true by (vm_compute; reflexivity).
  unfold held. rewrite Ev. unfold mirror_copy. destruct (decide (q = lit "a")) as [-> |Hne].
  - rewrite !lookup_singleton_eq. cbn [mbind option_bind]. by rewrite value_of_encode.
  - rewrite !lookup_singleton_ne; [done|intros [_ ?]%data_key_inj; try apply acme_valid; congruence|congruence].
Qed.

Definition undisturbed_b (p : MirrorPool) : bool :=
  bool_decide (NoDup (omap key_of (tasks p))) && negb (is_durable (storage (shared p))).

Lemma undisturbed_b_ok p : undisturbed_b p = true → undisturbed p.
Proof.
  intros [H%bool_decide_eq_true Hm]%andb_true_iff. split; [by apply exclusive_nodup|].
  destruct (storage (shared p)); [|done]. apply Forall_true. intros pc. apply pc_takes_memory.
Qed.

Lemma subscribe_then_scan_witness :
  ∃ changes, feed (BO:=sample_broadcast_ok) (watch (shared mirror_end)) (lit "acme") 0%nat = Some ([] ++ changes) ∧
    mirror mirror_copy changes !! lit "a" = Some (lit "1").
Proof.
  assert (rtc (guarded undisturbed) (mkPool [] watched_node) mirror_scan) as H1.
  { apply (guarded_run_steps _ undisturbed_b _ _ undisturbed_b_ok). vm_compute. reflexivity. }
  assert (rtc (guarded undisturbed) mirror_scan mirror_end) as H2.
  { apply (guarded_run_steps _ undisturbed_b _ _ undisturbed_b_ok). vm_compute. reflexivity. }
  destruct (subscribe_then_scan (BO:=sample_broadcast_ok) (lit "acme") 0%nat [] watched_node mirror_scan
    mirror_end mirror_copy acme_valid I eq_refl H1 H2 mirror_copy_ok) as (changes & Hf & Hm).
  exists changes. split; [exact Hf|]. rewrite Hm.
  - vm_compute. reflexivity.
  - assert (omap key_of (tasks mirror_end) = []) as Ek by (vm_compute; reflexivity).
    intros pc Hin E. assert (data_key (lit "acme") (lit "a") ∈ omap key_of (tasks mirror_end)) as H.
    { apply list_elem_of_omap. exists pc. split; [exact Hin|exact E]. }
    rewrite Ek in H. by apply elem_of_nil in H.
Defined.
