(* ===== verification/Hub.v ===== *)
(** * The life of a tenant's watch channel

    [WatchHub::publish] collects a channel whose last receiver has left, and the hub
    says that its map stays small that way.  On a node, though, a change is published
    only when its tenant is watched ([publish_change] asks first), so the collecting
    branch is out of reach of every schedule whose calls do not overlap: once a tenant
    has been watched, its channel stays until the node stops.  (Where a call of
    [publish] overlaps with others, [subscriber_lost_to_collection] of [Watch.v] is what
    collecting can do.) *)

From Stdlib Require Import Strings.Byte.
From S2P Require Import Prelude Bytes Core KeyCodec ValueCodec Storage Wal TtlIndex Quota.
From S2P Require Import Throttle Watch Config Service Node NodeSpec Sample Sweeper Interleave.
From S2P Require Import Writers Linear Mirror.

Section hub.
Context {F : Fjall} {B : Broadcast} {G : Governor} {C : Crc32} {J : QuotaJson}.
Context {FS : FjallSpec} {BO : BroadcastOk}.

Abbreviation Service := (NodeService (F:=F) (B:=B) (G:=G)).
Abbreviation Pool := (Pool (F:=F) (B:=B) (G:=G)).

Definition on_watch (f : WatchHub B → WatchHub B) (p : Pool) : Pool :=
  mkPool (tasks p) (set_watch (f (watch (shared p))) (shared p)).

(** Writers, sweeps and the clock, with watchers that come and go. *)
Inductive hub_step : Pool → Pool → Prop :=
| hub_pool p p' : pool_step p p' → hub_step p p'
| hub_join p t : hub_step p (on_watch (λ h, (subscribe t h).2) p)
| hub_leave p t r : hub_step p (on_watch (unsubscribe t r) p).

(** The tenants that have a channel. *)
Definition channelled (p : Pool) : gset bytes := dom (channels (watch (shared p))).

Lemma set_channel_keeps t tx (h : WatchHub B) :
  dom (channels h) ⊆ dom (channels (set_channel t tx h)).
Proof. simpl. rewrite dom_insert_L. set_solver. Qed.

Lemma subscribe_keeps t (h : WatchHub B) :
  dom (channels h) ⊆ dom (channels (subscribe t h).2).
Proof.
  unfold subscribe. destruct (channels h !! t) as [tx|].
  - destruct (bc_subscribe tx) as [r tx']. apply set_channel_keeps.
  - destruct (bc_channel (capacity h)) as [tx|e|]; [|done..].
    destruct (bc_subscribe tx) as [r tx']. apply set_channel_keeps.
Qed.

Lemma unsubscribe_keeps t r (h : WatchHub B) :
  dom (channels h) ⊆ dom (channels (unsubscribe t r h)).
Proof. unfold unsubscribe. case_match; [apply set_channel_keeps|done]. Qed.

(** Publishing for a watched tenant keeps its channel. *)
Lemma publish_watched_keeps t c (h : WatchHub B) :
  is_watched h t = true → dom (channels h) ⊆ dom (channels (publish t c h)).
Proof.
  unfold is_watched, publish. destruct (channels h !! t) as [tx|]; [|done].
  rewrite Z.ltb_lt. intros Hpos. rewrite (proj2 (Z.eqb_neq _ _)) by lia.
  apply set_channel_keeps.
Qed.

Lemma publish_change_keeps k kd v (s : Service) :
  dom (channels (watch s)) ⊆ dom (channels (watch (publish_change k kd v s).2)).
Proof.
  unfold publish_change. destruct (KeyCodec.decode k) as [[[t sub] q]|e|]; [|done..].
  case_bool_decide; [|done]. cbn [negb].
  destruct (is_watched (watch s) t) eqn:E; [|done]. by apply publish_watched_keeps.
Qed.

Lemma announce_keeps k kd v (s : Service) :
  dom (channels (watch s)) ⊆ dom (channels (watch (advance (Announce k kd v) s).2)).
Proof.
  cbn [advance]. pose proof (publish_change_keeps k kd v s) as Hk. unfold call.
  by destruct (publish_change k kd v s) as [[]].
Qed.

Lemma advance_keeps pc (s : Service) :
  dom (channels (watch s)) ⊆ dom (channels (watch (advance pc s).2)).
Proof. destruct pc; try apply announce_keeps; by rewrite advance_watch. Qed.

Lemma hub_step_keeps p p' : hub_step p p' → channelled p ⊆ channelled p'.
Proof.
  unfold channelled. intros [q q' Hs|q t|q t r].
  - destruct Hs as [| |q n|q d]; [done|apply advance_keeps| |done].
    unfold drain. by destruct (drain_due n _).
  - apply subscribe_keeps.
  - apply unsubscribe_keeps.
Qed.

(** A channel is never collected.  However watchers come and go between the calls of
    writers and sweeps, the tenants that have a channel are only ever more: those of
    which every watcher has left are still among them, and the hub grows with the
    number of tenants ever watched. *)
Theorem channels_never_collected p p' :
  rtc hub_step p p' →
  channelled p ⊆ channelled p' ∧ watched_tenants (watch (shared p)) ≤ watched_tenants (watch (shared p')).
Proof.
  intros Hr. assert (channelled p ⊆ channelled p') as Hsub.
  { induction Hr as [|p p1 p' Hs _ IH]; [done|]. etrans; [by apply hub_step_keeps|done]. }
  split; [done|]. unfold watched_tenants. rewrite <-!(size_dom (D:=gset bytes)).
  apply Nat2Z.inj_le, subseteq_size, Hsub.
Qed.

End hub.

(** ** Witness: a watcher came and left, and a put of the tenant ran to its end. *)

Definition left_alone : Pool (F:=sample_fjall) (B:=sample_broadcast) (G:=sample_governor) :=
  on_watch (unsubscribe (B:=sample_broadcast) (lit "acme") 0%nat)
    (on_watch (λ h, (subscribe (lit "acme") h).2)
      (mkPool [PutStart 0 (data_key (lit "acme") (lit "a")) (lit "v") 0] sample_node)).

Lemma channels_never_collected_witness :
  let p := run_schedule (repeat 0%nat 10) left_alone in
  tasks p = [Done (Ok tt)] ∧ is_watched (watch (shared p)) (lit "acme") = false ∧
  1 ≤ watched_tenants (watch (shared p)).
Proof.
  intros p. split_and!; [by vm_compute|by vm_compute|].
  assert (rtc hub_step left_alone p) as Hr.
  { eapply rtc_subrel; [|apply run_schedule_steps]. intros q q'. apply hub_pool. }
  destruct (channels_never_collected _ _ Hr) as [_ Hle]. exact Hle.
Defined.
