(* ===== verification/Races.v ===== *)
(** * What writers on one key, or a rotation, can do to each other

    Six schedules of two tasks, most of them showing that a condition of [Writers.v]
    cannot be dropped: two puts of one key leave log and storage in different
    orders, or are announced to a watcher in another order than they were stored; a
    rotation throws away the record of a write that storage has not made durable; a
    sweep deletes a value that was written after it looked; two puts pass a quota that
    has room for one of them, or leave the tenant's usage record behind its counter.
    In each of them every request is answered with success. *)

From Stdlib Require Import Strings.Byte.
From S2P Require Import Prelude Bytes Core KeyCodec ValueCodec Storage Wal TtlIndex Quota.
From S2P Require Import Throttle Watch Config Service Node NodeSpec Sample Sweeper Interleave.

Abbreviation SamplePool :=
  (Pool (F:=sample_fjall) (B:=sample_broadcast) (G:=sample_governor)).

(** A node that starts again on the segment [s] leaves and on the backend's
    files. *)
Definition restarted (s : SampleService) (f : result Error (FjallStorage sample_fjall)) :
    result Error SampleService :=
  open_with_clock (config s) (clock s)
    (mkDisk (Ok tt) (mkFile (contents (wal_file (wal s))) []) f).

Definition read_after (r : result Error SampleService) (key : bytes) : result Error (option bytes) :=
  s ← r; get s 0 key.

Definition ka : bytes := data_key (lit "acme") (lit "a").
Definition kb : bytes := data_key (lit "acme") (lit "b").

(** Turns of a task, in a row. *)
Definition turns (n : nat) (i : nat) : list nat := replicate n i.

(** ** Two puts of one key *)

Definition same_key : SamplePool :=
  mkPool [PutStart 0 ka (lit "old") 0; PutStart 0 ka (lit "new") 0] sample_node.

(** The first put logs; the second logs, stores and answers; the first stores. *)
Definition same_key_end : SamplePool := run_schedule (turns 4 0 ++ turns 10 1 ++ turns 6 0) same_key.

(** C33: two puts of one key can end in a node that disagrees with its own log.  Both
    are answered with success and the node serves the value of the one that stored
    last; after a restart, which replays the log, it serves the other; and the
    tenant is charged for both, although one entry is stored. *)
Theorem same_key_puts_diverge :
  rtc pool_step same_key same_key_end ∧
  tasks same_key_end = [Done (Ok tt); Done (Ok tt)] ∧
  get (shared same_key_end) 0 ka = Ok (Some (lit "old")) ∧
  read_after (restarted (shared same_key_end) (Err (StorageError "not configured"))) ka
    = Ok (Some (lit "new")) ∧
  used_bytes (quota_store (shared same_key_end)) (lit "acme") = 8 ∧
  usage_in (view (storage (shared same_key_end))) (lit "acme") = 4.
Proof. split; [apply run_schedule_steps|]. split_and!; vm_compute; reflexivity. Qed.

(** ** A put and a rotation *)

(** A durable node with the smallest rotation size [validate] accepts. *)
Definition rotating_config : NodeConfig :=
  let c := fallback_config in {|
  node_id := node_id c; listen := listen c; data_dir := data_dir c;
  coord_endpoints := coord_endpoints c; backend := BackendFjall; limits := limits c;
  auth := auth c; tls := tls c; admin_listen := admin_listen c;
  ttl_sweep_interval_secs := ttl_sweep_interval_secs c;
  shutdown_timeout_secs := shutdown_timeout_secs c; wal_rotate_bytes := 4096;
  quota_config := quota_config c; watch_buffer := watch_buffer c;
  watch_heartbeat_secs := watch_heartbeat_secs c;
|}.

Definition rotating_node : SampleService :=
  mkService rotating_config (FjallB {| partition := (∅ : @fj_handle sample_fjall) |})
    (mkWal (mkFile (segment empty_log) []) [] 0 14)
    (Manual 1000) TtlIndex.new (hub_new 1024) (store_new (mkQuota 0 0)) (throttle_new 0).

Definition big_value : bytes := replicate 4096 x78.

Definition rotation : SamplePool :=
  mkPool [PutStart 0 ka (lit "1") 0; PutStart 0 kb big_value 0] rotating_node.

(** The first put logs; the second logs, stores and flushes storage ([..._flushed]),
    then truncates the log; the first stores and answers. *)
Definition rotation_flushed : SamplePool := run_schedule (turns 4 0 ++ turns 11 1) rotation.
Definition rotation_end : SamplePool := run_schedule (turns 1 1 ++ turns 6 0) rotation_flushed.

Definition flushed_files : FjallStorage sample_fjall :=
  match storage (shared rotation_flushed) with
  | FjallB f => f
  | Memory _ => {| partition := (∅ : @fj_handle sample_fjall) |}
  end.

(** What the machine leaves when it stops then: the log, and the backend as it was
    flushed. *)
Definition rotation_disk : Disk (F:=sample_fjall) :=
  mkDisk (Ok tt) (mkFile (contents (wal_file (wal (shared rotation_end)))) []) (Ok flushed_files).

Definition flushed_view : gmap bytes bytes := view (storage (shared rotation_flushed)).

Lemma rotation_steps : rtc pool_step rotation rotation_end.
Proof.
  transitivity rotation_flushed.
  - exact (run_schedule_steps (turns 4 0 ++ turns 11 1) rotation).
  - exact (run_schedule_steps (turns 1 1 ++ turns 6 0) rotation_flushed).
Qed.

Lemma rotation_crash : crash_disk (shared rotation_end) flushed_view rotation_disk (FjallB flushed_files).
Proof.
  assert (config (shared rotation_end) = rotating_config) as Hcfg by (vm_compute; reflexivity).
  assert (view (FjallB flushed_files) = flushed_view) as Hview.
  { assert (is_durable (storage (shared rotation_flushed)) = true) as Hd by (vm_compute; reflexivity).
    unfold flushed_files, flushed_view. by destruct (storage (shared rotation_flushed)). }
  split; [reflexivity|rewrite Hcfg; exists flushed_files; split; reflexivity|exact I|..].
  - exists []. split; [vm_compute; reflexivity|]. by rewrite app_nil_r.
  - rewrite Hview. intros k raw Hk.
    assert (bool_decide (map_Forall (λ _ raw, is_ok (ValueCodec.decode raw) = true) flushed_view) = true)
      as Hall%bool_decide_eq_true by (vm_compute; reflexivity).
    specialize (Hall k raw Hk). cbv beta in Hall.
    destruct (ValueCodec.decode raw) as [sv| |]; [by exists sv|discriminate..].
  - intros l k _ _ _ _. by rewrite Hview.
  - intros l Hwf Hl. rewrite Hview.
    assert (log_records l = log_records (mkLog 2 [])) as ->.
    { apply segment_inj; [done|split; [split; done|constructor]|]. rewrite <-Hl. vm_compute. reflexivity. }
    vm_compute. reflexivity.
Qed.

(** C34: a rotation can throw away an acknowledged write.  On a durable node with a
    valid configuration, one put logs its record, a second fills the segment and
    rotates it, flushing a storage that does not have the first yet; the first then
    stores and is answered with success.  The machine stops: neither the log nor
    what was flushed has the key, and the node starts without it. *)
Theorem rotation_loses_acknowledged_put :
  validate (λ _, true) rotating_config = Ok tt ∧
  rtc pool_step rotation rotation_end ∧
  tasks rotation_end = [Done (Ok tt); Done (Ok tt)] ∧
  crash_disk (shared rotation_end) flushed_view rotation_disk (FjallB flushed_files) ∧
  get (shared rotation_end) 0 ka = Ok (Some (lit "1")) ∧
  read_after (restarted (shared rotation_end) (Ok flushed_files)) ka = Ok None ∧
  read_after (restarted (shared rotation_end) (Ok flushed_files)) kb = Ok (Some big_value).
Proof.
  split; [vm_compute; reflexivity|].
  split; [apply rotation_steps|].
  split; [vm_compute; reflexivity|]. split; [apply rotation_crash|].
  split_and!; vm_compute; reflexivity.
Qed.

(** ** A put and the sweeper *)

(** [acme/k] has expired ([sample_node_2]); the sweeper holds it as a candidate while
    a client writes it again. *)
Definition sweep_race : SamplePool :=
  let k := data_key (lit "acme") (lit "k") in
  mkPool [SweepGet 1600 k; PutStart 0 k (lit "fresh") 0] sample_node_2.

(** The sweeper finds the old value expired; the put runs to its answer; the sweeper
    deletes. *)
Definition sweep_race_end : SamplePool := run_schedule (turns 1 0 ++ turns 10 1 ++ turns 7 0) sweep_race.

(** C35: a sweep can delete a value written after it looked.  The client's put of a
    value with no expiry is answered with success, and the sweep that had found the
    old value expired then deletes the new one, from storage and for every later
    restart. *)
Theorem sweep_deletes_fresh_value :
  rtc pool_step sweep_race sweep_race_end ∧
  tasks sweep_race_end = [Done (Ok tt); Done (Ok tt)] ∧
  get (shared (run_schedule (turns 1 0 ++ turns 10 1) sweep_race)) 0 (data_key (lit "acme") (lit "k"))
    = Ok (Some (lit "fresh")) ∧
  get (shared sweep_race_end) 0 (data_key (lit "acme") (lit "k")) = Ok None ∧
  read_after (restarted (shared sweep_race_end) (Err (StorageError "not configured")))
    (data_key (lit "acme") (lit "k")) = Ok None.
Proof. split; [apply run_schedule_steps|]. split_and!; vm_compute; reflexivity. Qed.

(** ** Two puts and a quota *)

(** Every tenant may keep three bytes. *)
Definition quota_race : SamplePool :=
  mkPool [PutStart 0 ka (lit "1") 0; PutStart 0 kb (lit "2") 0]
    (set_store (store_new (mkQuota 3 0)) sample_node).

Definition quota_race_end : SamplePool := run_schedule (turns 3 0 ++ turns 10 1 ++ turns 7 0) quota_race.

(** two puts can pass a quota that has room for one.  Each is checked before the
    other is counted, both are answered with success, and the tenant keeps more than
    its limit; one after the other, the second is refused. *)
Theorem concurrent_puts_exceed_quota :
  let limit := max_bytes (quota (quota_store (shared quota_race)) (lit "acme")) in
  rtc pool_step quota_race quota_race_end ∧
  tasks quota_race_end = [Done (Ok tt); Done (Ok tt)] ∧
  limit < usage_in (view (storage (shared quota_race_end))) (lit "acme") ∧
  tasks (run_schedule (turns 10 1 ++ turns 10 0) quota_race)
    = [Done (Err (QuotaExceeded (lit "acme") 4 limit)); Done (Ok tt)].
Proof.
  intros limit. split; [apply run_schedule_steps|]. split_and!; vm_compute; reflexivity.
Qed.

(** ** Two puts and a watcher *)

(** A client watches the tenant. *)
Definition watch_race : SamplePool :=
  mkPool [PutStart 0 ka (lit "old") 0; PutStart 0 ka (lit "new") 0]
    (set_watch (subscribe (lit "acme") (watch sample_node)).2 sample_node).

(** The first put stores; the second stores, announces and answers; the first
    announces. *)
Definition watch_race_end : SamplePool := run_schedule (turns 5 0 ++ turns 10 1 ++ turns 5 0) watch_race.

(** C37: a watcher can be left with a value the node does not hold.  Two puts of one key
    are stored in one order and announced in the other: both are answered with
    success, every later read gives the second value, and the last event of the key on
    the watch stream, with no lag reported, carries the first. *)
Theorem watcher_left_behind :
  rtc pool_step watch_race watch_race_end ∧
  tasks watch_race_end = [Done (Ok tt); Done (Ok tt)] ∧
  get (shared watch_race_end) 0 ka = Ok (Some (lit "new")) ∧
  feed (BO:=sample_broadcast_ok) (watch (shared watch_race_end)) (lit "acme") 0%nat
    = Some [mkChange ChangePut (lit "a") (lit "new"); mkChange ChangePut (lit "a") (lit "old")].
Proof. split; [apply run_schedule_steps|]. split_and!; vm_compute; reflexivity. Qed.

(** ** Two puts and the usage record *)

Definition usage_race : SamplePool :=
  mkPool [PutStart 0 ka (lit "1") 0; PutStart 0 kb (lit "2") 0] sample_node.

(** The first put counts its bytes; the second counts its own, records the total and
    answers; the first records the total it saw. *)
Definition usage_race_end : SamplePool := run_schedule (turns 7 0 ++ turns 10 1 ++ turns 3 0) usage_race.

(** Two puts of different keys can leave the tenant's usage record behind its counter.
    Both are answered with success and the counter is exact, while the record that
    others are to read instead of asking the node keeps the total of one of them. *)
Theorem usage_record_left_stale :
  rtc pool_step usage_race usage_race_end ∧
  tasks usage_race_end = [Done (Ok tt); Done (Ok tt)] ∧
  used_bytes (quota_store (shared usage_race_end)) (lit "acme") = 4 ∧
  usage_in (view (storage (shared usage_race_end))) (lit "acme") = 4 ∧
  view (storage (shared usage_race_end)) !! (frame (lit "acme") Stats ++ USAGE_KEY)
    = Some (ValueCodec.encode (to_be_bytes 8 2) None).
Proof. split; [apply run_schedule_steps|]. split_and!; vm_compute; reflexivity. Qed.
