(* ===== verification/Auth.v ===== *)
(** * Authentication and permissions ([ferriskv-auth], [ferriskv-node/src/auth_layer.rs])

    Permission bitmasks and role sets, token claims, the API-key store, and the
    interceptor that turns an [authorization] header into a principal.  Token
    decoding ([jsonwebtoken]) and hashing ([blake3]) are parameters. *)

From Stdlib Require Import Strings.Byte.
From S2P Require Import Prelude Bytes.

(** ** gRPC status ([tonic::Status]): a code and a message *)

Inductive Code :=
| InvalidArgument | ResourceExhausted | CodeNotFound | FailedPrecondition
| Unauthenticated | Internal | PermissionDenied | DataLoss.

Global Instance Code_eq_dec : EqDecision Code.
Proof. solve_decision. Defined.

Record Status := mkStatus {
  code : Code;
  message : string;
}.

(** ** [rbac.rs] *)

Inductive Permission := Read | Write | PermDelete | Admin | PermWatch.

Global Instance Permission_eq_dec : EqDecision Permission.
Proof. solve_decision. Defined.

(** [p as u8]. *)
Definition perm_u8 (p : Permission) : Z :=
  match p with
  | Read => Z.shiftl 1 0
  | Write => Z.shiftl 1 1
  | PermDelete => Z.shiftl 1 2
  | Admin => Z.shiftl 1 3
  | PermWatch => Z.shiftl 1 4
  end.

Record Role := mkRole {
  role_name : bytes;
  permissions : Z;
}.

Definition Role_new (name : bytes) (perms : list Permission) : Role :=
  mkRole name (fold_left (λ bits p, Z.lor bits (perm_u8 p)) perms 0).

Definition Role_allows (r : Role) (p : Permission) : bool :=
  negb (Z.land (permissions r) (perm_u8 p) =? 0).

Record RoleSet := mkRoleSet { roles : list Role }.

Definition RoleSet_allows (s : RoleSet) (p : Permission) : bool :=
  existsb (λ r, Role_allows r p) (roles s).

Definition RoleSet_add (s : RoleSet) (r : Role) : RoleSet := mkRoleSet (roles s ++ [r]).

(** ** [lib.rs] *)

Inductive AuthError :=
| InvalidToken (msg : string)
| Expired
| Forbidden (p : Permission)
| UnknownApiKey
| Jwt (msg : string).

Definition perm_debug (p : Permission) : string :=
  match p with
  | Read => "Read" | Write => "Write" | PermDelete => "Delete" | Admin => "Admin"
  | PermWatch => "Watch"
  end.

(** [Display]. *)
Definition auth_error_text (e : AuthError) : string :=
  match e with
  | InvalidToken m => "invalid token: " +:+ m
  | Expired => "expired token"
  | Forbidden p => "forbidden: missing " +:+ perm_debug p
  | UnknownApiKey => "unknown api key"
  | Jwt m => "jwt: " +:+ m
  end.

(** ** [jwt.rs] *)

Record Claims := mkClaims {
  sub : bytes;
  claim_tenant : bytes;
  claim_roles : list bytes;
  perms : list bytes;
  exp : Z;
  iss : option bytes;
}.

Definition Claims_allows (c : Claims) (perm : bytes) : bool :=
  existsb (λ p, bool_decide (p = lit "admin") || bool_decide (p = perm)) (perms c).

Inductive Algorithm := HS256 | RS256.

Inductive JwtError := ExpiredSignature | OtherJwtError (msg : string).

(** [jsonwebtoken]: keys, and decoding a token at a given time with the default
    validation of an algorithm. *)
Class JsonWebToken := {
  DecodingKey : Type;
  from_secret : bytes → DecodingKey;
  from_rsa_pem : bytes → string + DecodingKey;
  jwt_decode : Z → bytes → DecodingKey → Algorithm → JwtError + Claims;
}.

Section jwt.
Context `{W : JsonWebToken}.

Record JwtVerifier := mkVerifier {
  key : DecodingKey;
  validation : Algorithm;
}.

Definition new_hs256 (secret : bytes) : JwtVerifier := mkVerifier (from_secret secret) HS256.

Definition new_rs256 (pem : bytes) : result AuthError JwtVerifier :=
  match from_rsa_pem pem with
  | inl e => Err (Jwt e)
  | inr k => Ok (mkVerifier k RS256)
  end.

Definition verify (now : Z) (v : JwtVerifier) (token : bytes) : result AuthError Claims :=
  match jwt_decode now token (key v) (validation v) with
  | inl ExpiredSignature => Err Expired
  | inl (OtherJwtError e) => Err (InvalidToken e)
  | inr claims => Ok claims
  end.

(** ** [auth_layer.rs] *)

Inductive Principal :=
| Anonymous
| Authenticated (c : Claims).

Definition principal_tenant (p : Principal) : option bytes :=
  match p with
  | Anonymous => None
  | Authenticated c => Some (claim_tenant c)
  end.

Definition principal_allows (p : Principal) (perm : bytes) : bool :=
  match p with
  | Anonymous => true
  | Authenticated c => Claims_allows c perm
  end.

(** What the layers use of a [tonic::Request]: the [authorization] metadata, the
    principal among the extensions, and the message. *)
Record Request (T : Type) := mkRequest {
  authorization : option bytes;
  principal : option Principal;
  get_ref : T;
}.
Global Arguments mkRequest {T}.
Global Arguments authorization {T}.
Global Arguments principal {T}.
Global Arguments get_ref {T}.

Record AuthInterceptor := mkInterceptor {
  verifier : option JwtVerifier;
  insecure : bool;
}.

Definition insecure_interceptor : AuthInterceptor := mkInterceptor None true.
Definition with_verifier (v : JwtVerifier) : AuthInterceptor := mkInterceptor (Some v) false.

(** [HeaderValue::to_str] accepts visible ASCII and tabs. *)
Definition is_visible_ascii (b : byte) : bool := in_range 32 126 b || (byte_Z b =? 9).
Definition to_str (h : bytes) : option bytes := if forallb is_visible_ascii h then Some h else None.

Definition strip_str_prefix (p s : bytes) : option bytes :=
  if starts_with p s then Some (drop (length p) s) else None.

Definition unauthenticated {A} (m : string) : result Status A := Err (mkStatus Unauthenticated m).

Definition call {T} (now : Z) (i : AuthInterceptor) (req : Request T) : result Status (Request T) :=
  let with_principal p := mkRequest (authorization req) (Some p) (get_ref req) in
  if insecure i then Ok (with_principal Anonymous) else
  match verifier i with
  | None => Err (mkStatus Internal "auth misconfigured: no verifier")
  | Some v =>
      match authorization req with
      | None => unauthenticated "missing authorization header"
      | Some header =>
          match to_str header with
          | None => unauthenticated "authorization header is not ASCII"
          | Some raw =>
              match (match strip_str_prefix (lit "Bearer ") raw with
                     | Some t => Some t
                     | None => strip_str_prefix (lit "bearer ") raw
                     end) with
              | None => unauthenticated "authorization must start with Bearer"
              | Some token =>
                  claims ← map_err (λ e, mkStatus Unauthenticated
                                      ("invalid token: " +:+ auth_error_text e))
                             (verify now v token);
                  mret (with_principal (Authenticated claims))
              end
          end
      end
  end.

End jwt.

(** ** [api_key.rs] *)

(** [blake3::hash] returns 32 bytes. *)
Class Blake3 := blake3 : bytes → bytes.

Record ApiKey := mkApiKey {
  ak_id : bytes;
  ak_tenant : bytes;
  hashed : bytes;
  ak_roles : RoleSet;
}.

Record ApiKeyStore := mkKeyStore { by_hash : gmap bytes ApiKey }.

Definition key_store_new : ApiKeyStore := mkKeyStore ∅.

Definition key_store_insert (k : ApiKey) (s : ApiKeyStore) : ApiKeyStore :=
  mkKeyStore (<[hashed k := k]> (by_hash s)).

Definition key_store_verify `{Blake3} (s : ApiKeyStore) (raw : bytes) : result AuthError ApiKey :=
  let hash := blake3 raw in
  match by_hash s !! hash with
  | Some k => Ok k
  | None => Err UnknownApiKey
  end.

(** ** Lemmas *)

Lemma perm_u8_bit p : ∃ i, 0 ≤ i < 5 ∧ perm_u8 p = 2 ^ i ∧ ∀ q, q ≠ p → Z.testbit (perm_u8 q) i = false.
Proof.
  destruct p; [exists 0|exists 1|exists 2|exists 3|exists 4].
  all: (split; [lia|]; split; [reflexivity|]; intros [] Hq; reflexivity || congruence).
Qed.

Lemma testbit_perms i perms acc :
  Z.testbit (fold_left (λ bits p, Z.lor bits (perm_u8 p)) perms acc) i =
  Z.testbit acc i || existsb (λ p, Z.testbit (perm_u8 p) i) perms.
Proof.
  revert acc. induction perms as [|p perms IH]; intros acc; simpl; [by rewrite orb_false_r|].
  by rewrite IH, Z.lor_spec, orb_assoc.
Qed.

(** A power of two selects one bit. *)
Lemma land_pow2 a i : 0 ≤ i → Z.land a (2 ^ i) = 0 ↔ Z.testbit a i = false.
Proof.
  intros Hi. split.
  - intros H. apply (f_equal (λ z, Z.testbit z i)) in H.
    rewrite Z.land_spec, Z.pow2_bits_true, andb_true_r, Z.bits_0 in H by lia. done.
  - intros H. apply Z.bits_inj'. intros j Hj. rewrite Z.land_spec, Z.bits_0.
    destruct (decide (i = j)) as [<-|Hne]; [by rewrite H|].
    by rewrite Z.pow2_bits_false, andb_false_r by lia.
Qed.

Lemma Role_new_allows name ps p : Role_allows (Role_new name ps) p = true ↔ p ∈ ps.
Proof.
  destruct (perm_u8_bit p) as (i & Hi & Hp & Hother). unfold Role_allows, Role_new. simpl.
  rewrite negb_true_iff, Z.eqb_neq, Hp, land_pow2, not_false_iff_true, testbit_perms by lia.
  rewrite Z.bits_0. simpl. rewrite existsb_exists. split.
  - intros (q & Hq & Hbit). destruct (decide (q = p)) as [<-|Hne]; [by apply list_elem_of_In|].
    rewrite Hother in Hbit by done. done.
  - intros Hin. exists p. split; [by apply list_elem_of_In|].
    rewrite Hp. apply Z.pow2_bits_true. lia.
Qed.

(** ** Properties *)

(** roles grant what they list.  A role built from a list of permissions allows
    exactly the listed ones (the bits of different permissions do not interfere),
    and a set of roles allows exactly what some role in it does; adding a role adds
    its permissions and removes none. *)
Theorem roles_grant_exactly name ps rs p :
  (Role_allows (Role_new name ps) p = true ↔ p ∈ ps) ∧
  (RoleSet_allows (mkRoleSet rs) p = true ↔ ∃ r, r ∈ rs ∧ Role_allows r p = true) ∧
  (RoleSet_allows (RoleSet_add (mkRoleSet rs) (Role_new name ps)) p = true ↔
     RoleSet_allows (mkRoleSet rs) p = true ∨ p ∈ ps).
Proof.
  split_and!.
  - apply Role_new_allows.
  - unfold RoleSet_allows. simpl. rewrite existsb_exists. setoid_rewrite list_elem_of_In. done.
  - unfold RoleSet_allows. simpl. rewrite existsb_app, orb_true_iff. simpl.
    by rewrite orb_false_r, Role_new_allows.
Qed.

(** the interceptor authenticates.  With a verifier and without the insecure
    switch, a request goes through exactly when its authorization header is ASCII,
    starts with "Bearer " or "bearer ", and the rest is a token the verifier
    accepts; the principal attached is then the one the token names, whatever the
    request carried before; every refusal is [Unauthenticated]. *)
Theorem interceptor_authenticates `{W : JsonWebToken} {T} now v (req : Request T) :
  (∀ req', call now (with_verifier v) req = Ok req' ↔
    ∃ header token claims, authorization req = Some header ∧
      forallb is_visible_ascii header = true ∧
      (header = lit "Bearer " ++ token ∨ header = lit "bearer " ++ token) ∧
      verify now v token = Ok claims ∧
      req' = mkRequest (authorization req) (Some (Authenticated claims)) (get_ref req)) ∧
  (∀ st, call now (with_verifier v) req = Err st → code st = Unauthenticated).
Proof.
  assert (∀ p s t, strip_str_prefix p s = Some t ↔ s = p ++ t) as Hstrip.
  { intros p s t. unfold strip_str_prefix. pose proof (starts_with_spec p s) as Hp.
    destruct (starts_with p s).
    - destruct (proj1 Hp eq_refl) as [r ->]. rewrite drop_app_length. naive_solver.
    - split; [done|]. intros ->. assert (false = true) by (apply Hp; by eexists). done. }
  split.
  - intros req'. unfold call, to_str. simpl. destruct (authorization req) as [h|];
      [|by split; [done|intros (? & ? & ? & ? & _)]].
    destruct (forallb is_visible_ascii h) eqn:Hasc;
      [|by split; [done|intros (? & ? & ? & [= <-] & Ha & _); congruence]].
    destruct (strip_str_prefix (lit "Bearer ") h) as [t|] eqn:E1;
      [|destruct (strip_str_prefix (lit "bearer ") h) as [t|] eqn:E2].
    + apply Hstrip in E1 as ->. unfold_monad. split.
      * intros Hv. destruct (verify now v t) eqn:Ev; simplify_eq. eauto 10.
      * intros (? & t' & claims & [= <-] & _ & Ht & Hv & ->).
        assert (t' = t) as -> by (destruct Ht as [Ht|Ht]; [by injection Ht|done]).
        by rewrite Hv.
    + apply Hstrip in E2 as ->. unfold_monad. split.
      * intros Hv. destruct (verify now v t) eqn:Ev; simplify_eq. eauto 10.
      * intros (? & t' & claims & [= <-] & _ & Ht & Hv & ->).
        assert (t' = t) as -> by (destruct Ht as [Ht|Ht]; [done|by injection Ht]).
        by rewrite Hv.
    + split; [done|]. intros (? & t & claims & [= <-] & _ & [->| ->] & _).
      * by rewrite (proj2 (Hstrip _ _ t)) in E1.
      * by rewrite (proj2 (Hstrip _ _ t)) in E2.
  - intros st. unfold call, unauthenticated. simpl.
    repeat (case_match; try (intros; by simplify_eq/=)); unfold_monad.
    all: destruct (verify _ _ _); intros; by simplify_eq/=.
Qed.

(** API keys are found by hash.  A key that was inserted is returned for the
    secret it is the hash of, the last insertion winning, and a secret whose hash
    was never inserted is refused. *)
Theorem api_keys_by_hash `{Blake3} k s raw :
  key_store_verify (key_store_insert k s) raw =
  (if decide (blake3 raw = hashed k) then Ok k else key_store_verify s raw) ∧
  key_store_verify key_store_new raw = Err UnknownApiKey.
Proof.
  split; [|done]. unfold key_store_verify, key_store_insert. simpl.
  case_decide as Heq; [by rewrite Heq, lookup_insert_eq|]. by rewrite lookup_insert_ne.
Qed.

(** A role as the code's own test builds it. *)
Example read_write_role :
  let r := Role_new (lit "rw") [Read; Write] in
  Role_allows r Read = true ∧ Role_allows r Write = true ∧ Role_allows r PermDelete = false ∧
  Role_allows r Admin = false.
Proof. vm_compute. done. Qed.
