(* ===== verification/Grpc.v ===== *)
(** * The gRPC API ([ferriskv-node/src/grpc.rs], [audit.rs])

    The request handlers, from the authenticated request to the response, with
    their limits, authorization, admission, and the audit trail.  Handlers run
    over the node and the audit log they append to.  Metrics are not modelled:
    they are write-only. *)

From Stdlib Require Import Strings.Byte.
From S2P Require Import Prelude Bytes Core KeyCodec ValueCodec Storage Wal TtlIndex Quota.
From S2P Require Import Throttle Watch Config Service Node NodeSpec Auth.

Definition PERM_READ : bytes := lit "read".
Definition PERM_WRITE : bytes := lit "write".
Definition PERM_DELETE : bytes := lit "delete".
Definition PERM_WATCH : bytes := lit "watch".
Definition OP_PUT : Z := 1.
Definition OP_DELETE : Z := 2.
Definition SCAN_CHUNK_SIZE : nat := 256.

(** ** Messages ([proto/ferriskv.proto]) *)

Record GetRequest := { get_tenant : bytes; get_key : bytes }.
Record GetResponse := { found : bool; got : bytes; got_version : Z }.
Record PutRequest := { put_tenant : bytes; put_key : bytes; put_value : bytes; ttl_ms : Z }.
Record PutResponse := { put_version : Z }.
Record DeleteRequest := { del_tenant : bytes; del_key : bytes }.
Record DeleteResponse := { del_found : bool }.
Record ScanRequest := { scan_tenant : bytes; scan_prefix : bytes; scan_limit : Z }.
Record KeyValue := mkKeyValue { kv_key : bytes; kv_value : bytes }.
Record ScanChunk := { chunk_entries : list KeyValue }.
Record WatchRequest := { watch_tenant : bytes; watch_prefix : bytes }.
Record BatchOp := { op_code : Z; op_key : bytes; op_value : bytes }.
Record BatchRequest := { batch_tenant : bytes; ops : list BatchOp }.
Record BatchResponse := { ok : bool }.

Inductive WatchEventKind := EventPut | EventDelete | Heartbeat.
Record WatchEvent := mkEvent {
  event_kind : WatchEventKind;
  event_key : bytes;
  event_value : bytes;
  event_version : Z;
}.

(** ** Stateless helpers *)

Definition invalid_argument (m : string) : Status := mkStatus InvalidArgument m.

Definition to_status (e : Error) : Status :=
  let c :=
    match e with
    | NotFound _ => CodeNotFound
    | NotLeader _ => FailedPrecondition
    | UnknownTenant _ => Unauthenticated
    | NotOwner _ => FailedPrecondition
    | QuotaExceeded _ _ _ | RateLimited _ _ => ResourceExhausted
    | ConfigError _ => InvalidArgument
    | Corrupt _ | StorageError _ | Io _ => Internal
    end in
  mkStatus c (error_text e).

Definition check_tenant (t : bytes) : result Status unit :=
  if len t =? 0 then Err (invalid_argument "tenant must not be empty")
  else if 255 <? len t then Err (invalid_argument "tenant exceeds 255 bytes")
  else Ok tt.

Definition authorize {T} (req : Request T) (tenant perm : bytes) : result Status unit :=
  p ← ok_or (mkStatus Internal "auth layer missing") (principal req);
  match principal_tenant p with
  | Some claim_tenant =>
      if negb (bool_decide (claim_tenant = tenant)) then
        Err (mkStatus PermissionDenied
               ("tenant " +:+ show_str tenant +:+ " not authorized for this principal"))
      else Ok tt
  | None => Ok tt
  end;;
  if negb (principal_allows p perm) then
    Err (mkStatus PermissionDenied ("permission " +:+ show_str perm +:+ " required"))
  else Ok tt.

Definition encode_data_key (tenant payload : bytes) : result Status bytes :=
  map_err to_status (KeyCodec.encode tenant Data payload).

(** The [while let] loop: drops trailing [0xFF] bytes, then adds one to the last. *)
Fixpoint next_bound_loop (rev_end : bytes) : bytes :=
  match rev_end with
  | [] => []
  | last :: rest =>
      if decide (last = xff) then next_bound_loop rest
      else rev (byte_of_Z (byte_Z last + 1) :: rest)
  end.

Definition next_prefix_bound (prefix : bytes) : bytes := next_bound_loop (rev prefix).

Record ScanBounds := { bounds_start : bytes; bounds_end : bytes; strip_len : Z }.

Definition encode_data_scan_bounds (tenant user_prefix : bytes) : result Status ScanBounds :=
  sub_prefix ← map_err to_status (encode_subspace_prefix tenant Data);
  let start := sub_prefix ++ user_prefix in
  mret {| bounds_start := start; bounds_end := next_prefix_bound start;
          strip_len := len sub_prefix |}.

(** The chunking loop of [scan_impl]: [current] fills up to the chunk size. *)
Fixpoint chunk_loop (items : list KeyValue) (current : list KeyValue) (chunks : list ScanChunk) :
    list ScanChunk :=
  match items with
  | [] => if bool_decide (current = []) then chunks else chunks ++ [{| chunk_entries := current |}]
  | kv :: items =>
      let current := current ++ [kv] in
      if (SCAN_CHUNK_SIZE <=? length current)%nat
      then chunk_loop items [] (chunks ++ [{| chunk_entries := current |}])
      else chunk_loop items current chunks
  end.

(** [k.slice(strip_len..)] on every key. *)
Fixpoint strip_entries (n : Z) (l : list (bytes * bytes)) : result Status (list KeyValue) :=
  match l with
  | [] => mret []
  | (k, v) :: l =>
      user_key ← slice_from k n;
      rest ← strip_entries n l;
      mret (mkKeyValue user_key v :: rest)
  end.

Definition to_watch_event (change : KeyChange) : WatchEvent :=
  mkEvent (match kind change with ChangePut => EventPut | ChangeDelete => EventDelete end)
    (change_key change) (change_value change) 0.

Definition heartbeat_event : WatchEvent := mkEvent Heartbeat [] [] 0.

(** ** Audit ([audit.rs]) *)

Record AuditRecord := mkAudit {
  audit_principal : bytes;
  audit_tenant : bytes;
  audit_op : string;
  key_hash : bytes;
  value_size : Z;
}.

Definition principal_label (p : Principal) : bytes :=
  match p with
  | Anonymous => lit "anonymous"
  | Authenticated c => sub c
  end.

(** The first eight bytes of the hash, in hexadecimal. *)
Definition KeyHash_of `{Blake3} (key : bytes) : bytes := take 8 (blake3 key) ≫= hex_byte.

(** ** The handlers *)

Section grpc.
Context {F : Fjall} {B : Broadcast} {G : Governor} {C : Crc32} {J : QuotaJson} {H3 : Blake3}.

Abbreviation Service := (NodeService (F:=F) (B:=B) (G:=G)).

Record Api := mkApi {
  inner : Service;
  audit_log : list AuditRecord;
}.

Definition in_service {A} (m : M Service Error A) : M Api Status A :=
  mapM_err to_status (zoom inner (λ s a, mkApi s (audit_log a)) m).

(** A call that only reads the node. *)
Definition ask {A} (f : Service → result Error A) : M Api Status A :=
  λ a, (map_err to_status (f (inner a)), a).

Definition audit_write (p : Principal) (tenant : bytes) (op : string) (key : bytes) (size : Z) :
    M Api Status unit :=
  modify (λ a, mkApi (inner a)
    (audit_log a ++ [mkAudit (principal_label p) tenant op (KeyHash_of key) size])).

Definition limits_of (a : Api) : Limits := limits (config (inner a)).

Definition enforce_key_size (key : bytes) : M Api Status unit := λ a,
  let max := max_key_size (limits_of a) in
  if max <? len key then
    (Err (invalid_argument ("key size " +:+ pretty (len key) +:+ " exceeds limit " +:+ pretty max)), a)
  else (Ok tt, a).

Definition enforce_value_size (value : bytes) : M Api Status unit := λ a,
  let max := max_value_size (limits_of a) in
  if max <? len value then
    (Err (mkStatus ResourceExhausted
            ("value size " +:+ pretty (len value) +:+ " exceeds limit " +:+ pretty max)), a)
  else (Ok tt, a).

Definition enforce_batch_size (n : Z) : M Api Status unit := λ a,
  let max := max_batch_ops (limits_of a) in
  if max <? n then
    (Err (invalid_argument ("batch size " +:+ pretty n +:+ " exceeds limit " +:+ pretty max)), a)
  else (Ok tt, a).

Definition cap_scan_limit (a : Api) (requested : Z) : Z :=
  let max := max_scan_limit (limits_of a) in
  if (requested =? 0) || (max <? requested) then max else requested.

(** [admit]; [gov_now] is what the limiter's clock says. *)
Definition admit_rpc (gov_now : Z) (tenant : bytes) (cost : Z) : M Api Status unit :=
  in_service (admit_ops gov_now tenant cost).

(** [.cloned().unwrap_or(Principal::Anonymous)]. *)
Definition principal_or_anonymous {T} (req : Request T) : Principal :=
  default Anonymous (principal req).

Definition get_impl (gov_now sys : Z) (req : Request GetRequest) : M Api Status GetResponse :=
  let r := get_ref req in
  lift (check_tenant (get_tenant r));;
  lift (authorize req (get_tenant r) PERM_READ);;
  admit_rpc gov_now (get_tenant r) 1;;
  enforce_key_size (get_key r);;
  k ← lift (encode_data_key (get_tenant r) (get_key r));
  value ← ask (λ s, get s sys k);
  mret (match value with
        | Some v => {| found := true; got := v; got_version := 0 |}
        | None => {| found := false; got := []; got_version := 0 |}
        end).

Definition put_impl (gov_now sys : Z) (req : Request PutRequest) : M Api Status PutResponse :=
  let r := get_ref req in
  lift (check_tenant (put_tenant r));;
  lift (authorize req (put_tenant r) PERM_WRITE);;
  admit_rpc gov_now (put_tenant r) 1;;
  let p := principal_or_anonymous req in
  enforce_key_size (put_key r);;
  enforce_value_size (put_value r);;
  let value_size := len (put_value r) in
  k ← lift (encode_data_key (put_tenant r) (put_key r));
  in_service (put_with_ttl sys k (put_value r) (ttl_ms r));;
  audit_write p (put_tenant r) "put" (put_key r) value_size;;
  mret {| put_version := 0 |}.

Definition delete_impl (gov_now sys : Z) (req : Request DeleteRequest) : M Api Status DeleteResponse :=
  let r := get_ref req in
  lift (check_tenant (del_tenant r));;
  lift (authorize req (del_tenant r) PERM_DELETE);;
  admit_rpc gov_now (del_tenant r) 1;;
  let p := principal_or_anonymous req in
  enforce_key_size (del_key r);;
  k ← lift (encode_data_key (del_tenant r) (del_key r));
  existing ← ask (λ s, get s sys k);
  let found := bool_decide (existing ≠ None) in
  in_service (delete_key k);;
  audit_write p (del_tenant r) "delete" (del_key r) 0;;
  mret {| del_found := found |}.

Definition scan_impl (gov_now sys : Z) (req : Request ScanRequest) : M Api Status (list ScanChunk) :=
  let r := get_ref req in
  lift (check_tenant (scan_tenant r));;
  lift (authorize req (scan_tenant r) PERM_READ);;
  admit_rpc gov_now (scan_tenant r) 1;;
  bounds ← lift (encode_data_scan_bounds (scan_tenant r) (scan_prefix r));
  items ← ask (λ s, scan_range s sys (bounds_start bounds) (bounds_end bounds));
  limit ← gets (λ a, cap_scan_limit a (scan_limit r));
  entries ← lift (strip_entries (strip_len bounds) (take (Z.to_nat limit) items));
  mret (chunk_loop entries [] []).

(** The stream state [watch_impl] hands to [watch_stream]. *)
Record WatchState := mkWatchState {
  rx : Receiver;
  prefix : bytes;
  heartbeat : Z;
  next_beat : Z;
  ws_tenant : bytes;
}.

Definition watch_impl (gov_now instant_now : Z) (req : Request WatchRequest) : M Api Status WatchState :=
  let r := get_ref req in
  lift (check_tenant (watch_tenant r));;
  lift (authorize req (watch_tenant r) PERM_WATCH);;
  admit_rpc gov_now (watch_tenant r) 1;;
  enforce_key_size (watch_prefix r);;
  rx ← (λ a,
    match subscribe (watch_tenant r) (watch (inner a)) with
    | (Ok rx, h) => (Ok rx, mkApi (set_watch h (inner a)) (audit_log a))
    | (Err e, h) => match e : Empty_set with end
    | (Panic, h) => (Panic, a)
    end);
  heartbeat ← gets (λ a, 1000 * watch_heartbeat_secs (config (inner a)));
  mret (mkWatchState rx (watch_prefix r) heartbeat (instant_now + heartbeat) (watch_tenant r)).

(** One operation of a batch. *)
Definition batch_op (sys : Z) (p : Principal) (tenant : bytes) (op : BatchOp) : M Api Status unit :=
  enforce_key_size (op_key op);;
  when (op_code op =? OP_PUT) (enforce_value_size (op_value op));;
  let value_size := len (op_value op) in
  k ← lift (encode_data_key tenant (op_key op));
  op_name ←
    (if op_code op =? OP_PUT then
       in_service (put_with_ttl sys k (op_value op) 0);; mret "put"%string
     else if op_code op =? OP_DELETE then
       in_service (delete_key k);; mret "delete"%string
     else throw (invalid_argument ("unknown op code " +:+ pretty (op_code op))));
  audit_write p tenant op_name (op_key op) value_size.

Definition batch_impl (gov_now sys : Z) (req : Request BatchRequest) : M Api Status BatchResponse :=
  let r := get_ref req in
  lift (check_tenant (batch_tenant r));;
  let needs_write := existsb (λ o, op_code o =? OP_PUT) (ops r) in
  let needs_delete := existsb (λ o, op_code o =? OP_DELETE) (ops r) in
  let tenant := batch_tenant r in
  when needs_write (lift (authorize req tenant PERM_WRITE));;
  when needs_delete (lift (authorize req tenant PERM_DELETE));;
  let p := principal_or_anonymous req in
  enforce_batch_size (len (ops r));;
  admit_rpc gov_now tenant (Z.min (len (ops r)) U32_MAX);;
  for_each (batch_op sys p tenant) (ops r);;
  mret {| ok := true |}.

(** ** The watch stream

    What [select!] picks: the heartbeat timer, or what the receiver yields.  [t]
    is the time at which it happens. *)
Inductive signal :=
| Idle (t : Z)
| Received (t : Z) (c : KeyChange)
| Lagged (missed : Z)
| Closed.

Definition defer_heartbeat (t : Z) (s : WatchState) : WatchState :=
  mkWatchState (rx s) (prefix s) (heartbeat s) (t + heartbeat s) (ws_tenant s).

Inductive stream_item :=
| Item (r : result Status WatchEvent) (next : option WatchState)
| End
| Pending.

(** One call of the unfold closure: loops over changes outside the prefix. *)
Fixpoint watch_next (s : WatchState) (signals : list signal) : stream_item * list signal :=
  match signals with
  | [] => (Pending, [])
  | Idle t :: rest => (Item (Ok heartbeat_event) (Some (defer_heartbeat t s)), rest)
  | Received t c :: rest =>
      if negb (starts_with (prefix s) (change_key c)) then watch_next s rest
      else (Item (Ok (to_watch_event c)) (Some (defer_heartbeat t s)), rest)
  | Lagged missed :: rest =>
      (Item (Err (mkStatus DataLoss ("watch fell behind by " +:+ pretty missed
               +:+ " events; re-read and resubscribe"))) None, rest)
  | Closed :: rest => (End, rest)
  end.

(** The stream as [futures::stream::unfold] drives it: what the client receives
    for a run of signals, and whether the stream has ended. *)
Fixpoint watch_stream (fuel : nat) (s : WatchState) (signals : list signal) :
    list (result Status WatchEvent) * bool :=
  match fuel with
  | O => ([], false)
  | S fuel =>
      match watch_next s signals with
      | (Item r (Some s'), rest) =>
          let '(out, done) := watch_stream fuel s' rest in (r :: out, done)
      | (Item r None, _) => ([r], true)
      | (End, _) => ([], true)
      | (Pending, _) => ([], false)
      end
  end.

End grpc.

Global Arguments Api F B G : clear implicits, assert.

(** ** Scan bounds *)

(** Below a byte raised by one, above the byte followed by all-ones: exactly the
    strings that start that way. *)
Lemma all_ones_le n r : (replicate n xff ≤ r)%bytes ↔ replicate n xff `prefix_of` r.
Proof.
  revert r. induction n as [|n IH]; intros r; simpl.
  { split; [intros; apply prefix_nil|intros _; by destruct r]. }
  destruct r as [|b r].
  { split; [done|]. intros H%prefix_nil_inv. done. }
  unfold bytes_le in *. simpl. pose proof (byte_Z_range b) as Hb.
  change (byte_Z xff) with 255.
  destruct (Z.ltb_spec (byte_Z b) 255) as [Hlt|Hge].
  { split; [done|]. intros Hp. apply prefix_cons_inv_1 in Hp as <-. change (byte_Z xff) with 255 in Hlt. lia. }
  destruct (Z.ltb_spec 255 (byte_Z b)); [lia|].
  assert (b = xff) as -> by (apply byte_Z_inj; change (byte_Z xff) with 255; lia).
  rewrite IH. split; [apply prefix_cons|apply prefix_cons_inv_2].
Qed.

Lemma next_bound_shape q b n :
  b ≠ xff →
  next_prefix_bound (q ++ [b] ++ replicate n xff) = q ++ [byte_of_Z (byte_Z b + 1)].
Proof.
  intros Hb. unfold next_prefix_bound. rewrite !rev_app_distr.
  assert (rev (replicate n xff) = replicate n xff) as ->.
  { induction n as [|n IH]; [done|]. simpl. rewrite IH. by rewrite <-replicate_cons_app. }
  rewrite <-app_assoc. induction n as [|n IH]; simpl.
  - rewrite decide_False by done. by rewrite rev_involutive.
  - by rewrite <-IH.
Qed.

Lemma between_bounds q b n k :
  b ≠ xff →
  (q ++ [b] ++ replicate n xff ≤ k)%bytes ∧ (k < q ++ [byte_of_Z (byte_Z b + 1)])%bytes ↔
  (q ++ [b] ++ replicate n xff) `prefix_of` k.
Proof.
  intros Hb. pose proof (byte_Z_range b) as Hr.
  assert (byte_Z b ≠ 255) as Hne by (intros E; apply Hb, byte_Z_inj; by rewrite E).
  assert (byte_Z (byte_of_Z (byte_Z b + 1)) = byte_Z b + 1) as Hsucc
    by (rewrite byte_Z_of_Z; apply Z.mod_small; lia).
  split.
  - intros [Hlo Hhi].
    assert (q `prefix_of` k) as [r ->].
    { apply (prefix_convex q ([b] ++ replicate n xff) [byte_of_Z (byte_Z b + 1)]); [done|].
      apply bytes_le_lteq. by left. }
    unfold bytes_le, bytes_lt in *. rewrite bytes_ltb_app in Hlo, Hhi. apply prefix_app.
    destruct r as [|c r]; [done|]. simpl in Hlo, Hhi. rewrite Hsucc in Hhi.
    destruct (Z.ltb_spec (byte_Z c) (byte_Z b)); [done|].
    destruct (Z.ltb_spec (byte_Z b) (byte_Z c)) as [Hlt|Hge].
    { destruct (Z.ltb_spec (byte_Z c) (byte_Z b + 1)); [lia|].
      destruct (Z.ltb_spec (byte_Z b + 1) (byte_Z c)); [done|]. by destruct r. }
    assert (c = b) as -> by (apply byte_Z_inj; lia). simpl. apply prefix_cons.
    by apply all_ones_le.
  - intros [r ->]. split; [apply bytes_le_app_r|].
    unfold bytes_lt. rewrite <-!app_assoc, bytes_ltb_app. simpl. rewrite Hsucc.
    by rewrite (proj2 (Z.ltb_lt _ _)) by lia.
Qed.

(** Every prefix that is not all ones has the shape above. *)
Lemma prefix_shape p :
  (∃ n, p = replicate n xff) ∨ ∃ q b n, b ≠ xff ∧ p = q ++ [b] ++ replicate n xff.
Proof.
  induction p as [|b p IH]; [left; by exists 0%nat|].
  destruct IH as [[n ->]|(q & b' & n & Hb & ->)].
  - destruct (decide (b = xff)) as [-> |Hb].
    + left. by exists (S n).
    + right. by exists [], b, n.
  - right. by exists (b :: q), b', n.
Qed.

Lemma scan_bounds_spec t u bounds :
  encode_data_scan_bounds t u = Ok bounds →
  1 ≤ len t ≤ 255 ∧ bounds_start bounds = data_key t u ∧ strip_len bounds = len t + 2 ∧
  (bounds_start bounds ≤ bounds_end bounds)%bytes ∧
  ∀ k, key_in_range (bounds_start bounds) (bounds_end bounds) k = true ↔
       data_key t u `prefix_of` k.
Proof.
  unfold encode_data_scan_bounds, encode_subspace_prefix. unfold_monad.
  destruct (KeyCodec.encode t Data []) as [sp| |] eqn:E; [|done..].
  apply encode_Ok in E as [Hl ->]. rewrite app_nil_r.
  change (frame t Data ++ u) with (data_key t u). intros Heq.
  assert (bounds = Build_ScanBounds (data_key t u) (next_prefix_bound (data_key t u))
            (len (frame t Data))) as -> by congruence.
  clear Heq. cbn [bounds_start bounds_end strip_len].
  destruct (prefix_shape (data_key t u)) as [[n Hn]|(q & b & n & Hb & Hshape)].
  { exfalso. assert (x01 ∈ data_key t u) as Hin.
    { unfold data_key, frame. apply elem_of_app. left. apply elem_of_app. right. by left. }
    rewrite Hn in Hin. by apply elem_of_replicate in Hin as [? _]. }
  split_and!; [lia|lia|done|rewrite len_frame; lia| |].
  - rewrite Hshape, next_bound_shape by done. apply bytes_le_lteq. left.
    pose proof (proj2 (between_bounds q b n (q ++ [b] ++ replicate n xff) Hb)) as H.
    apply H. by exists []; rewrite app_nil_r.
  - intros k. rewrite Hshape, next_bound_shape by done. rewrite <-(between_bounds q b n k Hb).
    unfold key_in_range, bytes_le, bytes_lt. by rewrite andb_true_iff, negb_true_iff.
Qed.
