(* ===== verification/GrpcSpec.v ===== *)
(** * What the gRPC handlers guarantee

    Authorization, the effect of each call on the node and on the audit trail,
    exact scans and their chunking, batches, and the watch stream, for the
    handlers of [Grpc]. *)

From Stdlib Require Import Strings.Byte.
From S2P Require Import Prelude Bytes Core KeyCodec ValueCodec Storage Wal TtlIndex Quota.
From S2P Require Import Throttle Watch Config Service Node NodeSpec Sample Auth Grpc.

(** ** Authorization *)

(** Who may do what: anonymous callers (an insecure node) anything; an
    authenticated one only on its own tenant, with the permission or "admin". *)
Definition may {T} (req : Request T) (tenant perm : bytes) : Prop :=
  match principal req with
  | None => False
  | Some Anonymous => True
  | Some (Authenticated c) =>
      claim_tenant c = tenant ∧ (lit "admin" ∈ perms c ∨ perm ∈ perms c)
  end.

Lemma Claims_allows_spec c perm :
  Claims_allows c perm = true ↔ lit "admin" ∈ perms c ∨ perm ∈ perms c.
Proof.
  unfold Claims_allows. rewrite existsb_exists. split.
  - intros (p & Hin%list_elem_of_In & Hp). apply orb_true_iff in Hp as [Hp|Hp];
      apply bool_decide_eq_true in Hp as ->; auto.
  - intros [H|H]; apply list_elem_of_In in H; eexists; (split; [exact H|]).
    + by rewrite bool_decide_true.
    + by rewrite (bool_decide_true (perm = perm)), orb_true_r.
Qed.

Lemma authorize_spec {T} (req : Request T) tenant perm :
  authorize req tenant perm = Ok tt ∧ may req tenant perm ∨
  (∃ st, authorize req tenant perm = Err st) ∧ ¬ may req tenant perm.
Proof.
  unfold authorize, may. unfold_monad. destruct (principal req) as [[|c]|]; simpl; [by left| |].
  - case_bool_decide as Ht; simpl; [|right; naive_solver].
    pose proof (Claims_allows_spec c perm). destruct (Claims_allows c perm); simpl; naive_solver.
  - right. eauto.
Qed.

Lemma authorize_may {T} (req : Request T) tenant perm :
  may req tenant perm → authorize req tenant perm = Ok tt.
Proof. by destruct (authorize_spec req tenant perm) as [[]|[]]. Qed.

Lemma authorize_refuses {T} (req : Request T) tenant perm :
  ¬ may req tenant perm → ∃ st, authorize req tenant perm = Err st.
Proof. by destruct (authorize_spec req tenant perm) as [[]|[]]. Qed.

Lemma check_tenant_spec t : check_tenant t = Ok tt ↔ 1 ≤ len t ≤ 255.
Proof.
  unfold check_tenant. pose proof (len_nonneg t).
  destruct (Z.eqb_spec (len t) 0); [split; [done|lia]|].
  destruct (Z.ltb_spec 255 (len t)); split; (done || lia).
Qed.

Lemma encode_data_key_ok t p : 1 ≤ len t ≤ 255 → encode_data_key t p = Ok (data_key t p).
Proof. intros. unfold encode_data_key. by rewrite encode_ok. Qed.

(** ** Chunks *)

(** Full chunks, then at most one shorter one. *)
Definition well_chunked (chunks : list ScanChunk) : Prop :=
  ∃ full last, chunks = full ++ last ∧
    Forall (λ c, length (chunk_entries c) = SCAN_CHUNK_SIZE) full ∧
    (last = [] ∨ ∃ c, last = [c] ∧ (0 < length (chunk_entries c) < SCAN_CHUNK_SIZE)%nat).

Lemma chunk_loop_spec items cur chunks :
  (length cur < SCAN_CHUNK_SIZE)%nat →
  Forall (λ c, length (chunk_entries c) = SCAN_CHUNK_SIZE) chunks →
  well_chunked (chunk_loop items cur chunks) ∧
  (chunk_loop items cur chunks ≫= chunk_entries) = (chunks ≫= chunk_entries) ++ cur ++ items.
Proof.
  revert cur chunks. induction items as [|kv items IH]; intros cur chunks Hcur Hfull; cbn [chunk_loop]; cbv zeta.
  - rewrite app_nil_r. case_bool_decide as Hnil.
    + subst. split; [exists chunks, []; rewrite app_nil_r; auto|by rewrite app_nil_r].
    + split; [|by rewrite bind_app; simpl; rewrite app_nil_r].
      exists chunks, [{| chunk_entries := cur |}]. split_and!; [done|done|right].
      eexists. split; [done|]. simpl. destruct cur; [done|simpl in *; lia].
  - assert (length (cur ++ [kv]) = S (length cur)) as Hl by (rewrite length_app; simpl; lia).
    destruct (Nat.leb_spec SCAN_CHUNK_SIZE (length (cur ++ [kv]))) as [Hge|Hlt].
    + destruct (IH [] (chunks ++ [{| chunk_entries := cur ++ [kv] |}])) as [H1 H2].
      * unfold SCAN_CHUNK_SIZE. cbn [length]. lia.
      * apply Forall_app. split; [done|]. repeat constructor. simpl. lia.
      * split; [done|]. rewrite H2, bind_app. simpl. by rewrite app_nil_r, <-!app_assoc.
    + destruct (IH (cur ++ [kv]) chunks) as [H1 H2]; [lia|done|].
      split; [done|]. by rewrite H2, <-app_assoc.
Qed.

Lemma strip_entries_ok t l :
  strip_entries (len t + 2) ((λ kv : bytes * bytes, (data_key t kv.1, kv.2)) <$> l) =
  Ok ((λ kv, mkKeyValue kv.1 kv.2) <$> l).
Proof.
  induction l as [|[k v] l IH]; [done|]. rewrite !fmap_cons. cbn [strip_entries fst snd].
  assert (slice_from (E:=Status) (data_key t k) (len t + 2) = Ok k) as Hs
    by (apply slice_from_app; rewrite len_frame; lia).
  unfold mbind, result_bind. by rewrite Hs, IH.
Qed.

(** Removing a common prefix keeps strict order. *)
Lemma sorted_strip t (L : list (bytes * bytes)) :
  StronglySorted bytes_lt (((λ kv : bytes * bytes, (data_key t kv.1, kv.2)) <$> L).*1) →
  StronglySorted bytes_lt (L.*1).
Proof.
  induction L as [|[k v] L IH]; csimpl; [constructor|].
  intros [Hs Hk]%StronglySorted_inv. constructor; [by apply IH|].
  rewrite !Forall_fmap in Hk. rewrite Forall_fmap. eapply Forall_impl; [exact Hk|].
  intros [k' v']. simpl. unfold bytes_lt, data_key. by rewrite bytes_ltb_app.
Qed.

(** Entries that all lie under a tenant's data prefix are user keys with the
    prefix put in front. *)
Lemma entries_under t (l : list (bytes * bytes)) :
  (∀ kv, kv ∈ l → frame t Data `prefix_of` kv.1) →
  ∃ L, l = (λ kv : bytes * bytes, (data_key t kv.1, kv.2)) <$> L.
Proof.
  induction l as [|[k v] l IH]; intros Hp; [by exists []|].
  destruct IH as [L ->]; [intros kv Hin; apply Hp; by right|].
  destruct (Hp (k, v)) as [k' Hk]; [by left|]. simpl in Hk. subst. by exists ((k', v) :: L).
Qed.

Lemma prefix_data_key t u k : data_key t u `prefix_of` data_key t k ↔ u `prefix_of` k.
Proof. unfold data_key. split; [apply prefix_app_inv|apply prefix_app]. Qed.

(** ** The handlers *)

Section spec.
Context {F : Fjall} {FS : FjallSpec} {FO : FjallOk}.
Context {B : Broadcast} {G : Governor} {C : Crc32} {CO : Crc32Ok} {J : QuotaJson} {H3 : Blake3}.

Abbreviation Api := (Api F B G).

Definition node (a : Api) : NodeService (F:=F) (B:=B) (G:=G) := inner a.
Definition stored (a : Api) : gmap bytes bytes := view (storage (inner a)).

(** Admission touches the rate limiters only. *)
Lemma admit_frame g t cost a :
  ∃ r th, admit_rpc g t cost a = (r, mkApi (set_throttle th (inner a)) (audit_log a)).
Proof.
  unfold admit_rpc, in_service, admit_ops, in_throttle. unfold_monad.
  destruct (check _ _ _ _ _) as [[[]| |] th]; by eexists _, _.
Qed.

Lemma admit_Ok_frame g t cost a a' :
  admit_rpc g t cost a = (Ok tt, a') →
  ∃ th, a' = mkApi (set_throttle th (inner a)) (audit_log a).
Proof. destruct (admit_frame g t cost a) as (r & th & ->). intros [= _ <-]. by exists th. Qed.

(** A tenant without a rate, on a node without a default, is not limited. *)
Lemma admit_unlimited g t cost a :
  max_ops_per_sec (quota (quota_store (inner a)) t) = 0 →
  default_ops_per_sec (throttle (inner a)) = 0 →
  admit_rpc g t cost a = (Ok tt, a).
Proof.
  intros Hq Hd. unfold admit_rpc, in_service, admit_ops, in_throttle. unfold_monad.
  unfold check. rewrite Hq, Hd. simpl. by destruct a as [[] ?].
Qed.

(** One step of a handler whose next action succeeds. *)
Lemma step_lift {A S E} (r : result E A) (x : A) {X} (f : A → M S E X) s :
  r = Ok x → (lift r ≫= f) s = f x s.
Proof. by intros ->. Qed.

Lemma step_lift_err {A S E} (r : result E A) e {X} (f : A → M S E X) s :
  r = Err e → (lift r ≫= f) s = (Err e, s).
Proof. by intros ->. Qed.

(** C10: a scan is exact.  For an authorized and admitted request, the chunks
    concatenate to the first entries, up to the capped limit, of the list of the
    tenant's visible entries whose key starts with the prefix, in strictly
    increasing key order, with the user's keys; every chunk but the last is full,
    none is empty, and nothing but the rate limiter is touched. *)
Theorem scan_rpc_exact g sys req a a' (Hn : node_ok (inner a)) (Hh : healthy (storage (inner a)))
    (Ht : 1 ≤ len (scan_tenant (get_ref req)) ≤ 255)
    (Hmay : may req (scan_tenant (get_ref req)) PERM_READ)
    (Hadm : admit_rpc g (scan_tenant (get_ref req)) 1 a = (Ok tt, a')) :
  let '{| scan_tenant := t; scan_prefix := u; scan_limit := n |} := get_ref req in
  ∃ chunks L, scan_impl g sys req a = (Ok chunks, a') ∧
    (∀ k v, (k, v) ∈ L ↔
       u `prefix_of` k ∧ visible (stored a) (now (inner a) sys) (data_key t k) = Some v) ∧
    StronglySorted bytes_lt (L.*1) ∧
    (chunks ≫= chunk_entries) =
      (λ kv, mkKeyValue kv.1 kv.2) <$> take (Z.to_nat (cap_scan_limit a n)) L ∧
    well_chunked chunks.
Proof.
  destruct (get_ref req) as [t u n] eqn:Hreq. cbn [scan_tenant] in *.
  destruct (admit_Ok_frame _ _ _ _ _ Hadm) as [th Ha'].
  destruct (encode_data_scan_bounds t u) as [bounds|e|] eqn:Eb;
    [|by unfold encode_data_scan_bounds, encode_subspace_prefix in Eb; rewrite encode_ok in Eb..].
  destruct (scan_bounds_spec t u bounds Eb) as (_ & Hstart & Hstrip & Hle & Hrange).
  pose proof (filtered_entries (key_in_range (bounds_start bounds) (bounds_end bounds))
    (stored a) (now (inner a) sys)) as [Hin Hsort].
  set (l := omap _ _) in Hin, Hsort.
  destruct (entries_under t l) as [L HL].
  { intros [k v] [_ Hk%Hrange]%Hin. etrans; [|exact Hk]. by exists u. }
  destruct (chunk_loop_spec ((λ kv, mkKeyValue kv.1 kv.2) <$> take (Z.to_nat (cap_scan_limit a n)) L)
    [] []) as [Hc1 Hc2]; [unfold SCAN_CHUNK_SIZE; cbn [length]; lia|done|].
  eexists _, L. split_and!; [|..|exact Hc2|exact Hc1].
  - unfold scan_impl. rewrite Hreq. cbn [scan_tenant scan_prefix scan_limit].
    rewrite (step_lift _ tt) by (by apply check_tenant_spec).
    rewrite (step_lift _ tt) by (by apply authorize_may).
    rewrite (M_bind_ok _ _ _ _ _ Hadm), (step_lift _ bounds) by done.
    rewrite (M_bind_ok _ _ _ l a').
    2: { unfold ask. rewrite scan_range_runs by (by subst a'). by subst a'. }
    erewrite M_bind_ok by reflexivity. rewrite Hstrip.
    replace (cap_scan_limit a' n) with (cap_scan_limit a n) by (by subst a').
    rewrite HL, <-fmap_take, (step_lift _ _ _ _ (strip_entries_ok t _)). done.
  - intros k v. specialize (Hin (data_key t k) v). rewrite Hrange, prefix_data_key in Hin.
    rewrite (and_comm (u `prefix_of` k)), <-Hin, HL, list_elem_of_fmap. split.
    + intros ?. by exists (k, v).
    + intros ([k' v'] & Heq & Hin'). injection Heq as Hk ->.
      by assert (k = k') as -> by (by eapply app_inv_head).
  - apply (sorted_strip t). by rewrite <-HL.
Qed.

(** The gate of every handler. *)
Lemma gate_refuses g sys instant a :
  (∀ req, ¬ may req (get_tenant (get_ref req)) PERM_READ →
     ∃ st, get_impl g sys req a = (Err st, a)) ∧
  (∀ req, ¬ may req (put_tenant (get_ref req)) PERM_WRITE →
     ∃ st, put_impl g sys req a = (Err st, a)) ∧
  (∀ req, ¬ may req (del_tenant (get_ref req)) PERM_DELETE →
     ∃ st, delete_impl g sys req a = (Err st, a)) ∧
  (∀ req, ¬ may req (scan_tenant (get_ref req)) PERM_READ →
     ∃ st, scan_impl g sys req a = (Err st, a)) ∧
  (∀ req, ¬ may req (watch_tenant (get_ref req)) PERM_WATCH →
     ∃ st, watch_impl g instant req a = (Err st, a)) ∧
  (∀ req op, op ∈ ops (get_ref req) →
     op_code op = OP_PUT ∧ ¬ may req (batch_tenant (get_ref req)) PERM_WRITE ∨
     op_code op = OP_DELETE ∧ ¬ may req (batch_tenant (get_ref req)) PERM_DELETE →
     ∃ st, batch_impl g sys req a = (Err st, a)).
Proof.
  assert (∀ {T X} (req : Request T) t perm (f : unit → M Api Status X),
    ¬ may req t perm →
    ∃ st, (lift (check_tenant t);; (lift (authorize req t perm) ≫= f)) a = (Err st, a)) as Hgate.
  { intros T X req t perm f [st Hst]%authorize_refuses.
    destruct (check_tenant t) as [[]|st'|] eqn:E; [|by eexists; rewrite (step_lift_err _ st')|].
    - exists st. by rewrite (step_lift _ tt), (step_lift_err _ st).
    - unfold check_tenant in E. by repeat case_match. }
  split_and!; [intros req H; exact (Hgate _ _ req _ _ _ H)..|].
  intros req op Hin Hop. unfold batch_impl.
  destruct (check_tenant (batch_tenant (get_ref req))) as [[]|st|] eqn:E;
    [|by eexists; rewrite (step_lift_err _ st)|unfold check_tenant in E; by repeat case_match].
  rewrite (step_lift _ tt) by done. cbv zeta.
  assert (∀ c, op_code op = c → existsb (λ o, op_code o =? c) (ops (get_ref req)) = true) as Hex.
  { intros c Hc. apply existsb_exists. exists op. split; [by apply list_elem_of_In|].
    by apply Z.eqb_eq. }
  destruct Hop as [[Hc [st Hst]%authorize_refuses]|[Hc [st Hst]%authorize_refuses]].
  - rewrite (Hex _ Hc). cbn [when]. exists st. by rewrite (step_lift_err _ st).
  - rewrite (Hex _ Hc). cbn [when].
    destruct (existsb _ _); cbn [when].
    + destruct (authorize req _ PERM_WRITE) as [[]|st'|] eqn:E'.
      * exists st. by rewrite (step_lift _ tt), (step_lift_err _ st).
      * exists st'. by rewrite (step_lift_err _ st').
      * destruct (authorize_spec req (batch_tenant (get_ref req)) PERM_WRITE) as [[]|[[]]]; congruence.
    + exists st. rewrite (M_bind_ok _ _ _ tt a) by done. by rewrite (step_lift_err _ st).
Qed.

(** C22: without the permission, nothing happens.  A call whose caller may not do
    what it asks on the tenant it names (or carries no principal at all) fails and
    leaves the node, its rate limiters and the audit trail exactly as they were;
    the same holds of a batch with a put or a delete the caller may not do. *)
Theorem unauthorized_calls_change_nothing g sys instant a :
  (∀ req, ¬ may req (get_tenant (get_ref req)) PERM_READ →
     ∃ st, get_impl g sys req a = (Err st, a)) ∧
  (∀ req, ¬ may req (put_tenant (get_ref req)) PERM_WRITE →
     ∃ st, put_impl g sys req a = (Err st, a)) ∧
  (∀ req, ¬ may req (del_tenant (get_ref req)) PERM_DELETE →
     ∃ st, delete_impl g sys req a = (Err st, a)) ∧
  (∀ req, ¬ may req (scan_tenant (get_ref req)) PERM_READ →
     ∃ st, scan_impl g sys req a = (Err st, a)) ∧
  (∀ req, ¬ may req (watch_tenant (get_ref req)) PERM_WATCH →
     ∃ st, watch_impl g instant req a = (Err st, a)) ∧
  (∀ req op, op ∈ ops (get_ref req) →
     op_code op = OP_PUT ∧ ¬ may req (batch_tenant (get_ref req)) PERM_WRITE ∨
     op_code op = OP_DELETE ∧ ¬ may req (batch_tenant (get_ref req)) PERM_DELETE →
     ∃ st, batch_impl g sys req a = (Err st, a)).
Proof. apply gate_refuses. Qed.

Lemma enforce_key_size_spec key a :
  (len key ≤ max_key_size (limits_of a) → enforce_key_size key a = (Ok tt, a)) ∧
  (max_key_size (limits_of a) < len key →
     ∃ st, enforce_key_size key a = (Err st, a) ∧ code st = InvalidArgument).
Proof.
  unfold enforce_key_size. destruct (Z.ltb_spec (max_key_size (limits_of a)) (len key));
    split; intros; try lia; eauto.
Qed.

Lemma enforce_value_size_spec v a :
  (len v ≤ max_value_size (limits_of a) → enforce_value_size v a = (Ok tt, a)) ∧
  (max_value_size (limits_of a) < len v →
     ∃ st, enforce_value_size v a = (Err st, a) ∧ code st = ResourceExhausted).
Proof.
  unfold enforce_value_size. destruct (Z.ltb_spec (max_value_size (limits_of a)) (len v));
    split; intros; try lia; eauto.
Qed.

(** The limits and the node's other parts survive admission. *)
Lemma admit_keeps g t cost a a' :
  admit_rpc g t cost a = (Ok tt, a') →
  limits_of a' = limits_of a ∧ stored a' = stored a ∧ audit_log a' = audit_log a ∧
  storage (inner a') = storage (inner a) ∧ quota_store (inner a') = quota_store (inner a) ∧
  (∀ sys, now (inner a') sys = now (inner a) sys) ∧
  (node_ok (inner a) → node_ok (inner a')) ∧
  (∀ l, env_ok (inner a) l → env_ok (inner a') l).
Proof.
  intros [th ->]%admit_Ok_frame. split_and!; try done.
  - intros []. by split.
  - intros l []. by split.
Qed.

Definition get_response (o : option bytes) : GetResponse :=
  match o with
  | Some v => {| found := true; got := v; got_version := 0 |}
  | None => {| found := false; got := []; got_version := 0 |}
  end.

Lemma get_impl_runs g sys req a a' :
  let '{| get_tenant := t; get_key := k |} := get_ref req in
  node_ok (inner a) → healthy (storage (inner a)) → 1 ≤ len t ≤ 255 →
  may req t PERM_READ → admit_rpc g t 1 a = (Ok tt, a') →
  len k ≤ max_key_size (limits_of a) →
  get_impl g sys req a =
    (Ok (get_response (visible (stored a) (now (inner a) sys) (data_key t k))), a').
Proof.
  destruct (get_ref req) as [t k] eqn:Hreq. intros Hn Hh Ht Hmay Hadm Hk.
  destruct (admit_keeps _ _ _ _ _ Hadm) as (Hlim & Hst & _ & Hsto & _ & Hnow & Hn' & _).
  unfold get_impl. rewrite Hreq. cbn [get_tenant get_key].
  rewrite (step_lift _ tt) by (by apply check_tenant_spec).
  rewrite (step_lift _ tt) by (by apply authorize_may).
  rewrite (M_bind_ok _ _ _ _ _ Hadm).
  rewrite (M_bind_ok _ _ _ tt a') by (apply enforce_key_size_spec; by rewrite Hlim).
  rewrite (step_lift _ (data_key t k)) by (by apply encode_data_key_ok).
  erewrite M_bind_ok; [|unfold ask; rewrite get_runs by (rewrite Hsto; first [done|apply Hn]); done].
  unfold mret, M_ret, get_response. rewrite Hsto, Hnow. fold (stored a). by destruct (visible _ _ _).
Qed.

Lemma in_service_run {A} (m : M (NodeService (F:=F) (B:=B) (G:=G)) Error A) a r s :
  m (inner a) = (r, s) → in_service m a = (map_err to_status r, mkApi s (audit_log a)).
Proof. intros H. unfold in_service, mapM_err. by rewrite (zoom_run _ _ _ _ _ _ H). Qed.

(** The record a write leaves in the audit trail. *)
Definition write_record {T} (req : Request T) (t : bytes) (op : string) (k : bytes) (n : Z) :=
  mkAudit (principal_label (principal_or_anonymous req)) t op (KeyHash_of k) n.

Lemma put_impl_step g sys req a a' :
  let '{| put_tenant := t; put_key := k; put_value := v; ttl_ms := ttl |} := get_ref req in
  1 ≤ len t ≤ 255 → may req t PERM_WRITE → admit_rpc g t 1 a = (Ok tt, a') →
  len k ≤ max_key_size (limits_of a) → len v ≤ max_value_size (limits_of a) →
  put_impl g sys req a =
    match put_with_ttl sys (data_key t k) v ttl (inner a') with
    | (Ok _, s) => (Ok {| put_version := 0 |},
                    mkApi s (audit_log a ++ [write_record req t "put" k (len v)]))
    | (Err e, s) => (Err (to_status e), mkApi s (audit_log a))
    | (Panic, s) => (Panic, mkApi s (audit_log a))
    end.
Proof.
  destruct (get_ref req) as [t k v ttl] eqn:Hreq. intros Ht Hmay Hadm Hk Hv.
  destruct (admit_keeps _ _ _ _ _ Hadm) as (Hlim & _ & Haud & _).
  unfold put_impl. rewrite Hreq. cbn [put_tenant put_key put_value ttl_ms].
  rewrite (step_lift _ tt) by (by apply check_tenant_spec).
  rewrite (step_lift _ tt) by (by apply authorize_may).
  rewrite (M_bind_ok _ _ _ _ _ Hadm). cbv zeta.
  rewrite (M_bind_ok _ _ _ tt a') by (apply enforce_key_size_spec; by rewrite Hlim).
  rewrite (M_bind_ok _ _ _ tt a') by (apply enforce_value_size_spec; by rewrite Hlim).
  rewrite (step_lift _ (data_key t k)) by (by apply encode_data_key_ok).
  destruct (put_with_ttl _ _ _ _ _) as [[[]|e|] s] eqn:E; unfold mbind at 1, M_bind at 1;
    rewrite (in_service_run _ _ _ _ E); cbn [map_err]; by rewrite ?Haud.
Qed.

Lemma put_impl_oversize g sys req a a' :
  let '{| put_tenant := t; put_key := k; put_value := v |} := get_ref req in
  1 ≤ len t ≤ 255 → may req t PERM_WRITE → admit_rpc g t 1 a = (Ok tt, a') →
  max_key_size (limits_of a) < len k ∨ max_value_size (limits_of a) < len v →
  ∃ st, put_impl g sys req a = (Err st, a') ∧
    code st = if max_key_size (limits_of a) <? len k then InvalidArgument else ResourceExhausted.
Proof.
  destruct (get_ref req) as [t k v ttl] eqn:Hreq. intros Ht Hmay Hadm Hbig.
  destruct (admit_keeps _ _ _ _ _ Hadm) as (Hlim & _). rewrite <-Hlim in *.
  unfold put_impl. rewrite Hreq. cbn [put_tenant put_key put_value ttl_ms].
  rewrite (step_lift _ tt) by (by apply check_tenant_spec).
  rewrite (step_lift _ tt) by (by apply authorize_may).
  rewrite (M_bind_ok _ _ _ _ _ Hadm). cbv zeta.
  destruct (Z.ltb_spec (max_key_size (limits_of a')) (len k)) as [Hk|Hk].
  - destruct (proj2 (enforce_key_size_spec k a') Hk) as (st & E & Hc).
    exists st. by rewrite (M_bind_err _ _ _ _ _ E).
  - rewrite (M_bind_ok _ _ _ tt a') by (by apply enforce_key_size_spec).
    destruct (proj2 (enforce_value_size_spec v a')) as (st & E & Hc); [lia|].
    exists st. by rewrite (M_bind_err _ _ _ _ _ E).
Qed.

Lemma check_write_error s t d e : check_write s t d = Err e → code (to_status e) = ResourceExhausted.
Proof. unfold check_write. intros H. repeat case_match; by simplify_eq. Qed.

(** C9: the put call, end to end.  An authorized and admitted put of a key or value
    over the node's limits, or one its tenant's quota has no room for, is refused
    with the matching status and changes nothing but the rate limiter.  Otherwise
    it succeeds, one audit record naming the caller, the tenant, the hash of the
    key and the size of the value is added, and every later authorized and
    admitted get, of any tenant and key, returns what it returned before, except
    on the written key, which returns the written value until its time to live is
    over. *)
Theorem put_rpc_then_get g sys req a a' l (Hn : node_ok (inner a)) (Henv : env_ok (inner a) l)
    (Ht : valid_tenant (put_tenant (get_ref req)))
    (Hmay : may req (put_tenant (get_ref req)) PERM_WRITE)
    (Hadm : admit_rpc g (put_tenant (get_ref req)) 1 a = (Ok tt, a')) :
  let '{| put_tenant := t; put_key := k; put_value := v; ttl_ms := ttl |} := get_ref req in
  let exp := expiry (inner a) sys ttl in
  write_fits (inner a) t (data_key t k) (ValueCodec.encode v exp) →
  let oversize := max_key_size (limits_of a) < len k ∨ max_value_size (limits_of a) < len v in
  let refused := ∃ e, check_write (quota_store (inner a)) t (growth (inner a) t k v) = Err e in
  (oversize → ∃ st, put_impl g sys req a = (Err st, a') ∧
     code st = if max_key_size (limits_of a) <? len k then InvalidArgument else ResourceExhausted) ∧
  (¬ oversize → refused →
     ∃ st, put_impl g sys req a = (Err st, a') ∧ code st = ResourceExhausted) ∧
  (¬ oversize → ¬ refused → ∃ a2,
     put_impl g sys req a = (Ok {| put_version := 0 |}, a2) ∧
     audit_log a2 = audit_log a ++ [write_record req t "put" k (len v)] ∧
     ∀ g' sys' req' a3, let '{| get_tenant := t'; get_key := k' |} := get_ref req' in
       valid_tenant t' → may req' t' PERM_READ → len k' ≤ max_key_size (limits_of a) →
       admit_rpc g' t' 1 a2 = (Ok tt, a3) →
       get_impl g' sys' req' a2 = (Ok (get_response
         (if decide ((t', k') = (t, k)) then
            (if (match exp with Some e => e <=? now (inner a) sys' | None => false end : bool)
             then None else Some v)
          else visible (stored a) (now (inner a) sys') (data_key t' k'))), a3)).
Proof.
  pose proof (put_impl_oversize g sys req a a') as Hbig.
  pose proof (put_impl_step g sys req a a') as Hstep.
  destruct (get_ref req) as [t k v ttl] eqn:Hreq. cbn [put_tenant] in *.
  intros Hfit. pose proof (proj2 Ht) as Hlen.
  destruct (admit_Ok_frame _ _ _ _ _ Hadm) as [th Ha'].
  destruct (admit_keeps _ _ _ _ _ Hadm) as (_ & _ & _ & Hsto & Hqs & _ & Hn' & He').
  specialize (Hn' Hn). specialize (He' _ Henv).
  split_and!; [intros Ho; by apply Hbig|intros Ho [e He]|intros Ho Hr].
  - exists (to_status e). split; [|by eapply check_write_error].
    rewrite Hstep by (done || lia).
    rewrite (put_refused _ _ _ _ _ _ l e); [by subst a'|done..| |by subst a'].
    eapply (write_fits_len (inner a)); [apply Hn|done|apply expiry_u64, Henv|apply Hfit].
  - destruct (check_write_cases (quota_store (inner a)) t (growth (inner a) t k v)) as [Hok|(? & ? & He)];
      [|by destruct Hr; eauto].
    destruct (put_runs sys t k v ttl (inner a') l Hn' He' Ht) as (s' & l' & E & Heff);
      [by subst a'; destruct Hfit|by subst a'|].
    rewrite Hstep, E by (done || lia).
    eexists. split_and!; [done|done|]. intros g' sys' req' a3.
    pose proof (get_impl_runs g' sys' req' (mkApi s'
      (audit_log a ++ [write_record req t "put" k (len v)])) a3) as Hget.
    destruct (get_ref req') as [t' k']. intros Ht' Hmay' Hk' Hadm'.
    rewrite Hget; [|apply Heff|apply Heff|apply Ht'|done|done|].
    + do 3 f_equal. unfold stored. cbn [inner].
      rewrite (visible_agree _ _ _ _ (we_data _ _ _ _ _ _ Heff _ (ex_intro _ t' (ex_intro _ k' (conj Ht' eq_refl))))).
      assert (now s' sys' = now (inner a) sys') as ->
        by (unfold now; rewrite (we_clock _ _ _ _ _ _ Heff); by subst a').
      rewrite visible_insert by (apply expiry_u64, He'). subst a'.
      destruct (decide ((t', k') = (t, k))) as [Heq|Hne].
      * injection Heq as -> ->. by rewrite decide_True.
      * rewrite decide_False; [done|]. intros Heq. apply Hne.
        apply data_key_inj in Heq as [-> ->]; done.
    + unfold limits_of. cbn [inner]. rewrite (we_config _ _ _ _ _ _ Heff). by subst a'.
Qed.

(** ** Batches *)

Lemma enforce_batch_size_spec n a :
  (n ≤ max_batch_ops (limits_of a) → enforce_batch_size n a = (Ok tt, a)) ∧
  (max_batch_ops (limits_of a) < n → ∃ st, enforce_batch_size n a = (Err st, a)).
Proof.
  unfold enforce_batch_size. destruct (Z.ltb_spec (max_batch_ops (limits_of a)) n);
    split; intros; try lia; eauto.
Qed.

Lemma in_service_audit {A} (m : M (NodeService (F:=F) (B:=B) (G:=G)) Error A) a :
  audit_log (in_service m a).2 = audit_log a.
Proof. destruct (m (inner a)) as [r s] eqn:E. by rewrite (in_service_run _ _ _ _ E). Qed.

Definition batch_record (p : Principal) (t : bytes) (op : BatchOp) : AuditRecord :=
  mkAudit (principal_label p) t (if op_code op =? OP_PUT then "put" else "delete")
    (KeyHash_of (op_key op)) (len (op_value op)).

(** The middle of a batch operation: what it does to the node. *)
Lemma batch_write_audit sys op k a :
  let m := (if op_code op =? OP_PUT then
              in_service (put_with_ttl sys k (op_value op) 0);; mret "put"%string
            else if op_code op =? OP_DELETE then
              in_service (delete_key k);; mret "delete"%string
            else throw (invalid_argument ("unknown op code " +:+ pretty (op_code op)))) in
  audit_log (m a).2 = audit_log a ∧
  ∀ name, (m a).1 = Ok name → name = if op_code op =? OP_PUT then "put" else "delete".
Proof.
  cbv zeta. destruct (op_code op =? OP_PUT); [|destruct (op_code op =? OP_DELETE)]; [..|done].
  - pose proof (in_service_audit (put_with_ttl sys k (op_value op) 0) a) as H.
    unfold mbind, M_bind. destruct (in_service _ a) as [[[]| |] s]; simpl in *; naive_solver.
  - pose proof (in_service_audit (delete_key k) a) as H.
    unfold mbind, M_bind. destruct (in_service _ a) as [[[]| |] s]; simpl in *; naive_solver.
Qed.

(** Every operation of a batch that goes through leaves one record; one that fails
    leaves none. *)
Lemma batch_op_audit sys p t op a r a' :
  batch_op sys p t op a = (r, a') →
  audit_log a' = audit_log a ++ (if is_ok r then [batch_record p t op] else []).
Proof.
  unfold batch_op, mbind at 1, M_bind at 1.
  destruct (Z.le_gt_cases (len (op_key op)) (max_key_size (limits_of a))) as [Hk|Hk].
  2: { destruct (proj2 (enforce_key_size_spec (op_key op) a)) as (st & -> & _); [done|].
       intros [= <- <-]. by rewrite app_nil_r. }
  rewrite (proj1 (enforce_key_size_spec _ _) Hk). unfold mbind at 1, M_bind at 1.
  assert ((∃ st, when (op_code op =? OP_PUT) (enforce_value_size (op_value op)) a = (Err st, a)) ∨
          when (op_code op =? OP_PUT) (enforce_value_size (op_value op)) a = (Ok tt, a)) as [[st ->]| ->].
  { destruct (op_code op =? OP_PUT); [|by right]. cbn [when]. unfold enforce_value_size.
    case_match; eauto. }
  { intros [= <- <-]. by rewrite app_nil_r. }
  cbv zeta. unfold mbind at 1, M_bind at 1, lift.
  destruct (encode_data_key t (op_key op)) as [k|st|];
    [|intros [= <- <-]; by rewrite app_nil_r..].
  pose proof (batch_write_audit sys op k a) as Hw. cbv zeta in Hw. unfold mbind at 1, M_bind at 1.
  match type of Hw with audit_log (?m a).2 = _ ∧ _ => set (w := m) in * end.
  destruct (w a) as [[name|st|] s]; simpl in Hw; destruct Hw as [Hlog Hname].
  - intros [= <- <-]. simpl. by rewrite Hlog, (Hname name eq_refl).
  - intros [= <- <-]. by rewrite app_nil_r.
  - intros [= <- <-]. by rewrite app_nil_r.
Qed.

(** Running a batch: a prefix of its operations goes through, and the first one
    that does not ends it. *)
Lemma batch_ops_prefix sys p t os a :
  ∃ n a2, (n ≤ length os)%nat ∧
    for_each (batch_op sys p t) (take n os) a = (Ok tt, a2) ∧
    audit_log a2 = audit_log a ++ (batch_record p t <$> take n os) ∧
    (n = length os ∧ for_each (batch_op sys p t) os a = (Ok tt, a2) ∨
     ∃ op r a3, os !! n = Some op ∧ batch_op sys p t op a2 = (r, a3) ∧ is_ok r = false ∧
       for_each (batch_op sys p t) os a = (r, a3) ∧ audit_log a3 = audit_log a2).
Proof.
  revert a. induction os as [|op os IH]; intros a.
  { exists 0%nat, a. split_and!; [done|done|by rewrite app_nil_r|]. by left. }
  destruct (batch_op sys p t op a) as [r a1] eqn:E. pose proof (batch_op_audit _ _ _ _ _ _ _ E) as Hlog.
  destruct (is_ok r) eqn:Hr.
  - destruct r as [[]| |]; [|done..]. destruct (IH a1) as (n & a2 & Hn & Hrun & Haud & Hend).
    exists (S n), a2. cbn [take for_each length lookup]. split_and!.
    + lia.
    + by rewrite (M_bind_ok _ _ _ _ _ E).
    + rewrite Haud, Hlog, fmap_cons, <-app_assoc. done.
    + rewrite (M_bind_ok _ _ _ _ _ E).
      destruct Hend as [[-> Hend]|(o & r' & a3 & Ho & E1 & E2 & E3 & E4)]; [by left|right].
      by exists o, r', a3.
  - exists 0%nat, a. split_and!; [lia|done|by rewrite app_nil_r|]. right.
    exists op, r, a1. split_and!; [done..| |by rewrite Hlog, app_nil_r].
    cbn [for_each]. unfold mbind, M_bind. rewrite E. by destruct r.
Qed.

(** C23: batches apply in order, with an exact audit trail.  An authorized and
    admitted batch applies its operations one by one; there is a point up to which
    they all go through, each leaving one audit record in order.  Either that is
    the whole batch and the call succeeds, or the next operation is the first to
    fail, the call returns its error, what came before stays applied and nothing
    after it runs. *)
Theorem batch_applies_in_order g sys req a a1
    (Ht : 1 ≤ len (batch_tenant (get_ref req)) ≤ 255)
    (Hput : Exists (λ o, op_code o = OP_PUT) (ops (get_ref req)) →
            may req (batch_tenant (get_ref req)) PERM_WRITE)
    (Hdel : Exists (λ o, op_code o = OP_DELETE) (ops (get_ref req)) →
            may req (batch_tenant (get_ref req)) PERM_DELETE)
    (Hsize : len (ops (get_ref req)) ≤ max_batch_ops (limits_of a))
    (Hadm : admit_rpc g (batch_tenant (get_ref req))
              (Z.min (len (ops (get_ref req))) U32_MAX) a = (Ok tt, a1)) :
  let t := batch_tenant (get_ref req) in
  let os := ops (get_ref req) in
  let p := principal_or_anonymous req in
  ∃ n a2, (n ≤ length os)%nat ∧
    for_each (batch_op sys p t) (take n os) a1 = (Ok tt, a2) ∧
    audit_log a2 = audit_log a ++ (batch_record p t <$> take n os) ∧
    (n = length os ∧ batch_impl g sys req a = (Ok {| ok := true |}, a2) ∨
     ∃ op st a3, os !! n = Some op ∧ batch_op sys p t op a2 = (st, a3) ∧ is_ok st = false ∧
       is_ok (batch_impl g sys req a).1 = false ∧ (batch_impl g sys req a).2 = a3 ∧
       audit_log a3 = audit_log a2).
Proof.
  intros t os p. destruct (admit_keeps _ _ _ _ _ Hadm) as (_ & _ & Haud & _).
  assert (∀ c, existsb (λ o, op_code o =? c) os = true → Exists (λ o, op_code o = c) os) as Hex.
  { intros c (o & Hin%list_elem_of_In & Ho%Z.eqb_eq)%existsb_exists. apply Exists_exists. eauto. }
  assert (batch_impl g sys req a =
    (for_each (batch_op sys p t) os;; mret {| ok := true |}) a1) as ->.
  { unfold batch_impl. rewrite (step_lift _ tt) by (by apply check_tenant_spec). cbv zeta.
    fold t os p.
    rewrite (M_bind_ok _ _ _ tt a).
    2: { destruct (existsb _ _) eqn:E; [|done]. cbn [when]. unfold lift.
         by rewrite authorize_may by (by apply Hput, Hex). }
    rewrite (M_bind_ok _ _ _ tt a).
    2: { destruct (existsb _ _) eqn:E; [|done]. cbn [when]. unfold lift.
         by rewrite authorize_may by (by apply Hdel, Hex). }
    rewrite (M_bind_ok _ _ _ tt a) by (by apply enforce_batch_size_spec).
    by rewrite (M_bind_ok _ _ _ _ _ Hadm). }
  destruct (batch_ops_prefix sys p t os a1) as (n & a2 & Hn & Hrun & Hlog & Hend).
  exists n, a2. rewrite Haud in Hlog. split_and!; [done..|].
  destruct Hend as [[-> Hend]|(op & r & a3 & Ho & E1 & E2 & E3 & E4)].
  - left. split; [done|]. by rewrite (M_bind_ok _ _ _ _ _ Hend).
  - right. exists op, r, a3. unfold mbind, M_bind. rewrite E3. by destruct r.
Qed.

(** the delete call, end to end.  An authorized and admitted delete succeeds,
    says whether the key was visible, adds one audit record, and from then on a get
    finds every other key unchanged and this one gone. *)
Theorem delete_rpc_then_get g sys req a a' l (Hn : node_ok (inner a)) (Henv : env_ok (inner a) l)
    (Ht : valid_tenant (del_tenant (get_ref req)))
    (Hmay : may req (del_tenant (get_ref req)) PERM_DELETE)
    (Hk : len (del_key (get_ref req)) ≤ max_key_size (limits_of a))
    (Hlen : max_key_size (limits_of a) ≤ FJALL_MAX_KEY - 257)
    (Hadm : admit_rpc g (del_tenant (get_ref req)) 1 a = (Ok tt, a')) :
  let '{| del_tenant := t; del_key := k |} := get_ref req in
  ∃ a2, delete_impl g sys req a =
      (Ok {| del_found := bool_decide (visible (stored a) (now (inner a) sys) (data_key t k) ≠ None) |}, a2) ∧
    audit_log a2 = audit_log a ++ [write_record req t "delete" k 0] ∧
    ∀ g' sys' req' a3, let '{| get_tenant := t'; get_key := k' |} := get_ref req' in
      valid_tenant t' → may req' t' PERM_READ → len k' ≤ max_key_size (limits_of a) →
      admit_rpc g' t' 1 a2 = (Ok tt, a3) →
      get_impl g' sys' req' a2 = (Ok (get_response
        (if decide ((t', k') = (t, k)) then None
         else visible (stored a) (now (inner a) sys') (data_key t' k'))), a3).
Proof.
  destruct (get_ref req) as [t k] eqn:Hreq. cbn [del_tenant del_key] in *.
  destruct (admit_keeps _ _ _ _ _ Hadm) as (Hlim & Hsame & Haud & Hsto & _ & Hnow & Hn' & He').
  specialize (Hn' Hn). specialize (He' _ Henv). pose proof (proj2 Ht) as Hl.
  destruct (admit_Ok_frame _ _ _ _ _ Hadm) as [th Ha'].
  destruct (delete_runs t k (inner a') l Hn' He' Ht) as (s' & l' & E & Heff).
  { unfold data_key. rewrite len_app, len_frame by lia. unfold FJALL_MAX_KEY in *. lia. }
  { apply admits_short; [|done]. unfold data_key. rewrite len_app, len_frame. pose proof (len_nonneg k). lia. }
  exists (mkApi s' (audit_log a' ++ [write_record req t "delete" k 0])). split_and!.
  - unfold delete_impl. rewrite Hreq. cbn [del_tenant del_key].
    rewrite (step_lift _ tt) by (by apply check_tenant_spec).
    rewrite (step_lift _ tt) by (by apply authorize_may).
    rewrite (M_bind_ok _ _ _ _ _ Hadm). cbv zeta.
    rewrite (M_bind_ok _ _ _ tt a') by (apply enforce_key_size_spec; by rewrite Hlim).
    rewrite (step_lift _ (data_key t k)) by (by apply encode_data_key_ok).
    erewrite (M_bind_ok (ask _));
      [|unfold ask; rewrite get_runs by (rewrite Hsto; first [apply Henv|apply Hn]); reflexivity].
    fold (stored a'). rewrite Hsame, Hnow.
    erewrite (M_bind_ok (in_service _)) by (by apply (in_service_run _ _ _ _ E)). done.
  - cbn [audit_log]. by rewrite Haud.
  - intros g' sys' req' a3. cbn [inner audit_log].
    pose proof (get_impl_runs g' sys' req' (mkApi s'
      (audit_log a' ++ [write_record req t "delete" k 0])) a3) as Hget.
    destruct (get_ref req') as [t' k']. intros Ht' Hmay' Hk' Hadm'.
    rewrite Hget; [|apply Heff|apply Heff|apply Ht'|done|done|].
    + do 3 f_equal. unfold stored. cbn [inner].
      rewrite (visible_agree _ _ _ _ (we_data _ _ _ _ _ _ Heff _ (ex_intro _ t' (ex_intro _ k' (conj Ht' eq_refl))))).
      assert (now s' sys' = now (inner a) sys') as ->
        by (unfold now; rewrite (we_clock _ _ _ _ _ _ Heff); by subst a').
      rewrite visible_delete, Hsto.
      destruct (decide ((t', k') = (t, k))) as [Heq|Hne].
      * injection Heq as -> ->. by rewrite decide_True.
      * rewrite decide_False; [done|]. intros Heq. apply Hne.
        apply data_key_inj in Heq as [-> ->]; done.
    + unfold limits_of. cbn [inner]. rewrite (we_config _ _ _ _ _ _ Heff). by subst a'.
Qed.

(** A batch that names no put and no delete asks for no permission. *)
Lemma unknown_batch_start g sys req a :
  1 ≤ len (batch_tenant (get_ref req)) ≤ 255 →
  Forall (λ o, op_code o ≠ OP_PUT ∧ op_code o ≠ OP_DELETE) (ops (get_ref req)) →
  batch_impl g sys req a =
    (enforce_batch_size (len (ops (get_ref req)));;
     admit_rpc g (batch_tenant (get_ref req)) (Z.min (len (ops (get_ref req))) U32_MAX);;
     for_each (batch_op sys (principal_or_anonymous req) (batch_tenant (get_ref req)))
       (ops (get_ref req));;
     mret {| ok := true |}) a.
Proof.
  intros Ht Hops.
  assert (∀ c, c = OP_PUT ∨ c = OP_DELETE →
    existsb (λ o, op_code o =? c) (ops (get_ref req)) = false) as Hno.
  { intros c Hc. apply not_true_iff_false. rewrite existsb_exists.
    intros (o & Hin%list_elem_of_In & Ho%Z.eqb_eq).
    rewrite Forall_forall in Hops. destruct (Hops o Hin). naive_solver. }
  unfold batch_impl. rewrite (step_lift _ tt) by (by apply check_tenant_spec). cbv zeta.
  rewrite !Hno by auto. cbn [when]. by do 2 rewrite (M_bind_ok (mret tt) _ _ tt a) by done.
Qed.

(** A batch of unknown operation codes: charged, then refused. *)
Lemma unknown_batch g sys req a :
  1 ≤ len (batch_tenant (get_ref req)) ≤ 255 →
  Forall (λ o, op_code o ≠ OP_PUT ∧ op_code o ≠ OP_DELETE) (ops (get_ref req)) →
  ops (get_ref req) ≠ [] → len (ops (get_ref req)) ≤ max_batch_ops (limits_of a) →
  is_ok (batch_impl g sys req a).1 = false ∧
  (batch_impl g sys req a).2 =
    (admit_rpc g (batch_tenant (get_ref req)) (Z.min (len (ops (get_ref req))) U32_MAX) a).2.
Proof.
  intros Ht Hops Hsome Hsize. rewrite unknown_batch_start by done.
  rewrite (M_bind_ok _ _ _ tt a) by (by apply enforce_batch_size_spec).
  destruct (admit_rpc _ _ _ _) as [[[]|e|] a1] eqn:E; unfold mbind at 1 3, M_bind at 1 3; rewrite E;
    [|done..].
  destruct (ops (get_ref req)) as [|o os]; [done|]. inversion Hops as [|?? [Hp Hd] _]; subst.
  assert (∃ st, batch_op sys (principal_or_anonymous req) (batch_tenant (get_ref req)) o a1 = (Err st, a1))
    as [st Hst].
  { unfold batch_op. rewrite (proj2 (Z.eqb_neq _ _) Hp), (proj2 (Z.eqb_neq _ _) Hd).
    destruct (Z.le_gt_cases (len (op_key o)) (max_key_size (limits_of a1))) as [Hk|Hk].
    - rewrite (M_bind_ok _ _ _ tt a1) by (by apply enforce_key_size_spec). cbn [when].
      rewrite (M_bind_ok _ _ _ tt a1) by done. cbv zeta.
      rewrite (step_lift _ (data_key (batch_tenant (get_ref req)) (op_key o)))
        by (by apply encode_data_key_ok). eauto.
    - destruct (proj2 (enforce_key_size_spec (op_key o) a1) Hk) as (st & Hst & _).
      exists st. by rewrite (M_bind_err _ _ _ _ _ Hst). }
  cbn [for_each]. unfold mbind, M_bind. by rewrite Hst.
Qed.

(** The rate limiter apart, nothing has changed. *)
Definition only_throttled (a a' : Api) : Prop :=
  ∃ th, a' = mkApi (set_throttle th (inner a)) (audit_log a).

Lemma only_throttled_refl a : only_throttled a a.
Proof. exists (throttle (inner a)). by destruct a as [[]]. Qed.

(** Without a put or a delete, a batch leaves all but the rate limiter alone. *)
Lemma unknown_batch_frame g sys req a :
  Forall (λ o, op_code o ≠ OP_PUT ∧ op_code o ≠ OP_DELETE) (ops (get_ref req)) →
  only_throttled a (batch_impl g sys req a).2.
Proof.
  intros Hops.
  assert (∀ n, only_throttled a (admit_rpc g (batch_tenant (get_ref req)) n a).2) as Hadm.
  { intros n. destruct (admit_frame g (batch_tenant (get_ref req)) n a) as (r & th & ->). by exists th. }
  pose proof (only_throttled_refl a) as Hrefl.
  destruct (decide (1 ≤ len (batch_tenant (get_ref req)) ≤ 255)) as [Ht|Ht].
  2: { unfold batch_impl. destruct (check_tenant (batch_tenant (get_ref req))) as [[]|st|] eqn:E.
       - by apply check_tenant_spec in E.
       - by rewrite (step_lift_err _ st).
       - unfold check_tenant in E. by repeat case_match. }
  destruct (decide (len (ops (get_ref req)) ≤ max_batch_ops (limits_of a))) as [Hl|Hl];
    [destruct (decide (ops (get_ref req) = [])) as [He|He]|].
  - rewrite unknown_batch_start by done.
    rewrite (M_bind_ok _ _ _ tt a) by (by apply enforce_batch_size_spec).
    rewrite He. cbn [for_each]. specialize (Hadm (Z.min (len (@nil BatchOp)) U32_MAX)).
    unfold mbind at 1, M_bind at 1. by destruct (admit_rpc _ _ _ _) as [[[]| |] a1].
  - destruct (unknown_batch g sys req a Ht Hops He Hl) as [_ ->]. apply Hadm.
  - rewrite unknown_batch_start by done.
    destruct (proj2 (enforce_batch_size_spec (len (ops (get_ref req))) a)) as [st E]; [lia|].
    by rewrite (M_bind_err _ _ _ _ _ E).
Qed.

(** C40: a batch that names neither a put nor a delete is charged to the tenant it
    names before anyone is authorized.  Whatever the caller may do (it may be
    another tenant, or carry no principal), a non-empty batch of unknown operation
    codes fails, but only after the tenant's rate limiter has been charged for all
    its operations. *)
Theorem unauthorized_batch_spends_allowance g sys req a
    (Ht : 1 ≤ len (batch_tenant (get_ref req)) ≤ 255)
    (Hops : Forall (λ o, op_code o ≠ OP_PUT ∧ op_code o ≠ OP_DELETE) (ops (get_ref req)))
    (Hsome : ops (get_ref req) ≠ [])
    (Hsize : len (ops (get_ref req)) ≤ max_batch_ops (limits_of a)) :
  is_ok (batch_impl g sys req a).1 = false ∧
  (batch_impl g sys req a).2 =
    (admit_rpc g (batch_tenant (get_ref req)) (Z.min (len (ops (get_ref req))) U32_MAX) a).2.
Proof. by apply unknown_batch. Qed.

(** ** The watch stream *)

(** What a subscriber to [p] is owed for a signal that does not end the stream. *)
Definition owed (p : bytes) (s : signal) : option WatchEvent :=
  match s with
  | Idle _ => Some heartbeat_event
  | Received _ c => if decide (p `prefix_of` change_key c) then Some (to_watch_event c) else None
  | Lagged _ | Closed => None
  end.

Definition ends_stream (s : signal) : bool :=
  match s with
  | Lagged _ | Closed => true
  | _ => false
  end.

Lemma watch_stream_skip fuel s x rest :
  ends_stream x = false → owed (prefix s) x = None →
  watch_stream (S fuel) s (x :: rest) = watch_stream (S fuel) s rest.
Proof.
  destruct x as [t|t c|m|]; try done. intros _. cbn [owed watch_stream watch_next].
  pose proof (starts_with_spec (prefix s) (change_key c)) as Hs.
  case_decide as Hp; [done|]. intros _.
  by rewrite (not_true_is_false (starts_with (prefix s) (change_key c))) by (by rewrite Hs).
Qed.

Lemma watch_stream_item fuel s x e rest :
  ends_stream x = false → owed (prefix s) x = Some e →
  ∃ s', prefix s' = prefix s ∧
    watch_stream (S fuel) s (x :: rest) =
    (Ok e :: (watch_stream fuel s' rest).1, (watch_stream fuel s' rest).2).
Proof.
  destruct x as [t|t c|m|]; try done; intros _; cbn [owed watch_stream watch_next].
  - intros [= <-]. exists (defer_heartbeat t s). split; [done|]. by destruct (watch_stream _ _ _).
  - case_decide as Hp; [|done]. intros [= <-]. apply starts_with_spec in Hp as ->. simpl.
    exists (defer_heartbeat t s). split; [done|]. by destruct (watch_stream _ _ _).
Qed.

(** What the end of the feed becomes. *)
Definition stream_ending (rest : list signal) : list (result Status WatchEvent) * bool :=
  match rest with
  | Lagged missed :: _ =>
      ([Err (mkStatus DataLoss ("watch fell behind by " +:+ pretty missed
          +:+ " events; re-read and resubscribe"))], true)
  | Closed :: _ => ([], true)
  | _ => ([], false)
  end.

(** a watch stream delivers its feed.  Until the feed ends, the client receives
    exactly the changes under its prefix and the heartbeats, in order, each once,
    whatever changes outside the prefix come between them; a receiver that lagged
    ends the stream with one [DataLoss] error after everything before it was
    delivered, and a closed feed ends it without an error; nothing after that is
    read. *)
Theorem watch_stream_faithful fuel s live rest
    (Hlive : Forall (λ x, ends_stream x = false) live)
    (Hend : rest = [] ∨ ∃ x tail, rest = x :: tail ∧ ends_stream x = true)
    (Hfuel : (length live < fuel)%nat) :
  watch_stream fuel s (live ++ rest) =
  ((Ok <$> omap (owed (prefix s)) live) ++ (stream_ending rest).1, (stream_ending rest).2).
Proof.
  revert fuel s Hfuel. induction Hlive as [|x live Hx _ IH]; intros fuel s Hfuel.
  - destruct fuel as [|fuel]; [lia|].
    destruct Hend as [-> |(x & tail & -> & Hx)]; [done|]. by destruct x.
  - destruct fuel as [|fuel]; [simpl in Hfuel; lia|]. cbn [length] in Hfuel. rewrite <-app_comm_cons.
    change (omap (owed (prefix s)) (x :: live)) with
      (match owed (prefix s) x with
       | Some e => e :: omap (owed (prefix s)) live | None => omap (owed (prefix s)) live end).
    destruct (owed (prefix s) x) as [e|] eqn:Ho.
    + destruct (watch_stream_item fuel s x e (live ++ rest) Hx Ho) as (s' & Hp & ->).
      rewrite (IH fuel s') by lia. by rewrite Hp.
    + rewrite watch_stream_skip by done. apply IH. lia.
Qed.

End spec.

(** ** Witnesses *)

Definition sample_blake3 : Blake3 := λ k, take 32 (k ++ replicate 32 x00).
#[export] Existing Instance sample_blake3.

Abbreviation SampleApi := (Grpc.Api sample_fjall sample_broadcast sample_governor).

Definition sample_api : SampleApi := mkApi sample_node [].
Definition sample_api_1 : SampleApi := mkApi sample_node_1 [].

(** A token of tenant acme with the given permissions. *)
Definition acme_claims (ps : list bytes) : Principal :=
  Authenticated (mkClaims (lit "alice") (lit "acme") [] ps 0 None).

Definition as_acme {T} (ps : list bytes) (r : T) : Request T :=
  mkRequest None (Some (acme_claims ps)) r.

Definition put_k : PutRequest :=
  {| put_tenant := lit "acme"; put_key := lit "k"; put_value := lit "v"; ttl_ms := 500 |}.
Definition get_k : GetRequest := {| get_tenant := lit "acme"; get_key := lit "k" |}.
Definition del_k : DeleteRequest := {| del_tenant := lit "acme"; del_key := lit "k" |}.
Definition scan_all : ScanRequest := {| scan_tenant := lit "acme"; scan_prefix := []; scan_limit := 0 |}.

Lemma sample_node_1_ok : node_ok sample_node_1.
Proof.
  pose proof (world_ok_steps _ _ sample_world_ok sample_steps) as H. apply H.
Qed.

Lemma scan_rpc_exact_witness :
  (scan_impl 0 0 (as_acme [lit "read"] scan_all) sample_api_1).1 =
    Ok [{| chunk_entries := [mkKeyValue (lit "k") (lit "v")] |}] ∧
  ∃ L, (lit "k", lit "v") ∈ L ∧ StronglySorted bytes_lt (L.*1).
Proof.
  split; [vm_compute; reflexivity|].
  destruct (scan_rpc_exact 0 0 (as_acme [lit "read"] scan_all) sample_api_1 sample_api_1)
    as (chunks & L & _ & Hin & Hs & _).
  - apply sample_node_1_ok.
  - vm_compute. exact I.
  - vm_compute. split; congruence.
  - split; [reflexivity|]. right. left.
  - apply admit_unlimited; vm_compute; reflexivity.
  - exists L. split; [|exact Hs]. apply Hin. split; [apply prefix_nil|vm_compute; reflexivity].
Defined.

Lemma unauthorized_calls_witness :
  ∃ st, put_impl 0 0 (as_acme [lit "read"] put_k) sample_api = (Err st, sample_api).
Proof.
  apply (unauthorized_calls_change_nothing 0 0 0 sample_api).
  intros [_ [H|H]]; vm_compute in H; apply list_elem_of_In in H; destruct H as [H|[]]; discriminate.
Defined.

Lemma put_rpc_then_get_witness :
  ∃ a2, put_impl 0 0 (as_acme [lit "write"] put_k) sample_api = (Ok {| put_version := 0 |}, a2) ∧
    audit_log a2 = [write_record (as_acme [lit "write"] put_k) (lit "acme") "put" (lit "k") 1].
Proof.
  destruct (put_rpc_then_get 0 0 (as_acme [lit "write"] put_k) sample_api sample_api empty_log
    sample_node_ok sample_env_ok acme_valid) as (_ & _ & H).
  - split; [reflexivity|]. right. left.
  - apply admit_unlimited; vm_compute; reflexivity.
  - apply sample_fits.
  - destruct H as (a2 & H1 & H2 & _).
    + vm_compute. intros [H|H]; discriminate.
    + intros [e H]. vm_compute in H. discriminate.
    + exists a2. split; [exact H1|exact H2].
Defined.

Lemma delete_rpc_then_get_witness :
  ∃ a2, delete_impl 0 0 (as_acme [lit "admin"] del_k) sample_api = (Ok {| del_found := false |}, a2).
Proof.
  destruct (delete_rpc_then_get 0 0 (as_acme [lit "admin"] del_k) sample_api sample_api empty_log
    sample_node_ok sample_env_ok acme_valid) as (a2 & H & _).
  - split; [reflexivity|]. left. left.
  - vm_compute. congruence.
  - vm_compute. congruence.
  - apply admit_unlimited; vm_compute; reflexivity.
  - exists a2. exact H.
Defined.

(** A put that goes through, then an operation that fails. *)
Definition half_batch : BatchRequest :=
  {| batch_tenant := lit "acme";
     ops := [{| op_code := 1; op_key := lit "a"; op_value := lit "1" |};
             {| op_code := 9; op_key := lit "b"; op_value := [] |}] |}.

Lemma batch_applies_in_order_witness :
  ∃ n a2, (n ≤ 2)%nat ∧
    audit_log a2 = batch_record (acme_claims [lit "write"]) (lit "acme") <$> take n (ops half_batch).
Proof.
  destruct (batch_applies_in_order 0 0 (as_acme [lit "write"] half_batch) sample_api sample_api)
    as (n & a2 & Hn & _ & Hlog & _).
  - vm_compute. split; congruence.
  - intros _. split; [reflexivity|]. right. left.
  - intros H. exfalso. apply Exists_exists in H as (o & Hin & Ho).
    apply list_elem_of_In in Hin. destruct Hin as [<-|[<-|[]]]; discriminate.
  - vm_compute. congruence.
  - apply admit_unlimited; vm_compute; reflexivity.
  - exists n, a2. split; [exact Hn|exact Hlog].
Defined.

Definition unknown_ops : BatchRequest :=
  {| batch_tenant := lit "acme"; ops := [{| op_code := 9; op_key := []; op_value := [] |}] |}.

Definition as_mallory {T} (r : T) : Request T :=
  mkRequest None (Some (Authenticated (mkClaims (lit "mallory") (lit "other") [] [] 0 None))) r.

Lemma unauthorized_batch_witness :
  (batch_impl 0 0 (as_mallory unknown_ops) sample_api).2 = (admit_rpc 0 (lit "acme") 1 sample_api).2.
Proof.
  apply (unauthorized_batch_spends_allowance 0 0 (as_mallory unknown_ops) sample_api).
  - vm_compute. split; congruence.
  - repeat constructor; vm_compute; congruence.
  - discriminate.
  - vm_compute. congruence.
Defined.

Lemma watch_stream_faithful_witness :
  let c k := mkChange ChangePut k [] in
  ∃ rx : Receiver (Broadcast:=sample_broadcast),
  watch_stream 9 (mkWatchState rx (lit "a") 10 10 (lit "acme"))
    [Received 1 (c (lit "ab")); Received 2 (c (lit "b")); Idle 11; Closed; Idle 20] =
  ([Ok (to_watch_event (c (lit "ab"))); Ok heartbeat_event], true).
Proof.
  set (rx := 0%nat : Receiver (Broadcast:=sample_broadcast)). exists rx.
  apply (watch_stream_faithful 9 (mkWatchState rx (lit "a") 10 10 (lit "acme"))
    [Received 1 (mkChange ChangePut (lit "ab") []); Received 2 (mkChange ChangePut (lit "b") []); Idle 11]
    [Closed; Idle 20]).
  - repeat constructor.
  - right. by exists Closed, [Idle 20].
  - simpl. lia.
Defined.
