(* ===== verification/Follow.v ===== *)
(** * A watching client, from the request to its copy

    The parts of a watch put together: the request subscribes to the hub ([Grpc.v]),
    writers and sweeps announce their changes there ([Mirror.v]), the channel hands
    them to the stream, dropping the oldest when the stream is slow, and the stream
    filters them, fills silences with heartbeats and reports a gap ([GrpcSpec.v]).

    The theorem: the changes a client receives are those under its prefix, from the
    first on, without a hole; it is told when it has missed any, and a stream that ends
    without saying so has missed none; and when it has received all there are, the copy
    it keeps is right. *)

From Stdlib Require Import Strings.Byte.
From S2P Require Import Prelude Bytes Core KeyCodec ValueCodec Storage Wal TtlIndex Quota.
From S2P Require Import Throttle Watch Config Service Node NodeSpec Sample Sweeper Interleave.
From S2P Require Import Writers Linear Mirror Auth Grpc GrpcSpec.

(** ** The channel between the hub and the stream *)

(** What a receiver of a channel that retains [cap] values yields, as documented: the
    next value in order; [Lagged] with the number of values it missed when the next one
    has been dropped, after which it continues with the oldest that is retained; and
    [Closed] when the channel is gone and nothing is left.  [sent] has been sent since
    the receiver subscribed, [pos] of them it has taken; the last argument is all that is
    ever sent. *)
Inductive drives (cap : nat) : list KeyChange → nat → list signal → list KeyChange → Prop :=
| drives_stop sent pos : drives cap sent pos [] sent
| drives_send sent pos c signals all :
    drives cap (sent ++ [c]) pos signals all → drives cap sent pos signals all
| drives_idle sent pos t signals all :
    drives cap sent pos signals all → drives cap sent pos (Idle t :: signals) all
| drives_receive sent pos t c signals all :
    sent !! pos = Some c → (length sent ≤ pos + cap)%nat →
    drives cap sent (S pos) signals all → drives cap sent pos (Received t c :: signals) all
| drives_lag sent pos signals all :
    (pos + cap < length sent)%nat →
    drives cap sent (length sent - cap) signals all →
    drives cap sent pos (Lagged (Z.of_nat (length sent - cap - pos)) :: signals) all
| drives_close sent pos :
    (length sent ≤ pos)%nat → drives cap sent pos [Closed] sent.

(** The changes among the signals. *)
Definition received (signals : list signal) : list KeyChange :=
  omap (λ x, match x with Received _ c => Some c | _ => None end) signals.

(** Those a stream takes, which stops at the first signal that ends it. *)
Fixpoint taken (signals : list signal) : list KeyChange :=
  match signals with
  | [] => []
  | Received _ c :: rest => c :: taken rest
  | Idle _ :: rest => taken rest
  | Lagged _ :: _ | Closed :: _ => []
  end.

Lemma taken_live live rest :
  Forall (λ x, ends_stream x = false) live → (rest = [] ∨ ∃ x tail, rest = x :: tail ∧ ends_stream x = true) →
  taken (live ++ rest) = received live.
Proof.
  intros Hl Hr. induction Hl as [|x live Hx _ IH]; simpl.
  - by destruct Hr as [-> |([] & tail & -> & Hx)].
  - destruct x; try discriminate Hx; simpl; [done|]. by rewrite IH.
Qed.

Lemma drives_all cap sent pos signals all : drives cap sent pos signals all → sent `prefix_of` all.
Proof.
  induction 1 as [| | | | |]; try done. etrans; [by apply prefix_app_r|done].
Qed.

(** Until the stream ends, a receiver yields what was sent, in order. *)
Lemma drives_in_order cap sent pos live rest all :
  drives cap sent pos (live ++ rest) all → (pos ≤ length sent)%nat →
  Forall (λ x, ends_stream x = false) live →
  ∃ sent', received live = take (length (received live)) (drop pos all) ∧
    (pos + length (received live) ≤ length all)%nat ∧
    drives cap sent' (pos + length (received live)) rest all.
Proof.
  remember (live ++ rest) as signals eqn:E. intros Hd. revert live E.
  induction Hd as [sent pos|sent pos c signals all Hd IH|sent pos t signals all Hd IH
    |sent pos t c signals all Hc Hcap Hd IH|sent pos signals all Hlag Hd IH|sent pos Hpos];
    intros live E Hle Hlive.
  - symmetry in E. apply app_eq_nil in E as [-> ->]. exists sent. simpl. rewrite Nat.add_0_r.
    split_and!; [done|done|constructor].
  - destruct (IH live E) as (sent' & H); [rewrite length_app; lia|done|]. by exists sent'.
  - destruct live as [|x live]; simplify_eq/=.
    + exists sent. rewrite Nat.add_0_r. pose proof (prefix_length _ _ (drives_all _ _ _ _ _ Hd)).
      split_and!; [done|lia|by constructor].
    + apply Forall_cons in Hlive as [_ Hlive]. by apply IH.
  - destruct live as [|x live]; simplify_eq/=.
    + exists sent. rewrite Nat.add_0_r. pose proof (prefix_length _ _ (drives_all _ _ _ _ _ Hd)).
      split_and!; [done|lia|by constructor].
    + apply Forall_cons in Hlive as [_ Hlive]. apply lookup_lt_Some in Hc as Hlt.
      destruct (IH live eq_refl) as (sent' & H1 & H2 & H3); [lia|done|].
      exists sent'. change (received (Received t c :: live)) with (c :: received live). cbn [length].
      replace (pos + S (length (received live)))%nat with (S pos + length (received live))%nat by lia.
      split_and!; [|done|done].
      assert (all !! pos = Some c) as Hall by (by eapply prefix_lookup_Some, drives_all).
      rewrite (drop_S _ _ _ Hall). cbn [take]. by rewrite <-H1.
  - destruct live as [|x live]; simplify_eq/=; [|by apply Forall_cons in Hlive as [? _]].
    exists sent. rewrite Nat.add_0_r. pose proof (prefix_length _ _ (drives_all _ _ _ _ _ Hd)).
    split_and!; [done|lia|by constructor].
  - destruct live as [|x live]; simplify_eq/=.
    + exists sent. rewrite Nat.add_0_r. split_and!; [done|lia|by constructor].
    + by apply Forall_cons in Hlive as [? _].
Qed.

(** A receiver that has lagged has missed something. *)
Lemma drives_lagged cap sent pos missed rest all :
  drives cap sent pos (Lagged missed :: rest) all → (pos < length all)%nat ∧ 0 < missed.
Proof.
  remember (Lagged missed :: rest) as signals eqn:E. intros Hd. revert E.
  induction Hd as [| | | |sent pos signals all Hlag Hd IH|]; intros E; simplify_eq; try done; eauto.
  pose proof (prefix_length _ _ (drives_all _ _ _ _ _ Hd)). lia.
Qed.

(** A receiver is told that the channel is closed once it has taken all there is. *)
Lemma drives_closed cap sent pos rest all :
  drives cap sent pos (Closed :: rest) all → (length all ≤ pos)%nat.
Proof.
  remember (Closed :: rest) as signals eqn:E. intros Hd. revert E.
  induction Hd; intros E; simplify_eq; eauto.
Qed.

(** ** The client *)

(** The change an item of the stream reports. *)
Definition client_change (r : result Status WatchEvent) : option KeyChange :=
  match r with
  | Ok e =>
      match event_kind e with
      | EventPut => Some (mkChange ChangePut (event_key e) (event_value e))
      | EventDelete => Some (mkChange ChangeDelete (event_key e) (event_value e))
      | Heartbeat => None
      end
  | _ => None
  end.

Abbreviation under P := (λ c, P `prefix_of` change_key c).

Lemma client_changes_live P live :
  omap client_change (Ok <$> omap (GrpcSpec.owed P) live) = filter (under P) (received live).
Proof.
  induction live as [|x live IH]; [done|]. destruct x as [t|t c|m|]; csimpl; try done.
  change (received (Received t c :: live)) with (c :: received live). case_decide as Hp.
  - rewrite filter_cons_True by done. rewrite <-IH. by destruct c as [[] k v].
  - by rewrite filter_cons_False.
Qed.

Lemma split_signals signals :
  ∃ live rest, signals = live ++ rest ∧ Forall (λ x, ends_stream x = false) live ∧
    (rest = [] ∨ ∃ x tail, rest = x :: tail ∧ ends_stream x = true).
Proof.
  induction signals as [|x signals (live & rest & -> & Hl & Hr)].
  { exists [], []. split_and!; [done|constructor|by left]. }
  destruct (ends_stream x) eqn:Hx.
  - exists [], (x :: live ++ rest). split_and!; [done|constructor|]. right. by eexists _, _.
  - exists (x :: live), rest. split_and!; [done|by constructor|done].
Qed.

(** Changes elsewhere do not matter to a key. *)
Lemma mirror_filter m cs P q :
  P `prefix_of` q → mirror m (filter (under P) cs) !! q = mirror m cs !! q.
Proof.
  intros Hp. induction cs as [|c cs IH] using rev_ind; [done|].
  rewrite filter_app, mirror_snoc, apply_change_lookup. case_decide as E.
  - rewrite filter_cons_True, filter_nil, mirror_snoc, apply_change_lookup by (by rewrite E).
    by rewrite decide_True.
  - rewrite <-IH. destruct (decide (P `prefix_of` change_key c)).
    + rewrite filter_cons_True, filter_nil, mirror_snoc, apply_change_lookup by done. by rewrite decide_False.
    + by rewrite filter_cons_False, filter_nil, app_nil_r.
Qed.

(** How a stream can stand with its client, [changes] having been announced: it is open,
    and the channel has signalled neither a gap nor its end; or a change was missed, and
    the stream has ended with [DataLoss]; or the channel has gone, and the stream has
    ended without an error with no change missed. *)
Inductive standing (changes : list KeyChange) (signals : list signal) :
    list (result Status WatchEvent) * bool → Prop :=
| still_open out :
    Forall (λ x, ends_stream x = false) signals → Forall (λ r, is_ok r = true) out →
    standing changes signals (out, false)
| was_told out st missed :
    Lagged missed ∈ signals → 0 < missed → taken signals ≠ changes →
    Forall (λ r, is_ok r = true) out → code st = DataLoss →
    standing changes signals (out ++ [Err st], true)
| shut_down out :
    Closed ∈ signals → taken signals = changes → Forall (λ r, is_ok r = true) out →
    standing changes signals (out, true).

Section follow.
Context {F : Fjall} {B : Broadcast} {G : Governor} {C : Crc32} {J : QuotaJson} {H3 : Blake3}.
Context {FS : FjallSpec} {FO : FjallOk} {BO : BroadcastOk}.

Abbreviation Api := (Grpc.Api F B G).

(** What the stream makes of what the channel yields. *)
Lemma stream_of_channel cap (ws : WatchState) signals all fuel :
  drives cap [] 0 signals all → (length signals < fuel)%nat →
  let stream := watch_stream fuel ws signals in
  taken signals `prefix_of` all ∧
  omap client_change stream.1 = filter (under (prefix ws)) (taken signals) ∧
  standing all signals stream.
Proof.
  intros Hd Hfuel stream. destruct (split_signals signals) as (live & rest & -> & Hlive & Hend).
  rewrite length_app in Hfuel.
  pose proof (taken_live live rest Hlive Hend) as Htaken. rewrite Htaken.
  destruct (drives_in_order cap [] 0 live rest all Hd ltac:(done) Hlive) as (sent & H1 & H2 & H3').
  rewrite drop_0 in H1. cbn [Nat.add] in *.
  assert (stream = ((Ok <$> omap (GrpcSpec.owed (prefix ws)) live) ++ (stream_ending rest).1,
                    (stream_ending rest).2)) as ->
    by (apply watch_stream_faithful; [done|done|lia]).
  assert (Forall (λ r, is_ok r = true) (Ok (E:=Status) <$> omap (GrpcSpec.owed (prefix ws)) live)) as Hoks
    by (apply Forall_fmap, Forall_true; done).
  split_and!.
  - rewrite H1. apply prefix_take.
  - cbn [fst]. rewrite omap_app, client_changes_live.
    replace (omap client_change (stream_ending rest).1) with (@nil KeyChange); [by rewrite app_nil_r|].
    by destruct Hend as [-> |([] & tail & -> & Hx)].
  - destruct Hend as [-> |(x & tail & -> & Hx)]; simpl.
    + rewrite !app_nil_r. by constructor.
    + destruct x as [| |missed|]; try discriminate Hx; simpl.
      * destruct (drives_lagged _ _ _ _ _ _ H3') as [Hlt Hm].
        apply (was_told _ _ _ _ missed); [set_solver|done| |done|done].
        rewrite Htaken. intros E. rewrite E in Hlt. lia.
      * rewrite app_nil_r. apply shut_down; [set_solver| |done].
        rewrite Htaken, H1. apply take_ge. by apply drives_closed in H3'.
Qed.

(** Opening a watch changes the hub and the rate limiter only, and hands out a receiver
    that has been sent nothing. *)
Lemma watch_opens g i req (a a' : Api) ws :
  watch_impl g i req a = (Ok ws, a') → channel_capacity (capacity (watch (inner a))) →
  feed (watch (inner a')) (watch_tenant (get_ref req)) (rx ws) = Some [] ∧
  prefix ws = watch_prefix (get_ref req) ∧ storage (inner a') = storage (inner a) ∧
  1 ≤ len (watch_tenant (get_ref req)) ≤ 255.
Proof.
  intros E Hcap. unfold watch_impl in E.
  apply M_bind_inv in E as ([] & a0 & E0 & E). injection E0 as E0 <-.
  apply M_bind_inv in E as ([] & a1 & E1 & E). injection E1 as E1 <-.
  apply M_bind_inv in E as ([] & a2 & E2 & E).
  destruct (admit_frame g (watch_tenant (get_ref req)) 1 a) as (res & th & E2').
  rewrite E2' in E2. injection E2 as -> <-.
  apply M_bind_inv in E as ([] & a3 & E3 & E).
  assert (a3 = mkApi (set_throttle th (inner a)) (audit_log a)) as ->.
  { unfold enforce_key_size in E3. by case_match; simplify_eq. }
  apply M_bind_inv in E as (r & a4 & E4 & E). cbn [inner watch set_throttle audit_log] in E4.
  destruct (feed_subscribe (watch_tenant (get_ref req)) (watch (inner a)) Hcap)
    as (r' & h & Es & _ & Hf & _).
  rewrite Es in E4. injection E4 as <- <-. apply M_bind_inv in E as (hb & a5 & E5 & E).
  injection E5 as <- <-. injection E as <- <-. split_and!; [done|done|done|..].
  all: by apply check_tenant_spec.
Qed.

(** C7: a watching client is right, or it is told.  A client opens a watch on a prefix of its
    keys on a node at rest, whose watch buffer is a size a channel can have; writers and
    sweeps run in any interleaving, never two on one key and within what the storage
    engine takes; at some moment the client copies what the node holds; more of them run.
    Whatever the channel has yielded to the stream meanwhile, what the stream has taken
    is the first so many changes, without a hole and in order, and the client has
    received exactly those under its prefix; as soon as the channel has signalled a gap,
    the stream has ended with [DataLoss], which it does for no other reason; a stream
    that has ended without an error has missed nothing; and once all changes have been
    taken, the client's copy with what it received applied holds,
    for every key under the prefix that nobody is writing, exactly the value the node
    holds. *)
Theorem watcher_told_or_right g i req (a a' : Api) ws p1 p2 copy cap signals changes fuel
    (Hutf : utf8_valid (watch_tenant (get_ref req)) = true)
    (Hh : healthy (storage (inner a))) (Hcap : channel_capacity (capacity (watch (inner a))))
    (Hopen : watch_impl g i req a = (Ok ws, a'))
    (H1 : rtc (guarded undisturbed) (mkPool [] (inner a')) p1)
    (H2 : rtc (guarded undisturbed) p1 p2)
    (Hcopy : ∀ q, copy !! q = held (shared p1) (data_key (watch_tenant (get_ref req)) q))
    (Hfeed : feed (watch (shared p2)) (watch_tenant (get_ref req)) (rx ws) = Some changes)
    (Hchannel : drives cap [] 0 signals changes) (Hfuel : (length signals < fuel)%nat) :
  let t := watch_tenant (get_ref req) in
  let P := watch_prefix (get_ref req) in
  let stream := watch_stream fuel ws signals in
  taken signals `prefix_of` changes ∧
  omap client_change stream.1 = filter (under P) (taken signals) ∧
  standing changes signals stream ∧
  (taken signals = changes →
   ∀ q, P `prefix_of` q → (∀ pc, pc ∈ tasks p2 → key_of pc ≠ Some (data_key t q)) →
     mirror copy (omap client_change stream.1) !! q = held (shared p2) (data_key t q)).
Proof.
  intros t P stream. destruct (watch_opens g i req a a' ws Hopen Hcap) as (Hf & Hp & Est & Hlen).
  assert (valid_tenant t) as Ht by done.
  destruct (subscribe_then_scan t (rx ws) [] (inner a') p1 p2 copy Ht ltac:(by rewrite Est) Hf H1 H2 Hcopy)
    as (cs & Hcs & Hm).
  assert (cs = changes) as -> by (unfold t in Hcs; rewrite Hfeed in Hcs; by simplify_eq).
  destruct (stream_of_channel cap ws signals changes fuel Hchannel Hfuel) as (Hpre & Hch & Hst).
  rewrite Hp in Hch. split_and!; [exact Hpre|exact Hch|exact Hst|].
  intros Hall q Hq Hidle. fold stream P in Hch. rewrite Hch, Hall, mirror_filter by done. by apply Hm.
Qed.

End follow.

(** ** Witness: a client follows two puts, one of them under its prefix. *)

Abbreviation FollowPool := (Pool (F:=sample_fjall) (B:=sample_broadcast) (G:=sample_governor)).

Definition watch_a : Request WatchRequest :=
  mkRequest None (Some Anonymous) {| watch_tenant := lit "acme"; watch_prefix := lit "a" |}.

Definition follow_state : WatchState (B:=sample_broadcast) :=
  mkWatchState (0%nat : Receiver (Broadcast:=sample_broadcast)) (lit "a") 30000 30000 (lit "acme").
Definition follow_api : SampleApi := (watch_impl 0 0 watch_a sample_api).2.

Definition follow_end : FollowPool :=
  fold_left pool_event
    (Arrive (PutStart 0 (data_key (lit "acme") (lit "b")) (lit "2") 0) ::
     Arrive (PutStart 0 (data_key (lit "acme") (lit "a")) (lit "1") 0) :: replicate 10 (Turn 0) ++ replicate 10 (Turn 1))
    (mkPool [] (inner follow_api)).

Definition follow_changes : list KeyChange :=
  [mkChange ChangePut (lit "b") (lit "2"); mkChange ChangePut (lit "a") (lit "1")].

Definition follow_signals : list signal :=
  [Received 5 (mkChange ChangePut (lit "b") (lit "2")); Idle 30000;
   Received 30005 (mkChange ChangePut (lit "a") (lit "1"))].

Lemma follow_channel : drives 1024 [] 0 follow_signals follow_changes.
Proof.
  apply drives_send with (c := mkChange ChangePut (lit "b") (lit "2")).
  apply drives_receive; [done|simpl; lia|]. apply drives_idle.
  apply drives_send with (c := mkChange ChangePut (lit "a") (lit "1")).
  apply drives_receive; [done|simpl; lia|]. apply drives_stop.
Qed.

Lemma watcher_told_or_right_witness :
  omap client_change (watch_stream 4 follow_state follow_signals).1
    = filter (under (lit "a")) follow_changes ∧
  mirror ∅ (omap client_change (watch_stream 4 follow_state follow_signals).1) !! lit "a" = Some (lit "1").
Proof.
  assert ((watch_impl 0 0 watch_a sample_api).1 = Ok follow_state) as E by (vm_compute; reflexivity).
  assert (rtc (guarded undisturbed) (mkPool [] (inner follow_api)) follow_end) as H2.
  { apply (guarded_run_steps _ undisturbed_b _ _ undisturbed_b_ok). vm_compute. reflexivity. }
  destruct (watcher_told_or_right (BO:=sample_broadcast_ok) 0 0 watch_a sample_api follow_api follow_state
    (mkPool [] (inner follow_api)) follow_end ∅ 1024 follow_signals follow_changes 4)
    as (_ & Hs & _ & Hm).
  - reflexivity.
  - exact I.
  - by vm_compute.
  - rewrite <-E. apply surjective_pairing.
  - constructor.
  - exact H2.
  - intros q. assert (view (storage (inner follow_api)) = ∅) as Ev by reflexivity.
    unfold held. cbn [shared]. by rewrite Ev, !lookup_empty.
  - vm_compute. reflexivity.
  - exact follow_channel.
  - simpl. lia.
  - split; [exact Hs|]. rewrite Hm; [vm_compute; reflexivity|reflexivity|done|].
    assert (omap key_of (tasks follow_end) = []) as Ek by (vm_compute; reflexivity).
    intros pc Hin Hpc. assert (data_key (lit "acme") (lit "a") ∈ omap key_of (tasks follow_end)) as H.
    { apply list_elem_of_omap. exists pc. split; [exact Hin|exact Hpc]. }
    rewrite Ek in H. by apply elem_of_nil in H.
Defined.
