(* ===== verification/Server.v ===== *)
(** * The server ([ferriskv-node/src/main.rs], the service trait of [grpc.rs])

    How a node is put together: the interceptor built from the configuration stands
    in front of the service, whose calls run a handler and count the outcome. *)

From Stdlib Require Import Strings.Byte.
From S2P Require Import Prelude Bytes Core KeyCodec ValueCodec Storage Wal TtlIndex Quota.
From S2P Require Import Throttle Watch Config Service Node NodeSpec Sample Auth Grpc GrpcSpec.

(** [format!("{code:?}")]. *)
Definition code_debug (c : Code) : string :=
  match c with
  | InvalidArgument => "InvalidArgument"
  | ResourceExhausted => "ResourceExhausted"
  | CodeNotFound => "NotFound"
  | FailedPrecondition => "FailedPrecondition"
  | Unauthenticated => "Unauthenticated"
  | Internal => "Internal"
  | PermissionDenied => "PermissionDenied"
  | DataLoss => "DataLoss"
  end.

(** One increment of [ferriskv_rpc_requests_total]. *)
Record RpcCount := mkCount {
  count_rpc : string;
  count_tenant : bytes;
  count_code : string;
}.

Section server.
Context {F : Fjall} {FS : FjallSpec} {B : Broadcast} {G : Governor} {C : Crc32} {J : QuotaJson} {H3 : Blake3}.
Context {W : JsonWebToken}.

Abbreviation Api := (Grpc.Api F B G).

Record Server := mkServer {
  api : Api;
  rpc_counts : list RpcCount;
}.

(** [record_rpc], without the latency histogram. *)
Definition record_rpc {R} (rpc : string) (tenant : bytes) (result : result Status R) (s : Server) :
    Server :=
  let code :=
    match result with
    | Err st => code_debug (code st)
    | _ => "Ok"%string
    end in
  mkServer (api s) (rpc_counts s ++ [mkCount rpc tenant code]).

(** A call of the service: the handler, then the count.  A panicking handler never
    gets there. *)
Definition recorded {R} (rpc : string) (tenant : bytes) (handler : M Api Status R) :
    M Server Status R := λ s,
  match handler (api s) with
  | (Panic, a) => (Panic, mkServer a (rpc_counts s))
  | (result, a) => (result, record_rpc rpc tenant result (mkServer a (rpc_counts s)))
  end.

Definition rpc_get (g sys : Z) (req : Request GetRequest) : M Server Status GetResponse :=
  recorded "get" (get_tenant (get_ref req)) (get_impl g sys req).
Definition rpc_put (g sys : Z) (req : Request PutRequest) : M Server Status PutResponse :=
  recorded "put" (put_tenant (get_ref req)) (put_impl g sys req).
Definition rpc_delete (g sys : Z) (req : Request DeleteRequest) : M Server Status DeleteResponse :=
  recorded "delete" (del_tenant (get_ref req)) (delete_impl g sys req).
Definition rpc_scan (g sys : Z) (req : Request ScanRequest) : M Server Status (list ScanChunk) :=
  recorded "scan" (scan_tenant (get_ref req)) (scan_impl g sys req).
Definition rpc_watch (g instant : Z) (req : Request WatchRequest) : M Server Status WatchState :=
  recorded "watch" (watch_tenant (get_ref req)) (watch_impl g instant req).
Definition rpc_batch (g sys : Z) (req : Request BatchRequest) : M Server Status BatchResponse :=
  recorded "batch" (batch_tenant (get_ref req)) (batch_impl g sys req).

(** [FerrisKvServer::with_interceptor]: the interceptor sees the request first. *)
Definition with_interceptor {T R} (now : Z) (i : AuthInterceptor) (service : Request T → M Server Status R)
    (req : Request T) : M Server Status R := λ s,
  match call now i req with
  | Ok req => service req s
  | Err st => (Err st, s)
  | Panic => (Panic, s)
  end.

(** What [main] builds from the [auth] section. *)
Definition build_auth_interceptor (read : Path → result string bytes) (cfg : AuthConfig) :
    result string AuthInterceptor :=
  if Config.insecure cfg then Ok insecure_interceptor else
  loaded ← load_public_key read cfg;
  pem ← ok_or "auth: public_key_path required when not insecure"%string loaded;
  verifier ← map_err auth_error_text (new_rs256 pem);
  mret (with_verifier verifier).

(** ** Lemmas *)

(** The verifier of a server whose configuration asks for tokens: RS256, with the key in
    the file it names. *)
Definition configured_verifier (read : Path → result string bytes) (cfg : AuthConfig) (v : JwtVerifier) :
    Prop :=
  ∃ path pem, public_key_path cfg = Some path ∧ read path = Ok pem ∧ new_rs256 pem = Ok v.

(** The token a request bears, under either spelling of the scheme, verifies. *)
Definition bears_token {T} (now : Z) (v : JwtVerifier) (req : Request T) : bool :=
  match authorization req with
  | Some header =>
      existsb (λ scheme, match strip_str_prefix scheme header with
                         | Some token => is_ok (verify now v token)
                         | None => false
                         end) [lit "Bearer "; lit "bearer "]
  | None => false
  end.

(** A token the server accepted, naming the tenant and carrying the permission. *)
Definition vouched {T} (now : Z) (v : JwtVerifier) (req : Request T) (tenant perm : bytes) : Prop :=
  ∃ header token claims, authorization req = Some header ∧
    (header = lit "Bearer " ++ token ∨ header = lit "bearer " ++ token) ∧
    verify now v token = Ok claims ∧ claim_tenant claims = tenant ∧
    (lit "admin" ∈ perms claims ∨ perm ∈ perms claims).

Lemma strip_str_prefix_spec p s t : strip_str_prefix p s = Some t → s = p ++ t.
Proof.
  unfold strip_str_prefix. destruct (starts_with p s) eqn:E; [|done]. intros [= <-].
  apply starts_with_spec in E as [r ->]. by rewrite drop_app_length.
Qed.

Lemma call_verifier {T} now v (req req' : Request T) :
  call now (with_verifier v) req = Ok req' →
  get_ref req' = get_ref req ∧
  ∃ header token claims, authorization req = Some header ∧
    (header = lit "Bearer " ++ token ∨ header = lit "bearer " ++ token) ∧
    verify now v token = Ok claims ∧ principal req' = Some (Authenticated claims).
Proof.
  unfold call. simpl. destruct (authorization req) as [h|]; [|done].
  unfold to_str. destruct (forallb is_visible_ascii h); [|done].
  destruct (strip_str_prefix (lit "Bearer ") h) as [t|] eqn:E1;
    [|destruct (strip_str_prefix (lit "bearer ") h) as [t|] eqn:E2; [|done]].
  - apply strip_str_prefix_spec in E1. unfold_monad.
    destruct (verify now v t) as [c| |] eqn:Ev; [|done..]. intros [= <-]. split; [done|]. exists h, t, c. auto.
  - apply strip_str_prefix_spec in E2. unfold_monad.
    destruct (verify now v t) as [c| |] eqn:Ev; [|done..]. intros [= <-]. split; [done|]. exists h, t, c. auto.
Qed.

Lemma may_vouched {T} now v (req req' : Request T) tenant perm :
  call now (with_verifier v) req = Ok req' → may req' tenant perm → vouched now v req tenant perm.
Proof.
  intros (_ & h & t & c & Ha & Hh & Hv & Hp)%call_verifier Hmay.
  unfold may in Hmay. rewrite Hp in Hmay. destruct Hmay as [Ht Hperm].
  exists h, t, c. done.
Qed.

Lemma build_secure read cfg i :
  Config.insecure cfg = false → build_auth_interceptor read cfg = Ok i →
  ∃ v, i = with_verifier v ∧ configured_verifier read cfg v.
Proof.
  intros Hs. unfold build_auth_interceptor, load_public_key, configured_verifier. rewrite Hs. intros H.
  destruct (public_key_path cfg) as [path|]; [|done]. destruct (read path) as [pem| |] eqn:Er; [|done..].
  cbn [mbind result_bind map_err ok_or mret result_ret] in H.
  destruct (new_rs256 pem) as [v| |] eqn:Ev; [|done..]. injection H as <-. eauto 10.
Qed.

(** Without such a token the interceptor lets nothing through. *)
Lemma call_bears_token {T} now v (req req' : Request T) :
  call now (with_verifier v) req = Ok req' → bears_token now v req = true.
Proof.
  intros (_ & h & t & c & Ha & Hh & Hv & _)%call_verifier. unfold bears_token. rewrite Ha.
  assert (∀ p, In p [lit "Bearer "; lit "bearer "] → h = p ++ t →
    existsb (λ scheme, match strip_str_prefix scheme h with
                       | Some token => is_ok (verify now v token)
                       | None => false
                       end) [lit "Bearer "; lit "bearer "] = true) as Hp.
  { intros p Hin ->. apply existsb_exists. exists p. split; [done|]. unfold strip_str_prefix.
    rewrite (proj2 (starts_with_spec _ _)) by (by eexists). by rewrite drop_app_length, Hv. }
  destruct Hh as [Hh|Hh]; (eapply Hp; [|exact Hh]); simpl; auto.
Qed.

Lemma intercepted_tokenless {T R} now v (service : Request T → M Server Status R) (req : Request T) s :
  bears_token now v req = false → (with_interceptor now (with_verifier v) service req s).2 = s.
Proof.
  intros Hno. unfold with_interceptor. destruct (call now (with_verifier v) req) as [req'| |] eqn:E; [|done..].
  apply call_bears_token in E. congruence.
Qed.

Lemma recorded_state {R} rpc tenant (h : M Api Status R) s :
  api (recorded rpc tenant h s).2 = (h (api s)).2.
Proof. unfold recorded, record_rpc. by destruct (h (api s)) as [[]?]. Qed.

(** Through a verifying interceptor, a call of an unauthorized caller changes
    nothing of the node. *)
Lemma intercepted_untouched {T R} now v (service : Request T → M Server Status R)
    (rpc : string) (tenant perm : T → bytes) (impl : Request T → M Api Status R) (req : Request T) s :
  (∀ req, service req = recorded rpc (tenant (get_ref req)) (impl req)) →
  (∀ req a, ¬ may req (tenant (get_ref req)) (perm (get_ref req)) → (impl req a).2 = a) →
  api (with_interceptor now (with_verifier v) service req s).2 ≠ api s →
  vouched now v req (tenant (get_ref req)) (perm (get_ref req)).
Proof.
  intros Hservice Hgate Hchange. unfold with_interceptor in Hchange.
  destruct (call now (with_verifier v) req) as [req'| |] eqn:E; [|done..].
  pose proof (call_verifier _ _ _ _ E) as [Href _].
  rewrite Hservice, recorded_state in Hchange.
  destruct (authorize_spec req' (tenant (get_ref req')) (perm (get_ref req'))) as [[_ Hmay]|[_ Hno]].
  - rewrite Href in Hmay. by eapply may_vouched.
  - by destruct Hchange; apply Hgate.
Qed.

(** ** Properties *)

(** C8: nothing is written without a token.  On a server whose configuration does
    not declare authentication insecure, the interceptor built from it verifies RS256
    tokens with the key in the configured file, and: a put or a delete that changes
    anything of the node (data, log, counters, rate limiters, audit trail) was sent with
    a bearer token that this key verifies, whose claims name the tenant and carry the
    permission or "admin"; a batch that changes anything but the rate limiters contains
    a put or a delete, and its token vouches for every put and every delete in it; and a
    batch that changes anything at all, the rate limiters included, bears a token this
    key verifies. *)
Theorem writes_need_a_token read cfg i (Hsecure : Config.insecure cfg = false)
    (Hbuilt : build_auth_interceptor read cfg = Ok i) :
  ∃ v, i = with_verifier v ∧ configured_verifier read cfg v ∧
  (∀ now g sys req s,
     api (with_interceptor now i (rpc_put g sys) req s).2 ≠ api s →
     vouched now v req (put_tenant (get_ref req)) PERM_WRITE) ∧
  (∀ now g sys req s,
     api (with_interceptor now i (rpc_delete g sys) req s).2 ≠ api s →
     vouched now v req (del_tenant (get_ref req)) PERM_DELETE) ∧
  (∀ now g sys req s,
     ¬ only_throttled (api s) (api (with_interceptor now i (rpc_batch g sys) req s).2) →
     (∃ op, op ∈ ops (get_ref req) ∧ (op_code op = OP_PUT ∨ op_code op = OP_DELETE)) ∧
     ∀ op, op ∈ ops (get_ref req) →
       (op_code op = OP_PUT → vouched now v req (batch_tenant (get_ref req)) PERM_WRITE) ∧
       (op_code op = OP_DELETE → vouched now v req (batch_tenant (get_ref req)) PERM_DELETE)) ∧
  (∀ now g sys req s,
     api (with_interceptor now i (rpc_batch g sys) req s).2 ≠ api s → bears_token now v req = true).
Proof.
  destruct (build_secure _ _ _ Hsecure Hbuilt) as (v & -> & Hv). exists v. split_and!; [done|done|..].
  - intros now g sys req s.
    apply (intercepted_untouched now v _ "put" put_tenant (λ _, PERM_WRITE) (put_impl g sys)); [done|].
    intros req0 a Hno. by destruct (proj1 (proj2 (gate_refuses g sys 0 a)) req0 Hno) as [st ->].
  - intros now g sys req s.
    apply (intercepted_untouched now v _ "delete" del_tenant (λ _, PERM_DELETE) (delete_impl g sys)); [done|].
    intros req0 a Hno. by destruct (proj1 (proj2 (proj2 (gate_refuses g sys 0 a))) req0 Hno) as [st ->].
  - intros now g sys req s. unfold with_interceptor.
    destruct (call now (with_verifier v) req) as [req'| |] eqn:E;
      [|intros Hno; by destruct Hno; apply only_throttled_refl..].
    pose proof (call_verifier _ _ _ _ E) as [Href _]. unfold rpc_batch. rewrite recorded_state.
    intros Hchange. split.
    + destruct (decide (Exists (λ o, op_code o = OP_PUT ∨ op_code o = OP_DELETE) (ops (get_ref req))))
        as [(op & Hin & Hop)%Exists_exists|Hno]; [by exists op|exfalso].
      apply Hchange, unknown_batch_frame. rewrite Href. apply not_Exists_Forall in Hno; [|apply _].
      eapply Forall_impl; [exact Hno|]. naive_solver.
    + assert (∀ op, op ∈ ops (get_ref req) →
        op_code op = OP_PUT ∧ ¬ may req' (batch_tenant (get_ref req)) PERM_WRITE ∨
        op_code op = OP_DELETE ∧ ¬ may req' (batch_tenant (get_ref req)) PERM_DELETE → False) as Hgate.
      { intros op Hin Hop. rewrite <-Href in Hin, Hop.
        pose proof (proj2 (proj2 (proj2 (proj2 (proj2 (gate_refuses g sys 0 (api s))))))) as Hg.
        destruct (Hg req' op Hin Hop) as [st Est]. rewrite Est in Hchange. destruct Hchange.
        apply only_throttled_refl. }
      intros op Hin. split; intros Hop.
      * destruct (authorize_spec req' (batch_tenant (get_ref req)) PERM_WRITE) as [[_ ?]|[_ ?]];
          [by eapply may_vouched|by destruct (Hgate op Hin); auto].
      * destruct (authorize_spec req' (batch_tenant (get_ref req)) PERM_DELETE) as [[_ ?]|[_ ?]];
          [by eapply may_vouched|by destruct (Hgate op Hin); auto].
  - intros now g sys req s Hchange. destruct (bears_token now v req) eqn:E; [done|].
    destruct Hchange. by rewrite intercepted_tokenless.
Qed.

End server.

(** ** Witnesses *)

(** A verifier that knows one key and one token, alice's at acme. *)
Definition sample_jwt : JsonWebToken := {|
  DecodingKey := bytes;
  from_secret := λ b, b;
  from_rsa_pem := λ pem, if decide (pem = lit "PEM") then inr pem else inl "bad key"%string;
  jwt_decode := λ _ token _ _,
    if decide (token = lit "t") then
      inr (mkClaims (lit "alice") (lit "acme") [] [lit "write"] 0 None)
    else inl (OtherJwtError "bad token");
|}.
#[export] Existing Instance sample_jwt.

Definition sample_auth : AuthConfig :=
  {| Config.insecure := false; public_key_path := Some (mkPath false ["key.pem"%string]) |}.

Definition sample_read : Path → result string bytes := λ _, Ok (lit "PEM").

Definition sample_server : Server := mkServer sample_api [].

Definition put_with_token : Request PutRequest := mkRequest (Some (lit "Bearer t")) None put_k.

Definition sample_verifier : JwtVerifier := mkVerifier (lit "PEM" : DecodingKey) RS256.

Lemma sample_interceptor_built :
  build_auth_interceptor sample_read sample_auth = Ok (with_verifier sample_verifier).
Proof. reflexivity. Qed.

(** The put goes through: it is audited. *)
Lemma sample_put_audited :
  length (audit_log (api (with_interceptor 0 (with_verifier sample_verifier) (rpc_put 0 0)
    put_with_token sample_server).2)) = 1%nat.
Proof. vm_compute. reflexivity. Qed.

Lemma writes_need_a_token_witness :
  ∃ v, with_verifier sample_verifier = with_verifier v ∧ configured_verifier sample_read sample_auth v ∧
    vouched 0 v put_with_token (lit "acme") PERM_WRITE.
Proof.
  destruct (writes_need_a_token sample_read sample_auth _ eq_refl sample_interceptor_built)
    as (v & Hi & Hkey & Hput & _).
  exists v. split; [exact Hi|]. split; [exact Hkey|]. apply (Hput 0 0 0 put_with_token sample_server).
  intros Heq. apply (f_equal (λ a, length (audit_log a))) in Heq.
  rewrite sample_put_audited in Heq. discriminate.
Defined.
