(* ===== verification/Cli.v ===== *)
(** * The command-line client ([ferriskv-cli/src/main.rs])

    One command, one request, and what is printed.  The transport ([tonic]'s
    endpoint and its TLS settings) is a parameter; the server at the other end is the
    one of [Server.v], so a command is a step of it.  [String::from_utf8_lossy],
    through which everything is printed, is written out.

    The theorems: printing is faithful to what is valid text and always produces
    text; a put is what the next get prints; against a node that authenticates,
    every command is turned away, since the client has no way to send a token. *)

From Stdlib Require Import Strings.Byte.
From S2P Require Import Prelude Bytes Core KeyCodec ValueCodec Storage Wal TtlIndex Quota.
From S2P Require Import Throttle Watch Config Service Node NodeSpec Sample Auth Grpc GrpcSpec Server.

(** ** Printing bytes

    [String::from_utf8_lossy]: a maximal prefix of a well-formed sequence that is
    broken off, or a byte that starts none, becomes one U+FFFD. *)

Definition REPLACEMENT : bytes := [xef; xbf; xbd].

(** What the second byte of a sequence of three or four may be. *)
Definition second_of_3 (b0 b1 : byte) : bool :=
  if byte_Z b0 =? 0xE0 then in_range 0xA0 0xBF b1
  else if byte_Z b0 =? 0xED then in_range 0x80 0x9F b1
  else continuation b1.

Definition second_of_4 (b0 b1 : byte) : bool :=
  if byte_Z b0 =? 0xF0 then in_range 0x90 0xBF b1
  else if byte_Z b0 =? 0xF4 then in_range 0x80 0x8F b1
  else continuation b1.

Fixpoint from_utf8_lossy (l : bytes) : bytes :=
  match l with
  | [] => []
  | b0 :: t =>
      if byte_Z b0 <? 0x80 then b0 :: from_utf8_lossy t
      else if in_range 0xC2 0xDF b0 then
        match t with
        | b1 :: t' =>
            if continuation b1 then b0 :: b1 :: from_utf8_lossy t'
            else REPLACEMENT ++ from_utf8_lossy t
        | [] => REPLACEMENT
        end
      else if in_range 0xE0 0xEF b0 then
        match t with
        | b1 :: t' =>
            if second_of_3 b0 b1 then
              match t' with
              | b2 :: t'' =>
                  if continuation b2 then b0 :: b1 :: b2 :: from_utf8_lossy t''
                  else REPLACEMENT ++ from_utf8_lossy t'
              | [] => REPLACEMENT
              end
            else REPLACEMENT ++ from_utf8_lossy t
        | [] => REPLACEMENT
        end
      else if in_range 0xF0 0xF4 b0 then
        match t with
        | b1 :: t' =>
            if second_of_4 b0 b1 then
              match t' with
              | b2 :: t'' =>
                  if continuation b2 then
                    match t'' with
                    | b3 :: t3 =>
                        if continuation b3 then b0 :: b1 :: b2 :: b3 :: from_utf8_lossy t3
                        else REPLACEMENT ++ from_utf8_lossy t''
                    | [] => REPLACEMENT
                    end
                  else REPLACEMENT ++ from_utf8_lossy t'
              | [] => REPLACEMENT
              end
            else REPLACEMENT ++ from_utf8_lossy t
        | [] => REPLACEMENT
        end
      else REPLACEMENT ++ from_utf8_lossy t
  end.

Lemma bytes_ind_len (P : bytes → Prop) :
  (∀ l, (∀ l', (length l' < length l)%nat → P l') → P l) → ∀ l, P l.
Proof.
  intros H l. remember (length l) as n eqn:Hn. revert l Hn.
  induction n as [n IH] using lt_wf_ind. intros l ->. apply H. intros l' Hl. by apply (IH (length l')).
Qed.

(** Valid text is printed as it is. *)
Lemma from_utf8_lossy_valid l : utf8_valid l = true → from_utf8_lossy l = l.
Proof.
  induction l as [l IH] using bytes_ind_len. destruct l as [|b0 t]; [done|].
  cbn [utf8_valid from_utf8_lossy].
  destruct (byte_Z b0 <? 0x80); [intros H; f_equal; apply IH; [simpl; lia|done]|].
  destruct (in_range 0xC2 0xDF b0).
  { destruct t as [|b1 t]; [done|]. intros [-> H]%andb_true_iff. repeat f_equal.
    apply IH; [simpl; lia|done]. }
  destruct (in_range 0xE0 0xEF b0).
  { destruct t as [|b1 [|b2 t]]; [done..|]. intros [[Hb ->]%andb_true_iff H]%andb_true_iff.
    change (second_of_3 b0 b1 = true) in Hb. rewrite Hb. repeat f_equal.
    apply IH; [simpl; lia|done]. }
  destruct (in_range 0xF0 0xF4 b0); [|done].
  destruct t as [|b1 [|b2 [|b3 t]]]; [done..|].
  intros [[[Hb ->]%andb_true_iff ->]%andb_true_iff H]%andb_true_iff.
  change (second_of_4 b0 b1 = true) in Hb. rewrite Hb. repeat f_equal. apply IH; [simpl; lia|done].
Qed.

(** What is printed is text. *)
Lemma from_utf8_lossy_is_text l : utf8_valid (from_utf8_lossy l) = true.
Proof.
  assert (∀ r, utf8_valid r = true → utf8_valid (REPLACEMENT ++ r) = true) as Hrep by done.
  induction l as [l IH] using bytes_ind_len. destruct l as [|b0 t]; [done|].
  cbn [from_utf8_lossy].
  destruct (byte_Z b0 <? 0x80) eqn:E1.
  { cbn [utf8_valid]. rewrite E1. apply IH. simpl. lia. }
  destruct (in_range 0xC2 0xDF b0) eqn:E2.
  { repeat case_match; subst; try done; try (apply Hrep, IH; simpl; lia).
    cbn [utf8_valid]. rewrite E1, E2. apply andb_true_iff. split; [done|]. apply IH. simpl. lia. }
  destruct (in_range 0xE0 0xEF b0) eqn:E3.
  { repeat case_match; subst; try done; try (apply Hrep, IH; simpl; lia).
    cbn [utf8_valid]. rewrite E1, E2, E3. rewrite !andb_true_iff. split_and!; [done|done|].
    apply IH. simpl. lia. }
  destruct (in_range 0xF0 0xF4 b0) eqn:E4.
  { repeat case_match; subst; try done; try (apply Hrep, IH; simpl; lia).
    cbn [utf8_valid]. rewrite E1, E2, E3, E4. rewrite !andb_true_iff. split_and!; [done|done|done|].
    apply IH. simpl. lia. }
  apply Hrep, IH. simpl. lia.
Qed.

(** ** Commands *)

Inductive Command :=
| CliGet (key : bytes)
| CliPut (key value : bytes) (ttl_ms : Z)
| CliDelete (key : bytes)
| CliScan (prefix : bytes) (limit : Z).

Record Args := mkArgs {
  endpoint : string;
  tenant : bytes;
  tls_ca : option Path;
  tls_domain : option string;
  cmd : Command;
}.

(** [tonic::transport]. *)
Class TonicClient := {
  Endpoint : Type;
  ClientTls : Type;
  from_shared : string → result string Endpoint;
  with_native_roots : ClientTls;
  ca_certificate : bytes → ClientTls → ClientTls;
  domain_name : string → ClientTls → ClientTls;
  tls_config : ClientTls → Endpoint → result string Endpoint;
  connect : Endpoint → result string unit;
}.

(** [anyhow::Context]. *)
Definition context {A} (c : string) (r : result string A) : result string A :=
  map_err (λ e, c +:+ ": " +:+ e) r.

Definition build_channel `{TonicClient} (read : Path → result string bytes) (args : Args) :
    result string unit :=
  ep ← context "invalid endpoint URL" (from_shared (endpoint args));
  ep ← (if String.prefix "https://" (endpoint args) then
          tls ← match tls_ca args with
                | Some path =>
                    pem ← context ("read tls-ca " +:+ display path) (read path);
                    mret (ca_certificate pem with_native_roots)
                | None => mret with_native_roots
                end;
          let tls := match tls_domain args with
                     | Some domain => domain_name domain tls
                     | None => tls
                     end in
          context "configure TLS" (tls_config tls ep)
        else mret ep);
  context "connect to endpoint" (connect ep).

(** How the process ends: normally, with [process::exit], with an error of its own,
    with the status the server answered, or without an answer. *)
Inductive Exit := Success | ExitCode (n : Z) | Failed (e : string) | Refused (st : Status) | Lost.

Record Output := mkOutput {
  stdout : list bytes;
  exit : Exit;
}.

Definition show_get (resp : GetResponse) : Output :=
  if found resp then mkOutput [from_utf8_lossy (got resp)] Success
  else mkOutput [] (ExitCode 1).

Definition show_put (resp : PutResponse) : Output :=
  mkOutput [lit "version=" ++ lit (pretty (put_version resp))] Success.

Definition show_delete (resp : DeleteResponse) : Output :=
  mkOutput [lit "found=" ++ lit (if del_found resp then "true" else "false")] Success.

(** One line per entry of every message of the stream. *)
Definition show_scan (chunks : list ScanChunk) : Output :=
  mkOutput
    ((λ kv, from_utf8_lossy (kv_key kv) ++ [x09] ++ from_utf8_lossy (kv_value kv))
       <$> (chunks ≫= chunk_entries)) Success.

Section cli.
Context {F : Fjall} {FS : FjallSpec} {FO : FjallOk}.
Context {B : Broadcast} {G : Governor} {C : Crc32} {CO : Crc32Ok} {J : QuotaJson} {H3 : Blake3}.
Context {W : JsonWebToken} {T : TonicClient}.

Abbreviation Server := (Server.Server (F:=F) (B:=B) (G:=G)).

(** A call of the generated client: no metadata is attached to the request. *)
Definition send {R A} (now : Z) (i : AuthInterceptor) (service : Request R → M Server Status A)
    (r : R) (show : A → Output) (s : Server) : Output * Server :=
  match with_interceptor now i service (mkRequest None None r) s with
  | (Ok resp, s') => (show resp, s')
  | (Err st, s') => (mkOutput [] (Refused st), s')
  | (Panic, s') => (mkOutput [] Lost, s')
  end.

(** [main], against a server whose interceptor is [i]. *)
Definition cli_main (read : Path → result string bytes) (now g sys : Z) (i : AuthInterceptor)
    (args : Args) (s : Server) : Output * Server :=
  match build_channel read args with
  | Err e => (mkOutput [] (Failed e), s)
  | Panic => (mkOutput [] Lost, s)
  | Ok _ =>
      match cmd args with
      | CliGet key =>
          send now i (rpc_get g sys) {| get_tenant := tenant args; get_key := key |} show_get s
      | CliPut key value ttl_ms =>
          send now i (rpc_put g sys)
            {| put_tenant := tenant args; put_key := key; put_value := value; ttl_ms := ttl_ms |}
            show_put s
      | CliDelete key =>
          send now i (rpc_delete g sys) {| del_tenant := tenant args; del_key := key |} show_delete s
      | CliScan prefix limit =>
          send now i (rpc_scan g sys)
            {| scan_tenant := tenant args; scan_prefix := prefix; scan_limit := limit |} show_scan s
      end
  end.

(** ** Properties *)

(** What a call gives when the handler answers. *)
Lemma send_insecure {R A} now rpc tn (handler : Request R → M (Grpc.Api F B G) Status A) r show s x a :
  handler (mkRequest None (Some Anonymous) r) (api s) = (Ok x, a) →
  ∃ counts, send now insecure_interceptor (λ req, recorded rpc tn (handler req)) r show s
            = (show x, mkServer a counts).
Proof. intros E. unfold send, with_interceptor, recorded. simpl. rewrite E. eauto. Qed.

(** A tenant without a rate limit. *)
Definition unlimited (s : NodeService (F:=F) (B:=B) (G:=G)) (t : bytes) : Prop :=
  max_ops_per_sec (quota (quota_store s) t) = 0 ∧ default_ops_per_sec (throttle s) = 0.

(** C32: what the client puts is what it gets, until it expires.  Against a node in order
    that does not authenticate, for a tenant without a rate limit, of a text within the
    node's limits and the tenant's quota, [put] prints the version, whatever its
    [--ttl-ms]; a following [get] of the key prints the value, byte for byte, while the
    node's clock is before the expiry the put has stamped, and always when there is no
    time to live; from then on it prints nothing and exits with 1.  (A node that
    authenticates refuses every command of this client.) *)
Theorem cli_put_then_get read now g g' sys sys' args args' k v ttl s l
    (Hn : node_ok (inner (api s))) (Henv : env_ok (inner (api s)) l)
    (Ht : valid_tenant (tenant args)) (Htext : utf8_valid v = true)
    (Hc : build_channel read args = Ok tt) (Hc' : build_channel read args' = Ok tt)
    (Hput : cmd args = CliPut k v ttl) (Hget : cmd args' = CliGet k) (Hsame : tenant args' = tenant args)
    (Hops : unlimited (inner (api s)) (tenant args))
    (Hk : len k ≤ max_key_size (limits_of (api s))) (Hv : len v ≤ max_value_size (limits_of (api s)))
    (Hq : check_write (quota_store (inner (api s))) (tenant args)
            (growth (inner (api s)) (tenant args) k v) = Ok tt)
    (Hfits : write_fits (inner (api s)) (tenant args) (data_key (tenant args) k)
               (ValueCodec.encode v (expiry (inner (api s)) sys ttl))) :
  ∃ s1 s2,
    cli_main read now g sys insecure_interceptor args s = (mkOutput [lit "version=0"] Success, s1) ∧
    cli_main read now g' sys' insecure_interceptor args' s1 =
      (if 0 <? ttl then
         if Service.now (inner (api s)) sys' <? sat_add64 (Service.now (inner (api s)) sys) ttl
         then mkOutput [v] Success else mkOutput [] (ExitCode 1)
       else mkOutput [v] Success, s2).
Proof.
  set (t := tenant args) in *. set (a := api s) in *. destruct Hops as [Hops1 Hops2].
  destruct (put_runs sys t k v ttl (inner a) l Hn Henv Ht Hfits Hq) as (n' & l' & E & We).
  set (req := mkRequest None (Some Anonymous)
    {| put_tenant := t; put_key := k; put_value := v; ttl_ms := ttl |}).
  set (a1 := mkApi n' (audit_log a ++ [write_record req t "put" k (len v)])).
  assert (put_impl g sys req a = (Ok {| put_version := 0 |}, a1)) as Eput.
  { pose proof (put_impl_step g sys req a a) as Hs. cbn [get_ref req] in Hs.
    rewrite Hs, E; [done|apply Ht|done|by apply admit_unlimited|done|done]. }
  assert (get_impl g' sys' (mkRequest None (Some Anonymous) {| get_tenant := t; get_key := k |}) a1
          = (Ok (get_response (if (match expiry (inner a) sys ttl with
                                   | Some e => e <=? Service.now (inner a) sys'
                                   | None => false
                                   end : bool) then None else Some v)), a1)) as Eget.
  { pose proof (get_impl_runs g' sys' (mkRequest None (Some Anonymous)
      {| get_tenant := t; get_key := k |}) a1 a1) as Hr. cbn [get_ref] in Hr.
    rewrite Hr; [|apply We|apply We|apply Ht|done| |].
    - unfold stored. cbn [inner a1]. do 3 f_equal.
      rewrite (visible_agree _ (<[data_key t k:=ValueCodec.encode v (expiry (inner a) sys ttl)]> (view (storage (inner a))))).
      + rewrite visible_insert by (apply expiry_u64, Henv). rewrite decide_True by done.
        unfold Service.now. by rewrite (we_clock _ _ _ _ _ _ We).
      + apply We. by exists t, k.
    - apply admit_unlimited; cbn [inner a1].
      + unfold quota. rewrite (we_quotas _ _ _ _ _ _ We), (we_default _ _ _ _ _ _ We). done.
      + by rewrite (we_throttle _ _ _ _ _ _ We).
    - unfold limits_of. cbn [inner a1]. by rewrite (we_config _ _ _ _ _ _ We). }
  unfold cli_main. rewrite Hc, Hc', Hput, Hget, Hsame. fold t.
  destruct (send_insecure now "put" t (put_impl g sys) _ show_put s _ _ Eput) as [c1 E1].
  destruct (send_insecure now "get" t (get_impl g' sys') _ show_get (mkServer a1 c1) _ _ Eget) as [c2 E2].
  eexists _, _. split; [exact E1|].
  etrans; [exact E2|]. f_equal.
  assert (show_get (get_response (Some v)) = mkOutput [v] Success) as Eshow
    by (cbn; by rewrite (from_utf8_lossy_valid v Htext)).
  unfold expiry. destruct (0 <? ttl); [|exact Eshow]. rewrite Z.leb_antisym. destruct (_ <? _); [exact Eshow|done].
Qed.

(** the client cannot talk to a node that authenticates.  It attaches no token to
    any request, so every command that reaches such a node ends with the
    [Unauthenticated] status, and the node is as it was. *)
Theorem cli_is_never_authenticated read now g sys v args s (Hc : build_channel read args = Ok tt) :
  ∃ st, cli_main read now g sys (with_verifier v) args s = (mkOutput [] (Refused st), s) ∧
    code st = Unauthenticated.
Proof. unfold cli_main. rewrite Hc. destruct (cmd args); by eexists. Qed.

End cli.

(** A transport that reaches every endpoint. *)
Definition sample_client : TonicClient := {|
  Endpoint := string;
  ClientTls := unit;
  from_shared := Ok;
  with_native_roots := tt;
  ca_certificate _ _ := tt;
  domain_name _ _ := tt;
  tls_config _ ep := Ok ep;
  connect _ := Ok tt;
|}.

Definition sample_args (c : Command) : Args :=
  mkArgs "http://127.0.0.1:7100" (lit "acme") None None c.

Lemma cli_put_then_get_witness :
  ∃ s1 s2,
    cli_main (T:=sample_client) sample_read 0 0 0 insecure_interceptor
      (sample_args (CliPut (lit "k") (lit "v") 50)) sample_server = (mkOutput [lit "version=0"] Success, s1) ∧
    cli_main (T:=sample_client) sample_read 0 0 40 insecure_interceptor
      (sample_args (CliGet (lit "k"))) s1 = (mkOutput [lit "v"] Success, s2).
Proof.
  apply (cli_put_then_get (T:=sample_client) sample_read 0 0 0 0 40 (sample_args (CliPut (lit "k") (lit "v") 50))
    (sample_args (CliGet (lit "k"))) (lit "k") (lit "v") 50 sample_server empty_log);
    try reflexivity.
  - apply sample_node_ok.
  - apply sample_env_ok.
  - apply acme_valid.
  - split; reflexivity.
  - vm_compute. discriminate.
  - vm_compute. discriminate.
  - split; vm_compute; reflexivity.
Defined.

Lemma cli_is_never_authenticated_witness :
  ∃ st, cli_main (T:=sample_client) sample_read 0 0 0 (with_verifier sample_verifier)
    (sample_args (CliGet (lit "k"))) sample_server = (mkOutput [] (Refused st), sample_server).
Proof.
  destruct (cli_is_never_authenticated (T:=sample_client) sample_read 0 0 0 sample_verifier
    (sample_args (CliGet (lit "k"))) sample_server) as (st & E & _); [reflexivity|].
  exists st. exact E.
Defined.
