(* ===== verification/Admin.v ===== *)
(** * The admin server ([ferriskv-node/src/admin.rs])

    Quota administration and the health probes, as functions of the node's state.
    A handler returns an HTTP status with either its response or an error body.
    The routes are in [AdminHttp.v]; rendering metrics is not modelled. *)

From Stdlib Require Import Strings.Byte.
From S2P Require Import Prelude Bytes Core KeyCodec ValueCodec Storage Wal TtlIndex Quota.
From S2P Require Import Throttle Watch Config Service Node NodeSpec Sample.

Definition READYZ_PROBE_KEY : bytes := lit "__ferriskv_internal_probe__".

Inductive StatusCode := OK | BAD_REQUEST | INTERNAL_SERVER_ERROR | SERVICE_UNAVAILABLE.

Record ErrorResponse := mkErrorResponse { error : string }.
Abbreviation Failure := (StatusCode * ErrorResponse)%type.

Record QuotaEntry := mkQuotaEntry {
  qe_tenant : bytes;
  qe_usage : TenantUsage;
}.

Record QuotaListResponse := mkQuotaList {
  ql_node_id : bytes;
  tenants : list QuotaEntry;
}.

Record SetQuotaRequest := mkSetQuota {
  body_max_bytes : option Z;
  body_max_ops_per_sec : option Z;
}.

Record LiveResponse := mkLive {
  live_status : string;
  live_node_id : bytes;
  live_version : string;
}.

Record ReadyResponse := mkReady {
  ready_status : string;
  ready_node_id : bytes;
  ready_version : string;
  check_storage : string;
}.

Definition validate_tenant (tenant : bytes) : result Failure unit :=
  if (len tenant =? 0) || (255 <? len tenant) then
    Err (BAD_REQUEST, mkErrorResponse "tenant must be between 1 and 255 bytes")
  else Ok tt.

Definition internal (e : Error) : Failure :=
  (INTERNAL_SERVER_ERROR, mkErrorResponse (error_text e)).

Section admin.
Context {F : Fjall} {B : Broadcast} {G : Governor} {J : QuotaJson}.

Abbreviation Service := (NodeService (F:=F) (B:=B) (G:=G)).

Definition list_quotas (svc : Service) : QuotaListResponse :=
  mkQuotaList (node_id (config svc))
    ((λ '(tenant, usage), mkQuotaEntry tenant usage) <$> list_tenants (quota_store svc)).

Definition quota_entry (svc : Service) (tenant : bytes) : QuotaEntry :=
  mkQuotaEntry tenant (usage_of (quota_store svc) tenant).

Definition get_quota (tenant : bytes) : M Service Failure QuotaEntry :=
  lift (validate_tenant tenant);;
  gets (λ svc, quota_entry svc tenant).

Definition set_quota (tenant : bytes) (body : SetQuotaRequest) : M Service Failure QuotaEntry :=
  lift (validate_tenant tenant);;
  current ← gets (λ svc, quota (quota_store svc) tenant);
  let updated := mkQuota (default (max_bytes current) (body_max_bytes body))
                   (default (max_ops_per_sec current) (body_max_ops_per_sec body)) in
  mapM_err internal (in_quotas (Quota.set_quota tenant updated));;
  gets (λ svc, quota_entry svc tenant).

Definition clear_quota (tenant : bytes) : M Service Failure QuotaEntry :=
  lift (validate_tenant tenant);;
  mapM_err internal (in_quotas (Quota.clear_quota tenant));;
  gets (λ svc, quota_entry svc tenant).

(** [version] is the package's, from its build. *)
Definition live (version : string) (svc : Service) : LiveResponse :=
  mkLive "ok" (node_id (config svc)) version.

Definition ready (version : string) (svc : Service) : result Failure (StatusCode * ReadyResponse) :=
  let respond code status storage :=
    Ok (code, mkReady status (node_id (config svc)) version storage) in
  match st_get (storage svc) READYZ_PROBE_KEY with
  | Ok _ => respond OK "ready"%string "ok"%string
  | Err e => respond SERVICE_UNAVAILABLE "unready"%string (error_text e)
  | Panic => Panic
  end.

End admin.

(** ** Lemmas *)

Lemma validate_tenant_spec t : validate_tenant t = Ok tt ↔ 1 ≤ len t ≤ 255.
Proof.
  unfold validate_tenant. pose proof (len_nonneg t).
  destruct (Z.eqb_spec (len t) 0); [split; [done|lia]|].
  destruct (Z.ltb_spec 255 (len t)); split; (done || lia).
Qed.

Lemma validate_tenant_refuses t :
  ¬ (1 ≤ len t ≤ 255) →
  validate_tenant t = Err (BAD_REQUEST, mkErrorResponse "tenant must be between 1 and 255 bytes").
Proof.
  intros H. unfold validate_tenant. pose proof (len_nonneg t).
  destruct (Z.eqb_spec (len t) 0); [done|]. destruct (Z.ltb_spec 255 (len t)); [done|lia].
Qed.

(** The tenants [list] visits: those with a counter, then those with limits only. *)
Lemma elem_of_list_tenants qs t u :
  (t, u) ∈ list_tenants qs ↔
  u = usage_of qs t ∧ (is_Some (usage qs !! t) ∨ is_Some (quotas qs !! t)).
Proof.
  unfold list_tenants. rewrite merge_sort_Permutation, elem_of_app, !list_elem_of_fmap. split.
  - intros [([t1 n] & [= -> ->] & H1)|([t1 q] & [= -> ->] & H1)].
    + apply elem_of_map_to_list in H1. split; [done|]. left. by eexists.
    + apply list_elem_of_filter in H1 as [_ H1%elem_of_map_to_list]. split; [done|]. right. by eexists.
  - intros [-> Hsome]. destruct (usage qs !! t) as [n|] eqn:En.
    + left. exists (t, n). split; [done|]. by apply elem_of_map_to_list.
    + destruct Hsome as [[? [=]]|[q Hq]]. right. exists (t, q). split; [done|].
      apply list_elem_of_filter. split; [done|]. by apply elem_of_map_to_list.
Qed.

Lemma list_tenants_NoDup qs : NoDup ((list_tenants qs).*1).
Proof.
  unfold list_tenants. rewrite merge_sort_Permutation, fmap_app, <-!list_fmap_compose.
  apply NoDup_app. split_and!.
  - apply NoDup_fst_map_to_list.
  - intros t ([t1 n] & -> & H1)%list_elem_of_fmap ([t2 q] & Heq & H2)%list_elem_of_fmap.
    apply elem_of_map_to_list in H1. apply list_elem_of_filter in H2 as [H2 _]. simpl in *. congruence.
  - apply NoDup_fmap_fst; [|apply NoDup_filter, NoDup_map_to_list].
    intros t q1 q2 [_ H1]%list_elem_of_filter [_ H2]%list_elem_of_filter.
    apply elem_of_map_to_list in H1, H2. congruence.
Qed.

Lemma list_tenants_sorted qs : StronglySorted bytes_le ((list_tenants qs).*1).
Proof.
  assert (StronglySorted tenant_le (list_tenants qs)) as Hs.
  { apply StronglySorted_merge_sort.
    - intros x y z. unfold tenant_le. by intros ??; etrans.
    - intros x y. unfold tenant_le. apply (base.total bytes_le). }
  induction Hs as [|x l Hs IH Hx]; csimpl; [constructor|]. constructor; [done|].
  by apply Forall_fmap.
Qed.

(** A quota record says nothing about data, usage or expiries. *)
Lemma quota_record_harmless `{QuotaJson} (m : gmap bytes bytes) t (o : option bytes) :
  valid_tenant t → (∀ raw, o = Some raw → ∃ v, ValueCodec.decode raw = Ok (mkStoredValue None v)) →
  let m' := partial_alter (λ _, o) (quota_key t) m in
  (values_ok m → values_ok m') ∧ (∀ t', usage_in m' t' = usage_in m t') ∧
  (∀ g, ttl_covered m g → ttl_covered m' g) ∧ (∀ k, is_data k → m' !! k = m !! k).
Proof.
  intros Ht Ho m'.
  assert (∀ k, is_data k → m' !! k = m !! k) as Hdata.
  { intros k (t' & p & Ht' & ->). apply lookup_partial_alter_ne. intros E.
    symmetry in E. by eapply (data_key_not_quota t' p t). }
  assert (∀ k raw, m' !! k = Some raw →
    (∃ v, ValueCodec.decode raw = Ok (mkStoredValue None v)) ∨ m !! k = Some raw) as Hk.
  { intros k raw E. unfold m' in E. destruct (decide (k = quota_key t)) as [-> |Hne].
    - rewrite lookup_partial_alter_eq in E. left. by apply Ho.
    - rewrite lookup_partial_alter_ne in E by done. by right. }
  split_and!; [..|done].
  - intros Hv k raw [[v Hd]|E]%Hk; [eauto|by apply (Hv k)].
  - intros t'. by apply usage_in_agree.
  - intros g Hg k raw sv e [[v Hd]|E]%Hk Hsv He; [|by eapply Hg].
    rewrite Hd in Hsv. by injection Hsv as <-.
Qed.

(** Changing a tenant's record and its cache entry together keeps them in agreement. *)
Lemma synced_quota_record `{QuotaJson} (qs qs' : QuotaStore) (m : gmap bytes bytes) (t : bytes) (o : option bytes) :
  synced qs m → valid_tenant t →
  quotas qs' = partial_alter (λ _, o ≫= quota_of) t (quotas qs) →
  synced qs' (partial_alter (λ _, o) (quota_key t) m).
Proof.
  intros Hsync Ht Hq t'. rewrite Hq. unfold persisted. case_decide as Hvt.
  - destruct (decide (t' = t)) as [-> |Hne].
    + by rewrite !lookup_partial_alter_eq.
    + rewrite !lookup_partial_alter_ne by (first [done|by intros E%quota_key_inj]).
      rewrite Hsync. unfold persisted. by rewrite decide_True.
  - rewrite lookup_partial_alter_ne by (intros <-; done).
    rewrite Hsync. unfold persisted. by rewrite decide_False.
Qed.

Section spec.
Context {F : Fjall} {FS : FjallSpec} {FO : FjallOk}.
Context {B : Broadcast} {G : Governor} {C : Crc32} {CO : Crc32Ok} {J : QuotaJson} {JO : QuotaJsonOk}.

Abbreviation Service := (NodeService (F:=F) (B:=B) (G:=G)).

(** What a quota write leaves behind. *)
Record quota_effect (s s' : Service) (t : bytes) (q : Quota) : Prop := {
  qe_node : node_ok s';
  qe_quota : quota (quota_store s') t = q;
  qe_others : ∀ t', t' ≠ t → quota (quota_store s') t' = quota (quota_store s) t';
  qe_data : ∀ k, is_data k → view (storage s') !! k = view (storage s) !! k;
  qe_wal : wal s' = wal s;
  qe_healthy : healthy (storage s');
}.

Lemma quota_effect_intro s b' qs' t (o : option bytes) (oq : option Quota) :
  node_ok s → valid_tenant t → healthy b' →
  (∀ raw, o = Some raw → ∃ v, ValueCodec.decode raw = Ok (mkStoredValue None v)) →
  (o ≫= quota_of) = oq →
  view b' = partial_alter (λ _, o) (quota_key t) (view (storage s)) →
  usage qs' = usage (quota_store s) → default_quota qs' = default_quota (quota_store s) →
  quotas qs' = partial_alter (λ _, oq) t (quotas (quota_store s)) →
  quota_effect s (set_storage b' (set_store qs' s)) t (default (default_quota (quota_store s)) oq).
Proof.
  intros [Hvals Hused Hfit Hidx Hcov Hsync] Ht Hh Ho Hoq Hv Hu Hd Hq.
  destruct (quota_record_harmless (view (storage s)) t o Ht Ho) as (H1 & H2 & H3 & H4).
  assert (∀ t', quota qs' t' = if decide (t' = t) then default (default_quota (quota_store s)) oq
                               else quota (quota_store s) t') as Hquota.
  { intros t'. unfold quota. rewrite Hq, Hd. case_decide as E.
    - subst. by rewrite lookup_partial_alter_eq.
    - by rewrite lookup_partial_alter_ne. }
  split; cbn [quota_store storage wal set_storage set_store].
  - split; cbn [quota_store storage ttl_index set_storage set_store]; rewrite ?Hv; auto.
    + intros t'. unfold used_bytes. rewrite Hu, H2. apply Hused.
    + intros t'. by rewrite H2.
    + eapply synced_quota_record; [done..|]. by rewrite Hoq.
  - rewrite Hquota. by rewrite decide_True.
  - intros t' Hne. rewrite Hquota. by rewrite decide_False.
  - intros k Hk. rewrite Hv. by apply H4.
  - done.
  - done.
Qed.

(** A quota record is one every engine takes. *)
Lemma admits_quota_key (b : StorageBackend F) t v :
  1 ≤ len t ≤ 255 → len v < 2 ^ 32 → admits b (quota_key t) v.
Proof.
  intros Ht Hv. apply admits_short; [|done]. unfold quota_key. rewrite len_app, len_frame.
  change (len QUOTA_KEY) with 5. unfold FJALL_MAX_KEY. lia.
Qed.

Lemma set_quota_runs t q s :
  node_ok s → healthy (storage s) → valid_tenant t → Quota_typed q →
  ∃ s', in_quotas (Quota.set_quota t q) s = (Ok tt, s') ∧ quota_effect s s' t q.
Proof.
  intros Hn Hh Ht Hq. destruct (json_round_trip q Hq) as (body & Hto & Hfrom & Hlen).
  destruct (backend_put_runs (storage s) (quota_key t) (ValueCodec.encode body None) Hh)
    as (b' & Eb & Hv & Hh' & _).
  { apply admits_quota_key; [apply Ht|]. change (len (x01 :: body) < 2 ^ 32). len_lia. }
  eexists. split.
  - unfold in_quotas, Quota.set_quota, on_storage. unfold_monad. cbn [fst snd].
    rewrite encode_ok by apply Ht. cbn [fst snd]. rewrite Hto. cbn [fst snd].
    fold (quota_key t). rewrite Eb. reflexivity.
  - apply (quota_effect_intro s b' _ t (Some (ValueCodec.encode body None)) (Some q)); try done.
    + intros raw Hr. assert (raw = ValueCodec.encode body None) as -> by congruence.
      exists body. by apply decode_encode.
    + change (quota_of (ValueCodec.encode body None) = Some q).
      unfold quota_of. by rewrite decode_encode.
Qed.

Lemma clear_quota_runs t s :
  node_ok s → healthy (storage s) → valid_tenant t →
  ∃ s', in_quotas (Quota.clear_quota t) s = (Ok tt, s') ∧
    quota_effect s s' t (default_quota (quota_store s)).
Proof.
  intros Hn Hh Ht.
  destruct (backend_delete_runs (storage s) (quota_key t) Hh) as (b' & Eb & Hv & Hh' & _);
    [by apply admits_quota_key; [apply Ht|]|].
  eexists. split.
  - unfold in_quotas, Quota.clear_quota, on_storage. unfold_monad. cbn [fst snd].
    rewrite encode_ok by apply Ht. cbn [fst snd]. fold (quota_key t). rewrite Eb. reflexivity.
  - by apply (quota_effect_intro s b' _ t None None).
Qed.

(** What a quota write asks for, given the limits in force. *)
Definition updated_quota (current : Quota) (body : SetQuotaRequest) : Quota :=
  mkQuota (default (max_bytes current) (body_max_bytes body))
    (default (max_ops_per_sec current) (body_max_ops_per_sec body)).

Definition body_typed (body : SetQuotaRequest) : Prop :=
  Quota_typed (mkQuota (default 0 (body_max_bytes body)) (default 0 (body_max_ops_per_sec body))).

Lemma updated_typed q body : Quota_typed q → body_typed body → Quota_typed (updated_quota q body).
Proof.
  intros [Hc1 Hc2] [Hb1 Hb2]. split; unfold updated_quota; cbn [max_bytes max_ops_per_sec] in *.
  - by destruct (body_max_bytes body).
  - by destruct (body_max_ops_per_sec body).
Qed.

Lemma set_quota_handled t body s :
  node_ok s → healthy (storage s) → valid_tenant t → body_typed body →
  Quota_typed (quota (quota_store s) t) →
  ∃ s', set_quota t body s = (Ok (quota_entry s' t), s') ∧
    quota_effect s s' t (updated_quota (quota (quota_store s) t) body).
Proof.
  intros Hn Hh Ht Hbody Hcur. set (updated := updated_quota _ body).
  assert (Quota_typed updated) as Htyped by (by apply updated_typed).
  destruct (set_quota_runs t updated s Hn Hh Ht Htyped) as (s' & E & Heff).
  exists s'. split; [|done].
  unfold set_quota. erewrite M_bind_ok by (unfold lift; by rewrite (proj2 (validate_tenant_spec t)) by apply Ht).
  erewrite M_bind_ok by reflexivity. cbv zeta. change (mkQuota _ _) with updated.
  erewrite M_bind_ok; [done|]. unfold mapM_err. by rewrite E.
Qed.

Lemma clear_quota_handled t s :
  node_ok s → healthy (storage s) → valid_tenant t →
  ∃ s', clear_quota t s = (Ok (quota_entry s' t), s') ∧
    quota_effect s s' t (default_quota (quota_store s)).
Proof.
  intros Hn Hh Ht. destruct (clear_quota_runs t s Hn Hh Ht) as (s' & E & Heff).
  exists s'. split; [|done].
  unfold clear_quota. erewrite M_bind_ok by (unfold lift; by rewrite (proj2 (validate_tenant_spec t)) by apply Ht).
  erewrite M_bind_ok; [done|]. unfold mapM_err. by rewrite E.
Qed.

Lemma quota_refused t body (s : Service) :
  ¬ (1 ≤ len t ≤ 255) →
  ∃ body_, set_quota t body s = (Err (BAD_REQUEST, body_), s) ∧
    clear_quota t s = (Err (BAD_REQUEST, body_), s) ∧ get_quota t s = (Err (BAD_REQUEST, body_), s).
Proof.
  intros Hl%validate_tenant_refuses. eexists.
  unfold set_quota, clear_quota, get_quota, lift. rewrite Hl. done.
Qed.

(** ** Properties *)

(** quota administration.  On a node that works, setting a tenant's limits
    replaces the fields the body names and keeps the others, clearing them returns
    the tenant to the node's defaults; both report the new state, keep every other
    tenant's limits, all data and the node's invariant (the persisted record and
    the cache agree), and write nothing to the log.  A tenant name the key codec
    could not encode is a bad request that changes nothing. *)
Theorem quota_administration t body s (Hn : node_ok s) (Hh : healthy (storage s))
    (Hu : utf8_valid t = true)
    (Hbody : body_typed body) (Hcur : Quota_typed (quota (quota_store s) t)) :
  let updated := updated_quota (quota (quota_store s) t) body in
  (1 ≤ len t ≤ 255 →
    (∃ s', set_quota t body s = (Ok (quota_entry s' t), s') ∧ quota_effect s s' t updated ∧
       get_quota t s' = (Ok (quota_entry s' t), s')) ∧
    (∃ s', clear_quota t s = (Ok (quota_entry s' t), s') ∧
       quota_effect s s' t (default_quota (quota_store s)))) ∧
  (¬ (1 ≤ len t ≤ 255) →
    ∃ body_, set_quota t body s = (Err (BAD_REQUEST, body_), s) ∧
      clear_quota t s = (Err (BAD_REQUEST, body_), s) ∧ get_quota t s = (Err (BAD_REQUEST, body_), s)).
Proof.
  intros updated. split; [|apply quota_refused].
  intros Hl. assert (valid_tenant t) as Ht by done. split; [|by apply clear_quota_handled].
  destruct (set_quota_handled t body s Hn Hh Ht Hbody Hcur) as (s' & E & Heff).
  exists s'. split_and!; [done..|].
  unfold get_quota. by erewrite M_bind_ok by (unfold lift; by rewrite (proj2 (validate_tenant_spec t) Hl)).
Qed.

(** the quota listing is complete.  Every tenant with a usage counter or limits
    of its own is listed exactly once, with the usage and the limits in force for
    it, and the list is in the order of the tenants' names. *)
Theorem list_quotas_complete (s : Service) :
  let l := tenants (list_quotas s) in
  NoDup (qe_tenant <$> l) ∧ StronglySorted bytes_le (qe_tenant <$> l) ∧
  ∀ e, e ∈ l ↔
    e = quota_entry s (qe_tenant e) ∧
    (is_Some (usage (quota_store s) !! qe_tenant e) ∨ is_Some (quotas (quota_store s) !! qe_tenant e)).
Proof.
  cbv zeta. cbn [tenants list_quotas].
  assert (∀ l : list (bytes * TenantUsage),
    (qe_tenant <$> ((λ '(tenant, usage), mkQuotaEntry tenant usage) <$> l)) = l.*1) as ->.
  { intros l. rewrite <-list_fmap_compose. apply list_fmap_ext. by intros _ [t u] _. }
  split_and!; [apply list_tenants_NoDup|apply list_tenants_sorted|].
  intros [t u]. rewrite list_elem_of_fmap. cbn [qe_tenant]. unfold quota_entry. split.
  - intros ([t1 u1] & [= -> ->] & H1%elem_of_list_tenants). destruct H1 as [-> ?]. done.
  - intros [[= ->] Hs]. exists (t, usage_of (quota_store s) t). split; [done|].
    by apply elem_of_list_tenants.
Qed.

(** A node whose storage can be read is ready. *)
Lemma ready_when_healthy version (s : Service) :
  healthy (storage s) →
  ready version s = Ok (OK, mkReady "ready" (node_id (config s)) version "ok").
Proof. intros Hh. unfold ready. by rewrite backend_get_runs. Qed.

End spec.

(** ** Witnesses *)

Definition raise_bytes : SetQuotaRequest := mkSetQuota (Some 500) None.

Lemma quota_administration_witness :
  ∃ s', set_quota (lit "acme") raise_bytes sample_node = (Ok (quota_entry s' (lit "acme")), s') ∧
    quota (quota_store s') (lit "acme") = mkQuota 500 0 ∧ wal s' = wal sample_node.
Proof.
  destruct (quota_administration (lit "acme") raise_bytes sample_node sample_node_ok) as [H _].
  - vm_compute. exact I.
  - reflexivity.
  - split; split; vm_compute; congruence.
  - split; split; vm_compute; congruence.
  - destruct H as [(s' & H1 & H2 & _) _]; [vm_compute; split; congruence|].
    exists s'. split; [exact H1|]. split; [exact (qe_quota _ _ _ _ H2)|exact (qe_wal _ _ _ _ H2)].
Defined.

(** Limits set on a memory node do not survive it: they are written to storage and
    not to the log, which is all a memory node restarts from. *)
Example memory_restart_forgets_quota :
  let s := (set_quota (lit "acme") raise_bytes sample_node).2 in
  let disk := {| mkdir := Ok tt; segment_file := wal_file (wal s);
                 fjall := Err (StorageError "not configured") |} in
  quota (quota_store s) (lit "acme") = mkQuota 500 0 ∧
  match open_with_clock fallback_config (Manual 1000) disk with
  | Ok s' => quota (quota_store s') (lit "acme") = mkQuota 0 0
  | _ => False
  end.
Proof. vm_compute. split; reflexivity. Qed.
