(* ===== verification/Operators.v ===== *)
(** * Administrators beside writers

    The admin server runs in the same process as the gRPC server.  Setting a tenant's
    limits reads the cache, writes the record to storage and then enters the limits
    into the cache, with nothing held in between; writers check against the cache all
    the while.  Here the two handlers that change something are cut into their calls
    like the writers of [Interleave.v], and the two kinds of tasks run interleaved on
    one node.

    As long as no two administrators are at work on one tenant, nothing is disturbed:
    when everybody is done, the node is in order, cache and records included.  With two
    of them on one tenant, the cache and the records can be left in disagreement, and
    an update can be lost. *)

From Stdlib Require Import Strings.Byte.
From S2P Require Import Prelude Bytes Core KeyCodec ValueCodec Storage Wal TtlIndex Quota.
From S2P Require Import Throttle Watch Config Service Node NodeSpec Sample Sweeper Interleave.
From S2P Require Import Writers Races Admin.

Section operators.
Context {F : Fjall} {B : Broadcast} {G : Governor} {C : Crc32} {J : QuotaJson}.

Abbreviation Service := (NodeService (F:=F) (B:=B) (G:=G)).

(** ** The calls of a handler *)

(** The next call of an administrator: reading the limits in force ([SetStart]),
    writing the record ([SetStore], [ClearStart]), the cache ([SetCache],
    [ClearCache]), and reading what to answer. *)
Inductive OpPc :=
| SetStart (tenant : bytes) (body : SetQuotaRequest)
| SetStore (tenant : bytes) (q : Quota)
| SetCache (tenant : bytes) (q : Quota)
| ClearStart (tenant : bytes)
| ClearCache (tenant : bytes)
| Report (tenant : bytes)
| Answered (r : result Failure QuotaEntry).

(** The record's half of [QuotaStore::set_quota] and [clear_quota]. *)
Definition store_quota (tenant : bytes) (q : Quota) : M Service Error unit :=
  key ← lift (KeyCodec.encode tenant Metadata QUOTA_KEY);
  body ← match to_vec q with
         | inr body => mret body
         | inl e => throw (ConfigError ("encoding quota for " +:+ show_str tenant +:+ ": " +:+ e))
         end;
  in_storage (st_put key (ValueCodec.encode body None)).

Definition erase_quota (tenant : bytes) : M Service Error unit :=
  key ← lift (KeyCodec.encode tenant Metadata QUOTA_KEY);
  in_storage (st_delete key).

(** The cache's half. *)
Definition cache_quotas (f : gmap bytes Quota → gmap bytes Quota) (s : Service) : Service :=
  set_store (set_quotas f (quota_store s)) s.

(** A call whose error is answered with [internal]. *)
Definition op_call (m : M Service Error unit) (next : OpPc) (s : Service) : OpPc * Service :=
  match m s with
  | (Ok _, s') => (next, s')
  | (Err e, s') => (Answered (Err (internal e)), s')
  | (Panic, s') => (Answered Panic, s')
  end.

Definition op_advance (op : OpPc) (s : Service) : OpPc * Service :=
  match op with
  | SetStart t body =>
      match validate_tenant t with
      | Ok _ => (SetStore t (updated_quota (quota (quota_store s) t) body), s)
      | Err e => (Answered (Err e), s)
      | Panic => (Answered Panic, s)
      end
  | SetStore t q => op_call (store_quota t q) (SetCache t q) s
  | SetCache t q => (Report t, cache_quotas <[t:=q]> s)
  | ClearStart t =>
      match validate_tenant t with
      | Ok _ => op_call (erase_quota t) (ClearCache t) s
      | Err e => (Answered (Err e), s)
      | Panic => (Answered Panic, s)
      end
  | ClearCache t => (Report t, cache_quotas (delete t) s)
  | Report t => (Answered (Ok (quota_entry s t)), s)
  | Answered r => (Answered r, s)
  end.

Fixpoint run_op (n : nat) (op : OpPc) (s : Service) : OpPc * Service :=
  match n with
  | O => (op, s)
  | S n => let '(op', s') := op_advance op s in run_op n op' s'
  end.

(** An administrator that runs alone is the handler. *)
Lemma operator_alone t body (s : Service) :
  run_op 4 (SetStart t body) s = (Answered (set_quota t body s).1, (set_quota t body s).2) ∧
  run_op 4 (ClearStart t) s = (Answered (clear_quota t s).1, (clear_quota t s).2).
Proof.
  destruct s as [cfg b w c g h qs th].
  unfold set_quota, clear_quota, Quota.set_quota, Quota.clear_quota, in_quotas, on_storage, mapM_err.
  unfold_monad. cbn [run_op op_advance]. fold (updated_quota (quota qs t) body).
  destruct (validate_tenant t) as [[]|e|]; [|by split..]. cbn [op_advance fst snd quota_store storage].
  fold (updated_quota (quota qs t) body). unfold op_call, store_quota, erase_quota, in_storage. unfold_monad.
  destruct (KeyCodec.encode t Metadata QUOTA_KEY) as [k|e|]; cbn [fst snd storage]; [|by split..]. split.
  - destruct (to_vec _) as [e|raw]; cbn [fst snd storage]; [done|].
    by destruct (st_put k _ b) as [[[]|e|] b'].
  - by destruct (st_delete k b) as [[[]|e|] b'].
Qed.

(** ** The site: writers and administrators *)

Record Site := mkSite {
  crew : Pool (F:=F) (B:=B) (G:=G);
  operators : list OpPc;
}.

Definition set_shared (s : Service) (p : Pool (F:=F) (B:=B) (G:=G)) : Pool := mkPool (tasks p) s.

Definition is_op_start (op : OpPc) : bool :=
  match op with
  | SetStart _ _ | ClearStart _ => true
  | _ => false
  end.

Inductive site_step : Site → Site → Prop :=
| site_crew p q ops : pool_step p q → site_step (mkSite p ops) (mkSite q ops)
| site_hire p ops op : is_op_start op = true → site_step (mkSite p ops) (mkSite p (ops ++ [op]))
| site_op p ops i op :
    ops !! i = Some op →
    site_step (mkSite p ops)
      (mkSite (set_shared (op_advance op (shared p)).2 p) (<[i:=(op_advance op (shared p)).1]> ops)).

(** The tenant an administrator is at work on, until its limits are in the cache. *)
Definition op_tenant (op : OpPc) : option bytes :=
  match op with
  | SetStart t _ | SetStore t _ | SetCache t _ | ClearStart t | ClearCache t => Some t
  | Report _ | Answered _ => None
  end.

Definition op_exclusive (ops : list OpPc) : Prop :=
  ∀ i j oi oj t, ops !! i = Some oi → ops !! j = Some oj →
    op_tenant oi = Some t → op_tenant oj = Some t → i = j.

(** What a request is typed as: a path is a string, limits are machine integers. *)
Definition op_typed (op : OpPc) : Prop :=
  match op with
  | SetStart t body => utf8_valid t = true ∧ body_typed body
  | ClearStart t => utf8_valid t = true
  | _ => True
  end.

Definition quotas_typed (qs : QuotaStore) : Prop :=
  Quota_typed (default_quota qs) ∧ map_Forall (λ _ q, Quota_typed q) (quotas qs).

Definition answered (op : OpPc) : bool :=
  match op with
  | Answered _ => true
  | _ => false
  end.

(** Nobody is at work any more. *)
Definition site_quiet (σ : Site) : bool := quiet (crew σ) && forallb answered (operators σ).

End operators.

Section spec.
Context {F : Fjall} {FS : FjallSpec} {FO : FjallOk}.
Context {B : Broadcast} {G : Governor} {C : Crc32} {CO : Crc32Ok} {J : QuotaJson} {JO : QuotaJsonOk}.

Abbreviation Service := (NodeService (F:=F) (B:=B) (G:=G)).
Abbreviation Pool := (Pool (F:=F) (B:=B) (G:=G)).
Abbreviation Site := (Site (F:=F) (B:=B) (G:=G)).

(** ** Writers and the cache *)

(** The same node with other limits in its cache. *)
Definition with_limits (dq : Quota) (m : gmap bytes Quota) (s : Service) : Service :=
  set_store (mkStore dq m (usage (quota_store s))) s.

Lemma with_own_limits (s : Service) :
  with_limits (default_quota (quota_store s)) (quotas (quota_store s)) s = s.
Proof. by destruct s as [? ? ? ? ? ? []]. Qed.

(** Only the check of a put looks at the limits, and no call of a writer changes them. *)
Lemma advance_with_limits pc dq m (s : Service) :
  match pc with PutCheck _ _ _ _ => False | _ => True end →
  advance pc (with_limits dq m s) = ((advance pc s).1, with_limits dq m (advance pc s).2).
Proof.
  intros Hpc. destruct pc; try done; cbn [advance]; unfold call, call_logged.
  - change (plan_accounting (with_limits dq m s)) with (plan_accounting s). by destruct (plan_accounting _ _ _).
  - unfold in_wal, zoom. by destruct (append _ _ _ _) as [[]].
  - unfold in_storage, zoom. by destruct (st_put _ _ _) as [[]].
  - by destruct exp.
  - change (plan_delete_accounting (with_limits dq m s)) with (plan_delete_accounting s).
    by destruct (plan_delete_accounting _ _).
  - unfold in_wal, zoom. by destruct (append _ _ _ _) as [[]].
  - unfold in_storage, zoom. by destruct (st_delete _ _) as [[]].
  - destruct acc as [plan|]; [|done]. by destruct (delta plan =? 0).
  - unfold persist_usage, in_storage, zoom. unfold_monad.
    destruct (KeyCodec.encode _ _ _); [|done..]. cbn [storage with_limits set_store].
    by destruct (st_put _ _ _) as [[]].
  - unfold publish_change. destruct (KeyCodec.decode key) as [[[t sub] q]|e|]; [|done..].
    case_bool_decide; [|done]. cbn [negb watch with_limits set_store].
    by destruct (is_watched (watch s) t).
  - cbn [storage wal config with_limits set_store]. by repeat case_match.
  - unfold in_storage, zoom. by destruct (st_flush _) as [[]].
  - unfold in_wal, zoom. by destruct (rotate _) as [[]].
Qed.

Definition limits_of (s : Service) : Quota * gmap bytes Quota :=
  (default_quota (quota_store s), quotas (quota_store s)).

Lemma advance_limits pc (s : Service) : limits_of (advance pc s).2 = limits_of s.
Proof.
  destruct (match pc with PutCheck _ _ _ _ => true | _ => false end) eqn:Hpc.
  - destruct pc; try discriminate. by destruct (check_verdict key value exp acc s) as (? & -> & _).
  - pose proof (advance_with_limits pc (default_quota (quota_store s)) (quotas (quota_store s)) s) as E.
    rewrite with_own_limits in E. rewrite E; [done|by destruct pc].
Qed.

(** The pool as if the cache held [m]. *)
Definition virtual (m : gmap bytes Quota) (p : Pool) : Pool :=
  set_shared (with_limits (default_quota (quota_store (shared p))) m (shared p)) p.

Lemma virtual_orderly m p : orderly p → orderly (virtual m p).
Proof. intros [? ? [? ? ? ?]]. by split; [| |split]. Qed.

Lemma drain_virtual m n p : drain n (virtual m p) = virtual m (drain n p).
Proof.
  destruct p as [ts s]. unfold drain, virtual. cbn [shared tasks set_shared ttl_index with_limits set_store].
  by destruct (drain_due n (ttl_index s)).
Qed.

Lemma pool_step_limits p q : pool_step p q → limits_of (shared q) = limits_of (shared p).
Proof.
  intros [ts s pc Hs|ts s i pc Hi|p' n|p' n]; [done|apply advance_limits| |done].
  unfold drain. by destruct (drain_due n _).
Qed.

Section invariant.
Context (d : gmap bytes bytes).

(** A step of the writers keeps their invariant, whatever the cache says. *)
Lemma virtual_step m p q l acct :
  pool_ok d (virtual m p) l acct → pool_step p q → orderly p → orderly q →
  ∃ l' acct', pool_ok d (virtual m q) l' acct'.
Proof.
  intros Hp Hstep Ho Hq. pose proof (virtual_orderly m _ Ho) as Hov. destruct Hstep as [ts s pc Hs|ts s i pc Hi|p n|p n].
  - exists l, acct. apply (pool_ok_spawn d ts (with_limits (default_quota (quota_store s)) m s)); [done|done| |apply Hq].
    pose proof (ord_requests _ Hq) as Hr. cbn [tasks] in Hr.
    rewrite Forall_app, Forall_singleton in Hr. apply Hr.
  - set (s' := with_limits (default_quota (quota_store s)) m s).
    assert (∀ x, limits_of x = limits_of s → with_limits (default_quota (quota_store x)) m x =
      with_limits (default_quota (quota_store s)) m x) as Hsame by (intros x [= -> _]; done).
    destruct (match pc with PutCheck _ _ _ _ => true | _ => false end) eqn:Hpc.
    + destruct pc as [| |k v exp acc| | | | | | | | | | | | | | |]; try discriminate.
      destruct (check_verdict k v exp acc s) as (pc' & E & Hcase). rewrite E. cbn [fst snd].
      destruct (pk_busy _ _ _ _ Hp (PutCheck k v exp acc) k (list_elem_of_lookup_2 _ _ _ Hi) eq_refl) as [_ Hk].
      apply (pool_ok_call d ts s' i (PutCheck k v exp acc) k (pc', s') l acct); [done|apply Ho|done|done|].
      eapply put_check_either; [apply (pk_shared _ _ _ _ Hp)|exact Hk|exact Hcase].
    + destruct (pool_ok_run d ts s' i pc l acct Hp) as (l' & acct' & Hr); [apply Ho|apply Hov|done|].
      exists l', acct'. unfold s' in Hr. rewrite advance_with_limits in Hr by (by destruct pc).
      unfold virtual. cbn [shared]. rewrite Hsame by apply advance_limits. exact Hr.
  - exists l, acct. rewrite <-drain_virtual. apply pool_ok_drain; [done|].
    rewrite drain_virtual. by apply virtual_orderly.
  - exists l, acct. by apply (pool_ok_tick d (virtual m p)).
Qed.

(** A quota record that is written or removed, together with the limits it stands for,
    disturbs nobody. *)
Lemma record_shared m (s : Service) b' t (o : option bytes) l acct dq :
  shared_ok (with_limits dq m s) l acct → valid_tenant t → healthy b' →
  is_durable b' = is_durable (storage s) →
  (∀ raw, o = Some raw → ∃ v, ValueCodec.decode raw = Ok (mkStoredValue None v)) →
  view b' = partial_alter (λ _, o) (quota_key t) (view (storage s)) →
  shared_ok (with_limits dq (partial_alter (λ _, o ≫= quota_of) t m) (set_storage b' s)) l acct ∧
  ∀ k, is_data k →
    elsewhere d (with_limits dq m s)
      (with_limits dq (partial_alter (λ _, o ≫= quota_of) t m) (set_storage b' s)) l l acct acct k.
Proof.
  intros [[Hw Hf Hh Hc Hadm] Hv Hu Hi Hoth Hq Hl] Ht Hb Hdur Ho Hview.
  destruct (quota_record_harmless (view (storage s)) t o Ht Ho) as (H1 & _ & _ & H4). split.
  - split; try done; cbn [storage quota_store with_limits set_storage set_store]; rewrite ?Hview.
    + split; try done. by eapply admitted_agree.
    + by apply H1.
    + intros k Hk raw sv e. cbn [storage ttl_index with_limits set_storage set_store]. rewrite Hview.
      destruct (decide (k = quota_key t)) as [-> |Hne].
      * rewrite lookup_partial_alter_eq. intros Hraw Hsv He. destruct (Ho raw Hraw) as [v Hd].
        rewrite Hd in Hsv. by simplify_eq.
      * rewrite lookup_partial_alter_ne by done. by apply Hoth.
    + by eapply synced_quota_record; [apply Hq|..].
  - intros k Hk. split; try done. unfold stored_at. cbn [storage with_limits set_storage set_store].
    rewrite Hview. by apply H4.
Qed.

Lemma pool_ok_elsewhere (p : Pool) s' l acct :
  pool_ok d p l acct → shared_ok s' l acct →
  (∀ k, is_data k → elsewhere d (shared p) s' l l acct acct k) →
  pool_ok d (set_shared s' p) l acct.
Proof.
  intros [Hs Hkl Hb Hi] Hs' He. split; cbn [tasks shared set_shared]; [done|done|..].
  - intros pc k Hin Hk. destruct (Hb pc k Hin Hk) as [Hd Ho]. split; [done|].
    by eapply elsewhere_key; [apply He|].
  - intros k Hk Hno. eapply elsewhere_rest; [by apply He|by apply Hi].
Qed.

Lemma record_ok m (p : Pool) b' t (o : option bytes) l acct :
  pool_ok d (virtual m p) l acct → valid_tenant t → healthy b' →
  is_durable b' = is_durable (storage (shared p)) →
  (∀ raw, o = Some raw → ∃ v, ValueCodec.decode raw = Ok (mkStoredValue None v)) →
  view b' = partial_alter (λ _, o) (quota_key t) (view (storage (shared p))) →
  pool_ok d (virtual (partial_alter (λ _, o ≫= quota_of) t m) (set_shared (set_storage b' (shared p)) p))
    l acct.
Proof.
  intros Hp Ht Hb Hdur Ho Hview.
  destruct (record_shared m (shared p) b' t o l acct (default_quota (quota_store (shared p)))
    (pk_shared _ _ _ _ Hp) Ht Hb Hdur Ho Hview) as [Hs He].
  by apply (pool_ok_elsewhere (virtual m p)).
Qed.

(** ** The invariant of the site *)

(** The limits an administrator has recorded and not entered into the cache yet. *)
Definition pending (op : OpPc) : option (bytes * option Quota) :=
  match op with
  | SetCache t q => Some (t, Some q)
  | ClearCache t => Some (t, None)
  | _ => None
  end.

Lemma pending_tenant op t o : pending op = Some (t, o) → op_tenant op = Some t.
Proof. by destruct op; intros; simplify_eq/=. Qed.

(** [m] is the cache with everything that is pending entered. *)
Definition ahead (m cache : gmap bytes Quota) (ops : list OpPc) : Prop :=
  ∀ t, (∀ op o, op ∈ ops → pending op = Some (t, o) → m !! t = o) ∧
       ((∀ op o, op ∈ ops → pending op ≠ Some (t, o)) → m !! t = cache !! t).

Definition op_ok (op : OpPc) : Prop :=
  match op with
  | SetStore t q => valid_tenant t ∧ Quota_typed q
  | SetCache _ q => Quota_typed q
  | _ => op_typed op
  end.

Record site_ok (σ : Site) : Prop := {
  site_pool : ∃ m l acct, pool_ok d (virtual m (crew σ)) l acct ∧
    ahead m (quotas (quota_store (shared (crew σ)))) (operators σ);
  site_ops : Forall op_ok (operators σ);
  site_quotas : quotas_typed (quota_store (shared (crew σ)));
}.

(** Steps of one administrator, seen from the cache. *)
Lemma ahead_swap m cache ops i op op' :
  ops !! i = Some op → pending op = None → pending op' = None →
  ahead m cache ops → ahead m cache (<[i:=op']> ops).
Proof.
  intros Hi Hop Hop' Ha t. destruct (Ha t) as [H1 H2]. split.
  - intros q o [-> |(j & _ & Hj)]%elem_of_insert Hq; [congruence|].
    eapply H1; [|exact Hq]. by eapply list_elem_of_lookup_2.
  - intros Hno. apply H2. intros q o [j Hj]%list_elem_of_lookup Hq.
    apply (Hno q o); [|done]. eapply list_elem_of_lookup_2. rewrite list_lookup_insert_ne; [exact Hj|].
    intros <-. congruence.
Qed.

Lemma ahead_move m m' cache cache' ops i op op' t :
  op_exclusive ops → ops !! i = Some op → op_tenant op = Some t → op_tenant op' = Some t ∨ pending op' = None →
  (∀ t', t' ≠ t → m' !! t' = m !! t' ∧ cache' !! t' = cache !! t') →
  (∀ o, pending op' = Some (t, o) → m' !! t = o) → (pending op' = None → m' !! t = cache' !! t) →
  ahead m cache ops → ahead m' cache' (<[i:=op']> ops).
Proof.
  intros Hex Hi Ht Ht' Hsame Hpend Hnone Ha t'.
  assert (∀ u o, pending op' = Some (u, o) → u = t) as Hown.
  { intros u o Hu. pose proof (pending_tenant _ _ _ Hu). destruct Ht'; congruence. }
  assert (∀ j q o, j ≠ i → ops !! j = Some q → pending q ≠ Some (t, o)) as Hother.
  { intros j q o Hne Hj Hq%pending_tenant. by apply Hne, (Hex j i q op t). }
  assert (op' ∈ <[i:=op']> ops) as Hin
    by (eapply list_elem_of_lookup_2, list_lookup_insert_eq; by eapply lookup_lt_Some).
  destruct (decide (t' = t)) as [-> |Hne].
  - split.
    + intros q o [-> |(j & Hji & Hj)]%elem_of_insert Hq; [by apply Hpend|by destruct (Hother j q o)].
    + intros Hno. apply Hnone. destruct (pending op') as [[u o]|] eqn:E; [|done].
      rewrite (Hown u o eq_refl) in E. by destruct (Hno op' o).
  - destruct (Hsame t' Hne) as [-> ->], (Ha t') as [H1 H2]. split.
    + intros q o [-> |(j & _ & Hj)]%elem_of_insert Hq; [by apply Hown in Hq|].
      eapply H1; [|exact Hq]. by eapply list_elem_of_lookup_2.
    + intros Hno. apply H2. intros q o [j Hj]%list_elem_of_lookup Hq.
      destruct (decide (j = i)) as [-> |Hji].
      { rewrite Hi in Hj. injection Hj as ->. apply pending_tenant in Hq. congruence. }
      apply (Hno q o); [|done]. eapply list_elem_of_lookup_2. by rewrite list_lookup_insert_ne.
Qed.

(** ** The calls of an administrator *)

Lemma store_quota_runs t q (s : Service) :
  healthy (storage s) → valid_tenant t → Quota_typed q →
  ∃ b' raw v, store_quota t q s = (Ok tt, set_storage b' s) ∧ healthy b' ∧
    is_durable b' = is_durable (storage s) ∧
    view b' = partial_alter (λ _, Some raw) (quota_key t) (view (storage s)) ∧
    ValueCodec.decode raw = Ok (mkStoredValue None v) ∧ quota_of raw = Some q.
Proof.
  intros Hh Ht Hq. destruct (json_round_trip q Hq) as (body & Hto & Hfrom & Hlen).
  destruct (backend_put_runs (storage s) (quota_key t) (ValueCodec.encode body None) Hh)
    as (b' & Eb & Hv & Hh' & Hd).
  { apply admits_quota_key; [apply Ht|]. change (len (x01 :: body) < 2 ^ 32). len_lia. }
  exists b', (ValueCodec.encode body None), body. split_and!; [|done|done|by rewrite Hv|by apply decode_encode|].
  - unfold store_quota, in_storage. unfold_monad. rewrite encode_ok by apply Ht. cbn [fst snd].
    rewrite Hto. cbn [fst snd]. fold (quota_key t). by rewrite Eb.
  - unfold quota_of. by rewrite decode_encode.
Qed.

Lemma erase_quota_runs t (s : Service) :
  healthy (storage s) → valid_tenant t →
  ∃ b', erase_quota t s = (Ok tt, set_storage b' s) ∧ healthy b' ∧
    is_durable b' = is_durable (storage s) ∧
    view b' = partial_alter (λ _, None) (quota_key t) (view (storage s)).
Proof.
  intros Hh Ht. destruct (backend_delete_runs (storage s) (quota_key t) Hh) as (b' & Eb & Hv & Hh' & Hd);
    [by apply admits_quota_key; [apply Ht|]|].
  exists b'. split_and!; [|done|done|done]. unfold erase_quota, in_storage. unfold_monad.
  rewrite encode_ok by apply Ht. cbn [fst snd]. fold (quota_key t). by rewrite Eb.
Qed.

Lemma quota_typed qs t : quotas_typed qs → Quota_typed (quota qs t).
Proof.
  intros [Hd Hq]. unfold quota. destruct (quotas qs !! t) as [q|] eqn:E; [|done]. by apply (Hq t).
Qed.

(** What one call of an administrator leaves: the writers' invariant with the limits
    [m'] that are recorded now. *)
Definition op_call_ok (m : gmap bytes Quota) (p : Pool) (r : OpPc * Service) (ops : list OpPc) (i : nat) : Prop :=
  op_ok r.1 ∧ quotas_typed (quota_store r.2) ∧
  ∃ m' l acct, pool_ok d (virtual m' (set_shared r.2 p)) l acct ∧ ahead m' (quotas (quota_store r.2)) (<[i:=r.1]> ops).

Lemma op_stays m p ops i op op' l acct :
  pool_ok d (virtual m p) l acct → ahead m (quotas (quota_store (shared p))) ops →
  quotas_typed (quota_store (shared p)) → ops !! i = Some op → pending op = None → pending op' = None →
  op_ok op' → op_call_ok m p (op', shared p) ops i.
Proof.
  intros Hp Ha Hq Hi H1 H2 Ho. split_and!; [done|done|]. exists m, l, acct.
  split; [by destruct p|]. by eapply ahead_swap.
Qed.

Lemma op_records m p ops i op op' t o b' l acct :
  pool_ok d (virtual m p) l acct → ahead m (quotas (quota_store (shared p))) ops →
  quotas_typed (quota_store (shared p)) → op_exclusive ops → ops !! i = Some op →
  op_tenant op = Some t → valid_tenant t → healthy b' →
  is_durable b' = is_durable (storage (shared p)) →
  (∀ raw, o = Some raw → ∃ v, ValueCodec.decode raw = Ok (mkStoredValue None v)) →
  view b' = partial_alter (λ _, o) (quota_key t) (view (storage (shared p))) →
  pending op' = Some (t, o ≫= quota_of) → op_ok op' →
  op_call_ok m p (op', set_storage b' (shared p)) ops i.
Proof.
  intros Hp Ha Hq Hex Hi Ht Hv Hb Hdur Ho Hview Hpend Hok. split_and!; [done|done|].
  exists (partial_alter (λ _, o ≫= quota_of) t m), l, acct. split; [by apply record_ok|].
  eapply (ahead_move m); [done|done|exact Ht|left; by eapply pending_tenant| | | |done].
  - intros t' Hne. by rewrite lookup_partial_alter_ne.
  - intros o' Ho'. cbn [fst] in Ho'. rewrite lookup_partial_alter_eq. congruence.
  - cbn [fst]. congruence.
Qed.

Lemma op_caches m p ops i op t o l acct :
  pool_ok d (virtual m p) l acct → ahead m (quotas (quota_store (shared p))) ops →
  quotas_typed (quota_store (shared p)) → op_exclusive ops → ops !! i = Some op →
  pending op = Some (t, o) → (∀ q, o = Some q → Quota_typed q) →
  op_call_ok m p (Report t, cache_quotas (partial_alter (λ _, o) t) (shared p)) ops i.
Proof.
  intros Hp Ha [Hd Hq] Hex Hi Hpend Ho. split_and!; [done| |].
  { split; [done|]. intros t' q'. cbn [quotas quota_store cache_quotas set_store set_quotas snd].
    destruct (decide (t' = t)) as [-> |Hne].
    - rewrite lookup_partial_alter_eq. by apply Ho.
    - rewrite lookup_partial_alter_ne by done. apply Hq. }
  exists m, l, acct. split; [by destruct p|].
  eapply (ahead_move m); [done|done|by eapply pending_tenant|by right| |done| |done].
  - intros t' Hne. split; [done|]. cbn [quotas quota_store cache_quotas set_store set_quotas snd].
    by rewrite lookup_partial_alter_ne.
  - intros _. cbn [quotas quota_store cache_quotas set_store set_quotas snd].
    rewrite lookup_partial_alter_eq. by apply (Ha t) with (op:=op); [eapply list_elem_of_lookup_2|].
Qed.

Lemma op_advance_ok σ i op :
  site_ok σ → op_exclusive (operators σ) → operators σ !! i = Some op →
  ∃ m, op_call_ok m (crew σ) (op_advance op (shared (crew σ))) (operators σ) i.
Proof.
  destruct σ as [p ops]. intros [(m & l & acct & Hp & Ha) Hops Hq] Hex Hi. exists m.
  cbn [crew operators] in *. pose proof (Forall_lookup_1 _ _ _ _ Hops Hi) as Hop.
  assert (healthy (storage (shared p))) as Hh by apply (pk_shared _ _ _ _ Hp).
  assert (∀ op', pending op = None → pending op' = None → op_ok op' →
    op_call_ok m p (op', shared p) ops i) as Hstay by (intros; by eapply op_stays).
  destruct op as [t body|t q|t q|t|t|t|r]; cbn [op_advance].
  - destruct (validate_tenant t) as [[]|e|] eqn:Ev; [|by apply Hstay..]. apply Hstay; [done..|].
    destruct Hop as [Hu Hb]. apply validate_tenant_spec in Ev. split; [done|].
    by apply updated_typed; [apply quota_typed|].
  - destruct Hop as [Hv Ht]. destruct (store_quota_runs t q (shared p) Hh Hv Ht)
      as (b' & raw & v & E & Hb & Hdur & Hview & Hdec & Hof).
    unfold op_call. rewrite E. eapply (op_records m p ops i _ _ t (Some raw)); try done.
    + intros raw' [= <-]. by exists v.
    + cbn [pending mbind option_bind]. by rewrite Hof.
  - by apply (op_caches m p ops i (SetCache t q) t (Some q) l acct); try done; intros ? [= <-].
  - destruct (validate_tenant t) as [[]|e|] eqn:Ev; [|by apply Hstay..].
    apply validate_tenant_spec in Ev. assert (valid_tenant t) as Hv by done.
    destruct (erase_quota_runs t (shared p) Hh Hv) as (b' & E & Hb & Hdur & Hview).
    unfold op_call. rewrite E. by eapply (op_records m p ops i _ _ t None).
  - by apply (op_caches m p ops i (ClearCache t) t None l acct).
  - by apply Hstay.
  - by apply Hstay.
Qed.

(** ** Runs of a site *)

(** Never two writers on a key or two administrators on a tenant, and every request
    typed. *)
Record in_order (σ : Site) : Prop := {
  io_crew : orderly (crew σ);
  io_ops : op_exclusive (operators σ);
  io_typed : Forall op_typed (operators σ);
}.

Definition site_ordered (σ σ' : Site) : Prop := site_step σ σ' ∧ in_order σ ∧ in_order σ'.

Lemma site_ok_step σ σ' : site_ok σ → site_ordered σ σ' → site_ok σ'.
Proof.
  intros Hok (Hstep & [Hc Hx Hty] & [Hc' Hx' Hty']). pose proof Hok as [(m & l & acct & Hp & Ha) Hops Hq].
  destruct Hstep as [p q ops Hs|p ops op Hstart|p ops i op Hi]; cbn [crew operators] in *.
  - pose proof (pool_step_limits _ _ Hs) as Hlim. injection Hlim as Hd Hm.
    destruct (virtual_step m p q l acct Hp Hs Hc Hc') as (l' & acct' & Hp').
    split; cbn [crew operators]; [|done|].
    + exists m, l', acct'. by rewrite Hm.
    + destruct Hq. split; [by rewrite Hd|by rewrite Hm].
  - split; cbn [crew operators]; [|apply Forall_app; split; [done|]|done].
    + exists m, l, acct. split; [done|]. intros t. destruct (Ha t) as [H1 H2]. split.
      * intros op' o [Hin| ->%list_elem_of_singleton]%elem_of_app Ho; [by eapply H1|by destruct op].
      * intros Hno. apply H2. intros op' o Hin. apply Hno, elem_of_app. by left.
    + rewrite Forall_app, Forall_singleton in Hty'. apply Forall_singleton.
      destruct op; try discriminate Hstart; apply Hty'.
  - destruct (op_advance_ok (mkSite p ops) i op Hok Hx Hi) as (m0 & Ho & Hq' & m' & l' & acct' & Hp' & Ha').
    split; cbn [crew operators]; [by exists m', l', acct'|by apply Forall_insert|done].
Qed.

Lemma site_ok_start s l :
  node_ok s → env_ok s l → logged s l d → quotas_typed (quota_store s) → site_ok (mkSite (mkPool [] s) []).
Proof.
  intros Hn He Hl Hq. split; [|done|done]. exists (quotas (quota_store s)), l, (view (storage s)).
  split; [|by intros t; split; [set_solver|]]. unfold virtual, set_shared. cbn [shared tasks crew].
  rewrite with_own_limits. by apply pool_ok_start.
Qed.

End invariant.

(** ** Checking a run *)

Global Instance op_typed_dec op : Decision (op_typed op).
Proof. destruct op; simpl; unfold body_typed, Quota_typed, u64_ok; apply _. Defined.

Lemma op_exclusive_nodup ops : NoDup (omap op_tenant ops) → op_exclusive ops.
Proof.
  intros Hnd i j oi oj t Hi Hj Hti Htj. revert i j Hi Hj.
  induction ops as [|op ops IH]; intros i j Hi Hj; [done|].
  assert (∀ k q, ops !! k = Some q → op_tenant q = Some t → t ∈ omap op_tenant ops) as Hin.
  { intros k q Hk Hq. apply list_elem_of_omap. exists q. split; [by eapply list_elem_of_lookup_2|done]. }
  csimpl in Hnd. destruct i as [|i], j as [|j]; simplify_eq/=; [done|..].
  - rewrite Hti in Hnd. apply NoDup_cons in Hnd as [Hno _]. by destruct Hno; eapply Hin.
  - rewrite Htj in Hnd. apply NoDup_cons in Hnd as [Hno _]. by destruct Hno; eapply Hin.
  - f_equal. apply IH; [|done|done]. destruct (op_tenant op); [by apply NoDup_cons in Hnd as [_ ?]|done].
Qed.

Definition in_order_b (σ : Site) : bool :=
  orderly_b (crew σ) && bool_decide (NoDup (omap op_tenant (operators σ))) &&
  bool_decide (Forall op_typed (operators σ)).

Lemma in_order_b_ok σ : in_order_b σ = true → in_order σ.
Proof.
  unfold in_order_b. intros [[H1 H2]%andb_true_iff H3]%andb_true_iff.
  apply bool_decide_eq_true_1 in H2, H3.
  split; [by apply orderly_b_ok|by apply op_exclusive_nodup|done].
Qed.

(** What happens next on a site: something among the writers, a new administrator,
    or an administrator's next call. *)
Inductive site_event := Crew (e : Interleave.event) | Hire (op : OpPc) | Op (i : nat).

Definition op_turn (σ : Site) (i : nat) : Site :=
  match operators σ !! i with
  | Some op =>
      let '(op', s') := op_advance op (shared (crew σ)) in
      mkSite (set_shared s' (crew σ)) (<[i:=op']> (operators σ))
  | None => σ
  end.

Definition on_site (σ : Site) (e : site_event) : Site :=
  match e with
  | Crew e => mkSite (pool_event (crew σ) e) (operators σ)
  | Hire op => mkSite (crew σ) (operators σ ++ [op])
  | Op i => op_turn σ i
  end.

Definition event_ok (e : site_event) : bool :=
  match e with
  | Crew (Arrive pc) => is_start pc
  | Hire op => is_op_start op
  | _ => true
  end.

(** A run in order all the way. *)
Fixpoint orderly_run (σ : Site) (es : list site_event) : bool :=
  in_order_b σ &&
  match es with
  | [] => true
  | e :: es => event_ok e && orderly_run (on_site σ e) es
  end.

Lemma orderly_run_start σ es : orderly_run σ es = true → in_order σ.
Proof. destruct es; intros [H _]%andb_true_iff; by apply in_order_b_ok. Qed.

(** One event is at most one step. *)
Lemma on_site_step σ e : event_ok e = true → on_site σ e = σ ∨ site_step σ (on_site σ e).
Proof.
  destruct σ as [p ops]. destruct e as [[pc|i|n|n]|op|i]; intros He; cbn [on_site crew operators pool_event].
  - right. destruct p. by apply site_crew, pool_spawn.
  - unfold pool_turn. destruct (tasks p !! i) as [pc|] eqn:E; [|by left; destruct p].
    right. destruct p. by apply site_crew, pool_run.
  - right. apply site_crew, pool_drain.
  - right. apply site_crew, pool_tick.
  - right. by apply site_hire.
  - unfold op_turn. cbn [operators crew]. destruct (ops !! i) as [op|] eqn:E; [|by left].
    right. pose proof (site_op p ops i op E) as Hs. by destruct (op_advance op (shared p)).
Qed.

Lemma orderly_run_steps es σ : orderly_run σ es = true → rtc site_ordered σ (fold_left on_site es σ).
Proof.
  revert σ. induction es as [|e es IH]; intros σ H; [done|]. pose proof (orderly_run_start _ _ H) as Ho.
  cbn [orderly_run fold_left] in *. apply andb_true_iff in H as [_ [He Hr]%andb_true_iff].
  pose proof (orderly_run_start _ _ Hr) as Ho'. specialize (IH _ Hr).
  destruct (on_site_step σ e He) as [E|Hs]; [by rewrite E in *|]. by eapply rtc_l; [split|].
Qed.

(** C4: administration does not disturb writers, nor they it.  From a node in order, let any
    number of puts, deletes and sweeps run, with never two of them in flight on one key,
    their keys within what the storage engine takes, and beside them any number of
    administrators who set and clear limits, with never two of them at work on one
    tenant; and let no rotation of the log fall due meanwhile (the node keeps its data in
    memory, or its segment stays below the threshold).  They make their calls in any
    order.  When everybody is done, log and storage agree on every client key, usage
    counters are exact, every expiry is in the index, and the limits in force are those
    on record for every tenant.  With a rotation in between this is not so:
    [Races.v] has the schedule. *)
Theorem administration_beside_writers d s l σ
    (Hn : node_ok s) (Henv : env_ok s l) (Hlog : logged s l d) (Hq : quotas_typed (quota_store s))
    (Ho : in_order (mkSite (mkPool [] s) []))
    (Hsteps : rtc site_ordered (mkSite (mkPool [] s) []) σ) (Hquiet : site_quiet σ = true) :
  let s' := shared (crew σ) in
  node_ok s' ∧ quotas_typed (quota_store s') ∧ ∃ l', env_ok s' l' ∧ logged s' l' d.
Proof.
  assert (site_ok d σ ∧ in_order σ) as [[(m & l' & acct & Hp & Ha) Hops Hqt] Hin].
  { pose proof (site_ok_start d s l Hn Henv Hlog Hq) as Hs.
    induction Hsteps as [σ|σ1 σ2 σ Hstep _ IH]; [done|].
    apply IH; [apply Hstep|done|by eapply site_ok_step]. }
  destruct σ as [p ops]. unfold site_quiet in Hquiet. cbn [crew operators] in *.
  apply andb_true_iff in Hquiet as [Hqp Hqo].
  assert (m = quotas (quota_store (shared p))) as ->.
  { apply map_eq. intros t. apply (Ha t). intros op o Hop. rewrite forallb_forall in Hqo.
    apply list_elem_of_In, Hqo in Hop. by destruct op. }
  unfold virtual, set_shared in Hp. rewrite with_own_limits in Hp.
  destruct p as [ts s0]. cbn [shared tasks] in *.
  destruct (pool_settled d (mkPool ts s0) l' acct Hp (io_crew _ Hin) Hqp) as (H1 & H2 & H3).
  split_and!; [done|done|]. by exists l'.
Qed.

End spec.

(** ** Witness: limits are set and cleared while a put is under way. *)

Abbreviation SampleSite := (Site (F:=sample_fjall) (B:=sample_broadcast) (G:=sample_governor)).

Definition acme_a : bytes := data_key (lit "acme") (lit "a").

(** The limits are on record when the put is checked against the old ones, and in the
    cache when it stores; another tenant's are cleared at the same time. *)
Definition shift : list site_event :=
  [Crew (Arrive (PutStart 0 acme_a (lit "12345") 0)); Hire (SetStart (lit "acme") (mkSetQuota (Some 3) None));
   Crew (Turn 0); Op 0; Crew (Turn 0); Op 0; Crew (Turn 0); Hire (ClearStart (lit "beta")); Op 1; Crew (Turn 0);
   Op 0; Crew (Turn 0); Op 1; Crew (Turn 0); Op 0; Crew (Turn 0); Op 1; Crew (Turn 0); Crew (Turn 0);
   Crew (Turn 0)].

Definition site_start : SampleSite := mkSite (mkPool [] sample_node) [].
Definition site_end : SampleSite := fold_left on_site shift site_start.

Lemma administration_beside_writers_witness :
  site_quiet site_end = true ∧ node_ok (shared (crew site_end)) ∧
  get (shared (crew site_end)) 0 acme_a = Ok (Some (lit "12345")) ∧
  usage_of (quota_store (shared (crew site_end))) (lit "acme") = mkUsage 6 3 0.
Proof.
  assert (site_quiet site_end = true) as Hq by (vm_compute; reflexivity).
  assert (orderly_run site_start shift = true) as Hr by (vm_compute; reflexivity).
  split; [exact Hq|]. split; [|split; vm_compute; reflexivity].
  destruct (administration_beside_writers ∅ sample_node empty_log site_end sample_node_ok sample_env_ok
    sample_logged) as [H _]; [| | |exact Hq|exact H].
  - split; [split; split; vm_compute; congruence|]. by intros t q Hlk.
  - apply (orderly_run_start _ _ Hr).
  - apply orderly_run_steps, Hr.
Defined.

(** ** Two administrators on one tenant *)

Definition to_bytes (n : Z) : SetQuotaRequest := mkSetQuota (Some n) None.
Definition to_rate (n : Z) : SetQuotaRequest := mkSetQuota None (Some n).

Definition op_run (order : list nat) (ops : list OpPc) : SampleSite :=
  fold_left on_site (Op <$> order) (mkSite (mkPool [] rotating_node) ops).

Definition backend_files (s : SampleService) : result Error (FjallStorage sample_fjall) :=
  match storage s with
  | FjallB f => Ok f
  | Memory _ => Err (StorageError "not configured")
  end.

(** The first records its limit; the second records its own and enters it; the first
    enters its own. *)
Definition crossed : SampleSite :=
  op_run [0; 0; 1; 1; 1; 0; 0; 1]%nat [SetStart (lit "acme") (to_bytes 100); SetStart (lit "acme") (to_bytes 200)].

(** Both look at the limits before either changes them. *)
Definition overlapped : SampleSite :=
  op_run [0; 1; 0; 0; 0; 1; 1; 1]%nat [SetStart (lit "acme") (to_bytes 100); SetStart (lit "acme") (to_rate 5)].

Definition in_force (σ : SampleSite) : Quota := quota (quota_store (shared (crew σ))) (lit "acme").

(** C36: two administrators on one tenant can undo each other.  On a durable node, two
    requests that set a tenant's byte limit are both answered with success and leave
    the first one's limit in force and the second one's on record, so that a restart
    changes the limit.  Of two that set different fields, both answered with success,
    the first is lost, although a field a request does not name is to stay as it was. *)
Theorem concurrent_quota_updates_diverge :
  site_quiet crossed = true ∧ site_quiet overlapped = true ∧
  forallb (λ op, match op with Answered (Ok _) => true | _ => false end)
    (operators crossed ++ operators overlapped) = true ∧
  in_force crossed = mkQuota 100 0 ∧
  match restarted (shared (crew crossed)) (backend_files (shared (crew crossed))) with
  | Ok s => quota (quota_store s) (lit "acme") = mkQuota 200 0
  | _ => False
  end ∧
  in_force overlapped = mkQuota 0 5.
Proof. split_and!; vm_compute; reflexivity. Qed.
