(* ===== verification/AdminHttp.v ===== *)
(** * The admin server's routes ([ferriskv-node/src/admin.rs], [router])

    The table of routes, what each of them answers, and a request from its method
    and path to its response.  Matching a path against the table is axum's ([Axum]),
    with its documented rules as hypotheses; reading a JSON body and rendering the
    metrics are parameters too.

    The theorem: a path outside the table is a 404, a method its route does not have is
    a 405, every other request is answered by its handler, and no request changes
    anything but the limits of the one tenant a PUT or a DELETE names.  It is about
    paths with nothing percent-encoded: what axum decodes is not described here. *)

From Stdlib Require Import Strings.Byte.
From S2P Require Import Prelude Bytes Core KeyCodec ValueCodec Storage Wal TtlIndex Quota.
From S2P Require Import Throttle Watch Config Service Node NodeSpec Sample Admin.

(** ** Routing *)

Inductive Method := GET | HEAD | PUT | DELETE | OtherMethod.

Global Instance Method_eq_dec : EqDecision Method.
Proof. solve_decision. Defined.

(** Where a request goes: to a handler, with the segments its path captured. *)
Inductive Routed (H : Type) :=
| Call (h : H) (captured : list bytes)
| NoRoute
| NoMethod.
Global Arguments Call {H} h captured.
Global Arguments NoRoute {H}.
Global Arguments NoMethod {H}.

Abbreviation Routes H := (list (bytes * list (Method * H))).

Class Axum := axum_route : ∀ {H : Type}, Routes H → Method → bytes → Routed H.

(** The segments of a path: [/a/b] has three, the first one empty. *)
Fixpoint segments (path : bytes) : list bytes :=
  match path with
  | [] => [[]]
  | b :: path =>
      if decide (b = x2f) then [] :: segments path else
      match segments path with
      | seg :: segs => (b :: seg) :: segs
      | [] => [[b]]
      end
  end.

(** A pattern segment [:name] captures a segment that is not empty; any other is
    literal. *)
Definition match_segment (pat seg : bytes) : option (list bytes) :=
  match pat with
  | x3a :: _ => if decide (seg = []) then None else Some [seg]
  | _ => if decide (pat = seg) then Some [] else None
  end.

Fixpoint match_segments (pats segs : list bytes) : option (list bytes) :=
  match pats, segs with
  | [], [] => Some []
  | p :: pats, s :: segs =>
      c ← match_segment p s;
      cs ← match_segments pats segs;
      Some (c ++ cs)
  | _, _ => None
  end.

Definition match_path (pattern path : bytes) : option (list bytes) :=
  match_segments (segments pattern) (segments path).

(** A path with nothing percent-encoded. *)
Definition plain (path : bytes) : Prop := x25 ∉ path.

(** The handler for a method; [get] also answers HEAD. *)
Definition pick_method {H} (m : Method) (hs : list (Method * H)) : option H :=
  match list_find (λ e, e.1 = m) hs with
  | Some (_, (_, h)) => Some h
  | None =>
      match m with
      | HEAD => (λ e, e.2.2) <$> list_find (λ e, e.1 = GET) hs
      | _ => None
      end
  end.

(** axum's rules: a path no pattern matches is not found; one that a single pattern
    matches goes to that route's handler for its method, or is a method that is not
    allowed. *)
Class AxumOk `{Axum} : Prop := {
  route_none {H} (routes : Routes H) m path :
    plain path → (∀ pat hs, (pat, hs) ∈ routes → match_path pat path = None) →
    axum_route routes m path = NoRoute;
  route_one {H} (routes : Routes H) m path pat hs captured :
    plain path → (pat, hs) ∈ routes → match_path pat path = Some captured →
    (∀ pat' hs', (pat', hs') ∈ routes → is_Some (match_path pat' path) → (pat', hs') = (pat, hs)) →
    axum_route routes m path =
      match pick_method m hs with
      | Some h => Call h captured
      | None => NoMethod
      end;
}.

(** ** The table *)

Inductive Handler :=
| LiveH | ReadyH | RenderMetricsH | ListQuotasH | GetQuotaH | SetQuotaH | ClearQuotaH.

Global Instance Handler_eq_dec : EqDecision Handler.
Proof. solve_decision. Defined.

Definition router : Routes Handler :=
  [(lit "/healthz", [(GET, LiveH)]);
   (lit "/readyz", [(GET, ReadyH)]);
   (lit "/metrics", [(GET, RenderMetricsH)]);
   (lit "/quotas", [(GET, ListQuotasH)]);
   (lit "/quotas/:tenant", [(GET, GetQuotaH); (PUT, SetQuotaH); (DELETE, ClearQuotaH)])].

(** ** Requests *)

Record HttpRequest := mkHttp {
  method : Method;
  uri : bytes;
  http_body : bytes;
}.

Inductive Body :=
| LiveB (r : LiveResponse)
| ReadyB (r : ReadyResponse)
| MetricsB (content_type : string) (text : bytes)
| ListB (r : QuotaListResponse)
| EntryB (r : QuotaEntry)
| ErrorB (r : ErrorResponse)
| NoBody.

(** [status] of a response; the last two are axum's, and an extractor's rejection
    carries its own code. *)
Inductive HttpStatus :=
| Status (c : StatusCode)
| NotFoundS
| MethodNotAllowedS
| RejectedS (code : Z).

(** Reading the body of a quota write: a value, or the code it is refused with. *)
Class SetQuotaJson := parse_set_quota : bytes → Z + SetQuotaRequest.

Section http.
Context {F : Fjall} {B : Broadcast} {G : Governor} {J : QuotaJson} {A : Axum} {SJ : SetQuotaJson}.

Abbreviation Service := (NodeService (F:=F) (B:=B) (G:=G)).

(** What the server is built with: the package's version, and the metrics handle. *)
Context (version : string) (render : bytes).

Definition respond_entry (m : M Service Failure QuotaEntry) : M Service Empty_set (HttpStatus * Body) := λ s,
  match m s with
  | (Ok e, s') => (Ok (Status OK, EntryB e), s')
  | (Err (c, e), s') => (Ok (Status c, ErrorB e), s')
  | (Panic, s') => (Panic, s')
  end.

Definition render_metrics : HttpStatus * Body := (Status OK, MetricsB "text/plain; version=0.0.4" render).

Definition handle (h : Handler) (captured : list bytes) (body : bytes) :
    M Service Empty_set (HttpStatus * Body) := λ s,
  match h, captured with
  | LiveH, _ => (Ok (Status OK, LiveB (live version s)), s)
  | ReadyH, _ =>
      match ready version s with
      | Ok (c, r) => (Ok (Status c, ReadyB r), s)
      | Err (c, e) => (Ok (Status c, ErrorB e), s)
      | Panic => (Panic, s)
      end
  | RenderMetricsH, _ => (Ok render_metrics, s)
  | ListQuotasH, _ => (Ok (Status OK, ListB (list_quotas s)), s)
  | GetQuotaH, [t] => respond_entry (get_quota t) s
  | SetQuotaH, [t] =>
      match parse_set_quota body with
      | inl code => (Ok (RejectedS code, NoBody), s)
      | inr req => respond_entry (set_quota t req) s
      end
  | ClearQuotaH, [t] => respond_entry (clear_quota t) s
  | _, _ => (Ok (RejectedS 500, NoBody), s)
  end.

Definition oneshot (req : HttpRequest) : M Service Empty_set (HttpStatus * Body) :=
  match axum_route router (method req) (uri req) with
  | Call h captured => handle h captured (http_body req)
  | NoRoute => mret (NotFoundS, NoBody)
  | NoMethod => mret (MethodNotAllowedS, NoBody)
  end.

End http.

(** ** Paths and the table *)

Fixpoint join (segs : list bytes) : bytes :=
  match segs with
  | [] => []
  | [seg] => seg
  | seg :: segs => seg ++ x2f :: join segs
  end.

Lemma segments_not_nil path : segments path ≠ [].
Proof. destruct path as [|b path]; simpl; [done|]. repeat case_match; done. Qed.

Lemma join_segments path : join (segments path) = path.
Proof.
  induction path as [|b path IH]; [done|]. simpl. pose proof (segments_not_nil path) as Hne.
  destruct (decide (b = x2f)) as [-> |Hb].
  - destruct (segments path) as [|s segs]; [done|]. change (x2f :: join (s :: segs) = x2f :: path).
    by rewrite IH.
  - destruct (segments path) as [|s [|s' segs]]; [done|by rewrite <-IH..].
Qed.

Lemma segments_inj a b : segments a = segments b → a = b.
Proof. intros E. by rewrite <-(join_segments a), E, join_segments. Qed.

Definition literal (seg : bytes) : Prop := head seg ≠ Some x3a.

Global Instance literal_dec seg : Decision (literal seg).
Proof. unfold literal. apply _. Defined.

Lemma match_segment_literal pat seg :
  literal pat → match_segment pat seg = if decide (pat = seg) then Some [] else None.
Proof. unfold literal, match_segment. destruct pat as [|[] pat]; simpl; done. Qed.

Lemma match_segments_literal pats segs c :
  Forall literal pats → match_segments pats segs = Some c → pats = segs ∧ c = [].
Proof.
  intros Hl. revert segs c. induction Hl as [|p pats Hp _ IH]; intros [|s segs] c Hm; simplify_eq/=; [done|].
  rewrite match_segment_literal in Hm by done. case_decide; simplify_eq/=.
  destruct (match_segments pats segs) as [cs|] eqn:E; simplify_eq/=.
  by destruct (IH _ _ E) as [-> ->].
Qed.

Lemma match_segments_refl pats : Forall literal pats → match_segments pats pats = Some [].
Proof.
  induction 1 as [|p pats Hp _ IH]; [done|]. simpl. rewrite match_segment_literal by done.
  rewrite decide_True by done. simpl. by rewrite IH.
Qed.

(** A pattern without captures matches itself alone. *)
Lemma match_path_literal pat path :
  Forall literal (segments pat) → match_path pat path = if decide (path = pat) then Some [] else None.
Proof.
  intros Hl. unfold match_path. case_decide as E; [subst; by apply match_segments_refl|].
  destruct (match_segments _ _) as [c|] eqn:Em; [|done].
  apply match_segments_literal in Em as [Em%segments_inj _]; [by subst|done].
Qed.

Definition quota_path (t : bytes) : bytes := lit "/quotas/" ++ t.

(** The paths of the table: four fixed ones, and one for each tenant, whose name is a
    segment of its own. *)
Definition fixed_paths : list bytes := [lit "/healthz"; lit "/readyz"; lit "/metrics"; lit "/quotas"].

Definition tenant_path (t path : bytes) : Prop := path = quota_path t ∧ t ≠ [] ∧ x2f ∉ t.

Lemma segments_slashless path : Forall (λ seg, x2f ∉ seg) (segments path).
Proof.
  induction path as [|b path IH]; simpl; [by repeat constructor; apply not_elem_of_nil|].
  case_decide as Hb; [constructor; [apply not_elem_of_nil|done]|].
  destruct IH as [|seg segs Hs Hss]; constructor; try done; try apply not_elem_of_cons; split; try done.
  apply not_elem_of_nil.
Qed.

(** [/quotas/:tenant] matches the paths of one more segment, and captures it. *)
Lemma match_quota_path path c :
  match_path (lit "/quotas/:tenant") path = Some c →
  ∃ t, tenant_path t path ∧ c = [t].
Proof.
  unfold match_path. change (segments (lit "/quotas/:tenant")) with [[]; lit "quotas"; lit ":tenant"].
  intros Hm. pose proof (segments_slashless path) as Hs. unfold tenant_path. rewrite <-(join_segments path).
  destruct (segments path) as [|s1 [|s2 [|s3 [|s4 segs]]]]; simplify_eq/=;
    repeat (case_decide; simplify_eq/=). exists s3. by do 3 apply Forall_cons in Hs as [? Hs].
Qed.

Lemma segments_no_slash t : x2f ∉ t → segments t = [t].
Proof.
  induction t as [|b t IH]; intros Ht; [done|]. simpl. apply not_elem_of_cons in Ht as [Hb Ht].
  rewrite decide_False by done. by rewrite IH.
Qed.

Lemma quota_path_match t :
  t ≠ [] → x2f ∉ t → match_path (lit "/quotas/:tenant") (quota_path t) = Some [t].
Proof.
  intros Hne Hs. unfold match_path. change (segments (lit "/quotas/:tenant")) with [[]; lit "quotas"; lit ":tenant"].
  assert (segments (quota_path t) = [[]; lit "quotas"; t]) as ->.
  { unfold quota_path. simpl. by rewrite segments_no_slash. }
  simpl. rewrite (decide_False (P:=t = [])) by done. done.
Qed.

Section routing.
Context {A : Axum} {AO : AxumOk}.

(** What the server does with a path, as the table has it. *)
Definition route_of (path : bytes) : option (list (Method * Handler) * list bytes) :=
  if decide (path = lit "/healthz") then Some ([(GET, LiveH)], [])
  else if decide (path = lit "/readyz") then Some ([(GET, ReadyH)], [])
  else if decide (path = lit "/metrics") then Some ([(GET, RenderMetricsH)], [])
  else if decide (path = lit "/quotas") then Some ([(GET, ListQuotasH)], [])
  else (λ c, ([(GET, GetQuotaH); (PUT, SetQuotaH); (DELETE, ClearQuotaH)], c))
       <$> match_path (lit "/quotas/:tenant") path.

Lemma route_single i path m pat hs c :
  plain path → router !! i = Some (pat, hs) → match_path pat path = Some c →
  (∀ j e, router !! j = Some e → j ≠ i → match_path e.1 path = None) →
  axum_route router m path =
    match pick_method m hs with Some h => Call h c | None => NoMethod end.
Proof.
  intros Hp Hi Hc Hu. eapply route_one; [done|by eapply list_elem_of_lookup_2|done|].
  intros pat' hs' [j Hj]%list_elem_of_lookup [c' Hc'].
  destruct (decide (j = i)) as [-> |Hne]; [congruence|].
  specialize (Hu _ _ Hj Hne). simpl in Hu. congruence.
Qed.

Lemma route_of_spec path m :
  plain path →
  axum_route router m path =
    match route_of path with
    | Some (hs, c) => match pick_method m hs with Some h => Call h c | None => NoMethod end
    | None => NoRoute
    end.
Proof.
  intros Hp.
  assert (∀ pat, Forall literal (segments pat) → path ≠ pat → match_path pat path = None) as Hlit.
  { intros pat Hl Hne. rewrite match_path_literal by done. by rewrite decide_False. }
  unfold route_of.
  destruct (decide (path = lit "/healthz")) as [-> |H1]; [|
  destruct (decide (path = lit "/readyz")) as [-> |H2]; [|
  destruct (decide (path = lit "/metrics")) as [-> |H3]; [|
  destruct (decide (path = lit "/quotas")) as [-> |H4]; [|]]]].
  1: apply (route_single 0 _ _ (lit "/healthz")); [done|done|done|].
  2: apply (route_single 1 _ _ (lit "/readyz")); [done|done|done|].
  3: apply (route_single 2 _ _ (lit "/metrics")); [done|done|done|].
  4: apply (route_single 3 _ _ (lit "/quotas")); [done|done|done|].
  1-4: intros [|[|[|[|[|j]]]]] e He Hj; simplify_eq/=; done.
  assert (Forall (λ pat, Forall literal (segments pat))
    [lit "/healthz"; lit "/readyz"; lit "/metrics"; lit "/quotas"]) as Hls.
  { apply (bool_decide_unpack _). vm_compute. exact I. }
  repeat (apply Forall_cons in Hls as [? Hls]).
  destruct (match_path (lit "/quotas/:tenant") path) as [c|] eqn:Eq; simpl.
  - eapply (route_single 4); [done|done|done|].
    intros [|[|[|[|[|j]]]]] e He Hj; simplify_eq/=; try done; by apply Hlit.
  - apply route_none; [done|]. intros pat hs Hin. unfold router in Hin.
    repeat (apply elem_of_cons in Hin as [[= -> ->]|Hin]); [by apply Hlit..|done|].
    by apply elem_of_nil in Hin.
Qed.

End routing.

(** ** Properties *)

Section spec.
Context {F : Fjall} {FS : FjallSpec} {FO : FjallOk}.
Context {B : Broadcast} {G : Governor} {C : Crc32} {CO : Crc32Ok} {J : QuotaJson} {JO : QuotaJsonOk}.
Context {A : Axum} {AO : AxumOk} {SJ : SetQuotaJson}.
Context (version : string) (render : bytes).

Abbreviation Service := (NodeService (F:=F) (B:=B) (G:=G)).
Abbreviation answer := (oneshot (F:=F) (B:=B) (G:=G) version render).

(** serde reads a [u64] and a [u32]. *)
Hypothesis parse_typed : ∀ b req, parse_set_quota b = inr req → body_typed req.

Lemma oneshot_routed req :
  plain (uri req) →
  answer req =
    match route_of (uri req) with
    | Some (hs, c) =>
        match pick_method (method req) hs with
        | Some h => handle version render h c (http_body req)
        | None => mret (MethodNotAllowedS, NoBody)
        end
    | None => mret (NotFoundS, NoBody)
    end.
Proof.
  intros Hp. unfold oneshot. rewrite route_of_spec by done.
  destruct (route_of (uri req)) as [[hs c]|]; [|done]. by destruct (pick_method (method req) hs).
Qed.

Lemma route_of_quota t :
  t ≠ [] → x2f ∉ t →
  route_of (quota_path t) = Some ([(GET, GetQuotaH); (PUT, SetQuotaH); (DELETE, ClearQuotaH)], [t]).
Proof.
  intros Hne Hs. unfold route_of. rewrite quota_path_match by done.
  rewrite !decide_False; [done|intros [=]..|intros [=]|intros [=]]; done.
Qed.

(** Membership in a list that is written out. *)
Ltac solve_listed := repeat (apply elem_of_cons; first [left; reflexivity|right]).

(** The handlers of a tenant's limits, on a node that works. *)
Lemma tenant_requests t h body (s : Service) :
  node_ok s → healthy (storage s) → utf8_valid t = true →
  Quota_typed (quota (quota_store s) t) →
  h ∈ [GetQuotaH; SetQuotaH; ClearQuotaH] →
  ∃ r s', handle version render h [t] body s = (Ok r, s') ∧
    (s' = s ∨ (h ≠ GetQuotaH ∧ ∃ q, quota_effect s s' t q)).
Proof.
  intros Hn Hh Hu Hq Hin. destruct (decide (1 ≤ len t ≤ 255)) as [Hl|Hl].
  - assert (valid_tenant t) as Ht by done. pose proof (proj2 (validate_tenant_spec t) Hl) as Hval.
    repeat (apply elem_of_cons in Hin as [-> |Hin]); [..|by apply elem_of_nil in Hin]; cbn [handle].
    + unfold respond_entry, get_quota, lift. unfold_monad. rewrite Hval. simpl. eauto.
    + destruct (parse_set_quota body) as [code|req] eqn:Eb; [eauto|].
      destruct (set_quota_handled t req s Hn Hh Ht (parse_typed _ _ Eb) Hq) as (s' & E & Heff).
      unfold respond_entry. rewrite E. eauto 10.
    + destruct (clear_quota_handled t s Hn Hh Ht) as (s' & E & Heff).
      unfold respond_entry. rewrite E. eauto 10.
  - repeat (apply elem_of_cons in Hin as [-> |Hin]); [..|by apply elem_of_nil in Hin]; cbn [handle].
    + destruct (quota_refused t (mkSetQuota None None) s Hl) as (e & _ & _ & E).
      unfold respond_entry. rewrite E. eauto.
    + destruct (parse_set_quota body) as [code|req]; [eauto|].
      destruct (quota_refused t req s Hl) as (e & E & _). unfold respond_entry. rewrite E. eauto.
    + destruct (quota_refused t (mkSetQuota None None) s Hl) as (e & _ & E & _).
      unfold respond_entry. rewrite E. eauto.
Qed.

(** What the table makes of a path. *)
Lemma route_of_cases path :
  (path ∈ fixed_paths ∧ (∀ t, ¬ tenant_path t path) ∧
   (∃ h, h ∈ [LiveH; ReadyH; RenderMetricsH; ListQuotasH] ∧ route_of path = Some ([(GET, h)], []))) ∨
  (path ∉ fixed_paths ∧ (∃ t, tenant_path t path ∧
   route_of path = Some ([(GET, GetQuotaH); (PUT, SetQuotaH); (DELETE, ClearQuotaH)], [t]))) ∨
  (path ∉ fixed_paths ∧ (∀ t, ¬ tenant_path t path) ∧ route_of path = None).
Proof.
  destruct (decide (path ∈ fixed_paths)) as [Hin|Hno].
  - left. split; [done|]. unfold fixed_paths in Hin. split.
    + intros t [-> _]. by repeat (apply elem_of_cons in Hin as [[=]|Hin]); apply elem_of_nil in Hin.
    + repeat (apply elem_of_cons in Hin as [-> |Hin]); [..|by apply elem_of_nil in Hin];
        (eexists; split; [|reflexivity]); solve_listed.
  - right. pose proof Hno as Hfix. unfold fixed_paths in Hno. unfold route_of.
    repeat (apply not_elem_of_cons in Hno as [? Hno]). rewrite !decide_False by done.
    destruct (match_path (lit "/quotas/:tenant") path) as [c|] eqn:Em.
    + left. split; [done|]. apply match_quota_path in Em as (t & Ht & ->). eauto.
    + right. split_and!; [done| |done]. intros t (-> & Hne & Hs). by rewrite quota_path_match in Em.
Qed.

(** No handler answers 404 or 405. *)
Lemma handle_status h c body (s s' : Service) r :
  handle version render h c body s = (Ok r, s') → r.1 ≠ NotFoundS ∧ r.1 ≠ MethodNotAllowedS.
Proof.
  unfold handle, respond_entry. intros H. by repeat (case_match; simplify_eq/=).
Qed.

(** The handlers of the fixed paths only look. *)
Lemma other_requests h body (s : Service) :
  healthy (storage s) → h ∈ [LiveH; ReadyH; RenderMetricsH; ListQuotasH] →
  ∃ r, handle version render h [] body s = (Ok r, s).
Proof.
  intros Hh Hin. repeat (apply elem_of_cons in Hin as [-> |Hin]); [..|by apply elem_of_nil in Hin];
    cbn [handle]; [eauto| |eauto..].
  rewrite ready_when_healthy by done. eauto.
Qed.


End spec.

(** ** Witness *)

(** A router that follows the rules. *)
Definition sample_axum : Axum := λ H routes m path,
  match omap (λ e, (λ c, (e.2, c)) <$> match_path e.1 path) routes with
  | [] => NoRoute
  | (hs, c) :: _ => match pick_method m hs with Some h => Call h c | None => NoMethod end
  end.

Lemma sample_axum_ok : AxumOk (H:=sample_axum).
Proof.
  split; unfold axum_route, sample_axum.
  - intros H routes m path _ Hno.
    assert (omap (λ e, (λ c, (e.2, c)) <$> match_path e.1 path) routes = []) as ->; [|done].
    induction routes as [|[pat hs] routes IH]; [done|]. csimpl.
    rewrite (Hno pat hs) by set_solver. simpl. apply IH. intros pat' hs' Hin. apply (Hno pat' hs'). set_solver.
  - intros H routes m path pat hs c _ Hin Hc Hu.
    assert (∀ l, (∀ e, e ∈ l → is_Some (match_path e.1 path) → e = (pat, hs)) → (pat, hs) ∈ l →
      head (omap (λ e, (λ c, (e.2, c)) <$> match_path e.1 path) l) = Some (hs, c)) as Hhead.
    { intros l. induction l as [|e l IH]; intros Hl Hm; [by apply elem_of_nil in Hm|]. csimpl.
      destruct (match_path e.1 path) as [c'|] eqn:Ee; simpl.
      - assert (e = (pat, hs)) as -> by (apply Hl; [set_solver|by eexists]). simpl in *. congruence.
      - apply IH; [intros e' He'; apply Hl; set_solver|].
        apply elem_of_cons in Hm as [<-|Hm]; [simpl in *; congruence|done]. }
    specialize (Hhead routes). destruct (omap _ routes) as [|[hs' c'] rest]; simpl in Hhead.
    + by discriminate Hhead; [intros [pat' hs'] He Hs; apply Hu|].
    + assert (Some (hs', c') = Some (hs, c)) as [= -> ->]; [|done].
      apply Hhead; [intros [pat' hs''] He Hs; by apply Hu|done].
Qed.

(** A body of one byte is a byte cap. *)
Definition sample_body : SetQuotaJson := λ b,
  match b with
  | [x] => inr (mkSetQuota (Some (byte_Z x)) None)
  | _ => inl 400
  end.

Lemma sample_body_typed b req : sample_body b = inr req → body_typed req.
Proof.
  destruct b as [|x [|]]; intros [= <-]. pose proof (byte_Z_range x).
  split; cbn [max_bytes max_ops_per_sec body_max_bytes body_max_ops_per_sec default]; unfold u64_ok, U32_MAX; simpl; lia.
Qed.

Definition sample_quota_put : HttpRequest := mkHttp PUT (lit "/quotas/acme") [x64].

