(* ===== verification/Process.v ===== *)
(** * The node's process ([ferriskv-node/src/main.rs])

    From the configuration file to the exit: loading and validating the
    configuration, opening the node, building the interceptor and the TLS identity,
    serving, and shutting down.  Time is milliseconds from the start of serving.  A
    future is when it completes and with what, or [None] if it never does; the time
    limit is tokio's ([Tokio]), and what the listening sockets do is part of the
    environment ([Environment]).  While it runs, the process does three kinds of work on
    the node: the gRPC server's calls, each through the interceptor, the sweeper's
    wake-ups and the admin server's requests.  Here they are done one after the other;
    [Interleave.v] and [Operators.v] have them in pieces.

    The theorems: what a process that serves has checked first, and that a call without
    a token leaves no trace; which accepted configurations make it panic; a signal in
    time is a clean shutdown; and the time limit that is meant for the shutdown runs from
    the start, so that a node nobody stops stops serving by itself. *)

From Stdlib Require Import Strings.Byte.
From S2P Require Import Prelude Bytes Core KeyCodec ValueCodec Storage Wal TtlIndex Quota.
From S2P Require Import Throttle Watch Config Service Node NodeSpec Sample Sweeper Auth Grpc GrpcSpec.
From S2P Require Import Server Admin AdminHttp.

Abbreviation Future A := (option (Z * A)).

(** [tokio::time::timeout]: the future's value, or [None] for [Elapsed], and when. *)
Class Tokio := timeout : ∀ {A : Type}, Z → Future A → option A * Z.

(** A future that is ready within the limit gives its value then; otherwise the limit
    is reached and the future is dropped. *)
Class TokioOk `{Tokio} : Prop := {
  timeout_ready {A} limit t (a : A) : t < limit → timeout limit (Some (t, a)) = (Some a, t);
  timeout_elapsed {A} limit (f : Future A) :
    (∀ t a, f = Some (t, a) → limit < t) → timeout limit f = (None, limit);
}.

(** [anyhow::Context]. *)
Definition with_context {A} (c : string) (r : result string A) : result string A :=
  map_err (λ e, c +:+ ": " +:+ e) r.

(** The earlier of two futures, as [select!] has it. *)
Definition earlier_of (a b : option Z) : option Z :=
  match a, b with
  | Some x, Some y => Some (Z.min x y)
  | Some x, None => Some x
  | None, b => b
  end.

(** One arm of [shutdown_signal]: the signal's arrival, or at once when no handler
    could be installed. *)
Definition signal_arm (handler : result string (option Z)) : option Z :=
  match handler with
  | Ok arrival => arrival
  | _ => Some 0
  end.

Definition shutdown_signal (sigint sigterm : result string (option Z)) : option Z :=
  earlier_of (signal_arm sigint) (signal_arm sigterm).

(** Waiting for a task from time [now] on. *)
Definition await (now : Z) (task : option Z) : option Z := Z.max now <$> task.

(** ** The command line *)

Record LogArgs := mkLogArgs {
  log_args_filter : string;
  log_args_json : bool;
}.

Record Args := mkArgs {
  args_config : Path;
  args_log : LogArgs;
}.

Section process.
Context {F : Fjall} {FS : FjallSpec} {FO : FjallOk}.
Context {B : Broadcast} {G : Governor} {C : Crc32} {CO : Crc32Ok} {J : QuotaJson} {H3 : Blake3}.
Context {W : JsonWebToken} {K : Tokio} {A : Axum} {SJ : SetQuotaJson}.

Abbreviation Service := (NodeService (F:=F) (B:=B) (G:=G)).
Abbreviation Server := (Server.Server (F:=F) (B:=B) (G:=G)).

(** ** What the process does while it runs *)

(** The calls of the service, as a client sends them. *)
Inductive Rpc :=
| RpcGet (req : Request GetRequest)
| RpcPut (req : Request PutRequest)
| RpcDelete (req : Request DeleteRequest)
| RpcScan (req : Request ScanRequest)
| RpcWatch (req : Request WatchRequest)
| RpcBatch (req : Request BatchRequest).

(** The clocks a call reads: the seconds a token's expiry is compared with, the rate
    limiter's and the system's milliseconds. *)
Record Clocks := mkClocks {
  token_now : Z;
  limiter_now : Z;
  system_now : Z;
}.

(** [FerrisKvServer::with_interceptor(api, interceptor)]: every call goes through the
    interceptor. *)
Definition serve_rpc (i : AuthInterceptor) (c : Clocks) (r : Rpc) (s : Server) : Server :=
  let '(mkClocks now g sys) := c in
  match r with
  | RpcGet req => (with_interceptor now i (rpc_get g sys) req s).2
  | RpcPut req => (with_interceptor now i (rpc_put g sys) req s).2
  | RpcDelete req => (with_interceptor now i (rpc_delete g sys) req s).2
  | RpcScan req => (with_interceptor now i (rpc_scan g sys) req s).2
  | RpcWatch req => (with_interceptor now i (rpc_watch g g) req s).2
  | RpcBatch req => (with_interceptor now i (rpc_batch g sys) req s).2
  end.

(** The work of the server and of the two tasks [main] spawns beside it.  [metrics] is
    what the recorder renders at that moment. *)
Inductive Work :=
| ClientCall (c : Clocks) (r : Rpc)
| SweeperWakes (w : wake) (sys : Z)
| AdminCall (metrics : bytes) (req : HttpRequest).

Definition on_service (m : Service → Service) (s : Server) : Server :=
  mkServer (mkApi (m (inner (api s))) (audit_log (api s))) (rpc_counts s).

Definition perform (version : string) (i : AuthInterceptor) (w : Work) (s : Server) : Server :=
  match w with
  | ClientCall c r => serve_rpc i c r s
  | SweeperWakes w sys => on_service (λ svc, (sweeper_turn sys w svc).2) s
  | AdminCall metrics req => on_service (λ svc, (oneshot version metrics req svc).2) s
  end.

(** A call whose bearer token, if it has one, [v] does not verify. *)
Definition tokenless (v : JwtVerifier) (w : Work) : bool :=
  match w with
  | ClientCall (mkClocks now _ _) r =>
      negb match r with
           | RpcGet req => bears_token now v req
           | RpcPut req => bears_token now v req
           | RpcDelete req => bears_token now v req
           | RpcScan req => bears_token now v req
           | RpcWatch req => bears_token now v req
           | RpcBatch req => bears_token now v req
           end
  | _ => false
  end.

(** ** The environment *)

(** What the process finds around it.  [args] is the command line as parsed.
    [log_filter] is what the logging library answers to a filter, and with what
    messages it refuses one.  [config_file] is [None] when the path does not exist;
    otherwise it is what reading the file gave, and what deserializing that gave.
    [served] is the end of the server, with the error it ended with, if any.  [work] is
    what clients, the sweeper's timer and administrators ask for, in order, and when. *)
Record Environment := {
  args : Args;
  log_filter : string → result string unit;
  config_file : Path → option (result string (result string NodeConfig));
  env_exists : Path → bool;
  env_read : Path → result string bytes;
  recorder : result string unit;
  env_disk : Disk (F:=F);
  set_identity : bytes * bytes → result string unit;
  sigint : result string (option Z);
  sigterm : result string (option Z);
  served : Future (option string);
  admin_served : option Z;
  package_version : string;
  work : list (Z * Work);
}.

(** Plain text or JSON, the lines go to the subscriber; only the filter can be wrong. *)
Definition init_logging (env : Environment) : result string unit :=
  let filter := log_args_filter (args_log (args env)) in
  with_context ("invalid log filter '" +:+ filter +:+ "'") (log_filter env filter).

Definition load_config (env : Environment) : result string NodeConfig :=
  match config_file env (args_config (args env)) with
  | Some file =>
      raw ← with_context "loading config file" file;
      with_context "deserializing config" raw
  | None => mret fallback_config
  end.

Definition install_metrics_recorder (env : Environment) : result string unit :=
  map_err (λ e, "install global metrics recorder: " +:+ e) (recorder env).

(** [Identity::from_pem] keeps the two files as they are. *)
Definition build_tls (env : Environment) (t : TlsConfig) : result string (bytes * bytes) :=
  TlsConfig_load (env_read env) t.

(** When the sweeper task is over: at once when it is disabled, else on a signal. *)
Definition sweeper_ends (cfg : NodeConfig) (signal : option Z) : option Z :=
  if ttl_sweep_interval_secs cfg =? 0 then Some 0 else signal.

Inductive Outcome := Stopped | ServerError (e : string) | ForcedExit.

(** Whether work that is asked for at [w.1] is done: a call while the server serves, that
    is before [until]; a sweep while the sweeper runs; an admin request while the admin
    server does. *)
Definition before (t : Z) (limit : option Z) : bool :=
  match limit with
  | Some u => t <? u
  | None => true
  end.

Definition handled (env : Environment) (cfg : NodeConfig) (until : Z) (w : Z * Work) : bool :=
  match w.2 with
  | ClientCall _ _ => w.1 <? until
  | SweeperWakes _ _ =>
      before w.1 (sweeper_ends cfg (shutdown_signal (sigint env) (sigterm env)))
  | AdminCall _ _ =>
      match admin_listen cfg with
      | Some _ => before w.1 (admin_served env)
      | None => false
      end
  end.

(** What has been done to the server and its node in the end, serving having stopped at
    [until]. *)
Definition serve_calls (env : Environment) (cfg : NodeConfig) (i : AuthInterceptor) (until : Z)
    (asked : list (Z * Work)) (s : Server) : Server :=
  fold_left (λ s w, perform (package_version env) i w.2 s)
    (filter (λ w, handled env cfg until w = true) asked) s.

(** How a run went: why and when serving ended, the server and its node after all the
    work, and, unless a task is waited for forever, when the process exits, what the last sync answered and
    the log it left. *)
Record Run := mkRun {
  run_outcome : Outcome;
  run_stopped : Z;
  run_server : Server;
  run_exit : option (Z * result Error unit * Wal);
}.

(** Up to the point where the server is ready to be served. *)
Definition start (env : Environment) : result string (Service * AuthInterceptor) :=
  init_logging env;;
  cfg ← load_config env;
  validate (env_exists env) cfg;;
  install_metrics_recorder env;;
  service ← map_err error_text (open_node cfg (env_disk env));
  interceptor ← build_auth_interceptor (env_read env) (auth (config service));
  match tls (config service) with
  | Some t => identity ← build_tls env t; set_identity env identity
  | None => Ok tt
  end;;
  mret (service, interceptor).

(** [timeout(shutdown_timeout + Duration::from_secs(5), serve)]; the sum of two
    durations panics when it overflows. *)
Definition serve_limit (cfg : NodeConfig) : result string Z :=
  match checked_add64 (shutdown_timeout_secs cfg) 5 with
  | Some secs => Ok (secs * 1000)
  | None => Panic
  end.

(** The end of the two background tasks, waited for from [stopped] on. *)
Definition join_tasks (env : Environment) (cfg : NodeConfig) (stopped : Z) : option Z :=
  t ← match admin_listen cfg with
      | Some _ => await stopped (admin_served env)
      | None => Some stopped
      end;
  await t (sweeper_ends cfg (shutdown_signal (sigint env) (sigterm env))).

(** The last act: the log is synced, whatever the answer. *)
Definition finish (env : Environment) (cfg : NodeConfig) (outcome : Outcome) (stopped : Z) (server : Server) :
    Run :=
  mkRun outcome stopped server
    ((λ t, let '(r, w) := sync (wal (inner (api server))) in (t, r, w)) <$> join_tasks env cfg stopped).

Definition main (env : Environment) : result string Run :=
  '(service, interceptor) ← start env;
  limit ← serve_limit (config service);
  let '(answer, stopped) := timeout limit (served env) in
  let outcome := match answer with
                 | Some None => Stopped
                 | Some (Some e) => ServerError e
                 | None => ForcedExit
                 end in
  mret (finish env (config service) outcome stopped
          (serve_calls env (config service) interceptor stopped (work env) (mkServer (mkApi service []) []))).

(** ** Lemmas *)

Lemma boot_config rec (s s' : Service) r : boot rec s = (r, s') → config s' = config s.
Proof.
  unfold boot, in_storage, in_wal, in_quotas, bootstrap_from_storage. intros H.
  run_in H; try (by destruct s); by simplify_eq/=.
Qed.

Lemma open_node_config cfg d (s : Service) : open_node cfg d = Ok s → config s = cfg.
Proof.
  unfold open_node, open_with_clock. intros H. unfold_monad.
  destruct (mkdir d) as [[]| |]; [|discriminate..]. cbn [mbind result_bind] in H.
  destruct (match backend cfg with BackendMemory => _ | BackendFjall => _ end) as [st| |]; [|discriminate..].
  cbn [mbind result_bind] in H.
  destruct ((Wal.open (segment_file d)).1) as [[w rec]| |]; [|discriminate..].
  cbn [mbind result_bind] in H.
  destruct (boot rec _) as [[[]| |] s1] eqn:Eb; simplify_eq/=. by apply boot_config in Eb.
Qed.

(** What has been checked when the server is ready. *)
Lemma start_ok env service i :
  start env = Ok (service, i) →
  init_logging env = Ok tt ∧ load_config env = Ok (config service) ∧ validate (env_exists env) (config service) = Ok tt ∧
  open_node (config service) (env_disk env) = Ok service ∧
  build_auth_interceptor (env_read env) (auth (config service)) = Ok i ∧
  (∀ t, tls (config service) = Some t →
    ∃ identity, build_tls env t = Ok identity ∧ set_identity env identity = Ok tt).
Proof.
  unfold start. intros H.
  destruct (init_logging env) as [[]| |]; [|discriminate..]. cbn [mbind result_bind] in H.
  destruct (load_config env) as [cfg| |]; [|discriminate..]. cbn [mbind result_bind] in H.
  destruct (validate (env_exists env) cfg) as [[]| |] eqn:Ev; [|discriminate..].
  destruct (install_metrics_recorder env) as [[]| |]; [|discriminate..].
  destruct (open_node cfg (env_disk env)) as [s| |] eqn:Eo; [|discriminate..].
  pose proof (open_node_config _ _ _ Eo) as Hcfg. cbn [mbind result_bind map_err] in H.
  destruct (build_auth_interceptor (env_read env) (auth (config s))) as [j| |] eqn:Ei; [|discriminate..].
  cbn [mbind result_bind] in H.
  destruct (match tls (config s) with Some _ => _ | None => _ end) as [[]| |] eqn:Et; [|discriminate..].
  injection H as -> ->. rewrite <-Hcfg in *. split_and!; [done..|]. intros t Ht. rewrite Ht in Et.
  destruct (build_tls env t) as [identity| |]; [|discriminate..]. eauto.
Qed.

Lemma main_runs env service i limit :
  start env = Ok (service, i) → serve_limit (config service) = Ok limit →
  main env = Ok
    (let '(answer, stopped) := timeout limit (served env) in
     finish env (config service)
       (match answer with Some None => Stopped | Some (Some e) => ServerError e | None => ForcedExit end)
       stopped (serve_calls env (config service) i stopped (work env) (mkServer (mkApi service []) []))).
Proof.
  intros Hs Hl. unfold main. rewrite Hs. cbn [mbind result_bind]. rewrite Hl. cbn [mbind result_bind].
  by destruct (timeout limit (served env)).
Qed.

Lemma serve_limit_Ok cfg limit :
  serve_limit cfg = Ok limit ↔
  shutdown_timeout_secs cfg + 5 ≤ U64_MAX ∧ limit = (shutdown_timeout_secs cfg + 5) * 1000.
Proof.
  unfold serve_limit, checked_add64. destruct (Z.leb_spec (shutdown_timeout_secs cfg + 5) U64_MAX).
  - split; [by intros [= <-]|by intros [_ ->]].
  - split; [done|lia].
Qed.

(** The interceptor stops a call that bears no token. *)
Lemma perform_tokenless version v w s :
  tokenless v w = true → perform version (with_verifier v) w s = s.
Proof.
  destruct w as [[now g sys] r|w sys|metrics req]; [|done..]. intros Ht%negb_true_iff.
  by destruct r; apply intercepted_tokenless.
Qed.

Lemma serve_tokenless env cfg v until asked s :
  serve_calls env cfg (with_verifier v) until asked s =
  serve_calls env cfg (with_verifier v) until (filter (λ w, tokenless v w.2 = false) asked) s.
Proof.
  unfold serve_calls. revert s. induction asked as [|w asked IH]; intros s; [done|].
  destruct (tokenless v w.2) eqn:Ht.
  - rewrite (filter_cons_False (λ w, tokenless v w.2 = false)) by congruence. rewrite <-IH.
    destruct (handled env cfg until w) eqn:Hh.
    + rewrite filter_cons_True by done. simpl. by rewrite perform_tokenless.
    + by rewrite filter_cons_False by congruence.
  - rewrite (filter_cons_True (λ w, tokenless v w.2 = false)) by done.
    destruct (handled env cfg until w) eqn:Hh.
    + rewrite !filter_cons_True by done. simpl. apply IH.
    + rewrite !filter_cons_False by congruence. apply IH.
Qed.

(** A node that was just opened is watched by nobody. *)
Lemma boot_watch rec (s s' : Service) r : boot rec s = (r, s') → watch s' = watch s.
Proof.
  unfold boot, in_storage, in_wal, in_quotas, bootstrap_from_storage. intros H.
  run_in H; try (by destruct s); by simplify_eq/=.
Qed.

Lemma open_node_watch cfg d (s : Service) : open_node cfg d = Ok s → watch s = hub_new (watch_buffer cfg).
Proof.
  unfold open_node, open_with_clock. intros H. unfold_monad.
  destruct (mkdir d) as [[]| |]; [|discriminate..]. cbn [mbind result_bind] in H.
  destruct (match backend cfg with BackendMemory => _ | BackendFjall => _ end) as [st| |]; [|discriminate..].
  cbn [mbind result_bind] in H.
  destruct ((Wal.open (segment_file d)).1) as [[w rec]| |]; [|discriminate..].
  cbn [mbind result_bind] in H.
  destruct (boot rec _) as [[[]| |] s1] eqn:Eb; simplify_eq/=. by apply boot_watch in Eb.
Qed.

(** The same configuration with another shutdown timeout and another watch buffer. *)
Definition stretched (timeout buffer : Z) (c : NodeConfig) : NodeConfig := {|
  node_id := node_id c; listen := listen c; data_dir := data_dir c;
  coord_endpoints := coord_endpoints c; backend := backend c; limits := limits c; auth := auth c;
  tls := tls c; admin_listen := admin_listen c; ttl_sweep_interval_secs := ttl_sweep_interval_secs c;
  shutdown_timeout_secs := timeout; wal_rotate_bytes := wal_rotate_bytes c;
  quota_config := quota_config c; watch_buffer := buffer; watch_heartbeat_secs := watch_heartbeat_secs c;
|}.

Lemma validate_stretched exists_ c :
  validate exists_ c = Ok tt → validate exists_ (stretched U64_MAX U64_MAX c) = Ok tt.
Proof. unfold validate. rewrite !guard_Ok, !then_Ok, !guard_Ok. cbn. naive_solver. Qed.

Lemma watch_panics {BO : BroadcastOk} g n req (s : Service) a buffer :
  watch s = hub_new buffer → U64_MAX / 2 < buffer →
  1 ≤ len (watch_tenant (get_ref req)) ≤ 255 → may req (watch_tenant (get_ref req)) PERM_WATCH →
  admit_rpc g (watch_tenant (get_ref req)) 1 (mkApi s []) = (Ok tt, a) →
  len (watch_prefix (get_ref req)) ≤ max_key_size (limits (config s)) →
  (watch_impl g n req (mkApi s [])).1 = Panic.
Proof.
  intros Hw Hbuf Ht Hmay Hadm Hp. destruct (admit_Ok_frame _ _ _ _ _ Hadm) as [th ->].
  unfold watch_impl. rewrite (step_lift _ tt) by (by apply check_tenant_spec).
  rewrite (step_lift _ tt) by (by apply authorize_may). rewrite (M_bind_ok _ _ _ _ _ Hadm).
  rewrite (M_bind_ok _ _ _ tt (mkApi (set_throttle th s) [])) by (by apply enforce_key_size_spec).
  unfold mbind, M_bind. cbn [inner watch set_throttle]. rewrite Hw.
  assert (0 ≤ buffer) as H0 by (change (U64_MAX / 2) with 9223372036854775807 in Hbuf; lia).
  assert (¬ channel_capacity buffer) as Hcap by (intros [_ ?]; lia).
  pose proof (subscribe_panics (watch_tenant (get_ref req)) (hub_new buffer) H0 Hcap eq_refl) as Hsub.
  destruct (subscribe (watch_tenant (get_ref req)) (hub_new buffer)) as [[rx|[]|] h]; done.
Qed.

(** Syncing a log that works changes nothing: every append has reached the file. *)
Lemma sync_runs w l : wal_rep w l → faults (wal_file w) = [] → sync w = (Ok tt, w).
Proof.
  intros Hw Hf. unfold sync, buf_flush, on_file. unfold_monad. rewrite (rep_buf _ _ Hw).
  rewrite bool_decide_true by done. unfold syscall. rewrite Hf. by destruct w.
Qed.

(** ** Properties *)

(** The listening socket is closed by a signal only. *)
Definition closes_on_signal (env : Environment) : Prop :=
  ∀ t, served env = Some (t, None) →
    ∃ s, shutdown_signal (sigint env) (sigterm env) = Some s ∧ s ≤ t.

(** C30: a process that serves has checked what it serves with, and a call without a
    token leaves no trace.  The log filter being accepted and the configuration loaded:
    an invalid configuration ends [main] with the error of validation, whatever the disk
    holds; and if [main] serves, validation passed, the node was opened with that
    configuration, the TLS identity, if one is configured, was read and accepted, and all
    calls went through the interceptor built from the [auth] section.  Unless that says
    [insecure], the interceptor verifies RS256 tokens with the key in the configured file,
    and what the server and its node are in the end, rate limiters and audit trail
    included, is exactly what they would be had no call been made whose bearer token this
    key does not verify. *)
Theorem main_serves_behind_its_checks env cfg
    (Hlog : init_logging env = Ok tt) (Hload : load_config env = Ok cfg) :
  (∀ e, validate (env_exists env) cfg = Err e → main env = Err e) ∧
  (∀ r, main env = Ok r →
    validate (env_exists env) cfg = Ok tt ∧
    ∃ service i,
      open_node cfg (env_disk env) = Ok service ∧
      build_auth_interceptor (env_read env) (auth cfg) = Ok i ∧
      (∀ t, tls cfg = Some t →
        ∃ identity, build_tls env t = Ok identity ∧ set_identity env identity = Ok tt) ∧
      (let server := mkServer (mkApi service []) [] in
       run_server r = serve_calls env cfg i (run_stopped r) (work env) server ∧
       (Config.insecure (auth cfg) = false →
        ∃ v, i = with_verifier v ∧ configured_verifier (env_read env) (auth cfg) v ∧
          run_server r =
            serve_calls env cfg i (run_stopped r) (filter (λ w, tokenless v w.2 = false) (work env))
              server))).
Proof.
  split.
  - intros e He. unfold main, start. by rewrite Hlog, Hload; cbn [mbind result_bind]; rewrite He.
  - intros r Hrun. unfold main in Hrun. destruct (start env) as [[service i]| |] eqn:Es; [|discriminate..].
    destruct (start_ok _ _ _ Es) as (_ & Hl & Hv & Ho & Hi & Ht). rewrite Hload in Hl. injection Hl as ->.
    split; [done|]. exists service, i. split_and!; [done..|]. cbn [mbind result_bind] in Hrun.
    destruct (serve_limit (config service)) as [limit| |]; [|discriminate..].
    cbn [mbind result_bind] in Hrun. destruct (timeout limit (served env)) as [answer stopped].
    injection Hrun as <-. split; [done|]. intros Hsec.
    destruct (build_secure _ _ _ Hsec Hi) as (v & -> & Hkey). exists v. split_and!; [done..|].
    apply serve_tokenless.
Qed.


(** a signal in time is a clean shutdown.  When a signal arrives and the open
    connections are drained within [shutdown_timeout_secs] and five seconds of the
    start, the server has served every call until then; the process waits for its
    tasks, which go on with their work until they end; and if the node is in order, the last sync answers success and leaves a
    log whose file is exactly the segment of the node's writes. *)
Theorem signal_shuts_down_cleanly {KO : TokioOk} env service i limit t u l
    (Hs : start env = Ok (service, i)) (Hl : serve_limit (config service) = Ok limit)
    (Hserved : served env = Some (t, None)) (Ht : t < limit)
    (Hjoin : join_tasks env (config service) t = Some u)
    (Hnode : env_ok (inner (api (serve_calls env (config service) i t (work env) (mkServer (mkApi service []) [])))) l) :
  ∃ r w, main env = Ok r ∧ run_outcome r = Stopped ∧ run_stopped r = t ∧
    run_server r = serve_calls env (config service) i t (work env) (mkServer (mkApi service []) []) ∧
    run_exit r = Some (u, Ok tt, w) ∧ t ≤ u ∧ contents (wal_file w) = segment l.
Proof.
  set (server := serve_calls env (config service) i t (work env) (mkServer (mkApi service []) [])) in *.
  pose proof (sync_runs _ l (env_wal _ _ Hnode) (env_faults _ _ Hnode)) as Esync.
  eexists _, (wal (inner (api server))). rewrite (main_runs env service i limit Hs Hl), Hserved.
  rewrite timeout_ready by done. split; [done|]. unfold finish. cbn [run_outcome run_stopped run_server run_exit].
  fold server. rewrite Hjoin, Esync. split_and!; [done..| |].
  - unfold join_tasks, await in Hjoin. destruct (admin_listen (config service)).
    + destruct (admin_served env) as [a|]; [|done]. simpl in Hjoin.
      destruct (sweeper_ends _ _); simplify_eq/=. lia.
    + simpl in Hjoin. destruct (sweeper_ends _ _); simplify_eq/=. lia.
  - apply (rep_file _ _ (env_wal _ _ Hnode)).
Qed.

(** C31: a node that nobody stops stops serving by itself.  The limit of
    [shutdown_timeout_secs] and five seconds, meant for draining after a signal,
    runs from the moment the server starts.  If no signal arrives before it is over,
    the server is dropped at that moment, no later call is served, the outcome is
    the forced exit; and, the sweeper being enabled, the process does not exit: it
    waits, without a server, for the signal. *)
Theorem serving_ends_without_a_signal {KO : TokioOk} env service i limit
    (Hs : start env = Ok (service, i)) (Hl : serve_limit (config service) = Ok limit)
    (Hclose : closes_on_signal env) (Herr : ∀ t e, served env ≠ Some (t, Some e))
    (Hsig : ∀ s, shutdown_signal (sigint env) (sigterm env) = Some s → limit < s)
    (Hsweep : ttl_sweep_interval_secs (config service) ≠ 0) :
  ∃ r, main env = Ok r ∧ run_outcome r = ForcedExit ∧
    run_stopped r = (shutdown_timeout_secs (config service) + 5) * 1000 ∧
    run_server r = serve_calls env (config service) i limit (work env) (mkServer (mkApi service []) []) ∧
    match shutdown_signal (sigint env) (sigterm env) with
    | None => run_exit r = None
    | Some s => ∀ u a w, run_exit r = Some (u, a, w) → s ≤ u
    end.
Proof.
  apply serve_limit_Ok in Hl as Hlimit. destruct Hlimit as [_ Hlimit].
  eexists. rewrite (main_runs env service i limit Hs Hl).
  rewrite timeout_elapsed.
  - split; [done|]. unfold finish. cbn [run_outcome run_stopped run_server run_exit].
    split_and!; [done|done|done|]. unfold join_tasks, sweeper_ends, await.
    rewrite (proj2 (Z.eqb_neq _ _) Hsweep).
    destruct (shutdown_signal (sigint env) (sigterm env)) as [sg|].
    + intros u a w Hexit.
      destruct (admin_listen (config service)); [destruct (admin_served env) as [ad|]; [|done]|];
        simpl in Hexit; destruct (sync _); simplify_eq/=; lia.
    + destruct (admin_listen (config service)); [|done]. by destruct (admin_served env).
  - intros t [e|] Hf; [by apply Herr in Hf|].
    destruct (Hclose _ Hf) as (sg & Hsg & Hle). specialize (Hsig sg Hsg). lia.
Qed.

End process.

(** ** Witnesses *)

Definition sample_tokio : Tokio := λ A limit f,
  match f with
  | Some (t, a) => if t <? limit then (Some a, t) else (None, limit)
  | None => (None, limit)
  end.
#[export] Existing Instance sample_tokio.

#[export] Instance sample_tokio_ok : TokioOk.
Proof.
  split.
  - intros A limit t a Ht. unfold timeout, sample_tokio. by rewrite (proj2 (Z.ltb_lt _ _) Ht).
  - intros A limit [[t a]|] Hf; [|done]. unfold timeout, sample_tokio.
    specialize (Hf t a eq_refl). by rewrite (proj2 (Z.ltb_ge _ _)) by lia.
Qed.

#[local] Existing Instance sample_axum.
#[local] Existing Instance sample_body.

(** A client that reads a key at [t]. *)
Definition sample_call (t : Z) : Z * Work :=
  (t, ClientCall (mkClocks 0 0 t) (RpcGet (mkRequest None None {| get_tenant := lit "acme"; get_key := lit "k" |}))).

(** A node without a configuration file, stopped by SIGTERM at [sig], if at all. *)
Definition sample_env (sig : option Z) : Environment (F:=sample_fjall) := {|
  args := mkArgs (mkPath false ["config"; "node.toml"]) (mkLogArgs "info" false);
  log_filter := λ f, if bool_decide (f = ""%string) then Err "empty"%string else Ok tt;
  config_file := λ _, None;
  env_exists := λ _, true;
  env_read := λ _, Err "no such file"%string;
  recorder := Ok tt;
  env_disk := sample_disk;
  set_identity := λ _, Ok tt;
  sigint := Ok None;
  sigterm := Ok sig;
  served := (λ t, (t + 50, None)) <$> sig;
  admin_served := sig;
  package_version := "1";
  work := [sample_call 1000; (1500, SweeperWakes Slept 1500); sample_call 20000];
|}.

Definition process_node : SampleService :=
  mkService fallback_config (Memory mem_new)
    (mkWal (mkFile (segment empty_log) []) [] 0 14)
    System TtlIndex.new (hub_new 1024) (store_new (mkQuota 0 0)) (throttle_new 0).

Lemma sample_starts sig : start (sample_env sig) = Ok (process_node, insecure_interceptor).
Proof. reflexivity. Qed.

Lemma process_env_ok : env_ok process_node empty_log.
Proof. split; [|reflexivity|exact I|exact I|constructor]. split; [apply wf_empty_log|reflexivity..]. Qed.

Lemma signal_shuts_down_cleanly_witness :
  ∃ r w, main (sample_env (Some 5000)) = Ok r ∧ run_outcome r = Stopped ∧ run_stopped r = 5050 ∧
    run_exit r = Some (5050, Ok tt, w).
Proof.
  destruct (signal_shuts_down_cleanly (sample_env (Some 5000)) process_node insecure_interceptor 15000
    5050 5050 empty_log) as (r & w & H1 & H2 & H3 & _ & H5 & _); try reflexivity.
  - exact process_env_ok.
  - exists r, w. split; [exact H1|]. split; [exact H2|]. split; [exact H3|exact H5].
Defined.

(** Nobody stops the node: fifteen seconds in, it serves no more. *)
Lemma serving_ends_without_a_signal_witness :
  ∃ r, main (sample_env None) = Ok r ∧ run_outcome r = ForcedExit ∧ run_stopped r = 15000 ∧
    run_exit r = None.
Proof.
  destruct (serving_ends_without_a_signal (sample_env None) process_node insecure_interceptor 15000)
    as (r & H1 & H2 & H3 & _ & H5); try reflexivity; try discriminate.
  - exists r. split; [exact H1|]. split; [exact H2|]. split; [exact H3|exact H5].
Defined.

(** The process with the configuration of a file, on a disk whose key files hold [PEM]. *)
Definition configured_env (cfg : NodeConfig) (asked : list (Z * Work)) :
    Environment (F:=sample_fjall) := {|
  args := mkArgs (mkPath false ["config"; "node.toml"]) (mkLogArgs "info" false);
  log_filter := λ _, Ok tt;
  config_file := λ _, Some (Ok (Ok cfg));
  env_exists := λ _, true;
  env_read := sample_read;
  recorder := Ok tt;
  env_disk := sample_disk;
  set_identity := λ _, Ok tt;
  sigint := Ok None;
  sigterm := Ok None;
  served := None;
  admin_served := None;
  package_version := "1";
  work := asked;
|}.

Definition secure_config : NodeConfig := {|
  node_id := lit "node-0"; listen := "127.0.0.1:7100"; data_dir := mkPath false ["."; "data"; "node"];
  coord_endpoints := []; backend := BackendMemory; limits := default_Limits; auth := sample_auth;
  tls := None; admin_listen := None; ttl_sweep_interval_secs := 60; shutdown_timeout_secs := 10;
  wal_rotate_bytes := 64 * 1024 * 1024; quota_config := default_QuotaConfig;
  watch_buffer := 1024; watch_heartbeat_secs := 30;
|}.

(** A put with alice's token and one with a token the key does not verify. *)
Definition put_bearing (token : bytes) : Work :=
  ClientCall (mkClocks 0 0 0) (RpcPut (mkRequest (Some (lit "Bearer " ++ token)) None put_k)).

Definition two_puts : list (Z * Work) := [(10, put_bearing (lit "x")); (20, put_bearing (lit "t"))].

Definition secure_node : SampleService :=
  mkService secure_config (Memory mem_new) (mkWal (mkFile (segment empty_log) []) [] 0 14)
    System TtlIndex.new (hub_new 1024) (store_new (mkQuota 0 0)) (throttle_new 0).

Lemma secure_starts asked :
  start (configured_env secure_config asked) = Ok (secure_node, with_verifier sample_verifier).
Proof. reflexivity. Qed.

Lemma main_serves_behind_its_checks_witness :
  ∃ r service i, main (configured_env secure_config two_puts) = Ok r ∧
    length (audit_log (api (run_server r))) = 1%nat ∧
    run_server r = serve_calls (configured_env secure_config two_puts) secure_config i (run_stopped r)
      [(20, put_bearing (lit "t"))] (mkServer (mkApi service []) []).
Proof.
  set (env := configured_env secure_config two_puts).
  destruct (main_serves_behind_its_checks env secure_config eq_refl eq_refl) as [_ Hok].
  pose proof (main_runs env _ _ 15000 (secure_starts two_puts) eq_refl) as Hrun.
  destruct (Hok _ Hrun) as (_ & service & i & _ & _ & _ & _ & Htok).
  destruct (Htok eq_refl) as (v & _ & (path & pem & Hpath & Hread & Hv) & Hserved).
  injection Hpath as <-. injection Hread as <-. injection Hv as <-.
  eexists _, service, i. split; [exact Hrun|]. split; [vm_compute; reflexivity|exact Hserved].
Defined.

