(* ===== verification/Hashing.v ===== *)
(** * Rendezvous hashing ([ferriskv-core/src/hashing.rs])

    Which nodes own a key: every node is scored by the hash of the key and its
    name, and the [n] best are taken.  [blake3] is a parameter.
    [sort_unstable_by_key] leaves the order of equal elements open, so the sort is
    a parameter too, with exactly that contract. *)

From Stdlib Require Import Strings.Byte.
From S2P Require Import Prelude Bytes Auth.

(** [slice::sort_unstable_by_key], given the comparison of the keys. *)
Class SortUnstable := sort_unstable : (Z * bytes → Z * bytes → bool) → list (Z * bytes) → list (Z * bytes).

(** Its documentation: a permutation of the slice, in order. *)
Class SortUnstableOk `{SortUnstable} : Prop := {
  sort_unstable_perm leb l : sort_unstable leb l ≡ₚ l;
  sort_unstable_sorted leb l :
    (∀ x y, leb x y = true ∨ leb y x = true) →
    (∀ x y z, leb x y = true → leb y z = true → leb x z = true) →
    StronglySorted (λ x y, leb x y = true) (sort_unstable leb l);
}.

(** [Reverse(score)] compares the other way round. *)
Definition reverse_leb (a b : Z * bytes) : bool := b.1 <=? a.1.

Section hashing.
Context `{H3 : Blake3} `{SU : SortUnstable}.

Definition blake3_hash (data : bytes) : bytes := blake3 data.

Definition hrw_score (key node : bytes) : Z := from_le_bytes (take 8 (blake3 (key ++ node))).

Definition hrw_select (key : bytes) (nodes : list bytes) (n : Z) : list bytes :=
  if (len nodes =? 0) || (n =? 0) then [] else
  let scored := (λ node, (hrw_score key node, node)) <$> nodes in
  (take (Z.to_nat n) (sort_unstable reverse_leb scored)).*2.

(** ** Lemmas *)

(** The nodes, best first. *)
Definition ranking (key : bytes) (nodes : list bytes) : list bytes :=
  (sort_unstable reverse_leb ((λ node, (hrw_score key node, node)) <$> nodes)).*2.

Definition no_worse (key : bytes) (a b : bytes) : Prop := hrw_score key b ≤ hrw_score key a.

Context `{SO : !SortUnstableOk}.

Lemma ranking_perm key nodes : ranking key nodes ≡ₚ nodes.
Proof.
  unfold ranking. rewrite sort_unstable_perm, <-list_fmap_compose.
  by rewrite (list_fmap_ext _ id), list_fmap_id.
Qed.

Lemma ranking_sorted key nodes : StronglySorted (no_worse key) (ranking key nodes).
Proof.
  unfold ranking. set (scored := _ <$> nodes).
  assert (StronglySorted (λ x y, reverse_leb x y = true) (sort_unstable reverse_leb scored)) as Hs.
  { apply sort_unstable_sorted; unfold reverse_leb; intros; rewrite !Z.leb_le in *; lia. }
  assert (Forall (λ p, p.1 = hrw_score key p.2) (sort_unstable reverse_leb scored)) as Hf.
  { rewrite sort_unstable_perm. apply Forall_fmap, Forall_forall. done. }
  revert Hf. induction Hs as [|x l Hs IH Hx]; csimpl; [constructor|].
  intros [Hx1 Hf]%Forall_cons. constructor; [by apply IH|]. apply Forall_fmap.
  rewrite Forall_forall in Hx, Hf. apply Forall_forall. intros y Hy.
  specialize (Hx y Hy). specialize (Hf y Hy). unfold reverse_leb in Hx. rewrite Z.leb_le in Hx.
  simpl. unfold no_worse. lia.
Qed.

Lemma hrw_select_ranking key nodes n :
  0 ≤ n → hrw_select key nodes n = take (Z.to_nat n) (ranking key nodes).
Proof.
  intros Hn. unfold hrw_select, ranking. destruct (Z.eqb_spec (len nodes) 0) as [Hl|_].
  { apply len_zero_inv in Hl as ->. simpl.
    pose proof (proj1 (Permutation_nil_r _) (sort_unstable_perm reverse_leb [])) as Hp.
    unfold fmap in Hp |- *. simpl. rewrite Hp. by destruct (Z.to_nat n). }
  destruct (Z.eqb_spec n 0) as [-> |_]; [done|]. simpl. by rewrite fmap_take.
Qed.

(** With distinct scores there is one ranking. *)
Lemma ranking_unique key l1 l2 :
  (∀ a b, a ∈ l1 → b ∈ l1 → hrw_score key a = hrw_score key b → a = b) →
  StronglySorted (no_worse key) l1 → StronglySorted (no_worse key) l2 → l1 ≡ₚ l2 → l1 = l2.
Proof.
  intros Hinj H1 H2 Hp. eapply StronglySorted_unique_strong; [|exact H1|exact H2|exact Hp].
  intros a b Ha Hb. rewrite <-Hp in Hb. unfold no_worse. intros ??. apply Hinj; [done..|lia].
Qed.

(** ** Properties *)

(** the owners of a key are the best-scoring nodes.  Asking for [n] owners of a
    cluster of distinct nodes returns [n] distinct nodes of it (all of them, if it
    is smaller), best first, and every node left out scores no better than every
    node chosen. *)
Theorem hrw_selects_best key nodes n (Hn : 0 ≤ n) (Hnd : NoDup nodes) :
  let chosen := hrw_select key nodes n in
  len chosen = Z.min n (len nodes) ∧ NoDup chosen ∧ chosen ⊆ nodes ∧
  StronglySorted (no_worse key) chosen ∧
  ∀ a b, a ∈ chosen → b ∈ nodes → b ∉ chosen → no_worse key a b.
Proof.
  cbv zeta. rewrite hrw_select_ranking by done.
  pose proof (ranking_perm key nodes) as Hp. pose proof (ranking_sorted key nodes) as Hs.
  set (r := ranking key nodes) in *. set (k := Z.to_nat n).
  assert (NoDup r) as Hr by (by rewrite Hp).
  pose proof (take_drop k r) as Htd. rewrite <-Htd in Hs, Hr.
  apply StronglySorted_app in Hs as (Hs1 & Hs2 & _). apply NoDup_app in Hr as (Hr1 & _ & _).
  split_and!; [|done| |done|].
  - assert (length r = length nodes) as Hl by (by rewrite Hp).
    unfold len. rewrite length_take. unfold k. lia.
  - intros x Hx. rewrite <-Hp, <-Htd. apply elem_of_app. by left.
  - intros a b Ha Hb Hnb. rewrite <-Hp, <-Htd in Hb. apply elem_of_app in Hb as [Hb|Hb]; [done|].
    by apply Hs1.
Qed.

(** removing a node disturbs only its own keys.  With distinct scores, the owners
    of a key after a node has left are the old ranking without it: a key the node
    did not own keeps its owners, and one it owned keeps the remaining owners, in
    order, and gains the next best node. *)
Theorem hrw_minimal_disruption key nodes n x (Hn : 0 ≤ n) (Hnd : NoDup nodes)
    (Hinj : ∀ a b, a ∈ nodes → b ∈ nodes → hrw_score key a = hrw_score key b → a = b) :
  let before := hrw_select key nodes n in
  let after := hrw_select key (filter (.≠ x) nodes) n in
  (x ∉ before → after = before) ∧ filter (.≠ x) before `prefix_of` after.
Proof.
  cbv zeta. rewrite !hrw_select_ranking by done.
  assert (ranking key (filter (.≠ x) nodes) = filter (.≠ x) (ranking key nodes)) as ->.
  { apply (ranking_unique key).
    - intros a b. rewrite ranking_perm, !list_elem_of_filter. intros [_ ?] [_ ?]. by apply Hinj.
    - apply ranking_sorted.
    - apply filter_sorted, ranking_sorted.
    - by rewrite !ranking_perm. }
  set (r := ranking key nodes). set (k := Z.to_nat n). split.
  - intros Hx. rewrite <-(take_drop k r) at 1. rewrite filter_app.
    rewrite (filter_all _ (take k r)).
    + destruct (Nat.le_gt_cases (length r) k) as [Hk|Hk].
      * rewrite drop_ge by done. rewrite filter_nil, app_nil_r. by rewrite take_take, Nat.min_id.
      * rewrite take_app_le by (rewrite length_take; lia). by rewrite take_take, Nat.min_id.
    + apply Forall_forall. intros y Hy ->. done.
  - rewrite <-(take_drop k r) at 2. rewrite filter_app.
    assert (length (filter (.≠ x) (take k r)) ≤ k)%nat as Hl.
    { etrans; [apply length_filter|]. rewrite length_take. lia. }
    rewrite take_app. rewrite (take_ge (filter _ _)) by done. by eexists.
Qed.
End hashing.

(** ** Witnesses *)

Definition holds (leb : Z * bytes → Z * bytes → bool) (x y : Z * bytes) : Prop := leb x y = true.

Global Instance holds_dec leb x y : Decision (holds leb x y).
Proof. unfold holds. apply _. Defined.

Definition sample_sort : SortUnstable := λ leb l, merge_sort (holds leb) l.

Lemma sample_sort_ok : SortUnstableOk (H:=sample_sort).
Proof.
  split.
  - intros leb l. apply merge_sort_Permutation.
  - intros leb l Htot Htrans.
    assert (Transitive (holds leb)) by (intros x y z; apply Htrans).
    assert (base.Total (holds leb)) by (intros x y; apply Htot).
    by apply (StronglySorted_merge_sort (holds leb)).
Qed.

(** A hash that keeps the order of the last byte. *)
Definition sample_hash : Blake3 := λ d, rev d ++ replicate 32 x00.

Definition cluster : list bytes := [lit "a"; lit "c"; lit "b"].

Lemma cluster_NoDup : NoDup cluster.
Proof. apply (bool_decide_unpack (NoDup cluster)). vm_compute. exact I. Qed.

Lemma hrw_selects_best_witness :
  len (hrw_select (H3:=sample_hash) (SU:=sample_sort) (lit "k") cluster 2) = 2.
Proof.
  apply (hrw_selects_best (H3:=sample_hash) (SO:=sample_sort_ok) (lit "k") cluster 2).
  - lia.
  - apply cluster_NoDup.
Defined.

Lemma hrw_minimal_disruption_witness :
  hrw_select (H3:=sample_hash) (SU:=sample_sort) (lit "k") cluster 2 = [lit "c"; lit "b"] ∧
  hrw_select (H3:=sample_hash) (SU:=sample_sort) (lit "k") (filter (.≠ lit "a") cluster) 2
  = [lit "c"; lit "b"].
Proof.
  split; [vm_compute; reflexivity|].
  transitivity (hrw_select (H3:=sample_hash) (SU:=sample_sort) (lit "k") cluster 2);
    [|vm_compute; reflexivity].
  apply (hrw_minimal_disruption (H3:=sample_hash) (SO:=sample_sort_ok) (lit "k") cluster 2 (lit "a")).
  - lia.
  - apply cluster_NoDup.
  - intros a b Ha Hb. apply list_elem_of_In in Ha, Hb.
    destruct Ha as [<-|[<-|[<-|[]]]], Hb as [<-|[<-|[<-|[]]]]; vm_compute; congruence.
  - intros H. apply list_elem_of_In in H. vm_compute in H. destruct H as [H|[H|[]]]; discriminate.
Defined.
