(* ===== verification/Coord.v ===== *)
(** * The coordinator ([ferriskv-coord])

    The range map that assigns key ranges to shards ([placement.rs]), the
    coordinator's term and leader hint ([state.rs]) and its configuration
    ([config.rs], the fallback of [main.rs]).  The process itself only waits for a
    signal. *)

From Stdlib Require Import Strings.Byte.
From S2P Require Import Prelude Bytes.

(** ** [slice::partition_point]

    The standard library's binary search: the window is [base..base+size]. *)

Section partition.
Context {A : Type} (pred : A → bool).

Definition pred_at (l : list A) (i : nat) : bool :=
  match l !! i with
  | Some x => pred x
  | None => false
  end.

(** [fuel] bounds the turns: every turn with [size > 1] makes the window smaller. *)
Fixpoint search_loop (fuel : nat) (l : list A) (base size : nat) : nat :=
  match fuel with
  | O => base
  | S fuel =>
      if (size <=? 1)%nat then base else
      let half := (size / 2)%nat in
      let mid := (base + half)%nat in
      search_loop fuel l (if pred_at l mid then mid else base) (size - half)
  end.

Definition partition_point (l : list A) : nat :=
  let size := length l in
  if (size =? 0)%nat then 0%nat else
  let base := search_loop size l 0 size in
  if pred_at l base then S base else base.

Lemma pred_at_split a b i :
  Forall (λ x, pred x = true) a → Forall (λ x, pred x = false) b → (i < length (a ++ b))%nat →
  pred_at (a ++ b) i = bool_decide (i < length a)%nat.
Proof.
  intros Ha Hb Hi. unfold pred_at. case_bool_decide as Hlt.
  - rewrite lookup_app_l by done. destruct (a !! i) as [x|] eqn:E.
    + by eapply Forall_lookup_1 in Ha.
    + apply lookup_ge_None in E. lia.
  - rewrite lookup_app_r by lia. destruct (b !! _) as [x|] eqn:E; [|done].
    by eapply Forall_lookup_1 in Hb.
Qed.

Lemma search_loop_spec fuel a b base size :
  Forall (λ x, pred x = true) a → Forall (λ x, pred x = false) b →
  (size ≤ fuel)%nat → (1 ≤ size)%nat → (base + size ≤ length (a ++ b))%nat →
  (base < length a ∨ base = 0)%nat → (length a ≤ base + size)%nat →
  let r := search_loop fuel (a ++ b) base size in
  (r < length (a ++ b) ∧ (r < length a ∨ r = 0) ∧ length a ≤ r + 1)%nat.
Proof.
  intros Ha Hb. revert base size. induction fuel as [|fuel IH]; intros base size Hf Hs Hr Hlo Hhi.
  { lia. }
  cbn [search_loop]. destruct (Nat.leb_spec size 1) as [H1|H1]; [cbv zeta; lia|]. cbv zeta.
  pose proof (Nat.Div0.mul_div_le size 2) as Hhalf2.
  assert (1 ≤ size / 2 < size)%nat as Hhalf.
  { split; [apply (Nat.div_le_lower_bound size 2 1); lia|apply Nat.div_lt; lia]. }
  rewrite pred_at_split by (done || lia).
  case_bool_decide as Hp; apply IH; lia.
Qed.

(** On a slice that is partitioned, it is the length of the first part. *)
Lemma partition_point_split a b :
  Forall (λ x, pred x = true) a → Forall (λ x, pred x = false) b →
  partition_point (a ++ b) = length a.
Proof.
  intros Ha Hb. unfold partition_point.
  destruct (Nat.eqb_spec (length (a ++ b)) 0) as [H0|H0].
  { rewrite length_app in H0. lia. }
  destruct (search_loop_spec (length (a ++ b)) a b 0 (length (a ++ b)) Ha Hb) as (Hr & Hlo & Hhi);
    [lia|lia|lia|by right|rewrite length_app; lia|].
  cbv zeta. rewrite pred_at_split by done. case_bool_decide; lia.
Qed.

End partition.

(** ** [placement.rs] *)

Record RangeEntry := mkRange {
  shard_id : Z;
  start : bytes;
  end_ : option bytes;
  primary : bytes;
  replicas : list bytes;
}.

Definition contains (e : RangeEntry) (key : bytes) : bool :=
  if bytes_ltb key (start e) then false else
  match end_ e with
  | Some end_ => bytes_ltb key end_
  | None => true
  end.

(** [RangeMap]: the vector behind the lock. *)
Abbreviation RangeMap := (list RangeEntry).

Definition range_map_new : RangeMap := [].

(** [a <= b] on byte strings. *)
Definition bytes_leb (a b : bytes) : bool := negb (bytes_ltb b a).

Definition insert (entry : RangeEntry) (g : RangeMap) : RangeMap :=
  let pos := partition_point (λ e, bytes_leb (start e) (start entry)) g in
  take pos g ++ entry :: drop pos g.

(** [g[idx - 1]] panics out of range. *)
Definition lookup (key : bytes) (g : RangeMap) : result Empty_set (option RangeEntry) :=
  let idx := partition_point (λ e, bytes_leb (start e) key) g in
  if (idx =? 0)%nat then Ok None else
  match g !! (idx - 1)%nat with
  | Some candidate => if contains candidate key then Ok (Some candidate) else Ok None
  | None => Panic
  end.

Definition all (g : RangeMap) : list RangeEntry := g.
Definition range_len (g : RangeMap) : Z := len g.
Definition range_is_empty (g : RangeMap) : bool := bool_decide (g = []).

(** ** [config.rs], [main.rs] *)

Record CoordConfig := mkCoordConfig {
  node_id : bytes;
  listen : bytes;
  peers : list bytes;
  data_dir : bytes;
  target_range_size_bytes : Z;
  replication_factor : Z;
}.

Definition default_range_size : Z := 128 * 1024 * 1024.
Definition default_rf : Z := 3.

(** What [main] runs with when there is no configuration file. *)
Definition coord_fallback : CoordConfig :=
  mkCoordConfig (lit "coord-0") (lit "127.0.0.1:7000") [] (lit "./data/coord")
    (128 * 1024 * 1024) 3.

(** ** [state.rs] *)

Record CoordState := mkCoord {
  coord_config : CoordConfig;
  ranges : RangeMap;
  leader_hint : option bytes;
  term : Z;
}.

Definition coord_new (config : CoordConfig) : CoordState :=
  mkCoord config range_map_new None 0.

Definition bump_term (t : Z) (s : CoordState) : CoordState :=
  if term s <? t then mkCoord (coord_config s) (ranges s) (leader_hint s) t else s.

Definition set_leader_hint (leader : bytes) (s : CoordState) : CoordState :=
  mkCoord (coord_config s) (ranges s) (Some leader) (term s).

(** ** Starting *)

(** What a configuration file says; the last two fields have defaults. *)
Record RawCoord := mkRawCoord {
  raw_node_id : option bytes;
  raw_listen : option bytes;
  raw_peers : option (list bytes);
  raw_data_dir : option bytes;
  raw_range_size : option Z;
  raw_rf : option Z;
}.

Definition deserialize_coord (r : RawCoord) : result string CoordConfig :=
  let required {A} name (o : option A) := ok_or ("missing field " +:+ name) o in
  id_ ← required "node_id" (raw_node_id r);
  addr ← required "listen" (raw_listen r);
  ps ← required "peers" (raw_peers r);
  dir ← required "data_dir" (raw_data_dir r);
  mret (mkCoordConfig id_ addr ps dir (default default_range_size (raw_range_size r))
          (default default_rf (raw_rf r))).

(** [main] up to its wait for a signal: [file] is [None] when the path does not exist,
    and otherwise what reading it gave. *)
Definition coord_main (file : option (result string RawCoord)) : result string CoordState :=
  cfg ← match file with
        | Some raw => r ← raw; deserialize_coord r
        | None => mret coord_fallback
        end;
  mret (coord_new cfg).

(** The defaults of a file are those of no file. *)
Lemma coord_defaults id_ addr ps dir st :
  coord_main (Some (Ok (mkRawCoord (Some id_) (Some addr) (Some ps) (Some dir) None None))) = Ok st →
  target_range_size_bytes (coord_config st) = target_range_size_bytes coord_fallback ∧
  replication_factor (coord_config st) = replication_factor coord_fallback ∧
  ranges st = range_map_new ∧ term st = 0.
Proof. by intros [= <-]. Qed.

(** ** Lemmas *)

Definition starts_le (a b : RangeEntry) : Prop := (start a ≤ start b)%bytes.

Lemma bytes_leb_spec a b : bytes_leb a b = true ↔ (a ≤ b)%bytes.
Proof. unfold bytes_leb, bytes_le. by rewrite negb_true_iff. Qed.

(** Where a sorted map splits for a key. *)
Lemma sorted_split g key :
  StronglySorted starts_le g →
  ∃ a b, g = a ++ b ∧ Forall (λ e, bytes_leb (start e) key = true) a ∧
    Forall (λ e, bytes_leb (start e) key = false) b.
Proof.
  induction 1 as [|e g Hs (a & b & -> & Ha & Hb) He]; [by exists [], []|].
  destruct (bytes_leb (start e) key) eqn:E.
  - exists (e :: a), b. by split_and!; [|constructor|].
  - exists [], (e :: a ++ b). split_and!; [done|constructor|]. constructor; [done|].
    rewrite Forall_forall in He. apply Forall_forall. intros f Hf. apply not_true_iff_false.
    rewrite bytes_leb_spec. intros Hle. apply not_true_iff_false in E. apply E, bytes_leb_spec.
    etrans; [|exact Hle]. by apply He.
Qed.

Lemma insert_spec e g :
  StronglySorted starts_le g →
  StronglySorted starts_le (insert e g) ∧ insert e g ≡ₚ e :: g.
Proof.
  intros Hs. destruct (sorted_split g (start e) Hs) as (a & b & -> & Ha & Hb).
  unfold insert. rewrite partition_point_split by done.
  rewrite take_app_length, drop_app_length. split; [|symmetry; apply Permutation_middle].
  rewrite Forall_forall in Ha, Hb. apply StronglySorted_app in Hs as (Hab & Hsa & Hsb).
  assert (∀ f, f ∈ a → starts_le f e) as Hae by (intros f Hf; by apply bytes_leb_spec, Ha).
  assert (∀ f, f ∈ b → starts_le e f) as Heb.
  { intros f Hf. specialize (Hb f Hf). apply not_true_iff_false in Hb. rewrite bytes_leb_spec in Hb.
    apply bytes_le_lteq. left. by apply bytes_lt_nle. }
  apply StronglySorted_app. split_and!; [|done|constructor; [done|by apply Forall_forall]].
  intros f1 f2 H1 [-> |H2]%elem_of_cons; [by apply Hae|by apply Hab].
Qed.

Lemma insert_all_spec es g :
  StronglySorted starts_le g →
  let m := fold_left (λ g e, insert e g) es g in
  StronglySorted starts_le m ∧ m ≡ₚ rev es ++ g.
Proof.
  revert g. induction es as [|e es IH]; intros g Hs; [done|]. cbn [fold_left rev].
  destruct (insert_spec e g Hs) as [Hs1 Hp1]. destruct (IH _ Hs1) as [Hs2 Hp2].
  cbv zeta. split; [done|]. by rewrite Hp2, Hp1, <-app_assoc.
Qed.

(** Lookup finds the last range that starts at or before the key, and checks it. *)
Lemma lookup_spec key a b :
  Forall (λ e, bytes_leb (start e) key = true) a → Forall (λ e, bytes_leb (start e) key = false) b →
  lookup key (a ++ b) = Ok (match last a with
                            | Some e => if contains e key then Some e else None
                            | None => None
                            end).
Proof.
  intros Ha Hb. unfold lookup. rewrite partition_point_split by done.
  destruct (Nat.eqb_spec (length a) 0) as [H0|H0].
  { apply nil_length_inv in H0 as ->. done. }
  rewrite lookup_app_l by lia. rewrite last_lookup, <-Nat.sub_1_r.
  destruct (a !! _) as [e|] eqn:E; [by destruct (contains e key)|].
  apply lookup_ge_None in E. lia.
Qed.

Lemma contains_spec e key :
  contains e key = true ↔
  (start e ≤ key)%bytes ∧ match end_ e with Some x => (key < x)%bytes | None => True end.
Proof.
  unfold contains, bytes_le, bytes_lt. destruct (bytes_ltb key (start e)); [naive_solver|].
  destruct (end_ e); naive_solver.
Qed.

(** ** Properties *)

(** C28: the range map finds the owner.  After any sequence of insertions of
    non-empty ranges that do not overlap, the map is sorted by start and holds
    exactly what was inserted; looking up a key never panics and returns the range
    that contains the key, if there is one, and nothing otherwise. *)
Theorem lookup_finds_owner es key
    (Hne : ∀ e, e ∈ es → contains e (start e) = true)
    (Hdis : ∀ e1 e2 k, e1 ∈ es → e2 ∈ es → contains e1 k = true → contains e2 k = true → e1 = e2) :
  let m := fold_left (λ g e, insert e g) es range_map_new in
  StronglySorted starts_le (all m) ∧ all m ≡ₚ es ∧
  ∃ found, lookup key m = Ok found ∧
    ∀ e, found = Some e ↔ e ∈ es ∧ contains e key = true.
Proof.
  cbv zeta. destruct (insert_all_spec es range_map_new) as [Hs Hp]; [constructor|].
  set (m := fold_left _ es range_map_new) in *. unfold range_map_new in Hp.
  rewrite app_nil_r, <-Permutation_rev in Hp. unfold all. split_and!; [done|done|].
  destruct (sorted_split m key Hs) as (a & b & Hm & Ha & Hb).
  eexists. split; [rewrite Hm; by apply lookup_spec|].
  assert (∀ f, f ∈ es ↔ f ∈ a ++ b) as Hes by (intros f; by rewrite <-Hm, Hp).
  rewrite Forall_forall in Ha, Hb. intros e. split.
  - destruct (last a) as [f|] eqn:El; [|done]. destruct (contains f key) eqn:Ec; [|done].
    intros [= <-]. split; [|done]. apply Hes, elem_of_app. left. by apply last_Some_elem_of.
  - intros [Hin Hc]. pose proof (proj1 (contains_spec e key) Hc) as [Hstart Hend].
    apply Hes, elem_of_app in Hin as [Hin|Hin].
    2: { specialize (Hb e Hin). apply not_true_iff_false in Hb. by rewrite bytes_leb_spec in Hb. }
    destruct (last a) as [f|] eqn:El; [|by apply last_None in El; subst; apply elem_of_nil in Hin].
    apply last_Some in El as [a' ->].
    assert (e = f) as ->; [|by rewrite Hc].
    apply elem_of_app in Hin as [Hin|[->|[]%elem_of_nil]%elem_of_cons]; [|done].
    apply (Hdis e f (start f)).
    + apply Hes, elem_of_app. left. apply elem_of_app. by left.
    + apply Hes, elem_of_app. left. apply elem_of_app. right. by left.
    + apply contains_spec. rewrite Hm, <-app_assoc in Hs. split.
      * apply StronglySorted_app in Hs as (Hord & _ & _). apply Hord; [done|by left].
      * destruct (end_ e); [|done]. eapply bytes_le_lt_trans; [|exact Hend].
        apply bytes_leb_spec, Ha, elem_of_app. right. by left.
    + apply Hne, Hes, elem_of_app. left. apply elem_of_app. right. by left.
Qed.

(** terms only move forward.  After any sequence of announced terms the
    coordinator's term is the largest of them and of the one it had, and nothing
    else of its state has changed. *)
Theorem term_is_maximum ts s :
  let s' := fold_left (λ s t, bump_term t s) ts s in
  term s' = fold_left Z.max ts (term s) ∧ term s ≤ term s' ∧
  Forall (λ t, t ≤ term s') ts ∧ ranges s' = ranges s ∧ leader_hint s' = leader_hint s ∧
  coord_config s' = coord_config s.
Proof.
  revert s. induction ts as [|t ts IH]; intros s; [done|]. cbn [fold_left].
  destruct (IH (bump_term t s)) as (H1 & H2 & H3 & H4 & H5 & H6). cbv zeta in *.
  assert (term (bump_term t s) = Z.max (term s) t ∧ ranges (bump_term t s) = ranges s ∧
    leader_hint (bump_term t s) = leader_hint s ∧ coord_config (bump_term t s) = coord_config s)
    as (E1 & E2 & E3 & E4).
  { unfold bump_term. destruct (Z.ltb_spec (term s) t); cbn; split_and!; (done || lia). }
  rewrite E1 in H1, H2. rewrite H4, H5, H6. split_and!; [done|lia|constructor; [lia|done]|done..].
Qed.

(** ** Witnesses *)

Definition range (id : Z) (a : bytes) (b : option bytes) : RangeEntry :=
  mkRange id a b (lit "n0") [lit "n0"].

Definition three_ranges : list RangeEntry :=
  [range 2 (lit "m") (Some (lit "z")); range 1 [] (Some (lit "m")); range 3 (lit "z") None].

Lemma three_ranges_disjoint e1 e2 k :
  e1 ∈ three_ranges → e2 ∈ three_ranges → contains e1 k = true → contains e2 k = true → e1 = e2.
Proof.
  rewrite !contains_spec. intros H1 H2 [A1 A2] [B1 B2].
  assert (∀ x y, (x ≤ y)%bytes → (y < x)%bytes → False) as Hno.
  { intros x y Hle Hlt. by apply bytes_lt_nle in Hlt. }
  assert (∀ x, (k < lit "m")%bytes → (lit "z" ≤ x)%bytes → x = k → False) as Hmz.
  { intros x Hlt Hle ->. apply (Hno (lit "z") k Hle). etrans; [exact Hlt|]. reflexivity. }
  apply list_elem_of_In in H1, H2.
  destruct H1 as [<-|[<-|[<-|[]]]], H2 as [<-|[<-|[<-|[]]]]; try done; exfalso; simpl in *; eauto.
Qed.

Lemma lookup_finds_owner_witness :
  let m := fold_left (λ g e, insert e g) three_ranges range_map_new in
  lookup (lit "y") m = Ok (Some (range 2 (lit "m") (Some (lit "z")))).
Proof.
  cbv zeta.
  destruct (lookup_finds_owner three_ranges (lit "y")) as (_ & _ & found & H1 & H2).
  - intros e He. apply list_elem_of_In in He. destruct He as [<-|[<-|[<-|[]]]]; reflexivity.
  - exact three_ranges_disjoint.
  - rewrite H1. f_equal. apply H2. split; [by left|reflexivity].
Defined.

(** Ranges that overlap are not found reliably: the last one to start before the
    key hides the others. *)
Example nested_range_hides_outer :
  let m := insert (range 2 (lit "c") (Some (lit "d"))) (insert (range 1 (lit "a") (Some (lit "z"))) []) in
  contains (range 1 (lit "a") (Some (lit "z"))) (lit "m") = true ∧ lookup (lit "m") m = Ok None.
Proof. vm_compute. done. Qed.
