(* ===== verification/Fuzz.v ===== *)
(** * The fuzz targets ([fuzz/fuzz_targets])

    What the fuzzers assert of the parsers, for every input instead of the ones a
    fuzzer happens to try.  A target is a function of the input that ends in
    [Panic] when one of its assertions fails.  Reading TOML into a configuration is
    the [config] crate's: a parameter. *)

From Stdlib Require Import Strings.Byte.
From S2P Require Import Prelude Bytes Core KeyCodec ValueCodec Wal Config.

Definition assert (b : bool) : result Error unit := if b then Ok tt else Panic.
Definition expect {A} (r : result Error A) : result Error A :=
  match r with
  | Err _ => Panic
  | r => r
  end.

Definition fuzz_key_decode (data : bytes) : result Error unit :=
  match KeyCodec.decode data with
  | Panic => Panic
  | Err _ => Ok tt
  | Ok (tenant, subspace, payload) =>
      assert (negb (bool_decide (tenant = [])));;
      assert (len tenant <=? 255);;
      assert (len data =? 1 + len tenant + 1 + len payload);;
      assert (bool_decide (from_u8 (subspace_u8 subspace) = Some subspace))
  end.

Definition fuzz_key_roundtrip (data : bytes) : result Error unit :=
  match KeyCodec.decode data with
  | Panic => Panic
  | Err _ => Ok tt
  | Ok (tenant, subspace, payload) =>
      reencoded ← expect (KeyCodec.encode tenant subspace payload);
      assert (bool_decide (reencoded = data));;
      prefix ← expect (encode_tenant_prefix tenant);
      assert (starts_with prefix data)
  end.

(** One turn of the loop over the times. *)
Definition fuzz_value_at (data : bytes) (decoded : result Error StoredValue) (now : Z) :
    result Error unit :=
  match decoded, is_expired data now with
  | Ok value, Ok expired =>
      let expected := match expires_at_ms value with Some exp => exp <=? now | None => false end in
      assert (Bool.eqb expired expected)
  | Err _, Err _ => Ok tt
  | _, _ => Panic
  end.

Definition fuzz_value_decode (data : bytes) : result Error unit :=
  let decoded := ValueCodec.decode data in
  fuzz_value_at data decoded 0;;
  fuzz_value_at data decoded 1;;
  fuzz_value_at data decoded (U64_MAX / 2);;
  fuzz_value_at data decoded U64_MAX;;
  match decoded with
  | Ok value =>
      assert (bool_decide (ValueCodec.encode (ValueCodec.value value) (expires_at_ms value) = data))
  | Err _ => Ok tt
  | Panic => Panic
  end.

(** A call whose result is dropped with [let _]: only a panic shows. *)
Definition discard {A} (r : result Error A) : result Error unit :=
  match r with
  | Panic => Panic
  | _ => Ok tt
  end.

Section wal_target.
Context `{C : Crc32}.

Definition fuzz_wal_frame (data : bytes) : result Error unit :=
  discard (parse_header data);;
  '(records, consumed) ← parse_frames data;
  assert (consumed <=? len data);;
  claimed ← slice data 0 consumed;
  '(again, again_consumed) ← parse_frames claimed;
  assert (again_consumed =? consumed);;
  assert (bool_decide (again = records));;
  assert (forallb (λ record, len (key record) + len (Wal.value record) <=? consumed) records);;
  if (HEADER_LEN <=? len data) && is_ok (parse_header data) then
    body ← slice_from data HEADER_LEN;
    discard (parse_frames body)
  else Ok tt.

End wal_target.

(** [Config::builder ... try_deserialize::<NodeConfig>] on a text; a [u64] field is
    not negative. *)
Class Toml := from_toml : bytes → option NodeConfig.
Class TomlOk `{Toml} : Prop :=
  from_toml_typed : ∀ text cfg, from_toml text = Some cfg → 0 ≤ shutdown_timeout_secs cfg.

Definition fuzz_node_config `{Toml} (exists_ : Path → bool) (data : bytes) : result Error unit :=
  if negb (utf8_valid data) then Ok tt else
  match from_toml data with
  | None => Ok tt
  | Some cfg =>
      match validate exists_ cfg with
      | Ok _ =>
          assert (negb (bool_decide (node_id cfg = [])));;
          assert (0 <? shutdown_timeout_secs cfg);;
          assert (4096 <=? wal_rotate_bytes cfg)
      | Err _ => Ok tt
      | Panic => Panic
      end
  end.

(** ** Lemmas *)

Lemma assert_ok b : b = true → assert b = Ok tt.
Proof. by intros ->. Qed.

Lemma key_decode_safe data : fuzz_key_decode data = Ok tt.
Proof.
  unfold fuzz_key_decode. destruct (KeyCodec.decode data) as [[[t s] p]| |] eqn:E; [|done|].
  - apply decode_key_Ok in E as [[_ Ht] ->]. unfold_monad.
    rewrite !assert_ok; [done|..].
    + by rewrite from_u8_subspace, bool_decide_true.
    + apply Z.eqb_eq. rewrite len_app, len_frame. lia.
    + apply Z.leb_le. lia.
    + rewrite bool_decide_false; [done|]. intros ->. by rewrite len_nil in Ht; lia.
  - by apply decode_key_no_panic in E.
Qed.

Lemma encode_tenant_prefix_ok t :
  1 ≤ len t ≤ 255 → encode_tenant_prefix t = Ok (tenant_frame t).
Proof. intros Ht. unfold encode_tenant_prefix. by rewrite check_tenant_len_ok. Qed.

Lemma key_roundtrip_safe data : fuzz_key_roundtrip data = Ok tt.
Proof.
  unfold fuzz_key_roundtrip. destruct (KeyCodec.decode data) as [[[t s] p]| |] eqn:E; [|done|].
  - apply decode_key_Ok in E as [[_ Ht] ->].
    rewrite encode_ok, encode_tenant_prefix_ok by done. unfold_monad. cbn [expect].
    rewrite assert_ok by (by apply bool_decide_true). apply assert_ok, starts_with_spec.
    unfold frame. rewrite <-app_assoc. by eexists.
  - by apply decode_key_no_panic in E.
Qed.

Lemma value_at_safe data now : fuzz_value_at data (ValueCodec.decode data) now = Ok tt.
Proof.
  unfold fuzz_value_at. rewrite is_expired_decode. pose proof (decode_value_no_panic data).
  destruct (ValueCodec.decode data) as [sv| |]; [|done|done]. unfold_monad.
  apply assert_ok, Bool.eqb_true_iff. unfold expired. by destruct (expires_at_ms sv).
Qed.

Lemma value_decode_safe data : fuzz_value_decode data = Ok tt.
Proof.
  unfold fuzz_value_decode. cbv zeta. rewrite !value_at_safe. unfold_monad.
  destruct (ValueCodec.decode data) as [sv| |] eqn:E; [|done|by apply decode_value_no_panic in E].
  apply decode_value_Ok in E as [<- _]. by rewrite bool_decide_true.
Qed.

Lemma wal_frame_safe `{C : Crc32} `{CO : !Crc32Ok} data : fuzz_wal_frame data = Ok tt.
Proof.
  assert (∀ b, discard (parse_frames b) = Ok tt) as Hframes.
  { intros b. destruct (frames_decompose b) as (rs & tail & -> & Hwf & Ht).
    by rewrite parse_frames_run. }
  assert (discard (parse_header data) = Ok tt) as Hheader.
  { by destruct (parse_header_total data) as [[? ->]|[? ->]]. }
  unfold fuzz_wal_frame. rewrite Hheader.
  destruct (frames_decompose data) as (rs & tail & Hd & Hwf & Ht).
  assert (parse_frames data = Ok (rs, len (encode_frames rs))) as -> by (subst; by apply parse_frames_run).
  assert (parse_frames (encode_frames rs) = Ok (rs, len (encode_frames rs))) as Hagain.
  { rewrite <-(app_nil_r (encode_frames rs)) at 1. by apply parse_frames_run. }
  assert (slice (E:=Error) data 0 (len (encode_frames rs)) = Ok (encode_frames rs)) as Hslice.
  { subst. apply (slice_app [] (encode_frames rs) tail); [done|]. autorewrite with len. lia. }
  pose proof (len_nonneg tail) as Htail.
  unfold mbind, result_bind. rewrite assert_ok by (apply Z.leb_le; subst; len_lia).
  rewrite Hslice, Hagain. rewrite !assert_ok.
  - destruct (Z.leb_spec HEADER_LEN (len data)) as [Hh|]; [|done].
    destruct (is_ok _); [|done]. cbn [andb].
    rewrite slice_from_in_range by (unfold HEADER_LEN in *; lia). by apply Hframes.
  - apply forallb_forall. intros r Hr%list_elem_of_In. apply Z.leb_le.
    apply list_elem_of_split in Hr as (l1 & l2 & ->).
    rewrite encode_frames_app, encode_frames_cons. autorewrite with len. rewrite len_encode_frame.
    pose proof (len_nonneg (encode_frames l1)). pose proof (len_nonneg (encode_frames l2)). lia.
  - by apply bool_decide_true.
  - by apply Z.eqb_refl.
Qed.

Lemma node_config_safe `{TomlOk} exists_ data : fuzz_node_config exists_ data = Ok tt.
Proof.
  unfold fuzz_node_config. destruct (utf8_valid data); [|done]. cbn [negb].
  destruct (from_toml data) as [cfg|] eqn:E; [|done].
  pose proof (from_toml_typed _ _ E) as Hshut.
  destruct (validate exists_ cfg) as [[]|msg|] eqn:Ev; [|done|].
  - unfold validate in Ev. rewrite !guard_Ok, !then_Ok, !guard_Ok in Ev.
    rewrite !Z.eqb_neq, !Z.ltb_ge in Ev.
    destruct Ev as (Hid & _ & _ & _ & _ & Hs & Hw & _). unfold_monad.
    rewrite !assert_ok; [done|..].
    + by apply Z.leb_le.
    + apply Z.ltb_lt. lia.
    + rewrite bool_decide_false; [done|]. intros Hnil. by rewrite Hnil in Hid.
  - exfalso. revert Ev. unfold validate, Limits_validate, AuthConfig_validate, TlsConfig_validate.
    unfold_monad. by repeat case_match.
Qed.

(** ** Properties *)

(** C25: no fuzz target can fail.  For every input, the assertions of the five fuzz
    targets hold and nothing they call panics: a decoded key accounts for all its
    bytes and re-encodes to itself under its tenant's prefix; decoding a value
    agrees with the expiry fast path at every time tried, and re-encodes to the
    same bytes; parsing a log body is stable on the prefix it consumed; and a
    configuration that validates has the promised bounds. *)
Theorem fuzz_targets_never_fail `{C : Crc32} `{CO : !Crc32Ok} `{T : Toml} `{TO : !TomlOk} exists_ data :
  fuzz_key_decode data = Ok tt ∧ fuzz_key_roundtrip data = Ok tt ∧
  fuzz_value_decode data = Ok tt ∧ fuzz_wal_frame data = Ok tt ∧
  fuzz_node_config exists_ data = Ok tt.
Proof.
  split_and!; [apply key_decode_safe|apply key_roundtrip_safe|apply value_decode_safe
              |apply wal_frame_safe|apply node_config_safe].
Qed.

(** A reader that accepts one text. *)
Definition sample_toml : Toml := λ text,
  if decide (text = lit "default") then Some fallback_config else None.

Lemma sample_toml_ok : TomlOk (H:=sample_toml).
Proof.
  intros text cfg. unfold from_toml, sample_toml. case_decide; [|done].
  intros [= <-]. vm_compute. congruence.
Qed.

Lemma fuzz_targets_witness :
  fuzz_key_decode (lit "garbage") = Ok tt ∧
  fuzz_node_config (H:=sample_toml) (λ _, true) (lit "default") = Ok tt.
Proof.
  split.
  - apply (fuzz_targets_never_fail (C:=crc32_ieee) (CO:=crc32_ieee_ok) (T:=sample_toml)
      (TO:=sample_toml_ok) (λ _, true) (lit "garbage")).
  - apply (fuzz_targets_never_fail (C:=crc32_ieee) (CO:=crc32_ieee_ok) (T:=sample_toml)
      (TO:=sample_toml_ok) (λ _, true) (lit "default")).
Defined.
