(* ===== verification/TestKit.v ===== *)
(** * The repository's tests, as computations

    A test of the repository is a computation on the state it sets up; it passes
    when it runs to its end, and an assertion that does not hold, or an [unwrap] of
    an error, is a panic.  The files [TestsCore.v], [TestsNode.v],
    [TestsService.v] and [TestsEdge.v] translate the tests of the sources' [tests]
    modules, [TestsGrpc.v] the integration tests of a whole server, and run them on the
    model: that the model passes them is evidence that it is the program the authors
    meant, gathered from expectations they wrote down themselves.  [Proptests.v] has
    the property tests, for every input and not a sample. *)

From S2P Require Import Prelude Bytes.

Abbreviation Test S A := (M S Empty_set A).

(** [assert!] and [assert_eq!]. *)
Definition assert {S} (b : bool) : Test S unit := λ s, (if b then Ok tt else Panic, s).

Definition assert_eq {S A} `{EqDecision A} (a b : A) : Test S unit := assert (bool_decide (a = b)).

(** The result of a fallible call, as a value to look at. *)
Definition attempt {S E A} (m : M S E A) : Test S (result E A) := λ s,
  match m s with
  | (Ok a, s') => (Ok (Ok a), s')
  | (Err e, s') => (Ok (Err e), s')
  | (Panic, s') => (Panic, s')
  end.

(** [unwrap] and [unwrap_err]; a pure result is lifted. *)
Definition unwrap {S E A} (m : M S E A) : Test S A :=
  r ← attempt m;
  match r with
  | Ok a => mret a
  | _ => lift Panic
  end.

Definition unwrap_err {S E A} (m : M S E A) : Test S E :=
  r ← attempt m;
  match r with
  | Err e => mret e
  | _ => lift Panic
  end.

Definition unwrap_some {S A} (o : option A) : Test S A :=
  match o with
  | Some a => mret a
  | None => lift Panic
  end.

Definition is_err {E A} (r : result E A) : bool :=
  match r with
  | Err _ => true
  | _ => false
  end.

(** [assert!(m.is_ok())] and [assert!(m.is_err())]. *)
Definition succeeds {S E A} (m : M S E A) : Test S unit := r ← attempt m; assert (is_ok r).
Definition fails {S E A} (m : M S E A) : Test S unit := r ← attempt m; assert (is_err r).

(** The same call over and over: [for _ in 0..n]. *)
Fixpoint repeat_test {S} (n : nat) (t : Test S unit) : Test S unit :=
  match n with
  | O => mret tt
  | S n => t;; repeat_test n t
  end.

Definition passes {S} (t : Test S unit) (s : S) : bool := is_ok (t s).1.

(** A test that keeps no state. *)
Definition passes_pure (t : Test unit unit) : bool := passes t tt.

(** A failed assertion fails the test, whatever follows. *)
Lemma failed_assertion {S} (t : Test S unit) s : passes (assert false;; t) s = false.
Proof. done. Qed.

(** A test that passes has passed its first half. *)
Lemma passes_bind {S A} (m : Test S A) (t : A → Test S unit) s :
  passes (m ≫= t) s = true → ∃ a s', m s = (Ok a, s') ∧ passes (t a) s' = true.
Proof.
  unfold passes. unfold mbind, M_bind. destruct (m s) as [[a|[]|] s']; [|done]. eauto.
Qed.
