(* ===== verification/TestsCore.v ===== *)
(** * The tests of the codecs, the storage backends and the small components

    The [tests] modules of [ferriskv-core] ([clock.rs], [limits.rs], [key.rs],
    [value.rs], [storage.rs], [hashing.rs]), of [ferriskv-auth] ([rbac.rs],
    [api_key.rs]) and of [ferriskv-coord] ([placement.rs], [state.rs]), each test
    under its own name. *)

From Stdlib Require Import Strings.Byte.
From S2P Require Import Prelude Bytes Core KeyCodec ValueCodec Storage TestKit.
From S2P Require Import Wal TtlIndex Quota Throttle Watch Config Service Node NodeSpec Sample.
From S2P Require Import Auth Hashing Coord.

(** ** [clock.rs] *)

(** A clone of a manual clock is the clock: both names reach the same cell. *)
Definition system_clock_returns_positive (sys : Z) : Test Clock unit :=
  c ← gets id; assert (0 <? now_ms c sys).

Definition manual_clock_starts_at_initial : Test Clock unit :=
  c ← gets id; assert_eq (now_ms c 0) 1000.

Definition manual_clock_advances : Test Clock unit :=
  modify (λ c, Core.advance c 500);;
  c ← gets id; assert_eq (now_ms c 0) 500;;
  modify (λ c, Core.advance c 250);;
  c ← gets id; assert_eq (now_ms c 0) 750.

Definition cloned_manual_clock_shares_state : Test Clock unit :=
  modify (λ c, Core.advance c 50);;
  b ← gets id; assert_eq (now_ms b 0) 150.

(** ** [limits.rs] *)

Definition defaults_are_sane : Test unit unit :=
  let l := default_Limits in
  assert_eq (max_key_size l) (4 * 1024);;
  assert_eq (max_value_size l) (10 * 1024 * 1024);;
  assert_eq (max_batch_ops l) 1000;;
  assert_eq (max_scan_limit l) 10000;;
  succeeds (lift (Limits_validate l)).

Definition zero_fields_are_rejected : Test unit unit :=
  let d := default_Limits in
  fails (lift (Limits_validate {| max_key_size := 0; max_value_size := max_value_size d;
    max_batch_ops := max_batch_ops d; max_scan_limit := max_scan_limit d |}));;
  fails (lift (Limits_validate {| max_key_size := max_key_size d; max_value_size := max_value_size d;
    max_batch_ops := 0; max_scan_limit := max_scan_limit d |})).

(** ** [key.rs] *)

Definition encode_then_decode : Test unit unit :=
  k ← unwrap (lift (KeyCodec.encode (lit "alice") Data (lit "hello")));
  '(t, s, p) ← unwrap (lift (KeyCodec.decode k));
  assert_eq t (lit "alice");;
  assert_eq s Data;;
  assert_eq p (lit "hello").

Definition tenants_do_not_overlap : Test unit unit :=
  a ← unwrap (lift (KeyCodec.encode (lit "alice") Data (lit "k")));
  b ← unwrap (lift (KeyCodec.encode (lit "bob") Data (lit "k")));
  assert (negb (bool_decide (a = b)));;
  pa ← unwrap (lift (encode_tenant_prefix (lit "alice")));
  pb ← unwrap (lift (encode_tenant_prefix (lit "bob")));
  assert (starts_with pa a);;
  assert (negb (starts_with pb a)).

Definition subspaces_are_ordered : Test unit unit :=
  meta ← unwrap (lift (KeyCodec.encode (lit "t") Metadata []));
  data ← unwrap (lift (KeyCodec.encode (lit "t") Data []));
  stats ← unwrap (lift (KeyCodec.encode (lit "t") Stats []));
  assert (bytes_ltb meta data);;
  assert (bytes_ltb data stats).

Definition empty_tenant_rejected : Test unit unit :=
  fails (lift (KeyCodec.encode [] Data (lit "x"))).

Definition is_corrupt {A} (r : result Error A) : bool :=
  match r with
  | Err (Corrupt _) => true
  | _ => false
  end.

Definition decode_rejects_what_encode_can_never_produce : Test unit unit :=
  let forged := [x00; subspace_u8 Data; x70; x61; x79] in
  assert (is_corrupt (KeyCodec.decode forged)).

Definition similar_tenants_dont_collide : Test unit unit :=
  a ← unwrap (lift (KeyCodec.encode (lit "default") Data (lit "k")));
  b ← unwrap (lift (KeyCodec.encode (lit "defaults") Data (lit "k")));
  pa ← unwrap (lift (encode_tenant_prefix (lit "default")));
  pb ← unwrap (lift (encode_tenant_prefix (lit "defaults")));
  assert (starts_with pa a && negb (starts_with pb a));;
  assert (starts_with pb b && negb (starts_with pa b)).

(** ** [value.rs] *)

Definition encode_then_decode_no_ttl : Test unit unit :=
  decoded ← unwrap (lift (ValueCodec.decode (ValueCodec.encode (lit "hello") None)));
  assert_eq (expires_at_ms decoded) None;;
  assert_eq (ValueCodec.value decoded) (lit "hello").

Definition encode_then_decode_with_ttl : Test unit unit :=
  decoded ← unwrap (lift (ValueCodec.decode (ValueCodec.encode (lit "hello") (Some 1700000000000))));
  assert_eq (expires_at_ms decoded) (Some 1700000000000);;
  assert_eq (ValueCodec.value decoded) (lit "hello").

Definition encode_empty_value_works : Test unit unit :=
  decoded ← unwrap (lift (ValueCodec.decode (ValueCodec.encode [] (Some 42))));
  assert_eq (expires_at_ms decoded) (Some 42);;
  assert_eq (len (ValueCodec.value decoded)) 0.

Definition no_ttl_is_never_expired : Test unit unit :=
  expired ← unwrap (lift (is_expired (ValueCodec.encode (lit "x") None) U64_MAX));
  assert (negb expired).

Definition ttl_expires_at_boundary : Test unit unit :=
  let encoded := ValueCodec.encode (lit "x") (Some 100) in
  before ← unwrap (lift (is_expired encoded 99)); assert (negb before);;
  at_it ← unwrap (lift (is_expired encoded 100)); assert at_it;;
  after ← unwrap (lift (is_expired encoded 101)); assert after.

Definition decode_rejects_empty : Test unit unit := fails (lift (ValueCodec.decode [])).

Definition decode_rejects_truncated_ttl : Test unit unit :=
  fails (lift (ValueCodec.decode (VERSION_WITH_TTL :: replicate 4 x00))).

Definition decode_rejects_unknown_version : Test unit unit :=
  fails (lift (ValueCodec.decode (x63 :: lit "hello"))).

Definition payload_len_matches_decode_for_both_versions : Test unit unit :=
  for_each (λ '(payload, ttl),
    let encoded := ValueCodec.encode payload ttl in
    n ← unwrap (lift (payload_len encoded));
    decoded ← unwrap (lift (ValueCodec.decode encoded));
    assert_eq n (len (ValueCodec.value decoded));;
    assert_eq n (len payload))
  [([], None); (lit "x", None); (lit "hello world", None); ([], Some 0); (lit "hello", Some U64_MAX)].

Definition payload_len_rejects_what_decode_rejects : Test unit unit :=
  fails (lift (payload_len []));;
  fails (lift (payload_len [VERSION_WITH_TTL; x00; x00; x00]));;
  fails (lift (payload_len [x63; x78])).

Definition no_ttl_overhead_is_one_byte : Test unit unit :=
  assert_eq (len (ValueCodec.encode (lit "hello") None)) (1 + 5).

Definition ttl_overhead_is_nine_bytes : Test unit unit :=
  assert_eq (len (ValueCodec.encode (lit "hello") (Some 1))) (1 + 8 + 5).

(** ** [storage.rs] *)

(** A read, unwrapped: the backend is the state. *)
Definition reading {S E A} (f : S → result E A) : Test S A := unwrap (λ s, (f s, s)).

Definition mem_roundtrip : Test MemStorage unit :=
  unwrap (st_put (lit "k") (lit "v"));;
  v ← reading (λ s, st_get s (lit "k")); assert_eq v (Some (lit "v"));;
  unwrap (st_delete (lit "k"));;
  v ← reading (λ s, st_get s (lit "k")); assert_eq v None.

Definition mem_scan_prefix : Test MemStorage unit :=
  unwrap (st_put (lit "a:1") (lit "1"));;
  unwrap (st_put (lit "a:2") (lit "2"));;
  unwrap (st_put (lit "b:1") (lit "x"));;
  out ← reading (λ s, st_scan s (lit "a:")); assert_eq (len out) 2.

Definition mem_scan_range_excludes_end : Test MemStorage unit :=
  for_each (λ k, unwrap (st_put k (lit "v"))) [lit "a"; lit "b"; lit "c"; lit "d"];;
  out ← reading (λ s, st_scan_range s (lit "b") (lit "d"));
  assert_eq out.*1 [lit "b"; lit "c"].

Abbreviation SampleBackend := (StorageBackend sample_fjall).

Definition backend_enum_dispatches_to_memory : Test SampleBackend unit :=
  unwrap (st_put (lit "k") (lit "v"));;
  v ← reading (λ s, st_get s (lit "k")); assert_eq v (Some (lit "v"));;
  b ← gets id;
  assert (is_ok (require_key b (lit "k")));;
  assert (match require_key b (lit "missing") with Err (NotFound _) => true | _ => false end).

(** A partition in a new directory. *)
Definition fresh_fjall : FjallStorage sample_fjall := {| partition := (∅ : @fj_handle sample_fjall) |}.

Definition memory_is_not_durable_and_fjall_is : Test unit unit :=
  assert (negb (is_durable (Memory mem_new : SampleBackend)));;
  assert (is_durable (FjallB fresh_fjall)).

Definition flush_is_a_noop_on_memory : Test MemStorage unit :=
  unwrap (st_put (lit "k") (lit "v"));;
  succeeds (st_flush (S:=MemStorage));;
  v ← reading (λ s, st_get s (lit "k")); assert_eq v (Some (lit "v")).

Definition fjall_roundtrip_and_scan_range : Test (FjallStorage sample_fjall) unit :=
  for_each (λ k, unwrap (st_put k (lit "v"))) [lit "aa"; lit "ab"; lit "ba"; lit "bb"];;
  v ← reading (λ s, st_get s (lit "aa")); assert_eq v (Some (lit "v"));;
  prefix ← reading (λ s, st_scan s (lit "a")); assert_eq (len prefix) 2;;
  range ← reading (λ s, st_scan_range s (lit "ab") (lit "bb"));
  assert_eq (len range) 2;;
  assert_eq range.*1 [lit "ab"; lit "ba"];;
  unwrap (st_delete (lit "aa"));;
  v ← reading (λ s, st_get s (lit "aa")); assert_eq v None.

(** ** [hashing.rs] *)

#[export] Existing Instance sample_hash.
#[export] Existing Instance sample_sort.

Definition hrw_picks_n_unique_nodes : Test unit unit :=
  let nodes := [lit "a"; lit "b"; lit "c"; lit "d"; lit "e"] in
  let picked := hrw_select (lit "some-key") nodes 3 in
  assert_eq (len picked) 3;;
  assert_eq (len (remove_dups picked)) 3.

Definition hrw_is_stable : Test unit unit :=
  let nodes := [lit "a"; lit "b"; lit "c"] in
  assert_eq (hrw_select (lit "k") nodes 2) (hrw_select (lit "k") nodes 2).

(** ** [rbac.rs] *)

Definition role_bitmask_combines_permissions : Test unit unit :=
  let r := Role_new (lit "rw") [Read; Write] in
  assert (Role_allows r Read);;
  assert (Role_allows r Write);;
  assert (negb (Role_allows r PermDelete));;
  assert (negb (Role_allows r Admin)).

Definition role_set_allows_union : Test RoleSet unit :=
  modify (λ s, RoleSet_add s (Role_new (lit "read") [Read]));;
  modify (λ s, RoleSet_add s (Role_new (lit "admin") [Admin]));;
  set ← gets id;
  assert (RoleSet_allows set Read);;
  assert (RoleSet_allows set Admin);;
  assert (negb (RoleSet_allows set PermWatch)).

Definition empty_role_set_denies_everything : Test RoleSet unit :=
  set ← gets id;
  assert (negb (RoleSet_allows set Read));;
  assert (negb (RoleSet_allows set Admin)).

(** ** [api_key.rs] *)

Definition api_key (id tenant raw : bytes) : ApiKey :=
  {| ak_id := id; ak_tenant := tenant; hashed := blake3 raw; ak_roles := mkRoleSet [] |}.

(** Both calls return the one record the store holds. *)
Definition insert_and_verify_returns_shared_arc : Test ApiKeyStore unit :=
  modify (key_store_insert (api_key (lit "k1") (lit "alice") (lit "secret")));;
  a ← reading (λ s, key_store_verify s (lit "secret"));
  b ← reading (λ s, key_store_verify s (lit "secret"));
  assert_eq (ak_id a) (lit "k1");;
  assert_eq (hashed a, ak_id a) (hashed b, ak_id b).

Definition unknown_raw_is_rejected : Test ApiKeyStore unit :=
  modify (key_store_insert (api_key (lit "k1") (lit "alice") (lit "secret")));;
  err ← unwrap_err (λ s, (key_store_verify s (lit "wrong"), s));
  assert (match err with UnknownApiKey => true | _ => false end).

(** ** [placement.rs] *)

Definition range_entry (id : Z) (start : bytes) (end_ : option bytes) : RangeEntry :=
  {| shard_id := id; Coord.start := start; Coord.end_ := end_; primary := lit "n0"; replicas := [lit "n0"] |}.

Definition owner (key : bytes) : Test RangeMap Z :=
  o ← reading (Coord.lookup key); e ← unwrap_some o; mret (shard_id e).

Definition lookup_finds_owning_range : Test RangeMap unit :=
  modify (Coord.insert (range_entry 1 [] (Some (lit "m"))));;
  modify (Coord.insert (range_entry 2 (lit "m") (Some (lit "z"))));;
  modify (Coord.insert (range_entry 3 (lit "z") None));;
  for_each (λ '(k, id), o ← owner k; assert_eq o id)
    [(lit "a", 1); (lit "m", 2); (lit "y", 2); (lit "z", 3); (lit "zzzz", 3)].

Definition lookup_returns_none_outside_coverage : Test RangeMap unit :=
  modify (Coord.insert (range_entry 1 (lit "m") (Some (lit "z"))));;
  a ← reading (Coord.lookup (lit "a")); assert (negb (bool_decide (is_Some a)));;
  z ← reading (Coord.lookup (lit "z")); assert (negb (bool_decide (is_Some z))).

(** ** [state.rs] *)

Definition coord_cfg : CoordConfig :=
  mkCoordConfig (lit "c0") (lit "127.0.0.1:0") [] (lit "/tmp/none") 1 1.

Definition term_is (t : Z) : Test CoordState unit := n ← gets term; assert_eq n t.

Definition term_only_moves_forward : Test CoordState unit :=
  term_is 0;;
  modify (bump_term 5);; term_is 5;;
  modify (bump_term 3);; term_is 5;;
  modify (bump_term 10);; term_is 10.

Definition leader_hint_roundtrip : Test CoordState unit :=
  h ← gets leader_hint; assert_eq h None;;
  modify (set_leader_hint (lit "c2"));;
  h ← gets leader_hint; assert_eq h (Some (lit "c2")).

(** ** [coord/config.rs]: a TOML text is the table it stands for *)

Definition deserializes_minimal_toml : Test unit unit :=
  cfg ← unwrap (lift (deserialize_coord (mkRawCoord (Some (lit "c0")) (Some (lit "127.0.0.1:7000"))
    (Some []) (Some (lit "/tmp/ferriskv-coord")) None None)));
  assert_eq (Coord.node_id cfg) (lit "c0");;
  assert_eq (target_range_size_bytes cfg) (128 * 1024 * 1024);;
  assert_eq (replication_factor cfg) 3.

Definition deserializes_full_toml : Test unit unit :=
  cfg ← unwrap (lift (deserialize_coord (mkRawCoord (Some (lit "c1")) (Some (lit "0.0.0.0:7100"))
    (Some [lit "c0"; lit "c2"]) (Some (lit "/var/ferriskv/coord")) (Some 67108864) (Some 5))));
  assert_eq (len (peers cfg)) 2;;
  assert_eq (target_range_size_bytes cfg) (64 * 1024 * 1024);;
  assert_eq (replication_factor cfg) 5.

(** ** The suites *)

Definition core_suite : list bool :=
  [passes (system_clock_returns_positive 1700000000000) System;
   passes manual_clock_starts_at_initial (Manual 1000);
   passes manual_clock_advances (Manual 0);
   passes cloned_manual_clock_shares_state (Manual 100);
   passes_pure defaults_are_sane; passes_pure zero_fields_are_rejected;
   passes_pure encode_then_decode; passes_pure tenants_do_not_overlap;
   passes_pure subspaces_are_ordered; passes_pure empty_tenant_rejected;
   passes_pure decode_rejects_what_encode_can_never_produce; passes_pure similar_tenants_dont_collide;
   passes_pure encode_then_decode_no_ttl; passes_pure encode_then_decode_with_ttl;
   passes_pure encode_empty_value_works; passes_pure no_ttl_is_never_expired;
   passes_pure ttl_expires_at_boundary; passes_pure decode_rejects_empty;
   passes_pure decode_rejects_truncated_ttl; passes_pure decode_rejects_unknown_version;
   passes_pure payload_len_matches_decode_for_both_versions;
   passes_pure payload_len_rejects_what_decode_rejects;
   passes_pure no_ttl_overhead_is_one_byte; passes_pure ttl_overhead_is_nine_bytes;
   passes mem_roundtrip mem_new; passes mem_scan_prefix mem_new;
   passes mem_scan_range_excludes_end mem_new;
   passes backend_enum_dispatches_to_memory (Memory mem_new);
   passes_pure memory_is_not_durable_and_fjall_is;
   passes flush_is_a_noop_on_memory mem_new; passes fjall_roundtrip_and_scan_range fresh_fjall].

Definition small_suite : list bool :=
  [passes_pure hrw_picks_n_unique_nodes; passes_pure hrw_is_stable;
   passes_pure role_bitmask_combines_permissions;
   passes role_set_allows_union (mkRoleSet []); passes empty_role_set_denies_everything (mkRoleSet []);
   passes insert_and_verify_returns_shared_arc key_store_new;
   passes unknown_raw_is_rejected key_store_new;
   passes lookup_finds_owning_range range_map_new;
   passes lookup_returns_none_outside_coverage range_map_new;
   passes term_only_moves_forward (coord_new coord_cfg); passes leader_hint_roundtrip (coord_new coord_cfg);
   passes_pure deserializes_minimal_toml; passes_pure deserializes_full_toml].

(** The model passes the unit tests of [ferriskv-core], [ferriskv-auth] and
    [ferriskv-coord]. *)
Theorem core_tests_pass : forallb id core_suite = true ∧ forallb id small_suite = true.
Proof. split; vm_compute; reflexivity. Qed.
