(* ===== verification/TestsNode.v ===== *)
(** * The tests of the node's components

    The [tests] modules of [ferriskv-node]'s [wal.rs], [quota.rs] and [throttle.rs],
    each test under its own name, on the concrete environment of [Sample.v]: the
    checksum is the real CRC-32, so that the corruption tests are the originals. *)

From Stdlib Require Import Strings.Byte.
From S2P Require Import Prelude Bytes Core KeyCodec ValueCodec Storage Wal TtlIndex Quota.
From S2P Require Import Throttle Watch Config Service Node NodeSpec Sample Sweeper TestKit TestsCore.

(** ** [wal.rs] *)

(** The segment of a dropped log, opened again. *)
Definition wal_reopen : Test Wal Recovery := λ w,
  match (Wal.open (mkFile (contents (wal_file w)) [])).1 with
  | Ok (w', rec) => (Ok rec, w')
  | _ => (Panic, w)
  end.

(** A test on a log opened on [file], with what opening recovered. *)
Definition passes_on_segment (file : bytes) (t : Recovery → Test Wal unit) : bool :=
  match (Wal.open (mkFile file [])).1 with
  | Ok (w, rec) => passes (t rec) w
  | _ => false
  end.

Definition on_disk (w : Wal) : Z := len (contents (wal_file w)).

(** Another process writes to the segment. *)
Definition overwrite_segment (f : bytes → bytes) : Test Wal unit :=
  modify (λ w, mkWal (mkFile (f (contents (wal_file w))) (faults (wal_file w))) (wal_buf w)
                 (wal_next_seq w) (wal_segment_bytes w)).

Definition appends (o : WalOp) (k v : bytes) : Test Wal Z := unwrap (append o k v).

Definition fresh_segment_starts_at_zero_and_writes_a_header (rec : Recovery) : Test Wal unit :=
  assert (Recovery_is_empty rec);;
  assert_eq (rec_next_seq rec) 0;;
  assert_eq (truncated_bytes rec) 0;;
  n ← gets on_disk; assert_eq n HEADER_LEN.

Definition append_returns_monotonic_seq (_ : Recovery) : Test Wal unit :=
  a ← appends Put (lit "k1") (lit "v1"); assert_eq a 0;;
  b ← appends Put (lit "k2") (lit "v2"); assert_eq b 1;;
  c ← appends Delete (lit "k1") []; assert_eq c 2.

Definition reopen_returns_every_record_in_write_order (_ : Recovery) : Test Wal unit :=
  appends Put (lit "a") (lit "1");;
  appends Put (lit "b") (lit "2");;
  appends Delete (lit "a") [];;
  unwrap sync;;
  rec ← wal_reopen;
  assert_eq (truncated_bytes rec) 0;;
  assert_eq (rec_next_seq rec) 3;;
  n ← appends Put (lit "c") (lit "3"); assert_eq n 3;;
  assert_eq ((λ r, (seq r, op r)) <$> records rec) [(0, Put); (1, Put); (2, Delete)];;
  assert_eq (key <$> records rec !! 0%nat) (Some (lit "a"));;
  assert_eq (Wal.value <$> records rec !! 0%nat) (Some (lit "1"));;
  assert_eq (Wal.value <$> records rec !! 2%nat) (Some []).

Definition empty_key_and_value_roundtrip (_ : Recovery) : Test Wal unit :=
  appends Delete [] [];;
  unwrap sync;;
  rec ← wal_reopen;
  assert_eq (len (records rec)) 1;;
  assert_eq (key <$> records rec !! 0%nat) (Some []).

Definition torn_tail_is_discarded_and_the_segment_stays_usable (_ : Recovery) : Test Wal unit :=
  appends Put (lit "a") (lit "1");;
  appends Put (lit "b") (lit "2");;
  unwrap sync;;
  overwrite_segment (λ f, f ++ replicate 11 xab);;
  rec ← wal_reopen;
  assert_eq (len (records rec)) 2;;
  assert_eq (truncated_bytes rec) 11;;
  assert_eq (rec_next_seq rec) 2;;
  appends Put (lit "c") (lit "3");;
  unwrap sync;;
  rec ← wal_reopen;
  assert_eq (len (records rec)) 3;;
  assert_eq (truncated_bytes rec) 0;;
  assert_eq (key <$> records rec !! 2%nat) (Some (lit "c")).

Definition flip (b : byte) : byte := byte_of_Z (Z.lxor (byte_Z b) 255).

Definition a_flipped_bit_stops_recovery_at_that_frame (_ : Recovery) : Test Wal unit :=
  appends Put (lit "a") (lit "first");;
  appends Put (lit "b") (lit "second");;
  appends Put (lit "c") (lit "third");;
  unwrap sync;;
  let first_frame_len := MIN_FRAME_LEN + 1 + 5 in
  let target := HEADER_LEN + first_frame_len + 13 + 1 + 4 + 1 in
  overwrite_segment (alter flip (Z.to_nat target));;
  rec ← wal_reopen;
  assert_eq (len (records rec)) 1;;
  assert_eq (key <$> records rec !! 0%nat) (Some (lit "a"));;
  assert (0 <? truncated_bytes rec).

(** [Wal::open] of a file that is not a segment. *)
Definition refused (file : bytes) : bool := is_corrupt (Wal.open (mkFile file [])).1.

Definition a_foreign_file_is_refused_rather_than_overwritten : bool :=
  refused (lit "this is somebody else's file, please do not eat").

Definition an_unknown_format_version_is_refused : bool :=
  let header := encode_header 0 in
  refused (take 4 header ++ to_le_bytes 2 (FORMAT_VERSION + 1) ++ drop 6 header).

Definition a_header_shorter_than_the_layout_is_refused : bool := refused (take 3 MAGIC).

Definition rotate_forgets_the_records_but_not_the_sequence (_ : Recovery) : Test Wal unit :=
  appends Put (lit "a") (lit "1");;
  appends Put (lit "b") (lit "2");;
  unwrap rotate;;
  n ← gets next_seq; assert_eq n 2;;
  m ← appends Put (lit "c") (lit "3"); assert_eq m 2;;
  unwrap sync;;
  rec ← wal_reopen;
  assert_eq (len (records rec)) 1;;
  assert_eq (seq <$> records rec !! 0%nat) (Some 2);;
  assert_eq (rec_next_seq rec) 3.

Definition an_empty_rotated_segment_still_remembers_where_it_starts (_ : Recovery) : Test Wal unit :=
  appends Put (lit "a") (lit "1");;
  appends Put (lit "b") (lit "2");;
  unwrap rotate;;
  rec ← wal_reopen;
  assert (Recovery_is_empty rec);;
  assert_eq (rec_next_seq rec) 2.

Definition segment_bytes_tracks_the_file_and_resets_on_rotate (rec : Recovery) : Test Wal unit :=
  assert_eq (rec_segment_bytes rec) HEADER_LEN;;
  appends Put (lit "key") (lit "value");;
  appends Put (lit "other") (lit "payload");;
  unwrap sync;;
  n ← gets on_disk;
  m ← gets segment_bytes; assert_eq m n;;
  unwrap rotate;;
  m ← gets segment_bytes; assert_eq m HEADER_LEN;;
  n ← gets on_disk; assert_eq n HEADER_LEN.

Definition a_torn_tail_is_not_counted_in_segment_bytes (_ : Recovery) : Test Wal unit :=
  appends Put (lit "a") (lit "1");;
  unwrap sync;;
  overwrite_segment (λ f, f ++ replicate 7 xab);;
  rec ← wal_reopen;
  assert_eq (truncated_bytes rec) 7;;
  m ← gets segment_bytes; n ← gets on_disk; assert_eq m n.

Definition parse_frames_never_panics_on_arbitrary_bytes : Test unit unit :=
  for_each (λ n,
    unwrap (lift (parse_frames (replicate n xff)));;
    unwrap (lift (parse_frames (replicate n x00)));;
    mret tt) (List.seq 0 64);;
  let bogus := replicate 8 x00 ++ [op_u8 Put] ++ to_le_bytes 4 U32_MAX ++ replicate 8 x00 in
  '(records, consumed) ← unwrap (lift (parse_frames bogus));
  assert_eq (len records) 0;;
  assert_eq consumed 0.

Definition unknown_opcodes_are_rejected : Test unit unit :=
  assert_eq (op_from_u8 x01) (Some Put);;
  assert_eq (op_from_u8 x02) (Some Delete);;
  for_each (λ b, assert_eq (op_from_u8 b) None) [x00; x03; x2a; xff].

Definition wal_suite : list bool :=
  [passes_on_segment [] fresh_segment_starts_at_zero_and_writes_a_header;
   passes_on_segment [] append_returns_monotonic_seq;
   passes_on_segment [] reopen_returns_every_record_in_write_order;
   passes_on_segment [] empty_key_and_value_roundtrip;
   passes_on_segment [] torn_tail_is_discarded_and_the_segment_stays_usable;
   passes_on_segment [] a_flipped_bit_stops_recovery_at_that_frame;
   a_foreign_file_is_refused_rather_than_overwritten; an_unknown_format_version_is_refused;
   a_header_shorter_than_the_layout_is_refused;
   passes_on_segment [] rotate_forgets_the_records_but_not_the_sequence;
   passes_on_segment [] an_empty_rotated_segment_still_remembers_where_it_starts;
   passes_on_segment [] segment_bytes_tracks_the_file_and_resets_on_rotate;
   passes_on_segment [] a_torn_tail_is_not_counted_in_segment_bytes;
   passes_pure parse_frames_never_panics_on_arbitrary_bytes;
   passes_pure unknown_opcodes_are_rejected].

Lemma wal_tests_pass : forallb id wal_suite = true.
Proof. vm_compute. reflexivity. Qed.

(** ** [quota.rs] *)

Abbreviation QuotaTest := (Test (QuotaStore * SampleBackend) unit).

Definition alice : bytes := lit "alice".
Definition bob : bytes := lit "bob".

Definition passes_quota (default : Quota) (t : QuotaTest) : bool :=
  passes t (store_new default, Memory mem_new).

Definition limit_is (t : bytes) (n : Z) : QuotaTest :=
  q ← gets (λ p, quota p.1 t); assert_eq (max_bytes q) n.

Definition used_is (t : bytes) (n : Z) : QuotaTest := u ← gets (λ p, used_bytes p.1 t); assert_eq u n.

Definition checks (t : bytes) (d : Z) : M (QuotaStore * SampleBackend) Error unit := λ p,
  (check_write p.1 t d, p).

Definition an_unconfigured_tenant_is_unlimited : QuotaTest :=
  q ← gets (λ p, quota p.1 alice); assert (is_unlimited q);;
  succeeds (checks alice (2 ^ 63 - 1)).

Definition the_node_default_applies_to_tenants_without_a_record : QuotaTest :=
  limit_is alice 100;;
  fails (checks alice 101);;
  succeeds (checks alice 100).

Definition a_tenant_quota_overrides_the_node_default : QuotaTest :=
  unwrap (set_quota alice (mkQuota 1000 0));;
  limit_is alice 1000;;
  limit_is bob 100.

Definition clearing_a_quota_returns_the_tenant_to_the_default : QuotaTest :=
  unwrap (set_quota alice (mkQuota 1 0));;
  unwrap (clear_quota alice);;
  limit_is alice 100.

Definition a_write_is_refused_at_the_point_it_would_cross_the_limit : QuotaTest :=
  unwrap (Quota.apply alice 8);;
  succeeds (checks alice 2);;
  err ← unwrap_err (checks alice 3);
  assert (match err with QuotaExceeded _ used limit => (used =? 11) && (limit =? 10) | _ => false end).

Definition a_tenant_over_its_limit_can_still_free_bytes : QuotaTest :=
  unwrap (Quota.apply alice 50);;
  succeeds (checks alice (-20));;
  succeeds (checks alice 0);;
  fails (checks alice 1).

Definition usage_never_wraps_below_zero : QuotaTest :=
  unwrap (Quota.apply alice 10);;
  unwrap (Quota.apply alice (-100));;
  used_is alice 0.

Definition usage_is_persisted_and_isolated_per_tenant : QuotaTest :=
  unwrap (Quota.apply alice 42);;
  unwrap (Quota.apply bob 7);;
  used_is alice 42;;
  used_is bob 7;;
  key ← unwrap (lift (KeyCodec.encode alice Stats USAGE_KEY));
  found ← reading (λ p, st_get p.2 key);
  raw ← unwrap_some found;
  stored ← unwrap (lift (ValueCodec.decode raw));
  assert_eq (from_be_bytes (ValueCodec.value stored)) 42;;
  bobs ← unwrap (lift (KeyCodec.encode bob Stats USAGE_KEY));
  assert (negb (bool_decide (key = bobs))).

(** A second store over the same storage. *)
Definition another_store (default : Quota) : QuotaTest := modify (λ p, (store_new default, p.2)).

Definition quotas_survive_a_reload_from_storage : QuotaTest :=
  unwrap (set_quota alice (mkQuota 999 3));;
  unwrap (set_quota bob (mkQuota 1 0));;
  another_store UNLIMITED;;
  n ← unwrap load_quotas; assert_eq n 2;;
  limit_is alice 999;;
  q ← gets (λ p, quota p.1 alice); assert_eq (max_ops_per_sec q) 3;;
  limit_is bob 1.

Definition an_unreadable_quota_record_does_not_stop_the_node : QuotaTest :=
  key ← unwrap (lift (KeyCodec.encode alice Metadata QUOTA_KEY));
  unwrap (on_storage (st_put key (ValueCodec.encode (lit "{not json") None)));;
  another_store (mkQuota 50 0);;
  n ← unwrap load_quotas; assert_eq n 0;;
  limit_is alice 50.

Definition reset_usage_replaces_rather_than_adds : QuotaTest :=
  unwrap (Quota.apply alice 1000);;
  modify (λ p, (reset_usage [(alice, 7)] p.1, p.2));;
  used_is alice 7.

Definition reset_usage_forgets_tenants_that_no_longer_exist : QuotaTest :=
  unwrap (Quota.apply (lit "gone") 100);;
  modify (λ p, (reset_usage [(alice, 5)] p.1, p.2));;
  used_is (lit "gone") 0.

Definition list_includes_a_configured_tenant_that_has_written_nothing : QuotaTest :=
  unwrap (set_quota (lit "prepared") (mkQuota 10 1));;
  unwrap (Quota.apply (lit "active") 3);;
  listed ← gets (λ p, list_tenants p.1);
  assert_eq listed.*1 [lit "active"; lit "prepared"];;
  second ← unwrap_some (listed !! 1%nat);
  assert_eq (tu_used_bytes second.2) 0;;
  assert_eq (tu_max_bytes second.2) 10.

Definition entry_bytes_counts_the_key_as_well_as_the_value : Test unit unit :=
  assert_eq (entry_bytes 0 0) 0;;
  assert_eq (entry_bytes 4 10) 14;;
  assert_eq (entry_bytes 4 0) 4.

Definition quota_suite : list bool :=
  [passes_quota UNLIMITED an_unconfigured_tenant_is_unlimited;
   passes_quota (mkQuota 100 5) the_node_default_applies_to_tenants_without_a_record;
   passes_quota (mkQuota 100 0) a_tenant_quota_overrides_the_node_default;
   passes_quota (mkQuota 100 0) clearing_a_quota_returns_the_tenant_to_the_default;
   passes_quota (mkQuota 10 0) a_write_is_refused_at_the_point_it_would_cross_the_limit;
   passes_quota (mkQuota 10 0) a_tenant_over_its_limit_can_still_free_bytes;
   passes_quota UNLIMITED usage_never_wraps_below_zero;
   passes_quota UNLIMITED usage_is_persisted_and_isolated_per_tenant;
   passes_quota UNLIMITED quotas_survive_a_reload_from_storage;
   passes_quota UNLIMITED an_unreadable_quota_record_does_not_stop_the_node;
   passes_quota UNLIMITED reset_usage_replaces_rather_than_adds;
   passes_quota UNLIMITED reset_usage_forgets_tenants_that_no_longer_exist;
   passes_quota UNLIMITED list_includes_a_configured_tenant_that_has_written_nothing;
   passes_pure entry_bytes_counts_the_key_as_well_as_the_value].

Lemma quota_tests_pass : forallb id quota_suite = true.
Proof. vm_compute. reflexivity. Qed.

(** ** [throttle.rs] *)

(** The limiter's clock stands still during a test. *)
Abbreviation SampleThrottle := (Throttle sample_governor).

Definition ask (t : bytes) (rate cost : Z) : M SampleThrottle Error unit := check 0 t rate cost.

Definition no_limit_anywhere_means_no_throttling : Test SampleThrottle unit :=
  repeat_test (Z.to_nat 10000) (succeeds (ask alice 0 1));;
  n ← gets tracked_tenants; assert_eq n 0.

Definition a_tenant_is_refused_once_its_allowance_is_spent : Test SampleThrottle unit :=
  repeat_test 5 (succeeds (ask alice 5 1));;
  err ← unwrap_err (ask alice 5 1);
  assert (match err with RateLimited _ limit => limit =? 5 | _ => false end).

Definition one_tenant_cannot_spend_anothers_allowance : Test SampleThrottle unit :=
  succeeds (ask (lit "noisy") 0 1);;
  succeeds (ask (lit "noisy") 0 1);;
  fails (ask (lit "noisy") 0 1);;
  succeeds (ask (lit "quiet") 0 1).

Definition a_batch_costs_what_it_contains : Test SampleThrottle unit :=
  succeeds (ask alice 10 10);;
  fails (ask alice 10 1).

Definition a_request_larger_than_the_whole_allowance_is_a_configuration_error : Test SampleThrottle unit :=
  err ← unwrap_err (ask alice 5 50);
  assert (match err with ConfigError _ => true | _ => false end).

Definition a_tenant_specific_limit_overrides_the_default : Test SampleThrottle unit :=
  repeat_test 20 (succeeds (ask alice 20 1)).

Definition raising_a_limit_replaces_the_limiter_rather_than_keeping_the_old_rate :
    Test SampleThrottle unit :=
  succeeds (ask alice 1 1);;
  fails (ask alice 1 1);;
  succeeds (ask alice 100 1);;
  n ← gets tracked_tenants; assert_eq n 1.

Definition a_zero_cost_request_is_never_refused : Test SampleThrottle unit :=
  succeeds (ask alice 0 1);;
  repeat_test 100 (succeeds (ask alice 0 0)).

Definition throttle_suite : list bool :=
  [passes no_limit_anywhere_means_no_throttling (throttle_new 0);
   passes a_tenant_is_refused_once_its_allowance_is_spent (throttle_new 0);
   passes one_tenant_cannot_spend_anothers_allowance (throttle_new 2);
   passes a_batch_costs_what_it_contains (throttle_new 0);
   passes a_request_larger_than_the_whole_allowance_is_a_configuration_error (throttle_new 0);
   passes a_tenant_specific_limit_overrides_the_default (throttle_new 1);
   passes raising_a_limit_replaces_the_limiter_rather_than_keeping_the_old_rate (throttle_new 0);
   passes a_zero_cost_request_is_never_refused (throttle_new 1)].

Lemma throttle_tests_pass : forallb id throttle_suite = true.
Proof. vm_compute. reflexivity. Qed.
