(* ===== verification/TestsService.v ===== *)
(** * The tests of the index, the watch hub and the service

    The [tests] modules of [ferriskv-node]'s [ttl.rs], [watch.rs] and [service.rs],
    each test under its own name, on the concrete environment of [Sample.v].  Left
    out are the tests of what tokio does by itself: a wake-up under a timeout, and a
    receiver that lags. *)

From Stdlib Require Import Strings.Byte.
From S2P Require Import Prelude Bytes Core KeyCodec ValueCodec Storage Wal TtlIndex Quota.
From S2P Require Import Throttle Watch Config Service Node NodeSpec Sample Sweeper.
From S2P Require Import TestKit TestsCore TestsNode.

(** ** [ttl.rs]: the index *)

Definition due_is (o : option Z) : Test TtlIndex unit := n ← gets next_due_ms; assert_eq n o.

Definition schedules (k : bytes) (t : Z) : Test TtlIndex unit := modify (schedule k t).

Definition drains (n : Z) (ks : list bytes) : Test TtlIndex unit :=
  due ← (λ g, let '(out, g') := drain_due n g in (Ok out, g'));
  assert_eq due ks.

Definition schedule_then_drain_returns_keys_in_order : Test TtlIndex unit :=
  schedules (lit "a") 200;;
  schedules (lit "b") 100;;
  schedules (lit "c") 300;;
  drains 150 [lit "b"];;
  drains 250 [lit "a"];;
  drains 500 [lit "c"].

Definition next_due_reflects_earliest : Test TtlIndex unit :=
  due_is None;;
  schedules (lit "a") 500;; due_is (Some 500);;
  schedules (lit "b") 100;; due_is (Some 100);;
  schedules (lit "c") 1000;; due_is (Some 100).

Definition drain_does_not_include_future_expirations : Test TtlIndex unit :=
  schedules (lit "now") 100;;
  schedules (lit "later") 1000;;
  drains 500 [lit "now"];;
  n ← gets index_len; assert_eq n 1;;
  due_is (Some 1000).

Definition duplicate_schedule_is_idempotent : Test TtlIndex unit :=
  schedules (lit "k") 100;;
  schedules (lit "k") 100;;
  n ← gets index_len; assert_eq n 1.

(** A permit is there for a waiter that comes later. *)
Definition notify_fires_on_earlier_expiration : Test TtlIndex unit :=
  schedules (lit "late") 1000000;;
  schedules (lit "early") 100;;
  permit ← gets notify; assert permit.

(** ** Nodes *)

Abbreviation NodeTest := (Test SampleService unit).

Definition test_config (b : Backend) : NodeConfig := {|
  node_id := lit "n0"; listen := "127.0.0.1:0"; data_dir := mkPath true ["tmp"; "node"];
  coord_endpoints := []; backend := b; limits := default_Limits;
  auth := {| insecure := true; public_key_path := public_key_path default_AuthConfig |};
  tls := None; admin_listen := None; ttl_sweep_interval_secs := 0; shutdown_timeout_secs := 5;
  quota_config := default_QuotaConfig; watch_buffer := 1024; watch_heartbeat_secs := 30;
  wal_rotate_bytes := 64 * 1024 * 1024;
|}.

(** [cfg.wal_rotate_bytes = ..] and [cfg.quota.default_max_bytes = ..]. *)
Definition with_rotation (n : Z) (c : NodeConfig) : NodeConfig := {|
  node_id := node_id c; listen := listen c; data_dir := data_dir c;
  coord_endpoints := coord_endpoints c; backend := backend c; limits := limits c;
  auth := auth c; tls := tls c; admin_listen := admin_listen c;
  ttl_sweep_interval_secs := ttl_sweep_interval_secs c; shutdown_timeout_secs := shutdown_timeout_secs c;
  quota_config := quota_config c; watch_buffer := watch_buffer c;
  watch_heartbeat_secs := watch_heartbeat_secs c; wal_rotate_bytes := n;
|}.

Definition with_max_bytes (n : Z) (c : NodeConfig) : NodeConfig := {|
  node_id := node_id c; listen := listen c; data_dir := data_dir c;
  coord_endpoints := coord_endpoints c; backend := backend c; limits := limits c;
  auth := auth c; tls := tls c; admin_listen := admin_listen c;
  ttl_sweep_interval_secs := ttl_sweep_interval_secs c; shutdown_timeout_secs := shutdown_timeout_secs c;
  quota_config := {| default_max_bytes := n;
    default_max_ops_per_sec := default_max_ops_per_sec (quota_config c) |};
  watch_buffer := watch_buffer c; watch_heartbeat_secs := watch_heartbeat_secs c;
  wal_rotate_bytes := wal_rotate_bytes c;
|}.

(** A new directory, and the directory a dropped node leaves. *)
Definition temp_dir : Disk (F:=sample_fjall) := mkDisk (Ok tt) (mkFile [] []) (Ok fresh_fjall).

Definition left_behind (s : SampleService) : Disk (F:=sample_fjall) :=
  mkDisk (Ok tt) (mkFile (contents (wal_file (wal s))) [])
    (Ok match storage s with FjallB f => f | Memory _ => fresh_fjall end).

Definition passes_node (cfg : NodeConfig) (c : Clock) (t : NodeTest) : bool :=
  match open_with_clock cfg c temp_dir with
  | Ok s => passes t s
  | _ => false
  end.

Definition reopened : NodeTest := λ s,
  match open_with_clock (config s) (clock s) (left_behind s) with
  | Ok s' => (Ok tt, s')
  | _ => (Panic, s)
  end.

Definition puts (k v : bytes) (ttl : Z) : NodeTest := unwrap (put_with_ttl 1 k v ttl).
Definition deletes (k : bytes) : NodeTest := unwrap (delete_key k).
Definition reads (k : bytes) (o : option bytes) : NodeTest :=
  v ← reading (λ s, get s 1 k); assert_eq v o.
Definition clock_advances (d : Z) : NodeTest :=
  modify (λ s, mkService (config s) (storage s) (wal s) (Core.advance (clock s) d) (ttl_index s) (watch s)
                 (quota_store s) (throttle s)).
Definition uses (t : bytes) (n : Z) : NodeTest :=
  u ← gets (λ s, used_bytes (quota_store s) t); assert_eq u n.
Definition sweeps (n : Z) : NodeTest := m ← unwrap (sweep_once 1); assert_eq m n.
Definition scans_keys (ks : list bytes) : NodeTest :=
  out ← reading (λ s, scan s 1 []); assert_eq out.*1 ks.
Definition due (o : option Z) : NodeTest := n ← gets (λ s, next_due_ms (ttl_index s)); assert_eq n o.
Definition scheduled_count (n : Z) : NodeTest := m ← gets (λ s, index_len (ttl_index s)); assert_eq m n.
Definition syncs : NodeTest := unwrap (in_wal sync).

(** [&[b'x'; n]]. *)
Definition xs (n : nat) : bytes := replicate n x78.

(** ** [ttl.rs]: the sweeper *)

Definition sweep_removes_expired_and_keeps_alive : NodeTest :=
  puts (lit "a") (lit "alive") 0;;
  puts (lit "b") (lit "short") 100;;
  puts (lit "c") (lit "long") 1000000;;
  clock_advances 200;;
  sweeps 1;;
  scans_keys [lit "a"; lit "c"].

(** What the first subscriber of a tenant has received. *)
Definition received (t : bytes) (s : SampleService) : list KeyChange :=
  default [] (feed (BO:=sample_broadcast_ok) (watch s) t 0%nat).

Definition subscribes (t : bytes) : NodeTest := λ s,
  match subscribe t (watch s) with
  | (Ok _, h) => (Ok tt, set_watch h s)
  | (Err e, _) => (Err e, s)
  | (Panic, _) => (Panic, s)
  end.

Definition an_eviction_is_announced_to_watchers : NodeTest :=
  subscribes alice;;
  key ← unwrap (lift (KeyCodec.encode alice Data (lit "ephemeral")));
  puts key (lit "v") 100;;
  events ← gets (received alice);
  assert_eq (kind <$> events) [ChangePut];;
  clock_advances 200;;
  sweeps 1;;
  events ← gets (received alice);
  event ← unwrap_some (events !! 1%nat);
  assert_eq event (mkChange ChangeDelete (lit "ephemeral") []).

Definition an_eviction_is_recorded_in_the_wal : NodeTest :=
  puts (lit "k") (lit "v") 100;;
  before ← gets (λ s, next_seq (wal s));
  clock_advances 200;;
  sweeps 1;;
  after ← gets (λ s, next_seq (wal s)); assert_eq after (before + 1).

Definition sweep_reschedules_overwritten_key_with_longer_ttl : NodeTest :=
  puts (lit "k") (lit "v1") 100;;
  puts (lit "k") (lit "v2") 1000000;;
  clock_advances 200;;
  sweeps 0;;
  reads (lit "k") (Some (lit "v2"));;
  n ← gets (λ s, next_due_ms (ttl_index s)); assert (bool_decide (is_Some n)).

Definition sweep_is_silent_when_index_is_empty : NodeTest := sweeps 0.

Definition ttl_suite : list bool :=
  [passes schedule_then_drain_returns_keys_in_order TtlIndex.new;
   passes next_due_reflects_earliest TtlIndex.new;
   passes drain_does_not_include_future_expirations TtlIndex.new;
   passes duplicate_schedule_is_idempotent TtlIndex.new;
   passes notify_fires_on_earlier_expiration TtlIndex.new;
   passes_node (test_config BackendMemory) (Manual 0) sweep_removes_expired_and_keeps_alive;
   passes_node (test_config BackendMemory) (Manual 0) an_eviction_is_announced_to_watchers;
   passes_node (test_config BackendMemory) (Manual 0) an_eviction_is_recorded_in_the_wal;
   passes_node (test_config BackendMemory) (Manual 0) sweep_reschedules_overwritten_key_with_longer_ttl;
   passes_node (test_config BackendMemory) (Manual 0) sweep_is_silent_when_index_is_empty].

Lemma ttl_tests_pass : forallb id ttl_suite = true.
Proof. vm_compute. reflexivity. Qed.

(** ** [watch.rs] *)

Abbreviation SampleHub := (WatchHub sample_broadcast).

Definition put_change (k v : bytes) : KeyChange := mkChange ChangePut k v.

Definition hub_subscribe (t : bytes) : Test SampleHub nat := subscribe (B:=sample_broadcast) t.

Definition publishes (t : bytes) (c : KeyChange) : Test SampleHub unit := modify (publish t c).

(** What a receiver has been handed, in order. *)
Definition handed (t : bytes) (r : nat) (cs : list KeyChange) : Test SampleHub unit :=
  l ← gets (λ h, default [] (feed (BO:=sample_broadcast_ok) h t r)); assert_eq l cs.

Definition a_subscriber_receives_changes_for_its_tenant : Test SampleHub unit :=
  rx ← hub_subscribe alice;
  publishes alice (put_change (lit "k") (lit "v"));;
  handed alice rx [put_change (lit "k") (lit "v")].

Definition a_change_never_crosses_a_tenant_boundary : Test SampleHub unit :=
  a ← hub_subscribe alice;
  b ← hub_subscribe bob;
  publishes alice (put_change (lit "shared") (lit "alice-value"));;
  handed alice a [put_change (lit "shared") (lit "alice-value")];;
  handed bob b [].

Definition every_subscriber_of_a_tenant_sees_every_change : Test SampleHub unit :=
  first ← hub_subscribe alice;
  second ← hub_subscribe alice;
  n ← gets (λ h, subscriber_count h alice); assert_eq n 2;;
  publishes alice (put_change (lit "k") (lit "v"));;
  handed alice first [put_change (lit "k") (lit "v")];;
  handed alice second [put_change (lit "k") (lit "v")].

Definition publishing_with_no_watchers_is_a_no_op : Test SampleHub unit :=
  publishes (lit "nobody-here") (put_change (lit "k") (lit "v"));;
  w ← gets (λ h, is_watched h (lit "nobody-here")); assert (negb w);;
  n ← gets watched_tenants; assert_eq n 0.

Definition drops (t : bytes) (r : nat) : Test SampleHub unit :=
  modify (unsubscribe (B:=sample_broadcast) t r).

Definition a_channel_is_collected_once_its_last_subscriber_leaves : Test SampleHub unit :=
  rx ← hub_subscribe alice;
  n ← gets watched_tenants; assert_eq n 1;;
  w ← gets (λ h, is_watched h alice); assert w;;
  drops alice rx;;
  w ← gets (λ h, is_watched h alice); assert (negb w);;
  publishes alice (put_change (lit "k") (lit "v"));;
  n ← gets watched_tenants; assert_eq n 0.

Definition resubscribing_after_the_channel_was_collected_still_works : Test SampleHub unit :=
  rx ← hub_subscribe alice;
  drops alice rx;;
  publishes alice (put_change (lit "collected") (lit "v"));;
  n ← gets watched_tenants; assert_eq n 0;;
  rx ← hub_subscribe alice;
  publishes alice (put_change (lit "fresh") (lit "v"));;
  handed alice rx [put_change (lit "fresh") (lit "v")].

Definition a_late_subscriber_sees_only_what_follows_it : Test SampleHub unit :=
  publishes alice (put_change (lit "before") (lit "v"));;
  rx ← hub_subscribe alice;
  publishes alice (put_change (lit "after") (lit "v"));;
  handed alice rx [put_change (lit "after") (lit "v")].

Definition watch_suite : list bool :=
  [passes a_subscriber_receives_changes_for_its_tenant (hub_new 16);
   passes a_change_never_crosses_a_tenant_boundary (hub_new 16);
   passes every_subscriber_of_a_tenant_sees_every_change (hub_new 16);
   passes publishing_with_no_watchers_is_a_no_op (hub_new 16);
   passes a_channel_is_collected_once_its_last_subscriber_leaves (hub_new 16);
   passes a_late_subscriber_sees_only_what_follows_it (hub_new 16);
   passes resubscribing_after_the_channel_was_collected_still_works (hub_new 16)].

Lemma watch_tests_pass : forallb id watch_suite = true.
Proof. vm_compute. reflexivity. Qed.

(** ** [service.rs] *)

Definition opens_memory_backend_and_writes_through_wal : NodeTest :=
  puts (lit "k") (lit "v") 0;;
  deletes (lit "k");;
  n ← gets (λ s, on_disk (wal s)); assert (0 <? n).

Definition replay_is_idempotent : Test SampleBackend unit :=
  let records :=
    [mkRecord 0 Put (lit "a") (ValueCodec.encode (lit "1") None);
     mkRecord 1 Put (lit "b") (ValueCodec.encode (lit "2") None);
     mkRecord 2 Delete (lit "a") []] in
  n ← unwrap (replay records); assert_eq n 3;;
  once ← reading (λ b, st_scan b []);
  unwrap (replay records);;
  twice ← reading (λ b, st_scan b []);
  assert_eq once twice;;
  v ← reading (λ b, st_get b (lit "a")); assert_eq v None.

Definition opens_fjall_backend : NodeTest :=
  puts (lit "k") (lit "v") 0;;
  reads (lit "k") (Some (lit "v")).

Definition put_with_ttl_populates_index : NodeTest :=
  e ← gets (λ s, is_empty (ttl_index s)); assert e;;
  puts (lit "a") (lit "alive") 0;;
  e ← gets (λ s, is_empty (ttl_index s)); assert e;;
  puts (lit "b") (lit "short") 100;;
  scheduled_count 1;;
  due (Some 1100).

Definition scan_and_scan_range_filter_expired : NodeTest :=
  puts (lit "a") (lit "alive") 0;;
  puts (lit "b") (lit "short") 100;;
  puts (lit "c") (lit "long") 1000000;;
  all ← reading (λ s, scan s 1 []); assert_eq (len all) 3;;
  clock_advances 200;;
  scans_keys [lit "a"; lit "c"].

Definition get_returns_none_when_expired : NodeTest :=
  puts (lit "k") (lit "v") 50;;
  reads (lit "k") (Some (lit "v"));;
  clock_advances 100;;
  reads (lit "k") None.

Definition put_without_ttl_never_expires : NodeTest :=
  puts (lit "k") (lit "v") 0;;
  clock_advances (U64_MAX / 2);;
  reads (lit "k") (Some (lit "v")).

Definition a_memory_backend_recovers_its_whole_state_from_the_wal : NodeTest :=
  puts (lit "kept") (lit "v1") 0;;
  puts (lit "overwritten") (lit "first") 0;;
  puts (lit "overwritten") (lit "second") 0;;
  puts (lit "removed") (lit "v") 0;;
  deletes (lit "removed");;
  syncs;;
  reopened;;
  reads (lit "kept") (Some (lit "v1"));;
  reads (lit "overwritten") (Some (lit "second"));;
  reads (lit "removed") None.

Definition replay_restores_the_ttl_stamp_and_not_a_fresh_one : NodeTest :=
  puts (lit "short") (lit "v") 500;;
  syncs;;
  clock_advances 400;;
  reopened;;
  due (Some 1500);;
  reads (lit "short") (Some (lit "v"));;
  clock_advances 200;;
  reads (lit "short") None.

Definition a_torn_wal_tail_does_not_stop_the_node_from_starting : NodeTest :=
  puts (lit "a") (lit "1") 0;;
  syncs;;
  zoom wal set_wal (overwrite_segment (λ f, f ++ lit "half a frame"));;
  reopened;;
  reads (lit "a") (Some (lit "1")).

Definition a_durable_backend_rotates_the_wal_on_startup : NodeTest :=
  puts (lit "a") (lit "1") 0;;
  puts (lit "b") (lit "2") 0;;
  syncs;;
  n ← gets (λ s, segment_bytes (wal s)); assert (HEADER_LEN <? n);;
  reopened;;
  n ← gets (λ s, segment_bytes (wal s)); assert_eq n HEADER_LEN;;
  reads (lit "a") (Some (lit "1"));;
  reads (lit "b") (Some (lit "2"));;
  m ← gets (λ s, next_seq (wal s)); assert (2 <=? m).

(** [for i in 0..200 { put("k{i}", [b'x'; 64]) }]. *)
Definition numbered (i : nat) : bytes := lit "k" ++ lit (pretty (Z.of_nat i)).
Definition two_hundred_puts : NodeTest := for_each (λ i, puts (numbered i) (xs 64) 0) (List.seq 0 200).

Definition a_memory_backend_never_rotates_because_the_wal_is_the_only_copy : NodeTest :=
  two_hundred_puts;;
  n ← gets (λ s, segment_bytes (wal s)); assert (4096 <? n).

Definition rotation_keeps_the_data_readable_and_bounds_the_segment : NodeTest :=
  two_hundred_puts;;
  n ← gets (λ s, segment_bytes (wal s)); assert (n <=? 4096 + 256);;
  reads (lit "k0") (Some (xs 64));;
  reads (lit "k199") (Some (xs 64)).

Definition test_data_key (tenant k : bytes) : Test SampleService bytes :=
  unwrap (lift (KeyCodec.encode tenant Data k)).

Definition puts_data (tenant k v : bytes) (ttl : Z) : NodeTest :=
  key ← test_data_key tenant k; puts key v ttl.

Definition a_write_charges_the_key_and_the_value_to_its_tenant : NodeTest :=
  puts_data alice (lit "order:42") (lit "payload") 0;;
  uses alice (8 + 7);;
  uses bob 0.

Definition an_overwrite_charges_the_difference_not_the_whole_value : NodeTest :=
  puts_data alice (lit "k") (xs 100) 0;; uses alice 101;;
  puts_data alice (lit "k") (xs 10) 0;; uses alice 11;;
  puts_data alice (lit "k") (xs 50) 0;; uses alice 51.

Definition a_delete_returns_the_bytes : NodeTest :=
  key ← test_data_key alice (lit "k");
  puts key (lit "value") 0;; uses alice 6;;
  deletes key;; uses alice 0;;
  deletes key;; uses alice 0.

Definition a_write_over_the_quota_is_refused_and_changes_nothing : NodeTest :=
  puts_data alice (lit "k") (xs 15) 0;;
  before ← gets (λ s, used_bytes (quota_store s) alice);
  seq_before ← gets (λ s, next_seq (wal s));
  big ← test_data_key alice (lit "big");
  err ← unwrap_err (put_with_ttl 1 big (xs 100) 0);
  assert (match err with QuotaExceeded _ _ _ => true | _ => false end);;
  reads big None;;
  uses alice before;;
  n ← gets (λ s, next_seq (wal s)); assert_eq n seq_before.

Definition a_tenant_over_its_quota_can_delete_its_way_back_under : NodeTest :=
  a ← test_data_key alice (lit "a");
  b ← test_data_key alice (lit "b");
  puts a (xs 25) 0;;
  fails (put_with_ttl 1 b (xs 25) 0);;
  deletes a;;
  puts b (xs 25) 0.

Definition one_tenant_cannot_exhaust_anothers_quota : NodeTest :=
  puts_data (lit "noisy") (lit "k") (xs 19) 0;;
  k2 ← test_data_key (lit "noisy") (lit "k2");
  fails (put_with_ttl 1 k2 (xs 19) 0);;
  puts_data (lit "quiet") (lit "k") (xs 19) 0.

Definition usage_is_rebuilt_from_the_data_at_startup : NodeTest :=
  puts_data alice (lit "one") (xs 10) 0;;
  puts_data alice (lit "two") (xs 20) 0;;
  puts_data bob (lit "k") (xs 5) 0;;
  uses alice (13 + 23);;
  stats ← unwrap (lift (KeyCodec.encode alice Stats (lit "usage")));
  unwrap (in_storage (st_put stats (ValueCodec.encode (to_be_bytes 8 999999) None)));;
  reopened;;
  uses alice (13 + 23);;
  uses bob 6.

Definition node_bookkeeping_is_not_charged_to_the_tenant : NodeTest :=
  puts_data alice (lit "k") (lit "v") 0;;
  after_data ← gets (λ s, used_bytes (quota_store s) alice);
  schema ← unwrap (lift (KeyCodec.encode alice Metadata (lit "schema")));
  puts schema (xs 500) 0;;
  uses alice after_data.

Definition a_ttl_expiry_that_is_swept_gives_the_bytes_back : NodeTest :=
  puts_data alice (lit "ephemeral") (xs 40) 100;;
  uses alice 49;;
  clock_advances 200;;
  sweeps 1;;
  uses alice 0.

Definition bootstrap_recovers_index_from_storage : NodeTest :=
  puts (lit "with-ttl") (lit "v") 5000;;
  puts (lit "no-ttl") (lit "v") 0;;
  reopened;;
  scheduled_count 1;;
  due (Some 5000).

Definition service_suite : list bool :=
  let mem := test_config BackendMemory in
  let fj := test_config BackendFjall in
  [passes_node mem System opens_memory_backend_and_writes_through_wal;
   passes replay_is_idempotent (Memory mem_new);
   passes_node fj System opens_fjall_backend;
   passes_node mem (Manual 1000) put_with_ttl_populates_index;
   passes_node mem (Manual 1000) scan_and_scan_range_filter_expired;
   passes_node mem (Manual 0) get_returns_none_when_expired;
   passes_node mem (Manual 0) put_without_ttl_never_expires;
   passes_node mem (Manual 1000) a_memory_backend_recovers_its_whole_state_from_the_wal;
   passes_node mem (Manual 1000) replay_restores_the_ttl_stamp_and_not_a_fresh_one;
   passes_node mem (Manual 0) a_torn_wal_tail_does_not_stop_the_node_from_starting;
   passes_node fj (Manual 0) a_durable_backend_rotates_the_wal_on_startup;
   passes_node mem System a_write_charges_the_key_and_the_value_to_its_tenant;
   passes_node mem System an_overwrite_charges_the_difference_not_the_whole_value;
   passes_node mem System a_delete_returns_the_bytes;
   passes_node (with_max_bytes 20 mem) System a_write_over_the_quota_is_refused_and_changes_nothing;
   passes_node (with_max_bytes 30 mem) System a_tenant_over_its_quota_can_delete_its_way_back_under;
   passes_node (with_max_bytes 20 mem) System one_tenant_cannot_exhaust_anothers_quota;
   passes_node fj System usage_is_rebuilt_from_the_data_at_startup;
   passes_node mem System node_bookkeeping_is_not_charged_to_the_tenant;
   passes_node mem (Manual 0) a_ttl_expiry_that_is_swept_gives_the_bytes_back;
   passes_node fj (Manual 0) bootstrap_recovers_index_from_storage].

Definition rotation_suite : list bool :=
  [passes_node (with_rotation 4096 (test_config BackendMemory)) (Manual 0)
     a_memory_backend_never_rotates_because_the_wal_is_the_only_copy;
   passes_node (with_rotation 4096 (test_config BackendFjall)) (Manual 0)
     rotation_keeps_the_data_readable_and_bounds_the_segment].

Lemma service_tests_pass : forallb id service_suite = true.
Proof. vm_compute. reflexivity. Qed.

Lemma rotation_tests_pass : forallb id rotation_suite = true.
Proof. vm_compute. reflexivity. Qed.
