(* ===== verification/TestsGrpc.v ===== *)
(** * The integration tests of the node, and the token tests

    [ferriskv-node/tests/grpc.rs]: a server is spawned, clients call it through its
    interceptor, and streams are read.  Each test is here under its own name, on the
    server of [Server.v]; the network between client and server is left out, and time
    is what a test says it is.  The tests of [ferriskv-auth/src/jwt.rs] are here too. *)

From Stdlib Require Import Strings.Byte.
From S2P Require Import Prelude Bytes Core KeyCodec ValueCodec Storage Wal TtlIndex Quota.
From S2P Require Import Throttle Watch Config ConfigLoad Service Node NodeSpec Sample Sweeper.
From S2P Require Import Auth Grpc GrpcSpec Server Hashing Admin AdminHttp.
From S2P Require Import TestKit TestsCore TestsNode TestsService TestsEdge.

(** ** [jwt.rs]

    A token is a name for what was signed with a secret; a verifier that has the secret
    reads the claims, and refuses them when they expired more than its leeway of sixty
    seconds ago. *)

Definition issuing_jwt (token secret : bytes) (claims : Claims) : JsonWebToken := {|
  DecodingKey := bytes;
  from_secret := λ b, b;
  from_rsa_pem := λ b, inr b;
  jwt_decode := λ now t key _,
    if negb (bool_decide (t = token)) then inl (OtherJwtError "InvalidToken")
    else if negb (bool_decide (key = secret)) then inl (OtherJwtError "InvalidSignature")
    else if exp claims <? now - 60 then inl ExpiredSignature
    else inr claims;
|}.

Definition right_now : Z := 1700000000.

Definition user_1 (roles perms : list bytes) (exp : Z) : Claims :=
  mkClaims (lit "user-1") (lit "alice") roles perms exp None.

Definition verifies (secret signer : bytes) (c : Claims) : M unit AuthError Claims :=
  let W := issuing_jwt (lit "token") signer c in
  lift (verify (W:=W) right_now (new_hs256 (W:=W) secret) (lit "token")).

Definition hs256_roundtrip : Test unit unit :=
  decoded ← unwrap (verifies (lit "super-secret") (lit "super-secret")
    (user_1 [lit "read"] [lit "read"] (right_now + 3600)));
  assert_eq (sub decoded) (lit "user-1");;
  assert_eq (claim_tenant decoded) (lit "alice");;
  assert_eq (len (claim_roles decoded)) 1.

Definition expired_token_is_rejected : Test unit unit :=
  err ← unwrap_err (verifies (lit "super-secret") (lit "super-secret") (user_1 [] [] (right_now - 3600)));
  assert (match err with Expired => true | _ => false end).

Definition wrong_secret_is_rejected : Test unit unit :=
  err ← unwrap_err (verifies (lit "secret-b") (lit "secret-a") (user_1 [] [] (right_now + 3600)));
  assert (match err with InvalidToken _ => true | _ => false end).

Definition jwt_suite : list bool :=
  [passes_pure hs256_roundtrip; passes_pure expired_token_is_rejected; passes_pure wrong_secret_is_rejected].

Lemma jwt_tests_pass : forallb id jwt_suite = true.
Proof. vm_compute. reflexivity. Qed.

(** ** Servers and clients *)

Abbreviation TestServer := (Server.Server (F:=sample_fjall) (B:=sample_broadcast) (G:=sample_governor)).
Abbreviation GrpcTest := (Test TestServer unit).
Abbreviation Gate := (AuthInterceptor (W:=token_jwt)).

Definition tuned_config (l : Limits) (q : QuotaConfig) (buffer beat : Z) : NodeConfig := {|
  node_id := lit "test-node"; listen := "127.0.0.1:0"; data_dir := mkPath true ["tmp"; "node"];
  coord_endpoints := []; backend := BackendMemory; limits := l;
  auth := {| Config.insecure := true; public_key_path := public_key_path default_AuthConfig |};
  tls := None; admin_listen := None; ttl_sweep_interval_secs := 0; shutdown_timeout_secs := 5;
  wal_rotate_bytes := 64 * 1024 * 1024; quota_config := q; watch_buffer := buffer;
  watch_heartbeat_secs := beat;
|}.

(** A test on a fresh server. *)
Definition spawn_tuned (cfg : NodeConfig) (t : GrpcTest) : bool :=
  match open_with_clock cfg System temp_dir with
  | Ok s => passes t (mkServer (mkApi s []) [])
  | _ => false
  end.

Definition spawn_with (l : Limits) (t : GrpcTest) : bool :=
  spawn_tuned (tuned_config l default_QuotaConfig 1024 30) t.
Definition spawn_server (t : GrpcTest) : bool := spawn_with default_Limits t.
Definition spawn_quota_server (max_bytes max_ops : Z) (t : GrpcTest) : bool :=
  spawn_tuned (tuned_config default_Limits
    {| default_max_bytes := max_bytes; default_max_ops_per_sec := max_ops |} 1024 30) t.
Definition spawn_watch_server (buffer beat : Z) (t : GrpcTest) : bool :=
  spawn_tuned (tuned_config default_Limits default_QuotaConfig buffer beat) t.

(** The interceptor of [spawn_server] and that of [spawn_secure_server]. *)
Definition trusting : Gate := insecure_interceptor (W:=token_jwt).
Definition hunter2 : Gate := verifying (lit "hunter2").

(** Requests, without and with a token. *)
Definition plain {T} (payload : T) : Request T := mkRequest None None payload.
Definition with_auth {T} (payload : T) (token : bytes) : Request T :=
  mkRequest (Some (lit "Bearer " ++ token)) None payload.

Definition hunter2_token (tenant : bytes) (perms : list bytes) : bytes :=
  make_token (lit "hunter2") tenant perms.

(** The client's calls, at the system time [sys]. *)
Definition put_at (sys : Z) (i : Gate) (req : Request PutRequest) : M TestServer Auth.Status PutResponse :=
  with_interceptor (W:=token_jwt) 0 i (rpc_put 0 sys) req.
Definition get_at (sys : Z) (i : Gate) (req : Request GetRequest) : M TestServer Auth.Status GetResponse :=
  with_interceptor (W:=token_jwt) 0 i (rpc_get 0 sys) req.
Definition client_put := put_at 1000.
Definition client_get := get_at 1000.
Definition client_delete (i : Gate) (req : Request DeleteRequest) : M TestServer Auth.Status DeleteResponse :=
  with_interceptor (W:=token_jwt) 0 i (rpc_delete 0 1000) req.
Definition client_scan (i : Gate) (req : Request ScanRequest) : M TestServer Auth.Status (list ScanChunk) :=
  with_interceptor (W:=token_jwt) 0 i (rpc_scan 0 1000) req.
Definition client_batch (i : Gate) (req : Request BatchRequest) : M TestServer Auth.Status BatchResponse :=
  with_interceptor (W:=token_jwt) 0 i (rpc_batch 0 1000) req.
Definition client_watch (i : Gate) (req : Request WatchRequest) :
    M TestServer Auth.Status (WatchState (B:=sample_broadcast)) :=
  with_interceptor (W:=token_jwt) 0 i (rpc_watch 0 0) req.

Definition put_req (t k v : bytes) : PutRequest :=
  {| put_tenant := t; put_key := k; put_value := v; ttl_ms := 0 |}.
Definition get_req (t k : bytes) : GetRequest := {| get_tenant := t; get_key := k |}.
Definition del_req (t k : bytes) : DeleteRequest := {| del_tenant := t; del_key := k |}.
Definition put_op (k v : bytes) : BatchOp := {| op_code := 1; op_key := k; op_value := v |}.
Definition del_op (k : bytes) : BatchOp := {| op_code := 2; op_key := k; op_value := [] |}.
Definition batch_req (t : bytes) (l : list BatchOp) : BatchRequest := {| batch_tenant := t; ops := l |}.
Definition watch_req (t p : bytes) : WatchRequest := {| watch_tenant := t; watch_prefix := p |}.

Definition stores (t k v : bytes) : GrpcTest := unwrap (client_put trusting (plain (put_req t k v)));; mret tt.
Definition finds (t k : bytes) (o : option bytes) : GrpcTest :=
  g ← unwrap (client_get trusting (plain (get_req t k)));
  match o with
  | Some v => assert (found g);; assert_eq (got g) v
  | None => assert (negb (found g))
  end.

(** [unwrap_err().code()]. *)
Definition refused {A} (m : M TestServer Auth.Status A) (c : Code) : GrpcTest :=
  err ← unwrap_err m; assert_eq (code err) c.

Definition default_tenant : bytes := lit "default".

(** ** Data *)

Definition put_get_delete_roundtrip : GrpcTest :=
  stores default_tenant (lit "hello") (lit "world");;
  finds default_tenant (lit "hello") (Some (lit "world"));;
  d ← unwrap (client_delete trusting (plain (del_req default_tenant (lit "hello"))));
  assert (del_found d);;
  finds default_tenant (lit "hello") None.

Definition tenant_isolation : GrpcTest :=
  stores alice (lit "shared") (lit "alice-value");;
  stores bob (lit "shared") (lit "bob-value");;
  a ← unwrap (client_get trusting (plain (get_req alice (lit "shared"))));
  b ← unwrap (client_get trusting (plain (get_req bob (lit "shared"))));
  assert_eq (got a) (lit "alice-value");;
  assert_eq (got b) (lit "bob-value");;
  finds (lit "carol") (lit "shared") None;;
  refused (client_get trusting (plain (get_req [] (lit "x")))) InvalidArgument.

Definition scanned (t p : bytes) (limit : Z) : Test TestServer Z :=
  chunks ← unwrap (client_scan trusting
    (plain {| scan_tenant := t; scan_prefix := p; scan_limit := limit |}));
  mret (len (concat (chunk_entries <$> chunks))).

Definition scan_returns_prefix : GrpcTest :=
  for_each (λ kv, stores default_tenant kv.1 kv.2)
    [(lit "a:1", lit "1"); (lit "a:2", lit "2"); (lit "b:1", lit "x")];;
  n ← scanned default_tenant (lit "a:") 10; assert_eq n 2.

Definition batch_applies_put_and_delete : GrpcTest :=
  stores alice (lit "existing") (lit "old");;
  unwrap (client_batch trusting (plain (batch_req alice
    [put_op (lit "new") (lit "value"); del_op (lit "existing")])));;
  g ← unwrap (client_get trusting (plain (get_req alice (lit "new"))));
  assert (found g);;
  finds alice (lit "existing") None.

Definition batch_rejects_unknown_opcode : GrpcTest :=
  refused (client_batch trusting (plain (batch_req alice
    [{| op_code := 99; op_key := lit "k"; op_value := [] |}]))) InvalidArgument.

Definition ttl_expired_key_returns_not_found : GrpcTest :=
  let key := lit "ephemeral" in
  unwrap (put_at 1000 trusting
    (plain {| put_tenant := alice; put_key := key; put_value := lit "v"; ttl_ms := 100 |}));;
  immediate ← unwrap (get_at 1000 trusting (plain (get_req alice key)));
  assert (found immediate);;
  after ← unwrap (get_at 1200 trusting (plain (get_req alice key)));
  assert (negb (found after)).

(** ** Watching *)

Definition open_watch (t p : bytes) : Test TestServer (WatchState (B:=sample_broadcast)) :=
  unwrap (client_watch trusting (plain (watch_req t p))).

(** What a stream has delivered once its channel has handed over what it holds and,
    if [idle], nothing else came until the next heartbeat was due. *)
Definition delivered (ws : WatchState (B:=sample_broadcast)) (idle : bool) (s : TestServer) :
    list (result Auth.Status WatchEvent) :=
  let changes := default [] (feed (BO:=sample_broadcast_ok) (watch (inner (api s))) (ws_tenant ws) (rx ws)) in
  let signals := (Received 1 <$> changes) ++ (if idle then [Idle (next_beat ws)] else []) in
  (watch_stream (S (length signals)) ws signals).1.

(** The [n]-th [next_event]. *)
Definition event_at (ws : WatchState (B:=sample_broadcast)) (idle : bool) (n : nat) :
    Test TestServer WatchEvent :=
  out ← gets (delivered ws idle);
  match out !! n with
  | Some (Ok e) => mret e
  | _ => lift Panic
  end.

Definition next_event (ws : WatchState (B:=sample_broadcast)) (n : nat) : Test TestServer WatchEvent :=
  event_at ws false n.

Definition is_put (e : WatchEvent) : bool := match event_kind e with EventPut => true | _ => false end.
Definition is_delete (e : WatchEvent) : bool := match event_kind e with EventDelete => true | _ => false end.
Definition is_heartbeat (e : WatchEvent) : bool := match event_kind e with Heartbeat => true | _ => false end.

Definition watch_reports_puts_and_deletes : GrpcTest :=
  stream ← open_watch alice [];
  stores alice (lit "watched") (lit "v1");;
  event ← next_event stream 0;
  assert (is_put event);;
  assert_eq (event_key event) (lit "watched");;
  assert_eq (event_value event) (lit "v1");;
  unwrap (client_delete trusting (plain (del_req alice (lit "watched"))));;
  event ← next_event stream 1;
  assert (is_delete event);;
  assert_eq (event_key event) (lit "watched");;
  assert_eq (event_value event) [].

Definition watch_only_reports_keys_under_the_requested_prefix : GrpcTest :=
  stream ← open_watch alice (lit "cache:");
  for_each (λ k, stores alice k (lit "v")) [lit "other:1"; lit "cache:hit"; lit "cacheless"];;
  event ← next_event stream 0;
  assert_eq (event_key event) (lit "cache:hit").

Definition watch_never_leaks_across_tenants : GrpcTest :=
  stream ← open_watch alice [];
  stores bob (lit "bob-only") (lit "secret");;
  stores alice (lit "alice-key") (lit "v");;
  event ← next_event stream 0;
  assert_eq (event_key event) (lit "alice-key").

Definition watch_reports_a_batch_op_by_op : GrpcTest :=
  stream ← open_watch alice [];
  unwrap (client_batch trusting (plain (batch_req alice
    [put_op (lit "one") (lit "1"); put_op (lit "two") (lit "2"); del_op (lit "one")])));;
  e0 ← next_event stream 0;
  e1 ← next_event stream 1;
  e2 ← next_event stream 2;
  assert (is_put e0);; assert_eq (event_key e0) (lit "one");;
  assert (is_put e1);; assert_eq (event_key e1) (lit "two");;
  assert (is_delete e2);; assert_eq (event_key e2) (lit "one").

Definition watch_sends_a_heartbeat_while_idle : GrpcTest :=
  stream ← open_watch alice [];
  event ← event_at stream true 0;
  assert (is_heartbeat event);;
  assert_eq (event_key event) [];;
  assert_eq (event_value event) [].

(** The heartbeat of that test is due one second after the stream was opened. *)
Definition heartbeat_is_due_after_a_second : GrpcTest :=
  stream ← open_watch alice []; assert_eq (next_beat stream) 1000.

Definition watch_requires_the_watch_permission : GrpcTest :=
  refused (client_watch hunter2 (with_auth (watch_req alice [])
    (hunter2_token alice [lit "read"; lit "write"]))) PermissionDenied;;
  unwrap (client_watch hunter2 (with_auth (watch_req alice []) (hunter2_token alice [lit "watch"])));;
  mret tt.

Definition watch_rejects_a_foreign_tenant : GrpcTest :=
  refused (client_watch hunter2 (with_auth (watch_req bob []) (hunter2_token alice [lit "watch"])))
    PermissionDenied.

(** ** Quotas and rate limits *)

Definition a_write_over_the_storage_quota_is_resource_exhausted : GrpcTest :=
  stores alice (lit "k") (xs 40);;
  refused (client_put trusting (plain (put_req alice (lit "k2") (xs 40)))) ResourceExhausted;;
  finds alice (lit "k2") None.

Definition a_quota_refusal_does_not_affect_other_tenants : GrpcTest :=
  stores (lit "noisy") (lit "k") (xs 60);;
  refused (client_put trusting (plain (put_req (lit "noisy") (lit "k2") (xs 60)))) ResourceExhausted;;
  stores (lit "quiet") (lit "k") (xs 60).

Definition deleting_frees_quota_for_the_next_write : GrpcTest :=
  stores alice (lit "k") (xs 60);;
  fails (client_put trusting (plain (put_req alice (lit "k2") (xs 60))));;
  unwrap (client_delete trusting (plain (del_req alice (lit "k"))));;
  stores alice (lit "k2") (xs 60).

(** [for i in 0..n], until a call is refused: with [ResourceExhausted], and before the
    end. *)
Fixpoint throttled_within {A} (n i : nat) (m : nat → M TestServer Auth.Status A) : GrpcTest :=
  match n with
  | O => lift Panic
  | S n =>
      outcome ← attempt (m i);
      match outcome with
      | Err st => assert_eq (code st) ResourceExhausted
      | _ => throttled_within n (S i) m
      end
  end.

Definition a_tenant_over_its_rate_limit_is_resource_exhausted : GrpcTest :=
  throttled_within 40 0 (λ i, client_put trusting (plain (put_req alice (numbered i) (lit "v")))).

Definition reads_are_throttled_too : GrpcTest :=
  throttled_within 40 0 (λ _, client_get trusting (plain (get_req alice (lit "absent")))).

Definition numbered_ops (n : nat) : list BatchOp := (λ i, put_op (numbered i) (lit "v")) <$> List.seq 0 n.

Definition a_batch_cannot_be_used_to_bypass_the_rate_limit : GrpcTest :=
  unwrap (client_batch trusting (plain (batch_req alice (numbered_ops 4))));;
  refused (client_put trusting (plain (put_req alice (lit "one-more") (lit "v")))) ResourceExhausted.

Definition a_request_costing_more_than_the_whole_allowance_is_invalid_not_throttled : GrpcTest :=
  refused (client_batch trusting (plain (batch_req alice (numbered_ops 10)))) InvalidArgument.

Definition no_quota_configured_means_no_enforcement : GrpcTest :=
  for_each (λ i, stores alice (numbered i) (xs 256)) (List.seq 0 200).

(** ** Limits *)

Definition with_limit (key value batch scan : Z) : Limits :=
  {| max_key_size := key; max_value_size := value; max_batch_ops := batch; max_scan_limit := scan |}.

Definition oversize_value_is_rejected : GrpcTest :=
  refused (client_put trusting (plain (put_req alice (lit "k") (replicate 32 x00)))) ResourceExhausted.

Definition oversize_key_is_rejected : GrpcTest :=
  refused (client_put trusting (plain (put_req alice (replicate 32 x6b) (lit "v")))) InvalidArgument.

Definition oversize_batch_is_rejected : GrpcTest :=
  refused (client_batch trusting (plain (batch_req alice (numbered_ops 5)))) InvalidArgument.

Definition scan_limit_is_capped : GrpcTest :=
  for_each (λ i, stores alice (lit "k0" ++ lit (pretty (Z.of_nat i))) (lit "v")) (List.seq 0 10);;
  n ← scanned alice [] 999; assert_eq n 3.

Definition oversize_tenant_is_rejected : GrpcTest :=
  refused (client_get trusting (plain (get_req (xs 256) (lit "k")))) InvalidArgument.

(** ** Tokens *)

Definition auth_rejects_missing_token : GrpcTest :=
  refused (client_get hunter2 (plain (get_req alice (lit "k")))) Unauthenticated.

Definition auth_accepts_valid_token : GrpcTest :=
  let token := hunter2_token alice [lit "read"; lit "write"] in
  unwrap (client_put hunter2 (with_auth (put_req alice (lit "k") (lit "v")) token));;
  g ← unwrap (client_get hunter2 (with_auth (get_req alice (lit "k")) token));
  assert (found g).

Definition auth_rejects_tenant_mismatch : GrpcTest :=
  refused (client_put hunter2 (with_auth (put_req bob (lit "k") (lit "v"))
    (hunter2_token alice [lit "read"; lit "write"]))) PermissionDenied.

Definition auth_rejects_insufficient_permission : GrpcTest :=
  refused (client_put hunter2 (with_auth (put_req alice (lit "k") (lit "v"))
    (hunter2_token alice [lit "read"]))) PermissionDenied.

Definition auth_admin_perm_grants_everything : GrpcTest :=
  let admin := hunter2_token alice [lit "admin"] in
  unwrap (client_put hunter2 (with_auth (put_req alice (lit "k") (lit "v")) admin));;
  unwrap (client_delete hunter2 (with_auth (del_req alice (lit "k")) admin));;
  mret tt.

(** ** All of them *)

Definition server_suite : list bool :=
  [spawn_server put_get_delete_roundtrip; spawn_server tenant_isolation; spawn_server scan_returns_prefix;
   spawn_server batch_applies_put_and_delete; spawn_server batch_rejects_unknown_opcode;
   spawn_server ttl_expired_key_returns_not_found; spawn_server watch_reports_puts_and_deletes;
   spawn_server watch_only_reports_keys_under_the_requested_prefix;
   spawn_server watch_never_leaks_across_tenants; spawn_server watch_reports_a_batch_op_by_op;
   spawn_watch_server 1024 1 watch_sends_a_heartbeat_while_idle;
   spawn_server watch_requires_the_watch_permission; spawn_server watch_rejects_a_foreign_tenant].

Definition enforcement_suite : list bool :=
  [spawn_quota_server 64 0 a_write_over_the_storage_quota_is_resource_exhausted;
   spawn_quota_server 64 0 a_quota_refusal_does_not_affect_other_tenants;
   spawn_quota_server 64 0 deleting_frees_quota_for_the_next_write;
   spawn_quota_server 0 5 a_tenant_over_its_rate_limit_is_resource_exhausted;
   spawn_quota_server 0 5 reads_are_throttled_too;
   spawn_quota_server 0 4 a_batch_cannot_be_used_to_bypass_the_rate_limit;
   spawn_quota_server 0 3 a_request_costing_more_than_the_whole_allowance_is_invalid_not_throttled;
   spawn_server no_quota_configured_means_no_enforcement;
   spawn_with (with_limit default_max_key_size 16 default_max_batch_ops default_max_scan_limit)
     oversize_value_is_rejected;
   spawn_with (with_limit 16 default_max_value_size default_max_batch_ops default_max_scan_limit)
     oversize_key_is_rejected;
   spawn_with (with_limit default_max_key_size default_max_value_size 2 default_max_scan_limit)
     oversize_batch_is_rejected;
   spawn_with (with_limit default_max_key_size default_max_value_size default_max_batch_ops 3)
     scan_limit_is_capped;
   spawn_server oversize_tenant_is_rejected; spawn_server auth_rejects_missing_token;
   spawn_server auth_accepts_valid_token; spawn_server auth_rejects_tenant_mismatch;
   spawn_server auth_rejects_insufficient_permission; spawn_server auth_admin_perm_grants_everything].

Lemma server_tests_pass : forallb id server_suite = true.
Proof. vm_compute. reflexivity. Qed.

Lemma enforcement_tests_pass : forallb id enforcement_suite = true.
Proof. vm_compute. reflexivity. Qed.

Example the_first_beat_is_due_after_a_second :
  spawn_watch_server 1024 1 heartbeat_is_due_after_a_second = true.
Proof. vm_compute. reflexivity. Qed.

(** Every test of the repository that is translated: of the node, of the core, of
    authentication and the coordinator, of tokens, and of a whole server. *)
Definition repository_suites : list bool :=
  node_suites ++ core_suite ++ small_suite ++ jwt_suite ++ server_suite ++ enforcement_suite.

(** the model passes the repository's own tests.  The unit tests of the codecs, the
    storage backends, the clock, the limits, the log, the quotas, the rate limiter, the
    index, the sweeper, the watch hub, the service, the configuration, tokens, roles,
    the coordinator, the admin server, the audit trail, the interceptor and the watch
    stream, and the integration tests of a whole server behind its interceptor,
    translated one by one and run on the model (on a backend, channels and a limiter
    that follow their libraries' contracts, and with the real checksum), run to their
    end with every assertion true. *)
Theorem repository_tests_pass : forallb id repository_suites = true ∧ len repository_suites = 204.
Proof.
  destruct node_tests_pass as [Hn _], core_tests_pass as [Hc Hs].
  split; [|vm_compute; reflexivity]. unfold repository_suites. rewrite !forallb_app.
  by rewrite Hn, Hc, Hs, jwt_tests_pass, server_tests_pass, enforcement_tests_pass.
Qed.
