(* ===== verification/Proptests.v ===== *)
(** * The repository's property tests, for every input they can draw

    [ferriskv-core/tests/proptest_codec.rs] and [ferriskv-node/tests/proptest_wal.rs]:
    a property test is a test with arguments, and its strategies say what the arguments
    range over.  The tests are translated under their own names; [generated] is the set
    of runs the harness can draw, and every run of it passes, which sampling cannot say.

    One test can fail: [corrupting_one_byte_only_costs_the_tail], when the byte it
    changes is in a length field.  [generated] leaves those draws out and
    [the_corruption_test_can_fail] exhibits one. *)

From Stdlib Require Import Strings.Byte.
From S2P Require Import Prelude Bytes Core KeyCodec ValueCodec Wal Checksum TestKit.

(** ** Strategies *)

(** [[a-zA-Z0-9_-]]. *)
Definition tenant_char (b : byte) : bool :=
  let z := byte_Z b in
  (97 <=? z) && (z <=? 122) || (65 <=? z) && (z <=? 90) || (48 <=? z) && (z <=? 57)
  || (z =? 95) || (z =? 45).

Definition tenant_strategy (t : bytes) : Prop := Forall (λ b, tenant_char b = true) t ∧ 1 ≤ len t ≤ 64.
Definition payload_strategy (p : bytes) : Prop := len p < 1024.

Definition record_strategy : WalOp * bytes * bytes → Prop := λ '(_, k, v), len k < 64 ∧ len v < 256.
Definition log_strategy (rs : list (WalOp * bytes * bytes)) : Prop :=
  Forall record_strategy rs ∧ len rs < 24.

(** ** [proptest_codec.rs] *)

Definition key_roundtrip (tenant : bytes) (sub : Subspace) (payload : bytes) : Test unit unit :=
  encoded ← unwrap (lift (KeyCodec.encode tenant sub payload));
  '(t, s, p) ← unwrap (lift (KeyCodec.decode encoded));
  assert_eq t tenant;;
  assert_eq s sub;;
  assert_eq p payload.

Definition encoded_key_starts_with_tenant_prefix (tenant : bytes) (sub : Subspace) (payload : bytes) :
    Test unit unit :=
  encoded ← unwrap (lift (KeyCodec.encode tenant sub payload));
  prefix ← unwrap (lift (KeyCodec.encode_tenant_prefix tenant));
  assert (starts_with prefix encoded).

(** A draw [prop_assume!] turns down is no failure. *)
Definition distinct_tenants_never_overlap (a b payload : bytes) : Test unit unit :=
  if bool_decide (a = b) then mret tt else
  ka ← unwrap (lift (KeyCodec.encode a Data payload));
  pb ← unwrap (lift (KeyCodec.encode_tenant_prefix b));
  assert (negb (starts_with pb ka)).

Definition subspace_ordering_within_tenant (tenant payload : bytes) : Test unit unit :=
  meta ← unwrap (lift (KeyCodec.encode tenant Metadata payload));
  data ← unwrap (lift (KeyCodec.encode tenant Data payload));
  index ← unwrap (lift (KeyCodec.encode tenant Index payload));
  stats ← unwrap (lift (KeyCodec.encode tenant Stats payload));
  assert (bytes_ltb meta data);;
  assert (bytes_ltb data index);;
  assert (bytes_ltb index stats).

(** [Ord::cmp] on byte strings. *)
Definition bytes_cmp (a b : bytes) : comparison :=
  if bytes_ltb a b then Lt else if bytes_ltb b a then Gt else Eq.

Definition payload_ordering_preserved_within_subspace (tenant : bytes) (sub : Subspace) (a b : bytes) :
    Test unit unit :=
  ka ← unwrap (lift (KeyCodec.encode tenant sub a));
  kb ← unwrap (lift (KeyCodec.encode tenant sub b));
  assert_eq (bytes_cmp ka kb) (bytes_cmp a b).

Definition value_roundtrip_no_ttl (payload : bytes) : Test unit unit :=
  let encoded := ValueCodec.encode payload None in
  decoded ← unwrap (lift (ValueCodec.decode encoded));
  assert_eq (expires_at_ms decoded) None;;
  assert_eq (ValueCodec.value decoded) payload.

Definition value_roundtrip_with_ttl (payload : bytes) (exp : Z) : Test unit unit :=
  let encoded := ValueCodec.encode payload (Some exp) in
  decoded ← unwrap (lift (ValueCodec.decode encoded));
  assert_eq (expires_at_ms decoded) (Some exp);;
  assert_eq (ValueCodec.value decoded) payload.

Definition is_expired_matches_decode (payload : bytes) (exp now : Z) : Test unit unit :=
  let encoded := ValueCodec.encode payload (Some exp) in
  by_helper ← unwrap (lift (ValueCodec.is_expired encoded now));
  assert_eq by_helper (exp <=? now).

Definition decode_never_panics_on_arbitrary_bytes (b : bytes) : Test unit unit :=
  attempt (lift (KeyCodec.decode b));;
  attempt (lift (ValueCodec.decode b));;
  mret tt.

(** ** [proptest_wal.rs] *)

Section wal.
Context `{C : Crc32}.

(** A test on an object made for it. *)
Definition on_object {S A} (s : S) (t : Test S A) : Test unit (A * S) := λ u,
  match t s with
  | (Ok a, s') => (Ok (a, s'), u)
  | _ => (Panic, u)
  end.

Fixpoint append_all (rs : list (WalOp * bytes * bytes)) : Test Wal unit :=
  match rs with
  | [] => mret tt
  | (o, k, v) :: rs => unwrap (append o k v);; append_all rs
  end.

(** Writes the records to a fresh segment and returns the raw file. *)
Definition write_segment (rs : list (WalOp * bytes * bytes)) : Test unit bytes :=
  '(wal, _) ← unwrap (lift (Wal.open (mkFile [] [])).1);
  '(_, wal) ← on_object wal (append_all rs;; unwrap sync);
  mret (contents (wal_file wal)).

(** The parsed records carry the sequence of their place and what was appended. *)
Fixpoint check_records (i : Z) (parsed : list WalRecord) (rs : list (WalOp * bytes * bytes)) : Test unit unit :=
  match parsed, rs with
  | r :: parsed, (o, k, v) :: rs =>
      assert_eq (seq r) i;;
      assert_eq (op r) o;;
      assert_eq (key r) k;;
      assert_eq (Wal.value r) v;;
      check_records (i + 1) parsed rs
  | _, _ => mret tt
  end.

Definition every_appended_record_comes_back_unchanged (rs : list (WalOp * bytes * bytes)) : Test unit unit :=
  bytes ← write_segment rs;
  body ← unwrap (lift (slice_from (E:=Error) bytes HEADER_LEN));
  '(parsed, consumed) ← unwrap (lift (parse_frames body));
  assert_eq consumed (len bytes - HEADER_LEN);;
  assert_eq (len parsed) (len rs);;
  check_records 0 parsed rs.

(** [cut.index(n)] is any number below [n]. *)
Definition truncating_anywhere_yields_a_prefix_of_the_records (rs : list (WalOp * bytes * bytes))
    (cut : Z) : Test unit unit :=
  bytes ← write_segment rs;
  body ← unwrap (lift (slice_from (E:=Error) bytes HEADER_LEN));
  '(whole, _) ← unwrap (lift (parse_frames body));
  torn ← unwrap (lift (slice (E:=Error) body 0 cut));
  '(partial, consumed) ← unwrap (lift (parse_frames torn));
  assert (consumed <=? len torn);;
  assert (len partial <=? len whole);;
  assert_eq partial (take (length partial) whole).

(** [corrupted[at] ^= mask]. *)
Definition flip (b : bytes) (at_ : Z) (mask : Z) : result Error bytes :=
  x ← index b at_; mret (<[Z.to_nat at_ := byte_of_Z (Z.lxor (byte_Z x) mask)]> b).

Definition corrupting_one_byte_only_costs_the_tail (rs : list (WalOp * bytes * bytes)) (i mask : Z) :
    Test unit unit :=
  bytes ← write_segment rs;
  body ← unwrap (lift (slice_from (E:=Error) bytes HEADER_LEN));
  '(clean, _) ← unwrap (lift (parse_frames body));
  corrupted ← unwrap (lift (flip bytes (HEADER_LEN + i) mask));
  body' ← unwrap (lift (slice_from (E:=Error) corrupted HEADER_LEN));
  '(parsed, consumed) ← unwrap (lift (parse_frames body'));
  assert (consumed <=? len corrupted - HEADER_LEN);;
  assert (len parsed <=? len clean);;
  assert_eq parsed (take (length parsed) clean).

Definition reopening_agrees_with_parsing_the_bytes (rs : list (WalOp * bytes * bytes)) : Test unit unit :=
  bytes ← write_segment rs;
  body ← unwrap (lift (slice_from (E:=Error) bytes HEADER_LEN));
  '(direct, _) ← unwrap (lift (parse_frames body));
  '(wal, recovery) ← unwrap (lift (Wal.open (mkFile bytes [])).1);
  assert_eq (records recovery) direct;;
  assert_eq (truncated_bytes recovery) 0;;
  assert_eq (rec_next_seq recovery) (len rs);;
  assert_eq (segment_bytes wal) (len bytes).

Definition arbitrary_bytes_never_panic_the_parser (b : bytes) : Test unit unit :=
  '(records, consumed) ← unwrap (lift (parse_frames b));
  assert (consumed <=? len b);;
  assert (forallb (λ r, len (key r) + len (Wal.value r) <=? consumed) records).

End wal.

(** ** Tests that pass *)

Lemma passes_unwrap {S E A} (r : result E A) a (k : A → Test S unit) s :
  r = Ok a → passes (k a) s = true → passes (unwrap (lift r) ≫= k) s = true.
Proof. by intros ->. Qed.

Lemma passes_then {S} b (t : Test S unit) s :
  b = true → passes t s = true → passes (assert b;; t) s = true.
Proof. by intros ->. Qed.

Lemma passes_last {S} b (s : S) : b = true → passes (assert b) s = true.
Proof. by intros ->. Qed.

Lemma passes_run {S A} (m : Test S A) a (k : A → Test S unit) s s' :
  m s = (Ok a, s') → passes (k a) s' = true → passes (m ≫= k) s = true.
Proof. unfold passes. by intros E; rewrite (M_bind_ok _ _ _ _ _ E). Qed.

(** Steps through a test: every [unwrap] finds what is named and every assertion is
    left to prove. *)
Ltac unwrap_to a := eapply (passes_unwrap _ a); [|cbv beta iota].
Ltac asserts := unfold assert_eq; repeat (apply passes_then); [..|try apply passes_last].

Lemma assert_eq_refl {A} `{EqDecision A} (a b : A) : a = b → bool_decide (a = b) = true.
Proof. by intros ->; apply bool_decide_true. Qed.

(** *** The codecs *)

Lemma tenant_char_ascii b : tenant_char b = true → byte_Z b < 128.
Proof. unfold tenant_char. lia. Qed.

Lemma tenant_strategy_valid t : tenant_strategy t → valid_tenant t.
Proof.
  intros [Hc Hl]. split; [|lia]. clear Hl. induction Hc as [|b t Hb _ IH]; [done|].
  apply tenant_char_ascii in Hb. cbn [utf8_valid]. rewrite (proj2 (Z.ltb_lt _ _)) by lia. done.
Qed.

Lemma tenant_strategy_len t : tenant_strategy t → 1 ≤ len t ≤ 255.
Proof. intros [_ ?]. lia. Qed.

Lemma encode_tenant_prefix_frame t : 1 ≤ len t ≤ 255 → encode_tenant_prefix t = Ok (tenant_frame t).
Proof. intros H. unfold encode_tenant_prefix. by rewrite check_tenant_len_ok. Qed.

Lemma bytes_cmp_frame t s a b : bytes_cmp (frame t s ++ a) (frame t s ++ b) = bytes_cmp a b.
Proof.
  assert (∀ a b, bytes_ltb (frame t s ++ a) (frame t s ++ b) = bytes_ltb a b) as H.
  { intros a' b'. apply eq_true_iff_eq. change (bytes_ltb ?x ?y = true) with (bytes_lt x y).
    rewrite frame_lt. split; [intros [|[]]; [lia|done]|auto]. }
  unfold bytes_cmp. by rewrite !H.
Qed.

Lemma key_roundtrip_passes t s p : tenant_strategy t → passes_pure (key_roundtrip t s p) = true.
Proof.
  intros Ht. unwrap_to (frame t s ++ p); [by apply encode_ok, tenant_strategy_len|].
  unwrap_to (t, s, p); [by apply decode_frame, tenant_strategy_valid|]. asserts; by apply assert_eq_refl.
Qed.

Lemma tenant_prefix_passes t s p :
  tenant_strategy t → passes_pure (encoded_key_starts_with_tenant_prefix t s p) = true.
Proof.
  intros Ht%tenant_strategy_len. unwrap_to (frame t s ++ p); [by apply encode_ok|].
  unwrap_to (tenant_frame t); [by apply encode_tenant_prefix_frame|].
  asserts. apply starts_with_spec, frame_tenant_frame.
Qed.

Lemma distinct_tenants_pass a b p :
  tenant_strategy a → tenant_strategy b → passes_pure (distinct_tenants_never_overlap a b p) = true.
Proof.
  intros Ha%tenant_strategy_len Hb%tenant_strategy_len. unfold distinct_tenants_never_overlap.
  case_bool_decide as Hne; [done|]. unwrap_to (frame a Data ++ p); [by apply encode_ok|].
  unwrap_to (tenant_frame b); [by apply encode_tenant_prefix_frame|].
  asserts. apply negb_true_iff, not_true_iff_false. rewrite starts_with_spec. intros Hp.
  apply Hne. eapply tenant_frame_prefix_free; [lia|lia|apply frame_tenant_frame|exact Hp].
Qed.

Lemma subspace_ordering_passes t p :
  tenant_strategy t → passes_pure (subspace_ordering_within_tenant t p) = true.
Proof.
  intros Ht%tenant_strategy_len. unfold subspace_ordering_within_tenant. rewrite !encode_ok by done.
  do 4 (eapply passes_unwrap; [done|]). asserts; apply frame_lt; left; done.
Qed.

Lemma payload_ordering_passes t s a b :
  tenant_strategy t → passes_pure (payload_ordering_preserved_within_subspace t s a b) = true.
Proof.
  intros Ht%tenant_strategy_len. unwrap_to (frame t s ++ a); [by apply encode_ok|].
  unwrap_to (frame t s ++ b); [by apply encode_ok|]. asserts. apply assert_eq_refl, bytes_cmp_frame.
Qed.

Lemma value_roundtrip_passes p exp :
  u64_ok exp → passes_pure (value_roundtrip_no_ttl p) = true ∧ passes_pure (value_roundtrip_with_ttl p exp) = true.
Proof.
  intros He. split.
  - unwrap_to (mkStoredValue None p); [by apply decode_encode|]. asserts; by apply assert_eq_refl.
  - unwrap_to (mkStoredValue (Some exp) p); [by apply decode_encode|]. asserts; by apply assert_eq_refl.
Qed.

Lemma is_expired_passes p exp now :
  u64_ok exp → passes_pure (is_expired_matches_decode p exp now) = true.
Proof.
  intros He. unwrap_to (exp <=? now); [|asserts; by apply assert_eq_refl].
  by rewrite is_expired_decode, decode_encode.
Qed.

Lemma decode_never_panics_passes b : passes_pure (decode_never_panics_on_arbitrary_bytes b) = true.
Proof.
  unfold passes_pure, passes, decode_never_panics_on_arbitrary_bytes, attempt, lift. unfold_monad.
  pose proof (decode_key_no_panic b). pose proof (decode_value_no_panic b).
  by destruct (KeyCodec.decode b), (ValueCodec.decode b).
Qed.

(** *** The log *)

Definition fits : WalOp * bytes * bytes → Prop := λ '(_, k, v), len k < 2 ^ 32 ∧ len v < 2 ^ 32.

Lemma record_strategy_fits rs : Forall record_strategy rs → Forall fits rs.
Proof. intros H. eapply Forall_impl; [exact H|]. intros [[o k] v]. simpl. lia. Qed.

(** A byte of one of the two length fields of a frame, and of a run of frames. *)
Definition length_byte (r : WalRecord) (j : Z) : bool :=
  (9 <=? j) && (j <? 13) || (13 + len (key r) <=? j) && (j <? 17 + len (key r)).

Fixpoint in_length_field `{Crc32} (rs : list WalRecord) (i : Z) : bool :=
  match rs with
  | [] => false
  | r :: rs =>
      let n := len (encode_frame r) in
      if i <? n then length_byte r i else in_length_field rs (i - n)
  end.

Lemma flipped_differs x mask : 1 ≤ mask ≤ 255 → byte_of_Z (Z.lxor (byte_Z x) mask) ≠ x.
Proof.
  intros Hm E. apply (f_equal byte_Z) in E. rewrite byte_Z_of_Z in E.
  assert (mask = 0); [|lia]. apply Z.bits_inj'. intros n Hn. rewrite Z.bits_0.
  destruct (Z.lt_ge_cases n 8) as [Hlt|Hge].
  - apply (f_equal (λ z, Z.testbit z n)) in E. change 256 with (2 ^ 8) in E.
    rewrite Z.mod_pow2_bits_low, Z.lxor_spec in E by done.
    by destruct (Z.testbit (byte_Z x) n), (Z.testbit mask n).
  - rewrite <-(Z.mod_small mask (2 ^ 8)) by lia. apply Z.mod_pow2_bits_high. lia.
Qed.

Lemma flip_at p x q mask :
  1 ≤ mask ≤ 255 → ∃ y, flip (p ++ x :: q) (len p) mask = Ok (p ++ y :: q) ∧ x ≠ y.
Proof.
  intros Hm. exists (byte_of_Z (Z.lxor (byte_Z x) mask)).
  split; [|intros E; by apply (flipped_differs x mask)].
  unfold flip. rewrite index_app by done. unfold_monad. unfold len. rewrite Nat2Z.id.
  by rewrite insert_app_r_alt, Nat.sub_diag by done.
Qed.

Section wal_tests.
Context `{C : Crc32} `{CO : !Crc32Ok}.

Lemma unwrap_run {S E A} (m : M S E A) s a s' : m s = (Ok a, s') → unwrap m s = (Ok a, s').
Proof. intros E'. unfold unwrap, attempt. unfold_monad. by rewrite E'. Qed.

Lemma append_all_rep rs w l :
  wal_rep w l → faults (wal_file w) = [] → Forall fits rs →
  ∃ w', append_all rs w = (Ok tt, w') ∧ wal_rep w' (mkLog (base l) (changes l ++ rs)) ∧
    faults (wal_file w') = [].
Proof.
  intros Hr Hf Hrs. revert w l Hr Hf. induction Hrs as [|[[o k] v] rs Hx Hrs IH]; intros w l Hr Hf.
  { exists w. rewrite app_nil_r. by destruct l. }
  destruct (exec_rep (Append o k v) w l Hr Hf Hx) as (w1 & E1 & Hr1 & Hf1).
  destruct (IH _ _ Hr1 Hf1) as (w2 & E2 & Hr2 & Hf2). exists w2.
  cbn in E1. unfold mbind, M_bind in E1. destruct (append o k v w) as [[sq|e|] w0] eqn:Ea; [|done..].
  injection E1 as -> ->. split_and!; [|by rewrite (cons_middle _ (changes l)), app_assoc|done].
  cbn [append_all]. unfold mbind, M_bind. by rewrite (unwrap_run _ _ _ _ Ea).
Qed.

Lemma write_segment_ok rs :
  Forall fits rs → write_segment rs tt = (Ok (segment (mkLog 0 rs)), tt) ∧ wf_log (mkLog 0 rs).
Proof.
  intros Hrs. destruct open_fresh as (w & r & E & Hr & Hf & _).
  destruct (append_all_rep rs w empty_log Hr Hf Hrs) as (w1 & E1 & Hr1 & Hf1).
  destruct (exec_rep Sync w1 _ Hr1 Hf1 I) as (w2 & E2 & Hr2 & _).
  cbn in E2. unfold mbind, M_bind in E2. destruct (sync w1) as [[[]|e|] w3] eqn:Es; [|done..].
  injection E2 as ->. split; [|apply Hr1].
  assert (on_object w (append_all rs;; unwrap sync) tt = (Ok (tt, w2), tt)) as Ho.
  { unfold on_object. unfold_monad. by rewrite E1, (unwrap_run _ _ _ _ Es). }
  unfold write_segment. rewrite E. rewrite (M_bind_ok _ _ _ (w, r) tt) by done.
  rewrite (M_bind_ok _ _ _ _ _ Ho).
  cbn. by rewrite (rep_file _ _ Hr2).
Qed.

Lemma segment_body l : slice_from (E:=Error) (segment l) HEADER_LEN = Ok (encode_frames (log_records l)).
Proof. apply slice_from_app. by rewrite len_encode_header. Qed.

Lemma parse_frames_whole rs :
  Forall wf_record rs → parse_frames (encode_frames rs) = Ok (rs, len (encode_frames rs)).
Proof.
  intros Hwf. pose proof (parse_frames_run rs [] Hwf) as H. rewrite app_nil_r in H. by apply H.
Qed.

(** What every test of the log starts with: the segment is written, and parsing it
    whole returns its records. *)
Lemma passes_written rs (k : bytes → bytes → list WalRecord * Z → Test unit unit) :
  Forall fits rs →
  (let l := mkLog 0 rs in wf_log l →
   passes_pure (k (segment l) (encode_frames (log_records l))
     (log_records l, len (encode_frames (log_records l)))) = true) →
  passes_pure (bytes ← write_segment rs;
               body ← unwrap (lift (slice_from (E:=Error) bytes HEADER_LEN));
               x ← unwrap (lift (parse_frames body)); k bytes body x) = true.
Proof.
  intros Hrs Hk. destruct (write_segment_ok rs Hrs) as [E Hwf].
  eapply passes_run; [exact E|]. eapply passes_unwrap; [apply segment_body|].
  eapply passes_unwrap; [by apply parse_frames_whole, wf_log_records|]. by apply Hk.
Qed.

Lemma check_records_pass f n rs :
  (∀ j, (j < length rs)%nat → f j = n + Z.of_nat j) →
  passes_pure (check_records n (imap (λ j '(o, k, v), mkRecord (f j) o k v) rs) rs) = true.
Proof.
  revert f n. induction rs as [|[[o k] v] rs IH]; intros f n Hf; [done|].
  cbn [imap check_records seq op key Wal.value]. unfold assert_eq.
  apply passes_then; [apply assert_eq_refl; rewrite Hf by (simpl; lia); lia|].
  do 3 (apply passes_then; [by apply assert_eq_refl|]).
  apply (IH (f ∘ S)). intros j Hj. simpl. rewrite Hf by (simpl; lia). lia.
Qed.

Lemma len_segment l : len (segment l) = HEADER_LEN + len (encode_frames (log_records l)).
Proof. unfold segment. by rewrite len_app, len_encode_header. Qed.

Lemma every_appended_passes rs :
  log_strategy rs → passes_pure (every_appended_record_comes_back_unchanged rs) = true.
Proof.
  intros [Hrs Hlen]. apply (passes_written rs (λ bytes body '(parsed, consumed), _)).
  { by apply record_strategy_fits. }
  intros l Hwf. asserts.
  - apply assert_eq_refl. rewrite len_segment. lia.
  - apply assert_eq_refl. unfold len. by rewrite length_log_records.
  - apply check_records_pass. intros j Hj. unfold len in Hlen.
    unfold log_seq, U64_MAX. simpl. lia.
Qed.

Lemma prefix_record_test (partial whole : list WalRecord) m n :
  m ≤ n → partial `prefix_of` whole →
  passes_pure (assert (m <=? n);; assert (len partial <=? len whole);;
               assert_eq partial (take (length partial) whole)) = true.
Proof.
  intros Hmn [rest ->]. asserts.
  - by apply Z.leb_le.
  - apply Z.leb_le. pose proof (len_nonneg rest). len_lia.
  - apply assert_eq_refl. by rewrite take_app_length.
Qed.

Lemma truncating_passes rs cut :
  Forall fits rs → 0 ≤ cut ≤ len (encode_frames (log_records (mkLog 0 rs))) →
  passes_pure (truncating_anywhere_yields_a_prefix_of_the_records rs cut) = true.
Proof.
  intros Hrs Hcut. apply (passes_written rs (λ bytes body '(whole, _), _)); [done|].
  intros l Hwf. apply wf_log_records in Hwf as Hrec.
  destruct (len_split cut (encode_frames (log_records l))) as (p & q & E & Hp); [done|].
  unwrap_to p; [by rewrite E; apply slice_to|].
  destruct (encode_frames_cut (log_records l) p Hrec) as (n & tail & -> & Ht & Hn & _); [by exists q|].
  unwrap_to (take n (log_records l), len (encode_frames (take n (log_records l)))).
  { apply parse_frames_run; [by apply Forall_take|done]. }
  apply prefix_record_test; [|by exists (drop n (log_records l)); rewrite take_drop].
  pose proof (len_nonneg tail). len_lia.
Qed.

Lemma reopening_passes rs :
  Forall fits rs → len rs ≤ U64_MAX → passes_pure (reopening_agrees_with_parsing_the_bytes rs) = true.
Proof.
  intros Hrs Hlen. apply (passes_written rs (λ bytes body '(direct, _), _)); [done|].
  intros l Hwf. eapply passes_unwrap.
  { rewrite (open_segment (segment l) [] [] l) by (done || by rewrite app_nil_r). reflexivity. }
  cbv beta iota. asserts; apply assert_eq_refl; [done..| |done].
  unfold log_next, log_seq, len in *. simpl in *. lia.
Qed.

Lemma record_fits_frames rs r : r ∈ rs → len (key r) + len (Wal.value r) ≤ len (encode_frames rs).
Proof.
  intros (a & b & ->)%list_elem_of_split. rewrite encode_frames_app, encode_frames_cons.
  pose proof (len_nonneg (encode_frames a)). pose proof (len_nonneg (encode_frames b)).
  rewrite !len_app, len_encode_frame. lia.
Qed.

Lemma arbitrary_bytes_passes b : passes_pure (arbitrary_bytes_never_panic_the_parser b) = true.
Proof.
  destruct (frames_decompose b) as (rs & tail & -> & Hwf & Ht).
  unwrap_to (rs, len (encode_frames rs)); [by apply parse_frames_run|]. asserts.
  - apply Z.leb_le. pose proof (len_nonneg tail). len_lia.
  - apply forallb_forall. intros r Hr. apply Z.leb_le, record_fits_frames. by apply list_elem_of_In.
Qed.

(** Every byte of a run of frames is a byte of one frame. *)
Lemma frame_at rs i :
  0 ≤ i < len (encode_frames rs) → in_length_field rs i = false →
  ∃ before r after j, rs = before ++ r :: after ∧ i = len (encode_frames before) + j ∧
    0 ≤ j < len (encode_frame r) ∧ length_byte r j = false.
Proof.
  revert i. induction rs as [|r rs IH]; intros i Hi Hf; [change (len (encode_frames [])) with 0 in Hi; lia|].
  cbn [in_length_field] in Hf. destruct (Z.ltb_spec i (len (encode_frame r))).
  { exists [], r, rs, i. change (len (encode_frames [])) with 0. split_and!; (done || lia). }
  rewrite encode_frames_cons, len_app in Hi.
  apply IH in Hf as (before & r' & after & j & -> & Hj & ? & ?); [|clear IH; lia].
  exists (r :: before), r', after, j. rewrite encode_frames_cons, len_app. split_and!; (done || lia).
Qed.

Context `{CD : !Crc32Detects}.

Lemma corrupting_passes rs i mask :
  Forall fits rs → 0 ≤ i < len (encode_frames (log_records (mkLog 0 rs))) → 1 ≤ mask ≤ 255 →
  in_length_field (log_records (mkLog 0 rs)) i = false →
  passes_pure (corrupting_one_byte_only_costs_the_tail rs i mask) = true.
Proof.
  intros Hrs Hi Hm Hf. apply (passes_written rs (λ bytes body '(clean, _), _)); [done|].
  intros l Hwf. apply wf_log_records in Hwf as Hrec. fold l in Hi, Hf.
  destruct (frame_at _ i Hi Hf) as (before & r & after & j & E & -> & Hj & Hlb).
  destruct (len_split j (encode_frame r)) as (p & [|x q] & Er & Hp); [lia|rewrite Er, app_nil_r in Hj; lia|].
  set (pre := encode_header 0 ++ encode_frames before ++ p).
  assert (segment l = pre ++ x :: q ++ encode_frames after) as Hs.
  { unfold segment, pre. rewrite E, encode_frames_app, encode_frames_cons, Er. by rewrite <-!app_assoc. }
  assert (HEADER_LEN + (len (encode_frames before) + j) = len pre) as Hat.
  { unfold pre. rewrite !len_app, len_encode_header. lia. }
  destruct (flip_at pre x (q ++ encode_frames after) mask Hm) as (y & Ef & Hne).
  rewrite E in Hrec. apply Forall_app in Hrec as [Hb Hr]. apply Forall_cons in Hr as [Hr _].
  unwrap_to (pre ++ y :: q ++ encode_frames after); [by rewrite Hat, Hs|].
  unwrap_to (encode_frames before ++ (p ++ y :: q) ++ encode_frames after).
  { unfold pre. rewrite <-!app_assoc. apply slice_from_app. by rewrite len_encode_header. }
  unwrap_to (before, len (encode_frames before)).
  { apply parse_frames_run; [done|]. apply (bad_frame_refused r _ j); [done|by exists p, x, y, q|..];
      unfold length_byte in Hlb; lia. }
  apply prefix_record_test; [|rewrite E; by eexists].
  unfold pre. rewrite !len_app, len_encode_header. pose proof (len_nonneg p).
  pose proof (len_nonneg (y :: q ++ encode_frames after)). lia.
Qed.

End wal_tests.

(** ** Every run the harness can draw *)

(** The runs of the fourteen property tests, each argument from its strategy. *)
Inductive generated `{Crc32} : Test unit unit → Prop :=
| drawn_key_roundtrip t s p :
    tenant_strategy t → payload_strategy p → generated (key_roundtrip t s p)
| drawn_tenant_prefix t s p :
    tenant_strategy t → payload_strategy p → generated (encoded_key_starts_with_tenant_prefix t s p)
| drawn_distinct_tenants a b p :
    tenant_strategy a → tenant_strategy b → payload_strategy p →
    generated (distinct_tenants_never_overlap a b p)
| drawn_subspace_ordering t p :
    tenant_strategy t → payload_strategy p → generated (subspace_ordering_within_tenant t p)
| drawn_payload_ordering t s a b :
    tenant_strategy t → payload_strategy a → payload_strategy b →
    generated (payload_ordering_preserved_within_subspace t s a b)
| drawn_value_no_ttl p : payload_strategy p → generated (value_roundtrip_no_ttl p)
| drawn_value_with_ttl p exp :
    payload_strategy p → u64_ok exp → generated (value_roundtrip_with_ttl p exp)
| drawn_is_expired p exp now :
    payload_strategy p → u64_ok exp → u64_ok now → generated (is_expired_matches_decode p exp now)
| drawn_decode b : len b < 256 → generated (decode_never_panics_on_arbitrary_bytes b)
| drawn_appended rs : log_strategy rs → generated (every_appended_record_comes_back_unchanged rs)
| drawn_truncating rs cut :
    log_strategy rs → 0 ≤ cut < len (encode_frames (log_records (mkLog 0 rs))) + 1 →
    generated (truncating_anywhere_yields_a_prefix_of_the_records rs cut)
| drawn_corrupting rs i mask :
    Forall record_strategy rs → 1 ≤ len rs < 12 →
    0 ≤ i < len (encode_frames (log_records (mkLog 0 rs))) → 1 ≤ mask ≤ 255 →
    in_length_field (log_records (mkLog 0 rs)) i = false →
    generated (corrupting_one_byte_only_costs_the_tail rs i mask)
| drawn_reopening rs : log_strategy rs → generated (reopening_agrees_with_parsing_the_bytes rs)
| drawn_arbitrary b : len b < 1024 → generated (arbitrary_bytes_never_panic_the_parser b).

(** C26: the property tests pass on every input their strategies can draw, not only on the
    ones a run samples: the codec round trips, tenant isolation and ordering, the log's
    round trip through a segment file, a cut at any byte, a reopened segment, arbitrary
    bytes in the parser, and any byte changed outside the length fields, for any
    checksum that notices a changed byte. *)
Theorem property_tests_pass `{C : Crc32} `{CO : !Crc32Ok} `{CD : !Crc32Detects} t
    (Hgen : generated t) : passes_pure t = true.
Proof.
  destruct Hgen.
  - by apply key_roundtrip_passes.
  - by apply tenant_prefix_passes.
  - by apply distinct_tenants_pass.
  - by apply subspace_ordering_passes.
  - by apply payload_ordering_passes.
  - by apply (value_roundtrip_passes p 0).
  - by apply value_roundtrip_passes.
  - by apply is_expired_passes.
  - apply decode_never_panics_passes.
  - by apply every_appended_passes.
  - destruct H as [Hrs _]. apply truncating_passes; [by apply record_strategy_fits|lia].
  - apply corrupting_passes; (done || by apply record_strategy_fits).
  - destruct H as [Hrs Hl]. apply reopening_passes; [by apply record_strategy_fits|unfold U64_MAX; lia].
  - apply arbitrary_bytes_passes.
Qed.

Definition drawn_log : list (WalOp * bytes * bytes) :=
  [(Put, lit "a", lit "1"); (Delete, lit "b", []); (Put, lit "c", lit "value")].

(** The last byte of the second record's checksum, every bit of it. *)
Lemma property_tests_pass_witness :
  passes_pure (corrupting_one_byte_only_costs_the_tail (C:=crc32_ieee) drawn_log 44 255) = true.
Proof.
  apply (property_tests_pass (CO:=crc32_ieee_ok) (CD:=crc32_ieee_detects)).
  apply drawn_corrupting; [|by vm_compute..].
  repeat apply Forall_cons_2; [by vm_compute..|apply Forall_nil_2].
Defined.

(** The one draw left out: the test of [proptest_wal.rs] as it stands fails on a log
    its strategy can draw, of one record whose value is a checksum, when the low byte of
    the value's length goes from 4 to 0.  The record it then finds was never written. *)
Example the_corruption_test_can_fail :
  Forall record_strategy [(Put, lit "k", lure)] ∧
  passes_pure (corrupting_one_byte_only_costs_the_tail (C:=crc32_ieee) [(Put, lit "k", lure)] 14 4) = false.
Proof. split; [repeat constructor|by vm_compute]. Qed.
